(* ===== verification/_CoqProject ===== *)
-Q . S2P
Prelude.v
Handler.v
Cycle.v
BTree.v
Bytes.v
F64.v
Text.v
Sql.v
Quotas.v
Json.v
Actions.v
Memory.v
SecretScreen.v
Clock.v
Crdt.v
Permissions.v
Policy.v
Validate.v
Capability.v
Attestation.v
Governance.v
Approvals.v
Ledger.v
Cid.v
Lineage.v
LineageStore.v
Replay.v
Signals.v
Checkpoints.v
Receive.v
Routines.v
Links.v
MemoryStore.v
MemoryHistory.v
MemoryEffects.v
StoreWitness.v
LinkHistory.v
Coordination.v
