(* ===== verification/Prelude.v ===== *)
(** * A verification development for ai-memory

    ai-memory is a memory and coordination substrate for AI agents: a Rust
    daemon over an SQL store that keeps memories, replicates them between
    peers, lets agents coordinate work, and decides by policy who may write
    what. This library models the part of it that decides: pure functions,
    guards and the sequences of SQL statements of each operation. It is a
    shallow embedding: every Rust function below is a Rocq definition of the
    same name, fallible code returns [result] or [option], and a function that
    writes tables takes the tables and returns them.

    ** Files, components and sources

    - [Prelude] (this file), [Handler], [BTree], [Bytes], [F64], [Text], [Sql], [Json]: Rust's [Result],
      byte-wise string order, [SELECT .. ORDER BY .. LIMIT], semilattice laws
      ([JoinLaws]); the state and error monad of a request handler with the
      rules that carry a relation on the state through it ([stepping]); [BTreeMap<String, _>] as a sorted list; byte strings with
      big-endian and length-prefixed encodings; [f64] as IEEE
      binary64; the [str] functions used; SQLite's integer cells with their
      overflow to reals; [serde_json::Value] with its text codec as an interface
      ([JsonCodec], [JsonCodecLaws]).
    - [Cycle] ([src/src/kg/cycle_check.rs]): the bounded breadth-first walk that
      refuses a reflection edge closing a cycle, over any neighbour lookup.
    - [Quotas] ([src/src/quotas.rs]): the daily and cumulative counters of each
      agent and namespace, charged, refunded and reset.
    - [Actions] ([src/src/models/action.rs], [src/src/actions/mod.rs]): typed
      actions with their state machine, dependency edges and the frontier
      query, single-holder leases. The state is [coord_db], three maps keyed as
      the tables are; [coord_step] is the step relation of the component.
    - [Memory] ([src/src/models/memory.rs]): the memory record, its closed
      vocabularies with their wire spellings ([WireEnum]), the kind filter,
      the lifecycle machine and recall visibility.
    - [SecretScreen] ([src/src/secret_screen.rs]): the credential screen: its
      detectors, the refusal of callers and the masking of rows. A call that may
      panic or never return answers in [Run].
    - [Cid] ([src/src/identity/cid.rs]): content ids.
    - [Clock] ([src/src/models/link.rs]): vector clocks.
    - [Crdt] ([src/src/models/crdt_merge.rs], [src/src/models/crdt_primitives.rs],
      [merge_inbound] of [src/src/storage/mod.rs]): the per-field merge of two
      replicas and the boundary that prepares an untrusted one.
    - [Validate] ([src/src/validate.rs], [src/src/visibility.rs]): the shape
      validators every surface runs on what comes off the wire, and who sees and
      may change a row.
    - [Permissions] ([src/src/governance/mod.rs], [src/src/hooks/decision.rs],
      [src/src/approvals.rs]): permission rules, the glob matcher, hook
      decisions, remembered decisions.
    - [Policy] ([src/src/models/namespace.rs], [src/src/governance/refusal.rs]):
      namespace paths, governance policies, refusals.
    - [Capability] ([src/src/governance/capability.rs]): macaroon tokens, from
      minting to the joiner that may turn a refusal into a grant.
    - [Governance] ([src/src/storage/mod.rs], [set_namespace_standard] to
      [queue_pending_action]): namespace standards, the inheritance chain,
      policy resolution, the write gate. The state is [GovDb].
    - [Approvals] ([src/src/storage/mod.rs], [upsert_pending_action] to
      [sweep_pending_action_timeouts]): the life of a queued action, on
      [ApprDb]: [GovDb] with the audit events emitted.
    - [Ledger] ([src/src/signed_events.rs]): the append-only audit ledger, its
      writer, its verifier and the gap scan, on the list of its rows.
    - [Lineage] ([src/src/identity/lineage.rs]): the key history of an agent, its
      records, the walk that verifies a chain of them with recoveries and
      witnesses. [LineageStore] ([append_lineage_record] and the key bindings of
      [src/src/storage/mod.rs], the rotation ceremony and its events of
      [src/src/signed_events.rs]): the table of lineages and the operations that
      mint, rotate and recover keys.
    - [Replay] ([src/src/identity/replay.rs]): the cache of verified links and the
      nonce cache of each peer with the table behind it.
    - [MemoryStore] ([insert] to [register_agent] of [src/src/storage/mod.rs]):
      the writes of the memory table: upsert, insert
      with a conflict policy, versioned update, lifecycle, touches and the fold of
      the recall ledger, supersession, undo, cloning, registration. The tables are
      those of [Links]. [MemoryHistory] holds the theorems over runs of them,
      [MemoryEffects] those of single operations, [StoreWitness] their instances.
    - [Links], [LinkHistory] ([create_link_inner] to [restore_archived_memory] of
      [src/src/storage/mod.rs], [src/src/mcp/tools/verify.rs]): typed links between memories, their
      attestation, invalidation, verification, and the archive that takes links
      away and brings them back. [Links] holds the tables and operations,
      [LinkHistory] the theorems over runs of them.
    - [Attestation] ([src/src/identity/sign.rs], [src/src/identity/verify.rs]):
      the nine records the program signs, their canonical encodings, signing and
      verification, and the interface [Attested] of a row that carries its
      signature, with its laws.
    - [Signals] ([src/src/models/signal.rs], [src/src/signals/mod.rs]),
      [Checkpoints] ([src/src/models/checkpoint.rs],
      [src/src/checkpoints/mod.rs]) and [Routines] ([src/src/models/routine.rs],
      [src/src/routines/mod.rs], [src/src/mcp/tools/routine.rs]): signed
      messages, gates with a signed verdict, and templates that are frozen,
      signed and run. Each is its table ([SignalDb], [CheckpointDb],
      [RoutineDb]), the statements on it and an instance of [Attested].
    - [Receive] ([src/src/handlers/federation_receive.rs],
      [src/src/federation/receive_auth.rs], [src/src/federation/peer_attestation.rs]):
      the push of a peer: the signal, transition and checkpoint lanes over [Node],
      and what becomes of a pushed row before it is merged.
    - [Coordination] ([src/src/mcp/tools/action.rs], [signal.rs],
      [checkpoint.rs] and [routine.rs] beside it,
      [src/src/coordination_audit.rs]): the requests agents send. [serve] is
      one handler per request over [Substrate], the tables of all the
      components it touches.

    ** How the components interact

    A write meets [Governance.enforce_governance], which resolves the policy
    of the namespace ([Policy], read from the standard [Memory] of the nearest
    level of the chain), evaluates its level, asks [Capability.apply_at_gate]
    whether a presented token lifts a refusal, and queues the write when the
    level asks for approval. [Approvals] decides and replays what was queued,
    resolving the same policy. [Permissions] is the rule layer consulted
    before the gate. Replicas reach a node through [Crdt.merge_inbound_existing],
    on [Memory] rows stamped with [Clock] version vectors. [Actions] is
    independent of the rest and shares the JSON column codec. The events
    [Approvals] emits are rows for [Ledger], which commits to them by hash.
    [Links] asks [Cycle] about a new reflection edge, with the bound of the
    namespace's policy that [Governance] resolves, asks [Permissions] for leave,
    and appends its events to the [Ledger] inside its own transaction. [Quotas]
    charges a store before it happens and refunds one that fails. [Signals],
    [Checkpoints], [Routines] and [Links] sign and verify through [Attestation],
    proved once for any [Attested] row; a run of a routine writes the tables of
    [Actions]. [MemoryStore] works on the tables of [Links], masks each row it
    stores by [SecretScreen] and stamps it by [Cid]; a restore from the archive in
    [Links] validates the metadata and stamps the row the same way, [Coordination]
    screens the metadata it stores, and the cause hash of [Ledger] screens the
    arguments it covers; registering an agent
    again rewrites the row whose metadata binds the key that [LineageStore] reads.
    [Receive] composes the validators of [Validate], the keys of [Attestation],
    the swaps of [Actions], [Signals], [Checkpoints], the storage charge of
    [Quotas] and the nonces of [Replay], and prepares the row that [Crdt] merges. [Coordination] composes [Actions], [Signals], [Checkpoints] and
    [Routines] with the charge of [Quotas] before a write and the event in the
    [Ledger] after it.

    ** What is proved

    - Actions: well-formed tables are preserved; a finished action never
      changes; nothing is done without having been claimed and worked;
      of racing compare-and-swaps one wins; the frontier is exactly the
      runnable actions in order; leases exclude and refine a lock when
      calls run one at a time, and can be granted twice when two calls
      interleave between their statements.
    - Secret screen: it passes exactly the texts in which nothing it is after
      occurs; one private key is masked and nothing else, while a second one no
      longer than the first makes the screen run without end, and one longer than
      the first and all that precedes it comes out in part; screening what was screened
      can find more.
    - Content ids: two memories have one id exactly when they agree on the identity
      fields and the screened texts, unless the bytes hashed for these two collide;
      the id depends on the mode of the node, and a restore mints it anew.
    - Memory and Clock: spellings are exact, sealed states stay invisible,
      clock merge is a semilattice and causality its order.
    - Crdt: the merge is idempotent, commutes, converges for any number of
      replicas in any order on the fields that are joins, when their update times
      are distinct, loses nothing it
      means to keep; the inbound boundary bounds what a peer can claim; with
      the fields for which none of this holds.
    - Permissions: a denial cannot be bypassed; the glob matcher is exact
      where its stars are of one kind, with the patterns it misses.
    - Capability: acceptance is exactly authenticity, caveats and the issuer's
      bounds; attenuation only narrows; caveats cannot be dropped; the joiner
      adds no denial.
    - Governance: the chain is finite and repetition-free under cyclic parent
      links; policies are inherited along it; the gate allows exactly what the
      policy permits or a token grants.
    - Approvals: a row's request is fixed, a decision final within a node,
      consensus counts distinct registered people, only approved rows are
      replayed; and the upsert that reopens a rejected row.
    - Ledger: the row encoding is injective; what the writer appends the
      verifier accepts; the verifier reports exactly the first row that does
      not link; edits that leave the links alone and deletions are detected;
      and the rewrite of a row and one link that is not.
    - Lineage: the verifier accepts exactly the chains that link, and an edit,
      splice or truncation of a witnessed lineage is detected; the stored lineages
      stay verified under every ceremony whose records carry readable dates; one guardian is enough to recover, and
      a recovery without a date is never accepted.
    - Memory store: the table stays well formed under any interleaving of its
      operations; a row evolves forward while they run one at a time; a checked
      update loses no write to a guarded column; the upsert is exact, column by
      column; folding the ledger equals the touches it records and drains it; undo
      restores; and where it goes wrong: a stale update demotes, a clone leaves
      quarantine, a second registration unbinds the key.
    - Replay: over any pushes and restarts the nonce cache answers by the last
      nonces of each peer, within its bounds in memory and on disk.
    - Receive: a push is authentic under the default knobs; a pushed row is owned
      only as its sender may, and attested only by the signature it carries; the
      nonce of a transition is spent once per relaying peer, for the window of the
      cache, which lets another peer replay it and lets an early
      delivery block its own retry; a verified update of a row that is here loses
      its attestation in the merge.
    - Validate: the accepted namespaces are exactly the clean paths and their
      ancestors the prefixes; the subtree scopes show a row exactly to the callers
      whose path, cut short, is a prefix of its namespace.
    - Cycle: the walk decides reachability within its bound and refuses beyond
      it; the path it returns is a path.
    - Links: attested links verify, whatever runs of operations made them, while
      keys do not change and peers date their links; the
      reflections of a namespace stay acyclic under runs of guarded calls, with
      the calls that are not guarded (a restored archive, timestamp ties).
    - Attestation: two signed records with the same bytes are the same record of
      the same kind; signing then verifying succeeds under the signer's key.
    - Signals: a stored message never changes and its stamps are set once; what
      was signed reads back and verifies; the fields the signature leaves out.
    - Checkpoints: a keyholder's verdict verifies; the first verdict from a peer
      stays, which makes replicas depend on arrival order; a second local
      verdict keeps the first one's signature.
    - Routines: a frozen routine is immutable, attestation aside; substitution
      is simultaneous on brace-free text; a run creates exactly what the
      template declares, and leaves what it had created when it fails.
    - Coordination: a sequence of requests is a run of every component it
      touches, so their invariants hold together; a request of a recorded kind that
      succeeds leaves exactly its event in a ledger that can take it, every other
      leaves none; one that fails changes no table, save the charge that a failed send keeps; what the
      recorded hash of an event identifies; how long a lease can last.
    - Quotas: the cap of a day holds under any run of charges, a refused charge
      changes nothing, a check predicts the charge; a failed store is refunded.

    ** Bounds and fuel

    Loops that are not structural take fuel: namespace walks the length of the
    namespace (each step cuts it), the glob matcher a bound its termination
    lemma shows is never reached, the explicit-parent walk the code's own limit
    of eight, the cycle walk its own ceiling, at which it refuses, the fold of the
    recall ledger the length of the ledger (each round drains a memory), the search
    for a free title the code's 1024 suffixes. The loop over key blocks of
    [SecretScreen] can run for ever: its fuel is one turn more than it has places to
    be in, and a run that spends it is proved to have no end. The clocks of the nonce cache are
    taken below 2^63, its windows hold 10 000 nonces for each of 1024 peers. Machine integers are [Z] with the code's saturation or
    conversion written out ([limit_i64], [quorum_met], [i32_or], the
    saturating counters of the merge); strings are UTF-8 bytes, compared as
    Rust and SQLite's BINARY collation compare them.

    ** Parameters

    Code outside the repository is a class: the JSON text codec and derived
    parsers ([JsonCodec], [PolicySerde], [ApprovalSerde], [MemorySerde],
    [ClockSerde]), signatures, hashes, authentication codes and CBOR
    ([CapCrypto], [LedgerCrypto], [KeyBytes]), the text of a database error
    ([SqlDisplay]), the outer hash of content ids ([Blake3]), the logarithm of the
    platform ([Log2]; its law, where one is needed, is exactness on powers of two),
    decoded CBOR ([CborDecode]), date parsing ([Chrono], [UtcClock]), the standard
    base64 of a nonce. Their laws, where a theorem needs one, are separate classes
    with instances in the witnesses. Clock readings, fresh identifiers,
    process-wide settings and the audit sink are arguments.

    ** Not modelled

    The language-model clients, embedding and reranking, vector search, TLS,
    HTTP routing, the command line, configuration files, metrics, logging,
    backup and the PostgreSQL adapter (a second implementation of the same
    operations in another SQL dialect). Of the storage core: the reflection
    write, recall and list queries, garbage collection, forgetting and
    consolidation, encryption at rest, confidence decay; the optional
    append-only spine and field encryption are off in [Links]. Of the federation:
    the envelope signature and the HTTP shape of a push, its deletion, archive,
    link and pending lanes, the sending side with its dead letters and quorum,
    equivocation proofs. Of governance: the chain of external hooks, the rules on
    tool calls, the JSON-lines audit files. [Validate] leaves out the validators
    that run the credential screen over titles, contents and tags. In [Replay] a write reaches the disk before
    the next push is served: the window between the lock and the statement is not
    interleaved. *)
From stdpp Require Export base tactics list strings gmap sorting.
From Stdlib Require Export ZArith Lia.

(* ------------------------------------------------------------------ *)
(** * Fallible code: Rust's [Result] *)

Inductive result (A E : Type) : Type :=
| Ok (a : A)
| Err (e : E).
Arguments Ok {A E} a.
Arguments Err {A E} e.

Declare Scope mem_scope.
Delimit Scope mem_scope with mem.
Open Scope mem_scope.

(** The [?] operator: continue with the value or return the error. *)
Definition result_bind {A B E} (r : result A E) (k : A → result B E) : result B E :=
  match r with Ok a => k a | Err e => Err e end.

Notation "'let?' x ':=' r 'in' k" := (result_bind r (λ x, k))
  (at level 10, x name, r at level 100, k at level 200) : mem_scope.

(** [Option::ok_or]. *)
Definition ok_or {A E} (o : option A) (e : E) : result A E :=
  match o with Some a => Ok a | None => Err e end.

Definition is_ok {A E} (r : result A E) : bool :=
  match r with Ok _ => true | Err _ => false end.

#[global] Instance result_eq_dec {A E} `{EqDecision A, EqDecision E} :
  EqDecision (result A E).
Proof. solve_decision. Defined.

(* ------------------------------------------------------------------ *)
(** * Strings: Rust's [str] order is the byte-wise lexicographic one *)

Definition str_gtb (a b : string) : bool := String.ltb b a.
Notation "a >?s b" := (str_gtb a b) (at level 70, no associativity) : mem_scope.

(** [if b > a { b } else { a }] *)
Definition str_max (a b : string) : string := if b >?s a then b else a.
(** [if b < a { b } else { a }] *)
Definition str_min (a b : string) : string := if a >?s b then b else a.

(** [is_empty] of a sequence. *)
Definition is_nil {A} (l : list A) : bool := match l with [] => true | _ => false end.

(** [Option::is_some] *)
Definition is_some {A} (o : option A) : bool :=
  match o with Some _ => true | None => false end.

Fixpoint starts_with (p s : string) : bool :=
  match p, s with
  | EmptyString, _ => true
  | String a p', String b s' => bool_decide (a = b) && starts_with p' s'
  | String _ _, EmptyString => false
  end.

(* ------------------------------------------------------------------ *)
(** * Machine integers and SQL selection *)

Definition i64_max : Z := 2 ^ 63 - 1.
Definition i64_min : Z := - 2 ^ 63.
Definition u32_max : Z := 2 ^ 32 - 1.
Definition u64_max : Z := 2 ^ 64 - 1.
Definition in_i64 (z : Z) : Prop := (i64_min ≤ z ≤ i64_max)%Z.

(** [i64::checked_add] *)
Definition i64_checked_add (a b : Z) : option Z :=
  let c := (a + b)%Z in
  if decide (i64_min ≤ c ≤ i64_max)%Z then Some c else None.

(** [i64::saturating_add] *)
Definition i64_saturating_add (a b : Z) : Z :=
  Z.max i64_min (Z.min i64_max (a + b)).

(** [i64::try_from(limit).unwrap_or(i64::MAX)] for a [usize]. *)
Definition limit_i64 (limit : Z) : Z := if decide (limit ≤ i64_max)%Z then limit else i64_max.

(** [slice::sort_by]: a stable sort, by insertion from the right. *)
Section stable_sort.
Context {A : Type} (R : relation A) `{!RelDecision R}.

Fixpoint sort_insert (x : A) (l : list A) : list A :=
  match l with
  | [] => [x]
  | y :: l' => if decide (R x y) then x :: l else y :: sort_insert x l'
  end.

Definition stable_sort (l : list A) : list A := foldr sort_insert [] l.

Lemma sort_insert_Permutation x l : sort_insert x l ≡ₚ x :: l.
Proof. induction l as [|y l IH]; simpl; [done|]. case_decide; [done|]. rewrite IH. apply Permutation_swap. Qed.

Lemma stable_sort_Permutation l : stable_sort l ≡ₚ l.
Proof. induction l as [|x l IH]; simpl; [done|]. by rewrite sort_insert_Permutation, IH. Qed.

Lemma StronglySorted_sort_insert `{!Total R, !Transitive R} x l :
  StronglySorted R l → StronglySorted R (sort_insert x l).
Proof.
  induction 1 as [|y l Hl IH Hy]; simpl; [by repeat constructor|]. case_decide as Hxy.
  - repeat constructor; [done..|]. eapply Forall_impl; [exact Hy|]. intros z. by transitivity y.
  - constructor; [done|]. rewrite sort_insert_Permutation. constructor; [|done]. by destruct (total R x y).
Qed.

Lemma StronglySorted_stable_sort `{!Total R, !Transitive R} l : StronglySorted R (stable_sort l).
Proof. induction l as [|x l IH]; simpl; [constructor|]. by apply StronglySorted_sort_insert. Qed.

(** Elements that rank alike stay in the order they came in. *)
Lemma sort_insert_filter (P : A → bool) x l : (∀ y, P x = true → P y = true → R x y) →
  List.filter P (sort_insert x l) = List.filter P (x :: l).
Proof.
  intros HP. induction l as [|y l IH]; [done|]. simpl. case_decide as Hxy; [done|]. simpl. rewrite IH. simpl.
  destruct (P x) eqn:Ex, (P y) eqn:Ey; try done. by destruct Hxy; apply HP.
Qed.

Lemma stable_sort_stable (P : A → bool) l : (∀ x y, P x = true → P y = true → R x y) →
  List.filter P (stable_sort l) = List.filter P l.
Proof.
  intros HP. induction l as [|x l IH]; [done|]. cbn [stable_sort foldr]. rewrite sort_insert_filter by (intros; by apply HP).
  simpl. unfold stable_sort in IH. by rewrite IH.
Qed.
End stable_sort.

(** [SELECT .. ORDER BY .. LIMIT]: the rows a predicate selects, sorted, cut. *)
Definition select {A} (rows : list A) (p : A → bool) (R : relation A)
    `{!RelDecision R} (lim : Z) : list A :=
  take (Z.to_nat lim) (stable_sort R (List.filter p rows)).

(* ------------------------------------------------------------------ *)
(** * Semilattices *)

(** What a per-field merge rule promises to the replicas that apply it. *)
Class JoinLaws {A : Type} (join : A → A → A) : Prop := {
  join_comm : ∀ x y, join x y = join y x;
  join_assoc : ∀ x y z, join x (join y z) = join (join x y) z;
  join_idemp : ∀ x, join x x = x
}.

(* ------------------------------------------------------------------ *)
(** * Tactics *)

(** Case analysis on every [match] and [if] of the goal, closing the
    branches that congruence or linear arithmetic settles. *)
Ltac split_matches :=
  repeat (case_match; simplify_eq/=; try done; try congruence).

Ltac by_cases :=
  intros; split_matches; try lia.

(* ------------------------------------------------------------------ *)
(** * Lemmas *)

Lemma string_compare_refl s : (s ?= s)%string = Eq.
Proof.
  induction s as [|a s IH]; [done|]. simpl. unfold Ascii.compare.
  by rewrite N.compare_refl.
Qed.

Lemma str_gtb_spec a b : (a >?s b) = true ↔ ¬ (a ≤ b)%string.
Proof.
  unfold str_gtb, String.ltb, String.le, String.leb.
  rewrite (String.compare_antisym a b).
  destruct (b ?= a)%string; naive_solver.
Qed.

Lemma str_gtb_false a b : (a >?s b) = false ↔ (a ≤ b)%string.
Proof.
  rewrite <-not_true_iff_false, str_gtb_spec.
  destruct (decide (a ≤ b)%string); naive_solver.
Qed.

Lemma str_le_total (a b : string) : (a ≤ b)%string ∨ (b ≤ a)%string.
Proof. apply String.le_total. Qed.

Lemma str_le_antisym (a b : string) : (a ≤ b)%string → (b ≤ a)%string → a = b.
Proof. intros. by apply (anti_symm String.le). Qed.

Lemma str_le_trans (a b c : string) :
  (a ≤ b)%string → (b ≤ c)%string → (a ≤ c)%string.
Proof. intros. by etrans. Qed.

Lemma str_le_refl (a : string) : (a ≤ a)%string.
Proof. done. Qed.

Create HintDb mem.
#[export] Hint Resolve str_le_refl str_le_trans str_le_antisym : mem.

(** Splits on every string comparison of the goal and of the hypotheses,
    leaving order facts about [≤] instead. *)
Ltac split_strings :=
  repeat match goal with
  | |- context [?a >?s ?b] =>
      let E := fresh "E" in destruct (a >?s b) eqn:E;
      [ apply str_gtb_spec in E | apply str_gtb_false in E ]
  end.

Lemma str_not_le a b : ¬ (a ≤ b)%string → (b ≤ a)%string.
Proof. destruct (str_le_total a b); naive_solver. Qed.

Ltac order_strings :=
  repeat match goal with
  | H : ¬ (?a ≤ ?b)%string |- _ =>
      lazymatch goal with
      | _ : (b ≤ a)%string |- _ => fail
      | _ => pose proof (str_not_le a b H)
      end
  end; eauto 6 with mem.

(** Maximum and minimum for a decidable total order: the one proof of the
    semilattice laws behind every [max]/[min] merge rule. *)
Section order_max.
Context {A : Type} (R : relation A) `{!RelDecision R, !PreOrder R, !AntiSymm (=) R, !Total R}.

Definition order_max (x y : A) : A := if decide (R y x) then x else y.

Lemma order_max_laws : JoinLaws order_max.
Proof.
  assert (∀ x y z, R x y → R y z → R x z) as Htr by (intros; by etrans).
  assert (∀ x y, ¬ R x y → R y x) as Hto
    by (intros x y; destruct (total R x y); naive_solver).
  split; unfold order_max; intros; repeat case_decide; try done;
    solve [ by apply (anti_symm R); eauto | exfalso; eauto ].
Qed.
End order_max.

Lemma join_laws_ext {A} (f g : A → A → A) :
  (∀ x y, f x y = g x y) → JoinLaws g → JoinLaws f.
Proof.
  intros Hfg [Hc Ha Hi]. split; intros; rewrite !Hfg; [apply Hc|apply Ha|apply Hi].
Qed.

#[global] Instance str_max_laws : JoinLaws str_max.
Proof.
  eapply join_laws_ext, (order_max_laws String.le). intros x y.
  unfold str_max, order_max. split_strings; by case_decide.
Qed.

#[global] Instance str_ge_dec : RelDecision (flip String.le).
Proof. intros x y. unfold flip. apply _. Defined.

#[global] Instance str_ge_antisymm : AntiSymm (=) (flip String.le).
Proof. intros x y ??. by apply str_le_antisym. Qed.

#[global] Instance str_ge_total : Total (flip String.le).
Proof. intros x y. apply String.le_total. Qed.

#[global] Instance str_min_laws : JoinLaws str_min.
Proof.
  eapply join_laws_ext, (order_max_laws (flip String.le)).
  intros x y. unfold str_min, order_max.
  split_strings; case_decide; unfold flip in *; try done; by apply str_le_antisym.
Qed.

Lemma str_max_le_l a b : (a ≤ str_max a b)%string.
Proof. unfold str_max. split_strings; order_strings. Qed.

Lemma str_max_le_r a b : (b ≤ str_max a b)%string.
Proof. unfold str_max. split_strings; order_strings. Qed.

Lemma starts_with_app p s : starts_with p ((p +:+ s)) = true.
Proof. induction p as [|a p IH]; simpl; [done|]. by rewrite bool_decide_true. Qed.

Lemma starts_with_iff p s : starts_with p s = true ↔ ∃ t, s = (p +:+ t)%string.
Proof.
  split; [|intros [t ->]; apply starts_with_app].
  revert s; induction p as [|a p IH]; intros [|b s]; simpl; try done; eauto.
  rewrite andb_true_iff, bool_decide_eq_true. intros [-> [t ->]%IH]. by exists t.
Qed.

Lemma existsb_false_iff {A} (f : A → bool) l :
  existsb f l = false ↔ ∀ x, x ∈ l → f x = false.
Proof.
  induction l as [|y l IH]; simpl; [split; [intros _ x Hx; by apply elem_of_nil in Hx|done]|].
  rewrite orb_false_iff, IH. split.
  - intros [? ?] x [->|?]%elem_of_cons; auto.
  - intros H. split; [apply H; left|]. intros x Hx. apply H. by right.
Qed.

Lemma elem_of_list_filter_bool {A} (p : A → bool) (l : list A) x :
  x ∈ List.filter p l ↔ x ∈ l ∧ p x = true.
Proof. rewrite !list_elem_of_In. apply List.filter_In. Qed.

Section select.
Context {A : Type} (R : relation A) `{!RelDecision R}.

Lemma elem_of_sorted_filter rows p x :
  x ∈ stable_sort R (List.filter p rows) ↔ x ∈ rows ∧ p x = true.
Proof. rewrite (stable_sort_Permutation R). apply elem_of_list_filter_bool. Qed.

Lemma select_sound rows p lim x :
  x ∈ select rows p R lim → x ∈ rows ∧ p x = true.
Proof.
  unfold select. intros Hx%subseteq_take. by apply elem_of_sorted_filter in Hx.
Qed.

(** With a limit no smaller than the table, nothing is cut. *)
Lemma select_complete rows p lim x :
  (Z.of_nat (length rows) ≤ lim)%Z → x ∈ rows → p x = true → x ∈ select rows p R lim.
Proof.
  intros Hlim Hx Hp. unfold select. rewrite take_ge; [by apply elem_of_sorted_filter|].
  rewrite (stable_sort_Permutation R).
  pose proof (List.filter_length_le p rows). lia.
Qed.

Lemma select_length rows p lim : length (select rows p R lim) ≤ Z.to_nat lim.
Proof. unfold select. rewrite length_take. lia. Qed.

Context `{!Transitive R, !Total R}.

Lemma select_sorted rows p lim : StronglySorted R (select rows p R lim).
Proof.
  unfold select. pose proof (StronglySorted_stable_sort R (List.filter p rows)) as Hs.
  rewrite <-(take_drop (Z.to_nat lim)) in Hs.
  by apply StronglySorted_app_1_l in Hs.
Qed.

(** Nothing the limit leaves out ranks before something it keeps. *)
Lemma select_best rows p lim x y :
  x ∈ select rows p R lim → y ∈ rows → p y = true → y ∉ select rows p R lim → R x y.
Proof.
  unfold select. intros Hx Hy Hp Hn.
  pose proof (StronglySorted_stable_sort R (List.filter p rows)) as Hs.
  rewrite <-(take_drop (Z.to_nat lim)) in Hs.
  assert (y ∈ stable_sort R (List.filter p rows)) as Hin by by apply elem_of_sorted_filter.
  rewrite <-(take_drop (Z.to_nat lim)), elem_of_app in Hin. destruct Hin as [|Hd]; [done|].
  by eapply (StronglySorted_app_1_elem_of R).
Qed.
End select.

(** [ORDER BY c ASC] and [ORDER BY c DESC] of an integer column. *)
Section columns.
Context {A : Type} (column : A → Z).

Definition asc : relation A := λ a b, (column a ≤ column b)%Z.
Definition desc : relation A := λ a b, (column b ≤ column a)%Z.

#[global] Instance asc_dec : RelDecision asc.
Proof. intros a b. unfold asc. apply _. Defined.
#[global] Instance desc_dec : RelDecision desc.
Proof. intros a b. unfold desc. apply _. Defined.
#[global] Instance asc_trans : Transitive asc.
Proof. intros a b c. unfold asc. lia. Qed.
#[global] Instance desc_trans : Transitive desc.
Proof. intros a b c. unfold desc. lia. Qed.
#[global] Instance asc_total : Total asc.
Proof. intros a b. unfold asc. lia. Qed.
#[global] Instance desc_total : Total desc.
Proof. intros a b. unfold desc. lia. Qed.
End columns.

(** A page of a table: rows of the table the predicate selects, in order, no
    more than the limit, none ranked after a selected row it leaves out, and
    all of them when they fit. *)
Definition page {A} (db : gmap string A) (p : A → bool) (R : relation A) (limit : Z) (rows : list A) : Prop :=
  (∀ r, r ∈ rows → p r = true ∧ ∃ id, db !! id = Some r)
  ∧ StronglySorted R rows
  ∧ length rows ≤ Z.to_nat limit
  ∧ (∀ id r r', db !! id = Some r → p r = true → r ∉ rows → r' ∈ rows → R r' r)
  ∧ ((Z.of_nat (size db) ≤ limit ≤ i64_max)%Z → ∀ id r, db !! id = Some r → p r = true → r ∈ rows).

Lemma elem_of_table_rows {A} (db : gmap string A) r : r ∈ (map_to_list db).*2 ↔ ∃ id, db !! id = Some r.
Proof.
  rewrite list_elem_of_fmap. split.
  - intros ([id r'] & -> & H%elem_of_map_to_list). eauto.
  - intros [id H]. exists (id, r). by rewrite elem_of_map_to_list.
Qed.

Lemma select_page {A} (db : gmap string A) p R `{!RelDecision R, !Transitive R, !Total R} limit :
  page db p R limit (select (map_to_list db).*2 p R (limit_i64 limit)).
Proof.
  split_and!.
  - intros r [Hr Hp]%select_sound. by rewrite elem_of_table_rows in Hr.
  - apply select_sorted; apply _.
  - etrans; [apply select_length|]. unfold limit_i64. case_decide; lia.
  - intros id r r' Hr Hp Hn Hr'. eapply select_best; [apply _..|exact Hr'| |done|done].
    apply elem_of_table_rows. eauto.
  - intros Hlim id r Hr Hp. apply select_complete; [|apply elem_of_table_rows; eauto|done].
    rewrite length_fmap, length_map_to_list.
    unfold limit_i64. rewrite decide_True; lia.
Qed.

(** Folding a join over the same elements in any order gives the same
    result. *)
Section fold_join.
Context {A : Type} (join : A → A → A) `{!JoinLaws join}.

Definition join_onto (a : A) (o : option A) : option A :=
  Some match o with Some b => join a b | None => a end.

Lemma fold_join_onto x xs : foldr join_onto None (x :: xs) = Some (fold_left join xs x).
Proof.
  revert x. induction xs as [|y xs IH]; intros x; [done|].
  cbn [fold_left]. rewrite <-IH. cbn [foldr]. unfold join_onto.
  destruct (foldr _ None xs); by rewrite ?join_assoc.
Qed.

Lemma fold_join_perm x xs y ys :
  x :: xs ≡ₚ y :: ys → fold_left join xs x = fold_left join ys y.
Proof.
  intros Hp. apply (inj Some). rewrite <-!fold_join_onto.
  apply (foldr_permutation_proper (=) join_onto None); [|done].
  intros a b o. unfold join_onto. destruct o as [c|]; [|by rewrite join_comm].
  by rewrite !join_assoc, (join_comm a b).
Qed.
End fold_join.

(** A field that a fold's step joins is the fold of the joined field. *)
Lemma fold_left_field {A B} (step : A → A → A) (f : A → B) (join : B → B → B) :
  (∀ a b, f (step a b) = join (f a) (f b)) →
  ∀ ms m, f (fold_left step ms m) = fold_left join (f <$> ms) (f m).
Proof.
  intros Hf ms. induction ms as [|x ms IH]; intros m; simpl; [done|]. by rewrite IH, Hf.
Qed.
