(* ===== verification/Handler.v ===== *)
(** Request handlers: a small monad of state and failure, in which a failed
    handler keeps what it had written, and the predicate that a handler only
    moves the state along a relation. *)
From S2P Require Import Prelude.

(** A handler over the tables [S]: whatever it answers, the tables are as its
    statements left them. *)
Definition handler (S E A : Type) : Type := S → S * result A E.

#[global] Instance handler_ret {S E} : MRet (handler S E) := λ A a st, (st, Ok a).
#[global] Instance handler_bind {S E} : MBind (handler S E) := λ A B k m st,
  match m st with
  | (st', Ok a) => k a st'
  | (st', Err e) => (st', Err e)
  end.

Section operations.
Context {S E : Type}.

Definition throw {A} (e : E) : handler S E A := λ st, (st, Err e).
Definition gets {A} (f : S → A) : handler S E A := λ st, (st, Ok (f st)).

(** [ok_or_else] followed by [?]. *)
Definition some_or {A} (o : option A) (e : E) : handler S E A :=
  match o with Some a => mret a | None => throw e end.

(** An early return when the condition fails. *)
Definition check (b : bool) (e : E) : handler S E unit := if b then mret tt else throw e.

(** A handler over one of the tables. *)
Definition zoom {T A} (get : S → T) (put : T → S → S) (h : handler T E A) : handler S E A := λ st,
  let '(t, r) := h (get st) in (put t st, r).

(** A statement: a failed one changes nothing. *)
Definition statement {E' A} (lift : E' → E) (f : S → result (S * A) E') : handler S E A := λ st,
  match f st with Ok (st', a) => (st', Ok a) | Err e => (st, Err (lift e)) end.

(** A statement that cannot fail. *)
Definition update {A} (f : S → S * A) : handler S E A := λ st, let '(st', a) := f st in (st', Ok a).
End operations.

Lemma bind_Ok {S E A B} (m : handler S E A) (k : A → handler S E B) st st' a :
  m st = (st', Ok a) → (m ≫= k) st = k a st'.
Proof. unfold mbind, handler_bind. by intros ->. Qed.

Lemma bind_inv {S E A B} (m : handler S E A) (k : A → handler S E B) st st' b :
  (m ≫= k) st = (st', Ok b) → ∃ st1 a, m st = (st1, Ok a) ∧ k a st1 = (st', Ok b).
Proof. unfold mbind, handler_bind. destruct (m st) as [st1 [a|e]]; [eauto|done]. Qed.

(** * Moving along a relation *)

Definition stepping {S E A} (R : relation S) (h : handler S E A) : Prop := ∀ st, R st (h st).1.

Create HintDb steps.

Section stepping.
Context {S E : Type} (R : relation S) `{!PreOrder R}.

Lemma stepping_ret {A} (a : A) : stepping R (mret a : handler S E A).
Proof. intros st. simpl. reflexivity. Qed.

Lemma stepping_throw {A} (e : E) : stepping R (throw e : handler S E A).
Proof. intros st. simpl. reflexivity. Qed.

Lemma stepping_gets {A} (f : S → A) : stepping R (gets f : handler S E A).
Proof. intros st. simpl. reflexivity. Qed.

Lemma stepping_some_or {A} (o : option A) (e : E) : stepping R (some_or o e).
Proof. destruct o; [apply stepping_ret|apply stepping_throw]. Qed.

Lemma stepping_check b (e : E) : stepping R (check b e).
Proof. destruct b; [apply stepping_ret|apply stepping_throw]. Qed.

Lemma stepping_bind {A B} (m : handler S E A) (k : A → handler S E B) :
  stepping R m → (∀ a, stepping R (k a)) → stepping R (m ≫= k).
Proof.
  intros Hm Hk st. specialize (Hm st). unfold mbind, handler_bind.
  destruct (m st) as [st' [a|e]]; simpl in *; [|done]. transitivity st'; [done|apply Hk].
Qed.
End stepping.

#[export] Hint Resolve stepping_ret stepping_throw stepping_gets stepping_some_or stepping_check : steps.

(** Walks down a handler, leaving the tables it touches. *)
Ltac handler_steps :=
  repeat first
    [ progress intros
    | progress cbv zeta
    | solve [eauto with steps typeclass_instances]
    | lazymatch goal with
      | |- stepping _ (_ ≫= _) => apply stepping_bind; [apply _| |]
      | |- stepping _ (match ?x with _ => _ end) => destruct x
      end ].
