(* ===== verification/Cycle.v ===== *)
(** The cycle check run before a [reflects_on] edge is written
    ([src/src/kg/cycle_check.rs]): a breadth-first walk from the target of the
    proposed edge, bounded in depth and failing closed, with the path of the
    cycle it finds. The neighbour lookup is an argument, as it is in the code. *)
From S2P Require Import Prelude.

(* ------------------------------------------------------------------ *)
(** * The walk *)

Definition DEFAULT_MAX_DEPTH : Z := 16.
Definition CYCLE_DEPTH_SAFETY_FACTOR : Z := 2.

Record CycleCheckResult : Type := mkCheck {
  would_cycle : bool;
  cycle_path : list string
}.

(** [u32::saturating_mul]. *)
Definition u32_saturating_mul (a b : Z) : Z := Z.min u32_max (a * b).

Definition walk_bound (max_depth : Z) : Z :=
  let base := if decide (max_depth = 0)%Z then DEFAULT_MAX_DEPTH else max_depth in
  u32_saturating_mul base CYCLE_DEPTH_SAFETY_FACTOR.

(** The [while let] of [reconstruct_path]; [fuel] bounds its turns. *)
Fixpoint walk_back (fuel : nat) (predecessor : gmap string string) (target_id cur : string)
    (segment : list string) : list string :=
  match fuel with
  | O => segment
  | S fuel =>
      match predecessor !! cur with
      | None => segment
      | Some pred =>
          let segment := segment ++ [pred] in
          if decide (pred = target_id) then segment
          else walk_back fuel predecessor target_id pred segment
      end
  end.

Definition reconstruct_path (source_id target_id found_at : string)
    (predecessor : gmap string string) : list string :=
  let segment := reverse (walk_back (size predecessor) predecessor target_id found_at [found_at]) in
  [source_id] ++ segment ++ [source_id].

(** What the two inner loops carry. *)
Record Walk : Type := mkWalk {
  visited : gset string;
  predecessor : gmap string string;
  next_frontier : list string
}.

(** The neighbours of one node: the path when one of them is the source,
    otherwise the walk with the new ones recorded. *)
Fixpoint scan_step (source_id target_id current : string) (step : list string) (w : Walk) :
    list string + Walk :=
  match step with
  | [] => inr w
  | neighbor :: step =>
      if decide (neighbor = source_id)
      then inl (reconstruct_path source_id target_id current (predecessor w))
      else
        let w :=
          if decide (neighbor ∈ visited w) then w
          else mkWalk ({[neighbor]} ∪ visited w) (<[neighbor := current]> (predecessor w))
                 (next_frontier w ++ [neighbor]) in
        scan_step source_id target_id current step w
  end.

Section walk.
Context {E : Type} (neighbors : string → result (list string) E).

Fixpoint scan_frontier (source_id target_id : string) (frontier : list string) (w : Walk) :
    result (list string + Walk) E :=
  match frontier with
  | [] => Ok (inr w)
  | current :: frontier =>
      let? step := neighbors current in
      match scan_step source_id target_id current step w with
      | inl path => Ok (inl path)
      | inr w => scan_frontier source_id target_id frontier w
      end
  end.

(** The [while] loop; [remaining] is the bound less the depth reached. *)
Fixpoint walk_loop (remaining : nat) (source_id target_id : string) (frontier : list string)
    (visited : gset string) (predecessor : gmap string string) : result CycleCheckResult E :=
  match frontier with
  | [] => Ok (mkCheck false [])
  | _ =>
      match remaining with
      | O => Ok (mkCheck true [source_id; target_id])
      | S remaining =>
          let? found := scan_frontier source_id target_id frontier (mkWalk visited predecessor []) in
          match found with
          | inl path => Ok (mkCheck true path)
          | inr (mkWalk visited predecessor next_frontier) =>
              walk_loop remaining source_id target_id next_frontier visited predecessor
          end
      end
  end.

Definition would_create_reflection_cycle_with (source_id target_id : string) (max_depth : Z) :
    result CycleCheckResult E :=
  if decide (source_id = target_id) then Ok (mkCheck true [source_id; target_id])
  else
    walk_loop (Z.to_nat (walk_bound max_depth)) source_id target_id [target_id] {[target_id]} ∅.

(* ------------------------------------------------------------------ *)
(** * Paths and trees *)

(** The graph the lookup answers for. *)
Definition edge (x y : string) : Prop := ∃ step, neighbors x = Ok step ∧ y ∈ step.

(** [trail x l y]: [l] lists the nodes of a path from [x] to [y]. *)
Inductive trail : string → list string → string → Prop :=
| trail_one x : trail x [x] x
| trail_cons x y l z : edge x y → trail y l z → trail x (x :: l) z.

Lemma trail_rtc x l y : trail x l y → rtc edge x y.
Proof. induction 1; [done|]. by eapply rtc_l. Qed.

Section tree.
Context (source_id target_id : string).

(** [chain pred n x]: following predecessors from [x] meets the root after
    [n] steps. *)
Inductive chain (pred : gmap string string) : nat → string → Prop :=
| chain_root : chain pred 0 target_id
| chain_next n x p : pred !! x = Some p → chain pred n p → chain pred (S n) x.

(** The predecessors form a tree over the visited nodes, along edges of the
    graph, rooted at the target and without the source. *)
Record tree (w : Walk) : Prop := mkTree {
  tree_root : target_id ∈ visited w;
  tree_free : predecessor w !! target_id = None;
  tree_dom : ∀ x, is_Some (predecessor w !! x) → x ∈ visited w;
  tree_chain : ∀ x, x ∈ visited w → ∃ n, chain (predecessor w) n x ∧ n ≤ size (predecessor w);
  tree_edge : ∀ x p, predecessor w !! x = Some p → edge p x;
  tree_source : source_id ∉ visited w
}.

Lemma chain_insert pred y c n x : pred !! y = None → chain pred n x →
  chain (<[y := c]> pred) n x.
Proof.
  intros Hy Hc. induction Hc as [|n x p Hp Hc IH]; [constructor|].
  eapply chain_next; [|done]. rewrite lookup_insert_ne; [done|]. intros ->. congruence.
Qed.

Lemma tree_grow w y c next : tree w → c ∈ visited w → edge c y → y ∉ visited w → y ≠ source_id →
  tree (mkWalk ({[y]} ∪ visited w) (<[y := c]> (predecessor w)) next).
Proof.
  intros [Hr Hf Hd Hc He Hs] Hcv Hedge Hy Hys.
  assert (predecessor w !! y = None) as Hyn.
  { apply eq_None_not_Some. intros Hi. by apply Hy, Hd. }
  assert (y ≠ target_id) as Hyt by (intros ->; done).
  split; simpl.
  - set_solver.
  - by rewrite lookup_insert_ne.
  - intros x Hx. destruct (decide (x = y)) as [->|Hne]; [set_solver|].
    rewrite lookup_insert_ne in Hx by done. apply Hd in Hx. set_solver.
  - intros x Hx. rewrite map_size_insert_None by done.
    destruct (decide (x = y)) as [->|Hne].
    + destruct (Hc c Hcv) as (n & Hn & Hle). exists (S n). split; [|lia].
      eapply chain_next; [by rewrite lookup_insert_eq|]. by apply chain_insert.
    + assert (x ∈ visited w) as Hx' by set_solver.
      destruct (Hc x Hx') as (n & Hn & Hle). exists n. split; [by apply chain_insert|lia].
  - intros x p. destruct (decide (x = y)) as [->|Hne].
    + rewrite lookup_insert_eq. by intros [= <-].
    + rewrite lookup_insert_ne by done. apply He.
  - set_solver.
Qed.

Lemma walk_back_trail w fuel n cur seg z :
  tree w → chain (predecessor w) n cur → n ≤ fuel → trail cur (reverse seg) z →
  trail target_id (reverse (walk_back fuel (predecessor w) target_id cur seg)) z.
Proof.
  intros HT. revert n cur seg. induction fuel as [|fuel IH]; intros n cur seg Hc Hn Htr.
  - inversion Hc; subst; [done|lia].
  - simpl. inversion Hc as [|n' x p Hp Hc']; subst; [by rewrite (tree_free _ HT)|].
    rewrite Hp.
    assert (trail p (reverse (seg ++ [p])) z) as Htr'.
    { rewrite reverse_snoc. eapply trail_cons; [by apply (tree_edge _ HT)|done]. }
    case_decide as Hpt; [by subst p|]. apply (IH n'); [done|lia|done].
Qed.

(** A closed walk through the proposed edge. *)
Definition closes (path : list string) : Prop :=
  ∃ seg last, path = [source_id] ++ seg ++ [source_id] ∧ trail target_id seg last ∧ edge last source_id.

Lemma reconstruct_closes w c : tree w → c ∈ visited w → edge c source_id →
  closes (reconstruct_path source_id target_id c (predecessor w)).
Proof.
  intros HT Hc He. destruct (tree_chain _ HT c Hc) as (n & Hn & Hle).
  eexists _, c. split; [reflexivity|]. split; [|done].
  eapply walk_back_trail; [done|done|done|]. constructor.
Qed.

(* ------------------------------------------------------------------ *)
(** * The inner loops *)

Lemma next_compose w w1 w' :
  (∀ x, x ∈ visited w → x ∈ visited w1) →
  (∀ x, x ∈ visited w1 → x ∈ visited w') →
  (∀ x, x ∈ next_frontier w1 ↔ x ∈ next_frontier w ∨ x ∈ visited w1 ∧ x ∉ visited w) →
  (∀ x, x ∈ next_frontier w' ↔ x ∈ next_frontier w1 ∨ x ∈ visited w' ∧ x ∉ visited w1) →
  ∀ x, x ∈ next_frontier w' ↔ x ∈ next_frontier w ∨ x ∈ visited w' ∧ x ∉ visited w.
Proof.
  intros H1 H2 Hn1 Hn' x. rewrite Hn', Hn1. specialize (H1 x). specialize (H2 x).
  destruct (decide (x ∈ visited w1)); tauto.
Qed.

Lemma scan_step_spec c step w : tree w → c ∈ visited w → (∀ y, y ∈ step → edge c y) →
  match scan_step source_id target_id c step w with
  | inl path => closes path
  | inr w' =>
      tree w' ∧ source_id ∉ step
      ∧ (∀ x, x ∈ visited w' ↔ x ∈ visited w ∨ x ∈ step)
      ∧ (∀ x, x ∈ next_frontier w' ↔ x ∈ next_frontier w ∨ x ∈ visited w' ∧ x ∉ visited w)
  end.
Proof.
  revert w. induction step as [|y step IH]; intros w HT Hc He; simpl; [set_solver|].
  assert (edge c y) as Hy by (apply He; left).
  assert (∀ z, z ∈ step → edge c z) as He' by (intros z Hz; apply He; by right).
  case_decide as Hys; [subst y; by apply reconstruct_closes|].
  set (w1 := if decide (y ∈ visited w) then w else _).
  assert (tree w1 ∧ visited w1 = {[y]} ∪ visited w
    ∧ ∀ x, x ∈ next_frontier w1 ↔ x ∈ next_frontier w ∨ x ∈ visited w1 ∧ x ∉ visited w) as (HT1 & Hv1 & Hn1).
  { subst w1. case_decide as Hv; simpl.
    - split; [done|]. split; set_solver.
    - split; [by apply tree_grow|]. split; set_solver. }
  assert (c ∈ visited w1) as Hc1 by set_solver.
  specialize (IH w1 HT1 Hc1 He').
  destruct (scan_step source_id target_id c step w1) as [path|w']; [done|].
  destruct IH as (HT' & Hs & Hv' & Hn'). split; [done|].
  assert (∀ x, x ∈ visited w → x ∈ visited w1) as Hsub by (rewrite Hv1; set_solver).
  split; [by rewrite not_elem_of_cons|]. split; [|apply (next_compose w w1 w'); [done|set_solver|done|done]].
  intros x. rewrite Hv', Hv1, elem_of_union, elem_of_singleton, elem_of_cons. tauto.
Qed.

(** After a frontier: everything it reaches in a step is visited, nothing it
    reaches is the source, and what is new is the next frontier. *)
Lemma scan_frontier_spec frontier w : tree w → (∀ c, c ∈ frontier → c ∈ visited w) →
  match scan_frontier source_id target_id frontier w with
  | Err e => ∃ c, c ∈ frontier ∧ neighbors c = Err e
  | Ok (inl path) => closes path
  | Ok (inr w') =>
      tree w' ∧ visited w ⊆ visited w'
      ∧ (∀ c, c ∈ frontier → ∃ step, neighbors c = Ok step ∧ ∀ y, y ∈ step → y ∈ visited w')
      ∧ (∀ x, x ∈ visited w' → x ∈ visited w ∨ ∃ c, c ∈ frontier ∧ edge c x)
      ∧ (∀ x, x ∈ next_frontier w' ↔ x ∈ next_frontier w ∨ x ∈ visited w' ∧ x ∉ visited w)
  end.
Proof.
  revert w. induction frontier as [|c frontier IH]; intros w HT Hf; simpl; [set_solver|].
  destruct (neighbors c) as [step|e] eqn:Hn; simpl; [|exists c; split; [left|done]].
  assert (∀ y, y ∈ step → edge c y) as He by (intros y Hy; by exists step).
  pose proof (scan_step_spec c step w HT (Hf c (list_elem_of_here _ _)) He) as Hs.
  destruct (scan_step source_id target_id c step w) as [path|w1]; [done|].
  destruct Hs as (HT1 & _ & Hv1 & Hn1).
  assert (∀ d, d ∈ frontier → d ∈ visited w1) as Hf1.
  { intros d Hd. apply Hv1. left. apply Hf. by right. }
  specialize (IH w1 HT1 Hf1).
  destruct (scan_frontier source_id target_id frontier w1) as [[path|w']|e]; [done| |].
  - destruct IH as (HT' & Hsub & Hclosed & Hreach & Hn').
    split; [done|]. split; [set_solver|]. split_and!.
    + intros d [->|Hd]%elem_of_cons; [|by apply Hclosed].
      exists step. split; [done|]. intros y Hy. apply Hsub, Hv1. by right.
    + intros x Hx. apply Hreach in Hx as [Hx|(d & Hd & Hdx)].
      * apply Hv1 in Hx as [Hx|Hx]; [by left|]. right. exists c. split; [left|]. by apply He.
      * right. exists d. split; [by right|done].
    + apply (next_compose w w1 w'); [|done|done|done]. intros x Hx. apply Hv1. by left.
  - destruct IH as (d & Hd & Hde). exists d. split; [by right|done].
Qed.

(* ------------------------------------------------------------------ *)
(** * The walk, level by level *)

(** At depth [k] the frontier holds nodes at distance exactly [k] from the
    target, everything nearer is visited, and the visited nodes off the
    frontier have been looked up and expanded. *)
Record level (k : nat) (frontier : list string) (w : Walk) : Prop := mkLevel {
  lv_tree : tree w;
  lv_cover : ∀ m x, m ≤ k → nsteps edge m target_id x → x ∈ visited w;
  lv_closed : ∀ x, x ∈ visited w → x ∉ frontier →
    ∃ step, neighbors x = Ok step ∧ ∀ y, y ∈ step → y ∈ visited w;
  lv_front : ∀ x, x ∈ frontier →
    x ∈ visited w ∧ nsteps edge k target_id x ∧ ∀ m, m < k → ¬ nsteps edge m target_id x
}.

Lemma level_start next : source_id ≠ target_id →
  level 0 [target_id] (mkWalk {[target_id]} ∅ next).
Proof.
  intros Hne. split; simpl.
  - split; simpl; [set_solver|done| | | |set_solver].
    + intros x [p Hp]. by rewrite lookup_empty in Hp.
    + intros x ->%elem_of_singleton. exists 0. split; [constructor|lia].
    + intros x p Hp. by rewrite lookup_empty in Hp.
  - intros m x Hm Hs. assert (m = 0) as -> by lia. inversion Hs; set_solver.
  - set_solver.
  - intros x ->%list_elem_of_singleton. split; [set_solver|]. split; [constructor|lia].
Qed.

Lemma level_expand_cover k frontier w w' x : level k frontier w →
  visited w ⊆ visited w' →
  (∀ c, c ∈ frontier → ∃ step, neighbors c = Ok step ∧ ∀ y, y ∈ step → y ∈ visited w') →
  nsteps edge (S k) target_id x → x ∈ visited w'.
Proof.
  intros HL Hsub Hclosed (c & Hc & step & Hn & Hx)%nsteps_inv_r.
  assert (c ∈ visited w) as Hcv by (by eapply (lv_cover _ _ _ HL); [|done]).
  destruct (decide (c ∈ frontier)) as [Hf|Hf].
  - apply Hclosed in Hf as (step' & Hn' & Hs). apply Hs. congruence.
  - apply (lv_closed _ _ _ HL) in Hf as (step' & Hn' & Hs); [|done].
    apply Hsub, Hs. congruence.
Qed.

Lemma level_next k frontier w w' : level k frontier w → next_frontier w = [] →
  scan_frontier source_id target_id frontier w = Ok (inr w') →
  level (S k) (next_frontier w') w'.
Proof.
  intros HL Hnil Hscan.
  pose proof (scan_frontier_spec frontier w (lv_tree _ _ _ HL)) as Hspec.
  rewrite Hscan in Hspec.
  destruct Hspec as (HT' & Hsub & Hclosed & Hreach & Hn'); [by intros c Hc; eapply lv_front|].
  split; [done| | |].
  - intros m x Hm Hs. destruct (decide (m = S k)) as [->|Hne].
    + by eapply level_expand_cover.
    + apply Hsub. eapply (lv_cover _ _ _ HL m); [lia|done].
  - intros x Hx Hnx. assert (x ∈ visited w) as Hxw.
    { destruct (decide (x ∈ visited w)); [done|]. exfalso. apply Hnx, Hn'. by right. }
    destruct (decide (x ∈ frontier)) as [Hf|Hf]; [by apply Hclosed|].
    apply (lv_closed _ _ _ HL) in Hf as (step & Hn & Hs); [|done]. exists step. set_solver.
  - intros x Hx. apply Hn' in Hx as [Hx|[Hx Hnx]]; [by rewrite Hnil, elem_of_nil in Hx|].
    split; [done|]. split.
    + apply Hreach in Hx as [Hx|(c & Hc & Hcx)]; [done|].
      eapply nsteps_r; [|done]. by eapply lv_front.
    + intros m Hm Hs. apply Hnx. eapply (lv_cover _ _ _ HL m); [lia|done].
Qed.

Lemma level_forget k frontier v p f f' : level k frontier (mkWalk v p f) → level k frontier (mkWalk v p f').
Proof. intros [[????? Hs] ? ? ?]. split; [split|..]; done. Qed.

(** An exhausted walk has seen everything the target reaches. *)
Lemma level_done k w x : level k [] w → rtc edge target_id x → x ∈ visited w.
Proof.
  intros HL. revert x. apply rtc_ind_r; [apply (tree_root _ (lv_tree _ _ _ HL))|].
  intros y z _ Hyz IH. destruct (lv_closed _ _ _ HL y IH) as (step & Hn & Hs); [apply not_elem_of_nil|].
  destruct Hyz as (step' & Hn' & Hz). apply Hs. congruence.
Qed.

(** Some node is exactly [n] steps away, and no nearer. *)
Definition reaches_depth (n : nat) : Prop :=
  ∃ x, nsteps edge n target_id x ∧ ∀ m, m < n → ¬ nsteps edge m target_id x.

(** What an answer of the walk means; [n] is the bound. *)
Definition answers (n : nat) (r : result CycleCheckResult E) : Prop :=
  match r with
  | Err e => ∃ c, rtc edge target_id c ∧ neighbors c = Err e
  | Ok (mkCheck true path) =>
      closes path ∨ path = [source_id; target_id] ∧ reaches_depth n
  | Ok (mkCheck false path) => path = [] ∧ ¬ rtc edge target_id source_id
  end.

Lemma walk_loop_spec remaining k frontier v p : level k frontier (mkWalk v p []) →
  answers (k + remaining) (walk_loop remaining source_id target_id frontier v p).
Proof.
  revert k frontier v p. induction remaining as [|n IH]; intros k [|c frontier] v p HL;
    try (split; [done|]; intros Hs; apply (tree_source _ (lv_tree _ _ _ HL)); by eapply level_done).
  - right. split; [done|]. exists c. replace (k + 0) with k by lia.
    by apply (lv_front _ _ _ HL); left.
  - cbn [walk_loop].
    pose proof (scan_frontier_spec (c :: frontier) _ (lv_tree _ _ _ HL)) as Hspec.
    pose proof (level_next k (c :: frontier) (mkWalk v p [])) as Hnext.
    destruct (scan_frontier _ _ _ _) as [[path|[v' p' f']]|e]; cbn [result_bind].
    + left. apply Hspec. intros d Hd. by apply (lv_front _ _ _ HL).
    + replace (k + S n) with (S k + n) by lia. apply IH.
      apply (level_forget _ _ _ _ f'), (Hnext (mkWalk v' p' f') HL eq_refl eq_refl).
    + destruct Hspec as (d & Hd & He); [intros d Hd; by apply (lv_front _ _ _ HL)|].
      exists d. split; [|done]. eapply rtc_nsteps_2. by apply (lv_front _ _ _ HL).
Qed.

End tree.

(** The cycle check answers exactly. On a proposed edge to itself it
    refuses. Otherwise: when it allows the edge, the source is not reachable
    from the target, so the edge closes no cycle; when it refuses, either the
    path it reports is a real one (source, target, along existing edges, back
    to source) or some node lies, at its nearest, as far as the bound from the
    target and the walk was cut there; and it fails only with the error of a
    lookup of a node it reached. It always returns. *)
Lemma cycle_check_exact source_id target_id max_depth :
  let answer := would_create_reflection_cycle_with source_id target_id max_depth in
  if decide (source_id = target_id) then answer = Ok (mkCheck true [source_id; target_id])
  else answers source_id target_id (Z.to_nat (walk_bound max_depth)) answer.
Proof.
  unfold would_create_reflection_cycle_with. cbv zeta. case_decide as Hne; [done|].
  apply (walk_loop_spec source_id target_id _ 0). by apply level_start.
Qed.

(** The lookup never fails and no path from the target is as long as the bound:
    what the code calls a legal graph. *)
Definition legal (target_id : string) (bound : nat) : Prop :=
  (∀ x, rtc edge target_id x → is_ok (neighbors x) = true)
  ∧ ∀ n x, nsteps edge n target_id x → n < bound.

(** C40: on a legal graph the check decides reachability: it returns, it refuses
    exactly an edge that would close a cycle, and with a proper edge the path
    it then reports is the cycle. *)
Theorem cycle_check_decides source_id target_id max_depth :
  legal target_id (Z.to_nat (walk_bound max_depth)) →
  ∃ r, would_create_reflection_cycle_with source_id target_id max_depth = Ok r
    ∧ (would_cycle r = true ↔ rtc edge target_id source_id)
    ∧ (would_cycle r = true → source_id ≠ target_id → closes source_id target_id (cycle_path r)).
Proof.
  intros [Hok Hlen]. unfold would_create_reflection_cycle_with. case_decide as Hne.
  { subst. eexists. split; [done|]. simpl. split; [|done]. by split. }
  pose proof (walk_loop_spec source_id target_id (Z.to_nat (walk_bound max_depth)) 0 _ _ _
    (level_start source_id target_id [] Hne)) as Hans.
  destruct (walk_loop _ _ _ _ _ _) as [[[] path]|e]; simpl in Hans.
  - eexists. split; [done|]. simpl.
    destruct Hans as [Hc|(_ & x & Hx & _)]; [|apply Hlen in Hx; lia].
    split; [|done]. split; [|done]. intros _.
    destruct Hc as (seg & last & _ & Hseg & Hlast). eapply rtc_r; [by eapply trail_rtc|done].
  - eexists. split; [done|]. simpl. destruct Hans as [_ Hn]. by split.
  - destruct Hans as (c & Hc & He). apply Hok in Hc. by rewrite He in Hc.
Qed.
End walk.

(* ------------------------------------------------------------------ *)
(** * Acyclic graphs *)

Definition acyclic {A} (R : relation A) : Prop := ∀ x, ¬ tc R x x.

(** A closed walk that uses a new edge [s -> t] gives a path from [t] to [s]
    that does not. *)
Lemma tc_add_edge {A} (R : relation A) s t x y :
  tc (λ x y, R x y ∨ x = s ∧ y = t) x y →
  tc R x y ∨ rtc R x s ∧ rtc R t y ∨ rtc R t s.
Proof.
  induction 1 as [x y [Hxy|[-> ->]]|x y z [Hxy|[-> ->]] Hyz IH].
  - left. by apply tc_once.
  - right; left. split; apply rtc_refl.
  - destruct IH as [IH|[[IH1 IH2]|IH]]; [left; by eapply tc_l| |tauto].
    right; left. split; [by eapply rtc_l|done].
  - destruct IH as [IH|[[IH1 IH2]|IH]]; [| |tauto].
    + right; left. split; [done|by apply tc_rtc].
    + tauto.
Qed.

Lemma acyclic_add_edge {A} (R : relation A) s t :
  acyclic R → ¬ rtc R t s → acyclic (λ x y, R x y ∨ x = s ∧ y = t).
Proof.
  intros HR Hts x [Hx|[[Hxs Htx]|Hx]]%tc_add_edge; [by apply (HR x)| |done].
  apply Hts. by trans x.
Qed.

Lemma acyclic_sub {A} (R R' : relation A) :
  (∀ x y, R x y → R' x y) → acyclic R' → acyclic R.
Proof.
  intros Hsub HR x Hx. apply (HR x). revert Hx. apply (tc_congruence id). exact Hsub.
Qed.

(* ------------------------------------------------------------------ *)
(** * Witnesses *)

Section witnesses.

Definition demo_graph (x : string) : result (list string) string :=
  if decide (x = "a") then Ok ["b"; "c"]
  else if decide (x = "b") then Ok ["d"]
  else if decide (x = "c") then Ok ["d"]
  else Ok [].

Lemma demo_cycle :
  would_create_reflection_cycle_with demo_graph "d" "a" 3 = Ok (mkCheck true ["d"; "a"; "b"; "d"]).
Proof. vm_compute. reflexivity. Qed.

Lemma demo_no_cycle :
  would_create_reflection_cycle_with demo_graph "a" "d" 3 = Ok (mkCheck false []).
Proof. vm_compute. reflexivity. Qed.

Definition demo_rank (x : string) : nat :=
  if decide (x = "a") then 0 else if decide (x = "b") then 1 else if decide (x = "c") then 1 else 2.

Lemma demo_edge_rank x y : edge demo_graph x y → demo_rank x < demo_rank y.
Proof.
  intros (step & Hs & Hy). unfold demo_graph in Hs. unfold demo_rank.
  repeat case_decide; simplify_eq; set_solver by lia.
Qed.

Lemma demo_short n x y : nsteps (edge demo_graph) n x y → n + demo_rank x ≤ demo_rank y.
Proof. induction 1 as [|n x y z Hxy _ IH]; [lia|]. apply demo_edge_rank in Hxy. lia. Qed.

Lemma cycle_check_decides_witness :
  ∃ r, would_create_reflection_cycle_with demo_graph "d" "a" 3 = Ok r
    ∧ (would_cycle r = true ↔ rtc (edge demo_graph) "a" "d")
    ∧ (would_cycle r = true → "d" ≠ "a" → closes demo_graph "d" "a" (cycle_path r)).
Proof.
  apply (cycle_check_decides demo_graph "d" "a" 3). split.
  - intros x _. unfold demo_graph. by repeat case_decide.
  - intros n x Hn. apply demo_short in Hn. revert Hn. unfold demo_rank.
    change (Z.to_nat (walk_bound 3)) with 6. repeat case_decide; lia.
Defined.

(** A chain longer than the bound is refused without a cycle. *)
Lemma demo_overdeep :
  would_create_reflection_cycle_with
    (λ x, Ok (E := string) [if decide (x = "a") then "b" else if decide (x = "b") then "c" else "d"])
    "z" "a" 1 = Ok (mkCheck true ["z"; "a"]).
Proof. vm_compute. reflexivity. Qed.

End witnesses.
