(* ===== verification/BTree.v ===== *)
(** Rust's [BTreeMap<String, V>] as the strictly sorted association list it
    iterates over, with the operations the program uses ([get], [insert],
    [remove], [contains_key], [keys], in-order iteration) and their laws. *)
From S2P Require Import Prelude.

(* ------------------------------------------------------------------ *)
(** * Operations *)

Definition btree (V : Type) : Type := list (string * V).

Definition str_lt (a b : string) : Prop := (a ≤ b)%string ∧ a ≠ b.

Fixpoint bget {V} (k : string) (m : btree V) : option V :=
  match m with
  | [] => None
  | (k', v) :: m' => if decide (k = k') then Some v else bget k m'
  end.

Definition bcontains {V} (k : string) (m : btree V) : bool := is_some (bget k m).

(** Insert at the sorted position, replacing the value of an equal key. *)
Fixpoint binsert {V} (k : string) (v : V) (m : btree V) : btree V :=
  match m with
  | [] => [(k, v)]
  | (k', v') :: m' =>
      if decide (k = k') then (k, v) :: m'
      else if k' >?s k then (k, v) :: (k', v') :: m'
      else (k', v') :: binsert k v m'
  end.

Fixpoint bremove {V} (k : string) (m : btree V) : btree V :=
  match m with
  | [] => []
  | (k', v') :: m' =>
      if decide (k = k') then m' else (k', v') :: bremove k m'
  end.

Definition bkeys {V} (m : btree V) : list string := m.*1.

(** The representation invariant: keys strictly ascending. *)
Definition bwf {V} (m : btree V) : Prop := StronglySorted str_lt (bkeys m).

(* ------------------------------------------------------------------ *)
(** * Laws *)

#[global] Instance str_lt_dec a b : Decision (str_lt a b).
Proof. unfold str_lt. apply _. Defined.

Lemma str_lt_irrefl a : ¬ str_lt a a.
Proof. unfold str_lt. naive_solver. Qed.

Lemma str_lt_trans a b c : str_lt a b → str_lt b c → str_lt a c.
Proof.
  intros [Hab Hn] [Hbc Hm]. split; [by eapply str_le_trans|].
  intros ->. apply Hn. by apply str_le_antisym.
Qed.

Lemma str_lt_gtb a b : str_lt a b ↔ (b >?s a) = true.
Proof.
  rewrite str_gtb_spec. unfold str_lt. split.
  - intros [Hab Hn] Hba. apply Hn. by apply str_le_antisym.
  - intros Hn. split; [by apply str_not_le|]. intros ->. by apply Hn.
Qed.

Section laws.
Context {V : Type}.
Implicit Types (m : btree V) (k : string) (v : V).

Lemma bwf_nil : bwf ([] : btree V).
Proof. constructor. Qed.

Lemma bwf_cons k v m :
  bwf ((k, v) :: m) ↔ bwf m ∧ Forall (str_lt k) (bkeys m).
Proof.
  unfold bwf. simpl. split; [by inversion 1|]. intros []. by constructor.
Qed.

Lemma bget_insert_eq k v m : bget k (binsert k v m) = Some v.
Proof.
  induction m as [|[k' v'] m IH]; simpl; [by rewrite decide_True|].
  repeat case_decide || case_match; simpl; simplify_eq;
    rewrite ?decide_True, ?decide_False by done; done.
Qed.

Lemma bget_insert_ne k k' v m : k ≠ k' → bget k (binsert k' v m) = bget k m.
Proof.
  intros Hne. induction m as [|[k1 v1] m IH]; simpl; [by rewrite decide_False|].
  repeat case_decide || case_match; simplify_eq/=;
    repeat case_decide; simplify_eq/=; done.
Qed.

Lemma bget_keys_None k m : k ∉ bkeys m → bget k m = None.
Proof.
  induction m as [|[k' v'] m IH]; [done|]. unfold bkeys. simpl.
  rewrite not_elem_of_cons. intros [? ?]. rewrite decide_False; auto.
Qed.

Lemma bget_keys k m : is_Some (bget k m) ↔ k ∈ bkeys m.
Proof.
  split.
  - intros [v Hv]. destruct (decide (k ∈ bkeys m)); [done|].
    by rewrite bget_keys_None in Hv.
  - induction m as [|[k' v'] m IH]; unfold bkeys; simpl; [by intros ?%elem_of_nil|].
    rewrite elem_of_cons. case_decide; [by eexists|]. naive_solver.
Qed.

Lemma bwf_head_fresh k v m : bwf ((k, v) :: m) → bget k m = None.
Proof.
  rewrite bwf_cons. intros [_ Hall]. apply bget_keys_None. intros Hin.
  rewrite Forall_forall in Hall. by eapply str_lt_irrefl, Hall.
Qed.

Lemma bget_remove_eq k m : bwf m → bget k (bremove k m) = None.
Proof.
  induction m as [|[k' v'] m IH]; intros Hwf; [done|]. simpl.
  case_decide; subst; [by eapply bwf_head_fresh|].
  simpl. rewrite decide_False by done. apply IH. by apply bwf_cons in Hwf as [].
Qed.

Lemma bget_remove_ne k k' m : k ≠ k' → bget k (bremove k' m) = bget k m.
Proof.
  intros Hne. induction m as [|[k1 v1] m IH]; simpl; [done|].
  repeat case_decide; simplify_eq/=; repeat case_decide; simplify_eq/=; done.
Qed.

Lemma bkeys_insert k v m x : x ∈ bkeys (binsert k v m) ↔ x = k ∨ x ∈ bkeys m.
Proof.
  rewrite <-!bget_keys. destruct (decide (x = k)) as [->|Hne].
  - rewrite bget_insert_eq. naive_solver.
  - rewrite bget_insert_ne by done. naive_solver.
Qed.

Lemma bkeys_remove_sub k m x : x ∈ bkeys (bremove k m) → x ∈ bkeys m.
Proof.
  induction m as [|[k' v'] m IH]; simpl; [done|]. unfold bkeys in *.
  case_decide; simpl; rewrite ?elem_of_cons; naive_solver.
Qed.

Lemma bwf_insert k v m : bwf m → bwf (binsert k v m).
Proof.
  induction m as [|[k' v'] m IH]; intros Hwf; simpl.
  { apply bwf_cons. split; [apply bwf_nil|constructor]. }
  pose proof Hwf as [Hm Hall]%bwf_cons. rewrite Forall_forall in Hall.
  case_decide; subst; [by apply bwf_cons; rewrite Forall_forall|].
  destruct (k' >?s k) eqn:E; apply bwf_cons; rewrite Forall_forall.
  - apply str_lt_gtb in E. split; [done|]. unfold bkeys. simpl.
    intros x [->|Hx]%elem_of_cons; [done|]. eapply str_lt_trans; eauto.
  - split; [by apply IH|]. intros x [->|Hx]%bkeys_insert; [|by apply Hall].
    apply str_gtb_false in E. by split.
Qed.

Lemma bwf_remove k m : bwf m → bwf (bremove k m).
Proof.
  induction m as [|[k' v'] m IH]; intros Hwf; simpl; [done|].
  pose proof Hwf as [Hm Hall]%bwf_cons. case_decide; [done|].
  apply bwf_cons. split; [by apply IH|]. rewrite Forall_forall in *.
  intros x Hx%bkeys_remove_sub. by apply Hall.
Qed.

(** Sorted association lists with the same lookups are equal. *)
Lemma btree_eq m1 m2 :
  bwf m1 → bwf m2 → (∀ k, bget k m1 = bget k m2) → m1 = m2.
Proof.
  revert m2. induction m1 as [|[k1 v1] m1 IH]; intros [|[k2 v2] m2] H1 H2 Heq.
  - done.
  - specialize (Heq k2). simpl in Heq. by rewrite decide_True in Heq.
  - specialize (Heq k1). simpl in Heq. by rewrite decide_True in Heq.
  - pose proof H1 as [Hw1 Ha1]%bwf_cons. pose proof H2 as [Hw2 Ha2]%bwf_cons.
    rewrite Forall_forall in Ha1, Ha2.
    assert (k1 = k2) as <-.
    { pose proof (Heq k1) as E1. pose proof (Heq k2) as E2. simpl in E1, E2.
      rewrite decide_True in E1 by done. rewrite (decide_True (P:=k2=k2)) in E2 by done.
      destruct (decide (k1 = k2)) as [|Hne]; [done|].
      rewrite decide_False in E2 by done.
      assert (k1 ∈ bkeys m2) by (apply bget_keys; by rewrite <-E1).
      assert (k2 ∈ bkeys m1) by (apply bget_keys; by rewrite E2).
      exfalso. eapply str_lt_irrefl, str_lt_trans; eauto. }
    assert (v1 = v2) as <-.
    { specialize (Heq k1). simpl in Heq. rewrite !decide_True in Heq by done. congruence. }
    f_equal. apply IH; [done..|]. intros k. specialize (Heq k). simpl in Heq.
    case_decide; [|done]. subst.
    by rewrite (bwf_head_fresh _ _ _ H1), (bwf_head_fresh _ _ _ H2).
Qed.

(** Writing back the value a key already has changes nothing. *)
Lemma binsert_id k v m : bwf m → bget k m = Some v → binsert k v m = m.
Proof.
  intros Hwf Hk. apply btree_eq; [by apply bwf_insert|done|]. intros x.
  destruct (decide (x = k)) as [->|]; by rewrite ?bget_insert_eq, ?bget_insert_ne.
Qed.

Lemma bremove_id k m : bget k m = None → bremove k m = m.
Proof.
  induction m as [|[k' v'] m IH]; simpl; [done|].
  case_decide; [done|]. intros Hk. by rewrite IH.
Qed.
End laws.

#[export] Hint Resolve bwf_nil bwf_insert bwf_remove : mem.
#[export] Hint Rewrite @bget_insert_eq : mem.
