(* ===== verification/Bytes.v ===== *)
(** Byte strings: UTF-8 text as bytes, big-endian integers and the
    length-prefixed fields the audit encodings are made of, with the lemmas
    that make such encodings readable back. *)
From Stdlib Require Import Strings.Byte.
From S2P Require Import Prelude.

Abbreviation bytes := (list Byte.byte).

#[global] Instance byte_eq_dec : EqDecision Byte.byte.
Proof. exact Byte.byte_eq_dec. Defined.

(* ------------------------------------------------------------------ *)
(** * Operations *)

(** [str::as_bytes]. *)
Definition str_bytes (s : string) : bytes := String.list_byte_of_string s.

(** The low eight bits. *)
Definition byte_of (z : Z) : Byte.byte :=
  match Byte.of_N (Z.to_N (z mod 256)) with Some b => b | None => Byte.x00 end.

(** The low [n] bytes, most significant first; negative integers in two's
    complement. *)
Fixpoint be_bytes (n : nat) (z : Z) : bytes :=
  match n with O => [] | S n => be_bytes n (z / 256) ++ [byte_of z] end.

(** [to_be_bytes] of a 64-bit integer. *)
Definition be64 (z : Z) : bytes := be_bytes 8 z.

(** A length-prefixed field. *)
Definition len_prefixed (field : bytes) : bytes := be64 (Z.of_nat (length field)) ++ field.

#[global] Arguments be64 : simpl never.
#[global] Arguments len_prefixed : simpl never.

(* ------------------------------------------------------------------ *)
(** * Lemmas *)

Lemma str_bytes_app s t : str_bytes (s +:+ t) = str_bytes s ++ str_bytes t.
Proof. unfold str_bytes. induction s as [|c s IH]; [done|]. change (String c s +:+ t) with (String c (s +:+ t)).
  change (Ascii.byte_of_ascii c :: String.list_byte_of_string (s +:+ t)
    = Ascii.byte_of_ascii c :: (String.list_byte_of_string s ++ String.list_byte_of_string t)). by rewrite IH.
Qed.

Lemma str_bytes_inj s t : str_bytes s = str_bytes t → s = t.
Proof.
  intros E. rewrite <-(String.string_of_list_byte_of_string s), <-(String.string_of_list_byte_of_string t).
  unfold str_bytes in E. by rewrite E.
Qed.

Lemma length_str_bytes s : length (str_bytes s) = String.length s.
Proof.
  unfold str_bytes, String.list_byte_of_string. rewrite List.length_map.
  induction s as [|c s IH]; simpl; [done|]. by rewrite IH.
Qed.

Lemma byte_of_inj a b : byte_of a = byte_of b → (a mod 256 = b mod 256)%Z.
Proof.
  assert (∀ z, Z.of_N (Byte.to_N (byte_of z)) = (z mod 256)%Z) as H.
  { intros z. unfold byte_of. pose proof (Z.mod_pos_bound z 256).
    destruct (Byte.of_N (Z.to_N (z mod 256))) as [c|] eqn:E.
    - apply Byte.to_of_N in E. rewrite E. lia.
    - apply Byte.of_N_None_iff in E. lia. }
  intros E. by rewrite <-(H a), <-(H b), E.
Qed.

Lemma length_be_bytes n z : length (be_bytes n z) = n.
Proof. revert z. induction n as [|n IH]; intros z; simpl; [done|]. rewrite length_app, IH. simpl. lia. Qed.

Lemma be_bytes_inj n a b :
  be_bytes n a = be_bytes n b → (a mod 256 ^ Z.of_nat n = b mod 256 ^ Z.of_nat n)%Z.
Proof.
  revert a b. induction n as [|n IH]; intros a b; [by rewrite !Z.mod_1_r|]. simpl be_bytes.
  intros [Hd Hm]%app_inj_tail. apply IH in Hd. apply byte_of_inj in Hm.
  rewrite Nat2Z.inj_succ, Z.pow_succ_r by lia.
  rewrite !Z.rem_mul_r by lia. lia.
Qed.

Lemma be64_inj a b :
  (- 2 ^ 63 ≤ a < 2 ^ 63)%Z → (- 2 ^ 63 ≤ b < 2 ^ 63)%Z → be64 a = be64 b → a = b.
Proof.
  intros Ha Hb E%be_bytes_inj. change (256 ^ Z.of_nat 8)%Z with (2 ^ 64)%Z in E.
  assert ((a - b) mod 2 ^ 64 = 0)%Z as H.
  { rewrite Zminus_mod, E, Z.sub_diag. done. }
  apply Z.mod_divide in H as [k Hk]; lia.
Qed.

Lemma be64_nat_inj a b :
  (Z.of_nat a < 2 ^ 64)%Z → (Z.of_nat b < 2 ^ 64)%Z → be64 (Z.of_nat a) = be64 (Z.of_nat b) → a = b.
Proof.
  intros Ha Hb E%be_bytes_inj. change (256 ^ Z.of_nat 8)%Z with (2 ^ 64)%Z in E.
  rewrite !Z.mod_small in E by lia. lia.
Qed.

(** A field can be read off the front, whatever follows it. *)
Lemma len_prefixed_inj a b x y :
  (Z.of_nat (length a) < 2 ^ 64)%Z → (Z.of_nat (length b) < 2 ^ 64)%Z →
  len_prefixed a ++ x = len_prefixed b ++ y → a = b ∧ x = y.
Proof.
  intros Ha Hb. unfold len_prefixed. rewrite <-!app_assoc. intros E.
  apply app_inj_1 in E as [El E]; [|by unfold be64; rewrite !length_be_bytes].
  apply be64_nat_inj in El; [|done|done]. by apply app_inj_1 in E.
Qed.
