(* ===== verification/F64.v ===== *)
(** Rust's [f64]: IEEE-754 binary64 values with the comparisons of
    [PartialOrd] and [PartialEq] ([NaN] is unordered, the two zeros are
    equal), as the standard library's [spec_float]. *)
From Stdlib Require Import Floats.SpecFloat.
From S2P Require Import Prelude.

(* ------------------------------------------------------------------ *)
(** * Values and comparisons *)

Abbreviation f64 := spec_float.

Definition f64_ltb (x y : f64) : bool := SFltb x y.
Definition f64_leb (x y : f64) : bool := SFleb x y.
Definition f64_gtb (x y : f64) : bool := SFltb y x.
Definition f64_geb (x y : f64) : bool := SFleb y x.
Definition f64_eqb (x y : f64) : bool := SFeqb x y.

Definition f64_is_nan (x : f64) : bool :=
  match x with S754_nan => true | _ => false end.

Definition f64_is_finite (x : f64) : bool :=
  match x with S754_nan | S754_infinity _ => false | _ => true end.

(** Source literals, as the binary64 value the compiler rounds them to. *)
Definition f64_zero : f64 := S754_zero false.
Definition f64_one : f64 := S754_finite false 4503599627370496 (-52).
Definition f64_0_5 : f64 := S754_finite false 4503599627370496 (-53).
Definition f64_0_7 : f64 := S754_finite false 6305039478318694 (-53).
Definition f64_0_95 : f64 := S754_finite false 8556839292003942 (-53).

Definition f64_3_5 : f64 := S754_finite false 7881299347898368 (-51).

(** [n as f64] and the arithmetic of [f64], rounded to nearest. *)
Definition f64_of_Z (n : Z) : f64 := binary_normalize 53 1024 n 0 false.
Definition f64_div (x y : f64) : f64 := SFdiv 53 1024 x y.
Definition f64_mul (x y : f64) : f64 := SFmul 53 1024 x y.
Definition f64_sub (x y : f64) : f64 := SFsub 53 1024 x y.

#[global] Instance f64_eq_dec : EqDecision f64.
Proof. solve_decision. Defined.

(* ------------------------------------------------------------------ *)
(** * Laws *)

Lemma pos_compare_cont_eq m n : PosDef.Pos.compare_cont Eq m n = (m ?= n)%positive.
Proof. done. Qed.

Lemma f64_compare_antisym x y :
  SFcompare y x = CompOpp <$> SFcompare x y.
Proof.
  destruct x as [[]|[]| |[] m e], y as [[]|[]| |[] m' e']; simpl; try done;
    rewrite (Z.compare_antisym e e'); destruct (e ?= e')%Z; simpl; try done;
    rewrite ?(pos_compare_cont_eq m m'), ?(pos_compare_cont_eq m' m),
      ?(Pos.compare_antisym m m');
    destruct (m ?= m')%positive; reflexivity.
Qed.

(** Two doubles neither of which is greater are equal for [==], unless one
    of them is [NaN]. *)
Lemma f64_not_gt_eqb x y :
  f64_is_nan x = false → f64_is_nan y = false →
  f64_gtb x y = false → f64_gtb y x = false → f64_eqb x y = true.
Proof.
  intros Hx Hy. unfold f64_gtb, f64_eqb, SFltb, SFeqb.
  rewrite (f64_compare_antisym x y).
  destruct (SFcompare x y) as [[]|] eqn:E; simpl; try done.
  destruct x as [|[]| |[] ? ?], y as [|[]| |[] ? ?]; simpl in *; try done;
    by repeat case_match.
Qed.

Lemma f64_gtb_asym x y : f64_gtb x y = true → f64_gtb y x = false.
Proof.
  unfold f64_gtb, SFltb. rewrite (f64_compare_antisym x y).
  by destruct (SFcompare x y) as [[]|].
Qed.

Lemma f64_eqb_refl x : f64_is_nan x = false → f64_eqb x x = true.
Proof.
  unfold f64_eqb, SFeqb.
  destruct x as [|[]| |[] m e]; simpl; try done;
    by rewrite Z.compare_refl, pos_compare_cont_eq, Pos.compare_refl.
Qed.

Lemma f64_gtb_irrefl x : f64_gtb x x = false.
Proof.
  destruct (f64_gtb x x) eqn:E; [|done]. by rewrite (f64_gtb_asym _ _ E) in E.
Qed.

(** [SFcompare] orders by sign and class, then exponent, then mantissa. *)
Definition f64_key (x : f64) : Z * Z * Z :=
  match x with
  | S754_infinity true => (0, 0, 0)
  | S754_finite true m e => (1, - e, - Zpos m)
  | S754_zero _ => (2, 0, 0)
  | S754_finite false m e => (3, e, Zpos m)
  | S754_infinity false => (4, 0, 0)
  | S754_nan => (5, 0, 0)
  end%Z.

Definition key_lt (a b : Z * Z * Z) : Prop :=
  (a.1.1 < b.1.1 ∨ a.1.1 = b.1.1 ∧ (a.1.2 < b.1.2 ∨ a.1.2 = b.1.2 ∧ a.2 < b.2))%Z.

Lemma f64_gtb_key x y :
  f64_is_nan x = false → f64_is_nan y = false →
  f64_gtb x y = true ↔ key_lt (f64_key y) (f64_key x).
Proof.
  unfold f64_gtb, SFltb, key_lt.
  destruct x as [[]|[]| |[] m e], y as [[]|[]| |[] m' e']; simpl; try done; intros _ _;
    try (split; [done|lia]); try (split; [lia|done]);
    destruct (Z.compare_spec e' e); simpl; rewrite ?(pos_compare_cont_eq m' m);
    try (destruct (Pos.compare_spec m' m)); simpl; (split; [intros ?; try done; lia|intros ?; try done; lia]).
Qed.

Lemma f64_gtb_nan x y : f64_is_nan x = true ∨ f64_is_nan y = true → f64_gtb x y = false.
Proof. destruct x as [|[]| |[]], y as [|[]| |[]]; simpl; naive_solver. Qed.

Lemma f64_gtb_trans x y z :
  f64_gtb x y = true → f64_gtb y z = true → f64_gtb x z = true.
Proof.
  intros Hxy Hyz.
  destruct (f64_is_nan x) eqn:Ex; [by rewrite f64_gtb_nan in Hxy by auto|].
  destruct (f64_is_nan y) eqn:Ey; [by rewrite f64_gtb_nan in Hxy by auto|].
  destruct (f64_is_nan z) eqn:Ez; [by rewrite f64_gtb_nan in Hyz by auto|].
  rewrite f64_gtb_key in * by done. unfold key_lt in *. lia.
Qed.

Lemma f64_gtb_weak x y z :
  f64_is_nan y = false →
  f64_gtb x z = true → f64_gtb x y = false → f64_gtb y z = true.
Proof.
  intros Ey Hxz Hxy.
  destruct (f64_is_nan x) eqn:Ex; [by rewrite f64_gtb_nan in Hxz by auto|].
  destruct (f64_is_nan z) eqn:Ez; [by rewrite f64_gtb_nan in Hxz by auto|].
  apply not_true_iff_false in Hxy. rewrite f64_gtb_key in * by done. unfold key_lt in *. lia.
Qed.
