(* ===== verification/Text.v ===== *)
(** The parts of Rust's [str] API the program uses on UTF-8 bytes:
    [split] on a separator, [trim] (Unicode white space), ASCII case folding
    and joining, with the split/join round trip. *)
From Stdlib Require Ascii.
From S2P Require Import Prelude.

Abbreviation ascii := Ascii.ascii.

(* ------------------------------------------------------------------ *)
(** * Operations *)

Definition comma : ascii := Ascii.ascii_of_N 44.
Definition slash : ascii := Ascii.ascii_of_N 47.

(** [s.split(sep)]: always at least one piece. *)
Fixpoint str_split (sep : ascii) (s : string) : list string :=
  match s with
  | EmptyString => [""]
  | String c s' =>
      if decide (c = sep) then "" :: str_split sep s'
      else match str_split sep s' with
           | [] => [String c ""]
           | t :: ts => String c t :: ts
           end
  end.

Fixpoint str_join (sep : string) (l : list string) : string :=
  match l with
  | [] => ""
  | [x] => x
  | x :: l' => x +:+ sep +:+ str_join sep l'
  end.

Fixpoint str_contains_char (c : ascii) (s : string) : bool :=
  match s with
  | EmptyString => false
  | String a s' => bool_decide (a = c) || str_contains_char c s'
  end.

Definition byte_in (lo hi : N) (c : ascii) : bool :=
  (lo <=? Ascii.N_of_ascii c)%N && (Ascii.N_of_ascii c <=? hi)%N.
Definition byte_is (n : N) (c : ascii) : bool := byte_in n n c.

(** The UTF-8 encodings of the characters with the [White_Space] property. *)
Definition ws1 (a : ascii) : bool := byte_in 9 13 a || byte_is 32 a.
Definition ws2 (a b : ascii) : bool := byte_is 194 a && (byte_is 133 b || byte_is 160 b).
Definition ws3 (a b c : ascii) : bool :=
  (byte_is 225 a && byte_is 154 b && byte_is 128 c)
  || (byte_is 226 a && byte_is 128 b
      && (byte_in 128 138 c || byte_is 168 c || byte_is 169 c || byte_is 175 c))
  || (byte_is 226 a && byte_is 129 b && byte_is 159 c)
  || (byte_is 227 a && byte_is 128 b && byte_is 128 c).

Section trim_with.
Variables (w2 : ascii → ascii → bool) (w3 : ascii → ascii → ascii → bool).

Fixpoint trim_start_with (s : string) : string :=
  match s with
  | String a s1 =>
      if ws1 a then trim_start_with s1
      else match s1 with
           | String b s2 =>
               if w2 a b then trim_start_with s2
               else match s2 with
                    | String c s3 => if w3 a b c then trim_start_with s3 else s
                    | EmptyString => s
                    end
           | EmptyString => s
           end
  | EmptyString => s
  end.
End trim_with.

Definition trim_start : string → string := trim_start_with ws2 ws3.
(** Trimming the end reads the same encodings backwards. *)
Definition trim_end (s : string) : string :=
  String.rev (trim_start_with (λ a b, ws2 b a) (λ a b c, ws3 c b a) (String.rev s)).

Definition str_trim (s : string) : string := trim_end (trim_start s).

Definition ascii_lower (c : ascii) : ascii :=
  if byte_in 65 90 c then Ascii.ascii_of_N (Ascii.N_of_ascii c + 32) else c.

Fixpoint to_ascii_lowercase (s : string) : string :=
  match s with
  | EmptyString => ""
  | String c s' => String (ascii_lower c) (to_ascii_lowercase s')
  end.

Fixpoint str_all (p : ascii → bool) (s : string) : bool :=
  match s with EmptyString => true | String a s' => p a && str_all p s' end.

Definition byte_len (s : string) : Z := Z.of_nat (String.length s).

(** [str::is_char_boundary] within the string. *)
Definition is_char_boundary (s : string) (i : Z) : bool :=
  if (i =? 0)%Z then true
  else match String.get (Z.to_nat i) s with
       | Some a => negb (byte_in 128 191 a)
       | None => (i =? byte_len s)%Z
       end.

(** The slices [&s[n..]] and [&s[..n]]. *)
Fixpoint str_drop (n : nat) (s : string) : string :=
  match n, s with S n, String _ s => str_drop n s | _, _ => s end.

Fixpoint str_take (n : nat) (s : string) : string :=
  match n, s with S n, String c s => String c (str_take n s) | _, _ => "" end.

(** [str::find] of a literal. *)
Fixpoint str_find (needle s : string) : option nat :=
  if starts_with needle s then Some 0
  else match s with String _ s => S <$> str_find needle s | EmptyString => None end.

Definition str_is_empty (s : string) : bool := bool_decide (s = "").

(** [str::contains] and [str::replace] of a non-empty pattern, whose matches
    do not overlap; [skip] counts what is left of the last match. *)
Fixpoint str_contains (needle s : string) : bool :=
  starts_with needle s || match s with String _ s => str_contains needle s | EmptyString => false end.

Fixpoint str_replace_from (needle replacement : string) (skip : nat) (s : string) : string :=
  match s with
  | EmptyString => ""
  | String c s' =>
      match skip with
      | S skip => str_replace_from needle replacement skip s'
      | O =>
          if starts_with needle s
          then replacement +:+ str_replace_from needle replacement (String.length needle - 1) s'
          else String c (str_replace_from needle replacement 0 s')
      end
  end.

Definition str_replace (needle replacement s : string) : string := str_replace_from needle replacement 0 s.

(* ------------------------------------------------------------------ *)
(** * Lemmas *)

Lemma str_app_cons c s t : (String c s +:+ t) = String c (s +:+ t).
Proof. done. Qed.

Lemma str_app_nil_r s : (s +:+ "") = s.
Proof. induction s as [|c s IH]; [done|]. by rewrite str_app_cons, IH. Qed.

Lemma str_app_assoc a b c : (a +:+ (b +:+ c)) = ((a +:+ b) +:+ c).
Proof. induction a as [|x a IH]; [done|]. by rewrite !str_app_cons, IH. Qed.

Lemma str_split_no_sep sep s : str_contains_char sep s = false → str_split sep s = [s].
Proof.
  induction s as [|c s IH]; simpl; [done|].
  rewrite orb_false_iff, bool_decide_eq_false. intros [Hne Hs].
  rewrite decide_False by done. by rewrite IH.
Qed.

Lemma str_split_app sep a s :
  str_contains_char sep a = false →
  str_split sep (a +:+ String sep s) = a :: str_split sep s.
Proof.
  induction a as [|c a IH]; [by simpl; rewrite decide_True|].
  rewrite str_app_cons. simpl. rewrite orb_false_iff, bool_decide_eq_false.
  intros [Hne Ha]. rewrite decide_False by done. by rewrite IH.
Qed.

(** Joining pieces free of the separator and splitting again gives them back. *)
Lemma str_split_join sep l :
  l ≠ [] → Forall (λ s, str_contains_char sep s = false) l →
  str_split sep (str_join (String sep "") l) = l.
Proof.
  intros Hl Hall. induction Hall as [|x l Hx Hall IH]; [done|].
  destruct l as [|y l]; [by apply str_split_no_sep|].
  change (str_join (String sep "") (x :: y :: l))
    with (x +:+ String sep (str_join (String sep "") (y :: l))).
  rewrite str_split_app by done. by rewrite IH.
Qed.

Lemma str_split_nonempty sep s : str_split sep s ≠ [].
Proof. destruct s; simpl; [done|]. repeat case_match; done. Qed.

(** Without an occurrence, replacing does nothing. *)
Lemma str_replace_absent needle repl s : str_contains needle s = false → str_replace needle repl s = s.
Proof.
  unfold str_replace. induction s as [|c s IH]; [done|]. intros H.
  change (starts_with needle (String c s) || str_contains needle s = false) in H.
  apply orb_false_iff in H as [Hs H]. cbn [str_replace_from]. rewrite Hs, IH; done.
Qed.

(** What is left of a match is skipped. *)
Lemma str_replace_skip needle repl a s :
  str_replace_from needle repl (String.length a) (a +:+ s) = str_replace_from needle repl 0 s.
Proof. induction a as [|c a IH]; [done|]. exact IH. Qed.

(** At a match the replacement is written and the match skipped. *)
Lemma str_replace_match needle repl s :
  needle ≠ "" → str_replace needle repl (needle +:+ s) = (repl +:+ str_replace needle repl s).
Proof.
  unfold str_replace. destruct needle as [|c n]; [done|]. intros _.
  pose proof (starts_with_app (String c n) s) as Hs. rewrite str_app_cons in *.
  cbn [str_replace_from]. rewrite Hs. f_equal. cbn [String.length]. rewrite Nat.sub_succ, Nat.sub_0_r.
  apply str_replace_skip.
Qed.

(** Where nothing matches the character is copied. *)
Lemma str_replace_no_match needle repl c s :
  starts_with needle (String c s) = false →
  str_replace needle repl (String c s) = String c (str_replace needle repl s).
Proof. intros H. unfold str_replace. cbn [str_replace_from]. by rewrite H. Qed.

(** A character that does not start the pattern is copied. *)
Lemma str_replace_char d n repl c s :
  c ≠ d → str_replace (String d n) repl (String c s) = String c (str_replace (String d n) repl s).
Proof. intros Hc. apply str_replace_no_match. cbn [starts_with]. by rewrite bool_decide_false by congruence. Qed.

Lemma str_replace_literal d n repl a s :
  str_contains_char d a = false → str_replace (String d n) repl (a +:+ s) = (a +:+ str_replace (String d n) repl s).
Proof.
  induction a as [|c a IH]; [done|]. cbn [str_contains_char]. rewrite orb_false_iff. intros [Hc Ha].
  rewrite !str_app_cons, str_replace_char, IH by (done || (by apply bool_decide_eq_false in Hc)). done.
Qed.

(* ------------------------------------------------------------------ *)
(** * Slices and searches *)

Lemma str_all_spec p s : str_all p s = true ↔ Forall (λ a, p a = true) (String.list_ascii_of_string s).
Proof.
  induction s as [|a s IH]; simpl; [split; [constructor|done]|].
  rewrite andb_true_iff, IH, Forall_cons. done.
Qed.

Lemma str_length_app a b : String.length (a +:+ b) = String.length a + String.length b.
Proof. induction a as [|c a IH]; [done|]. simpl. by rewrite IH. Qed.

Lemma str_take_drop n s : (str_take n s +:+ str_drop n s) = s.
Proof. revert s. induction n as [|n IH]; intros [|c s]; try done. simpl. by rewrite str_app_cons, IH. Qed.

Lemma str_drop_app a b : str_drop (String.length a) (a +:+ b) = b.
Proof. induction a as [|c a IH]; [done|]. exact IH. Qed.

Lemma str_take_app a b : str_take (String.length a) (a +:+ b) = a.
Proof. induction a as [|c a IH]; simpl; [by destruct b|]. by rewrite IH. Qed.

Lemma str_drop_drop n m s : str_drop n (str_drop m s) = str_drop (m + n) s.
Proof. revert s. induction m as [|m IH]; intros [|c s]; [done|done|by destruct n|apply IH]. Qed.

Lemma str_length_drop n s : String.length (str_drop n s) = String.length s - n.
Proof. revert s. induction n as [|n IH]; intros [|c s]; [done|simpl; lia|done|apply IH]. Qed.

Lemma str_drop_app_le n a b : n ≤ String.length a → str_drop n (a +:+ b) = (str_drop n a +:+ b).
Proof. revert a. induction n as [|n IH]; intros [|c a] Hn; simpl in *; try done; [lia|]. apply IH. lia. Qed.

Lemma str_find_Some needle s i :
  str_find needle s = Some i →
  starts_with needle (str_drop i s) = true ∧ (∀ j, j < i → starts_with needle (str_drop j s) = false) ∧ i ≤ String.length s.
Proof.
  revert i. induction s as [|c s IH]; intros i; simpl.
  - destruct (starts_with needle "") eqn:E; [|done]. intros [= <-]. split_and!; [done|lia|lia].
  - destruct (starts_with needle (String c s)) eqn:E.
    + intros [= <-]. split_and!; [done|lia|lia].
    + intros H. destruct (str_find needle s) as [k|]; [|done]. injection H as <-.
      destruct (IH k eq_refl) as (Hs & Hlt & Hle). split_and!; [done| |lia].
      intros [|j] Hj; [done|]. apply Hlt. lia.
Qed.

Lemma str_find_None needle s :
  str_find needle s = None ↔ ∀ j, j ≤ String.length s → starts_with needle (str_drop j s) = false.
Proof.
  induction s as [|c s IH]; simpl.
  - destruct (starts_with needle "") eqn:E; split; intros H; try done.
    + pose proof (H 0 ltac:(lia)) as H0. simpl in H0. by rewrite E in H0.
    + by intros [|j] Hj.
  - destruct (starts_with needle (String c s)) eqn:E; split; intros H; try done.
    + exfalso. pose proof (H 0 ltac:(lia)) as H0. simpl in H0. by rewrite E in H0.
    + intros [|j] Hj; [done|]. apply IH; [by destruct (str_find needle s)|lia].
    + assert (str_find needle s = None) as ->; [|done]. apply IH. intros j Hj. apply (H (S j)). lia.
Qed.

Lemma str_contains_find needle s : str_contains needle s = is_some (str_find needle s).
Proof.
  induction s as [|c s IH]; simpl; [by rewrite orb_false_r; destruct (starts_with _ _)|].
  destruct (starts_with needle (String c s)); [done|]. simpl. rewrite IH. by destruct (str_find needle s).
Qed.

(** An occurrence within the first of two pieces. *)
Lemma starts_with_app_l p a b : String.length p ≤ String.length a → starts_with p (a +:+ b) = starts_with p a.
Proof.
  revert a. induction p as [|c p IH]; intros [|d a] Hl; simpl in *; try done; [lia|]. rewrite IH by lia. done.
Qed.

(** No occurrence of the needle starts within the text, whatever follows that
    begins like the needle. *)
Definition free_of (needle x : string) : bool := negb (str_contains needle (x +:+ str_take (String.length needle - 1) needle)).

Lemma str_contains_None needle s : str_contains needle s = false ↔ str_find needle s = None.
Proof. rewrite str_contains_find. by destruct (str_find needle s). Qed.

Lemma starts_with_length p s : starts_with p s = true → String.length p ≤ String.length s.
Proof. intros [t ->]%starts_with_iff. rewrite str_length_app. lia. Qed.

Lemma str_length_take n s : String.length (str_take n s) = n `min` String.length s.
Proof. revert s. induction n as [|n IH]; intros [|c s]; simpl; [done..|]. by rewrite IH. Qed.

Lemma find_free needle x rest : free_of needle x = true → str_find needle (x +:+ needle +:+ rest) = Some (String.length x).
Proof.
  unfold free_of. rewrite negb_true_iff, str_contains_None, str_find_None. intros Hnone.
  destruct (str_find needle (x +:+ needle +:+ rest)) as [i|] eqn:E.
  - apply str_find_Some in E as (Hi & Hlt & _). f_equal. destruct (Nat.lt_trichotomy i (String.length x)) as [Hx|[->|Hx]]; [|done|].
    + exfalso. specialize (Hnone i). rewrite str_length_app in Hnone. specialize (Hnone ltac:(lia)).
      rewrite str_drop_app_le in Hi, Hnone by lia.
      rewrite <-(str_take_drop (String.length needle - 1) needle) in Hi at 2.
      rewrite <-!str_app_assoc, str_app_assoc, starts_with_app_l in Hi; [congruence|].
      rewrite str_length_app, str_length_drop, str_length_take. lia.
    + exfalso. specialize (Hlt _ Hx). by rewrite str_drop_app, starts_with_app in Hlt.
  - exfalso. rewrite str_find_None in E. specialize (E (String.length x)). rewrite str_length_app in E.
    specialize (E ltac:(lia)). by rewrite str_drop_app, starts_with_app in E.
Qed.

(** Without continuation bytes every offset is a boundary. *)
Lemma ascii_boundary s i : str_all (byte_in 0 127) s = true → i ≤ String.length s → is_char_boundary s (Z.of_nat i) = true.
Proof.
  intros Hs Hi. unfold is_char_boundary. destruct (Z.eqb_spec (Z.of_nat i) 0); [done|]. rewrite Nat2Z.id.
  destruct (String.get i s) as [a|] eqn:E.
  - assert (byte_in 0 127 a = true) as Ha.
    { clear Hi. revert i E n. induction s as [|c s IH]; intros i E _; [done|]. apply andb_true_iff in Hs as [Hc Hs].
      destruct i as [|i]; [by injection E as <-|]. destruct (decide (i = 0)) as [->|]; [|by apply (IH Hs i); [|lia]].
      destruct s as [|d s]; [done|]. injection E as <-. by apply andb_true_iff in Hs as [? _]. }
    unfold byte_in in *. rewrite andb_true_iff, !N.leb_le in Ha. apply negb_true_iff, andb_false_iff. left. apply N.leb_gt. lia.
  - unfold byte_len. apply Z.eqb_eq. f_equal. clear Hs n. revert i Hi E. induction s as [|c s IH]; intros [|i] Hi E; simpl in *; try done; try lia.
    f_equal. apply IH; [lia|done].
Qed.
