(* ===== verification/Sql.v ===== *)
(** What SQLite makes of the integer columns the daemon computes on in SQL:
    a sum outside the 64-bit range becomes a [REAL], a [REAL] that is a whole
    number in the range is stored back as an integer, and [MAX] compares
    across the two. Also [substr] and Rust's [str::get]. *)
From Stdlib Require Import Floats.SpecFloat.
From S2P Require Import Prelude.
From S2P Require Import F64.
From S2P Require Import Text.

(* ------------------------------------------------------------------ *)
(** * Errors *)

(** The [rusqlite] errors these statements can produce on a healthy store. *)
Inductive sql_error : Type :=
| ConstraintPrimaryKey
| ConstraintForeignKey
| QueryReturnedNoRows.

(* ------------------------------------------------------------------ *)
(** * Cells of an INTEGER column *)

Inductive cell : Type := CInt (n : Z) | CReal (f : f64).

#[global] Instance cell_eq_dec : EqDecision cell.
Proof. solve_decision. Defined.

(** The cast of an integer to a double: round to nearest even. *)
Definition f64_of_Z (z : Z) : f64 := binary_normalize 53 1024 z 0 false.

Definition cell_real (c : cell) : f64 := match c with CInt n => f64_of_Z n | CReal f => f end.

(** The whole number a double is, if it is one. *)
Definition f64_whole (f : f64) : option Z :=
  match f with
  | S754_zero _ => Some 0%Z
  | S754_finite s m e =>
      let v := if s then Z.neg m else Z.pos m in
      if (0 <=? e)%Z then Some (v * 2 ^ e)%Z
      else if (v mod 2 ^ (- e) =? 0)%Z then Some (v / 2 ^ (- e))%Z else None
  | _ => None
  end.

(** INTEGER affinity, applied when a value is stored: the ends of the range
    stay doubles. *)
Definition stored (c : cell) : cell :=
  match c with
  | CInt n => CInt n
  | CReal f =>
      match f64_whole f with
      | Some n => if decide (i64_min < n < i64_max)%Z then CInt n else CReal f
      | None => CReal f
      end
  end.

Definition sql_arith (op : Z → Z → Z) (fop : f64 → f64 → f64) (a b : cell) : cell :=
  match a, b with
  | CInt x, CInt y =>
      if decide (in_i64 (op x y)) then CInt (op x y) else CReal (fop (f64_of_Z x) (f64_of_Z y))
  | _, _ => CReal (fop (cell_real a) (cell_real b))
  end.

Definition sql_add : cell → cell → cell := sql_arith Z.add (SFadd 53 1024).
Definition sql_sub : cell → cell → cell := sql_arith Z.sub (SFsub 53 1024).

(** [MAX(c, 0)]. *)
Definition sql_max_0 (c : cell) : cell :=
  match c with
  | CInt n => CInt (Z.max n 0)
  | CReal f => if f64_geb f f64_zero then CReal f else CInt 0
  end.

(** [row.get::<_, i64>]. *)
Definition get_i64 (c : cell) : option Z := match c with CInt n => Some n | CReal _ => None end.

Lemma sql_add_int a b : in_i64 (a + b) → sql_add (CInt a) (CInt b) = CInt (a + b).
Proof. intros H. unfold sql_add, sql_arith. by rewrite decide_True. Qed.

Lemma sql_sub_int a b : in_i64 (a - b) → sql_sub (CInt a) (CInt b) = CInt (a - b).
Proof. intros H. unfold sql_sub, sql_arith. by rewrite decide_True. Qed.

(* ------------------------------------------------------------------ *)
(** * Prefixes of strings *)

(** A byte that continues a UTF-8 character. *)
Definition continues (c : ascii) : bool :=
  let n := Ascii.N_of_ascii c in ((128 <=? n) && (n <? 192))%N.

(** [s.get(..n)]: the first [n] bytes, if they end between characters. *)
Fixpoint str_get_to (n : nat) (s : string) : option string :=
  match n, s with
  | 0, "" => Some ""
  | 0, String c _ => if continues c then None else Some ""
  | S n, "" => None
  | S n, String c s => String c <$> str_get_to n s
  end.

(** [substr(s, 1, n)]: the first [n] characters. *)
Fixpoint sql_substr (n : nat) (s : string) : string :=
  match s with
  | "" => ""
  | String c s =>
      if continues c then String c (sql_substr n s)
      else match n with 0 => "" | S n => String c (sql_substr n s) end
  end.

Fixpoint is_ascii_str (s : string) : bool :=
  match s with "" => true | String c s => (Ascii.N_of_ascii c <? 128)%N && is_ascii_str s end.

Lemma ascii_not_continues c : (Ascii.N_of_ascii c <? 128)%N = true → continues c = false.
Proof. unfold continues. rewrite N.ltb_lt. intros. apply andb_false_intro1. by apply N.leb_gt. Qed.

(** On ASCII the two agree. *)
Lemma substr_get n s : is_ascii_str s = true → default s (str_get_to n s) = sql_substr n s.
Proof.
  revert n. induction s as [|c s IH]; intros n Ha; [by destruct n|].
  simpl in Ha. apply andb_true_iff in Ha as [Hc%ascii_not_continues Hs]. simpl. rewrite Hc.
  destruct n as [|n]; simpl; [by rewrite Hc|]. specialize (IH n Hs).
  destruct (str_get_to n s); simpl in *; by f_equal.
Qed.

Lemma substr_ascii n s : is_ascii_str s = true → is_ascii_str (sql_substr n s) = true.
Proof.
  revert n. induction s as [|c s IH]; intros n Ha; [done|].
  simpl in Ha. apply andb_true_iff in Ha as [Hc Hs]. simpl. rewrite (ascii_not_continues c Hc).
  destruct n; [done|]. simpl. by rewrite Hc, IH.
Qed.

Lemma substr_idemp n s : is_ascii_str s = true → sql_substr n (sql_substr n s) = sql_substr n s.
Proof.
  revert n. induction s as [|c s IH]; intros n Ha; [done|].
  simpl in Ha. apply andb_true_iff in Ha as [Hc Hs]. apply ascii_not_continues in Hc.
  simpl. rewrite Hc. destruct n as [|n]; [done|]. simpl. rewrite Hc. by rewrite IH.
Qed.
