(* ===== verification/Quotas.v ===== *)
(** Write quotas per agent and namespace ([src/src/quotas.rs]): the counter
    rows, the check, the atomic charge, refunds, the daily reset and the
    status reads, with the two callers that charge before they write and
    refund when the write fails (the store tool of [src/src/mcp/tools/store]
    and the receiver of [src/src/handlers/federation_receive.rs]).

    A counter is a cell of an INTEGER column ([Sql]): its arithmetic is done
    by the database. Each function takes the clock readings it makes. *)
From S2P Require Import Prelude.
From S2P Require Import F64.
From S2P Require Import Text.
From S2P Require Import Sql.

(* ------------------------------------------------------------------ *)
(** * Data *)

Definition GLOBAL_NAMESPACE : string := "_global".
Definition DEFAULT_MAX_MEMORIES_PER_DAY : Z := 1000.
Definition DEFAULT_MAX_STORAGE_BYTES : Z := 100 * 1024 * 1024.
Definition DEFAULT_MAX_LINKS_PER_DAY : Z := 5000.

Record QuotaDefaults : Type := mkDefaults {
  qd_max_memories_per_day : Z;
  qd_max_storage_bytes : Z;
  qd_max_links_per_day : Z
}.

Definition QuotaDefaults_default : QuotaDefaults :=
  mkDefaults DEFAULT_MAX_MEMORIES_PER_DAY DEFAULT_MAX_STORAGE_BYTES DEFAULT_MAX_LINKS_PER_DAY.

Inductive QuotaOp : Type := OpMemory (bytes : Z) | OpLink.

Inductive QuotaLimit : Type := MemoriesPerDay | StorageBytes | LinksPerDay.

Definition QuotaLimit_as_str (l : QuotaLimit) : string :=
  match l with
  | MemoriesPerDay => "memories_per_day"
  | StorageBytes => "storage_bytes"
  | LinksPerDay => "links_per_day"
  end.

Record QuotaError : Type := mkQuotaError {
  qe_agent_id : string;
  qe_namespace : string;
  qe_limit : QuotaLimit;
  qe_current : Z;
  qe_max : Z
}.

Inductive QuotaCheckError : Type := Quota (q : QuotaError) | QSql (reason : string).

Record QuotaStatus : Type := mkStatus {
  qs_agent_id : string;
  qs_namespace : string;
  qs_max_memories_per_day : Z;
  qs_max_storage_bytes : Z;
  qs_max_links_per_day : Z;
  qs_current_memories_today : Z;
  qs_current_storage_bytes : Z;
  qs_current_links_today : Z;
  qs_day_started_at : string;
  qs_created_at : string;
  qs_updated_at : string
}.

Abbreviation quota_key := (string * string)%type.

(** The columns of [agent_quotas] beside its key. *)
Record QuotaRow : Type := mkQuotaRow {
  q_max_memories_per_day : Z;
  q_max_storage_bytes : Z;
  q_max_links_per_day : Z;
  q_current_memories_today : cell;
  q_current_storage_bytes : cell;
  q_current_links_today : cell;
  q_day_started_at : string;
  q_created_at : string;
  q_updated_at : string
}.

(** The table, and whether the connection is inside a transaction. *)
Record QuotaDb : Type := mkQuotaDb {
  quota_rows : gmap quota_key QuotaRow;
  q_in_tx : bool
}.

Definition with_rows (db : QuotaDb) (rows : gmap quota_key QuotaRow) : QuotaDb := mkQuotaDb rows (q_in_tx db).

(** [UPDATE agent_quotas SET .. WHERE agent_id = ? AND namespace = ?]: the
    counters and, where the statement sets it, the day; the stamp always. *)
Definition set_counters (memories storage links : cell) (day : option string) (now : string) (r : QuotaRow) :
    QuotaRow :=
  mkQuotaRow (q_max_memories_per_day r) (q_max_storage_bytes r) (q_max_links_per_day r)
    (stored memories) (stored storage) (stored links) (default (q_day_started_at r) day) (q_created_at r) now.

Definition update_row (db : QuotaDb) (agent_id namespace : string) (f : QuotaRow → QuotaRow) : QuotaDb :=
  with_rows db (alter f (agent_id, namespace) (quota_rows db)).

(* ------------------------------------------------------------------ *)
(** * Rows *)

(** [rfc3339.get(..10)] *)
Definition day_bucket (rfc3339 : string) : string := default rfc3339 (str_get_to 10 rfc3339).

(** A row as it is read: a counter that is no longer an integer fails. *)
Definition read_row (k : quota_key) (r : QuotaRow) : result QuotaStatus string :=
  match get_i64 (q_current_memories_today r), get_i64 (q_current_storage_bytes r),
        get_i64 (q_current_links_today r) with
  | Some memories, Some storage, Some links =>
      Ok (mkStatus k.1 k.2 (q_max_memories_per_day r) (q_max_storage_bytes r) (q_max_links_per_day r)
            memories storage links (q_day_started_at r) (q_created_at r) (q_updated_at r))
  | _, _, _ => Err "failed to load agent quota row"
  end.

Definition load_row (db : QuotaDb) (agent_id namespace : string) : result (option QuotaStatus) string :=
  match quota_rows db !! (agent_id, namespace) with
  | None => Ok None
  | Some r => let? status := read_row (agent_id, namespace) r in Ok (Some status)
  end.

Definition default_row (defaults : QuotaDefaults) (now : string) : QuotaRow :=
  mkQuotaRow (qd_max_memories_per_day defaults) (qd_max_storage_bytes defaults) (qd_max_links_per_day defaults)
    (CInt 0) (CInt 0) (CInt 0) (day_bucket now) now now.

Definition ensure_row (defaults : QuotaDefaults) (now : string) (db : QuotaDb) (agent_id namespace : string) :
    result (QuotaDb * QuotaStatus) string :=
  let? found := load_row db agent_id namespace in
  match found with
  | Some row => Ok (db, row)
  | None =>
      let rows := match quota_rows db !! (agent_id, namespace) with
                  | Some _ => quota_rows db
                  | None => <[(agent_id, namespace) := default_row defaults now]> (quota_rows db)
                  end in
      let db := with_rows db rows in
      let? inserted := load_row db agent_id namespace in
      let? row := ok_or inserted "quota row missing immediately after insert (concurrent delete?)" in
      Ok (db, row)
  end.

(** The counters a check sees: zero when the row is of another day. *)
Definition todays (row : QuotaStatus) (now : string) : Z * Z :=
  if decide (day_bucket (qs_day_started_at row) = day_bucket now)
  then (qs_current_memories_today row, qs_current_links_today row) else (0, 0)%Z.

(** The limit the operation would pass, if any. *)
Definition breach (agent_id namespace : string) (row : QuotaStatus) (today : Z * Z) (op : QuotaOp) :
    option QuotaError :=
  let '(memories_today, links_today) := today in
  match op with
  | OpMemory bytes =>
      if (i64_saturating_add memories_today 1 >? qs_max_memories_per_day row)%Z then
        Some (mkQuotaError agent_id namespace MemoriesPerDay memories_today (qs_max_memories_per_day row))
      else if (i64_saturating_add (qs_current_storage_bytes row) bytes >? qs_max_storage_bytes row)%Z then
        Some (mkQuotaError agent_id namespace StorageBytes (qs_current_storage_bytes row)
                (qs_max_storage_bytes row))
      else None
  | OpLink =>
      if (i64_saturating_add links_today 1 >? qs_max_links_per_day row)%Z then
        Some (mkQuotaError agent_id namespace LinksPerDay links_today (qs_max_links_per_day row))
      else None
  end.

(* ------------------------------------------------------------------ *)
(** * Checking and charging *)

Definition qsql {A} (r : result A string) : result A QuotaCheckError :=
  match r with Ok a => Ok a | Err e => Err (QSql e) end.

(** The table it leaves is that of [ensure_row]. *)
Definition check_quota (defaults : QuotaDefaults) (ensured_at now : string) (db : QuotaDb)
    (agent_id namespace : string) (op : QuotaOp) : QuotaDb * result unit QuotaCheckError :=
  match ensure_row defaults ensured_at db agent_id namespace with
  | Err e => (db, Err (QSql e))
  | Ok (db, row) =>
      (db, match breach agent_id namespace row (todays row now) op with
           | Some q => Err (Quota q)
           | None => Ok tt
           end)
  end.

(** The update that posts an operation, on a row of another day or of today. *)
Definition post_op (day_rolled : bool) (now : string) (op : QuotaOp) (r : QuotaRow) : QuotaRow :=
  let memories := q_current_memories_today r in
  let storage := q_current_storage_bytes r in
  let links := q_current_links_today r in
  match op, day_rolled with
  | OpMemory bytes, true => set_counters (CInt 1) (sql_add storage (CInt bytes)) (CInt 0) (Some now) now r
  | OpMemory bytes, false =>
      set_counters (sql_add memories (CInt 1)) (sql_add storage (CInt bytes)) links None now r
  | OpLink, true => set_counters (CInt 0) storage (CInt 1) (Some now) now r
  | OpLink, false => set_counters memories storage (sql_add links (CInt 1)) None now r
  end.

(** [BEGIN IMMEDIATE], [body], [COMMIT] or [ROLLBACK]: an error leaves the
    table as it was. *)
Definition immediate (db : QuotaDb) (body : QuotaDb → result QuotaDb QuotaCheckError) :
    QuotaDb * result unit QuotaCheckError :=
  if q_in_tx db then (db, Err (QSql "BEGIN IMMEDIATE failed"))
  else match body db with Ok db => (db, Ok tt) | Err e => (db, Err e) end.

Definition check_and_record (defaults : QuotaDefaults) (ensured_at now : string) (db : QuotaDb)
    (agent_id namespace : string) (op : QuotaOp) : QuotaDb * result unit QuotaCheckError :=
  match ensure_row defaults ensured_at db agent_id namespace with
  | Err e => (db, Err (QSql e))
  | Ok (db, _) =>
      immediate db (λ db,
        let? found := qsql (load_row db agent_id namespace) in
        let? row := ok_or found (QSql "quota row vanished mid-transaction") in
        let day_rolled := negb (bool_decide (day_bucket (qs_day_started_at row) = day_bucket now)) in
        match breach agent_id namespace row (todays row now) op with
        | Some q => Err (Quota q)
        | None => Ok (update_row db agent_id namespace (post_op day_rolled now op))
        end)
  end.

Definition refund_op (now : string) (db : QuotaDb) (agent_id namespace : string) (op : QuotaOp) : QuotaDb :=
  update_row db agent_id namespace (λ r,
    let memories := q_current_memories_today r in
    let storage := q_current_storage_bytes r in
    let links := q_current_links_today r in
    match op with
    | OpMemory bytes =>
        set_counters (sql_max_0 (sql_sub memories (CInt 1))) (sql_max_0 (sql_sub storage (CInt bytes))) links
          None now r
    | OpLink => set_counters memories storage (sql_max_0 (sql_sub links (CInt 1))) None now r
    end).

Definition check_and_record_storage_only (defaults : QuotaDefaults) (ensured_at now : string) (db : QuotaDb)
    (agent_id namespace : string) (bytes : Z) : QuotaDb * result unit QuotaCheckError :=
  match ensure_row defaults ensured_at db agent_id namespace with
  | Err e => (db, Err (QSql e))
  | Ok (db, _) =>
      immediate db (λ db,
        let? found := qsql (load_row db agent_id namespace) in
        let? row := ok_or found (QSql "quota row vanished mid-transaction") in
        if (i64_saturating_add (qs_current_storage_bytes row) bytes >? qs_max_storage_bytes row)%Z then
          Err (Quota (mkQuotaError agent_id namespace StorageBytes (qs_current_storage_bytes row)
                        (qs_max_storage_bytes row)))
        else
          Ok (update_row db agent_id namespace (λ r,
            set_counters (q_current_memories_today r) (sql_add (q_current_storage_bytes r) (CInt bytes))
              (q_current_links_today r) None now r)))
  end.

Definition refund_storage_only (now : string) (db : QuotaDb) (agent_id namespace : string) (bytes : Z) : QuotaDb :=
  update_row db agent_id namespace (λ r,
    set_counters (q_current_memories_today r) (sql_max_0 (sql_sub (q_current_storage_bytes r) (CInt bytes)))
      (q_current_links_today r) None now r).

(** Posting without a check. *)
Definition record_op (defaults : QuotaDefaults) (ensured_at now : string) (db : QuotaDb)
    (agent_id namespace : string) (op : QuotaOp) : result QuotaDb string :=
  let? ensured := ensure_row defaults ensured_at db agent_id namespace in
  let '(db, row) := ensured in
  let day_rolled := negb (bool_decide (day_bucket (qs_day_started_at row) = day_bucket now)) in
  Ok (update_row db agent_id namespace (post_op day_rolled now op)).

(** The sum of the UTF-8 lengths, [i64::MAX] beyond the range. *)
Definition coordination_payload_bytes (strs jsons : list string) : Z :=
  let total := foldr (λ s n, Z.of_nat (String.length s) + n)%Z 0%Z (strs ++ jsons) in
  if decide (total ≤ i64_max)%Z then total else i64_max.

(** Rows whose day is not today, reset; and how many. *)
Definition reset_daily (now : string) (db : QuotaDb) : QuotaDb * nat :=
  let today := day_bucket now in
  let stale (r : QuotaRow) := sql_substr 10 (q_day_started_at r) ≠ today in
  let reset (r : QuotaRow) :=
    if decide (stale r) then set_counters (CInt 0) (q_current_storage_bytes r) (CInt 0) (Some now) now r else r in
  (with_rows db (reset <$> quota_rows db),
   size (filter (λ kv : quota_key * QuotaRow, stale kv.2) (quota_rows db))).

(* ------------------------------------------------------------------ *)
(** * Status *)

Definition get_status (defaults : QuotaDefaults) (ensured_at : string) (db : QuotaDb)
    (agent_id namespace : string) : result (QuotaDb * QuotaStatus) string :=
  ensure_row defaults ensured_at db agent_id namespace.

(** [SUM] of an integer column: it fails beyond the range, and a [REAL]
    among the rows makes the sum one, which is not read as an integer. *)
Fixpoint sql_sum (cells : list cell) (acc : Z) : result Z string :=
  match cells with
  | [] => Ok acc
  | CInt n :: cells => let? acc := ok_or (i64_checked_add acc n) "integer overflow" in sql_sum cells acc
  | CReal _ :: _ => Err "Invalid column type Real"
  end.

Definition coalesce_join {A} (join : A → A → A) (empty : A) (l : list A) : A :=
  match l with [] => empty | x :: l => foldl join x l end.

Definition get_aggregate_status (defaults : QuotaDefaults) (ensured_at : string) (db : QuotaDb)
    (agent_id : string) : result (QuotaDb * QuotaStatus) string :=
  let rows := snd <$> filter (λ kv : quota_key * QuotaRow, kv.1.1 = agent_id) (map_to_list (quota_rows db)) in
  let? memories := sql_sum (q_current_memories_today <$> rows) 0%Z in
  let? storage := sql_sum (q_current_storage_bytes <$> rows) 0%Z in
  let? links := sql_sum (q_current_links_today <$> rows) 0%Z in
  let created := coalesce_join str_min "" (q_created_at <$> rows) in
  if str_is_empty created then ensure_row defaults ensured_at db agent_id GLOBAL_NAMESPACE
  else Ok (db, mkStatus agent_id GLOBAL_NAMESPACE
    (coalesce_join Z.max 0%Z (q_max_memories_per_day <$> rows))
    (coalesce_join Z.max 0%Z (q_max_storage_bytes <$> rows))
    (coalesce_join Z.max 0%Z (q_max_links_per_day <$> rows))
    memories storage links
    (coalesce_join str_min "" (q_day_started_at <$> rows)) created
    (coalesce_join str_max "" (q_updated_at <$> rows))).

(** [ORDER BY agent_id ASC, namespace ASC]. *)
Definition by_key (a b : quota_key * QuotaRow) : Prop :=
  (b.1.1 >?s a.1.1) = true ∨ a.1.1 = b.1.1 ∧ (a.1.2 ≤ b.1.2)%string.
#[global] Instance by_key_dec : RelDecision by_key.
Proof. intros a b. unfold by_key. apply _. Defined.

Fixpoint read_rows (rows : list (quota_key * QuotaRow)) : result (list QuotaStatus) string :=
  match rows with
  | [] => Ok []
  | (k, r) :: rows => let? s := read_row k r in let? l := read_rows rows in Ok (s :: l)
  end.

Definition list_status (db : QuotaDb) (namespace_filter : option string) : result (list QuotaStatus) string :=
  let keep (kv : quota_key * QuotaRow) :=
    match namespace_filter with Some ns => bool_decide (kv.1.2 = ns) | None => true end in
  read_rows (stable_sort by_key (List.filter keep (map_to_list (quota_rows db)))).

(* ------------------------------------------------------------------ *)
(** * Charging around a write *)

(** The store tool: charge, insert, and refund when the insert fails. The
    insert is an argument, and so are the byte lengths it is charged for. *)
Definition charged_store {A} (defaults : QuotaDefaults) (ensured_at now refund_at : string) (db : QuotaDb)
    (agent_id namespace : string) (payload_bytes : Z) (insert : result A string) :
    QuotaDb * result A QuotaCheckError :=
  match check_and_record defaults ensured_at now db agent_id namespace (OpMemory payload_bytes) with
  | (db, Err e) => (db, Err e)
  | (db, Ok _) =>
      match insert with
      | Ok id => (db, Ok id)
      | Err e => (refund_op refund_at db agent_id namespace (OpMemory payload_bytes), Err (QSql e))
      end
  end.

(** The receiver of a peer's push: charge the bytes, merge, and refund when
    the merge fails. *)
Definition charged_receive {A} (defaults : QuotaDefaults) (ensured_at now refund_at : string) (db : QuotaDb)
    (attribute_agent namespace : string) (bytes_estimate : Z) (merge_inbound : result A string) :
    QuotaDb * result A QuotaCheckError :=
  match check_and_record_storage_only defaults ensured_at now db attribute_agent namespace bytes_estimate with
  | (db, Err e) => (db, Err e)
  | (db, Ok _) =>
      match merge_inbound with
      | Ok id => (db, Ok id)
      | Err e => (refund_op refund_at db attribute_agent namespace (OpMemory bytes_estimate), Err (QSql e))
      end
  end.

(* ------------------------------------------------------------------ *)
(** * Rows whose counters are integers within their limits *)

Definition limits_ok (mm ms ml : Z) : Prop := (0 ≤ mm < i64_max ∧ 0 ≤ ms < i64_max ∧ 0 ≤ ml < i64_max)%Z.

Definition defaults_ok (d : QuotaDefaults) : Prop :=
  limits_ok (qd_max_memories_per_day d) (qd_max_storage_bytes d) (qd_max_links_per_day d).

Definition counts (c : cell) (max : Z) : Prop := ∃ n, c = CInt n ∧ (0 ≤ n ≤ max)%Z.

Record within (r : QuotaRow) : Prop := mkWithin {
  wi_limits : limits_ok (q_max_memories_per_day r) (q_max_storage_bytes r) (q_max_links_per_day r);
  wi_memories : counts (q_current_memories_today r) (q_max_memories_per_day r);
  wi_storage : counts (q_current_storage_bytes r) (q_max_storage_bytes r);
  wi_links : counts (q_current_links_today r) (q_max_links_per_day r)
}.

Definition all_within (db : QuotaDb) : Prop := ∀ k r, quota_rows db !! k = Some r → within r.

(** A byte count as the callers make it: from a length, saturated. *)
Definition byte_count (b : Z) : Prop := (0 ≤ b ≤ i64_max)%Z.

(** The status a readable row has. *)
Definition status_of (k : quota_key) (r : QuotaRow) : QuotaStatus :=
  mkStatus k.1 k.2 (q_max_memories_per_day r) (q_max_storage_bytes r) (q_max_links_per_day r)
    (default 0%Z (get_i64 (q_current_memories_today r))) (default 0%Z (get_i64 (q_current_storage_bytes r)))
    (default 0%Z (get_i64 (q_current_links_today r))) (q_day_started_at r) (q_created_at r) (q_updated_at r).

Lemma read_within k r : within r → read_row k r = Ok (status_of k r).
Proof. intros [_ (m & Hm & _) (s & Hs & _) (l & Hl & _)]. unfold read_row, status_of. by rewrite Hm, Hs, Hl. Qed.

Lemma default_within d now : defaults_ok d → within (default_row d now).
Proof.
  intros H. pose proof H as (?&?&?). split; [done|..]; exists 0%Z; (split; [done|]); simpl; lia.
Qed.

(** What [ensure_row] gives: the table with the row there, and its status. *)
Definition ensured (d : QuotaDefaults) (now : string) (db : QuotaDb) (k : quota_key) : QuotaDb :=
  match quota_rows db !! k with
  | Some _ => db
  | None => with_rows db (<[k := default_row d now]> (quota_rows db))
  end.

Definition ensured_row (d : QuotaDefaults) (now : string) (db : QuotaDb) (k : quota_key) : QuotaRow :=
  default (default_row d now) (quota_rows db !! k).

Lemma ensured_lookup d now db k : quota_rows (ensured d now db k) !! k = Some (ensured_row d now db k).
Proof.
  unfold ensured, ensured_row. destruct (quota_rows db !! k) eqn:E; [done|apply lookup_insert_eq].
Qed.

Lemma ensured_other d now db k k' : k' ≠ k → quota_rows (ensured d now db k) !! k' = quota_rows db !! k'.
Proof.
  intros Hne. unfold ensured. destruct (quota_rows db !! k); [done|]. by apply lookup_insert_ne.
Qed.

Lemma ensured_in_tx d now db k : q_in_tx (ensured d now db k) = q_in_tx db.
Proof. unfold ensured. by case_match. Qed.

(** No charge leaves a transaction open. *)
Lemma ensure_row_in_tx d now db a n db' row : ensure_row d now db a n = Ok (db', row) → q_in_tx db' = q_in_tx db.
Proof.
  unfold ensure_row. destruct (load_row db a n) as [[found|]|]; simpl; [by intros [= <- <-]| |done].
  set (db1 := with_rows _ _). destruct (load_row db1 a n) as [[found|]|]; simpl; try done. by intros [= <- <-].
Qed.

Lemma storage_only_in_tx d t now db a n b : q_in_tx (check_and_record_storage_only d t now db a n b).1 = q_in_tx db.
Proof.
  unfold check_and_record_storage_only. destruct (ensure_row d t db a n) as [[db1 row]|] eqn:E; [|done].
  apply ensure_row_in_tx in E. rewrite <-E. unfold immediate. destruct (q_in_tx db1) eqn:Htx; [done|].
  destruct (load_row db1 a n) as [[found|]|]; simpl; try done. by destruct (_ >? _)%Z.
Qed.

Lemma ensured_row_within d now db k : defaults_ok d → all_within db → within (ensured_row d now db k).
Proof.
  intros Hd Hdb. unfold ensured_row. destruct (quota_rows db !! k) eqn:E; [by eapply Hdb|by apply default_within].
Qed.

Lemma ensured_within d now db k : defaults_ok d → all_within db → all_within (ensured d now db k).
Proof.
  intros Hd Hdb k' r Hr. destruct (decide (k' = k)) as [->|Hne].
  - rewrite ensured_lookup in Hr. simplify_eq. by apply ensured_row_within.
  - rewrite ensured_other in Hr by done. by eapply Hdb.
Qed.

Lemma load_within db a n r : within r → quota_rows db !! (a, n) = Some r →
  load_row db a n = Ok (Some (status_of (a, n) r)).
Proof. intros Hw Hr. unfold load_row. rewrite Hr. by rewrite read_within. Qed.

Lemma ensure_row_within d now db a n : defaults_ok d → all_within db →
  ensure_row d now db a n = Ok (ensured d now db (a, n), status_of (a, n) (ensured_row d now db (a, n))).
Proof.
  intros Hd Hdb. unfold ensure_row, ensured, ensured_row. destruct (quota_rows db !! (a, n)) as [r|] eqn:E.
  - rewrite (load_within db a n r) by (try done; by eapply Hdb). done.
  - unfold load_row at 1. rewrite E. cbn [result_bind].
    rewrite (load_within _ a n (default_row d now)); [done|by apply default_within|apply lookup_insert_eq].
Qed.

(* ------------------------------------------------------------------ *)
(** * What a charge does *)

(** Memories on the day, bytes altogether, links on the day. *)
Definition usage (day : string) (r : QuotaRow) : Z * Z * Z :=
  let today := bool_decide (day_bucket (q_day_started_at r) = day) in
  let num c := default 0%Z (get_i64 c) in
  (if today then num (q_current_memories_today r) else 0%Z, num (q_current_storage_bytes r),
   if today then num (q_current_links_today r) else 0%Z).

(** [db'] is [db] with the row under the key replaced by one with this usage
    and the same limits. *)
Definition charged (now : string) (db db' : QuotaDb) (k : quota_key) (r : QuotaRow) (u : Z * Z * Z) : Prop :=
  ∃ r', quota_rows db' = <[k := r']> (quota_rows db) ∧ usage (day_bucket now) r' = u ∧ within r'
    ∧ q_max_memories_per_day r' = q_max_memories_per_day r ∧ q_max_storage_bytes r' = q_max_storage_bytes r
    ∧ q_max_links_per_day r' = q_max_links_per_day r
    ∧ (q_day_started_at r' = now ∨ q_day_started_at r' = q_day_started_at r) ∧ q_in_tx db' = q_in_tx db.

Lemma update_alter db a n f r : quota_rows db !! (a, n) = Some r →
  quota_rows (update_row db a n f) = <[(a, n) := f r]> (quota_rows db).
Proof.
  intros Hr. simpl. apply map_eq. intros k. destruct (decide (k = (a, n))) as [->|Hne].
  - by rewrite lookup_alter_eq, lookup_insert_eq, Hr.
  - by rewrite lookup_alter_ne, lookup_insert_ne.
Qed.

Lemma todays_usage k r now : todays (status_of k r) now = ((usage (day_bucket now) r).1.1, (usage (day_bucket now) r).2).
Proof.
  unfold todays, usage. simpl. case_decide as Hd; [by rewrite bool_decide_true|by rewrite bool_decide_false].
Qed.

Lemma saturating_gt a b m : (0 ≤ a)%Z → (0 ≤ b)%Z → (m < i64_max)%Z →
  (i64_saturating_add a b >? m)%Z = true ↔ (a + b > m)%Z.
Proof. unfold i64_saturating_add, i64_max, i64_min. rewrite Z.gtb_lt. lia. Qed.

(** The counters of a row within its limits, as integers. *)
Lemma within_ints r : within r → ∃ m s l,
  q_current_memories_today r = CInt m ∧ q_current_storage_bytes r = CInt s ∧ q_current_links_today r = CInt l
  ∧ (0 ≤ m ≤ q_max_memories_per_day r)%Z ∧ (0 ≤ s ≤ q_max_storage_bytes r)%Z
  ∧ (0 ≤ l ≤ q_max_links_per_day r)%Z.
Proof. intros [_ (m & ? & ?) (s & ? & ?) (l & ? & ?)]. exists m, s, l. auto 10. Qed.

Lemma usage_bounds day r : within r → ∃ m s l, usage day r = (m, s, l)
  ∧ (0 ≤ m ≤ q_max_memories_per_day r)%Z ∧ (0 ≤ s ≤ q_max_storage_bytes r)%Z
  ∧ (0 ≤ l ≤ q_max_links_per_day r)%Z.
Proof.
  intros H. pose proof (within_ints r H) as (m & s & l & Hm & Hs & Hl & ?). unfold usage.
  rewrite Hm, Hs, Hl. simpl. case_bool_decide; do 3 eexists; (split; [done|]); lia.
Qed.

(** Within a day, and across a day, a posted operation counts one. *)
Lemma post_memory now r b m s l : within r → byte_count b → usage (day_bucket now) r = (m, s, l) →
  (m + 1 ≤ q_max_memories_per_day r)%Z → (s + b ≤ q_max_storage_bytes r)%Z →
  let r' := post_op (negb (bool_decide (day_bucket (q_day_started_at r) = day_bucket now))) now (OpMemory b) r in
  within r' ∧ usage (day_bucket now) r' = ((m + 1)%Z, (s + b)%Z, l).
Proof.
  intros Hw Hb Hu Hm Hs. pose proof (wi_limits _ Hw) as (?&?&?).
  pose proof (within_ints r Hw) as (m0 & s0 & l0 & Em & Es & El & ?).
  unfold usage in *. rewrite Em, Es, El in Hu. simpl in Hu. unfold byte_count in Hb.
  case_bool_decide as Hd; simplify_eq; unfold post_op, set_counters; simpl; rewrite ?Em, ?Es, ?El.
  - rewrite !sql_add_int by (unfold in_i64, i64_min; lia). simpl. rewrite bool_decide_true by done.
    split; [|done]. split; simpl; try done; eexists; (split; [done|lia]).
  - rewrite sql_add_int by (unfold in_i64, i64_min; lia). simpl. rewrite bool_decide_true by done.
    split; [|done]. split; simpl; try done; eexists; (split; [done|lia]).
Qed.

Lemma post_link now r m s l : within r → usage (day_bucket now) r = (m, s, l) → (l + 1 ≤ q_max_links_per_day r)%Z →
  let r' := post_op (negb (bool_decide (day_bucket (q_day_started_at r) = day_bucket now))) now OpLink r in
  within r' ∧ usage (day_bucket now) r' = (m, s, (l + 1)%Z).
Proof.
  intros Hw Hu Hl. pose proof (wi_limits _ Hw) as (?&?&?).
  pose proof (within_ints r Hw) as (m0 & s0 & l0 & Em & Es & El & ?).
  unfold usage in *. rewrite Em, Es, El in Hu. simpl in Hu.
  case_bool_decide as Hd; simplify_eq; unfold post_op, set_counters; simpl; rewrite ?Em, ?Es, ?El.
  - rewrite sql_add_int by (unfold in_i64, i64_min; lia). simpl. rewrite bool_decide_true by done.
    split; [|done]. split; simpl; try done; eexists; (split; [done|lia]).
  - simpl. rewrite bool_decide_true by done.
    split; [|done]. split; simpl; try done; eexists; (split; [done|lia]).
Qed.

Definition op_ok (op : QuotaOp) : Prop := match op with OpMemory b => byte_count b | OpLink => True end.

(** The first limit the operation would pass on this usage. *)
Definition verdict (r : QuotaRow) (u : Z * Z * Z) (op : QuotaOp) : option (QuotaLimit * Z * Z) :=
  let '(m, s, l) := u in
  match op with
  | OpMemory b =>
      if decide (m + 1 > q_max_memories_per_day r)%Z then Some (MemoriesPerDay, m, q_max_memories_per_day r)
      else if decide (s + b > q_max_storage_bytes r)%Z then Some (StorageBytes, s, q_max_storage_bytes r)
      else None
  | OpLink =>
      if decide (l + 1 > q_max_links_per_day r)%Z then Some (LinksPerDay, l, q_max_links_per_day r) else None
  end.

Definition spent (u : Z * Z * Z) (op : QuotaOp) : Z * Z * Z :=
  let '(m, s, l) := u in
  match op with OpMemory b => (m + 1, s + b, l)%Z | OpLink => (m, s, (l + 1)%Z) end.

Definition refusal_of (k : quota_key) (v : QuotaLimit * Z * Z) : QuotaError :=
  mkQuotaError k.1 k.2 v.1.1 v.1.2 v.2.

Lemma breach_verdict a n r now op : within r → op_ok op →
  breach a n (status_of (a, n) r) (todays (status_of (a, n) r) now) op
  = refusal_of (a, n) <$> verdict r (usage (day_bucket now) r) op.
Proof.
  intros Hw Hop. rewrite todays_usage. pose proof (wi_limits _ Hw) as (?&?&?).
  pose proof (usage_bounds (day_bucket now) r Hw) as (m & s & l & Hu & ?&?&?).
  assert (qs_current_storage_bytes (status_of (a, n) r) = s) as Hs by (unfold usage in Hu; simpl; by simplify_eq).
  unfold breach, verdict. rewrite Hu. simpl fst. simpl snd. unfold op_ok, byte_count in Hop.
  destruct op as [b|]; rewrite ?Hs; simpl;
    repeat match goal with
    | |- context [if (i64_saturating_add ?x ?y >? ?z)%Z then _ else _] =>
        let E := fresh in destruct (i64_saturating_add x y >? z)%Z eqn:E;
        [apply saturating_gt in E; [|lia..]; rewrite (decide_True (P := (x + y > z)%Z)) by lia
        |apply not_true_iff_false in E; rewrite saturating_gt in E by lia;
         rewrite (decide_False (P := (x + y > z)%Z)) by lia]
    end; done.
Qed.

Lemma check_and_record_eq d t now db a n op :
  defaults_ok d → all_within db → q_in_tx db = false → op_ok op →
  let db1 := ensured d t db (a, n) in
  let r := ensured_row d t db (a, n) in
  check_and_record d t now db a n op =
    match verdict r (usage (day_bucket now) r) op with
    | Some v => (db1, Err (Quota (refusal_of (a, n) v)))
    | None =>
        (update_row db1 a n (post_op (negb (bool_decide (day_bucket (q_day_started_at r) = day_bucket now))) now op),
         Ok tt)
    end.
Proof.
  intros Hd Hdb Htx Hop db1 r. unfold check_and_record.
  rewrite ensure_row_within by done. unfold immediate. rewrite ensured_in_tx, Htx.
  rewrite (load_within _ a n r) by (try apply ensured_row_within; try apply ensured_lookup; done).
  cbn [qsql result_bind ok_or]. rewrite breach_verdict by (try apply ensured_row_within; done).
  by destruct (verdict r (usage (day_bucket now) r) op).
Qed.

Lemma charged_post d t now db a n op :
  defaults_ok d → all_within db → op_ok op →
  let db1 := ensured d t db (a, n) in
  let r := ensured_row d t db (a, n) in
  verdict r (usage (day_bucket now) r) op = None →
  charged now db1
    (update_row db1 a n (post_op (negb (bool_decide (day_bucket (q_day_started_at r) = day_bucket now))) now op))
    (a, n) r (spent (usage (day_bucket now) r) op).
Proof.
  intros Hd Hdb Hop db1 r Hv. pose proof (ensured_row_within d t db (a, n) Hd Hdb : within r) as Hw.
  pose proof (usage_bounds (day_bucket now) r Hw) as (m & s & l & Hu & ?&?&?).
  eexists. split; [by apply update_alter, ensured_lookup|].
  unfold verdict in Hv. rewrite Hu in *. destruct op as [b|]; simpl in Hv.
  - do 2 (case_decide; [done|]).
    pose proof (post_memory now r b m s l Hw Hop Hu ltac:(lia) ltac:(lia)) as [Hw' Hu'].
    split; [exact Hu'|]. split; [exact Hw'|]. destruct (bool_decide _); simpl; auto 10.
  - case_decide; [done|].
    pose proof (post_link now r m s l Hw Hu ltac:(lia)) as [Hw' Hu'].
    split; [exact Hu'|]. split; [exact Hw'|]. destruct (bool_decide _); simpl; auto 10.
Qed.

(** A charge is exact. On counters within their limits it fails exactly
    when the operation would pass one, naming the first such limit with the
    usage and the ceiling; it then leaves at most the default row behind.
    Otherwise it adds the operation to today's usage of that row and touches
    no other. *)
Lemma charge_exact d t now db a n op :
  defaults_ok d → all_within db → q_in_tx db = false → op_ok op →
  let db1 := ensured d t db (a, n) in
  let r := ensured_row d t db (a, n) in
  let '(db', answer) := check_and_record d t now db a n op in
  match verdict r (usage (day_bucket now) r) op with
  | Some v => db' = db1 ∧ answer = Err (Quota (refusal_of (a, n) v))
  | None => answer = Ok tt ∧ charged now db1 db' (a, n) r (spent (usage (day_bucket now) r) op)
  end.
Proof.
  intros Hd Hdb Htx Hop db1 r. rewrite check_and_record_eq by done. fold db1. fold r.
  destruct (verdict r (usage (day_bucket now) r) op) eqn:Hv; [done|]. split; [done|]. by apply charged_post.
Qed.

(** The check and the charge agree: asked at the same moment, the check
    answers what the charge would. *)
Lemma check_predicts_charge d t now db a n op :
  defaults_ok d → all_within db → q_in_tx db = false → op_ok op →
  snd (check_quota d t now db a n op) = snd (check_and_record d t now db a n op).
Proof.
  intros Hd Hdb Htx Hop. rewrite check_and_record_eq by done. unfold check_quota.
  rewrite ensure_row_within by done. cbn [snd]. rewrite breach_verdict by (try apply ensured_row_within; done).
  cbv zeta. by destruct (verdict _ _ _).
Qed.

(** The storage-only charge. *)
Lemma storage_only_eq d t now db a n b :
  defaults_ok d → all_within db → q_in_tx db = false → byte_count b →
  let db1 := ensured d t db (a, n) in
  let r := ensured_row d t db (a, n) in
  let '(m, s, l) := usage (day_bucket now) r in
  let '(db', answer) := check_and_record_storage_only d t now db a n b in
  if decide (s + b > q_max_storage_bytes r)%Z then
    db' = db1 ∧ answer = Err (Quota (mkQuotaError a n StorageBytes s (q_max_storage_bytes r)))
  else answer = Ok tt ∧ charged now db1 db' (a, n) r (m, (s + b)%Z, l).
Proof.
  intros Hd Hdb Htx Hb db1 r. pose proof (ensured_row_within d t db (a, n) Hd Hdb : within r) as Hw.
  pose proof (wi_limits _ Hw) as (?&?&?). pose proof (within_ints r Hw) as (m & s & l & Em & Es & El & ?&?&?).
  unfold usage. rewrite Em, Es, El. cbv beta zeta. simpl default.
  unfold check_and_record_storage_only. rewrite ensure_row_within by done. unfold immediate.
  rewrite ensured_in_tx, Htx. fold db1 r.
  rewrite (load_within _ a n r) by (try done; apply ensured_lookup).
  cbn [qsql result_bind ok_or]. unfold byte_count in Hb. unfold status_of at 1. rewrite Es. simpl qs_current_storage_bytes.
  destruct (i64_saturating_add s b >? qs_max_storage_bytes (status_of (a, n) r))%Z eqn:E; simpl in E.
  - apply saturating_gt in E; [|lia..]. rewrite decide_True by lia. split; [done|].
    unfold status_of. simpl. by rewrite Es.
  - apply not_true_iff_false in E. rewrite saturating_gt in E by lia. rewrite decide_False by lia.
    split; [done|]. eexists. split; [apply (update_alter _ _ _ _ r), ensured_lookup|].
    unfold set_counters. rewrite Em, Es, El, sql_add_int by (unfold in_i64, i64_min; lia). simpl.
    split; [done|]. split; [|auto 10].
    split; simpl; try done; eexists; (split; [done|lia]).
Qed.

(* ------------------------------------------------------------------ *)
(** * Refunds *)

Definition refunded (u : Z * Z * Z) (op : QuotaOp) : Z * Z * Z :=
  let '(m, s, l) := u in
  match op with
  | OpMemory b => (Z.max (m - 1) 0, Z.max (s - b) 0, l)
  | OpLink => (m, s, Z.max (l - 1) 0)
  end.

Definition op_bytes (op : QuotaOp) : Z := match op with OpMemory b => b | OpLink => 0 end.

(** A statement that keeps limits, day and creation stamp, and lowers counters. *)
Lemma lowered_within day r m s l m' s' l' now :
  within r → q_current_memories_today r = CInt m → q_current_storage_bytes r = CInt s →
  q_current_links_today r = CInt l → (0 ≤ m' ≤ m)%Z → (0 ≤ s' ≤ s)%Z → (0 ≤ l' ≤ l)%Z →
  let r' := set_counters (CInt m') (CInt s') (CInt l') None now r in
  within r' ∧ usage day r' =
    (if bool_decide (day_bucket (q_day_started_at r) = day) then m' else 0%Z, s',
     if bool_decide (day_bucket (q_day_started_at r) = day) then l' else 0%Z).
Proof.
  intros [Hlim (m0 & Em0 & ?) (s0 & Es0 & ?) (l0 & El0 & ?)] Em Es El Hm Hs Hl. rewrite Em in Em0.
  rewrite Es in Es0. rewrite El in El0. simplify_eq. split; [|done].
  split; simpl; try done; eexists; (split; [done|lia]).
Qed.

Lemma refund_row day now db a n op r : within r → op_ok op → quota_rows db !! (a, n) = Some r →
  ∃ r', quota_rows (refund_op now db a n op) = <[(a, n) := r']> (quota_rows db)
    ∧ within r' ∧ usage day r' = refunded (usage day r) op ∧ q_day_started_at r' = q_day_started_at r
    ∧ q_max_memories_per_day r' = q_max_memories_per_day r ∧ q_max_storage_bytes r' = q_max_storage_bytes r.
Proof.
  intros Hw Hop Hr. eexists. split; [by apply (update_alter _ _ _ _ r)|].
  pose proof (wi_limits _ Hw) as (?&?&?).
  pose proof (within_ints r Hw) as (m & s & l & Em & Es & El & ?&?&?).
  unfold op_ok, byte_count in Hop. destruct op as [b|]; cbv beta zeta.
  - rewrite Em, Es, El, !sql_sub_int by (unfold in_i64, i64_min, i64_max in *; lia). cbn [sql_max_0].
    pose proof (lowered_within day r m s l (Z.max (m - 1) 0) (Z.max (s - b) 0) l now Hw Em Es El
      ltac:(lia) ltac:(lia) ltac:(lia)) as [? Hu].
    split; [done|]. split; [|done]. rewrite Hu. unfold usage, refunded. rewrite Em, Es, El. simpl.
    by case_bool_decide.
  - rewrite Em, Es, El, sql_sub_int by (unfold in_i64, i64_min, i64_max in *; lia). cbn [sql_max_0].
    pose proof (lowered_within day r m s l m s (Z.max (l - 1) 0) now Hw Em Es El
      ltac:(lia) ltac:(lia) ltac:(lia)) as [? Hu].
    split; [done|]. split; [|done]. rewrite Hu. unfold usage, refunded. rewrite Em, Es, El. simpl.
    by case_bool_decide.
Qed.

Lemma refund_storage_row day now db a n b r : within r → byte_count b → quota_rows db !! (a, n) = Some r →
  ∃ r', quota_rows (refund_storage_only now db a n b) = <[(a, n) := r']> (quota_rows db)
    ∧ within r' ∧ q_day_started_at r' = q_day_started_at r
    ∧ usage day r' = ((usage day r).1.1, Z.max ((usage day r).1.2 - b) 0, (usage day r).2).
Proof.
  intros Hw Hb Hr. eexists. split; [by apply (update_alter _ _ _ _ r)|].
  pose proof (wi_limits _ Hw) as (?&?&?). unfold byte_count in Hb.
  pose proof (within_ints r Hw) as (m & s & l & Em & Es & El & ?&?&?). cbv beta zeta.
  rewrite Em, Es, El, sql_sub_int by (unfold in_i64, i64_min, i64_max in *; lia). cbn [sql_max_0].
  pose proof (lowered_within day r m s l m (Z.max (s - b) 0) l now Hw Em Es El
    ltac:(lia) ltac:(lia) ltac:(lia)) as [? Hu].
  split; [done|]. split; [done|]. rewrite Hu. unfold usage. rewrite Em, Es, El. simpl. by case_bool_decide.
Qed.

(** The table after a refund of a row that may not be there. *)
Lemma missing_row db a n f : quota_rows db !! (a, n) = None → quota_rows (update_row db a n f) = quota_rows db.
Proof.
  intros Hr. simpl. apply map_eq. intros k. destruct (decide (k = (a, n))) as [->|Hne].
  - by rewrite lookup_alter_eq, Hr.
  - by rewrite lookup_alter_ne.
Qed.

Lemma verdict_none r u op : verdict r u op = None → refunded (spent u op) op =
  (match op with OpMemory b => (Z.max u.1.1 0, Z.max u.1.2 0, u.2) | OpLink => (u.1.1, u.1.2, Z.max u.2 0) end).
Proof. intros _. destruct u as [[m s] l], op as [b|]; simpl; repeat f_equal; lia. Qed.

(** A failed store costs nothing. When the insert fails, the refund on the
    same day leaves the usage of the row what it was before the charge, and
    touches no other row. *)
Lemma failed_store_refunded {A} d t now back db a n b (e : string) :
  defaults_ok d → all_within db → q_in_tx db = false → byte_count b →
  day_bucket back = day_bucket now →
  let db1 := ensured d t db (a, n) in
  let r := ensured_row d t db (a, n) in
  verdict r (usage (day_bucket now) r) (OpMemory b) = None →
  let '(db', answer) := charged_store (A := A) d t now back db a n b (Err e) in
  answer = Err (QSql e)
  ∧ ∃ r', quota_rows db' = <[(a, n) := r']> (quota_rows db1) ∧ within r'
      ∧ usage (day_bucket back) r' = usage (day_bucket now) r.
Proof.
  intros Hd Hdb Htx Hb Hday db1 r Hv. unfold charged_store. rewrite check_and_record_eq by done.
  fold db1. fold r. rewrite Hv. split; [done|].
  pose proof (charged_post d t now db a n (OpMemory b) Hd Hdb Hb Hv) as (r1 & Hrows & Hu & Hw & _).
  fold db1 in Hrows. fold r in Hrows.
  pose proof (refund_row (day_bucket now) back _ a n (OpMemory b) r1 Hw Hb
    ltac:(rewrite Hrows; apply lookup_insert_eq)) as (r2 & Hrows2 & Hw2 & Hu2 & _).
  exists r2. rewrite Hrows2, Hrows. split; [apply insert_insert_eq|]. split; [done|].
  rewrite Hday, Hu2, Hu. fold r. rewrite (verdict_none r) by done.
  pose proof (usage_bounds (day_bucket now) r (ensured_row_within d t db (a, n) Hd Hdb)) as (m & s & l & -> & ?&?&?).
  simpl. repeat f_equal; lia.
Qed.

(* ------------------------------------------------------------------ *)
(** * A day's history *)

Section day.
Context (d : QuotaDefaults) (day : string).

(** The writes charged and not refunded. *)
Definition net (nets : gmap quota_key Z) (k : quota_key) : Z := default 0%Z (nets !! k).

Definition add_net (nets : gmap quota_key Z) (k : quota_key) (n : Z) : gmap quota_key Z :=
  <[k := (net nets k + n)%Z]> nets.

Definition charges_memory (op : QuotaOp) (answer : result unit QuotaCheckError) : Z :=
  match op, answer with OpMemory _, Ok _ => 1 | _, _ => 0 end.

(** A clock reading of the day, as [to_rfc3339] writes it. *)
Definition on_day (now : string) : Prop := day_bucket now = day ∧ is_ascii_str now = true.

(** The operations of one day, beside the writes they stand for: a memory is
    refunded only where one was charged. *)
Inductive day_step : QuotaDb * gmap quota_key Z → QuotaDb * gmap quota_key Z → Prop :=
| DS_charge t now db a n op nets db' answer :
    on_day now → is_ascii_str t = true → op_ok op →
    check_and_record d t now db a n op = (db', answer) →
    day_step (db, nets) (db', add_net nets (a, n) (charges_memory op answer))
| DS_refund now db a n b nets : byte_count b → (1 ≤ net nets (a, n))%Z →
    day_step (db, nets) (refund_op now db a n (OpMemory b), add_net nets (a, n) (-1))
| DS_refund_link now db a n nets : day_step (db, nets) (refund_op now db a n OpLink, nets)
| DS_storage t now db a n b nets db' answer :
    on_day now → is_ascii_str t = true → byte_count b →
    check_and_record_storage_only d t now db a n b = (db', answer) → day_step (db, nets) (db', nets)
| DS_refund_storage now db a n b nets : byte_count b →
    day_step (db, nets) (refund_storage_only now db a n b, nets)
| DS_status t db a n nets db' s : is_ascii_str t = true →
    get_status d t db a n = Ok (db', s) → day_step (db, nets) (db', nets)
| DS_sweep now db nets : on_day now → day_step (db, nets) (fst (reset_daily now db), nets).

(** Every row counts the day's writes that stand. *)
Definition row_counts (nets : gmap quota_key Z) (k : quota_key) (o : option QuotaRow) : Prop :=
  match o with
  | None => net nets k = 0%Z
  | Some r => within r ∧ is_ascii_str (q_day_started_at r) = true ∧ net nets k = (usage day r).1.1
  end.

Definition counted (s : QuotaDb * gmap quota_key Z) : Prop :=
  q_in_tx s.1 = false ∧ ∀ k, row_counts s.2 k (quota_rows s.1 !! k).

Lemma counted_within db nets : counted (db, nets) → all_within db.
Proof. intros [_ H] k r Hr. specialize (H k). simpl in H. rewrite Hr in H. by destruct H. Qed.

Lemma counted_insert db nets db' nets' k r :
  counted (db, nets) → q_in_tx db' = false → quota_rows db' = <[k := r]> (quota_rows db) →
  (∀ k', k' ≠ k → net nets' k' = net nets k') → row_counts nets' k (Some r) → counted (db', nets').
Proof.
  intros [_ H] Htx Hrows Hnets Hk. split; [done|]. intros k'. simpl. rewrite Hrows.
  destruct (decide (k' = k)) as [->|Hne]; [by rewrite lookup_insert_eq|].
  rewrite lookup_insert_ne by done. specialize (H k'). simpl in H. unfold row_counts in *. by rewrite Hnets.
Qed.

Lemma net_add nets k n k' : net (add_net nets k n) k' = (net nets k' + if decide (k' = k) then n else 0)%Z.
Proof.
  unfold net, add_net. case_decide; subst; [by rewrite lookup_insert_eq|].
  rewrite lookup_insert_ne by done. lia.
Qed.

Lemma net_add_0 nets k k' : net (add_net nets k 0) k' = net nets k'.
Proof. rewrite net_add. case_decide; lia. Qed.

Lemma counted_nets db nets nets' : (∀ k, net nets' k = net nets k) → counted (db, nets) → counted (db, nets').
Proof.
  intros Hn [Htx H]. split; [done|]. intros k. specialize (H k). simpl in *. unfold row_counts in *.
  case_match; by rewrite Hn.
Qed.

Lemma bucket_of t : is_ascii_str t = true → day_bucket t = sql_substr 10 t.
Proof. apply substr_get. Qed.

Lemma bucket_ascii t : is_ascii_str t = true → is_ascii_str (day_bucket t) = true.
Proof. intros H. rewrite bucket_of by done. by apply substr_ascii. Qed.

Lemma ensured_row_counts t db nets k : defaults_ok d → is_ascii_str t = true → counted (db, nets) →
  row_counts nets k (Some (ensured_row d t db k)).
Proof.
  intros Hd Ht [_ H]. specialize (H k). simpl in H. unfold ensured_row.
  destruct (quota_rows db !! k) as [r|]; [done|]. simpl in *. rewrite H. split; [by apply default_within|].
  split; [by apply bucket_ascii|]. unfold usage. simpl. by case_bool_decide.
Qed.

Lemma ensured_counted t db nets k : defaults_ok d → is_ascii_str t = true → counted (db, nets) →
  counted (ensured d t db k, nets).
Proof.
  intros Hd Ht Hc. split; [rewrite <-(proj1 Hc); apply ensured_in_tx|]. intros k'. simpl.
  destruct (decide (k' = k)) as [->|Hne].
  - rewrite ensured_lookup. by apply ensured_row_counts.
  - rewrite ensured_other by done. apply Hc.
Qed.

Lemma sweep_counted now db nets : on_day now → counted (db, nets) → counted (fst (reset_daily now db), nets).
Proof.
  intros [Hday Hnow] [Htx H]. split; [done|]. intros k. specialize (H k). simpl in *. rewrite lookup_fmap.
  destruct (quota_rows db !! k) as [r|]; [|done]. simpl in *. destruct H as (Hw & Hasc & Hn).
  rewrite Hday. destruct (decide (sql_substr 10 (q_day_started_at r) ≠ day)) as [Hst|Hst]; [|by auto].
  assert (day_bucket (q_day_started_at r) ≠ day) as Hne by (by rewrite bucket_of).
  pose proof (within_ints r Hw) as (m & s & l & Em & Es & El & ?&?&?).
  split; [|split; [done|]].
  - pose proof Hw as [(?&?&?) _ _ _]. unfold set_counters. rewrite Es.
    split; simpl; try done; eexists; (split; [done|lia]).
  - rewrite Hn. unfold usage. simpl. rewrite (bool_decide_false _ Hne). by rewrite bool_decide_true.
Qed.

Lemma charge_counted t now db a n op nets db' answer : defaults_ok d →
  on_day now → is_ascii_str t = true → op_ok op → counted (db, nets) →
  check_and_record d t now db a n op = (db', answer) →
  counted (db', add_net nets (a, n) (charges_memory op answer)).
Proof.
  intros Hd [Hday Hnow] Ht Hop Hc He. pose proof (counted_within _ _ Hc) as Hw.
  pose proof (ensured_counted t db nets (a, n) Hd Ht Hc) as Hc1.
  rewrite check_and_record_eq in He by (try done; apply Hc). cbv zeta in He.
  pose proof (charged_post d t now db a n op Hd Hw Hop) as Hpost. cbv zeta in Hpost.
  destruct (verdict _ _ _) as [v|] eqn:Hv; injection He as <- <-.
  - eapply counted_nets; [|exact Hc1]. intros k. destruct op; apply net_add_0.
  - destruct (Hpost eq_refl) as (r' & Hrows & Hu & Hw' & _ & _ & _ & Hst & Htx).
    apply (counted_insert _ nets _ _ (a, n) r' Hc1); [|exact Hrows|..].
    + rewrite Htx, ensured_in_tx. apply Hc.
    + intros k' Hne. rewrite net_add, decide_False by done. lia.
    + pose proof (ensured_row_counts t db nets (a, n) Hd Ht Hc) as (Hwr & Hasc & Hn).
      split; [done|]. split; [by destruct Hst as [->| ->]|].
      rewrite net_add, decide_True by done. rewrite Hn. rewrite Hday in Hu. rewrite Hu.
      destruct (usage day _) as [[m s] l], op; simpl; lia.
Qed.

(** A statement on one row, there or not. *)
Lemma row_counted db db' nets nets' k :
  counted (db, nets) → q_in_tx db' = q_in_tx db →
  (∀ r, quota_rows db !! k = Some r → within r → ∃ r', quota_rows db' = <[k := r']> (quota_rows db)
     ∧ within r' ∧ q_day_started_at r' = q_day_started_at r
     ∧ (net nets k = (usage day r).1.1 → net nets' k = (usage day r').1.1)) →
  (quota_rows db !! k = None → quota_rows db' = quota_rows db ∧ net nets' k = net nets k) →
  (∀ k', k' ≠ k → net nets' k' = net nets k') → counted (db', nets').
Proof.
  intros Hc Htx Hsome Hnone Hne. pose proof (proj2 Hc k) as Hk. simpl in Hk.
  destruct (quota_rows db !! k) as [r|] eqn:E.
  - destruct Hk as (Hw & Hasc & Hn). destruct (Hsome r eq_refl Hw) as (r' & Hrows & Hw' & Hst & Hn').
    apply (counted_insert db nets _ _ k r' Hc); [rewrite Htx; apply Hc|done|done|].
    split; [done|]. split; [by rewrite Hst|]. by apply Hn'.
  - destruct (Hnone eq_refl) as [Hrows Hnet]. apply (counted_nets _ nets).
    { intros k'. destruct (decide (k' = k)) as [->|Hk']; auto. }
    split; [simpl; rewrite Htx; apply Hc|]. simpl. rewrite Hrows. apply Hc.
Qed.

Lemma day_step_counted s s' : defaults_ok d → day_step s s' → counted s → counted s'.
Proof.
  intros Hd Hs Hc. destruct Hs as
    [t now db a n op nets db' answer Hnow Ht Hop He|now db a n b nets Hb Hn|now db a n nets
    |t now db a n b nets db' answer Hnow Ht Hb He|now db a n b nets Hb|t db a n nets db' st Ht He|now db nets Hnow].
  - by eapply charge_counted.
  - apply (row_counted db _ nets _ (a, n)); [done|done|..].
    + intros r Hr Hw. destruct (refund_row day now db a n (OpMemory b) r Hw Hb Hr) as (r' & ? & ? & Hu & ? & _).
      exists r'. split_and!; try done. intros Hn'. rewrite net_add, decide_True by done. rewrite Hu.
      destruct (usage day r) as [[m s] l]. simpl in *. lia.
    + intros Hr. pose proof (proj2 Hc (a, n)) as Hk. simpl in Hk. rewrite Hr in Hk. simpl in Hk. lia.
    + intros k' Hne. rewrite net_add, decide_False by done. lia.
  - apply (row_counted db _ nets _ (a, n)); [done|done|..|done].
    + intros r Hr Hw. destruct (refund_row day now db a n OpLink r Hw I Hr) as (r' & ? & ? & Hu & ? & _).
      exists r'. split_and!; try done. rewrite Hu. by destruct (usage day r) as [[m s] l].
    + intros Hr. split; [by apply missing_row|done].
  - pose proof (storage_only_eq d t now db a n b Hd (counted_within _ _ Hc) (proj1 Hc) Hb) as Hspec.
    pose proof (ensured_counted t db nets (a, n) Hd Ht Hc) as Hc1. cbv zeta in Hspec.
    destruct (usage _ _) as [[m s] l] eqn:Hu. rewrite He in Hspec. case_decide; [by destruct Hspec as [-> _]|].
    destruct Hspec as (_ & r' & Hrows & Hu' & Hw' & _ & _ & _ & Hst & Htx). destruct Hnow as [Hday Hnow].
    pose proof (ensured_row_counts t db nets (a, n) Hd Ht Hc) as (Hwr & Hasc & Hn).
    apply (counted_insert _ nets _ _ (a, n) r' Hc1); [|exact Hrows|done|].
    + rewrite Htx, ensured_in_tx. apply Hc.
    + split; [done|]. split; [by destruct Hst as [->| ->]|]. rewrite Hday in *. by rewrite Hn, Hu, Hu'.
  - apply (row_counted db _ nets _ (a, n)); [done|done|..|done].
    + intros r Hr Hw. destruct (refund_storage_row day now db a n b r Hw Hb Hr) as (r' & ? & ? & ? & Hu).
      exists r'. split_and!; try done. by rewrite Hu.
    + intros Hr. split; [by apply missing_row|done].
  - unfold get_status in He. rewrite ensure_row_within in He by (try done; by eapply counted_within).
    injection He as <- _. by apply ensured_counted.
  - by apply sweep_counted.
Qed.

(** C38: the daily cap holds. Over any history of one day, charges and their
    refunds, storage charges, sweeps and status reads, interleaved in any
    order, the counter of a row is the number of memories charged to it and
    not refunded, and never above its ceiling. *)
Theorem daily_cap db db' nets k r :
  defaults_ok d → counted (db, ∅) → rtc day_step (db, ∅) (db', nets) →
  quota_rows db' !! k = Some r →
  (usage day r).1.1 = net nets k ∧ (0 ≤ net nets k ≤ q_max_memories_per_day r)%Z.
Proof.
  intros Hd Hc Hs Hr.
  assert (counted (db', nets)) as [_ H].
  { revert Hc. generalize Hs. clear -Hd. intros Hs. remember (db, ∅) as s eqn:E. remember (db', nets) as s' eqn:E'.
    clear E E'. induction Hs as [|s1 s2 s3 Hs _ IH]; [done|]. intros Hc. by eapply IH, day_step_counted. }
  specialize (H k). simpl in H. rewrite Hr in H. destruct H as (Hw & _ & ->). split; [done|].
  pose proof (usage_bounds day r Hw) as (m & s & l & -> & ?&?&?). done.
Qed.
End day.

(** A failed push gives its author a slot back. The receiver charges only
    the bytes of a peer's memory but refunds a whole write when the merge
    fails: the usage of the author's day drops by one memory that nobody
    refunded, and an author at the daily cap may write again. *)
Lemma failed_push_frees_slot {A} d t now back db a n b (e : string) m s l :
  defaults_ok d → all_within db → q_in_tx db = false → byte_count b → day_bucket back = day_bucket now →
  let r := ensured_row d t db (a, n) in
  usage (day_bucket now) r = (m, s, l) → (s + b ≤ q_max_storage_bytes r)%Z →
  let '(db', answer) := charged_receive (A := A) d t now back db a n b (Err e) in
  answer = Err (QSql e)
  ∧ ∃ r', quota_rows db' !! (a, n) = Some r' ∧ usage (day_bucket now) r' = (Z.max (m - 1) 0, s, l)
    ∧ (m = q_max_memories_per_day r → (1 ≤ m)%Z → ∀ b', byte_count b' → (s + b' ≤ q_max_storage_bytes r)%Z →
         snd (check_and_record d t now db a n (OpMemory b'))
           = Err (Quota (mkQuotaError a n MemoriesPerDay m (q_max_memories_per_day r)))
         ∧ snd (check_and_record d t now db' a n (OpMemory b')) = Ok tt).
Proof.
  intros Hd Hdb Htx Hb Hday r Hu Hsb. unfold charged_receive.
  pose proof (storage_only_eq d t now db a n b Hd Hdb Htx Hb) as Hspec. cbv zeta in Hspec. fold r in Hspec.
  rewrite Hu in Hspec. destruct (check_and_record_storage_only _ _ _ _ _ _ _) as [db1 ans].
  rewrite decide_False in Hspec by lia. destruct Hspec as (-> & r1 & Hrows & Hu1 & Hw1 & Hmm & Hms & _ & _ & Htx1).
  pose proof (refund_row (day_bucket now) back db1 a n (OpMemory b) r1 Hw1 Hb
    ltac:(rewrite Hrows; apply lookup_insert_eq)) as (r2 & Hrows2 & Hw2 & Hu2 & _ & Hmm2 & Hms2).
  pose proof (usage_bounds (day_bucket now) r (ensured_row_within d t db (a, n) Hd Hdb)) as (m' & s' & l' & Hu' & ?&?&?).
  rewrite Hu in Hu'. injection Hu' as <- <- <-. split; [done|]. exists r2. rewrite Hrows2, lookup_insert_eq. split; [done|].
  assert (usage (day_bucket now) r2 = (Z.max (m - 1) 0, s, l)) as Hur2.
  { rewrite Hu2, Hu1. simpl. repeat f_equal; lia. }
  split; [done|]. intros Hfull Hm b' Hb' Hsb'. split.
  - rewrite check_and_record_eq by done. cbv zeta. fold r. rewrite Hu. simpl. by rewrite decide_True by lia.
  - set (db2 := refund_op back db1 a n (OpMemory b)) in *.
    assert (all_within db2) as Hall.
    { intros k rk Hk. rewrite Hrows2, Hrows, insert_insert_eq in Hk.
      destruct (decide (k = (a, n))) as [->|Hne]; [rewrite lookup_insert_eq in Hk; by simplify_eq|].
      rewrite lookup_insert_ne in Hk by done. by eapply ensured_within. }
    rewrite check_and_record_eq by (try done; simpl; rewrite Htx1, ensured_in_tx; done). cbv zeta.
    assert (ensured_row d t db2 (a, n) = r2) as ->.
    { unfold ensured_row. by rewrite Hrows2, lookup_insert_eq. }
    rewrite Hur2. simpl. rewrite decide_False by lia. by rewrite decide_False by lia.
Qed.

(* ------------------------------------------------------------------ *)
(** * Witnesses *)

Definition demo_defaults : QuotaDefaults := mkDefaults 1 100 5.
Definition demo_today : string := "2026-01-02T10:00:00+00:00".
Definition demo_quotas : QuotaDb := mkQuotaDb ∅ false.
Definition demo_row : QuotaRow :=
  mkQuotaRow 1 100 5 (CInt 1) (CInt 10) (CInt 0) "2026-01-02" demo_today demo_today.
Definition demo_full : QuotaDb := mkQuotaDb {[("ai:a", "ns") := demo_row]} false.

Example demo_charges :
  let '(db1, a1) := check_and_record demo_defaults demo_today demo_today demo_quotas "ai:a" "ns" (OpMemory 10) in
  let '(db2, a2) := check_and_record demo_defaults demo_today demo_today db1 "ai:a" "ns" (OpMemory 10) in
  let '(db3, a3) := check_and_record demo_defaults demo_today "2026-01-03T00:00:01+00:00" db2 "ai:a" "ns"
                      (OpMemory 10) in
  a1 = Ok tt ∧ a2 = Err (Quota (mkQuotaError "ai:a" "ns" MemoriesPerDay 1 1)) ∧ a3 = Ok tt
  ∧ (q_current_storage_bytes <$> quota_rows db3 !! ("ai:a", "ns")) = Some (CInt 20).
Proof. vm_compute. auto. Qed.

(** A ceiling at the end of the range lets a sum leave it: the counter becomes
    a double, and every later read of the row fails. *)
Example demo_overflow :
  let d := mkDefaults 10 i64_max 10 in
  let '(db1, a1) := check_and_record d demo_today demo_today demo_quotas "ai:a" "ns" (OpMemory 1) in
  let '(db2, a2) := check_and_record d demo_today demo_today db1 "ai:a" "ns" (OpMemory i64_max) in
  a1 = Ok tt ∧ a2 = Ok tt
  ∧ snd (check_and_record d demo_today demo_today db2 "ai:a" "ns" OpLink)
    = Err (QSql "failed to load agent quota row").
Proof. vm_compute. auto. Qed.

Lemma demo_defaults_ok : defaults_ok demo_defaults.
Proof. split_and!; vm_compute; done. Qed.

Lemma demo_quotas_within : all_within demo_quotas.
Proof. intros k r H. simpl in H. by rewrite lookup_empty in H. Qed.

Lemma demo_counted day : counted day (demo_quotas, ∅).
Proof. split; [done|]. intros k. simpl. by rewrite lookup_empty. Qed.

Lemma charge_exact_witness :
  snd (check_and_record demo_defaults demo_today demo_today demo_quotas "ai:a" "ns" (OpMemory 101))
  = Err (Quota (mkQuotaError "ai:a" "ns" StorageBytes 0 100)).
Proof.
  pose proof (charge_exact demo_defaults demo_today demo_today demo_quotas "ai:a" "ns" (OpMemory 101)
    demo_defaults_ok demo_quotas_within eq_refl ltac:(vm_compute; intuition congruence)) as H.
  vm_compute in H. destruct H as [_ H]. exact H.
Defined.

Lemma check_predicts_charge_witness :
  snd (check_quota demo_defaults demo_today demo_today demo_quotas "ai:a" "ns" OpLink)
  = snd (check_and_record demo_defaults demo_today demo_today demo_quotas "ai:a" "ns" OpLink).
Proof.
  apply (check_predicts_charge demo_defaults demo_today demo_today demo_quotas "ai:a" "ns" OpLink);
    [apply demo_defaults_ok|apply demo_quotas_within|reflexivity|exact I].
Defined.

Lemma failed_store_refunded_witness : ∃ r',
  quota_rows (fst (charged_store (A := unit) demo_defaults demo_today demo_today demo_today demo_quotas "ai:a" "ns" 10
    (Err "no"))) !! ("ai:a", "ns") = Some r' ∧ usage "2026-01-02" r' = (0, 0, 0)%Z.
Proof.
  pose proof (failed_store_refunded (A := unit) demo_defaults demo_today demo_today demo_today demo_quotas "ai:a" "ns"
    10 "no" demo_defaults_ok demo_quotas_within eq_refl ltac:(vm_compute; intuition congruence) eq_refl eq_refl) as H.
  destruct (charged_store _ _ _ _ _ _ _ _ _) as [db' ans] eqn:E. destruct H as (_ & r' & Hr & _ & Hu).
  exists r'. simpl. rewrite Hr, lookup_insert_eq. split; [done|exact Hu].
Defined.

Lemma daily_cap_witness :
  match quota_rows demo_full !! ("ai:a", "ns") with
  | Some r => (usage "2026-01-02" r).1.1 = 1%Z
  | None => False
  end.
Proof.
  destruct (quota_rows demo_full !! ("ai:a", "ns")) as [r|] eqn:Hr; [|by vm_compute in Hr].
  assert (rtc (day_step demo_defaults "2026-01-02") (demo_quotas, ∅)
    (demo_full, add_net ∅ ("ai:a", "ns") 1)) as Hs.
  { apply rtc_once. apply (DS_charge _ _ demo_today demo_today demo_quotas "ai:a" "ns" (OpMemory 10) ∅ demo_full (Ok tt));
      [split; reflexivity|reflexivity|vm_compute; intuition congruence|vm_compute; reflexivity]. }
  pose proof (daily_cap demo_defaults "2026-01-02" demo_quotas demo_full _ ("ai:a", "ns") r
    demo_defaults_ok (demo_counted _) Hs Hr) as [-> _]. reflexivity.
Defined.

Lemma demo_full_within : all_within demo_full.
Proof.
  intros k r Hr. simpl in Hr. apply lookup_singleton_Some in Hr as [_ <-]. split; [split_and!; vm_compute; done|..]; eexists; (split; [done|simpl; lia]).
Qed.

Lemma failed_push_frees_slot_witness :
  snd (check_and_record demo_defaults demo_today demo_today
         (fst (charged_receive (A := unit) demo_defaults demo_today demo_today demo_today demo_full "ai:a" "ns" 10
                 (Err "no"))) "ai:a" "ns" (OpMemory 5)) = Ok tt.
Proof.
  pose proof (failed_push_frees_slot (A := unit) demo_defaults demo_today demo_today demo_today demo_full "ai:a" "ns"
    10 "no" 1 10 0 demo_defaults_ok demo_full_within eq_refl ltac:(vm_compute; intuition congruence) eq_refl
    ltac:(vm_compute; reflexivity) ltac:(vm_compute; intuition congruence)) as H.
  destruct (charged_receive _ _ _ _ _ _ _ _ _) as [db' ans] eqn:E. destruct H as (_ & r' & _ & _ & H).
  simpl. apply (H eq_refl ltac:(lia) 5%Z); vm_compute; intuition congruence.
Defined.
