(* ===== verification/Json.v ===== *)
(** [serde_json::Value] (built without the [preserve_order] feature, so an
    object is a sorted map), its accessors, and the text codec
    [to_string]/[from_str] as an interface with its round-trip law. *)
From S2P Require Import Prelude.
From S2P Require Import BTree.
From S2P Require Import F64.

(* ------------------------------------------------------------------ *)
(** * Data *)

(** [serde_json::Number]: an unsigned or negative 64-bit integer or a
    finite IEEE double. *)
Inductive json_number : Type :=
| NPosInt (u : Z)
| NNegInt (i : Z)
| NFloat (f : f64).

#[warnings="-register-all"]
Inductive value : Type :=
| JNull
| JBool (b : bool)
| JNumber (n : json_number)
| JString (s : string)
| JArray (l : list value)
| JObject (m : btree value).

(** [Value::get] with a string index: [None] unless the value is an object. *)
Definition json_get (v : value) (k : string) : option value :=
  match v with JObject m => bget k m | _ => None end.

Definition json_as_str (v : value) : option string :=
  match v with JString s => Some s | _ => None end.

Definition json_as_object (v : value) : option (btree value) :=
  match v with JObject m => Some m | _ => None end.

Definition json_as_array (v : value) : option (list value) :=
  match v with JArray l => Some l | _ => None end.

(** [Value::as_i64] and [Value::as_u64]: integers in range; a float never is. *)
Definition json_as_i64 (v : value) : option Z :=
  match v with
  | JNumber (NPosInt u) => if decide (u ≤ i64_max)%Z then Some u else None
  | JNumber (NNegInt i) => Some i
  | _ => None
  end.

Definition json_as_u64 (v : value) : option Z :=
  match v with JNumber (NPosInt u) => Some u | _ => None end.

Definition json_is_null (v : value) : bool :=
  match v with JNull => true | _ => false end.

(** Insert into / remove from the object a value holds; a no-op on any other
    value ([as_object_mut] is [None]). *)
Definition json_insert (k : string) (x : value) (v : value) : value :=
  match v with JObject m => JObject (binsert k x m) | _ => v end.

Definition json_remove (k : string) (v : value) : value :=
  match v with JObject m => JObject (bremove k m) | _ => v end.

(** Every object inside the value has strictly sorted keys: the invariant of
    the sorted map that backs an object. *)
Fixpoint json_wf (v : value) : Prop :=
  match v with
  | JArray l => (fix all l := match l with [] => True | x :: l' => json_wf x ∧ all l' end) l
  | JObject m =>
      bwf m ∧
      (fix all m := match m with [] => True | (_, x) :: m' => json_wf x ∧ all m' end) m
  | _ => True
  end.

(** The text codec: [serde_json::to_string] on a [Value] and
    [serde_json::from_str] into one. *)
Class JsonCodec : Type := {
  json_to_string : value → string;
  json_from_str : string → option value
}.

(** What the program relies on: what it writes, it reads back. *)
Class JsonCodecLaws (C : JsonCodec) : Prop := {
  json_roundtrip : ∀ v, json_wf v → json_from_str (json_to_string v) = Some v
}.

(* ------------------------------------------------------------------ *)
(** * Induction and laws *)

Section value_ind'.
Variable P : value → Prop.
Hypothesis Pnull : P JNull.
Hypothesis Pbool : ∀ b, P (JBool b).
Hypothesis Pnumber : ∀ n, P (JNumber n).
Hypothesis Pstring : ∀ s, P (JString s).
Hypothesis Parray : ∀ l, Forall P l → P (JArray l).
Hypothesis Pobject : ∀ m : btree value, Forall (λ kv, P kv.2) m → P (JObject m).

Fixpoint value_ind' (v : value) : P v :=
  match v with
  | JNull => Pnull
  | JBool b => Pbool b
  | JNumber n => Pnumber n
  | JString s => Pstring s
  | JArray l =>
      Parray l ((fix go l : Forall P l :=
        match l with
        | [] => @List.Forall_nil _ P
        | x :: l' => @List.Forall_cons _ P x l' (value_ind' x) (go l')
        end) l)
  | JObject m =>
      Pobject m ((fix go (m : btree value) : Forall (λ kv, P kv.2) m :=
        match m with
        | [] => @List.Forall_nil _ (λ kv, P kv.2)
        | (k, x) :: m' => @List.Forall_cons _ (λ kv, P kv.2) (k, x) m' (value_ind' x) (go m')
        end) m)
  end.
End value_ind'.

#[global] Instance json_number_eq_dec : EqDecision json_number.
Proof. solve_decision. Defined.

#[global] Instance value_eq_dec : EqDecision value.
Proof.
  refine (fix go (v w : value) : Decision (v = w) :=
    match v, w with
    | JNull, JNull => left _
    | JBool a, JBool b => cast_if (decide (a = b))
    | JNumber a, JNumber b => cast_if (decide (a = b))
    | JString a, JString b => cast_if (decide (a = b))
    | JArray a, JArray b => cast_if (@list_eq_dec _ go a b)
    | JObject a, JObject b =>
        cast_if (@list_eq_dec _ (@prod_eq_dec _ String.eq_dec _ go) a b)
    | _, _ => right _
    end); clear go; abstract congruence.
Defined.

Lemma json_wf_object m :
  json_wf (JObject m) ↔ bwf m ∧ Forall (λ kv, json_wf kv.2) m.
Proof.
  simpl. apply and_iff_compat_l.
  induction m as [|[k x] m IH]; simpl; [done|]. rewrite Forall_cons. naive_solver.
Qed.

Lemma json_wf_object_bwf m : json_wf (JObject m) → bwf m.
Proof. by intros [? _]%json_wf_object. Qed.

Lemma bget_Forall {V} (P : V → Prop) k v (m : btree V) :
  Forall (λ kv, P kv.2) m → bget k m = Some v → P v.
Proof.
  induction m as [|[k' v'] m IH]; simpl; [done|]. rewrite Forall_cons. intros [? ?].
  case_decide; naive_solver.
Qed.

Lemma json_get_wf v k x : json_wf v → json_get v k = Some x → json_wf x.
Proof.
  destruct v; try done. intros [_ Hall]%json_wf_object Hk.
  by eapply (bget_Forall json_wf).
Qed.

#[export] Hint Resolve json_wf_object_bwf json_get_wf : mem.
