(* ===== verification/Actions.v ===== *)
(** The coordination substrate: typed actions with a state machine, the
    dependency edges between them with the frontier query, and the
    single-holder leases ([src/src/models/action.rs],
    [src/src/actions/mod.rs]).  The tables [actions], [action_edges] and
    [leases] are finite maps keyed by their primary keys; each function is
    the sequence of SQL statements its source runs. *)
From S2P Require Import Prelude.
From S2P Require Import BTree.
From S2P Require Import Sql.
From S2P Require Import Json.

(* ------------------------------------------------------------------ *)
(** * Data: [models/action.rs] *)

Inductive ActionState : Type :=
| Pending | Claimed | InProgress | Done | Failed | Abandoned.

#[global] Instance ActionState_eq_dec : EqDecision ActionState.
Proof. solve_decision. Defined.

Module ActionState.
Definition as_str (s : ActionState) : string :=
  match s with
  | Pending => "pending"
  | Claimed => "claimed"
  | InProgress => "in_progress"
  | Done => "done"
  | Failed => "failed"
  | Abandoned => "abandoned"
  end.

Definition from_str (s : string) : option ActionState :=
  if decide (s = "pending") then Some Pending
  else if decide (s = "claimed") then Some Claimed
  else if decide (s = "in_progress") then Some InProgress
  else if decide (s = "done") then Some Done
  else if decide (s = "failed") then Some Failed
  else if decide (s = "abandoned") then Some Abandoned
  else None.

Definition can_transition_to (self to : ActionState) : bool :=
  match self, to with
  | Pending, Claimed
  | Pending, Abandoned
  | Claimed, InProgress
  | Claimed, Pending
  | Claimed, Abandoned
  | InProgress, Done
  | InProgress, Failed
  | InProgress, Abandoned => true
  | _, _ => false
  end.

Definition is_terminal (s : ActionState) : bool :=
  match s with Done | Failed | Abandoned => true | _ => false end.
End ActionState.

Record Action : Type := mkAction {
  act_id : string;
  act_namespace : string;
  act_kind : string;
  act_state : ActionState;
  act_title : string;
  act_payload : value;
  act_priority : Z;
  act_agent_id : option string;
  act_claimed_by : option string;
  act_vector_clock : value;
  act_metadata : value;
  act_created_at : Z;
  act_updated_at : Z
}.

Inductive EdgeType : Type := Requires | Unlocks | Blocks | GatedBy | Sibling.

Module EdgeType.
Definition as_str (e : EdgeType) : string :=
  match e with
  | Requires => "requires"
  | Unlocks => "unlocks"
  | Blocks => "blocks"
  | GatedBy => "gated_by"
  | Sibling => "sibling"
  end.

Definition from_str (s : string) : option EdgeType :=
  if decide (s = "requires") then Some Requires
  else if decide (s = "unlocks") then Some Unlocks
  else if decide (s = "blocks") then Some Blocks
  else if decide (s = "gated_by") then Some GatedBy
  else if decide (s = "sibling") then Some Sibling
  else None.
End EdgeType.

Record ActionEdge : Type := mkActionEdge {
  edge_from : string;
  edge_to : string;
  edge_type : EdgeType;
  edge_created_at : Z
}.

Record Lease : Type := mkLease {
  lease_action_id : string;
  lease_holder : string;
  lease_acquired_at : Z;
  lease_expires_at : Z;
  lease_heartbeat_at : Z
}.

(* ------------------------------------------------------------------ *)
(** * The tables *)

(** A row of [actions]: the raw columns, before [row_to_action] decodes the
    state name and the JSON texts. *)
Record action_row : Type := mkRow {
  row_id : string;
  row_namespace : string;
  row_kind : string;
  row_state : string;
  row_title : string;
  row_payload : string;
  row_priority : Z;
  row_agent_id : option string;
  row_claimed_by : option string;
  row_vector_clock : string;
  row_metadata : string;
  row_created_at : Z;
  row_updated_at : Z
}.

Record coord_db : Type := mkDb {
  actions : gmap string action_row;
  action_edges : gmap (string * string * string) Z;
  leases : gmap string Lease
}.

Definition with_actions (db : coord_db) (t : gmap string action_row) : coord_db :=
  mkDb t (action_edges db) (leases db).
Definition with_edges (db : coord_db) (t : gmap (string * string * string) Z) : coord_db :=
  mkDb (actions db) t (leases db).
Definition with_leases (db : coord_db) (t : gmap string Lease) : coord_db :=
  mkDb (actions db) (action_edges db) t.

(** [UPDATE actions SET state, claimed_by, updated_at] on one row. *)
Definition set_state (to : ActionState) (claimed_by : option string) (now : Z)
    (r : action_row) : action_row :=
  mkRow (row_id r) (row_namespace r) (row_kind r) (ActionState.as_str to) (row_title r)
    (row_payload r) (row_priority r) (row_agent_id r) claimed_by
    (row_vector_clock r) (row_metadata r) (row_created_at r) now.

Definition action_rows (db : coord_db) : list action_row := (map_to_list (actions db)).*2.

(* ------------------------------------------------------------------ *)
(** * Operations: [actions/mod.rs] *)

(** [unwrap_or_default] of a state parse. *)
Definition state_or_default (s : string) : ActionState :=
  default Pending (ActionState.from_str s).

(** [ORDER BY updated_at DESC] *)
Definition by_updated_desc : relation action_row :=
  λ a b, (row_updated_at b ≤ row_updated_at a)%Z.

(** [ORDER BY a.priority DESC, a.created_at ASC] *)
Definition by_priority : relation action_row :=
  λ a b, (row_priority b < row_priority a
          ∨ row_priority a = row_priority b ∧ row_created_at a ≤ row_created_at b)%Z.

#[global] Instance by_priority_dec : RelDecision by_priority.
Proof. intros a b. unfold by_priority. apply _. Defined.
#[global] Instance by_updated_desc_dec : RelDecision by_updated_desc.
Proof. intros a b. unfold by_updated_desc. apply _. Defined.

Section with_codec.
Context `{C : JsonCodec}.

Definition row_to_action (r : action_row) : Action :=
  mkAction (row_id r) (row_namespace r) (row_kind r) (state_or_default (row_state r))
    (row_title r) (default JNull (json_from_str (row_payload r))) (row_priority r)
    (row_agent_id r) (row_claimed_by r)
    (default JNull (json_from_str (row_vector_clock r)))
    (default JNull (json_from_str (row_metadata r)))
    (row_created_at r) (row_updated_at r).

(** The bound parameters of the [INSERT]. *)
Definition action_to_row (a : Action) : action_row :=
  mkRow (act_id a) (act_namespace a) (act_kind a) (ActionState.as_str (act_state a))
    (act_title a) (json_to_string (act_payload a)) (act_priority a) (act_agent_id a)
    (act_claimed_by a) (json_to_string (act_vector_clock a))
    (json_to_string (act_metadata a)) (act_created_at a) (act_updated_at a).

Definition create (db : coord_db) (a : Action) : result (coord_db * string) sql_error :=
  match actions db !! act_id a with
  | Some _ => Err ConstraintPrimaryKey
  | None => Ok (with_actions db (<[act_id a := action_to_row a]> (actions db)), act_id a)
  end.

Definition get (db : coord_db) (id : string) : option Action :=
  row_to_action <$> actions db !! id.

Inductive TransitionOutcome : Type :=
| NotFound
| Illegal (from to : ActionState)
| Updated (a : Action).

(** The re-fetch [query_row] fails when the row is gone. *)
Definition refetch (db : coord_db) (id : string) : result Action sql_error :=
  ok_or (get db id) QueryReturnedNoRows.

Definition transition (db : coord_db) (id : string) (to : ActionState)
    (claimed_by : option string) (now : Z) : result (coord_db * TransitionOutcome) sql_error :=
  match row_state <$> actions db !! id with
  | None => Ok (db, NotFound)
  | Some cs =>
      let from := state_or_default cs in
      if negb (ActionState.can_transition_to from to) then Ok (db, Illegal from to)
      else
        let db' := with_actions db (alter (set_state to claimed_by now) id (actions db)) in
        let? a := refetch db' id in
        Ok (db', Updated a)
  end.

Inductive CasOutcome : Type :=
| CasNotFound
| CasStateMismatch (current : ActionState)
| CasIllegal (from to : ActionState)
| CasApplied (a : Action).

(** [UPDATE .. WHERE id = ?4 AND state = ?5]: the new table and the number
    of changed rows, in one atomic statement. *)
Definition update_where_state (t : gmap string action_row) (id : string)
    (from to : ActionState) (claimed_by : option string) (now : Z) :
    gmap string action_row * nat :=
  match t !! id with
  | Some r =>
      if decide (row_state r = ActionState.as_str from)
      then (<[id := set_state to claimed_by now r]> t, 1)
      else (t, 0)
  | None => (t, 0)
  end.

Definition transition_cas (db : coord_db) (id : string) (from to : ActionState)
    (claimed_by : option string) (now : Z) : result (coord_db * CasOutcome) sql_error :=
  if negb (ActionState.can_transition_to from to) then Ok (db, CasIllegal from to)
  else
    let '(t, changed) := update_where_state (actions db) id from to claimed_by now in
    let db' := with_actions db t in
    if decide (changed = 0) then
      match row_state <$> actions db' !! id with
      | None => Ok (db', CasNotFound)
      | Some cs => Ok (db', CasStateMismatch (state_or_default cs))
      end
    else
      let? a := refetch db' id in
      Ok (db', CasApplied a).

Definition list_where (namespace : option string) (state : option ActionState)
    (r : action_row) : bool :=
  match namespace with Some ns => bool_decide (row_namespace r = ns) | None => true end
  && match state with Some st => bool_decide (row_state r = ActionState.as_str st) | None => true end.

Definition list_actions (db : coord_db) (namespace : option string)
    (state : option ActionState) (limit : Z) : list Action :=
  row_to_action <$>
    select (action_rows db) (list_where namespace state) by_updated_desc (limit_i64 limit).

(** The two [NOT EXISTS] sub-queries of [frontier_where_tail].  An edge
    whose other endpoint has no row joins nothing. *)
Definition unmet_prerequisite (db : coord_db) (id : string) (e : string * string * string) : bool :=
  let '(f, t, ty) := e in
  bool_decide (f = id)
  && (bool_decide (ty = EdgeType.as_str Requires) || bool_decide (ty = EdgeType.as_str GatedBy))
  && match actions db !! t with
     | Some b => negb (bool_decide (row_state b = ActionState.as_str Done))
     | None => false
     end.

Definition active_blocker (db : coord_db) (id : string) (e : string * string * string) : bool :=
  let '(f, t, ty) := e in
  bool_decide (t = id) && bool_decide (ty = EdgeType.as_str Blocks)
  && match actions db !! f with
     | Some b =>
         negb (bool_decide (row_state b = ActionState.as_str Done)
               || bool_decide (row_state b = ActionState.as_str Failed)
               || bool_decide (row_state b = ActionState.as_str Abandoned))
     | None => false
     end.

Definition edge_keys (db : coord_db) : list (string * string * string) :=
  (map_to_list (action_edges db)).*1.

Definition frontier_where (db : coord_db) (namespace : string) (a : action_row) : bool :=
  bool_decide (row_namespace a = namespace)
  && bool_decide (row_state a = ActionState.as_str Pending)
  && negb (existsb (unmet_prerequisite db (row_id a)) (edge_keys db))
  && negb (existsb (active_blocker db (row_id a)) (edge_keys db)).

Definition frontier (db : coord_db) (namespace : string) (limit : Z) : list Action :=
  row_to_action <$>
    select (action_rows db) (frontier_where db namespace) by_priority (limit_i64 limit).

Definition next_action (db : coord_db) (namespace : string) (agent_id : option string) :
    option Action :=
  let mine r :=
    match agent_id with
    | Some me => bool_decide (row_agent_id r = Some me) || negb (is_some (row_agent_id r))
    | None => true
    end in
  row_to_action <$>
    head (select (action_rows db) (λ r, frontier_where db namespace r && mine r) by_priority 1).
End with_codec.

(** [INSERT OR IGNORE]: a duplicate key is ignored, a missing endpoint is a
    foreign-key error. *)
Definition add_edge (db : coord_db) (from_action to_action : string) (ty : EdgeType) (now : Z) :
    result coord_db sql_error :=
  let key := (from_action, to_action, EdgeType.as_str ty) in
  match action_edges db !! key with
  | Some _ => Ok db
  | None =>
      if is_some (actions db !! from_action) && is_some (actions db !! to_action)
      then Ok (with_edges db (<[key := now]> (action_edges db)))
      else Err ConstraintForeignKey
  end.

Definition by_created_asc : relation (string * string * string * Z) :=
  λ a b, (a.2 ≤ b.2)%Z.

#[global] Instance by_created_asc_dec : RelDecision by_created_asc.
Proof. intros a b. unfold by_created_asc. apply _. Defined.

Definition edges_for (db : coord_db) (action_id : string) : list ActionEdge :=
  (λ '(f, t, ty, at_),
     mkActionEdge f t (default Sibling (EdgeType.from_str ty)) at_) <$>
  stable_sort by_created_asc
    (List.filter (λ '(f, t, _, _), bool_decide (f = action_id) || bool_decide (t = action_id))
       (map_to_list (action_edges db))).

(* ------------------------------------------------------------------ *)
(** * Leases *)

Inductive LeaseAcquire : Type :=
| Conflict
| Acquired (l : Lease).

(** The [SELECT holder, expires_at] of [lease_acquire] with its guard: does a
    live lease of another holder block the caller? *)
Definition lease_blocked (db : coord_db) (action_id holder : string) (now : Z) : bool :=
  match leases db !! action_id with
  | Some l => bool_decide (lease_expires_at l > now)%Z && negb (bool_decide (lease_holder l = holder))
  | None => false
  end.

(** The [INSERT OR REPLACE] and re-fetch of [lease_acquire]. *)
Definition lease_write (db : coord_db) (action_id holder : string) (now expires_at : Z) :
    result (coord_db * LeaseAcquire) sql_error :=
  match actions db !! action_id with
  | None => Err ConstraintForeignKey
  | Some _ =>
      let l := mkLease action_id holder now expires_at now in
      Ok (with_leases db (<[action_id := l]> (leases db)), Acquired l)
  end.

Definition lease_acquire (db : coord_db) (action_id holder : string) (now expires_at : Z) :
    result (coord_db * LeaseAcquire) sql_error :=
  if lease_blocked db action_id holder now then Ok (db, Conflict)
  else lease_write db action_id holder now expires_at.

Definition lease_renew (db : coord_db) (action_id holder : string) (now expires_at : Z) :
    coord_db * option Lease :=
  match leases db !! action_id with
  | Some l =>
      if decide (lease_holder l = holder) then
        let l' := mkLease (lease_action_id l) (lease_holder l) (lease_acquired_at l) expires_at now in
        (with_leases db (<[action_id := l']> (leases db)), Some l')
      else (db, None)
  | None => (db, None)
  end.

Definition lease_release (db : coord_db) (action_id holder : string) : coord_db * bool :=
  match leases db !! action_id with
  | Some l =>
      if decide (lease_holder l = holder)
      then (with_leases db (delete action_id (leases db)), true)
      else (db, false)
  | None => (db, false)
  end.

Definition lease_get (db : coord_db) (action_id : string) : option Lease :=
  leases db !! action_id.

(** [DELETE FROM leases WHERE expires_at <= ?1]: the deleted-row count. *)
Definition sweep_expired_leases (db : coord_db) (now : Z) : coord_db * nat :=
  let live := filter (λ kv, ¬ (lease_expires_at kv.2 ≤ now)%Z) (leases db) in
  (with_leases db live, size (leases db) - size live).

(* ------------------------------------------------------------------ *)
(** * The store as a transition system *)

Section system.
Context `{C : JsonCodec}.

(** One successful call on the store; a failed call rolls back. *)
Inductive coord_step (db : coord_db) : coord_db → Prop :=
| step_create a db' id : create db a = Ok (db', id) → coord_step db db'
| step_transition id to who now db' o :
    transition db id to who now = Ok (db', o) → coord_step db db'
| step_cas id from to who now db' o :
    transition_cas db id from to who now = Ok (db', o) → coord_step db db'
| step_edge f t ty now db' : add_edge db f t ty now = Ok db' → coord_step db db'
| step_acquire a h now e db' o :
    lease_acquire db a h now e = Ok (db', o) → coord_step db db'
| step_renew a h now e : coord_step db (lease_renew db a h now e).1
| step_release a h : coord_step db (lease_release db a h).1
| step_sweep now : coord_step db (sweep_expired_leases db now).1.

Definition coord_steps : relation coord_db := rtc coord_step.

(** The store's integrity: every row sits under its own key with a state
    the code can parse, edges and leases refer to existing actions. *)
Record db_wf (db : coord_db) : Prop := {
  wf_row : ∀ id r, actions db !! id = Some r →
    row_id r = id ∧ is_Some (ActionState.from_str (row_state r));
  wf_edge : ∀ f t ty at_, action_edges db !! (f, t, ty) = Some at_ →
    is_Some (actions db !! f) ∧ is_Some (actions db !! t)
    ∧ is_Some (EdgeType.from_str ty);
  wf_lease : ∀ id l, leases db !! id = Some l →
    lease_action_id l = id ∧ is_Some (actions db !! id)
}.

Definition empty_db : coord_db := mkDb ∅ ∅ ∅.

(** The state a row is in, as the code reads it. *)
Definition state_of (db : coord_db) (id : string) : option ActionState :=
  state_or_default ∘ row_state <$> actions db !! id.

(** What the frontier query means: pending, every [requires]/[gated_by]
    target done, no [blocks] edge from an action that is still open. *)
Definition unblocked (db : coord_db) (namespace : string) (r : action_row) : Prop :=
  row_namespace r = namespace ∧ row_state r = "pending" ∧
  (∀ t ty b, is_Some (action_edges db !! (row_id r, t, ty)) →
     ty = "requires" ∨ ty = "gated_by" → actions db !! t = Some b → row_state b = "done") ∧
  (∀ f b, is_Some (action_edges db !! (f, row_id r, "blocks")) →
     actions db !! f = Some b →
     row_state b = "done" ∨ row_state b = "failed" ∨ row_state b = "abandoned").

(** Who holds the lock on an action at a given time. *)
Definition owner (db : coord_db) (action_id : string) (now : Z) : option string :=
  match leases db !! action_id with
  | Some l => if decide (lease_expires_at l > now)%Z then Some (lease_holder l) else None
  | None => None
  end.

(** Lease traffic of other agents, each call with its own clock reading. *)
Inductive lease_op : Type :=
| OpAcquire (action_id holder : string) (now expires_at : Z)
| OpRenew (action_id holder : string) (now expires_at : Z)
| OpRelease (action_id holder : string)
| OpSweep (now : Z).

Definition run_lease_op (db : coord_db) (op : lease_op) : coord_db :=
  match op with
  | OpAcquire a h now e =>
      match lease_acquire db a h now e with Ok (db', _) => db' | Err _ => db end
  | OpRenew a h now e => (lease_renew db a h now e).1
  | OpRelease a h => (lease_release db a h).1
  | OpSweep now => (sweep_expired_leases db now).1
  end.

Definition run_lease_ops (db : coord_db) (ops : list lease_op) : coord_db :=
  fold_left run_lease_op ops db.

(** An operation of somebody else, before time [e]. *)
Definition op_of_others (h : string) (e : Z) (op : lease_op) : Prop :=
  match op with
  | OpAcquire _ h' now _ => h' ≠ h ∧ (now < e)%Z
  | OpRenew _ h' _ _ => h' ≠ h
  | OpRelease _ h' => h' ≠ h
  | OpSweep now => (now < e)%Z
  end.

(** Two connections running [lease_acquire] on one store, interleaved at
    statement granularity: each caller runs its guarding [SELECT], then its
    [INSERT OR REPLACE]; there is no transaction around the two. *)
Inductive acquire_pc : Type :=
| PcSelect
| PcInsert
| PcReturned (o : LeaseAcquire).

Record race_config : Type := mkRace { race_db : coord_db; pc_a : acquire_pc; pc_b : acquire_pc }.

Inductive acquire_stmt (action_id h : string) (now e : Z) :
    coord_db → acquire_pc → coord_db → acquire_pc → Prop :=
| stmt_select_blocked db :
    lease_blocked db action_id h now = true →
    acquire_stmt action_id h now e db PcSelect db (PcReturned Conflict)
| stmt_select_free db :
    lease_blocked db action_id h now = false →
    acquire_stmt action_id h now e db PcSelect db PcInsert
| stmt_insert db db' o :
    lease_write db action_id h now e = Ok (db', o) →
    acquire_stmt action_id h now e db PcInsert db' (PcReturned o).

Inductive race_step (action_id ha hb : string) (now e : Z) : race_config → race_config → Prop :=
| race_a db a b db' a' :
    acquire_stmt action_id ha now e db a db' a' →
    race_step action_id ha hb now e (mkRace db a b) (mkRace db' a' b)
| race_b db a b db' b' :
    acquire_stmt action_id hb now e db b db' b' →
    race_step action_id ha hb now e (mkRace db a b) (mkRace db' a b').
End system.

(* ------------------------------------------------------------------ *)
(** * Lemmas *)

Lemma ActionState_roundtrip s : ActionState.from_str (ActionState.as_str s) = Some s.
Proof. by destruct s. Qed.

Lemma ActionState_as_str_inj : Inj (=) (=) ActionState.as_str.
Proof. intros [] []; done. Qed.

Lemma EdgeType_roundtrip e : EdgeType.from_str (EdgeType.as_str e) = Some e.
Proof. by destruct e. Qed.

Lemma state_or_default_as_str s : state_or_default (ActionState.as_str s) = s.
Proof. unfold state_or_default. by rewrite ActionState_roundtrip. Qed.

#[export] Hint Rewrite ActionState_roundtrip EdgeType_roundtrip state_or_default_as_str : mem.

#[global] Instance by_priority_total : Total by_priority.
Proof. intros a b. unfold by_priority. lia. Qed.
#[global] Instance by_priority_trans : Transitive by_priority.
Proof. intros a b c. unfold by_priority. lia. Qed.

Lemma elem_of_action_rows db r :
  r ∈ action_rows db ↔ ∃ id, actions db !! id = Some r.
Proof.
  unfold action_rows. rewrite list_elem_of_fmap. split.
  - intros [[id r'] [-> H%elem_of_map_to_list]]. by exists id.
  - intros [id H%elem_of_map_to_list]. by exists (id, r).
Qed.

Lemma length_action_rows db : length (action_rows db) = size (actions db).
Proof. unfold action_rows. by rewrite length_fmap, length_map_to_list. Qed.

Lemma elem_of_edge_keys db e : e ∈ edge_keys db ↔ is_Some (action_edges db !! e).
Proof.
  unfold edge_keys. rewrite list_elem_of_fmap. split.
  - intros [[k at_] [-> H%elem_of_map_to_list]]. by eexists.
  - intros [at_ H%elem_of_map_to_list]. by exists (e, at_).
Qed.

Lemma limit_i64_le n : (0 ≤ n)%Z → (limit_i64 n ≤ n)%Z.
Proof. unfold limit_i64. case_decide; lia. Qed.

Section lemmas.
Context `{C : JsonCodec}.

Lemma refetch_alter db id f r :
  actions db !! id = Some r →
  refetch (with_actions db (alter f id (actions db))) id = Ok (row_to_action (f r)).
Proof.
  intros Hr. unfold refetch, get. simpl. by rewrite lookup_alter_eq, Hr.
Qed.

(** The three outcomes of [transition], and what each does to the table. *)
Lemma transition_cases db id to who now :
  (actions db !! id = None ∧ transition db id to who now = Ok (db, NotFound))
  ∨ (∃ r, actions db !! id = Some r ∧
       let from := state_or_default (row_state r) in
       (ActionState.can_transition_to from to = false ∧
        transition db id to who now = Ok (db, Illegal from to))
       ∨ (ActionState.can_transition_to from to = true ∧
          transition db id to who now =
            Ok (with_actions db (<[id := set_state to who now r]> (actions db)),
                Updated (row_to_action (set_state to who now r))))).
Proof.
  unfold transition. destruct (actions db !! id) as [r|] eqn:Hr; [right|by left].
  exists r. split; [done|]. simpl.
  destruct (ActionState.can_transition_to _ to); [right|by left]. simpl.
  rewrite (refetch_alter _ _ _ r) by done. simpl. split; [done|].
  do 3 f_equal. apply map_eq. intros k. destruct (decide (k = id)) as [->|].
  - by rewrite lookup_alter_eq, lookup_insert_eq, Hr.
  - by rewrite lookup_alter_ne, lookup_insert_ne.
Qed.

(** The four outcomes of [transition_cas]. *)
Lemma transition_cas_cases db id from to who now :
  (ActionState.can_transition_to from to = false ∧
     transition_cas db id from to who now = Ok (db, CasIllegal from to))
  ∨ (ActionState.can_transition_to from to = true ∧
     ((actions db !! id = None ∧ transition_cas db id from to who now = Ok (db, CasNotFound))
      ∨ (∃ r, actions db !! id = Some r ∧
           ((row_state r ≠ ActionState.as_str from ∧
             transition_cas db id from to who now =
               Ok (db, CasStateMismatch (state_or_default (row_state r))))
            ∨ (row_state r = ActionState.as_str from ∧
               transition_cas db id from to who now =
                 Ok (with_actions db (<[id := set_state to who now r]> (actions db)),
                     CasApplied (row_to_action (set_state to who now r)))))))).
Proof.
  unfold transition_cas. destruct (ActionState.can_transition_to from to); [right|by left].
  split; [done|]. simpl. unfold update_where_state.
  destruct (actions db !! id) as [r|] eqn:Hr.
  - right. exists r. split; [done|]. case_decide as Hs; simpl.
    + right. split; [done|]. unfold refetch, get. simpl. by rewrite lookup_insert_eq.
    + left. split; [done|]. destruct db. simpl in *. by rewrite Hr.
  - left. split; [done|]. destruct db. simpl in *. by rewrite Hr.
Qed.

(** What a step can do to the row of one action: nothing, create it, or
    move it along a legal edge. *)
Lemma coord_step_row db db' id :
  coord_step db db' →
  actions db' !! id = actions db !! id
  ∨ (actions db !! id = None ∧ ∃ a, act_id a = id ∧ actions db' !! id = Some (action_to_row a))
  ∨ (∃ r to who now, actions db !! id = Some r ∧
       ActionState.can_transition_to (state_or_default (row_state r)) to = true ∧
       actions db' !! id = Some (set_state to who now r)).
Proof.
  intros Hstep. destruct Hstep as [a db' id' H|id' to who now db' o H|id' from to who now db' o H
    |f t ty now db' H|a h now e db' o H|a h now e|a h|now].
  - unfold create in H. destruct (actions db !! act_id a) eqn:E; simplify_eq/=.
    destruct (decide (id = act_id a)) as [->|]; simplify_map_eq; eauto 6.
  - destruct (transition_cases db id' to who now) as [[? E]|(r & ? & [[? E]|[? E]])];
      rewrite E in H; simplify_eq/=; auto.
    destruct (decide (id = id')) as [->|]; simplify_map_eq; eauto 10.
  - destruct (transition_cas_cases db id' from to who now)
      as [[? E]|[Hc [[? E]|(r & ? & [[? E]|[Hr E]])]]]; rewrite E in H; simplify_eq/=; auto.
    destruct (decide (id = id')) as [->|]; simplify_map_eq; [|auto].
    right; right. exists r, to, who, now. by rewrite Hr, state_or_default_as_str.
  - unfold add_edge in H. repeat case_match; simplify_eq/=; auto.
  - unfold lease_acquire, lease_write in H. repeat case_match; simplify_eq/=; auto.
  - unfold lease_renew. repeat case_match; auto.
  - unfold lease_release. repeat case_match; auto.
  - auto.
Qed.
(** A step leaves the edge table alone or adds one edge between existing
    actions. *)
Lemma coord_step_edges db db' :
  coord_step db db' →
  action_edges db' = action_edges db
  ∨ ∃ f t ty now, is_Some (actions db !! f) ∧ is_Some (actions db !! t)
      ∧ action_edges db' = <[(f, t, EdgeType.as_str ty) := now]> (action_edges db).
Proof.
  intros Hstep. destruct Hstep as [a db' id H|id to who now db' o H|id from to who now db' o H
    |f t ty now db' H|a h now e db' o H|a h now e|a h|now].
  - unfold create in H. case_match; simplify_eq/=. by left.
  - left. destruct (transition_cases db id to who now) as [[? E]|(r & ? & [[? E]|[? E]])];
      rewrite E in H; by simplify_eq/=.
  - left. destruct (transition_cas_cases db id from to who now)
      as [[? E]|[? [[? E]|(r & ? & [[? E]|[? E]])]]]; rewrite E in H; by simplify_eq/=.
  - unfold add_edge in H. repeat case_match; simplify_eq/=; [by left|]. right.
    exists f, t, ty, now. by destruct (actions db !! f), (actions db !! t).
  - unfold lease_acquire, lease_write in H. repeat case_match; simplify_eq/=; by left.
  - unfold lease_renew. repeat case_match; by left.
  - unfold lease_release. repeat case_match; by left.
  - by left.
Qed.

(** A lease after a step was there before for the same action, or was
    taken on an existing action. *)
Lemma coord_step_leases db db' id l :
  coord_step db db' → leases db' !! id = Some l →
  (∃ l0, leases db !! id = Some l0 ∧ lease_action_id l = lease_action_id l0)
  ∨ (lease_action_id l = id ∧ is_Some (actions db !! id)).
Proof.
  intros Hstep Hl. destruct Hstep as [a db' id' H|id' to who now db' o H|id' from to who now db' o H
    |f t ty now db' H|a h now e db' o H|a h now e|a h|now].
  - unfold create in H. case_match; simplify_eq/=; eauto.
  - destruct (transition_cases db id' to who now) as [[? E]|(r & ? & [[? E]|[? E]])];
      rewrite E in H; simplify_eq/=; eauto.
  - destruct (transition_cas_cases db id' from to who now)
      as [[? E]|[? [[? E]|(r & ? & [[? E]|[? E]])]]]; rewrite E in H; simplify_eq/=; eauto.
  - unfold add_edge in H. repeat case_match; simplify_eq/=; eauto.
  - unfold lease_acquire, lease_write in H. repeat case_match; simplify_eq/=; eauto.
    destruct (decide (a = id)) as [->|]; simplify_map_eq; eauto.
  - revert Hl. unfold lease_renew. repeat case_match; simpl; eauto. intros Hl.
    destruct (decide (a = id)) as [->|]; simplify_map_eq; eauto.
  - revert Hl. unfold lease_release. repeat case_match; simpl; eauto.
    intros [_ Hl]%lookup_delete_Some. eauto.
  - simpl in Hl. apply map_lookup_filter_Some in Hl as [Hl _]. eauto.
Qed.

Lemma coord_step_keeps_actions db db' id :
  coord_step db db' → is_Some (actions db !! id) → is_Some (actions db' !! id).
Proof.
  intros Hstep [r Hr].
  destruct (coord_step_row _ _ id Hstep) as [->|[[Hn _]|(?&?&?&?&?&?&->)]];
    [by eexists|congruence|by eexists].
Qed.

(** A finished action: no step changes its row. *)
Lemma coord_step_terminal db db' id r :
  coord_step db db' → actions db !! id = Some r →
  ActionState.is_terminal (state_or_default (row_state r)) = true →
  actions db' !! id = Some r.
Proof.
  intros Hstep Hr Ht.
  destruct (coord_step_row _ _ id Hstep) as [->|[[Hn _]|(r0&to&?&?&H0&Hc&_)]];
    [done|congruence|].
  simplify_map_eq. by destruct (state_or_default (row_state r)), to.
Qed.

Lemma coord_step_state db db' id s s' :
  coord_step db db' → state_of db id = Some s → state_of db' id = Some s' →
  s = s' ∨ ActionState.can_transition_to s s' = true.
Proof.
  unfold state_of. intros Hstep Hs Hs'.
  destruct (coord_step_row _ _ id Hstep) as [E|[[Hn _]|(r&to&?&?&H0&Hc&E)]].
  - rewrite E in Hs'. left. congruence.
  - by rewrite Hn in Hs.
  - rewrite H0 in Hs. rewrite E in Hs'. simplify_eq/=.
    rewrite state_or_default_as_str. by right.
Qed.

Lemma coord_step_state_kept db db' id s :
  coord_step db db' → state_of db id = Some s → is_Some (state_of db' id).
Proof.
  unfold state_of. intros Hstep Hs.
  destruct (actions db !! id) as [r|] eqn:Hr; [|done].
  destruct (coord_step_keeps_actions _ _ id Hstep) as [r' ->]; [by rewrite Hr|by eexists].
Qed.

Lemma coord_steps_terminal db db' id r :
  actions db !! id = Some r →
  ActionState.is_terminal (state_or_default (row_state r)) = true →
  coord_steps db db' → actions db' !! id = Some r.
Proof.
  intros Hr Ht Hsteps. revert Hr. induction Hsteps as [|db1 db2 db3 Hstep _ IH]; [done|].
  intros Hr. apply IH. by eapply coord_step_terminal.
Qed.

Lemma coord_steps_terminal_state db db' id s :
  state_of db id = Some s → ActionState.is_terminal s = true →
  coord_steps db db' → state_of db' id = Some s.
Proof.
  unfold state_of. destruct (actions db !! id) as [r|] eqn:Hr; [|done]. simpl.
  intros ??. simplify_eq. intros ->%(coord_steps_terminal _ _ _ r); done.
Qed.
End lemmas.

(** The frontier's [WHERE] clause decides the specification. *)
Lemma unmet_prerequisite_spec db id e :
  unmet_prerequisite db id e = true ↔
  ∃ t ty b, e = (id, t, ty) ∧ (ty = "requires" ∨ ty = "gated_by")
    ∧ actions db !! t = Some b ∧ row_state b ≠ "done".
Proof.
  destruct e as [[f t] ty]. simpl.
  destruct (actions db !! t) as [b|] eqn:Hb;
    rewrite !andb_true_iff, ?orb_true_iff, ?negb_true_iff, ?bool_decide_eq_true,
      ?bool_decide_eq_false; naive_solver.
Qed.

Lemma active_blocker_spec db id e :
  active_blocker db id e = true ↔
  ∃ f b, e = (f, id, "blocks") ∧ actions db !! f = Some b
    ∧ row_state b ≠ "done" ∧ row_state b ≠ "failed" ∧ row_state b ≠ "abandoned".
Proof.
  destruct e as [[f t] ty]. simpl.
  destruct (actions db !! f) as [b|] eqn:Hb;
    rewrite !andb_true_iff, ?negb_true_iff, ?orb_false_iff, ?bool_decide_eq_true,
      ?bool_decide_eq_false; naive_solver.
Qed.

Lemma no_unmet_prerequisite db id :
  existsb (unmet_prerequisite db id) (edge_keys db) = false ↔
  ∀ t ty b, is_Some (action_edges db !! (id, t, ty)) →
    ty = "requires" ∨ ty = "gated_by" → actions db !! t = Some b → row_state b = "done".
Proof.
  rewrite existsb_false_iff. split.
  - intros Hall t ty b He Hty Hb. destruct (decide (row_state b = "done")); [done|].
    apply elem_of_edge_keys, Hall in He. apply not_true_iff_false in He. exfalso. apply He.
    apply unmet_prerequisite_spec. eauto 10.
  - intros Hall e He%elem_of_edge_keys. apply not_true_iff_false.
    intros (t & ty & b & -> & Hty & Hb & Hn)%unmet_prerequisite_spec. eauto.
Qed.

Lemma no_active_blocker db id :
  existsb (active_blocker db id) (edge_keys db) = false ↔
  ∀ f b, is_Some (action_edges db !! (f, id, "blocks")) → actions db !! f = Some b →
    row_state b = "done" ∨ row_state b = "failed" ∨ row_state b = "abandoned".
Proof.
  rewrite existsb_false_iff. split.
  - intros Hall f b He Hb.
    destruct (decide (row_state b = "done")), (decide (row_state b = "failed")),
      (decide (row_state b = "abandoned")); auto.
    apply elem_of_edge_keys, Hall in He. apply not_true_iff_false in He. exfalso. apply He.
    apply active_blocker_spec. eauto 10.
  - intros Hall e He%elem_of_edge_keys. apply not_true_iff_false.
    intros (f & b & -> & Hb & ? & ? & ?)%active_blocker_spec. naive_solver.
Qed.

Lemma frontier_where_spec db ns r : frontier_where db ns r = true ↔ unblocked db ns r.
Proof.
  unfold frontier_where, unblocked.
  rewrite !andb_true_iff, !negb_true_iff, !bool_decide_eq_true,
    no_unmet_prerequisite, no_active_blocker. naive_solver.
Qed.

Section lease_lemmas.
Context `{C : JsonCodec}.

Lemma leases_with_leases db t : leases (with_leases db t) = t.
Proof. done. Qed.

Lemma lease_acquire_ok db a h now e db' l :
  lease_acquire db a h now e = Ok (db', Acquired l) →
  lease_blocked db a h now = false ∧ is_Some (actions db !! a)
  ∧ l = mkLease a h now e now ∧ db' = with_leases db (<[a := l]> (leases db)).
Proof. unfold lease_acquire, lease_write. intros. by repeat case_match; simplify_eq/=. Qed.

(** Somebody else's operation, at a time the lease is still live, leaves
    the lease row alone. *)
Lemma op_of_others_keeps db a l op :
  leases db !! a = Some l →
  op_of_others (lease_holder l) (lease_expires_at l) op →
  leases (run_lease_op db op) !! a = Some l.
Proof.
  intros Hl Hop. destruct op as [a' h' now' e'|a' h' now' e'|a' h'|now']; simpl in *.
  - destruct Hop as [Hh Ht]. unfold lease_acquire, lease_blocked, lease_write.
    destruct (decide (a' = a)) as [->|]; [rewrite Hl; simpl|].
    + rewrite !bool_decide_true, !bool_decide_false by (done || lia). done.
    + by repeat case_match; simplify_map_eq.
  - unfold lease_renew. destruct (decide (a' = a)) as [->|].
    + rewrite Hl. by rewrite decide_False.
    + by repeat case_match; simplify_map_eq.
  - unfold lease_release. destruct (decide (a' = a)) as [->|].
    + rewrite Hl. by rewrite decide_False.
    + by repeat case_match; simplify_map_eq.
  - unfold sweep_expired_leases. simpl. apply map_lookup_filter_Some. simpl.
    split; [done|lia].
Qed.

Lemma run_lease_ops_keeps db a l ops :
  leases db !! a = Some l →
  Forall (op_of_others (lease_holder l) (lease_expires_at l)) ops →
  leases (run_lease_ops db ops) !! a = Some l.
Proof.
  unfold run_lease_ops. revert db. induction ops as [|op ops IH]; intros db Hl Hops; [done|].
  apply Forall_cons in Hops as [Hop Hops]. simpl. apply IH; [|done].
  by apply op_of_others_keeps.
Qed.

Lemma lease_blocked_owner db a h now :
  lease_blocked db a h now = true ↔ ∃ h', owner db a now = Some h' ∧ h' ≠ h.
Proof.
  unfold lease_blocked, owner. destruct (leases db !! a) as [l|]; [|naive_solver].
  rewrite andb_true_iff, negb_true_iff, bool_decide_eq_true, bool_decide_eq_false.
  case_decide; naive_solver.
Qed.
End lease_lemmas.

(* ------------------------------------------------------------------ *)
(** * A concrete codec and store, for the witnesses *)

Definition demo_codec : JsonCodec :=
  {| json_to_string _ := "{}"; json_from_str _ := Some (JObject []) |}.

Definition demo_action (id : string) (state : ActionState) (prio : Z) : Action :=
  mkAction id "ops" "deploy" state "t" (JObject []) prio None None (JObject []) (JObject []) 100 100.

Definition demo_row (id : string) (state : string) (prio : Z) : action_row :=
  mkRow id "ops" "deploy" state "t" "{}" prio None None "{}" "{}" 100 100.

Definition demo_db : coord_db :=
  mkDb {[ "a" := demo_row "a" "pending" 5; "b" := demo_row "b" "in_progress" 9;
          "c" := demo_row "c" "pending" 7 ]}
       {[ ("c", "b", "requires") := 1%Z ]}
       ∅.

(* ------------------------------------------------------------------ *)
(** * Theorems *)

(** Every successful call keeps the store's integrity: rows stay under
    their own key with a parseable state, edges and leases keep referring to
    existing actions. *)
Lemma coord_step_preserves_wf `{C : JsonCodec} db db' :
  db_wf db → coord_step db db' → db_wf db'.
Proof.
  intros Hwf Hstep. pose proof (λ id, coord_step_keeps_actions _ _ id Hstep) as Hkeep.
  split.
  - intros id r Hr.
    destruct (coord_step_row _ _ id Hstep) as [E|[(_ & a & <- & E)|(r0 & to & who & now & H0 & _ & E)]];
      rewrite E in Hr; simplify_eq/=; rewrite ?ActionState_roundtrip; [|done|].
    + by apply (wf_row _ Hwf).
    + by destruct (wf_row _ Hwf _ _ H0).
  - intros f t ty at_ He.
    destruct (coord_step_edges _ _ Hstep) as [E|(f' & t' & ty' & now & Hf & Ht & E)];
      rewrite E in He.
    + destruct (wf_edge _ Hwf _ _ _ _ He) as (?&?&?). eauto.
    + destruct (decide ((f', t', EdgeType.as_str ty') = (f, t, ty))); simplify_map_eq.
      * rewrite EdgeType_roundtrip. eauto.
      * destruct (wf_edge _ Hwf _ _ _ _ He) as (?&?&?). eauto.
  - intros id l Hl.
    destruct (coord_step_leases _ _ _ _ Hstep Hl) as [(l0 & H0 & ->)|[? ?]]; [|eauto].
    destruct (wf_lease _ Hwf _ _ H0). eauto.
Qed.

(** A finished action is final: whatever successful calls follow, the row
    of a done, failed or abandoned action never changes again. *)
Lemma terminal_is_final `{C : JsonCodec} db db' id r :
  actions db !! id = Some r →
  ActionState.is_terminal (state_or_default (row_state r)) = true →
  coord_steps db db' →
  actions db' !! id = Some r.
Proof.
  apply coord_steps_terminal.
Qed.

(** No action is completed without being worked on: a run that takes an
    action from pending to done goes through claimed and then through
    in_progress. *)
Lemma done_needs_claim_and_work `{C : JsonCodec} db db' id :
  state_of db id = Some Pending → state_of db' id = Some Done → coord_steps db db' →
  ∃ db1 db2, coord_steps db db1 ∧ state_of db1 id = Some Claimed
    ∧ coord_steps db1 db2 ∧ state_of db2 id = Some InProgress ∧ coord_steps db2 db'.
Proof.
  intros Hp Hd Hsteps.
  assert (∀ s, s ≠ Done → state_of db id = Some s →
    ∃ db2, coord_steps db db2 ∧ state_of db2 id = Some InProgress ∧ coord_steps db2 db') as Hwork.
  { clear Hp. induction Hsteps as [|db0 db1 db2 Hstep Hsteps IH]; intros s Hne Hs; [congruence|].
    destruct (coord_step_state_kept _ _ _ _ Hstep Hs) as [s1 Hs1].
    destruct (decide (s = InProgress)) as [->|Hn]; [exists db0; by split; [|split; [|eapply rtc_l]]|].
    destruct (IH Hd s1) as (dbx & ? & ? & ?); [|done|].
    { intros ->. destruct (coord_step_state _ _ _ _ _ Hstep Hs Hs1) as [Heq|Hc]; [done|].
      by destruct s. }
    exists dbx. by split; [eapply rtc_l|]. }
  destruct (Hwork Pending) as (db2 & Hpre & Hin & Hpost); [done..|]. clear Hwork Hsteps Hd.
  cut (∃ db1, coord_steps db db1 ∧ state_of db1 id = Some Claimed ∧ coord_steps db1 db2);
    [naive_solver|].
  induction Hpre as [|db0 db1 db2 Hstep Hsteps IH]; [congruence|].
  destruct (coord_step_state_kept _ _ _ _ Hstep Hp) as [s1 Hs1].
  destruct (coord_step_state _ _ _ _ _ Hstep Hp Hs1) as [<-|Hc].
  - destruct IH as (dbx & ? & ? & ?); [done..|]. exists dbx. by split; [eapply rtc_l|].
  - destruct s1; try done; [exists db1; by split; [apply rtc_once|]|].
    pose proof (coord_steps_terminal_state _ _ _ _ Hs1 eq_refl Hsteps). congruence.
Qed.

(** [transition] on every branch: an unknown id is [NotFound], an illegal
    edge is refused without a write, a legal edge rewrites exactly the state,
    holder and timestamp of that one row and returns it. *)
Lemma transition_spec `{C : JsonCodec} db id to who now :
  transition db id to who now =
  Ok match actions db !! id with
     | None => (db, NotFound)
     | Some r =>
         let from := state_or_default (row_state r) in
         if ActionState.can_transition_to from to then
           let r' := set_state to who now r in
           (with_actions db (<[id := r']> (actions db)), Updated (row_to_action r'))
         else (db, Illegal from to)
     end.
Proof.
  destruct (transition_cases db id to who now) as [[-> ->]|(r & -> & [[E ->]|[E ->]])];
    [done| |]; simpl; by rewrite E.
Qed.

(** Of two compare-and-swaps from the same source state, at most one
    wins: once the first applied, the second (a duplicate or a competing
    re-broadcast) is a state mismatch that reports the winner's state and
    writes nothing. *)
Lemma cas_single_winner `{C : JsonCodec} db db1 id from to1 to2 who1 who2 now1 now2 a1 :
  transition_cas db id from to1 who1 now1 = Ok (db1, CasApplied a1) →
  ActionState.can_transition_to from to2 = true →
  transition_cas db1 id from to2 who2 now2 = Ok (db1, CasStateMismatch to1).
Proof.
  intros H Hto2.
  destruct (transition_cas_cases db id from to1 who1 now1)
    as [[_ E]|[Hto1 [[_ E]|(r & Hr & [[_ E]|[Hs E]])]]]; rewrite E in H; simplify_eq/=.
  destruct (transition_cas_cases
    (with_actions db (<[id:=set_state to1 who1 now1 r]> (actions db))) id from to2 who2 now2)
    as [[E2 _]|[_ [[E2 _]|(r2 & Hr2 & [[_ E2]|[Hs2 _]])]]]; simplify_map_eq; [congruence|..].
  - by rewrite E2, state_or_default_as_str.
  - simpl in Hs2. apply ActionState_as_str_inj in Hs2. subst. by destruct from.
Qed.

(** The compare-and-swap and the read-then-write transition agree when the
    source state is the current one: same store, same returned action. *)
Lemma cas_refines_transition `{C : JsonCodec} db id to who now from :
  state_of db id = Some from → db_wf db →
  match transition db id to who now, transition_cas db id from to who now with
  | Ok (db1, Updated a), Ok (db2, CasApplied b) => db1 = db2 ∧ a = b
  | Ok (db1, Illegal f t), Ok (db2, CasIllegal f' t') =>
      db1 = db ∧ db2 = db ∧ f = f' ∧ t = t'
  | _, _ => False
  end.
Proof.
  unfold state_of. intros Hs Hwf. rewrite transition_spec.
  destruct (actions db !! id) as [r|] eqn:Hr; simplify_eq/=.
  destruct (wf_row _ Hwf _ _ Hr) as [_ [s Hparse]].
  assert (row_state r = ActionState.as_str (state_or_default (row_state r))) as Hback.
  { unfold state_or_default. rewrite Hparse. simpl.
    unfold ActionState.from_str in Hparse. by repeat case_decide; simplify_eq/=. }
  destruct (transition_cas_cases db id (state_or_default (row_state r)) to who now)
    as [[Hc E]|[Hc [[Hn E]|(r' & Hr' & [[Hn E]|[Hs E]])]]]; rewrite Hc, E; simplify_eq/=; done.
Qed.

(** The frontier is exactly the unblocked pending actions of a namespace,
    best first: every returned action is an unblocked row; whatever the limit
    leaves out ranks no better than anything returned; and a limit as large as
    the table leaves nothing out. *)
Lemma frontier_correct `{C : JsonCodec} db namespace limit :
  ∃ rows, frontier db namespace limit = row_to_action <$> rows
    ∧ (∀ r, r ∈ rows → unblocked db namespace r ∧ ∃ id, actions db !! id = Some r)
    ∧ StronglySorted by_priority rows
    ∧ length rows ≤ Z.to_nat limit
    ∧ (∀ id r r', actions db !! id = Some r → unblocked db namespace r → r ∉ rows →
         r' ∈ rows → by_priority r' r)
    ∧ ((Z.of_nat (size (actions db)) ≤ limit ≤ i64_max)%Z →
       ∀ id r, actions db !! id = Some r → unblocked db namespace r → r ∈ rows).
Proof.
  eexists. split; [done|]. split_and!.
  - intros r [Hr Hp]%select_sound.
    by rewrite elem_of_action_rows in Hr; rewrite frontier_where_spec in Hp.
  - apply select_sorted; apply _.
  - etrans; [apply select_length|]. unfold limit_i64. case_decide; lia.
  - intros id r r' Hr Hu Hn Hr'. eapply select_best; [apply _..|exact Hr'| |by apply frontier_where_spec|done].
    apply elem_of_action_rows. eauto.
  - intros Hlim id r Hr Hu. apply select_complete.
    + rewrite length_action_rows. unfold limit_i64. rewrite decide_True; lia.
    + apply elem_of_action_rows. eauto.
    + by apply frontier_where_spec.
Qed.

(** [next_action] returns a best unblocked action the caller may take: its
    row is unblocked, owned by nobody or by the caller, and no other such row
    ranks strictly better; it returns nothing only when there is none. *)
Lemma next_action_correct `{C : JsonCodec} db namespace agent :
  let eligible r := unblocked db namespace r ∧
    (∃ id, actions db !! id = Some r) ∧
    match agent with Some me => row_agent_id r = Some me ∨ row_agent_id r = None | None => True end in
  match next_action db namespace agent with
  | Some a => ∃ r, a = row_to_action r ∧ eligible r ∧ ∀ r', eligible r' → by_priority r r'
  | None => ∀ r, ¬ eligible r
  end.
Proof.
  intros eligible. unfold next_action.
  set (p := λ r, frontier_where db namespace r && _).
  assert (∀ r, (r ∈ action_rows db ∧ p r = true) ↔ eligible r) as Hp.
  { intros r. unfold p, eligible.
    rewrite andb_true_iff, frontier_where_spec, elem_of_action_rows.
    destruct agent; [rewrite orb_true_iff, bool_decide_eq_true, negb_true_iff|];
      [destruct (row_agent_id r)|]; naive_solver. }
  clearbody p eligible. unfold select. change (Z.to_nat 1) with 1.
  pose proof (StronglySorted_stable_sort by_priority (List.filter p (action_rows db))) as Hs.
  pose proof (elem_of_sorted_filter by_priority (action_rows db) p) as Hin.
  destruct (stable_sort by_priority _) as [|r l]; simpl.
  - intros r Hr%Hp%Hin. by apply elem_of_nil in Hr.
  - exists r. split; [done|]. split; [by apply Hp, Hin; left|].
    intros r' [->|Hr']%Hp%Hin%elem_of_cons; [unfold by_priority; lia|].
    apply StronglySorted_inv in Hs as [_ Hall]. rewrite Forall_forall in Hall. by apply Hall.
Qed.

(** A lease is exclusive until it expires: once [h] took the lease on [a]
    until [e], no traffic of other holders or sweeps before [e] disturbs it,
    and every acquire by somebody else before [e] is a conflict. *)
Lemma lease_exclusive `{C : JsonCodec} db db1 a h t e l ops h' t' e' :
  lease_acquire db a h t e = Ok (db1, Acquired l) →
  Forall (op_of_others h e) ops →
  h' ≠ h → (t' < e)%Z →
  leases (run_lease_ops db1 ops) !! a = Some l
  ∧ lease_acquire (run_lease_ops db1 ops) a h' t' e' = Ok (run_lease_ops db1 ops, Conflict).
Proof.
  intros (Hb & Ha & -> & ->)%lease_acquire_ok Hops Hne Ht.
  assert (leases (run_lease_ops (with_leases db (<[a:=mkLease a h t e t]> (leases db))) ops) !! a
          = Some (mkLease a h t e t)) as Hl.
  { apply run_lease_ops_keeps; [by simpl; simplify_map_eq|done]. }
  split; [done|]. unfold lease_acquire, lease_blocked. rewrite Hl. simpl.
  by rewrite bool_decide_true, bool_decide_false by (done || lia).
Qed.

(** [lease_acquire] implements a lock with expiry: on an existing action it
    is refused exactly when another holder owns the live lock, and otherwise the
    caller owns the lock from then until its expiry and at no later time. *)
Lemma lease_acquire_refines_lock `{C : JsonCodec} db a h now e :
  match lease_acquire db a h now e with
  | Err err => actions db !! a = None ∧ err = ConstraintForeignKey
  | Ok (db', Conflict) => db' = db ∧ ∃ h', owner db a now = Some h' ∧ h' ≠ h
  | Ok (db', Acquired l) =>
      (owner db a now = None ∨ owner db a now = Some h) ∧
      leases db' !! a = Some l ∧
      (∀ t, owner db' a t = if decide (t < e)%Z then Some h else None) ∧
      (∀ b t, b ≠ a → owner db' b t = owner db b t)
  end.
Proof.
  unfold lease_acquire. destruct (lease_blocked db a h now) eqn:Hb.
  - split; [done|]. by apply lease_blocked_owner.
  - unfold lease_write. destruct (actions db !! a) as [r|]; [|done]. split_and!.
    + destruct (owner db a now) as [h'|] eqn:Ho; [right|by left].
      destruct (decide (h' = h)) as [->|]; [done|].
      rewrite <-not_true_iff_false, lease_blocked_owner in Hb. naive_solver.
    + simpl. by simplify_map_eq.
    + intros t. unfold owner. simpl. rewrite lookup_insert_eq. simpl.
      repeat case_decide; done || lia.
    + intros b t Hne. unfold owner. simpl. by rewrite lookup_insert_ne.
Qed.

(** The check and the write of [lease_acquire] are two statements with no
    transaction around them: on a free action two connections can interleave
    so that both callers are told they hold the lease, until the same future
    time, while the table records only the second. *)
Lemma lease_acquire_race `{C : JsonCodec} db a ha hb now e :
  is_Some (actions db !! a) → owner db a now = None →
  ∃ db' la lb,
    rtc (race_step a ha hb now e) (mkRace db PcSelect PcSelect)
      (mkRace db' (PcReturned (Acquired la)) (PcReturned (Acquired lb)))
    ∧ lease_holder la = ha ∧ lease_holder lb = hb
    ∧ lease_expires_at la = e ∧ lease_expires_at lb = e
    ∧ leases db' !! a = Some lb.
Proof.
  intros [r Hr] Ho.
  assert (∀ h, lease_blocked db a h now = false) as Hfree.
  { intros h. apply not_true_iff_false. rewrite lease_blocked_owner. naive_solver. }
  set (la := mkLease a ha now e now). set (lb := mkLease a hb now e now).
  set (dba := with_leases db (<[a := la]> (leases db))).
  exists (with_leases dba (<[a := lb]> (leases dba))), la, lb.
  split; [|simpl; by simplify_map_eq].
  eapply rtc_l; [apply race_a, stmt_select_free, Hfree|].
  eapply rtc_l; [apply race_b, stmt_select_free, Hfree|].
  eapply rtc_l; [apply race_a, (stmt_insert _ _ _ _ _ dba); unfold lease_write; by rewrite Hr|].
  apply rtc_once, race_b, stmt_insert. unfold lease_write, dba. simpl. by rewrite Hr.
Qed.

(** The sweeper deletes exactly the expired leases and counts them: live
    leases are untouched, nobody owns less than before, and the count is the
    number of rows that went. *)
Lemma sweep_spec `{C : JsonCodec} db now :
  let '(db', n) := sweep_expired_leases db now in
  (∀ a l, leases db' !! a = Some l ↔ leases db !! a = Some l ∧ (now < lease_expires_at l)%Z)
  ∧ (∀ a t, (now ≤ t)%Z → owner db' a t = owner db a t)
  ∧ size (leases db) = n + size (leases db').
Proof.
  unfold sweep_expired_leases. split_and!.
  - intros a l. simpl. rewrite map_lookup_filter_Some. simpl. naive_solver lia.
  - intros a t Ht. unfold owner. simpl.
    rewrite map_lookup_filter. destruct (leases db !! a) as [l|]; simpl; [|done].
    repeat (case_guard || case_decide); simpl in *; try done; try lia;
      by repeat case_decide; try lia.
  - simpl. assert (size (filter (λ kv, ¬ (lease_expires_at kv.2 ≤ now)%Z) (leases db))
                   ≤ size (leases db)); [|lia].
    apply map_subseteq_size, map_filter_subseteq.
Qed.

(* ------------------------------------------------------------------ *)
(** * Witnesses *)

(** Splits a lookup in a finite map written out as inserts. *)
Ltac demo_lookup H :=
  repeat (apply lookup_insert_Some in H as [[? ?]|[_ H]]);
  try apply lookup_singleton_Some in H as [? ?]; simplify_eq.

Lemma demo_db_wf : db_wf demo_db.
Proof.
  split.
  - intros id r Hr. cbn in Hr. demo_lookup Hr; split_and!; try done; vm_compute; by eexists.
  - intros f t ty at_ Hr. cbn in Hr. demo_lookup Hr; split_and!; try done; vm_compute; by eexists.
  - intros id l Hl. done.
Qed.

Lemma coord_step_preserves_wf_witness :
  db_wf demo_db ∧ db_wf (lease_renew demo_db "a" "h" 1 2).1.
Proof.
  split; [exact demo_db_wf|].
  exact (coord_step_preserves_wf (C:=demo_codec) demo_db _ demo_db_wf (step_renew _ "a" "h" 1 2)).
Defined.

Definition demo_done : coord_db := mkDb {[ "a" := demo_row "a" "done" 5 ]} ∅ ∅.

Lemma terminal_is_final_witness :
  actions (lease_renew demo_done "a" "h" 1 2).1 !! "a" = Some (demo_row "a" "done" 5).
Proof.
  apply (terminal_is_final (C:=demo_codec) demo_done).
  - vm_compute. reflexivity.
  - vm_compute. reflexivity.
  - apply rtc_once, step_renew.
Defined.

(** A run of three transitions: pending, claimed, in_progress, done. *)
Definition demo_run (s : ActionState) (now : Z) (db : coord_db) : coord_db :=
  match transition (C:=demo_codec) db "a" s (Some "h") now with Ok (db', _) => db' | Err _ => db end.

Lemma demo_run_step s now db :
  coord_steps (C:=demo_codec) db (demo_run s now db).
Proof.
  unfold demo_run.
  destruct (transition (C:=demo_codec) db "a" s (Some "h") now) as [[db' o]|] eqn:E; [|reflexivity].
  apply rtc_once. by eapply step_transition.
Qed.

Lemma done_needs_claim_and_work_witness :
  let db' := demo_run Done 3 (demo_run InProgress 2 (demo_run Claimed 1 demo_db)) in
  ∃ db1 db2, coord_steps (C:=demo_codec) demo_db db1 ∧ state_of db1 "a" = Some Claimed
    ∧ coord_steps (C:=demo_codec) db1 db2 ∧ state_of db2 "a" = Some InProgress
    ∧ coord_steps (C:=demo_codec) db2 db'.
Proof.
  apply (done_needs_claim_and_work (C:=demo_codec)).
  - vm_compute. reflexivity.
  - vm_compute. reflexivity.
  - etrans; [etrans|]; apply demo_run_step.
Defined.

Lemma cas_single_winner_witness :
  ∃ db1, transition_cas (C:=demo_codec) db1 "a" Pending Abandoned None 11
         = Ok (db1, CasStateMismatch Claimed).
Proof.
  eexists.
  apply (cas_single_winner (C:=demo_codec) demo_db _ "a" Pending Claimed Abandoned
           (Some "h") None 10 11 (row_to_action (C:=demo_codec)
             (set_state Claimed (Some "h") 10 (demo_row "a" "pending" 5)))).
  - vm_compute. reflexivity.
  - vm_compute. reflexivity.
Defined.

Lemma cas_refines_transition_witness :
  match transition (C:=demo_codec) demo_db "a" Claimed None 7,
        transition_cas (C:=demo_codec) demo_db "a" Pending Claimed None 7 with
  | Ok (db1, Updated a), Ok (db2, CasApplied b) => db1 = db2 ∧ a = b
  | Ok (db1, Illegal f t), Ok (db2, CasIllegal f' t') =>
      db1 = demo_db ∧ db2 = demo_db ∧ f = f' ∧ t = t'
  | _, _ => False
  end.
Proof.
  apply (cas_refines_transition (C:=demo_codec) demo_db "a" Claimed None 7 Pending).
  - vm_compute. reflexivity.
  - exact demo_db_wf.
Defined.

Lemma frontier_correct_witness :
  ∃ rows, frontier (C:=demo_codec) demo_db "ops" 10 = row_to_action (C:=demo_codec) <$> rows
    ∧ demo_row "a" "pending" 5 ∈ rows.
Proof.
  destruct (frontier_correct (C:=demo_codec) demo_db "ops" 10) as (rows & E & _ & _ & _ & _ & Hall).
  exists rows. split; [exact E|].
  apply Hall with "a".
  - split; vm_compute; discriminate.
  - vm_compute. reflexivity.
  - apply frontier_where_spec. vm_compute. reflexivity.
Defined.

Lemma lease_exclusive_witness :
  ∃ db, lease_acquire db "a" "h2" 30 90 = Ok (db, Conflict).
Proof.
  eexists.
  apply (lease_exclusive (C:=demo_codec) demo_db
    (with_leases demo_db {[ "a" := mkLease "a" "h1" 10 60 10 ]}) "a" "h1" 10 60
    (mkLease "a" "h1" 10 60 10) [OpSweep 20; OpAcquire "a" "h2" 25 99] "h2" 30 90).
  - vm_compute. reflexivity.
  - repeat constructor; done.
  - done.
  - lia.
Defined.

Lemma lease_acquire_race_witness :
  ∃ db' la lb,
    rtc (race_step "a" "h1" "h2" 10 60) (mkRace demo_db PcSelect PcSelect)
      (mkRace db' (PcReturned (Acquired la)) (PcReturned (Acquired lb)))
    ∧ lease_holder la = "h1" ∧ lease_holder lb = "h2"
    ∧ lease_expires_at la = 60%Z ∧ lease_expires_at lb = 60%Z
    ∧ leases db' !! "a" = Some lb.
Proof.
  apply (lease_acquire_race (C:=demo_codec) demo_db "a" "h1" "h2" 10 60).
  - vm_compute. eauto.
  - vm_compute. reflexivity.
Defined.

(** The demo store's frontier: "c" requires the unfinished "b", so only "a". *)
Example demo_frontier :
  act_id <$> frontier (C:=demo_codec) demo_db "ops" 10 = ["a"].
Proof. vm_compute. reflexivity. Qed.
