(* ===== verification/Memory.v ===== *)
(** The memory record and its closed vocabularies
    ([src/src/models/memory.rs]): kinds, lifecycle states, tiers, confidence
    sources, edit sources, their wire spellings, the kind filter parser, the
    lifecycle machine with recall visibility, and expiry. *)
From S2P Require Import Prelude.
From S2P Require Import BTree.
From S2P Require Import F64.
From S2P Require Import Json.
From S2P Require Import Text.

(* ------------------------------------------------------------------ *)
(** * Vocabularies *)

Inductive MemoryKind : Type :=
| KindObservation | KindReflection | KindPersona | KindConcept | KindEntity | KindClaim | KindRelation | KindEvent | KindConversation | KindDecision | KindGoal | KindPlan | KindStep | KindTold | KindInstruction | KindIntervention.

#[global] Instance MemoryKind_eq_dec : EqDecision MemoryKind.
Proof. solve_decision. Defined.

Definition MemoryKind_as_str (x : MemoryKind) : string :=
  match x with
  | KindObservation => "observation"
  | KindReflection => "reflection"
  | KindPersona => "persona"
  | KindConcept => "concept"
  | KindEntity => "entity"
  | KindClaim => "claim"
  | KindRelation => "relation"
  | KindEvent => "event"
  | KindConversation => "conversation"
  | KindDecision => "decision"
  | KindGoal => "goal"
  | KindPlan => "plan"
  | KindStep => "step"
  | KindTold => "told"
  | KindInstruction => "instruction"
  | KindIntervention => "intervention"
  end.

Definition MemoryKind_from_str (s : string) : option MemoryKind :=
  if decide (s = "observation") then Some KindObservation
  else if decide (s = "reflection") then Some KindReflection
  else if decide (s = "persona") then Some KindPersona
  else if decide (s = "concept") then Some KindConcept
  else if decide (s = "entity") then Some KindEntity
  else if decide (s = "claim") then Some KindClaim
  else if decide (s = "relation") then Some KindRelation
  else if decide (s = "event") then Some KindEvent
  else if decide (s = "conversation") then Some KindConversation
  else if decide (s = "decision") then Some KindDecision
  else if decide (s = "goal") then Some KindGoal
  else if decide (s = "plan") then Some KindPlan
  else if decide (s = "step") then Some KindStep
  else if decide (s = "told") then Some KindTold
  else if decide (s = "instruction") then Some KindInstruction
  else if decide (s = "intervention") then Some KindIntervention
  else None.

Definition MemoryKind_all : list MemoryKind :=
  [KindObservation; KindReflection; KindPersona; KindConcept; KindEntity; KindClaim; KindRelation; KindEvent; KindConversation; KindDecision; KindGoal; KindPlan; KindStep; KindTold; KindInstruction; KindIntervention].

Inductive LifecycleState : Type :=
| LifeOpen | LifeActive | LifeBlocked | LifeDone | LifeAbandoned | LifeTombstoned | LifeQuarantined.

#[global] Instance LifecycleState_eq_dec : EqDecision LifecycleState.
Proof. solve_decision. Defined.

Definition LifecycleState_as_str (x : LifecycleState) : string :=
  match x with
  | LifeOpen => "open"
  | LifeActive => "active"
  | LifeBlocked => "blocked"
  | LifeDone => "done"
  | LifeAbandoned => "abandoned"
  | LifeTombstoned => "tombstoned"
  | LifeQuarantined => "quarantined"
  end.

Definition LifecycleState_from_str (s : string) : option LifecycleState :=
  if decide (s = "open") then Some LifeOpen
  else if decide (s = "active") then Some LifeActive
  else if decide (s = "blocked") then Some LifeBlocked
  else if decide (s = "done") then Some LifeDone
  else if decide (s = "abandoned") then Some LifeAbandoned
  else if decide (s = "tombstoned") then Some LifeTombstoned
  else if decide (s = "quarantined") then Some LifeQuarantined
  else None.

Definition LifecycleState_all : list LifecycleState :=
  [LifeOpen; LifeActive; LifeBlocked; LifeDone; LifeAbandoned; LifeTombstoned; LifeQuarantined].

Inductive ConfidenceSource : Type :=
| CallerProvided | AutoDerived | Calibrated | Decayed | CuratorDerived | DefaultConfidence.

#[global] Instance ConfidenceSource_eq_dec : EqDecision ConfidenceSource.
Proof. solve_decision. Defined.

Definition ConfidenceSource_as_str (x : ConfidenceSource) : string :=
  match x with
  | CallerProvided => "caller_provided"
  | AutoDerived => "auto_derived"
  | Calibrated => "calibrated"
  | Decayed => "decayed"
  | CuratorDerived => "curator_derived"
  | DefaultConfidence => "default"
  end.

Definition ConfidenceSource_from_str (s : string) : option ConfidenceSource :=
  if decide (s = "caller_provided") then Some CallerProvided
  else if decide (s = "auto_derived") then Some AutoDerived
  else if decide (s = "calibrated") then Some Calibrated
  else if decide (s = "decayed") then Some Decayed
  else if decide (s = "curator_derived") then Some CuratorDerived
  else if decide (s = "default") then Some DefaultConfidence
  else None.

Inductive KindProvenance : Type :=
| Declared | ChannelDerived | Regex | Llm.

#[global] Instance KindProvenance_eq_dec : EqDecision KindProvenance.
Proof. solve_decision. Defined.

Definition KindProvenance_as_str (x : KindProvenance) : string :=
  match x with
  | Declared => "declared"
  | ChannelDerived => "channel_derived"
  | Regex => "regex"
  | Llm => "llm"
  end.

Definition KindProvenance_from_str (s : string) : option KindProvenance :=
  if decide (s = "declared") then Some Declared
  else if decide (s = "channel_derived") then Some ChannelDerived
  else if decide (s = "regex") then Some Regex
  else if decide (s = "llm") then Some Llm
  else None.

Definition KindProvenance_all : list KindProvenance := [Declared; ChannelDerived; Regex; Llm].

Inductive Tier : Type :=
| Short | Mid | Long.

#[global] Instance Tier_eq_dec : EqDecision Tier.
Proof. solve_decision. Defined.

Definition Tier_as_str (x : Tier) : string :=
  match x with
  | Short => "short"
  | Mid => "mid"
  | Long => "long"
  end.

Definition Tier_from_str (s : string) : option Tier :=
  if decide (s = "short") then Some Short
  else if decide (s = "mid") then Some Mid
  else if decide (s = "long") then Some Long
  else None.

Inductive EditSource : Type :=
| EditHuman | EditLlm | EditHook | EditAgent.

#[global] Instance EditSource_eq_dec : EqDecision EditSource.
Proof. solve_decision. Defined.

Definition EditSource_as_str (x : EditSource) : string :=
  match x with
  | EditHuman => "human"
  | EditLlm => "llm"
  | EditHook => "hook"
  | EditAgent => "agent"
  end.

Definition EditSource_from_str (s : string) : option EditSource :=
  if decide (s = "human") then Some EditHuman
  else if decide (s = "llm") then Some EditLlm
  else if decide (s = "hook") then Some EditHook
  else if decide (s = "agent") then Some EditAgent
  else None.

Definition EditSource_ALL : list EditSource := [EditHuman; EditLlm; EditHook; EditAgent].

(* ------------------------------------------------------------------ *)
(** * Kinds: the filter parser and the provenance stamp *)

(** The loop of [MemoryKind::parse_csv] over the split tokens, with its two
    mutable locals. *)
Fixpoint parse_csv_loop (toks : list string) (out : list MemoryKind) (saw_any_token : bool) :
    list MemoryKind * bool :=
  match toks with
  | [] => (out, saw_any_token)
  | tok :: toks' =>
      let t := str_trim tok in
      if str_is_empty t then parse_csv_loop toks' out saw_any_token
      else
        match MemoryKind_from_str t with
        | Some k =>
            if bool_decide (k ∈ out) then parse_csv_loop toks' out true
            else parse_csv_loop toks' (out ++ [k]) true
        | None => parse_csv_loop toks' out true
        end
  end.

Definition MemoryKind_parse_csv (s : string) : option (list MemoryKind) :=
  let '(out, saw_any_token) := parse_csv_loop (str_split comma s) [] false in
  if negb saw_any_token then None else Some out.

Definition METADATA_KIND_PROVENANCE_KEY : string := "kind_provenance".

Definition KindProvenance_stamp (self : KindProvenance) (metadata : value) : value :=
  json_insert METADATA_KIND_PROVENANCE_KEY (JString (KindProvenance_as_str self)) metadata.

Definition KindProvenance_from_metadata (metadata : value) : option KindProvenance :=
  v ← json_get metadata METADATA_KIND_PROVENANCE_KEY;
  s ← json_as_str v;
  KindProvenance_from_str s.

(* ------------------------------------------------------------------ *)
(** * Lifecycle *)

Definition RECALL_VISIBLE_LIFECYCLE_STATES : list LifecycleState :=
  [LifeOpen; LifeActive; LifeBlocked; LifeDone; LifeAbandoned].

Definition Lifecycle_is_terminal (s : LifecycleState) : bool :=
  match s with LifeDone | LifeAbandoned | LifeTombstoned | LifeQuarantined => true | _ => false end.

Definition Lifecycle_is_system_only (s : LifecycleState) : bool :=
  match s with LifeTombstoned | LifeQuarantined => true | _ => false end.

Definition Lifecycle_is_recall_visible (s : LifecycleState) : bool :=
  bool_decide (s ∈ RECALL_VISIBLE_LIFECYCLE_STATES).

Definition Lifecycle_dequarantine_target (s : LifecycleState) : option LifecycleState :=
  match s with LifeQuarantined => Some LifeOpen | _ => None end.

Definition Lifecycle_can_transition_to (self to : LifecycleState) : bool :=
  match self, to with
  | LifeOpen, LifeActive
  | LifeOpen, LifeAbandoned
  | LifeActive, LifeBlocked
  | LifeActive, LifeDone
  | LifeActive, LifeAbandoned
  | LifeBlocked, LifeActive
  | LifeBlocked, LifeAbandoned => true
  | _, _ => false
  end.

(** The quoted state list the SQL fragment of [lifecycle_visible_clause]
    interpolates, and the fragment. *)
Definition lifecycle_state_list : string :=
  str_join ", " ((λ s, "'" +:+ LifecycleState_as_str s +:+ "'") <$> RECALL_VISIBLE_LIFECYCLE_STATES).

Definition lifecycle_visible_clause (table_alias : string) : string :=
  let col := if str_is_empty table_alias then "lifecycle_state"
             else table_alias +:+ "." +:+ "lifecycle_state" in
  "AND (" +:+ col +:+ " IS NULL OR " +:+ col +:+ " IN (" +:+ lifecycle_state_list +:+ "))".

(* ------------------------------------------------------------------ *)
(** * Edit sources and confidence tiers *)

Definition AI_AGENT_ID_PREFIX : string := "ai:".

Definition EditSource_default_for_agent_id (agent_id : string) : EditSource :=
  if starts_with AI_AGENT_ID_PREFIX agent_id then EditAgent else EditHuman.

Definition EditSource_appends_and_archives (s : EditSource) : bool :=
  match s with EditLlm | EditHook => true | _ => false end.

Inductive ConfidenceTier : Type := Confirmed | Likely | Ambiguous.

Definition ConfidenceTier_from_confidence (c : f64) : ConfidenceTier :=
  if f64_is_nan c then Ambiguous
  else if f64_geb c f64_0_95 then Confirmed
  else if f64_geb c f64_0_7 then Likely
  else Ambiguous.

Definition ConfidenceTier_as_str (t : ConfidenceTier) : string :=
  match t with Confirmed => "confirmed" | Likely => "likely" | Ambiguous => "ambiguous" end.

Definition ConfidenceTier_parse (s : string) : option ConfidenceTier :=
  let t := to_ascii_lowercase (str_trim s) in
  if decide (t = "confirmed") then Some Confirmed
  else if decide (t = "likely") then Some Likely
  else if decide (t = "ambiguous") then Some Ambiguous
  else None.

(* ------------------------------------------------------------------ *)
(** * The memory record *)

Record ConfidenceSignals : Type := mkSignals {
  source_age_days : f64;
  atom_derivation : bool;
  prior_corroboration_count : Z;
  freshness_factor : f64;
  baseline_per_source : f64
}.

Record SourceSpan : Type := mkSpan { span_start : Z; span_end : Z }.

Record Citation : Type := mkCitation {
  cite_uri : string;
  cite_accessed_at : string;
  cite_hash : option string;
  cite_span : option SourceSpan
}.

Record Memory : Type := mkMemory {
  mem_id : string;
  mem_cid : option string;
  mem_tier : Tier;
  mem_namespace : string;
  mem_title : string;
  mem_content : string;
  mem_tags : list string;
  mem_priority : Z;
  mem_confidence : f64;
  mem_source : string;
  mem_access_count : Z;
  mem_created_at : string;
  mem_updated_at : string;
  mem_last_accessed_at : option string;
  mem_expires_at : option string;
  mem_metadata : value;
  mem_reflection_depth : Z;
  mem_memory_kind : MemoryKind;
  mem_entity_id : option string;
  mem_persona_version : option Z;
  mem_citations : list Citation;
  mem_source_uri : option string;
  mem_source_span : option SourceSpan;
  mem_confidence_source : ConfidenceSource;
  mem_confidence_signals : option ConfidenceSignals;
  mem_confidence_decayed_at : option string;
  mem_version : Z;
  mem_lifecycle_state : LifecycleState
}.

Definition default_memory_version : Z := 1.

Definition Memory_default : Memory :=
  mkMemory "" None Mid "global" "" "" [] 5 f64_one "api" 0 "" "" None None (JObject [])
    0 KindObservation None None [] None None CallerProvided None None
    default_memory_version LifeOpen.

Definition Memory_confidence_tier (m : Memory) : ConfidenceTier :=
  ConfidenceTier_from_confidence (mem_confidence m).

Definition SECS_PER_HOUR : Z := 3600.
Definition SECS_PER_WEEK : Z := 604800.

Definition Tier_default_ttl_secs (t : Tier) : option Z :=
  match t with
  | Short => Some (6 * SECS_PER_HOUR)%Z
  | Mid => Some SECS_PER_WEEK
  | Long => None
  end.

(** [chrono]: a date-time is an instant (nanoseconds) with an offset; an
    RFC 3339 text parses to one and one prints as such a text. *)
Record datetime : Type := mkDateTime { dt_instant : Z; dt_offset : Z }.

Class Chrono : Type := {
  parse_rfc3339 : string → option datetime;
  to_rfc3339 : datetime → string
}.

Definition with_timezone_utc (t : datetime) : datetime := mkDateTime (dt_instant t) 0.
Definition plus_seconds (t : datetime) (secs : Z) : datetime :=
  mkDateTime (dt_instant t + secs * 10 ^ 9) (dt_offset t).

(** Printing and parsing keep the instant. *)
Class ChronoLaws (C : Chrono) : Prop :=
  chrono_roundtrip : ∀ t, dt_instant <$> parse_rfc3339 (to_rfc3339 t) = Some (dt_instant t).

(** [Memory::effective_expires_at]; [utc_now] is the clock it falls back to
    when [created_at] does not parse. *)
Definition effective_expires_at `{Chrono} (utc_now : datetime) (m : Memory) : option string :=
  if is_some (mem_expires_at m) then mem_expires_at m
  else
    ttl ← Tier_default_ttl_secs (mem_tier m);
    let base := default utc_now (with_timezone_utc <$> parse_rfc3339 (mem_created_at m)) in
    Some (to_rfc3339 (plus_seconds base ttl)).

(* ------------------------------------------------------------------ *)
(** * The vocabulary interface *)

(** A closed vocabulary: each value has one wire spelling, and parsing
    accepts exactly those spellings. *)
Class WireEnum (A : Type) (as_str : A → string) (from_str : string → option A) : Prop :=
  wire_exact : ∀ s x, from_str s = Some x ↔ s = as_str x.

Section wire_enum.
Context {A : Type} {as_str : A → string} {from_str : string → option A}.
Context `{W : !WireEnum A as_str from_str}.

Lemma spelling_roundtrip x : from_str (as_str x) = Some x.
Proof. by apply wire_exact. Qed.

Lemma wire_as_str_inj x y : as_str x = as_str y → x = y.
Proof using W. intros E. apply (inj Some). rewrite <-!spelling_roundtrip. by rewrite E. Qed.
End wire_enum.

(** One case per constructor one way, one per comparison the other way. *)
Ltac solve_wire_enum from_str :=
  intros s x; split;
  [ unfold from_str; repeat case_decide; intros; simplify_eq; done
  | intros ->; by destruct x ].

#[global] Instance MemoryKind_wire : WireEnum MemoryKind MemoryKind_as_str MemoryKind_from_str.
Proof. solve_wire_enum MemoryKind_from_str. Qed.
#[global] Instance LifecycleState_wire :
  WireEnum LifecycleState LifecycleState_as_str LifecycleState_from_str.
Proof. solve_wire_enum LifecycleState_from_str. Qed.
#[global] Instance ConfidenceSource_wire :
  WireEnum ConfidenceSource ConfidenceSource_as_str ConfidenceSource_from_str.
Proof. solve_wire_enum ConfidenceSource_from_str. Qed.
#[global] Instance KindProvenance_wire :
  WireEnum KindProvenance KindProvenance_as_str KindProvenance_from_str.
Proof. solve_wire_enum KindProvenance_from_str. Qed.
#[global] Instance Tier_wire : WireEnum Tier Tier_as_str Tier_from_str.
Proof. solve_wire_enum Tier_from_str. Qed.
#[global] Instance EditSource_wire : WireEnum EditSource EditSource_as_str EditSource_from_str.
Proof. solve_wire_enum EditSource_from_str. Qed.

#[global] Instance SourceSpan_eq_dec : EqDecision SourceSpan.
Proof. solve_decision. Defined.
#[global] Instance Citation_eq_dec : EqDecision Citation.
Proof. solve_decision. Defined.

(** One legal caller transition of the lifecycle machine. *)
Definition lifecycle_step (a b : LifecycleState) : Prop :=
  Lifecycle_can_transition_to a b = true.

(* ------------------------------------------------------------------ *)
(** * Lemmas *)

(** The kinds the tokens name, blanks and unknown words dropped. *)
Definition token_kind (tok : string) : option MemoryKind :=
  let t := str_trim tok in
  if str_is_empty t then None else MemoryKind_from_str t.

Lemma parse_csv_loop_saw toks out b :
  (parse_csv_loop toks out b).2 = b || existsb (λ t, negb (str_is_empty (str_trim t))) toks.
Proof.
  revert out b. induction toks as [|t toks IH]; intros out b; simpl; [by rewrite orb_false_r|].
  destruct (str_is_empty (str_trim t)); simpl; [by rewrite IH|].
  rewrite orb_true_r. repeat case_match; by rewrite IH.
Qed.

Lemma parse_csv_loop_NoDup toks out b :
  NoDup out → NoDup (parse_csv_loop toks out b).1.
Proof.
  revert out b. induction toks as [|t toks IH]; intros out b Hout; simpl; [done|].
  destruct (str_is_empty (str_trim t)); [by apply IH|].
  destruct (MemoryKind_from_str (str_trim t)) as [k|]; [|by apply IH].
  case_bool_decide as Hk; apply IH; [done|].
  apply NoDup_app. split_and!; [done| |by apply NoDup_singleton].
  intros x Hx ->%list_elem_of_singleton. done.
Qed.

Lemma parse_csv_loop_elem toks out b k :
  k ∈ (parse_csv_loop toks out b).1 ↔ k ∈ out ∨ ∃ tok, tok ∈ toks ∧ token_kind tok = Some k.
Proof.
  revert out b. induction toks as [|t toks IH]; intros out b; simpl.
  - split; [by left|]. intros [?|(? & ?%elem_of_nil & _)]; done.
  - assert (∀ P, (P ∨ ∃ tok, tok ∈ t :: toks ∧ token_kind tok = Some k) ↔
      (P ∨ token_kind t = Some k) ∨ ∃ tok, tok ∈ toks ∧ token_kind tok = Some k) as Hsplit.
    { intros P. setoid_rewrite elem_of_cons. naive_solver. }
    rewrite Hsplit. unfold token_kind at 1.
    destruct (str_is_empty (str_trim t)); [rewrite IH; naive_solver|].
    destruct (MemoryKind_from_str (str_trim t)) as [k'|]; [|rewrite IH; naive_solver].
    case_bool_decide; rewrite IH, ?elem_of_app, ?list_elem_of_singleton; naive_solver.
Qed.

Lemma MemoryKind_as_str_plain k :
  str_trim (MemoryKind_as_str k) = MemoryKind_as_str k
  ∧ str_is_empty (MemoryKind_as_str k) = false
  ∧ str_contains_char comma (MemoryKind_as_str k) = false.
Proof. by destruct k. Qed.

Lemma parse_csv_loop_kinds ks out b :
  NoDup (out ++ ks) →
  (parse_csv_loop (MemoryKind_as_str <$> ks) out b).1 = out ++ ks.
Proof.
  revert out b. induction ks as [|k ks IH]; intros out b Hnd; [by rewrite app_nil_r|].
  change (MemoryKind_as_str <$> k :: ks) with (MemoryKind_as_str k :: (MemoryKind_as_str <$> ks)).
  destruct (MemoryKind_as_str_plain k) as (Ht & He & _). cbn [parse_csv_loop].
  rewrite Ht, He, spelling_roundtrip. rewrite bool_decide_false.
  - rewrite IH by (by rewrite <-app_assoc). by rewrite <-app_assoc.
  - apply NoDup_app in Hnd as (_ & Hd & _). intros Hk. by apply (Hd k Hk); left.
Qed.

(* ------------------------------------------------------------------ *)
(** * Theorems *)

(** The closed vocabularies are exact: for every kind, lifecycle state,
    confidence source, kind provenance, tier and edit source, parsing accepts
    exactly its one wire spelling, and the listings name every value once. *)
Lemma vocabularies_exact :
  (∀ s x, MemoryKind_from_str s = Some x ↔ s = MemoryKind_as_str x)
  ∧ (∀ s x, LifecycleState_from_str s = Some x ↔ s = LifecycleState_as_str x)
  ∧ (∀ s x, ConfidenceSource_from_str s = Some x ↔ s = ConfidenceSource_as_str x)
  ∧ (∀ s x, KindProvenance_from_str s = Some x ↔ s = KindProvenance_as_str x)
  ∧ (∀ s x, Tier_from_str s = Some x ↔ s = Tier_as_str x)
  ∧ (∀ s x, EditSource_from_str s = Some x ↔ s = EditSource_as_str x)
  ∧ (NoDup MemoryKind_all ∧ ∀ k, k ∈ MemoryKind_all)
  ∧ (NoDup LifecycleState_all ∧ ∀ s, s ∈ LifecycleState_all)
  ∧ (NoDup KindProvenance_all ∧ ∀ p, p ∈ KindProvenance_all)
  ∧ (NoDup EditSource_ALL ∧ ∀ e, e ∈ EditSource_ALL).
Proof.
  split_and!; try apply wire_exact;
    first [ by apply (bool_decide_unpack (NoDup _)); vm_compute
          | intros []; by apply (bool_decide_unpack (_ ∈ _)); vm_compute ].
Qed.

(** The kind filter: no filter exactly when every comma-separated token is
    blank; otherwise each recognised kind once, and nothing else, so a filter of
    unknown words only is the empty (match-nothing) filter. *)
Lemma parse_csv_spec s :
  match MemoryKind_parse_csv s with
  | None => ∀ tok, tok ∈ str_split comma s → str_trim tok = ""
  | Some ks =>
      (∃ tok, tok ∈ str_split comma s ∧ str_trim tok ≠ "") ∧ NoDup ks
      ∧ ∀ k, k ∈ ks ↔ ∃ tok, tok ∈ str_split comma s ∧ MemoryKind_from_str (str_trim tok) = Some k
  end.
Proof.
  unfold MemoryKind_parse_csv. generalize (str_split comma s) as toks. intros toks.
  pose proof (parse_csv_loop_saw toks [] false) as Hsaw.
  pose proof (parse_csv_loop_NoDup toks [] false) as Hnd.
  pose proof (λ k, parse_csv_loop_elem toks [] false k) as Hel.
  destruct (parse_csv_loop toks [] false) as [out saw]. simpl in *. subst saw.
  destruct (existsb _ toks) eqn:Hex; simpl.
  - apply List.existsb_exists in Hex as (t & Hin%list_elem_of_In & Ht).
    unfold str_is_empty in Ht. rewrite negb_true_iff, bool_decide_eq_false in Ht.
    split; [eauto|]. split; [apply Hnd; constructor|]. intros k. rewrite Hel.
    unfold token_kind, str_is_empty. setoid_rewrite elem_of_nil.
    split; [|intros (tok & ? & Hk); right; exists tok; split; [done|]; case_bool_decide as He;
      [by rewrite He in Hk|done]].
    intros [[]|(tok & ? & Hk)]. exists tok. by case_bool_decide.
  - intros t Hin. apply not_true_iff_false in Hex. destruct (decide (str_trim t = "")) as [|Hn]; [done|].
    exfalso. apply Hex, List.existsb_exists. exists t. split; [by apply list_elem_of_In|].
    unfold str_is_empty. by rewrite bool_decide_false.
Qed.

(** Writing a non-empty duplicate-free kind list as comma-separated wire
    names and parsing it back gives the list, in order. *)
Lemma parse_csv_roundtrip ks :
  ks ≠ [] → NoDup ks →
  MemoryKind_parse_csv (str_join (String comma "") (MemoryKind_as_str <$> ks)) = Some ks.
Proof.
  intros Hne Hnd. unfold MemoryKind_parse_csv. rewrite str_split_join; [| |].
  - pose proof (parse_csv_loop_kinds ks [] false Hnd) as E.
    pose proof (parse_csv_loop_saw (MemoryKind_as_str <$> ks) [] false) as S.
    destruct (parse_csv_loop _ _ _) as [out saw]. simpl in *. subst.
    destruct ks as [|k ks]; [done|]. simpl.
    destruct (MemoryKind_as_str_plain k) as (-> & -> & _). done.
  - by destruct ks.
  - apply Forall_fmap, Forall_forall. intros k _. apply MemoryKind_as_str_plain.
Qed.

(** Callers cannot hide or revive memories through the lifecycle machine:
    the system-only states are exactly the ones recall hides, no chain of
    caller transitions enters them, no transition leaves a terminal state, and
    clearing a quarantine is the one way back, to a visible state. *)
Lemma lifecycle_visibility_sealed :
  (∀ s, Lifecycle_is_recall_visible s = negb (Lifecycle_is_system_only s))
  ∧ (∀ a b, rtc lifecycle_step a b → Lifecycle_is_system_only b = true → a = b)
  ∧ (∀ a b, rtc lifecycle_step a b → Lifecycle_is_terminal a = true → a = b)
  ∧ (∀ s t, Lifecycle_dequarantine_target s = Some t →
       s = LifeQuarantined ∧ Lifecycle_is_recall_visible t = true)
  ∧ lifecycle_visible_clause "m" =
      "AND (m.lifecycle_state IS NULL OR m.lifecycle_state IN ('open', 'active', 'blocked', 'done', 'abandoned'))".
Proof.
  split_and!.
  - by intros [].
  - intros a b Hab Hb. induction Hab as [|a b c Hs _ IH]; [done|].
    specialize (IH Hb). subst. by destruct a, c.
  - intros a b Hab Ha. inversion Hab as [|? c ? Hs]; [done|]. by destruct a, c.
  - by intros [] t [= <-].
  - by vm_compute.
Qed.

(* ------------------------------------------------------------------ *)
(** * Witnesses *)

Lemma parse_csv_roundtrip_witness :
  MemoryKind_parse_csv "goal,plan,step" = Some [KindGoal; KindPlan; KindStep].
Proof.
  apply (parse_csv_roundtrip [KindGoal; KindPlan; KindStep]).
  - done.
  - apply (bool_decide_unpack (NoDup _)). vm_compute. exact I.
Defined.

Example parse_csv_unknown_only : MemoryKind_parse_csv "bogus, ,x" = Some [].
Proof. by vm_compute. Qed.
