(* ===== verification/SecretScreen.v ===== *)
(** The credential screen of the write path ([src/src/secret_screen.rs]): what it
    looks for in a text, what it puts in its place, and what the two ways of
    using it, refusing a caller and masking at the storage funnel, do to a row. *)
From S2P Require Import Prelude.
From S2P Require Import BTree.
From S2P Require Import F64.
From S2P Require Import Json.
From S2P Require Import Text.
From S2P Require Import Memory.
From Stdlib Require Import Floats.SpecFloat.
From stdpp Require Import finite.

(* ------------------------------------------------------------------ *)
(** * Calls that may not come back *)

(** What becomes of a call: it returns, it panics, or it runs without end. *)
Inductive Run (A : Type) : Type := Returns (a : A) | Panics | Runs.
Arguments Returns {A} a.
Arguments Panics {A}.
Arguments Runs {A}.

#[global] Instance Run_ret : MRet Run := λ A a, Returns a.
#[global] Instance Run_bind : MBind Run := λ A B k r,
  match r with Returns a => k a | Panics => Panics | Runs => Runs end.
#[global] Instance Run_fmap : FMap Run := λ A B f r,
  match r with Returns a => Returns (f a) | Panics => Panics | Runs => Runs end.

(** A call made for each element, in order. *)
Fixpoint run_each {A B} (f : A → Run B) (l : list A) : Run (list B) :=
  match l with
  | [] => mret []
  | a :: l => b ← f a; bs ← run_each f l; mret (b :: bs)
  end.

(* ------------------------------------------------------------------ *)
(** * Modes and outcomes *)

Inductive SecretScreenMode : Type := ScreenOff | ScreenRedact | ScreenRefuse.

#[global] Instance SecretScreenMode_eq_dec : EqDecision SecretScreenMode.
Proof. solve_decision. Defined.

Definition SecretScreenMode_default : SecretScreenMode := ScreenRefuse.

Definition SecretScreenMode_as_str (m : SecretScreenMode) : string :=
  match m with ScreenOff => "off" | ScreenRedact => "redact" | ScreenRefuse => "refuse" end.

Definition SecretScreenMode_parse (s : string) : option SecretScreenMode :=
  let t := to_ascii_lowercase (str_trim s) in
  if bool_decide (t = "off") then Some ScreenOff
  else if bool_decide (t = "redact") then Some ScreenRedact
  else if bool_decide (t = "refuse") then Some ScreenRefuse
  else None.

(** The mode of the process: off until it is seeded. *)
Definition screen_mode (seeded : option SecretScreenMode) : SecretScreenMode := default ScreenOff seeded.

Inductive ScreenOutcome : Type := Clean | Hit (kinds : list string) (redacted : string).

Definition REDACTION_PLACEHOLDER : string := "[REDACTED:secret]".

Definition KIND_PEM_PRIVATE_KEY : string := "pem_private_key".
Definition KIND_AWS_ACCESS_KEY : string := "aws_access_key_id".
Definition KIND_GITHUB_TOKEN : string := "github_token".
Definition KIND_OPENAI_KEY : string := "openai_style_key".
Definition KIND_XAI_KEY : string := "xai_key".
Definition KIND_JWT : string := "jwt".
Definition KIND_BEARER_TOKEN : string := "bearer_token".

Definition PEM_BEGIN_MARKER : string := "-----BEGIN".
Definition PEM_PRIVATE_KEY_MARKER : string := "PRIVATE KEY-----".
Definition AWS_AKIA_PREFIX : string := "AKIA".
Definition GITHUB_PAT_PREFIX : string := "ghp_".
Definition GITHUB_FINEGRAINED_PREFIX : string := "github_pat_".
Definition OPENAI_KEY_PREFIX : string := "sk-".
Definition XAI_KEY_PREFIX : string := "xai-".
Definition BEARER_PREFIX : string := "Bearer ".
Definition JWT_HEADER_MARKER : string := "eyJ".

Definition MIN_PREFIXED_TOKEN_LEN : nat := 20.
Definition MIN_TOKEN_ENTROPY_BITS : f64 := f64_3_5.
Definition AWS_KEY_BODY_LEN : nat := 16.
Definition MIN_SEG_LEN : nat := 8.

(* ------------------------------------------------------------------ *)
(** * Tokens *)

Definition is_token_char (a : ascii) : bool :=
  byte_in 48 57 a || byte_in 65 90 a || byte_in 97 122 a || str_contains_char a "-_+/.=".

(** The run of token characters at the start. *)
Fixpoint token_at (s : string) : string :=
  match s with String c s' => if is_token_char c then String c (token_at s') else "" | EmptyString => "" end.

(** [f64::log2], whose last bits the platform decides. *)
Class Log2 : Type := log2 : f64 → f64.

Fixpoint count_byte (b : N) (s : string) : nat :=
  match s with
  | String c s' => (if (Ascii.N_of_ascii c =? b)%N then 1 else 0) + count_byte b s'
  | EmptyString => 0
  end.

Definition byte_counts (s : string) : list nat := (λ b, count_byte (N.of_nat b) s) <$> seq 0 256.

Definition shannon_entropy_bits {L : Log2} (s : string) : f64 :=
  if str_is_empty s then f64_zero
  else
    let len := f64_of_Z (byte_len s) in
    fold_left (λ h c,
        if (0 <? c)%nat
        then let p := f64_div (f64_of_Z (Z.of_nat c)) len in f64_sub h (f64_mul p (log2 p))
        else h)
      (byte_counts s) f64_zero.

(* ------------------------------------------------------------------ *)
(** * Replacing what a detector takes for a secret *)

(** The loop the detectors share: at each occurrence of the marker [span] says
    how much of the text from there on is a secret; if none, the marker is kept
    and the search goes on behind it. The answer is the text rewritten and
    whether anything was. *)
Fixpoint span_loop (fuel : nat) (marker : string) (span : string → option nat) (rest : string) : string * bool :=
  match fuel with
  | O => (rest, false)
  | S fuel =>
      match str_find marker rest with
      | None => (rest, false)
      | Some rel =>
          let here := str_drop rel rest in
          match span here with
          | Some len =>
              let '(o, _) := span_loop fuel marker span (str_drop len here) in
              (str_take rel rest +:+ REDACTION_PLACEHOLDER +:+ o, true)
          | None =>
              let k := String.length marker in
              let '(o, hit) := span_loop fuel marker span (str_drop k here) in
              (str_take rel rest +:+ str_take k here +:+ o, hit)
          end
      end
  end.

Definition redact_spans (marker : string) (span : string → option nat) (content : string) : option string :=
  let '(o, hit) := span_loop (S (String.length content)) marker span content in
  if hit then Some o else None.

Section detectors.
Context {L : Log2}.

(** A marker followed by a long and dense token. *)
Definition prefixed_span (prefix here : string) : option nat :=
  let token := token_at (str_drop (String.length prefix) here) in
  if (MIN_PREFIXED_TOKEN_LEN <=? String.length token)%nat && f64_geb (shannon_entropy_bits token) MIN_TOKEN_ENTROPY_BITS
  then Some (String.length prefix + String.length token) else None.

Definition redact_prefixed_tokens (prefix : string) : string → option string := redact_spans prefix (prefixed_span prefix).

Fixpoint all_upper_or_digit (s : string) : bool :=
  match s with String c s' => (byte_in 65 90 c || byte_in 48 57 c) && all_upper_or_digit s' | EmptyString => true end.

Definition aws_span (here : string) : option nat :=
  let body := token_at (str_drop (String.length AWS_AKIA_PREFIX) here) in
  if (AWS_KEY_BODY_LEN <=? String.length body)%nat && all_upper_or_digit (str_take AWS_KEY_BODY_LEN body)
  then Some (String.length AWS_AKIA_PREFIX + AWS_KEY_BODY_LEN) else None.

Definition redact_aws_keys : string → option string := redact_spans AWS_AKIA_PREFIX aws_span.

Definition dot : ascii := Ascii.ascii_of_N 46.

Definition jwt_span (here : string) : option nat :=
  let token := token_at here in
  let segs := str_split dot token in
  if (length segs =? 3)%nat && forallb (λ s, (MIN_SEG_LEN <=? String.length s)%nat) segs
  then Some (String.length token) else None.

Definition redact_jwts : string → option string := redact_spans JWT_HEADER_MARKER jwt_span.

(** [match_indices(needle).nth(1)]: the second match behind the first. *)
Definition second_match (needle s : string) : option nat :=
  i ← str_find needle s;
  let k := i + String.length needle in
  (λ j, k + j) <$> str_find needle (str_drop k s).

(** One turn of the loop: what it writes, and where in the content it goes on. *)
Inductive PemTurn : Type := PemStop (piece : string) | PemGo (piece : string) (at_ : nat) | PemPanic.

Definition pem_turn (content rest : string) : PemTurn :=
  match str_find PEM_BEGIN_MARKER rest with
  | None => PemStop rest
  | Some begin =>
      let after_begin := str_drop begin rest in
      match second_match PEM_PRIVATE_KEY_MARKER after_begin with
      | Some footer_rel =>
          let block_end := begin + footer_rel + String.length PEM_PRIVATE_KEY_MARKER in
          if is_char_boundary content (Z.of_nat block_end)
          then PemGo (str_take begin rest +:+ REDACTION_PLACEHOLDER) block_end
          else PemPanic
      | None => PemStop (str_take begin rest +:+ REDACTION_PLACEHOLDER)
      end
  end.

Fixpoint pem_loop (fuel : nat) (content rest out : string) : Run string :=
  match fuel with
  | O => Runs
  | S fuel =>
      match pem_turn content rest with
      | PemStop piece => Returns (out +:+ piece)
      | PemGo piece k => pem_loop fuel content (str_drop k content) (out +:+ piece)
      | PemPanic => Panics
      end
  end.

(** As many turns as there are places to go on from, and one: a run that takes
    more comes back to a place it has been to. *)
Definition pem_fuel (content : string) : nat := String.length content + 2.

Definition redact_pem_blocks (content : string) : Run string := pem_loop (pem_fuel content) content content "".

(* ------------------------------------------------------------------ *)
(** * The screen *)

(** A detector that fires replaces the text and names its kind. *)
Definition detect (kind : string) (redact : string → option string) (st : string * list string) : string * list string :=
  match redact st.1 with Some after => (after, st.2 ++ [kind]) | None => st end.

Definition prefix_detectors : list (string * string) :=
  [(GITHUB_FINEGRAINED_PREFIX, KIND_GITHUB_TOKEN); (GITHUB_PAT_PREFIX, KIND_GITHUB_TOKEN);
   (OPENAI_KEY_PREFIX, KIND_OPENAI_KEY); (XAI_KEY_PREFIX, KIND_XAI_KEY); (BEARER_PREFIX, KIND_BEARER_TOKEN)].

(** [sort_unstable] and [dedup] on texts. *)
Fixpoint insert_kind (k : string) (l : list string) : list string :=
  match l with
  | [] => [k]
  | x :: l' => if bool_decide (k = x) then l else if x >?s k then k :: l else x :: insert_kind k l'
  end.

Definition screen (content : string) : Run ScreenOutcome :=
  pem ← (if str_contains PEM_BEGIN_MARKER content && str_contains PEM_PRIVATE_KEY_MARKER content
         then (λ r, (r, [KIND_PEM_PRIVATE_KEY])) <$> redact_pem_blocks content
         else mret (content, []));
  let st := fold_left (λ st '(prefix, kind), detect kind (redact_prefixed_tokens prefix) st) prefix_detectors pem in
  let st := detect KIND_AWS_ACCESS_KEY redact_aws_keys st in
  let '(redacted, kinds) := detect KIND_JWT redact_jwts st in
  mret (if is_nil kinds then Clean else Hit (foldr insert_kind [] kinds) redacted).

(** A text as it enters a hash: with its secrets replaced, in every mode. *)
Definition screened (field : string) : Run string :=
  outcome ← screen field;
  mret (match outcome with Clean => field | Hit _ redacted => redacted end).

(** A caller is refused with the kinds that fired. *)
Definition screen_for_caller (mode : SecretScreenMode) (content : string) : Run (result unit (list string)) :=
  if negb (bool_decide (mode = ScreenRefuse)) then mret (Ok tt)
  else
    outcome ← screen content;
    mret (match outcome with Clean => Ok tt | Hit kinds _ => Err kinds end).

Definition SecretRefusal_display (kinds : list string) : string :=
  "content rejected: appears to contain credential material (" +:+ str_join ", " kinds
  +:+ "); set AI_MEMORY_SECRET_SCREEN_MODE=redact to store a masked copy, or =off to disable screening".

(** At the funnel a hit is masked, whatever the mode that screens. *)
Definition redact_for_storage (mode : SecretScreenMode) (content : string) : Run (option string) :=
  if bool_decide (mode = ScreenOff) then mret None
  else
    outcome ← screen content;
    mret (match outcome with Clean => None | Hit _ redacted => Some redacted end).

(* ------------------------------------------------------------------ *)
(** * Metadata and rows *)

Definition METADATA_SCREEN_CARVE_OUT_KEYS : list string :=
  ["write_signature"; "host_signature_b64"; "host_pubkey_b64"; "agent_pubkey"; "agent_id"; "signature"; "citations";
   "consolidated_from_agents"; "imported_from_agent_id"; "model_family"].

Definition CARVE_OUT_B64_SUFFIX : string := "_b64".

Definition ends_with (suffix s : string) : bool := starts_with (String.rev suffix) (String.rev s).

Definition metadata_key_is_carved_out (key : string) : bool :=
  ends_with CARVE_OUT_B64_SUFFIX key || bool_decide (key ∈ METADATA_SCREEN_CARVE_OUT_KEYS).

(** The first leaf that is refused refuses the metadata. *)
Fixpoint screen_value_leaves (mode : SecretScreenMode) (val : value) : Run (result unit (list string)) :=
  match val with
  | JString s => screen_for_caller mode s
  | JObject map =>
      (fix go (l : list (string * value)) : Run (result unit (list string)) :=
         match l with
         | [] => mret (Ok tt)
         | (k, v) :: l =>
             if metadata_key_is_carved_out k then go l
             else r ← screen_value_leaves mode v; match r with Ok _ => go l | Err e => mret (Err e) end
         end) map
  | JArray arr =>
      (fix go (l : list value) : Run (result unit (list string)) :=
         match l with
         | [] => mret (Ok tt)
         | v :: l => r ← screen_value_leaves mode v; match r with Ok _ => go l | Err e => mret (Err e) end
         end) arr
  | _ => mret (Ok tt)
  end.

Definition screen_metadata_values_for_caller : SecretScreenMode → value → Run (result unit (list string)) :=
  screen_value_leaves.

(** The value rebuilt when a leaf changed. *)
Fixpoint redact_value_leaves (mode : SecretScreenMode) (val : value) : Run (option value) :=
  match val with
  | JString s => r ← redact_for_storage mode s; mret (option_map JString r)
  | JObject map =>
      '(out, changed) ← (fix go (l : list (string * value)) : Run (list (string * value) * bool) :=
               match l with
               | [] => mret ([], false)
               | (k, v) :: l =>
                   red ← (if metadata_key_is_carved_out k then mret None else redact_value_leaves mode v : Run (option value));
                   '(out, changed) ← go l;
                   mret ((k, default v red) :: out, is_some red || changed)
               end) map;
      mret (if changed : bool then Some (JObject out) else None)
  | JArray arr =>
      '(out, changed) ← (fix go (l : list value) : Run (list value * bool) :=
               match l with
               | [] => mret ([], false)
               | v :: l =>
                   red ← redact_value_leaves mode v;
                   '(out, changed) ← go l;
                   mret (default v red :: out, is_some red || changed)
               end) arr;
      mret (if changed : bool then Some (JArray out) else None)
  | _ => mret None
  end.

Definition redact_metadata_values (mode : SecretScreenMode) (meta : value) : Run (option value) :=
  if bool_decide (mode = ScreenOff) then mret None else redact_value_leaves mode meta.

Definition with_texts (m : Memory) (content title : string) (tags : list string) (metadata : value) : Memory :=
  mkMemory (mem_id m) (mem_cid m) (mem_tier m) (mem_namespace m) title content tags (mem_priority m)
    (mem_confidence m) (mem_source m) (mem_access_count m) (mem_created_at m) (mem_updated_at m)
    (mem_last_accessed_at m) (mem_expires_at m) metadata (mem_reflection_depth m) (mem_memory_kind m)
    (mem_entity_id m) (mem_persona_version m) (mem_citations m) (mem_source_uri m) (mem_source_span m)
    (mem_confidence_source m) (mem_confidence_signals m) (mem_confidence_decayed_at m) (mem_version m)
    (mem_lifecycle_state m).

Definition redact_memory_for_storage (mode : SecretScreenMode) (m : Memory) : Run (option Memory) :=
  if bool_decide (mode = ScreenOff) then mret None
  else
    content ← redact_for_storage mode (mem_content m);
    title ← redact_for_storage mode (mem_title m);
    tags ← run_each (redact_for_storage mode) (mem_tags m);
    metadata ← redact_metadata_values mode (mem_metadata m);
    if negb (is_some content || is_some title || existsb is_some tags || is_some metadata) then mret None
    else
      mret (Some (with_texts m (default (mem_content m) content) (default (mem_title m) title)
                    (zip_with default (mem_tags m) tags) (default (mem_metadata m) metadata))).
End detectors.

(** Masking changes texts and nothing else. *)
Lemma redacted_texts {L : Log2} mode m m' : redact_memory_for_storage mode m = Returns (Some m') →
  m' = with_texts m (mem_content m') (mem_title m') (mem_tags m') (mem_metadata m')
  ∧ ∃ md, redact_metadata_values mode (mem_metadata m) = Returns md ∧ mem_metadata m' = default (mem_metadata m) md.
Proof.
  unfold redact_memory_for_storage. case_bool_decide; [done|].
  destruct (redact_for_storage mode (mem_content m)); [|done..]. destruct (redact_for_storage mode (mem_title m)); [|done..].
  destruct (run_each _ (mem_tags m)); [|done..]. destruct (redact_metadata_values mode _) as [md| |]; [|done..]. simpl.
  case_match; [done|]. intros [= <-]. split; [done|]. by exists md.
Qed.

Lemma redacted_id {L : Log2} mode m m' : redact_memory_for_storage mode m = Returns (Some m') → mem_id m' = mem_id m.
Proof. by intros [-> _]%redacted_texts. Qed.

(** Of an object, it keeps the keys. *)
Lemma redacted_keys {L : Log2} mode map v : redact_value_leaves mode (JObject map) = Returns (Some v) →
  ∃ out, v = JObject out ∧ bkeys out = bkeys map.
Proof.
  cbn [redact_value_leaves]. match goal with |- mbind _ (?f map) = _ → _ => set (go := f) end.
  assert (∀ l r, go l = Returns r → bkeys r.1 = bkeys l) as Hgo.
  { induction l as [|[k x] l IH]; intros r; [by intros [= <-]|]. simpl.
    destruct (if metadata_key_is_carved_out k then _ else _) as [red| |]; simpl; [|done..]. fold go.
    destruct (go l) as [[out changed]| |] eqn:E; simpl; [|done..]. intros [= <-]. simpl. unfold bkeys in *. simpl.
    f_equal. exact (IH _ eq_refl). }
  destruct (go map) as [[out changed]| |] eqn:E; simpl; [|done..]. destruct changed; [|done]. intros [= <-].
  exists out. split; [done|]. exact (Hgo _ _ E).
Qed.

(* ------------------------------------------------------------------ *)
(** * The loop over key blocks *)

Lemma iter_none (next : nat → option nat) n : Nat.iter n (mbind next) None = None.
Proof. induction n as [|n IH]; [done|]. simpl. by rewrite IH. Qed.

(** A bounded machine that takes more steps than it has states never stops. *)
Section forever.
Context (next : nat → option nat) (N : nat).
Hypothesis bounded : ∀ k k', next k = Some k' → k' ≤ N.

Definition after (k n : nat) : option nat := Nat.iter n (mbind next) (Some k).

Lemma after_add k n m : after k (n + m) = Nat.iter n (mbind next) (after k m).
Proof. unfold after. by rewrite Nat.iter_add. Qed.

Lemma after_bounded k n k' : k ≤ N → after k n = Some k' → k' ≤ N.
Proof using bounded.
  intros Hk. destruct n as [|n]; [by intros [= <-]|]. unfold after. simpl.
  destruct (Nat.iter n _ _) as [j|]; [apply bounded|done].
Qed.

Lemma after_some_le k n m : m ≤ n → is_Some (after k n) → is_Some (after k m).
Proof.
  intros Hm. replace n with ((n - m) + m) by lia. rewrite after_add. destruct (after k m) as [j|]; [done|].
  rewrite iter_none. by intros [x Hx].
Qed.

Lemma runs_forever k : k ≤ N → is_Some (after k (S N)) → ∀ n, is_Some (after k n).
Proof using bounded.
  intros Hk Hlong. destruct (nat_pigeonhole (λ i, default 0 (after k i)) (S (S N)) (S N)) as (i & j & [Hij Hj] & E); [lia| |].
  { intros i Hi. destruct (after_some_le k (S N) i ltac:(lia) Hlong) as [x Hx]. rewrite Hx. simpl.
    apply after_bounded in Hx; [lia|done]. }
  destruct (after_some_le k (S N) i ltac:(lia) Hlong) as [x Hx]. destruct (after_some_le k (S N) j ltac:(lia) Hlong) as [y Hy].
  rewrite Hx, Hy in E. simpl in E. subst y.
  intros n. induction n as [n IH] using lt_wf_ind. destruct (decide (n ≤ j)) as [Hn|Hn].
  - eapply after_some_le; [exact Hn|by eexists].
  - assert (after k n = after k (n - (j - i))) as ->; [|apply IH; lia].
    replace n with ((n - j) + j) at 1 by lia. replace (n - (j - i)) with ((n - j) + i) by lia.
    by rewrite !after_add, Hx, Hy.
Qed.
End forever.

Section pem.
Context (content : string).

(** Where the loop goes on from, given where it is. *)
Definition pem_next (k : nat) : option nat :=
  match pem_turn content (str_drop k content) with PemGo _ k' => Some k' | _ => None end.

Lemma second_match_bounded needle s i : second_match needle s = Some i → i + String.length needle ≤ String.length s.
Proof.
  unfold second_match. destruct (str_find needle s) as [a|] eqn:Ea; [|done]. simpl.
  apply str_find_Some in Ea as (Hs0 & _ & Ha). apply starts_with_length in Hs0. rewrite str_length_drop in Hs0.
  destruct (str_find needle (str_drop (a + String.length needle) s)) as [b|] eqn:E; [|done]. intros [= <-].
  apply str_find_Some in E as (Hs & _ & Hle). apply starts_with_length in Hs. rewrite str_drop_drop, str_length_drop in Hs.
  rewrite str_length_drop in Hle. lia.
Qed.

Lemma pem_next_bounded k k' : pem_next k = Some k' → k' ≤ String.length content.
Proof.
  unfold pem_next, pem_turn. destruct (str_find _ _) as [a|] eqn:Ea; [|done].
  destruct (second_match _ _) as [f|] eqn:Ef; [|done]. destruct (is_char_boundary _ _); [|done]. intros [= <-].
  apply second_match_bounded in Ef. apply str_find_Some in Ea as (_ & _ & Ha).
  rewrite !str_length_drop in *. change (String.length PEM_PRIVATE_KEY_MARKER) with 16 in *. lia.
Qed.

Lemma pem_loop_runs fuel k out :
  pem_loop fuel content (str_drop k content) out = Runs ↔ is_Some (after pem_next k fuel).
Proof.
  revert k out. induction fuel as [|fuel IH]; intros k out; [by split|].
  replace (S fuel) with (fuel + 1) at 2 by lia. rewrite after_add. unfold after at 1. simpl. unfold pem_next at 2. simpl.
  destruct (pem_turn content (str_drop k content)) as [p|p k'|]; simpl.
  - rewrite iter_none. split; [done|]. by intros [x Hx].
  - apply IH.
  - rewrite iter_none. split; [done|]. by intros [x Hx].
Qed.

(** The fuel decides: what is still running when it is spent never comes back. *)
Lemma redact_pem_runs : redact_pem_blocks content = Runs ↔ ∀ fuel, pem_loop fuel content content "" = Runs.
Proof.
  unfold redact_pem_blocks. split; [|done]. intros H fuel.
  apply (pem_loop_runs fuel 0), (runs_forever _ (String.length content)).
  - apply pem_next_bounded.
  - lia.
  - apply (after_some_le _ _ (pem_fuel content)); [unfold pem_fuel; lia|]. by apply (pem_loop_runs _ 0 "").
Qed.
End pem.

(** A private key in PEM: a header line, the key, a footer line. *)
Definition key_block (header body : string) : string :=
  PEM_BEGIN_MARKER +:+ header +:+ PEM_PRIVATE_KEY_MARKER +:+ body +:+ PEM_PRIVATE_KEY_MARKER.

Record key_block_ok (header body : string) : Prop := {
  kb_header : free_of PEM_PRIVATE_KEY_MARKER (PEM_BEGIN_MARKER +:+ header) = true;
  kb_body : free_of PEM_PRIVATE_KEY_MARKER body = true
}.

Definition ascii_text (s : string) : bool := str_all (byte_in 0 127) s.

Lemma second_match_free needle x y z : free_of needle x = true → free_of needle y = true →
  second_match needle (x +:+ needle +:+ y +:+ needle +:+ z) = Some (String.length x + String.length needle + String.length y).
Proof.
  intros Hx Hy. unfold second_match. rewrite (find_free _ _ _ Hx). cbn [mbind option_bind].
  rewrite (str_app_assoc x needle), <-(str_length_app x), str_drop_app, find_free by done. done.
Qed.

Lemma second_match_key h b z : key_block_ok h b →
  second_match PEM_PRIVATE_KEY_MARKER (key_block h b +:+ z)
  = Some (String.length (key_block h b) - String.length PEM_PRIVATE_KEY_MARKER).
Proof.
  intros [Hh Hb]. unfold key_block. rewrite <-!str_app_assoc, (str_app_assoc PEM_BEGIN_MARKER h), second_match_free by done.
  f_equal. rewrite !str_length_app. lia.
Qed.

Lemma key_block_length h b : String.length PEM_PRIVATE_KEY_MARKER ≤ String.length (key_block h b).
Proof. unfold key_block. rewrite !str_length_app. lia. Qed.

Lemma find_key_block s h b z : free_of PEM_BEGIN_MARKER s = true →
  str_find PEM_BEGIN_MARKER (s +:+ key_block h b +:+ z) = Some (String.length s).
Proof. intros Hs. unfold key_block. by rewrite <-!str_app_assoc, find_free. Qed.

Lemma pem_turn_key content s h b z : key_block_ok h b → free_of PEM_BEGIN_MARKER s = true →
  let k := String.length s + String.length (key_block h b) in
  is_char_boundary content (Z.of_nat k) = true →
  pem_turn content (s +:+ key_block h b +:+ z) = PemGo (s +:+ REDACTION_PLACEHOLDER) k.
Proof.
  intros Hk Hs k Hbound. unfold pem_turn. rewrite find_key_block, str_drop_app, second_match_key by done.
  pose proof (key_block_length h b). rewrite str_take_app.
  replace (_ + _ + _) with k by (unfold k; lia). by rewrite Hbound.
Qed.

Lemma pem_turn_rest content z : str_contains PEM_BEGIN_MARKER z = false → pem_turn content z = PemStop z.
Proof. intros Hz. apply str_contains_None in Hz. unfold pem_turn. by rewrite Hz. Qed.

Lemma str_contains_drop needle k s : k ≤ String.length s → str_contains needle s = false → str_contains needle (str_drop k s) = false.
Proof.
  intros Hk. rewrite !str_contains_None, !str_find_None. intros H j Hj. rewrite str_drop_drop.
  apply H. rewrite str_length_drop in Hj. lia.
Qed.

Lemma str_contains_behind needle x y : str_contains needle y = true → str_contains needle (x +:+ y) = true.
Proof.
  intros Hy. destruct (str_contains needle (x +:+ y)) eqn:E; [done|].
  apply (str_contains_drop _ (String.length x)) in E; [by rewrite str_drop_app, Hy in E|]. rewrite str_length_app. lia.
Qed.

Lemma free_of_drop needle k x : k ≤ String.length x → free_of needle x = true → free_of needle (str_drop k x) = true.
Proof.
  unfold free_of. rewrite !negb_true_iff. intros Hk H. rewrite <-str_drop_app_le by done.
  apply str_contains_drop; [rewrite str_length_app; lia|done].
Qed.

Lemma free_of_absent needle x : free_of needle x = true → str_contains needle x = false.
Proof.
  unfold free_of. rewrite negb_true_iff, !str_contains_None, !str_find_None. intros H j Hj.
  destruct (starts_with needle (str_drop j x)) eqn:E; [|done].
  pose proof (starts_with_length _ _ E) as Hl. specialize (H j). rewrite str_length_app in H. specialize (H ltac:(lia)).
  rewrite str_drop_app_le, starts_with_app_l in H by (done || lia). congruence.
Qed.

(** A text that begins with a key, and goes on with another one. *)
Section two_keys.
Context (a h1 k1 h2 k2 s z : string).
Hypothesis (Hk1 : key_block_ok h1 k1) (Hk2 : key_block_ok h2 k2).
Let b1 := key_block h1 k1.
Let b2 := key_block h2 k2.
Hypothesis Ha : free_of PEM_BEGIN_MARKER a = true.
Hypothesis Hs : free_of PEM_BEGIN_MARKER (str_drop 1 b1 +:+ s) = true.
Hypothesis Hz : str_contains PEM_BEGIN_MARKER (str_drop 1 b2 +:+ z) = false.
Let content := a +:+ b1 +:+ s +:+ b2 +:+ z.
Hypothesis Hascii : ascii_text content = true.
(** Where the first key ends, and how far the second one's end is from there. *)
Let n := String.length a + String.length b1.
Let q := String.length s + String.length b2.

Lemma b1_length : 1 ≤ String.length b1.
Proof. pose proof (key_block_length h1 k1) as H. change (String.length PEM_PRIVATE_KEY_MARKER) with 16 in H. unfold b1. lia. Qed.

Lemma b2_length : 1 ≤ String.length b2.
Proof. pose proof (key_block_length h2 k2) as H. change (String.length PEM_PRIVATE_KEY_MARKER) with 16 in H. unfold b2. lia. Qed.

Lemma content_length :
  String.length content = String.length a + String.length b1 + String.length s + String.length b2 + String.length z.
Proof. unfold content. rewrite !str_length_app. lia. Qed.

(** Nothing begins within the first key, from its second byte on. *)
Lemma free_behind k : 1 ≤ k → k ≤ String.length b1 + String.length s →
  free_of PEM_BEGIN_MARKER (str_drop k (b1 +:+ s)) = true.
Proof.
  intros Hk Hle. replace k with (1 + (k - 1)) by lia. rewrite <-str_drop_drop.
  pose proof b1_length. rewrite str_drop_app_le by lia.
  apply free_of_drop; [|done]. rewrite str_length_app, str_length_drop. lia.
Qed.

(** From before the first key, the loop finds the first key. *)
Lemma turn_before k : k ≤ String.length a →
  pem_turn content (str_drop k content) = PemGo (str_drop k a +:+ REDACTION_PLACEHOLDER) (n - k).
Proof.
  intros Hk. pose proof content_length. unfold content at 2. rewrite str_drop_app_le by done.
  rewrite (pem_turn_key content _ h1 k1); [|done|by apply free_of_drop|]; fold b1.
  - f_equal. rewrite str_length_drop. unfold n. lia.
  - apply ascii_boundary; [done|]. rewrite str_length_drop. lia.
Qed.

(** From behind its first byte, and not behind the second's, the second one. *)
Lemma turn_between k : String.length a < k → k ≤ n + String.length s →
  pem_turn content (str_drop k content)
  = PemGo (str_drop (k - String.length a) (b1 +:+ s) +:+ REDACTION_PLACEHOLDER) (n + q - k).
Proof.
  intros Hlo Hhi. pose proof content_length. pose proof (str_length_app b1 s) as Hl. unfold n in *.
  assert (str_drop k content = str_drop (k - String.length a) (b1 +:+ s) +:+ b2 +:+ z) as ->.
  { unfold content. replace k with (String.length a + (k - String.length a)) at 1 by lia.
    rewrite <-str_drop_drop, str_drop_app, str_app_assoc, str_drop_app_le by lia. done. }
  rewrite (pem_turn_key content _ h2 k2); [|done|apply free_behind; lia|]; fold b2.
  - f_equal. rewrite str_length_drop. unfold q. lia.
  - apply ascii_boundary; [done|]. rewrite str_length_drop. lia.
Qed.

(** The places the loop goes on from are multiples of the distance, counted from
    the start of the text or back from the end of the first key. *)
Definition visited (k : nat) : Prop :=
  ∃ j, (k + j * q = n ∧ j * q ≤ String.length a) ∨ (k = S j * q ∧ j * q ≤ String.length a).

Lemma visited_turn k : String.length b2 ≤ String.length b1 → visited k →
  ∃ piece k', pem_turn content (str_drop k content) = PemGo piece k' ∧ visited k'.
Proof.
  intros Hle [j Hj]. pose proof b1_length. assert (k ≤ n + String.length s) as Hk by (unfold n, q in *; lia).
  destruct (decide (k ≤ String.length a)) as [Hb|Hb].
  - rewrite turn_before by done. eexists _, _. split; [reflexivity|]. destruct Hj as [[E Hja]|[E Hja]].
    + destruct j as [|j]; [unfold n in *; lia|]. exists j. right. split; [lia|]. simpl in Hja. lia.
    + exists (S j). left. split; [unfold n in *; lia|lia].
  - rewrite turn_between by lia. eexists _, _. split; [reflexivity|]. exists j. destruct Hj as [[E Hja]|[E Hja]].
    + right. split; [simpl; lia|done].
    + left. split; [simpl in E; unfold n in *; lia|done].
Qed.

Lemma two_keys_run : String.length b2 ≤ String.length b1 → redact_pem_blocks content = Runs.
Proof.
  intros Hle. assert (∀ fuel k out, visited k → pem_loop fuel content (str_drop k content) out = Runs) as Hloop.
  { intros fuel. induction fuel as [|fuel IH]; intros k out Hk; [done|]. cbn [pem_loop].
    destruct (visited_turn k Hle Hk) as (piece & k' & -> & Hk'). by apply IH. }
  unfold redact_pem_blocks, pem_fuel. rewrite Nat.add_comm. cbn [Nat.add pem_loop].
  change (pem_turn content content) with (pem_turn content (str_drop 0 content)). rewrite turn_before by lia.
  rewrite Nat.sub_0_r. apply (Hloop (S _)). exists 0. left. lia.
Qed.

Lemma two_keys_leak : n < String.length b2 →
  redact_pem_blocks content
  = Returns (a +:+ REDACTION_PLACEHOLDER +:+ s +:+ REDACTION_PLACEHOLDER +:+ str_drop (String.length b2 - n) b2 +:+ z).
Proof.
  intros Hlt. unfold redact_pem_blocks, pem_fuel. pose proof content_length. pose proof b1_length.
  destruct (String.length content) as [|m]; [lia|].
  replace (S m + 2) with (S (S (S m))) by lia. cbn [pem_loop].
  change (pem_turn content content) with (pem_turn content (str_drop 0 content)). rewrite turn_before by lia.
  rewrite Nat.sub_0_r, turn_between by (unfold n; lia). replace (n + q - n) with q by lia.
  replace (n - String.length a) with (String.length b1) by (unfold n; lia). rewrite str_drop_app.
  assert (str_drop q content = str_drop (String.length b2 - n) b2 +:+ z) as ->.
  { assert (content = (a +:+ b1 +:+ s) +:+ b2 +:+ z) as -> by (unfold content; by rewrite <-!str_app_assoc).
    replace q with (String.length (a +:+ b1 +:+ s) + (String.length b2 - n)) by (unfold q; rewrite !str_length_app; unfold n in *; lia).
    rewrite <-str_drop_drop. rewrite (str_drop_app (a +:+ b1 +:+ s)), str_drop_app_le by lia. done. }
  rewrite pem_turn_rest; [by rewrite <-!str_app_assoc|].
  replace (String.length b2 - n) with (1 + (String.length b2 - n - 1)) by (unfold n in *; lia).
  rewrite <-str_drop_drop, <-str_drop_app_le; [|rewrite str_length_drop; lia].
  apply str_contains_drop; [rewrite str_length_app, str_length_drop; lia|done].
Qed.
End two_keys.

(* ------------------------------------------------------------------ *)
(** * What the detectors find *)

(** Somewhere in the text the marker is followed by what the detector takes for
    a secret. *)
Definition occurs (marker : string) (span : string → option nat) (content : string) : Prop :=
  ∃ j, j ≤ String.length content ∧ starts_with marker (str_drop j content) = true ∧ is_Some (span (str_drop j content)).

(** A marker the loop jumps over, because it begins within one that was kept,
    would not have fired either. *)
Definition no_skip (marker : string) (span : string → option nat) : Prop :=
  ∀ t j, 0 < j → j < String.length marker → starts_with marker (str_drop j (marker +:+ t)) = true →
    span (marker +:+ t) = None → span (str_drop j (marker +:+ t)) = None.

Section spans.
Context (marker : string) (span : string → option nat).
Hypothesis nonempty : 0 < String.length marker.
Hypothesis skips : no_skip marker span.

Lemma span_loop_hit fuel rest : String.length rest < fuel → (span_loop fuel marker span rest).2 = true ↔ occurs marker span rest.
Proof using nonempty skips.
  revert rest. induction fuel as [|fuel IH]; intros rest Hf; [lia|]. cbn [span_loop].
  destruct (str_find marker rest) as [rel|] eqn:Efind.
  - apply str_find_Some in Efind as (Hrel & Hbefore & Hle). set (here := str_drop rel rest) in *.
    destruct (span here) as [len|] eqn:Espan.
    + destruct (span_loop _ _ _ _) as [o h]. split; [intros _|done]. by exists rel.
    + assert (String.length here = String.length rest - rel) as Hl by apply str_length_drop.
      pose proof (starts_with_length _ _ Hrel) as Hm.
      specialize (IH (str_drop (String.length marker) here)). rewrite str_length_drop in IH. specialize (IH ltac:(lia)).
      destruct (span_loop fuel marker span (str_drop (String.length marker) here)) as [o h]. cbn [snd] in *. rewrite IH.
      pose proof Hrel as (t & Ht)%starts_with_iff. clear IH. split; intros (j & Hj & Hsj & Hspan).
      * exists (rel + String.length marker + j). rewrite <-!str_drop_drop. fold here. rewrite str_length_drop in Hj.
        split_and!; [lia|done|done].
      * destruct (decide (j < rel)) as [Hlt|Hge]; [by rewrite Hbefore in Hsj|].
        replace j with (rel + (j - rel)) in Hsj, Hspan by lia. rewrite <-str_drop_drop in Hsj, Hspan. fold here in Hsj, Hspan.
        destruct (decide (j - rel = 0)) as [E|Hne]; [rewrite E in Hspan; simpl in Hspan; rewrite Espan in Hspan; by destruct Hspan|].
        destruct (decide (j - rel < String.length marker)) as [Hin|Hout].
        -- rewrite Ht in Hsj, Hspan, Espan. rewrite (skips t (j - rel)) in Hspan by (done || lia). by destruct Hspan.
        -- exists (j - rel - String.length marker). rewrite str_drop_drop, str_length_drop.
           replace (String.length marker + _) with (j - rel) by lia. split_and!; [lia|done|done].
  - split; [done|]. intros (j & Hj & Hs & _). rewrite str_find_None in Efind. by rewrite Efind in Hs.
Qed.

Lemma redact_spans_fires content : is_Some (redact_spans marker span content) ↔ occurs marker span content.
Proof using nonempty skips.
  unfold redact_spans. pose proof (span_loop_hit (S (String.length content)) content ltac:(lia)) as H.
  destruct (span_loop _ _ _ _) as [o [|]]; cbn [snd] in H; split; intros Hx; [by apply H|by eexists|by destruct Hx|by apply H in Hx].
Qed.
End spans.

Ltac no_overlap := intros t j Hj0 Hj Hs; exfalso; revert Hs; unfold AWS_AKIA_PREFIX in *; simpl in Hj;
  do 12 (destruct j as [|j]; [try lia; vm_compute; done|]); lia.

Section exact.
Context {L : Log2}.

Lemma prefixes_no_skip : Forall (λ pk, 0 < String.length pk.1 ∧ no_skip pk.1 (prefixed_span pk.1)) prefix_detectors.
Proof. repeat constructor; simpl; try lia; no_overlap. Qed.

Lemma jwt_no_skip : no_skip JWT_HEADER_MARKER jwt_span.
Proof. no_overlap. Qed.

Lemma all_upper_take n m s : n ≤ m → all_upper_or_digit (str_take m s) = true → all_upper_or_digit (str_take n s) = true.
Proof.
  revert n m. induction s as [|c s IH]; intros [|n] [|m] Hn; simpl; try done; [lia|].
  rewrite !andb_true_iff. intros [Hc Hs]. split; [done|]. apply (IH n m); [lia|done].
Qed.

(** [AKIA] ends as it begins, but sixteen capitals behind the second are
    sixteen behind the first. *)
Lemma aws_no_skip : no_skip AWS_AKIA_PREFIX aws_span.
Proof.
  intros t j Hj0 Hj Hs. simpl in Hj. destruct j as [|[|[|[|j]]]]; [lia|by vm_compute in Hs..| |lia].
  change (starts_with "KIA" t = true) in Hs. apply starts_with_iff in Hs as [u ->].
  assert (∀ here, aws_span (AWS_AKIA_PREFIX +:+ here) =
    if (16 <=? String.length (token_at here))%nat && all_upper_or_digit (str_take 16 (token_at here)) then Some 20 else None)
    as Haws by done.
  change (str_drop 3 (AWS_AKIA_PREFIX +:+ "KIA" +:+ u)) with (AWS_AKIA_PREFIX +:+ u). rewrite !Haws.
  change (token_at ("KIA" +:+ u)) with ("KIA" +:+ token_at u). generalize (token_at u) as tk. clear. intros tk.
  destruct ((16 <=? String.length tk)%nat && all_upper_or_digit (str_take 16 tk)) eqn:E; [|done].
  apply andb_true_iff in E as [Hlen%Nat.leb_le Hup]. apply (all_upper_take 13) in Hup; [|lia].
  assert ((16 <=? String.length ("KIA" +:+ tk))%nat = true) as -> by (apply Nat.leb_le; rewrite str_length_app; lia).
  assert (str_take 16 ("KIA" +:+ tk) = ("KIA" +:+ str_take 13 tk)) as -> by done.
  change (all_upper_or_digit ("KIA" +:+ str_take 13 tk)) with (all_upper_or_digit (str_take 13 tk)). by rewrite Hup.
Qed.

(** What the screen is after. *)
Definition holds_secret (content : string) : Prop :=
  str_contains PEM_BEGIN_MARKER content && str_contains PEM_PRIVATE_KEY_MARKER content = true
  ∨ Exists (λ pk, occurs pk.1 (prefixed_span pk.1) content) prefix_detectors
  ∨ occurs AWS_AKIA_PREFIX aws_span content
  ∨ occurs JWT_HEADER_MARKER jwt_span content.

(** A detector that does not fire changes nothing, one that does is recorded. *)
Lemma detect_quiet kind redact st : redact st.1 = None → detect kind redact st = st.
Proof. unfold detect. by intros ->. Qed.

Lemma detect_kinds kind redact st : (detect kind redact st).2 = [] ↔ st.2 = [] ∧ redact st.1 = None.
Proof.
  unfold detect. destruct (redact st.1) as [after|]; simpl; [|naive_solver].
  split; [|naive_solver]. intros H. by destruct st.2.
Qed.

Lemma detect_kinds_keep kind redact st : st.2 ≠ [] → (detect kind redact st).2 ≠ [].
Proof. rewrite detect_kinds. tauto. Qed.

Lemma prefixes_kinds_gen ds content st : st.1 = content →
  (fold_left (λ st '(prefix, kind), detect kind (redact_prefixed_tokens prefix) st) ds st).2 = []
  ↔ st.2 = [] ∧ Forall (λ pk, redact_prefixed_tokens pk.1 content = None) ds.
Proof.
  revert content st. induction ds as [|[prefix kind] ds IH]; intros content st Hst; simpl; [split; [by split|tauto]|].
  rewrite Forall_cons. destruct (redact_prefixed_tokens prefix st.1) as [o|] eqn:E.
  - rewrite (IH _ _ eq_refl), detect_kinds. subst. naive_solver.
  - rewrite detect_quiet by done. rewrite (IH content st Hst). subst. naive_solver.
Qed.
Lemma prefixes_quiet ds content kinds : Forall (λ pk, redact_prefixed_tokens pk.1 content = None) ds →
  fold_left (λ st '(prefix, kind), detect kind (redact_prefixed_tokens prefix) st) ds (content, kinds) = (content, kinds).
Proof. intros H. induction H as [|[prefix kind] ds Hx _ IH]; simpl; [done|]. by rewrite detect_quiet. Qed.

Lemma none_iff_absent {P : Prop} (o : option string) : (is_Some o ↔ P) → (o = None ↔ ¬ P).
Proof. intros <-. destruct o; [split; [done|intros H; by destruct H]|]. split; [intros _ [? ?]; done|done]. Qed.

Lemma prefixes_absent content :
  Forall (λ pk, redact_prefixed_tokens pk.1 content = None) prefix_detectors
  ↔ ¬ Exists (λ pk, occurs pk.1 (prefixed_span pk.1) content) prefix_detectors.
Proof.
  rewrite <-Forall_Exists_neg, !Forall_forall. pose proof prefixes_no_skip as Hn. rewrite Forall_forall in Hn.
  split; intros H pk Hpk; specialize (H pk Hpk); destruct (Hn pk Hpk) as [Hpos Hskip];
    by apply (none_iff_absent _ (redact_spans_fires _ _ Hpos Hskip content)).
Qed.

(** What the detectors behind the key blocks make of a text. *)
Definition detect_all (pem : string * list string) : string * list string :=
  detect KIND_JWT redact_jwts
    (detect KIND_AWS_ACCESS_KEY redact_aws_keys
       (fold_left (λ st '(prefix, kind), detect kind (redact_prefixed_tokens prefix) st) prefix_detectors pem)).

Lemma detect_all_kinds content kinds :
  (detect_all (content, kinds)).2 = []
  ↔ kinds = [] ∧ Forall (λ pk, redact_prefixed_tokens pk.1 content = None) prefix_detectors
    ∧ redact_aws_keys content = None ∧ redact_jwts content = None.
Proof.
  unfold detect_all. rewrite !detect_kinds, (prefixes_kinds_gen _ content) by done. cbn [snd]. split.
  - intros [[[-> Hp] Ha] Hj]. rewrite prefixes_quiet in Ha, Hj by done. by rewrite detect_quiet in Hj.
  - intros (-> & Hp & Ha & Hj). rewrite prefixes_quiet by done. by rewrite detect_quiet.
Qed.

Lemma screen_eq content :
  screen content =
  (pem ← (if str_contains PEM_BEGIN_MARKER content && str_contains PEM_PRIVATE_KEY_MARKER content
          then (λ r, (r, [KIND_PEM_PRIVATE_KEY])) <$> redact_pem_blocks content
          else mret (content, []));
   mret (if is_nil (detect_all pem).2 then Clean else Hit (foldr insert_kind [] (detect_all pem).2) (detect_all pem).1)).
Proof.
  unfold screen, detect_all. destruct (str_contains _ _ && _); [destruct (redact_pem_blocks content); [|done..]|];
    cbn [fmap Run_fmap mbind Run_bind mret Run_ret]; by destruct (detect KIND_JWT _ _).
Qed.

(** C11: the screen passes exactly the texts with nothing in them it is after,
    searched anywhere: no begin marker together with a private key marker, no
    token of twenty or more dense characters behind one of five prefixes, no
    access key of sixteen capitals and digits, no web token of three long parts.
    That the loops jump over what they judged, and that a later detector reads
    what an earlier one rewrote, hides nothing. *)
Theorem screen_clean_exact content : screen content = Returns Clean ↔ ¬ holds_secret content.
Proof.
  assert (redact_aws_keys content = None ↔ ¬ occurs AWS_AKIA_PREFIX aws_span content) as Haws
    by (apply none_iff_absent, redact_spans_fires; [by vm_compute; lia|apply aws_no_skip]).
  assert (redact_jwts content = None ↔ ¬ occurs JWT_HEADER_MARKER jwt_span content) as Hjwt
    by (apply none_iff_absent, redact_spans_fires; [by vm_compute; lia|apply jwt_no_skip]).
  rewrite screen_eq. unfold holds_secret. destruct (_ && _) eqn:Epem.
  - split; [|naive_solver]. destruct (redact_pem_blocks content) as [r| |]; [|done..]. simpl.
    destruct (detect_all (r, _)).2 eqn:E; [by apply detect_all_kinds in E as [? _]|done].
  - pose proof (detect_all_kinds content []) as Hk. cbn [mbind Run_bind mret Run_ret].
    rewrite prefixes_absent, Haws, Hjwt in Hk. destruct (detect_all (content, [])).2 as [|k ks]; simpl.
    + split; [intros _|done]. destruct Hk as [Hk _]. specialize (Hk eq_refl). intros [?|H]; [done|tauto].
    + split; [done|]. intros H. exfalso. assert (k :: ks = []) as ?; [apply Hk|done]. tauto.
Qed.
End exact.

(** C9: a text with one private key comes out with the key masked and nothing
    else changed. With a second one the loop loses its place, for it counts the
    end of a block from where the block was searched and resumes there from the
    start of the text. If the second key is no longer than the first, the call
    never comes back, whatever precedes, separates and follows the keys; if it is
    longer than the first key and all that precedes it together, the text comes
    out with the last bytes of the second key in it, as many as those two have.
    Texts are ASCII, and nothing in them but the keys begins like one. *)
Theorem pem_redaction_exact {L : Log2} a s z h1 k1 h2 k2 :
  key_block_ok h1 k1 → key_block_ok h2 k2 →
  let b1 := key_block h1 k1 in let b2 := key_block h2 k2 in
  let one := a +:+ b1 +:+ s in let two := a +:+ b1 +:+ s +:+ b2 +:+ z in
  let n := String.length a + String.length b1 in
  ascii_text one = true → ascii_text two = true →
  free_of PEM_BEGIN_MARKER a = true → free_of PEM_BEGIN_MARKER (str_drop 1 b1 +:+ s) = true →
  str_contains PEM_BEGIN_MARKER (str_drop 1 b2 +:+ z) = false →
  redact_pem_blocks one = Returns (a +:+ REDACTION_PLACEHOLDER +:+ s)
  ∧ (String.length b2 ≤ String.length b1 → screen two = Runs ∧ ∀ fuel, pem_loop fuel two two "" = Runs)
  ∧ (n < String.length b2 →
     redact_pem_blocks two
     = Returns (a +:+ REDACTION_PLACEHOLDER +:+ s +:+ REDACTION_PLACEHOLDER
                +:+ str_drop (String.length b2 - n) b2 +:+ z)).
Proof.
  intros Hk1 Hk2 b1 b2 one two n Hone Htwo Ha Hs Hz. split_and!.
  - unfold redact_pem_blocks, pem_fuel. rewrite Nat.add_comm. cbn [Nat.add pem_loop].
    assert (pem_turn one one = PemGo (a +:+ REDACTION_PLACEHOLDER) (String.length a + String.length b1)) as ->.
    { apply (pem_turn_key one a h1 k1 s); [done..|]. apply ascii_boundary; [done|]. unfold one. rewrite !str_length_app. fold b1. lia. }
    assert (str_drop (String.length a + String.length b1) one = s) as ->.
    { unfold one. by rewrite <-str_drop_drop, !str_drop_app. }
    rewrite pem_turn_rest; [by rewrite <-!str_app_assoc|]. apply free_of_absent in Hs.
    apply (str_contains_drop _ (String.length (str_drop 1 b1))) in Hs; [by rewrite str_drop_app in Hs|].
    rewrite str_length_app. lia.
  - intros Hle. assert (redact_pem_blocks two = Runs) as Hruns by by apply two_keys_run.
    split; [|by apply redact_pem_runs]. unfold screen. rewrite Hruns.
    assert (∀ n, str_contains PEM_BEGIN_MARKER (key_block h1 k1 +:+ n) = true) as Hb.
    { intros t. rewrite str_contains_find. change (key_block h1 k1 +:+ t) with ("" +:+ key_block h1 k1 +:+ t).
      by rewrite find_key_block. }
    assert (∀ n, str_contains PEM_PRIVATE_KEY_MARKER (key_block h1 k1 +:+ n) = true) as Hp.
    { intros t. unfold key_block. rewrite <-!str_app_assoc, (str_app_assoc PEM_BEGIN_MARKER h1), str_contains_find.
      by rewrite find_free by apply Hk1. }
    unfold two at 1 2, b1. by rewrite !str_contains_behind by done.
  - intros Hlt. by apply two_keys_leak.
Qed.

(* ------------------------------------------------------------------ *)
(** * Screening what was screened *)

(** The logarithm is exact on the powers of two from one down to 2^-52. *)
Class Log2Law (L : Log2) : Prop :=
  log2_power : ∀ k, (0 ≤ k ≤ 52)%Z → log2 (S754_finite false 4503599627370496 (-52 - k)) = f64_of_Z (- k).

(** That much of it, to compute with. *)
Definition log2_powers : Log2 := λ x,
  match x with
  | S754_finite false 4503599627370496 e => f64_of_Z (e + 52)
  | _ => S754_nan
  end.

Definition is_power (x : f64) : bool :=
  match x with S754_finite false 4503599627370496 e => (-104 <=? e)%Z && (e <=? -52)%Z | _ => false end.

(** All frequencies in the token are powers of two. *)
Definition powers_only (token : string) : bool :=
  forallb (λ c, (c =? 0)%nat || is_power (f64_div (f64_of_Z (Z.of_nat c)) (f64_of_Z (byte_len token)))) (byte_counts token).

Section reference.
Context {L : Log2} {LL : Log2Law L}.

Lemma log2_is_power x : is_power x = true → log2 x = @log2 log2_powers x.
Proof using LL.
  unfold is_power. intros H. repeat (case_match; try done). apply andb_true_iff in H as [Hlo%Z.leb_le Hhi%Z.leb_le].
  cbn. rewrite <-(Z.opp_involutive (e + 52)), <-log2_power by lia. repeat f_equal. lia.
Qed.

Lemma shannon_reference token : powers_only token = true → shannon_entropy_bits token = @shannon_entropy_bits log2_powers token.
Proof using LL.
  unfold powers_only, shannon_entropy_bits. intros H. destruct (str_is_empty token); [done|].
  generalize f64_zero as h. induction (byte_counts token) as [|c cs IH]; intros h; [done|]. simpl in H |- *.
  apply andb_true_iff in H as [Hc Hcs]. destruct c as [|c]; [by apply IH|]. simpl in Hc |- *.
  rewrite log2_is_power by done. by apply IH.
Qed.

(** All tokens behind the prefix are such. *)
Definition powers_behind (prefix content : string) : bool :=
  forallb (λ j, if starts_with prefix (str_drop j content)
                then powers_only (token_at (str_drop (String.length prefix) (str_drop j content))) else true)
    (seq 0 (S (String.length content))).

Lemma span_loop_ext marker span span' fuel rest :
  0 < String.length marker →
  (∀ j, j ≤ String.length rest → starts_with marker (str_drop j rest) = true → span (str_drop j rest) = span' (str_drop j rest)) →
  span_loop fuel marker span rest = span_loop fuel marker span' rest.
Proof.
  intros Hpos. revert rest. induction fuel as [|fuel IH]; intros rest Hext; [done|]. cbn [span_loop].
  destruct (str_find marker rest) as [rel|] eqn:E; [|done]. apply str_find_Some in E as (Hs & _ & Hle).
  rewrite <-Hext by done.
  assert (∀ k, span_loop fuel marker span (str_drop k (str_drop rel rest)) = span_loop fuel marker span' (str_drop k (str_drop rel rest))) as Hk.
  { intros k. apply IH. intros j Hj Hsj. rewrite !str_drop_drop in *. apply Hext; [|done].
    destruct (decide (rel + k + j ≤ String.length rest)) as [?|Hlong]; [lia|].
    apply starts_with_length in Hsj. rewrite str_length_drop in Hsj. lia. }
  destruct (span (str_drop rel rest)); by rewrite Hk.
Qed.

Lemma prefixed_reference prefix content : 0 < String.length prefix → powers_behind prefix content = true →
  redact_prefixed_tokens prefix content = @redact_prefixed_tokens log2_powers prefix content.
Proof using LL.
  intros Hpos Hp. unfold redact_prefixed_tokens, redact_spans. rewrite (span_loop_ext _ _ (@prefixed_span log2_powers prefix)); [done..|].
  intros j Hj Hs. unfold powers_behind in Hp. rewrite forallb_forall in Hp. specialize (Hp j).
  rewrite Hs in Hp. unfold prefixed_span. rewrite shannon_reference; [done|]. apply Hp. apply in_seq. lia.
Qed.

(** Along a run of the detectors. *)
Fixpoint powers_along (ds : list (string * string)) (st : string * list string) : bool :=
  match ds with
  | [] => true
  | (prefix, kind) :: ds =>
      (0 <? String.length prefix)%nat && powers_behind prefix st.1
      && powers_along ds (detect kind (@redact_prefixed_tokens log2_powers prefix) st)
  end.

Lemma prefixes_reference ds st : powers_along ds st = true →
  fold_left (λ st '(prefix, kind), detect kind (redact_prefixed_tokens prefix) st) ds st
  = fold_left (λ st '(prefix, kind), detect kind (@redact_prefixed_tokens log2_powers prefix) st) ds st.
Proof using LL.
  revert st. induction ds as [|[prefix kind] ds IH]; intros st H; [done|]. cbn [powers_along] in H.
  apply andb_true_iff in H as [[Hpos%Nat.ltb_lt Hp]%andb_true_iff Hds]. cbn [fold_left].
  unfold detect at 2 4. rewrite prefixed_reference by done. apply (IH _ Hds).
Qed.

Lemma screen_reference content :
  str_contains PEM_BEGIN_MARKER content = false → powers_along prefix_detectors (content, []) = true →
  screen content = @screen log2_powers content.
Proof using LL. intros Hpem H. unfold screen. rewrite Hpem. cbn [andb mbind Run_bind mret Run_ret]. by rewrite prefixes_reference. Qed.
End reference.

Fixpoint repeated (n : nat) (s : string) : string := match n with O => "" | S n => s +:+ repeated n s end.

(** A token too plain to be taken for a key, with an access key in it that
    splits off a dense head. *)
Definition plain_token (middle : string) : string :=
  "sk-" +:+ repeated 2 "abcdefghijlmnopq" +:+ middle +:+ repeated 46 "A" +:+ repeated 15 "K" +:+ repeated 15 "I".

Definition twice_screened : string :=
  REDACTION_PLACEHOLDER +:+ REDACTION_PLACEHOLDER +:+ repeated 46 "A" +:+ repeated 15 "K" +:+ repeated 15 "I".

Lemma screen_not_idempotent {L : Log2} {LL : Log2Law L} :
  screen (plain_token ("AKIA" +:+ repeated 16 "A")) = Returns (Hit [KIND_AWS_ACCESS_KEY] (plain_token REDACTION_PLACEHOLDER))
  ∧ screen (plain_token REDACTION_PLACEHOLDER) = Returns (Hit [KIND_OPENAI_KEY] twice_screened).
Proof.
  split; (rewrite screen_reference; [vm_compute; reflexivity|vm_compute; reflexivity|vm_compute; reflexivity]).
Qed.

(* ------------------------------------------------------------------ *)
(** * Demonstration *)

Definition demo_key (body : string) : string := key_block " RSA " body.

Lemma pem_redaction_exact_witness :
  redact_pem_blocks ("id=" +:+ demo_key "AAAA" +:+ ";") = Returns ("id=" +:+ REDACTION_PLACEHOLDER +:+ ";")
  ∧ @screen log2_powers ("id=" +:+ demo_key "AAAA" +:+ ";" +:+ demo_key "BBBB" +:+ ".") = Runs.
Proof.
  destruct (pem_redaction_exact (L := log2_powers) "id=" ";" "." " RSA " "AAAA" " RSA " "BBBB") as (H1 & H2 & _);
    [split; by vm_compute|split; by vm_compute|by vm_compute..|].
  split; [exact H1|]. apply H2. by apply Nat.eq_le_incl.
Defined.
