(* ===== verification/Clock.v ===== *)
(** Vector clocks: the per-peer latest timestamps of a replica, their merge
    and their causality order ([VectorClock] of [src/src/models/link.rs]). *)
From S2P Require Import Prelude.
From S2P Require Import BTree.
From S2P Require Import Json.

(* ------------------------------------------------------------------ *)
(** * Definitions *)

Record VectorClock : Type := mkClock { entries : btree string }.

Definition clock_empty : VectorClock := mkClock [].

#[global] Instance VectorClock_eq_dec : EqDecision VectorClock.
Proof. solve_decision. Defined.

Module VectorClock.
(** [entry(peer).and_modify(keep the later).or_insert(at)] *)
Definition observe (self : VectorClock) (peer_id at_ : string) : VectorClock :=
  mkClock
    match bget peer_id (entries self) with
    | Some existing =>
        if at_ >?s existing then binsert peer_id at_ (entries self) else entries self
    | None => binsert peer_id at_ (entries self)
    end.

Definition latest_from (self : VectorClock) (peer_id : string) : option string :=
  bget peer_id (entries self).

(** The timestamp of a peer, the empty text when it was never seen. *)
Definition at_peer (self : VectorClock) (peer_id : string) : string :=
  default "" (bget peer_id (entries self)).

Definition merge (self other : VectorClock) : VectorClock :=
  fold_left (λ c '(peer, at_), observe c peer at_) (entries other) self.

Inductive Causality : Type := Equal | HappensBefore | HappensAfter | Concurrent.

(** The loop over the keys of both clocks with its two flags. *)
Fixpoint causality_loop (self other : VectorClock) (peers : list string)
    (self_le_other other_le_self : bool) : bool * bool :=
  match peers with
  | [] => (self_le_other, other_le_self)
  | peer :: peers' =>
      let s := at_peer self peer in
      let o := at_peer other peer in
      causality_loop self other peers'
        (if s >?s o then false else self_le_other)
        (if o >?s s then false else other_le_self)
  end.

Definition causality (self other : VectorClock) : Causality :=
  if decide (self = other) then Equal
  else
    match causality_loop self other (bkeys (entries self) ++ bkeys (entries other)) true true with
    | (true, true) => Equal
    | (true, false) => HappensBefore
    | (false, true) => HappensAfter
    | (false, false) => Concurrent
    end.

#[global] Instance Causality_eq_dec : EqDecision Causality.
Proof. solve_decision. Defined.

Definition happens_before (self other : VectorClock) : bool :=
  bool_decide (causality self other = HappensBefore).
Definition concurrent_with (self other : VectorClock) : bool :=
  bool_decide (causality self other = Concurrent).
End VectorClock.

(** The derived [Serialize]/[Deserialize] of a clock inside JSON metadata. *)
Class ClockSerde : Type := {
  clock_to_value : VectorClock → value;
  clock_from_value : value → option VectorClock
}.

Definition clock_wf (c : VectorClock) : Prop := bwf (entries c).

(** What the derived code promises: a clock written is read back, and what is
    read is a well-formed clock. *)
Class ClockSerdeLaws (S : ClockSerde) : Prop := {
  clock_roundtrip : ∀ c, clock_wf c → clock_from_value (clock_to_value c) = Some c;
  clock_read_wf : ∀ v c, clock_from_value v = Some c → clock_wf c
}.

(** The order the clocks are compared by: pointwise, with an unseen peer below
    every timestamp. *)
Definition clock_le (a b : VectorClock) : Prop :=
  ∀ p, (VectorClock.at_peer a p ≤ VectorClock.at_peer b p)%string.

(* ------------------------------------------------------------------ *)
(** * Lemmas *)

(** The join of one entry: the later of two timestamps, if any. *)
Definition opt_join (a b : option string) : option string :=
  match a, b with
  | Some x, Some y => Some (str_max x y)
  | Some x, None => Some x
  | None, o => o
  end.

Lemma opt_join_comm a b : opt_join a b = opt_join b a.
Proof. destruct a, b; simpl; try done. by rewrite join_comm. Qed.
Lemma opt_join_assoc a b c : opt_join a (opt_join b c) = opt_join (opt_join a b) c.
Proof. destruct a, b, c; simpl; try done. by rewrite join_assoc. Qed.
Lemma opt_join_idemp a : opt_join a a = a.
Proof. destruct a; simpl; [|done]. by rewrite join_idemp. Qed.

Lemma observe_lookup c p t k :
  bget k (entries (VectorClock.observe c p t)) =
  if decide (k = p) then opt_join (bget k (entries c)) (Some t) else bget k (entries c).
Proof.
  unfold VectorClock.observe. simpl. case_decide as Hk; subst.
  - destruct (bget p (entries c)) as [e|] eqn:E; simpl; [|by rewrite bget_insert_eq].
    unfold str_max. destruct (t >?s e); by rewrite ?bget_insert_eq, ?E.
  - destruct (bget p (entries c)) as [e|]; [destruct (t >?s e)|];
      by rewrite ?bget_insert_ne.
Qed.

Lemma observe_wf c p t : clock_wf c → clock_wf (VectorClock.observe c p t).
Proof.
  unfold clock_wf, VectorClock.observe. simpl. intros. repeat case_match; auto with mem.
Qed.

Lemma merge_wf a b : clock_wf a → clock_wf (VectorClock.merge a b).
Proof.
  unfold VectorClock.merge. generalize (entries b) as l. intros l. revert a.
  induction l as [|[p t] l IH]; intros a Ha; simpl; [done|]. by apply IH, observe_wf.
Qed.

Lemma merge_lookup a b k :
  clock_wf b →
  bget k (entries (VectorClock.merge a b)) = opt_join (bget k (entries a)) (bget k (entries b)).
Proof.
  unfold VectorClock.merge, clock_wf. generalize (entries b) as l. intros l. revert a.
  induction l as [|[p t] l IH]; intros a Hb; simpl.
  - by destruct (bget k (entries a)).
  - rewrite IH by (by apply bwf_cons in Hb as []). rewrite observe_lookup.
    case_decide; subst; [|done].
    rewrite (bwf_head_fresh _ _ _ Hb). by destruct (bget p (entries a)).
Qed.

Lemma clock_ext a b :
  clock_wf a → clock_wf b → (∀ k, bget k (entries a) = bget k (entries b)) → a = b.
Proof.
  destruct a as [ea], b as [eb]. unfold clock_wf. simpl. intros. f_equal. by apply btree_eq.
Qed.

Lemma str_empty_le s : ("" ≤ s)%string.
Proof. unfold String.le, String.leb. by destruct s. Qed.

Lemma at_peer_merge a b p :
  clock_wf b →
  VectorClock.at_peer (VectorClock.merge a b) p =
  str_max (VectorClock.at_peer a p) (VectorClock.at_peer b p).
Proof.
  intros Hb. unfold VectorClock.at_peer. rewrite merge_lookup by done.
  destruct (bget p (entries a)) as [x|], (bget p (entries b)) as [y|]; simpl; try done;
    unfold str_max; split_strings; try done.
  - exfalso. apply E, str_empty_le.
  - by apply str_le_antisym; [|apply str_empty_le].
Qed.

(** The loop's flags record whether each pointwise comparison held so far. *)
Lemma causality_loop_spec a b ps x y :
  let '(le_ab, le_ba) := VectorClock.causality_loop a b ps x y in
  (le_ab = true ↔ x = true ∧
     Forall (λ p, VectorClock.at_peer a p ≤ VectorClock.at_peer b p)%string ps)
  ∧ (le_ba = true ↔ y = true ∧
     Forall (λ p, VectorClock.at_peer b p ≤ VectorClock.at_peer a p)%string ps).
Proof.
  revert x y. induction ps as [|p ps IH]; intros x y; cbn -[str_gtb].
  - rewrite !Forall_nil. naive_solver.
  - specialize (IH (if VectorClock.at_peer a p >?s VectorClock.at_peer b p then false else x)
                   (if VectorClock.at_peer b p >?s VectorClock.at_peer a p then false else y)).
    destruct (VectorClock.causality_loop a b ps _ _) as [u v]. destruct IH as [-> ->].
    rewrite !Forall_cons. split; split_strings; naive_solver.
Qed.

(** Outside the keys of both clocks every entry is the empty text. *)
Lemma clock_le_keys a b :
  clock_le a b ↔
  Forall (λ p, VectorClock.at_peer a p ≤ VectorClock.at_peer b p)%string
    (bkeys (entries a) ++ bkeys (entries b)).
Proof.
  rewrite Forall_forall. unfold clock_le. split; [naive_solver|]. intros H p.
  destruct (decide (p ∈ bkeys (entries a))) as [Hp|Hp].
  - apply H, elem_of_app. by left.
  - unfold VectorClock.at_peer at 1. rewrite bget_keys_None by done. apply str_empty_le.
Qed.

(* ------------------------------------------------------------------ *)
(** * Theorems *)

(** Clock merge is a join semilattice: on well-formed clocks it is
    commutative, associative and idempotent, keeps them well-formed, and the
    result is the least clock above both, so replicas that exchange clocks in
    any order and any number of times agree. *)
Lemma clock_merge_semilattice a b c :
  clock_wf a → clock_wf b → clock_wf c →
  clock_wf (VectorClock.merge a b)
  ∧ VectorClock.merge a b = VectorClock.merge b a
  ∧ VectorClock.merge a (VectorClock.merge b c) = VectorClock.merge (VectorClock.merge a b) c
  ∧ VectorClock.merge a a = a
  ∧ clock_le a (VectorClock.merge a b) ∧ clock_le b (VectorClock.merge a b)
  ∧ (clock_le a c → clock_le b c → clock_le (VectorClock.merge a b) c).
Proof.
  intros Ha Hb Hc.
  assert (∀ x y, clock_wf x → clock_wf y → clock_wf (VectorClock.merge x y)) as Hwf
    by (intros; by apply merge_wf).
  split_and!.
  - auto.
  - apply clock_ext; [auto..|]. intros k. rewrite !merge_lookup by auto. apply opt_join_comm.
  - apply clock_ext; [auto..|]. intros k. rewrite !merge_lookup by auto. apply opt_join_assoc.
  - apply clock_ext; [auto..|]. intros k. rewrite !merge_lookup by auto. apply opt_join_idemp.
  - intros p. rewrite at_peer_merge by done. apply str_max_le_l.
  - intros p. rewrite at_peer_merge by done. apply str_max_le_r.
  - intros Hac Hbc p. rewrite at_peer_merge by done. unfold str_max. by case_match.
Qed.

(** [causality] decides the pointwise order: equal, strictly before,
    strictly after or incomparable, exactly as the two clocks' entries are
    ordered, an unseen peer counting as the empty timestamp. *)
Lemma causality_spec a b :
  match VectorClock.causality a b with
  | VectorClock.Equal => clock_le a b ∧ clock_le b a
  | VectorClock.HappensBefore => clock_le a b ∧ ¬ clock_le b a
  | VectorClock.HappensAfter => ¬ clock_le a b ∧ clock_le b a
  | VectorClock.Concurrent => ¬ clock_le a b ∧ ¬ clock_le b a
  end.
Proof.
  unfold VectorClock.causality. case_decide as Heq; [subst; by split; intros p|].
  pose proof (causality_loop_spec a b (bkeys (entries a) ++ bkeys (entries b)) true true) as Hloop.
  destruct (VectorClock.causality_loop _ _ _ _ _) as [le_ab le_ba].
  assert (Forall (λ p, VectorClock.at_peer b p ≤ VectorClock.at_peer a p)%string
    (bkeys (entries a) ++ bkeys (entries b)) ↔ clock_le b a) as Hba.
  { rewrite clock_le_keys, !Forall_app. naive_solver. }
  pose proof (clock_le_keys a b) as Hab.
  rewrite Hba, <-Hab in Hloop. destruct Hloop as [H1 H2].
  destruct le_ab, le_ba; naive_solver.
Qed.

(* ------------------------------------------------------------------ *)
(** * Witnesses *)

Definition demo_clock_a : VectorClock := mkClock [("p", "2026-01-02"); ("q", "2026-01-01")].
Definition demo_clock_b : VectorClock := mkClock [("p", "2026-01-01"); ("r", "2026-01-05")].
Definition demo_clock_c : VectorClock := mkClock [("q", "2026-02-01")].

Lemma bwf_decide {V} (m : btree V) : bool_decide (StronglySorted str_lt (bkeys m)) = true → bwf m.
Proof. apply bool_decide_eq_true. Qed.

Lemma clock_merge_semilattice_witness :
  VectorClock.merge demo_clock_a demo_clock_b =
    mkClock [("p", "2026-01-02"); ("q", "2026-01-01"); ("r", "2026-01-05")]
  ∧ VectorClock.merge demo_clock_a demo_clock_b = VectorClock.merge demo_clock_b demo_clock_a.
Proof.
  split; [reflexivity|].
  apply (clock_merge_semilattice demo_clock_a demo_clock_b demo_clock_c);
    apply bwf_decide; vm_compute; reflexivity.
Defined.

Example causality_concurrent :
  VectorClock.causality demo_clock_a demo_clock_b = VectorClock.Concurrent.
Proof. reflexivity. Qed.
