(* ===== verification/Crdt.v ===== *)
(** Per-field reconciliation of two replicas of one memory
    ([src/src/models/crdt_merge.rs], [src/src/models/crdt_primitives.rs]) and
    the receive boundary that prepares an untrusted replica
    ([merge_inbound] of [src/src/storage/mod.rs]). *)
From Stdlib Require Import DecimalString DecimalZ.
From S2P Require Import Prelude.
From S2P Require Import BTree.
From S2P Require Import F64.
From S2P Require Import Json.
From S2P Require Import Clock.
From S2P Require Import Memory.

(* ------------------------------------------------------------------ *)
(** * Lattice primitives: [crdt_primitives.rs] *)

Module PnCounter.
Record t (T : Type) : Type := new { into_inner : T }.
Arguments new {T} into_inner.
Arguments into_inner {T} t.

(** [gtb] is the type's [PartialOrd::gt]. *)
Definition merge {T} (gtb : T → T → bool) (self other : t T) : t T :=
  if gtb (into_inner other) (into_inner self) then new (into_inner other)
  else new (into_inner self).
End PnCounter.

Module OrSet.
Record t (T : Type) : Type := new { into_inner : list T }.
Arguments new {T} into_inner.
Arguments into_inner {T} t.

Definition as_slice {T} (s : t T) : list T := into_inner s.

Fixpoint merge_loop {T} `{EqDecision T} (items out : list T) : list T :=
  match items with
  | [] => out
  | item :: items' =>
      merge_loop items' (if bool_decide (item ∈ out) then out else out ++ [item])
  end.

Definition merge {T} `{EqDecision T} (self other : t T) : t T :=
  new (merge_loop (into_inner self ++ into_inner other) []).
End OrSet.

(* ------------------------------------------------------------------ *)
(** * Metadata keys and attestation rank *)

Definition VERSION_VECTOR : string := "version_vector".
Definition ATTEST_LEVEL : string := "attest_level".
Definition GOVERNANCE : string := "governance".
Definition AGENT_ID : string := "agent_id".
Definition SCOPE : string := "scope".
Definition CONTRADICTION_CONSERVED : string := "contradiction_conserved".
Definition CONTRADICTION_SOFT_LOSER : string := "contradiction_soft_loser".
Definition CONTRADICTION_WINNER_ID : string := "contradiction_winner_id".

Inductive AttestLevel : Type := Claimed | AgentAttested.

Definition AttestLevel_as_str (l : AttestLevel) : string :=
  match l with Claimed => "claimed" | AgentAttested => "agent_attested" end.

Definition AttestLevel_rank (l : AttestLevel) : Z :=
  match l with Claimed => 0 | AgentAttested => 1 end.

Definition attest_level_of (m : Memory) : AttestLevel :=
  if decide ((json_get (mem_metadata m) ATTEST_LEVEL ≫= json_as_str)
             = Some (AttestLevel_as_str AgentAttested))
  then AgentAttested else Claimed.

Definition attest_rank (m : Memory) : Z := AttestLevel_rank (attest_level_of m).

Definition with_metadata (m : Memory) (v : value) : Memory :=
  mkMemory (mem_id m) (mem_cid m) (mem_tier m) (mem_namespace m) (mem_title m) (mem_content m)
    (mem_tags m) (mem_priority m) (mem_confidence m) (mem_source m) (mem_access_count m)
    (mem_created_at m) (mem_updated_at m) (mem_last_accessed_at m) (mem_expires_at m) v
    (mem_reflection_depth m) (mem_memory_kind m) (mem_entity_id m) (mem_persona_version m)
    (mem_citations m) (mem_source_uri m) (mem_source_span m) (mem_confidence_source m)
    (mem_confidence_signals m) (mem_confidence_decayed_at m) (mem_version m)
    (mem_lifecycle_state m).

Definition with_updated_at (m : Memory) (t : string) : Memory :=
  mkMemory (mem_id m) (mem_cid m) (mem_tier m) (mem_namespace m) (mem_title m) (mem_content m)
    (mem_tags m) (mem_priority m) (mem_confidence m) (mem_source m) (mem_access_count m)
    (mem_created_at m) t (mem_last_accessed_at m) (mem_expires_at m) (mem_metadata m)
    (mem_reflection_depth m) (mem_memory_kind m) (mem_entity_id m) (mem_persona_version m)
    (mem_citations m) (mem_source_uri m) (mem_source_span m) (mem_confidence_source m)
    (mem_confidence_signals m) (mem_confidence_decayed_at m) (mem_version m)
    (mem_lifecycle_state m).

(** Rewrites the level to [claimed] only when the key is present. *)
Definition sanitize_inbound_attestation (inbound : Memory) : Memory :=
  match mem_metadata inbound with
  | JObject obj =>
      if bcontains ATTEST_LEVEL obj
      then with_metadata inbound
             (JObject (binsert ATTEST_LEVEL (JString (AttestLevel_as_str Claimed)) obj))
      else inbound
  | _ => inbound
  end.

Definition clamp_inbound_updated_at `{Chrono} (inbound : Memory) (now_rfc3339 : string)
    (skew_secs : Z) : Memory :=
  match parse_rfc3339 now_rfc3339, parse_rfc3339 (mem_updated_at inbound) with
  | Some now, Some updated =>
      let ceiling := plus_seconds now skew_secs in
      if decide (dt_instant updated > dt_instant ceiling)%Z
      then with_updated_at inbound (to_rfc3339 ceiling)
      else inbound
  | _, _ => inbound
  end.

(* ------------------------------------------------------------------ *)
(** * Field rules *)

Definition Z_gtb (a b : Z) : bool := bool_decide (a > b)%Z.

Definition merge_counter {T} (gtb : T → T → bool) (local remote : T) : T :=
  PnCounter.into_inner (PnCounter.merge gtb (PnCounter.new local) (PnCounter.new remote)).

(** [(updated_at, attest_rank, id)] compared as a tuple. *)
Definition remote_wins_lww (local remote : Memory) : bool :=
  if mem_updated_at remote >?s mem_updated_at local then true
  else if mem_updated_at local >?s mem_updated_at remote then false
  else if Z_gtb (attest_rank remote) (attest_rank local) then true
  else if Z_gtb (attest_rank local) (attest_rank remote) then false
  else mem_id remote >?s mem_id local.

Definition lww {T} (local remote : Memory) (local_val remote_val : T) : T :=
  if remote_wins_lww local remote then remote_val else local_val.

Definition prefer_non_null_else_lww {T} (local remote : Memory) (local_val remote_val : option T) :
    option T :=
  match local_val, remote_val with
  | Some _, Some _ => lww local remote local_val remote_val
  | Some _, None => local_val
  | None, Some _ => remote_val
  | None, None => None
  end.

Definition merge_tags (local remote : list string) : list string :=
  OrSet.into_inner (OrSet.merge (OrSet.new local) (OrSet.new remote)).

Definition tier_rank (t : Tier) : Z := match t with Short => 0 | Mid => 1 | Long => 2 end.

Definition merge_tier (local remote : Tier) : Tier :=
  if Z_gtb (tier_rank remote) (tier_rank local) then remote else local.

Definition merge_expires_at (local remote : option string) : option string :=
  match local, remote with
  | Some l, Some r => if r >?s l then Some r else Some l
  | _, _ => None
  end.

Definition max_opt_string (local remote : option string) : option string :=
  match local, remote with
  | Some l, Some r => if r >?s l then Some r else Some l
  | Some l, None => Some l
  | None, Some r => Some r
  | None, None => None
  end.

Fixpoint deep_merge_json (local remote : value) (remote_wins : bool) {struct remote} : value :=
  match local, remote with
  | JObject lmap, JObject rmap =>
      JObject
        ((fix go (merged rmap : btree value) {struct rmap} : btree value :=
            match rmap with
            | [] => merged
            | (key, rval) :: rmap' =>
                go match bget key merged with
                   | Some lval => binsert key (deep_merge_json lval rval remote_wins) merged
                   | None => binsert key rval merged
                   end rmap'
            end) lmap rmap)
  | _, _ => if remote_wins then remote else local
  end.

(** Set the key to the value, or remove it when there is none. *)
Definition put_or_remove (key : string) (v : option value) (map : btree value) : btree value :=
  match v with Some x => binsert key x map | None => bremove key map end.

Section with_clock.
Context `{S : ClockSerde}.

Definition parse_version_vector (metadata : value) : VectorClock :=
  default clock_empty (json_get metadata VERSION_VECTOR ≫= clock_from_value).

Definition stamp_version_vector (metadata : value) (node_id at_ : string) : value :=
  if decide (node_id = "") then metadata
  else
    let clock := VectorClock.observe (parse_version_vector metadata) node_id at_ in
    json_insert VERSION_VECTOR (clock_to_value clock) metadata.

(** The overrides [merge_metadata] applies to the deep-merged object. *)
Definition metadata_overrides (local remote : value) (remote_wins : bool) (map : btree value) :
    btree value :=
  let map := put_or_remove AGENT_ID (json_get local AGENT_ID) map in
  let scope_winner :=
    match json_get local SCOPE, json_get remote SCOPE with
    | Some l, Some r => Some (if remote_wins then r else l)
    | Some l, None => Some l
    | None, r => r
    end in
  let map := put_or_remove SCOPE scope_winner map in
  let map := put_or_remove GOVERNANCE (json_get local GOVERNANCE) map in
  let merged_vc := VectorClock.merge (parse_version_vector local) (parse_version_vector remote) in
  let map :=
    match entries merged_vc with
    | [] => bremove VERSION_VECTOR map
    | _ => binsert VERSION_VECTOR (clock_to_value merged_vc) map
    end in
  fold_left (λ map key, put_or_remove key (json_get local key) map)
    [CONTRADICTION_CONSERVED; CONTRADICTION_SOFT_LOSER; CONTRADICTION_WINNER_ID] map.

Definition merge_metadata (local remote : Memory) : value :=
  let remote_wins := remote_wins_lww local remote in
  match deep_merge_json (mem_metadata local) (mem_metadata remote) remote_wins with
  | JObject map =>
      JObject (metadata_overrides (mem_metadata local) (mem_metadata remote) remote_wins map)
  | merged => merged
  end.

Definition merge_memory (local remote : Memory) : Memory := {|
  mem_id := mem_id local;
  mem_cid := mem_cid local;
  mem_tier := merge_tier (mem_tier local) (mem_tier remote);
  mem_namespace := lww local remote (mem_namespace local) (mem_namespace remote);
  mem_title := lww local remote (mem_title local) (mem_title remote);
  mem_content := lww local remote (mem_content local) (mem_content remote);
  mem_tags := merge_tags (mem_tags local) (mem_tags remote);
  mem_priority := merge_counter Z_gtb (mem_priority local) (mem_priority remote);
  mem_confidence := merge_counter f64_gtb (mem_confidence local) (mem_confidence remote);
  mem_source := lww local remote (mem_source local) (mem_source remote);
  mem_access_count := merge_counter Z_gtb (mem_access_count local) (mem_access_count remote);
  mem_created_at :=
    if mem_created_at local >?s mem_created_at remote then mem_created_at remote
    else mem_created_at local;
  mem_updated_at :=
    if mem_updated_at remote >?s mem_updated_at local then mem_updated_at remote
    else mem_updated_at local;
  mem_last_accessed_at := max_opt_string (mem_last_accessed_at local) (mem_last_accessed_at remote);
  mem_expires_at := merge_expires_at (mem_expires_at local) (mem_expires_at remote);
  mem_metadata := merge_metadata local remote;
  mem_reflection_depth :=
    merge_counter Z_gtb (mem_reflection_depth local) (mem_reflection_depth remote);
  mem_memory_kind := lww local remote (mem_memory_kind local) (mem_memory_kind remote);
  mem_entity_id :=
    prefer_non_null_else_lww local remote (mem_entity_id local) (mem_entity_id remote);
  mem_persona_version :=
    prefer_non_null_else_lww local remote (mem_persona_version local) (mem_persona_version remote);
  mem_citations :=
    if decide (mem_citations local = []) then mem_citations remote
    else if decide (mem_citations remote = []) then mem_citations local
    else lww local remote (mem_citations local) (mem_citations remote);
  mem_source_uri :=
    prefer_non_null_else_lww local remote (mem_source_uri local) (mem_source_uri remote);
  mem_source_span :=
    prefer_non_null_else_lww local remote (mem_source_span local) (mem_source_span remote);
  mem_confidence_source :=
    lww local remote (mem_confidence_source local) (mem_confidence_source remote);
  mem_confidence_signals :=
    prefer_non_null_else_lww local remote (mem_confidence_signals local)
      (mem_confidence_signals remote);
  mem_confidence_decayed_at :=
    prefer_non_null_else_lww local remote (mem_confidence_decayed_at local)
      (mem_confidence_decayed_at remote);
  mem_version := merge_counter Z_gtb (mem_version local) (mem_version remote);
  mem_lifecycle_state := lww local remote (mem_lifecycle_state local) (mem_lifecycle_state remote)
|}.

(** The receive boundary of [merge_inbound] for a row that already exists:
    neutralise the asserted attestation, cap the timestamp, merge. *)
Definition ATTEST_CREATED_AT_SKEW_SECS : Z := 300.

Definition merge_inbound_existing `{Chrono} (existing inbound : Memory) (now : string) : Memory :=
  let sanitized := sanitize_inbound_attestation inbound in
  let prepared := clamp_inbound_updated_at sanitized now ATTEST_CREATED_AT_SKEW_SECS in
  merge_memory existing prepared.
End with_clock.

(* ------------------------------------------------------------------ *)
(** * Specification vocabulary *)

(** The keys a merge never takes from a peer. *)
Definition owner_keys : list string :=
  [AGENT_ID; GOVERNANCE; CONTRADICTION_CONSERVED; CONTRADICTION_SOFT_LOSER; CONTRADICTION_WINNER_ID].

(** The tuple last-write-wins compares. *)
Definition lww_key (m : Memory) : string * Z * string :=
  (mem_updated_at m, attest_rank m, mem_id m).

Definition f64_same (x y : f64) : Prop := x = y ∨ f64_eqb x y = true.

(** Two rows agree on everything replicas are meant to agree on: all fields,
    the tags as a set, the metadata apart from the owner keys; [cid] is
    local. *)
Record same_replica (a b : Memory) : Prop := {
  same_id : mem_id a = mem_id b;
  same_tier : mem_tier a = mem_tier b;
  same_namespace : mem_namespace a = mem_namespace b;
  same_title : mem_title a = mem_title b;
  same_content : mem_content a = mem_content b;
  same_tags : ∀ t, t ∈ mem_tags a ↔ t ∈ mem_tags b;
  same_priority : mem_priority a = mem_priority b;
  same_confidence : f64_same (mem_confidence a) (mem_confidence b);
  same_source : mem_source a = mem_source b;
  same_access_count : mem_access_count a = mem_access_count b;
  same_created_at : mem_created_at a = mem_created_at b;
  same_updated_at : mem_updated_at a = mem_updated_at b;
  same_last_accessed_at : mem_last_accessed_at a = mem_last_accessed_at b;
  same_expires_at : mem_expires_at a = mem_expires_at b;
  same_metadata : ∀ k, k ∉ owner_keys →
    json_get (mem_metadata a) k = json_get (mem_metadata b) k;
  same_reflection_depth : mem_reflection_depth a = mem_reflection_depth b;
  same_memory_kind : mem_memory_kind a = mem_memory_kind b;
  same_entity_id : mem_entity_id a = mem_entity_id b;
  same_persona_version : mem_persona_version a = mem_persona_version b;
  same_citations : mem_citations a = mem_citations b;
  same_source_uri : mem_source_uri a = mem_source_uri b;
  same_source_span : mem_source_span a = mem_source_span b;
  same_confidence_source : mem_confidence_source a = mem_confidence_source b;
  same_confidence_signals : mem_confidence_signals a = mem_confidence_signals b;
  same_confidence_decayed_at : mem_confidence_decayed_at a = mem_confidence_decayed_at b;
  same_version : mem_version a = mem_version b;
  same_lifecycle_state : mem_lifecycle_state a = mem_lifecycle_state b
}.

(* ------------------------------------------------------------------ *)
(** * Lemmas: lattices *)

#[global] Instance merge_counter_Z_laws : JoinLaws (merge_counter Z_gtb).
Proof.
  eapply join_laws_ext, (order_max_laws Z.le). intros x y.
  unfold merge_counter, PnCounter.merge, Z_gtb, order_max. simpl.
  case_bool_decide; case_decide; simpl; lia.
Qed.

Lemma merge_counter_Z_max x y : merge_counter Z_gtb x y = Z.max x y.
Proof. unfold merge_counter, PnCounter.merge, Z_gtb. simpl. case_bool_decide; simpl; lia. Qed.

Lemma merge_tier_rank a b : tier_rank (merge_tier a b) = Z.max (tier_rank a) (tier_rank b).
Proof. by destruct a, b. Qed.

#[global] Instance merge_tier_laws : JoinLaws merge_tier.
Proof. split; [by intros [] []|by intros [] [] []|by intros []]. Qed.

Lemma merge_expires_at_max a b :
  merge_expires_at a b =
  match a, b with Some l, Some r => Some (str_max l r) | _, _ => None end.
Proof. destruct a, b; try done. unfold str_max. simpl. by case_match. Qed.

#[global] Instance merge_expires_at_laws : JoinLaws merge_expires_at.
Proof.
  split.
  - intros [] []; rewrite !merge_expires_at_max; try done. by rewrite join_comm.
  - intros [] [] []; rewrite !merge_expires_at_max; try done. by rewrite join_assoc.
  - intros []; rewrite !merge_expires_at_max; try done. by rewrite join_idemp.
Qed.

Lemma max_opt_string_join a b : max_opt_string a b = opt_join a b.
Proof. destruct a, b; try done. unfold opt_join, str_max. simpl. by case_match. Qed.

#[global] Instance max_opt_string_laws : JoinLaws max_opt_string.
Proof.
  split; intros; rewrite !max_opt_string_join;
    [apply opt_join_comm|apply opt_join_assoc|apply opt_join_idemp].
Qed.

Section orset.
Context {T : Type} `{EqDecision T}.
Implicit Types (l out : list T).

Lemma merge_loop_app l1 l2 out :
  OrSet.merge_loop (l1 ++ l2) out = OrSet.merge_loop l2 (OrSet.merge_loop l1 out).
Proof. revert out. induction l1 as [|x l1 IH]; intros out; simpl; [done|]. apply IH. Qed.

Lemma elem_of_merge_loop l out x : x ∈ OrSet.merge_loop l out ↔ x ∈ l ∨ x ∈ out.
Proof.
  revert out. induction l as [|y l IH]; intros out; simpl; [rewrite elem_of_nil; naive_solver|].
  rewrite IH, elem_of_cons. case_bool_decide; rewrite ?elem_of_app, ?list_elem_of_singleton;
    naive_solver.
Qed.

Lemma merge_loop_NoDup l out : NoDup out → NoDup (OrSet.merge_loop l out).
Proof.
  revert out. induction l as [|y l IH]; intros out Hout; simpl; [done|]. apply IH.
  case_bool_decide; [done|]. apply NoDup_app. split_and!; [done| |apply NoDup_singleton].
  by intros x Hx ->%list_elem_of_singleton.
Qed.

Lemma merge_loop_seen l out : (∀ x, x ∈ l → x ∈ out) → OrSet.merge_loop l out = out.
Proof.
  revert out. induction l as [|y l IH]; intros out Hin; simpl; [done|].
  rewrite bool_decide_true by (apply Hin; by left). apply IH. intros x Hx. apply Hin. by right.
Qed.

Lemma merge_loop_fresh l out : NoDup (out ++ l) → OrSet.merge_loop l out = out ++ l.
Proof.
  revert out. induction l as [|y l IH]; intros out Hnd; simpl; [by rewrite app_nil_r|].
  rewrite bool_decide_false.
  - rewrite IH by (by rewrite <-app_assoc). by rewrite <-app_assoc.
  - apply NoDup_app in Hnd as (_ & Hd & _). intros Hy. by apply (Hd y Hy); left.
Qed.

Lemma merge_loop_flatten l acc out :
  OrSet.merge_loop (OrSet.merge_loop l acc) out = OrSet.merge_loop l (OrSet.merge_loop acc out).
Proof.
  revert acc. induction l as [|y l IH]; intros acc; simpl; [done|]. rewrite IH. f_equal.
  case_bool_decide as Hy.
  - rewrite bool_decide_true; [done|]. apply elem_of_merge_loop. by left.
  - by rewrite merge_loop_app.
Qed.
End orset.

Lemma elem_of_merge_tags a b t : t ∈ merge_tags a b ↔ t ∈ a ∨ t ∈ b.
Proof.
  unfold merge_tags, OrSet.merge. simpl. rewrite elem_of_merge_loop, elem_of_app, elem_of_nil.
  naive_solver.
Qed.

Lemma merge_tags_idemp l : NoDup l → merge_tags l l = l.
Proof.
  intros Hl. unfold merge_tags, OrSet.merge. simpl.
  rewrite merge_loop_app, (merge_loop_fresh l []) by done. by apply merge_loop_seen.
Qed.

Lemma merge_tags_assoc a b c : merge_tags a (merge_tags b c) = merge_tags (merge_tags a b) c.
Proof.
  unfold merge_tags, OrSet.merge. simpl.
  by rewrite !merge_loop_app, !merge_loop_flatten.
Qed.

(* ------------------------------------------------------------------ *)
(** * Lemmas: last write wins *)

Lemma remote_wins_irrefl m : remote_wins_lww m m = false.
Proof.
  unfold remote_wins_lww, Z_gtb. rewrite bool_decide_false by lia.
  assert (∀ s, (s >?s s) = false) as Hs by (intros; by apply str_gtb_false).
  by rewrite !Hs.
Qed.

Lemma remote_wins_same_key a b : lww_key a = lww_key b → remote_wins_lww a b = false.
Proof.
  unfold lww_key. intros [= Hu Hr Hi]. unfold remote_wins_lww, Z_gtb.
  rewrite Hu, Hr, Hi, bool_decide_false by lia.
  assert (∀ s, (s >?s s) = false) as Hs by (intros; by apply str_gtb_false).
  by rewrite !Hs.
Qed.

(** Between distinct keys exactly one side wins, whichever is called remote. *)
Lemma remote_wins_flip a b :
  lww_key a ≠ lww_key b → remote_wins_lww b a = negb (remote_wins_lww a b).
Proof.
  unfold lww_key, remote_wins_lww, Z_gtb. intros Hne.
  destruct (mem_updated_at b >?s mem_updated_at a) eqn:E1,
           (mem_updated_at a >?s mem_updated_at b) eqn:E2; simpl; try done.
  { apply str_gtb_spec in E1, E2. destruct (str_le_total (mem_updated_at a) (mem_updated_at b));
      naive_solver. }
  apply str_gtb_false in E1, E2. assert (mem_updated_at a = mem_updated_at b) by by apply str_le_antisym.
  repeat case_bool_decide; try done; try lia.
  destruct (mem_id b >?s mem_id a) eqn:E3, (mem_id a >?s mem_id b) eqn:E4; simpl; try done.
  - apply str_gtb_spec in E3, E4. destruct (str_le_total (mem_id a) (mem_id b)); naive_solver.
  - apply str_gtb_false in E3, E4. exfalso. apply Hne. f_equal; [f_equal; [done|lia]|].
    by apply str_le_antisym.
Qed.

Lemma lww_idemp {T} m (x : T) : lww m m x x = x.
Proof. unfold lww. by rewrite remote_wins_irrefl. Qed.

Lemma lww_comm {T} a b (x y : T) : lww_key a ≠ lww_key b → lww b a y x = lww a b x y.
Proof.
  intros Hne. unfold lww. rewrite (remote_wins_flip a b) by done. by destruct (remote_wins_lww a b).
Qed.

Lemma prefer_idemp {T} m (x : option T) : prefer_non_null_else_lww m m x x = x.
Proof. destruct x; simpl; [apply lww_idemp|done]. Qed.

Lemma prefer_comm {T} a b (x y : option T) :
  lww_key a ≠ lww_key b →
  prefer_non_null_else_lww b a y x = prefer_non_null_else_lww a b x y.
Proof. intros Hne. destruct x, y; simpl; try done. by apply lww_comm. Qed.

(* ------------------------------------------------------------------ *)
(** * Lemmas: deep merge *)

(** One step of the loop over the remote object. *)
Definition merge_field (remote_wins : bool) (merged : btree value) (kv : string * value) :
    btree value :=
  match bget kv.1 merged with
  | Some lval => binsert kv.1 (deep_merge_json lval kv.2 remote_wins) merged
  | None => binsert kv.1 kv.2 merged
  end.

(** What the merge of two objects holds under one key. *)
Definition join_field (remote_wins : bool) (l r : option value) : option value :=
  match l, r with
  | Some x, Some y => Some (deep_merge_json x y remote_wins)
  | Some x, None => Some x
  | None, o => o
  end.

Lemma deep_merge_object l r w :
  deep_merge_json (JObject l) (JObject r) w = JObject (fold_left (merge_field w) r l).
Proof.
  simpl. f_equal. revert l. induction r as [|[k x] r IH]; intros l; simpl; [done|]. apply IH.
Qed.

Lemma deep_merge_not_object a b w :
  json_as_object a = None ∨ json_as_object b = None →
  deep_merge_json a b w = if w then b else a.
Proof. destruct a, b; simpl; naive_solver. Qed.

Lemma merge_field_lookup w l k x y :
  bget y (merge_field w l (k, x)) =
  if decide (y = k) then join_field w (bget y l) (Some x) else bget y l.
Proof.
  unfold merge_field. simpl. case_decide as Hy; subst.
  - destruct (bget k l); by rewrite bget_insert_eq.
  - destruct (bget k l); by rewrite bget_insert_ne.
Qed.

Lemma merge_fields_lookup w r l k :
  bwf r → bget k (fold_left (merge_field w) r l) = join_field w (bget k l) (bget k r).
Proof.
  revert l. induction r as [|[k' x] r IH]; intros l Hr; cbn [fold_left bget].
  { by destruct (bget k l). }
  rewrite IH by (by apply bwf_cons in Hr as []). rewrite merge_field_lookup.
  case_decide; subst; [|done]. rewrite (bwf_head_fresh _ _ _ Hr). by destruct (bget k' l).
Qed.

Lemma merge_fields_bwf w r l : bwf l → bwf (fold_left (merge_field w) r l).
Proof.
  revert l. induction r as [|[k x] r IH]; intros l Hl; simpl; [done|].
  apply IH. unfold merge_field. case_match; auto with mem.
Qed.

(** The merge does not depend on which side is called local. *)
Lemma deep_merge_comm a b w :
  json_wf a → json_wf b → deep_merge_json b a (negb w) = deep_merge_json a b w.
Proof.
  revert b. induction a as [|b0|n0|s0|l0 IH|m IH] using value_ind'; intros b Ha Hb;
    try (rewrite !deep_merge_not_object by (simpl; auto); by destruct w).
  destruct b as [| | | | |m'];
    try (rewrite !deep_merge_not_object by (simpl; auto); by destruct w).
  rewrite !deep_merge_object. f_equal.
  apply json_wf_object in Ha as [Hm Hall]. apply json_wf_object in Hb as [Hm' Hall'].
  apply btree_eq; [by apply merge_fields_bwf..|]. intros k.
  rewrite !merge_fields_lookup by done.
  destruct (bget k m) as [x|] eqn:Ex, (bget k m') as [y|] eqn:Ey; simpl; try done.
  f_equal. apply (bget_Forall (λ x, ∀ b, json_wf x → json_wf b →
    deep_merge_json b x (negb w) = deep_merge_json x b w) k x m IH Ex).
  - exact (bget_Forall json_wf _ _ _ Hall Ex).
  - exact (bget_Forall json_wf _ _ _ Hall' Ey).
Qed.

Lemma deep_merge_idemp a w : json_wf a → deep_merge_json a a w = a.
Proof.
  induction a as [|b0|n0|s0|l0 IH|m IH] using value_ind'; intros Ha;
    try (rewrite deep_merge_not_object by (simpl; auto); by destruct w).
  rewrite deep_merge_object. f_equal. apply json_wf_object in Ha as [Hm Hall].
  apply btree_eq; [by apply merge_fields_bwf|done|]. intros k.
  rewrite merge_fields_lookup by done. destruct (bget k m) as [x|] eqn:Ex; simpl; [|done].
  f_equal. apply (bget_Forall (λ x, json_wf x → deep_merge_json x x w = x) k x m IH Ex).
  exact (bget_Forall json_wf _ _ _ Hall Ex).
Qed.

(* ------------------------------------------------------------------ *)
(** * Lemmas: merged metadata, key by key *)

Lemma bget_put_or_remove k v m y :
  bwf m → bget y (put_or_remove k v m) = if decide (y = k) then v else bget y m.
Proof.
  intros Hm. unfold put_or_remove. case_decide; subst; destruct v;
    rewrite ?bget_insert_eq, ?bget_insert_ne, ?bget_remove_eq, ?bget_remove_ne by done; done.
Qed.

Lemma bwf_put_or_remove k v m : bwf m → bwf (put_or_remove k v m).
Proof. unfold put_or_remove. case_match; auto with mem. Qed.
#[export] Hint Resolve bwf_put_or_remove : mem.

(** The last-write-wins choice of one metadata key both sides may lack. *)
Definition scope_join (w : bool) (l r : option value) : option value :=
  match l, r with
  | Some x, Some y => Some (if w then y else x)
  | Some x, None => Some x
  | None, o => o
  end.

(** The metadata rows carry: an object with sorted keys. *)
Definition metadata_ok (m : Memory) : Prop :=
  json_wf (mem_metadata m) ∧ is_some (json_as_object (mem_metadata m)) = true.

Section metadata.
Context `{S : ClockSerde, L : !ClockSerdeLaws S}.

Definition merged_clock (a b : value) : VectorClock :=
  VectorClock.merge (parse_version_vector a) (parse_version_vector b).

Definition clock_entry (c : VectorClock) : option value :=
  match entries c with [] => None | _ => Some (clock_to_value c) end.

Lemma parse_version_vector_wf v : clock_wf (parse_version_vector v).
Proof.
  unfold parse_version_vector. destruct (json_get v VERSION_VECTOR ≫= clock_from_value) eqn:E; simpl.
  - apply bind_Some in E as (x & _ & Hx). by eapply clock_read_wf.
  - apply (bwf_nil (V:=string)).
Qed.

Lemma put_clock c m :
  match entries c with
  | [] => bremove VERSION_VECTOR m
  | _ => binsert VERSION_VECTOR (clock_to_value c) m
  end = put_or_remove VERSION_VECTOR (clock_entry c) m.
Proof. unfold clock_entry. by destruct (entries c). Qed.

Lemma metadata_overrides_puts l r w m :
  metadata_overrides l r w m =
  foldr (λ '(k, v), put_or_remove k v) m
    [(CONTRADICTION_WINNER_ID, json_get l CONTRADICTION_WINNER_ID);
     (CONTRADICTION_SOFT_LOSER, json_get l CONTRADICTION_SOFT_LOSER);
     (CONTRADICTION_CONSERVED, json_get l CONTRADICTION_CONSERVED);
     (VERSION_VECTOR, clock_entry (merged_clock l r));
     (GOVERNANCE, json_get l GOVERNANCE);
     (SCOPE, scope_join w (json_get l SCOPE) (json_get r SCOPE));
     (AGENT_ID, json_get l AGENT_ID)].
Proof. unfold metadata_overrides. rewrite put_clock. done. Qed.

Lemma puts_wf kvs m : bwf m → bwf (foldr (λ '(k, v), put_or_remove k v) m kvs).
Proof. intros Hm. induction kvs as [|[k v] kvs IH]; simpl; auto with mem. Qed.

Lemma metadata_overrides_wf l r w m : bwf m → bwf (metadata_overrides l r w m).
Proof. intros. rewrite metadata_overrides_puts. by apply puts_wf. Qed.

(** What the merged metadata holds under a key. *)
Definition metadata_key (a b : Memory) (k : string) : option value :=
  let l := mem_metadata a in
  let r := mem_metadata b in
  if decide (k ∈ owner_keys) then json_get l k
  else if decide (k = SCOPE) then
    scope_join (remote_wins_lww a b) (json_get l SCOPE) (json_get r SCOPE)
  else if decide (k = VERSION_VECTOR) then clock_entry (merged_clock l r)
  else join_field (remote_wins_lww a b) (json_get l k) (json_get r k).

Lemma merge_metadata_object a b :
  metadata_ok a → metadata_ok b →
  ∃ m, merge_metadata a b = JObject m ∧ bwf m ∧ ∀ k, bget k m = metadata_key a b k.
Proof.
  unfold metadata_ok, merge_metadata, metadata_key.
  destruct (mem_metadata a) as [| | | | |l]; try by intros [_ ?].
  destruct (mem_metadata b) as [| | | | |r]; try by intros _ [_ ?].
  intros [Hl%json_wf_object_bwf _] [Hr%json_wf_object_bwf _]. rewrite deep_merge_object.
  set (w := remote_wins_lww a b).
  pose proof (merge_fields_bwf w r l Hl) as Hm.
  eexists. split_and!; [done|by apply metadata_overrides_wf|]. intros k.
  rewrite metadata_overrides_puts. simpl foldr.
  rewrite !bget_put_or_remove by auto 12 with mem. rewrite merge_fields_lookup by done.
  destruct (decide (k ∈ owner_keys)) as [Hk|Hk].
  - unfold owner_keys in Hk. rewrite !elem_of_cons, elem_of_nil in Hk.
    destruct_or! Hk; try subst k; done.
  - unfold owner_keys in Hk. rewrite !not_elem_of_cons in Hk. destruct_and! Hk.
    rewrite !(decide_False (P := k = AGENT_ID)), !(decide_False (P := k = GOVERNANCE)),
      !(decide_False (P := k = CONTRADICTION_CONSERVED)),
      !(decide_False (P := k = CONTRADICTION_SOFT_LOSER)),
      !(decide_False (P := k = CONTRADICTION_WINNER_ID)) by done.
    destruct (decide (k = VERSION_VECTOR)) as [->|]; done.
Qed.

Lemma merge_metadata_get a b k :
  metadata_ok a → metadata_ok b → json_get (merge_metadata a b) k = metadata_key a b k.
Proof.
  intros Ha Hb. destruct (merge_metadata_object a b Ha Hb) as (m & -> & _ & Hm). apply Hm.
Qed.

Lemma merged_clock_comm a b : merged_clock a b = merged_clock b a.
Proof.
  unfold merged_clock. apply clock_ext; [apply merge_wf, parse_version_vector_wf..|].
  intros k. rewrite !merge_lookup by apply parse_version_vector_wf. apply opt_join_comm.
Qed.

Lemma merged_clock_idemp a : merged_clock a a = parse_version_vector a.
Proof.
  unfold merged_clock. apply clock_ext; [apply merge_wf, parse_version_vector_wf
    |apply parse_version_vector_wf|].
  intros k. rewrite !merge_lookup by apply parse_version_vector_wf. apply opt_join_idemp.
Qed.

Lemma scope_join_comm w l r : scope_join (negb w) r l = scope_join w l r.
Proof. destruct l, r, w; done. Qed.

Lemma join_field_comm w l r :
  (∀ x, l = Some x → json_wf x) → (∀ y, r = Some y → json_wf y) →
  join_field (negb w) r l = join_field w l r.
Proof. intros Hl Hr. destruct l, r; simpl; try done. f_equal. apply deep_merge_comm; auto. Qed.

Lemma merge_metadata_comm a b k :
  metadata_ok a → metadata_ok b → lww_key a ≠ lww_key b → k ∉ owner_keys →
  json_get (merge_metadata a b) k = json_get (merge_metadata b a) k.
Proof.
  intros Ha Hb Hne Hk. rewrite !merge_metadata_get by done. unfold metadata_key.
  rewrite !(decide_False (P := k ∈ owner_keys)), (remote_wins_flip a b) by done.
  repeat case_decide.
  - by rewrite scope_join_comm.
  - by rewrite merged_clock_comm.
  - rewrite join_field_comm; [done|..]; intros x Hx; eapply json_get_wf; eauto; [apply Ha|apply Hb].
Qed.
End metadata.

(* ------------------------------------------------------------------ *)
(** * Convergence *)

(** What a row must satisfy to be its own merge with itself. *)
Record replica_ok `{S : ClockSerde} (m : Memory) : Prop := {
  ok_metadata : metadata_ok m;
  ok_tags : NoDup (mem_tags m);
  ok_clock : json_get (mem_metadata m) VERSION_VECTOR
             = clock_entry (parse_version_vector (mem_metadata m))
}.

Section laws.
Context `{S : ClockSerde, L : !ClockSerdeLaws S}.

Lemma merge_confidence_self x : merge_counter f64_gtb x x = x.
Proof. unfold merge_counter, PnCounter.merge. simpl. by rewrite f64_gtb_irrefl. Qed.

Lemma merge_metadata_idemp m : replica_ok m → merge_metadata m m = mem_metadata m.
Proof.
  intros [Hm _ Hc]. destruct (merge_metadata_object m m Hm Hm) as (o & -> & Ho & Hk).
  destruct Hm as [Hwf Hobj]. destruct (mem_metadata m) as [| | | | |l] eqn:E; try done.
  f_equal. apply btree_eq; [done|by apply json_wf_object_bwf|]. intros k. rewrite Hk.
  unfold metadata_key. rewrite E. case_decide; [done|].
  repeat case_decide; subst; simpl in *.
  - destruct (bget SCOPE l); simpl; [|done]. by case_match.
  - by rewrite merged_clock_idemp, <-Hc.
  - destruct (bget k l) as [x|] eqn:Ex; simpl; [|done]. f_equal. apply deep_merge_idemp.
    by eapply (json_get_wf (JObject l)).
Qed.

(** Merging a replica with itself changes nothing, for a row with
    duplicate-free tags, object metadata and a version vector the code itself
    wrote. *)
Lemma merge_idempotent m : replica_ok m → merge_memory m m = m.
Proof.
  intros Hm. unfold merge_memory.
  rewrite (merge_metadata_idemp m Hm), (merge_tags_idemp _ (ok_tags _ Hm)), !lww_idemp,
    !prefer_idemp, merge_confidence_self, !join_idemp.
  assert (∀ s, (s >?s s) = false) as Hs by (intros; by apply str_gtb_false). rewrite !Hs.
  destruct m. simpl. f_equal. by case_decide.
Qed.

Lemma merge_confidence_comm x y :
  f64_is_nan x = false → f64_is_nan y = false →
  f64_same (merge_counter f64_gtb x y) (merge_counter f64_gtb y x).
Proof.
  intros Hx Hy. unfold merge_counter, PnCounter.merge, f64_same. simpl.
  destruct (f64_gtb y x) eqn:E1, (f64_gtb x y) eqn:E2; simpl; auto.
  - by rewrite (f64_gtb_asym _ _ E1) in E2.
  - right. by apply f64_not_gt_eqb.
Qed.

(** Two replicas of one row that do not tie converge: merging in either
    direction yields the same row, up to the owner keys of the metadata
    (which each node keeps for itself), the order of the tags, the local
    content id and the representation of equal confidences. *)
Lemma merge_commutes a b :
  mem_id a = mem_id b → lww_key a ≠ lww_key b →
  metadata_ok a → metadata_ok b →
  f64_is_nan (mem_confidence a) = false → f64_is_nan (mem_confidence b) = false →
  same_replica (merge_memory a b) (merge_memory b a).
Proof.
  intros Hid Hne Ha Hb Hna Hnb. split; simpl; try done;
    try (by rewrite (lww_comm a b)); try (by rewrite (prefer_comm a b)); try apply join_comm.
  - intros t. rewrite !elem_of_merge_tags. naive_solver.
  - by apply merge_confidence_comm.
  - apply (join_comm (join := str_min)).
  - apply (join_comm (join := str_max)).
  - intros k Hk. by apply merge_metadata_comm.
  - rewrite (lww_comm a b) by done. repeat case_decide; congruence.
Qed.

(** The tie-break ends with the row id, which both replicas share, so
    when the update times and attestation ranks agree nothing is compared:
    each side keeps its own version of every last-write-wins field, and two
    nodes with different contents stay different. *)
Lemma merge_tie_keeps_local a b :
  mem_id a = mem_id b → mem_updated_at a = mem_updated_at b → attest_rank a = attest_rank b →
  mem_title (merge_memory a b) = mem_title a ∧ mem_title (merge_memory b a) = mem_title b
  ∧ mem_content (merge_memory a b) = mem_content a
  ∧ mem_content (merge_memory b a) = mem_content b
  ∧ mem_lifecycle_state (merge_memory a b) = mem_lifecycle_state a
  ∧ mem_lifecycle_state (merge_memory b a) = mem_lifecycle_state b.
Proof.
  intros Hi Hu Hr. assert (lww_key a = lww_key b) as Hk by (unfold lww_key; congruence).
  simpl. unfold lww. rewrite (remote_wins_same_key a b), (remote_wins_same_key b a) by done. done.
Qed.
End laws.

(* ------------------------------------------------------------------ *)
(** * Order independence over any number of replicas *)

(** The fields the newest row decides, with the time that decides. *)
Definition lww_view (m : Memory) :=
  (mem_updated_at m, mem_namespace m, mem_title m, mem_content m, mem_source m,
   mem_memory_kind m, mem_confidence_source m, mem_lifecycle_state m).

(** What two nodes agree on after receiving the same replicas. *)
Record same_outcome (a b : Memory) : Prop := {
  out_lww : lww_view a = lww_view b;
  out_tier : mem_tier a = mem_tier b;
  out_tags : ∀ t, t ∈ mem_tags a ↔ t ∈ mem_tags b;
  out_priority : mem_priority a = mem_priority b;
  out_confidence : f64_same (mem_confidence a) (mem_confidence b);
  out_access_count : mem_access_count a = mem_access_count b;
  out_created_at : mem_created_at a = mem_created_at b;
  out_last_accessed_at : mem_last_accessed_at a = mem_last_accessed_at b;
  out_expires_at : mem_expires_at a = mem_expires_at b;
  out_reflection_depth : mem_reflection_depth a = mem_reflection_depth b;
  out_version : mem_version a = mem_version b
}.

Section order.
Context `{S : ClockSerde}.

Definition merge_all (m : Memory) (ms : list Memory) : Memory := fold_left merge_memory ms m.

Lemma lww_view_step a b :
  mem_updated_at a ≠ mem_updated_at b →
  lww_view (merge_memory a b) =
  lww_view (if mem_updated_at b >?s mem_updated_at a then b else a).
Proof.
  intros Hne. unfold lww_view. simpl. unfold lww, remote_wins_lww.
  destruct (mem_updated_at b >?s mem_updated_at a) eqn:E1; [done|].
  destruct (mem_updated_at a >?s mem_updated_at b) eqn:E2; [done|].
  apply str_gtb_false in E1, E2. exfalso. by apply Hne, str_le_antisym.
Qed.

(** The fold's result shows the newest row. *)
Lemma lww_view_fold ms m :
  NoDup (mem_updated_at <$> m :: ms) →
  ∃ w, w ∈ m :: ms ∧ (∀ x, x ∈ m :: ms → (mem_updated_at x ≤ mem_updated_at w)%string)
       ∧ lww_view (merge_all m ms) = lww_view w.
Proof.
  revert m. induction ms as [|y ms IH]; intros m Hnd.
  { exists m. split_and!; [by left| |done]. by intros x ->%list_elem_of_singleton. }
  cbn [fmap list_fmap] in Hnd. apply NoDup_cons in Hnd as [Hm [Hy Hnd]%NoDup_cons].
  apply not_elem_of_cons in Hm as [Hmy Hm].
  pose proof (lww_view_step m y Hmy) as Hstep.
  set (n := if mem_updated_at y >?s mem_updated_at m then y else m) in *.
  assert (mem_updated_at (merge_memory m y) = mem_updated_at n) as Hu
    by (unfold lww_view in Hstep; congruence).
  assert ((mem_updated_at m ≤ mem_updated_at n)%string ∧
          (mem_updated_at y ≤ mem_updated_at n)%string) as [Hmn Hyn].
  { subst n. destruct (mem_updated_at y >?s mem_updated_at m) eqn:E.
    - apply str_gtb_spec in E. split; [by apply str_not_le|done].
    - by apply str_gtb_false in E. }
  destruct (IH (merge_memory m y)) as (w & Hw & Hmax & Hview).
  { cbn [fmap list_fmap]. apply NoDup_cons. split; [|done]. rewrite Hu. subst n.
    by case_match. }
  assert (∀ x, x ∈ m :: y :: ms → (mem_updated_at x ≤ mem_updated_at w)%string) as Hall.
  { assert (mem_updated_at n ≤ mem_updated_at w)%string by (rewrite <-Hu; apply Hmax; by left).
    intros x [->|[->|Hx]%elem_of_cons]%elem_of_cons; [by etrans..|]. apply Hmax. by right. }
  apply elem_of_cons in Hw as [->|Hw].
  - exists n. split_and!; [subst n; case_match; set_solver| |by etrans].
    intros x Hx. rewrite <-Hu. by apply Hall.
  - exists w. split_and!; [set_solver|done|done].
Qed.

Lemma lww_view_perm m ms m' ms' :
  m :: ms ≡ₚ m' :: ms' → NoDup (mem_updated_at <$> m :: ms) →
  lww_view (merge_all m ms) = lww_view (merge_all m' ms').
Proof.
  intros Hp Hnd. assert (NoDup (mem_updated_at <$> m' :: ms')) as Hnd' by by rewrite <-Hp.
  destruct (lww_view_fold ms m Hnd) as (w & Hw & Hmax & ->).
  destruct (lww_view_fold ms' m' Hnd') as (w' & Hw' & Hmax' & ->). f_equal.
  assert (mem_updated_at w = mem_updated_at w') as Heq.
  { apply str_le_antisym; [apply Hmax'; by rewrite <-Hp|apply Hmax; by rewrite Hp]. }
  rewrite <-Hp in Hw'. apply list_elem_of_lookup in Hw as [i Hi], Hw' as [j Hj].
  assert (i = j) as ->; [|congruence]. eapply (NoDup_lookup _ i j (mem_updated_at w) Hnd);
    rewrite list_lookup_fmap; [by rewrite Hi|by rewrite Hj; simpl; rewrite Heq].
Qed.

Lemma elem_of_tags_fold ms m t :
  t ∈ mem_tags (merge_all m ms) ↔ ∃ x, x ∈ m :: ms ∧ t ∈ mem_tags x.
Proof.
  unfold merge_all. revert m. induction ms as [|y ms IH]; intros m; cbn [fold_left].
  - setoid_rewrite list_elem_of_singleton. naive_solver.
  - rewrite IH. setoid_rewrite elem_of_cons. setoid_rewrite elem_of_cons. simpl.
    split.
    + intros (x & [->|Hx] & Ht); [|naive_solver].
      simpl in Ht. apply elem_of_merge_tags in Ht. naive_solver.
    + intros (x & Hx & Ht). destruct Hx as [->|[->|Hx]].
      * exists (merge_memory m y). simpl. rewrite elem_of_merge_tags. auto.
      * exists (merge_memory m y). simpl. rewrite elem_of_merge_tags. auto.
      * naive_solver.
Qed.

(** The merged confidence is one of the inputs and none exceeds it. *)
Lemma confidence_fold ms m :
  Forall (λ x, f64_is_nan (mem_confidence x) = false) (m :: ms) →
  mem_confidence (merge_all m ms) ∈ mem_confidence <$> m :: ms
  ∧ ∀ c, c ∈ mem_confidence <$> m :: ms → f64_gtb c (mem_confidence (merge_all m ms)) = false.
Proof.
  unfold merge_all. revert m. induction ms as [|y ms IH]; intros m; cbn [fold_left fmap list_fmap].
  { intros _. split; [by left|]. intros c ->%list_elem_of_singleton. apply f64_gtb_irrefl. }
  intros [Hm [Hy Hnan]%Forall_cons]%Forall_cons.
  destruct (IH (merge_memory m y)) as [Hin Hmax].
  { apply Forall_cons. split; [|done]. simpl. unfold merge_counter, PnCounter.merge. simpl.
    by case_match. }
  cbn [fmap list_fmap] in *.
  set (r := mem_confidence (fold_left merge_memory ms (merge_memory m y))) in *.
  assert (f64_gtb (mem_confidence (merge_memory m y)) r = false) as Hr by (apply Hmax; by left).
  simpl in Hin, Hr. unfold merge_counter, PnCounter.merge in Hin, Hr. simpl in Hin, Hr.
  split; [destruct (f64_gtb (mem_confidence y) (mem_confidence m)); simpl in Hin; set_solver|].
  intros c [->|[->|Hc]%elem_of_cons]%elem_of_cons; [| |apply Hmax; by right];
    destruct (f64_gtb (mem_confidence y) (mem_confidence m)) eqn:E; simpl in Hr; try done;
    apply not_true_iff_false; intros Hgt; apply not_true_iff_false in Hr; apply Hr.
  - by eapply f64_gtb_trans.
  - by eapply f64_gtb_weak.
Qed.

Lemma confidence_perm m ms m' ms' :
  m :: ms ≡ₚ m' :: ms' →
  Forall (λ x, f64_is_nan (mem_confidence x) = false) (m :: ms) →
  f64_same (mem_confidence (merge_all m ms)) (mem_confidence (merge_all m' ms')).
Proof.
  intros Hp Hnan.
  assert (Forall (λ x, f64_is_nan (mem_confidence x) = false) (m' :: ms')) as Hnan' by by rewrite <-Hp.
  destruct (confidence_fold ms m Hnan) as [Hin Hmax].
  destruct (confidence_fold ms' m' Hnan') as [Hin' Hmax'].
  assert (∀ c, c ∈ mem_confidence <$> m :: ms → f64_is_nan c = false) as Hn.
  { intros c (x & -> & Hx)%list_elem_of_fmap. rewrite Forall_forall in Hnan. by apply Hnan. }
  assert (∀ c, c ∈ mem_confidence <$> m' :: ms' → c ∈ mem_confidence <$> m :: ms) as Hsub
    by (intros c; by rewrite Hp).
  right. apply f64_not_gt_eqb; auto. apply Hmax'. by rewrite <-Hp.
Qed.

(** C39: on the fields that are joins, replicas converge. When the update times of
    the replicas of a row are distinct and no confidence is [NaN], then however
    many a node receives, and in whatever order, these fields come out the same:
    those the newest row decides ([lww_view]), the tags, which are the union, and
    tier, priority, confidence, access count, last access, expiry (never being the latest), depth
    and version, which are the greatest, and the date of creation, the least. Of the
    rest nothing is said here: fields that are taken where present depend on the
    order ([present_else_newest_not_associative]), and where update times tie each
    node keeps its own ([merge_tie_keeps_local]). *)
Theorem merge_any_order m ms m' ms' :
  m :: ms ≡ₚ m' :: ms' →
  NoDup (mem_updated_at <$> m :: ms) →
  Forall (λ x, f64_is_nan (mem_confidence x) = false) (m :: ms) →
  same_outcome (merge_all m ms) (merge_all m' ms').
Proof.
  intros Hp Hnd Hnan.
  assert (∀ {B} (f : Memory → B) (join : B → B → B) `{!JoinLaws join},
    (∀ a b, f (merge_memory a b) = join (f a) (f b)) →
    f (merge_all m ms) = f (merge_all m' ms')) as Hfield.
  { intros B f join Hj Hf. unfold merge_all. rewrite !(fold_left_field merge_memory f join Hf).
    apply fold_join_perm; [done|]. change (f <$> m :: ms ≡ₚ f <$> m' :: ms'). by rewrite Hp. }
  split.
  - by apply lww_view_perm.
  - by apply (Hfield _ mem_tier merge_tier _).
  - intros t. rewrite !elem_of_tags_fold. by setoid_rewrite Hp.
  - by apply (Hfield _ mem_priority (merge_counter Z_gtb) _).
  - by apply confidence_perm.
  - by apply (Hfield _ mem_access_count (merge_counter Z_gtb) _).
  - by apply (Hfield _ mem_created_at str_min _).
  - by apply (Hfield _ mem_last_accessed_at max_opt_string _).
  - by apply (Hfield _ mem_expires_at merge_expires_at _).
  - by apply (Hfield _ mem_reflection_depth (merge_counter Z_gtb) _).
  - by apply (Hfield _ mem_version (merge_counter Z_gtb) _).
Qed.
End order.

(* ------------------------------------------------------------------ *)
(** * What a merge keeps, and what a peer can do *)

Section safety.
Context `{S : ClockSerde, L : !ClockSerdeLaws S}.

(** A merge loses nothing it promises to keep: tier, priority, access
    count, version and reflection depth never fall below either side, the
    update time is the later and the creation time the earlier one, every tag
    survives, a row that never expires stays so, and a provenance field that
    either side has is still present. *)
Lemma merge_keeps_information a b :
  let m := merge_memory a b in
  (tier_rank (mem_tier m) = Z.max (tier_rank (mem_tier a)) (tier_rank (mem_tier b)))%Z
  ∧ mem_priority m = Z.max (mem_priority a) (mem_priority b)
  ∧ mem_access_count m = Z.max (mem_access_count a) (mem_access_count b)
  ∧ mem_version m = Z.max (mem_version a) (mem_version b)
  ∧ mem_reflection_depth m = Z.max (mem_reflection_depth a) (mem_reflection_depth b)
  ∧ f64_gtb (mem_confidence a) (mem_confidence m) = false
  ∧ mem_updated_at m = str_max (mem_updated_at a) (mem_updated_at b)
  ∧ mem_created_at m = str_min (mem_created_at a) (mem_created_at b)
  ∧ (∀ t, t ∈ mem_tags m ↔ t ∈ mem_tags a ∨ t ∈ mem_tags b)
  ∧ (is_some (mem_expires_at m) = is_some (mem_expires_at a) && is_some (mem_expires_at b))
  ∧ (is_some (mem_entity_id m) = is_some (mem_entity_id a) || is_some (mem_entity_id b))
  ∧ (is_some (mem_source_uri m) = is_some (mem_source_uri a) || is_some (mem_source_uri b))
  ∧ (mem_citations m = [] → mem_citations a = [] ∧ mem_citations b = []).
Proof.
  simpl. rewrite merge_tier_rank, !merge_counter_Z_max, merge_expires_at_max.
  split_and!; try done.
  - unfold merge_counter, PnCounter.merge. simpl.
    destruct (f64_gtb (mem_confidence b) (mem_confidence a)) eqn:E; simpl;
      [by apply f64_gtb_asym|apply f64_gtb_irrefl].
  - intros t. apply elem_of_merge_tags.
  - by destruct (mem_expires_at a), (mem_expires_at b).
  - destruct (mem_entity_id a), (mem_entity_id b); simpl; try done. unfold lww. by case_match.
  - destruct (mem_source_uri a), (mem_source_uri b); simpl; try done. unfold lww. by case_match.
  - unfold lww. repeat case_decide; try done. by case_match.
Qed.

(** The merged metadata, key by key: the author, the governance block and
    the contradiction marks stay the local ones whatever the peer sent; the
    scope is the newest conscious choice; the vector clock is the pointwise
    maximum and not the winner's; any other key is kept, a collision being
    merged recursively or decided by the newest row. *)
Lemma merge_metadata_correct a b :
  metadata_ok a → metadata_ok b →
  let m := mem_metadata (merge_memory a b) in
  (∀ k, k ∈ owner_keys → json_get m k = json_get (mem_metadata a) k)
  ∧ json_get m SCOPE =
      scope_join (remote_wins_lww a b)
        (json_get (mem_metadata a) SCOPE) (json_get (mem_metadata b) SCOPE)
  ∧ parse_version_vector m =
      VectorClock.merge (parse_version_vector (mem_metadata a)) (parse_version_vector (mem_metadata b))
  ∧ ∀ k, k ∉ owner_keys → k ≠ SCOPE → k ≠ VERSION_VECTOR →
      json_get m k = join_field (remote_wins_lww a b)
        (json_get (mem_metadata a) k) (json_get (mem_metadata b) k).
Proof.
  intros Ha Hb. simpl. split_and!.
  - intros k Hk. rewrite merge_metadata_get by done. unfold metadata_key. by rewrite decide_True.
  - by rewrite merge_metadata_get.
  - assert (clock_wf (merged_clock (mem_metadata a) (mem_metadata b))) as Hwf
      by apply merge_wf, parse_version_vector_wf.
    unfold parse_version_vector at 1. rewrite merge_metadata_get by done.
    change (metadata_key a b VERSION_VECTOR)
      with (clock_entry (merged_clock (mem_metadata a) (mem_metadata b))).
    fold (merged_clock (mem_metadata a) (mem_metadata b)). unfold clock_entry.
    destruct (merged_clock _ _) as [[|e es]] eqn:E; [done|].
    cbn [entries mbind option_bind]. by rewrite clock_roundtrip.
  - intros k Hk ??. rewrite merge_metadata_get by done. unfold metadata_key.
    by rewrite !decide_False.
Qed.

(** Stamping a local write advances exactly the writing node's component
    of the row's clock, to the later of its old and the new time; every other
    component is unchanged, and an empty node id or non-object metadata is
    left alone. *)
Lemma stamp_version_vector_spec md node t :
  json_wf md →
  let c := parse_version_vector md in
  let c' := parse_version_vector (stamp_version_vector md node t) in
  (node = "" ∨ json_as_object md = None → stamp_version_vector md node t = md)
  ∧ (node ≠ "" → is_some (json_as_object md) = true →
     clock_le c c'
     ∧ VectorClock.latest_from c' node = Some (str_max (VectorClock.at_peer c node) t)
     ∧ ∀ p, p ≠ node → VectorClock.latest_from c' p = VectorClock.latest_from c p).
Proof.
  intros Hwf c c'. split.
  - intros [->|Hno]; [done|]. unfold stamp_version_vector. case_decide; [done|].
    by destruct md.
  - intros Hne Hobj. assert (c' = VectorClock.observe c node t) as ->.
    { subst c'. unfold stamp_version_vector. rewrite decide_False by done. fold c.
      destruct md as [| | | | |m]; try done. unfold parse_version_vector. simpl.
      rewrite bget_insert_eq. simpl. rewrite clock_roundtrip; [done|].
      apply observe_wf, parse_version_vector_wf. }
    unfold VectorClock.latest_from, clock_le, VectorClock.at_peer. split_and!.
    + intros p. rewrite observe_lookup. case_decide; subst; [|done].
      destruct (bget node (entries c)); simpl; [apply str_max_le_l|apply str_empty_le].
    + rewrite observe_lookup, decide_True by done.
      destruct (bget node (entries c)); simpl; [done|]. unfold str_max.
      split_strings; [done|]. by rewrite (str_le_antisym t "") by (done || apply str_empty_le).
    + intros p Hp. by rewrite observe_lookup, decide_False.
Qed.
End safety.

Section boundary.
Context `{S : ClockSerde, T : Chrono}.

Lemma sanitized_level m :
  attest_rank (sanitize_inbound_attestation m) = 0%Z
  ∧ (metadata_ok m → metadata_ok (sanitize_inbound_attestation m)).
Proof.
  unfold sanitize_inbound_attestation, metadata_ok, attest_rank, attest_level_of.
  destruct (mem_metadata m) as [| | | | |o] eqn:E; rewrite ?E; try done.
  unfold bcontains. destruct (bget ATTEST_LEVEL o) eqn:Eb; cbn [is_some].
  - unfold with_metadata. cbn [mem_metadata json_get]. rewrite bget_insert_eq. simpl. split; [done|].
    intros [[Hwf Hall]%json_wf_object _]. split; [|done]. apply json_wf_object.
    split; [by apply bwf_insert|]. clear -Hall.
    induction o as [|[k v] o IH]; simpl; [by repeat constructor|].
    apply Forall_cons in Hall as [? ?]. repeat case_match; repeat constructor; auto.
  - rewrite E. simpl. rewrite Eb. done.
Qed.

Lemma clamp_keeps m now skew :
  mem_id (clamp_inbound_updated_at m now skew) = mem_id m
  ∧ mem_metadata (clamp_inbound_updated_at m now skew) = mem_metadata m
  ∧ mem_content (clamp_inbound_updated_at m now skew) = mem_content m
  ∧ mem_lifecycle_state (clamp_inbound_updated_at m now skew) = mem_lifecycle_state m.
Proof. unfold clamp_inbound_updated_at. by repeat case_match. Qed.

Lemma sanitize_keeps m :
  mem_id (sanitize_inbound_attestation m) = mem_id m
  ∧ mem_updated_at (sanitize_inbound_attestation m) = mem_updated_at m
  ∧ mem_content (sanitize_inbound_attestation m) = mem_content m
  ∧ mem_lifecycle_state (sanitize_inbound_attestation m) = mem_lifecycle_state m.
Proof. unfold sanitize_inbound_attestation. by repeat case_match. Qed.

(** The row [merge_inbound] hands to the merge. *)
Definition prepared (inbound : Memory) (now : string) : Memory :=
  clamp_inbound_updated_at (sanitize_inbound_attestation inbound) now ATTEST_CREATED_AT_SKEW_SECS.

Lemma prepared_keeps inbound now :
  mem_id (prepared inbound now) = mem_id inbound
  ∧ mem_content (prepared inbound now) = mem_content inbound
  ∧ mem_lifecycle_state (prepared inbound now) = mem_lifecycle_state inbound
  ∧ attest_rank (prepared inbound now) = 0%Z.
Proof.
  unfold prepared.
  destruct (clamp_keeps (sanitize_inbound_attestation inbound) now ATTEST_CREATED_AT_SKEW_SECS)
    as (H1 & H2 & H3 & H4).
  destruct (sanitize_keeps inbound) as (S1 & _ & S3 & S4).
  rewrite H1, H3, H4, S1, S3, S4. split_and!; try done.
  unfold attest_rank, attest_level_of. rewrite H2. apply sanitized_level.
Qed.

Lemma attest_rank_range m : (0 ≤ attest_rank m ≤ 1)%Z.
Proof. unfold attest_rank. by destruct (attest_level_of m). Qed.

(** The timestamp a prepared row carries is never beyond the ceiling. *)
Lemma prepared_bounded `{CL : !ChronoLaws T} inbound now n u :
  parse_rfc3339 now = Some n →
  parse_rfc3339 (mem_updated_at (prepared inbound now)) = Some u →
  (dt_instant u ≤ dt_instant n + ATTEST_CREATED_AT_SKEW_SECS * 10 ^ 9)%Z.
Proof.
  unfold prepared, clamp_inbound_updated_at. intros Hn.
  destruct (sanitize_keeps inbound) as (_ & -> & _). rewrite Hn.
  destruct (parse_rfc3339 (mem_updated_at inbound)) as [t|] eqn:Ht.
  - case_decide as Hgt; cbn [mem_updated_at with_updated_at plus_seconds dt_instant] in *.
    + pose proof (chrono_roundtrip (plus_seconds n ATTEST_CREATED_AT_SKEW_SECS)) as Hr.
      intros Hu. rewrite Hu in Hr. simpl in Hr. injection Hr. simpl. lia.
    + destruct (sanitize_keeps inbound) as (_ & -> & _). rewrite Ht. intros [= <-]. lia.
  - destruct (sanitize_keeps inbound) as (_ & -> & _). by rewrite Ht.
Qed.

(** A row that arrives without an attestation of its own cannot win a tie. *)
Lemma inbound_wins existing inbound now :
  mem_id existing = mem_id inbound →
  remote_wins_lww existing (prepared inbound now) =
  (mem_updated_at (prepared inbound now) >?s mem_updated_at existing).
Proof.
  intros Hid. destruct (prepared_keeps inbound now) as (Hi & _ & _ & Hr).
  unfold remote_wins_lww, Z_gtb. rewrite Hr, Hi, Hid.
  pose proof (attest_rank_range existing).
  destruct (_ >?s _); [done|]. destruct (_ >?s _); [done|].
  rewrite bool_decide_false by lia. case_bool_decide; [done|].
  by apply str_gtb_false.
Qed.

Lemma attest_rank_merge `{SL : !ClockSerdeLaws S} a b :
  metadata_ok a → metadata_ok b → attest_rank b = 0%Z →
  (attest_rank (merge_memory a b) ≤ attest_rank a)%Z.
Proof.
  intros Ha Hb. unfold attest_rank, attest_level_of. intros Hr.
  assert ((json_get (mem_metadata b) ATTEST_LEVEL ≫= json_as_str)
          ≠ Some (AttestLevel_as_str AgentAttested)) as Hno by (by case_decide).
  clear Hr. cbn [mem_metadata merge_memory].
  rewrite merge_metadata_get by done. unfold metadata_key.
  assert (ATTEST_LEVEL ∉ owner_keys) as Hk by (by apply (bool_decide_unpack _); vm_compute).
  rewrite (decide_False (P := ATTEST_LEVEL ∈ owner_keys)), (decide_False (P := ATTEST_LEVEL = SCOPE)),
    (decide_False (P := ATTEST_LEVEL = VERSION_VECTOR)) by done.
  destruct (json_get (mem_metadata a) ATTEST_LEVEL) as [x|],
    (json_get (mem_metadata b) ATTEST_LEVEL) as [y|]; cbn [join_field mbind option_bind] in *; try lia.
  - destruct (json_as_object x) eqn:Ex, (json_as_object y) eqn:Ey;
      [|rewrite deep_merge_not_object by auto; destruct (remote_wins_lww a b);
       repeat case_decide; simplify_eq; simpl; try done; lia..].
    by destruct x, y.
  - repeat case_decide; simplify_eq; simpl; try done; lia.
Qed.

(** The receive boundary: an untrusted replica of an existing row
    replaces its content exactly when its timestamp, cut to the local clock
    plus the skew, is strictly later; asserting an attestation never helps, a
    tie never helps, the row's attestation level is never raised and the
    author is never rewritten. The lifecycle state goes with the content. *)
Lemma inbound_boundary `{CL : !ChronoLaws T, SL : !ClockSerdeLaws S} existing inbound now n :
  mem_id existing = mem_id inbound →
  metadata_ok existing → metadata_ok inbound →
  parse_rfc3339 now = Some n →
  let p := prepared inbound now in
  let m := merge_inbound_existing existing inbound now in
  (∀ u, parse_rfc3339 (mem_updated_at p) = Some u →
        dt_instant u ≤ dt_instant n + ATTEST_CREATED_AT_SKEW_SECS * 10 ^ 9)%Z
  ∧ (mem_content m, mem_lifecycle_state m) =
      (if mem_updated_at p >?s mem_updated_at existing
       then (mem_content inbound, mem_lifecycle_state inbound)
       else (mem_content existing, mem_lifecycle_state existing))
  ∧ (attest_rank m ≤ attest_rank existing)%Z
  ∧ json_get (mem_metadata m) AGENT_ID = json_get (mem_metadata existing) AGENT_ID.
Proof.
  intros Hid He Hi Hn p m. split; [intros u; by apply prepared_bounded|].
  assert (metadata_ok p) as Hp.
  { subst p. unfold metadata_ok, prepared. rewrite (proj1 (proj2 (clamp_keeps _ _ _))).
    by apply sanitized_level. }
  destruct (prepared_keeps inbound now) as (_ & Hc & Hl & Hr). fold p in Hc, Hl, Hr. split_and!.
  - change m with (merge_memory existing p). simpl. unfold lww. unfold p at 1 3.
    rewrite !inbound_wins by done. fold p. rewrite Hc, Hl. by case_match.
  - change m with (merge_memory existing p). by apply attest_rank_merge.
  - change m with (merge_memory existing p). simpl. rewrite merge_metadata_get by done. done.
Qed.
End boundary.

(* ------------------------------------------------------------------ *)
(** * Where order still matters *)

Definition demo_row (updated content : string) (uri : option string) (tags : list string)
    (life : LifecycleState) (md : btree value) : Memory :=
  mkMemory "m1" None Mid "ns" "title" content tags 5 f64_0_5 "api" 0 "2026-01-01" updated None None
    (JObject md) 0 (mem_memory_kind Memory_default) None None [] uri None
    (mem_confidence_source Memory_default) None None 1 life.

(** The fields merged as "present beats absent, else newest" are not
    associative: three replicas of one row, with three different update
    times, leave a different source when received in a different order,
    although every pair of them merges to the same source both ways. *)
Lemma present_else_newest_not_associative `{S : ClockSerde} :
  ∃ a b c : Memory,
    mem_id a = mem_id b ∧ mem_id b = mem_id c
    ∧ NoDup [mem_updated_at a; mem_updated_at b; mem_updated_at c]
    ∧ mem_source_uri (merge_memory (merge_memory a b) c)
      ≠ mem_source_uri (merge_memory a (merge_memory b c))
    ∧ mem_source_uri (merge_all a [b; c]) ≠ mem_source_uri (merge_all c [b; a])
    ∧ Forall (λ '(x, y), mem_source_uri (merge_memory x y) = mem_source_uri (merge_memory y x))
        [(a, b); (b, c); (a, c)].
Proof.
  exists (demo_row "2026-01-01" "one" (Some "doc:x") [] (mem_lifecycle_state Memory_default) []),
    (demo_row "2026-01-03" "three" None [] (mem_lifecycle_state Memory_default) []),
    (demo_row "2026-01-02" "two" (Some "doc:y") [] (mem_lifecycle_state Memory_default) []).
  split_and!; try done.
  - by apply (bool_decide_unpack _); vm_compute.
  - by repeat constructor.
Qed.

(* ------------------------------------------------------------------ *)
(** * Witnesses *)

(** A clock serialised as the object of its entries. *)
Definition demo_entries (m : btree value) : option (btree string) :=
  mapM (λ kv, pair kv.1 <$> json_as_str kv.2) m.

Definition demo_object (es : btree string) : btree value := (λ kv, (kv.1, JString kv.2)) <$> es.

#[local] Instance demo_serde : ClockSerde := {
  clock_to_value c := JObject (demo_object (entries c));
  clock_from_value v :=
    es ← json_as_object v ≫= demo_entries;
    if decide (bwf es) then Some (mkClock es) else None
}.

Lemma demo_entries_object es : demo_entries (demo_object es) = Some es.
Proof.
  unfold demo_entries, demo_object. induction es as [|[k t] es IH]; [done|].
  cbn [fmap list_fmap mapM]. by rewrite IH.
Qed.

#[local] Instance demo_serde_laws : ClockSerdeLaws demo_serde.
Proof.
  split.
  - intros [es] Hwf. cbn -[demo_entries demo_object]. rewrite demo_entries_object. simpl.
    by rewrite decide_True.
  - intros v c Hc. cbn -[demo_entries] in Hc.
    destruct (_ ≫= demo_entries); simpl in Hc; [|done]. case_decide; by simplify_eq.
Qed.

Lemma metadata_ok_demo updated content uri tags life md :
  bwf md → Forall (λ kv, match kv.2 with JString _ => True | _ => False end) md →
  metadata_ok (demo_row updated content uri tags life md).
Proof.
  intros Hwf Hall. split; [|done]. apply json_wf_object. split; [done|].
  eapply Forall_impl; [exact Hall|]. by intros [? []].
Qed.

Definition demo_a : Memory :=
  demo_row "2026-01-01" "one" None ["x"] LifeOpen
    [("agent_id", JString "alice"); ("topic", JString "t")].
Definition demo_b : Memory :=
  demo_row "2026-01-02" "two" None ["y"] LifeOpen
    [("agent_id", JString "mallory"); ("note", JString "n"); ("topic", JString "u")].

Ltac demo_metadata :=
  apply metadata_ok_demo; [by apply bwf_decide; vm_compute|by repeat constructor].

Lemma merge_idempotent_witness : replica_ok demo_a ∧ merge_memory demo_a demo_a = demo_a.
Proof.
  assert (replica_ok demo_a) as Hok.
  { split; [demo_metadata|by apply (bool_decide_unpack _); vm_compute|reflexivity]. }
  split; [exact Hok|]. apply (merge_idempotent demo_a Hok).
Defined.

Lemma merge_commutes_witness :
  mem_content (merge_memory demo_a demo_b) = "two"
  ∧ same_replica (merge_memory demo_a demo_b) (merge_memory demo_b demo_a).
Proof.
  split; [reflexivity|]. apply (merge_commutes demo_a demo_b);
    [reflexivity|by vm_compute|demo_metadata|demo_metadata|reflexivity|reflexivity].
Defined.

Definition demo_tie : Memory := demo_row "2026-01-01" "uno" None [] LifeOpen [].

Lemma merge_tie_keeps_local_witness :
  mem_content (merge_memory demo_a demo_tie) = "one"
  ∧ mem_content (merge_memory demo_tie demo_a) = "uno".
Proof.
  destruct (merge_tie_keeps_local demo_a demo_tie) as (_ & _ & H1 & H2 & _);
    [reflexivity..|]. split; [exact H1|exact H2].
Defined.

Definition demo_c : Memory := demo_row "2026-01-03" "three" None ["z"; "x"] LifeOpen [].

Lemma merge_any_order_witness :
  mem_content (merge_all demo_c [demo_a; demo_b]) = "three"
  ∧ same_outcome (merge_all demo_a [demo_b; demo_c]) (merge_all demo_c [demo_a; demo_b]).
Proof.
  split; [reflexivity|].
  apply (merge_any_order demo_a [demo_b; demo_c] demo_c [demo_a; demo_b]).
  - apply (Permutation_app_comm [demo_a; demo_b] [demo_c]).
  - by apply (bool_decide_unpack _); vm_compute.
  - by repeat constructor.
Defined.

Lemma merge_metadata_correct_witness :
  json_get (mem_metadata (merge_memory demo_a demo_b)) AGENT_ID = Some (JString "alice")
  ∧ json_get (mem_metadata (merge_memory demo_a demo_b)) "topic" = Some (JString "u").
Proof.
  destruct (merge_metadata_correct demo_a demo_b) as (Howner & _ & _ & Hother);
    [demo_metadata..|]. split.
  - apply Howner. by apply (bool_decide_unpack _); vm_compute.
  - apply Hother; by apply (bool_decide_unpack _); vm_compute.
Defined.

Lemma stamp_version_vector_spec_witness :
  VectorClock.latest_from
    (parse_version_vector (stamp_version_vector (mem_metadata demo_a) "n1" "2026-02-01")) "n1"
  = Some "2026-02-01".
Proof.
  destruct (stamp_version_vector_spec (mem_metadata demo_a) "n1" "2026-02-01") as [_ H].
  - apply (metadata_ok_demo "2026-01-01" "one" None ["x"] LifeOpen);
      [by apply bwf_decide; vm_compute|by repeat constructor].
  - apply H; [done|reflexivity].
Defined.

(** Instants printed as decimal digits. *)
#[local] Instance demo_chrono : Chrono := {
  parse_rfc3339 s := (λ d, mkDateTime (Z.of_int d) 0) <$> DecimalString.NilEmpty.int_of_string s;
  to_rfc3339 t := DecimalString.NilEmpty.string_of_int (Z.to_int (dt_instant t))
}.

#[local] Instance demo_chrono_laws : ChronoLaws demo_chrono.
Proof.
  intros t. simpl. rewrite DecimalString.NilEmpty.isi. simpl. by rewrite DecimalZ.of_to.
Qed.

Definition demo_held : Memory :=
  demo_row "1000000000000" "held" None [] LifeQuarantined [("agent_id", JString "alice")].
Definition demo_pushed : Memory :=
  demo_row "9000000000000" "pushed" None [] LifeOpen
    [("agent_id", JString "mallory"); ("attest_level", JString "agent_attested")].

(** A quarantined row and a post-dated push of it: the timestamp is cut to the
    ceiling, the attestation is not believed, and the state is replaced. *)
Lemma inbound_boundary_witness :
  mem_updated_at (prepared demo_pushed "2000000000000") = "2300000000000"
  ∧ mem_lifecycle_state (merge_inbound_existing demo_held demo_pushed "2000000000000") = LifeOpen
  ∧ (attest_rank (merge_inbound_existing demo_held demo_pushed "2000000000000") ≤ 0)%Z
  ∧ json_get (mem_metadata (merge_inbound_existing demo_held demo_pushed "2000000000000")) AGENT_ID
    = Some (JString "alice").
Proof.
  split; [vm_compute; reflexivity|].
  destruct (inbound_boundary demo_held demo_pushed "2000000000000" (mkDateTime 2000000000000 0))
    as (_ & Hc & Hr & Ha); [reflexivity|demo_metadata|demo_metadata|vm_compute; reflexivity|].
  split_and!; [exact (f_equal snd Hc)|exact Hr|exact Ha].
Defined.
