(* ===== verification/Permissions.v ===== *)
(** The permission-rule evaluator: glob matching, rule selection and the
    combination of rules, hook decisions and mode into one decision
    ([src/src/governance/mod.rs]; hook decisions and deltas from
    [src/src/hooks/decision.rs] and [src/src/hooks/events.rs]; the mode from
    [src/src/config.rs]; remembered decisions from [src/src/approvals.rs]). *)
From S2P Require Import Prelude.
From S2P Require Import F64.
From S2P Require Import Text.
From S2P Require Import Json.
From S2P Require Import Memory.

(* ------------------------------------------------------------------ *)
(** * Data *)

Inductive PermissionsMode : Type := Enforce | Advisory | ModeOff.

#[global] Instance PermissionsMode_eq_dec : EqDecision PermissionsMode.
Proof. solve_decision. Defined.

Definition OP_MEMORY_ARCHIVE : string := "memory_archive".

Inductive Op : Type :=
| MemoryStore | MemoryLink | MemoryDelete | MemoryArchive | MemoryConsolidate | MemoryReplay.

#[global] Instance Op_eq_dec : EqDecision Op.
Proof. solve_decision. Defined.

Definition Op_as_str (o : Op) : string :=
  match o with
  | MemoryStore => "memory_store"
  | MemoryLink => "memory_link"
  | MemoryDelete => "memory_delete"
  | MemoryArchive => OP_MEMORY_ARCHIVE
  | MemoryConsolidate => "memory_consolidate"
  | MemoryReplay => "memory_replay"
  end.

Definition Op_from_str (s : string) : option Op :=
  if decide (s = "memory_store") then Some MemoryStore
  else if decide (s = "memory_link") then Some MemoryLink
  else if decide (s = "memory_delete") then Some MemoryDelete
  else if decide (s = OP_MEMORY_ARCHIVE) then Some MemoryArchive
  else if decide (s = "memory_consolidate") then Some MemoryConsolidate
  else if decide (s = "memory_replay") then Some MemoryReplay
  else None.

Record MemoryDelta : Type := mkDelta {
  delta_tier : option Tier;
  delta_namespace : option string;
  delta_title : option string;
  delta_content : option string;
  delta_tags : option (list string);
  delta_priority : option Z;
  delta_confidence : option f64;
  delta_source : option string;
  delta_expires_at : option string;
  delta_metadata : option value
}.

Definition delta_default : MemoryDelta :=
  mkDelta None None None None None None None None None None.

Inductive HookDecision : Type :=
| HookAllow
| HookModify (delta : MemoryDelta)
| HookDeny (reason : string) (code : Z)
| HookAskUser (prompt : string) (options : list string) (default : option string).

Inductive Decision : Type :=
| Allow
| Deny (reason : string)
| Modify (delta : MemoryDelta)
| Ask (prompt : string).

Record PermissionContext : Type := mkContext {
  ctx_op : Op;
  ctx_namespace : string;
  ctx_agent_id : string;
  ctx_payload : value
}.

Inductive RuleDecision : Type := RuleAllow | RuleDeny | RuleAsk.

#[global] Instance RuleDecision_eq_dec : EqDecision RuleDecision.
Proof. solve_decision. Defined.

Record PermissionRule : Type := mkRule {
  rule_namespace_pattern : string;
  rule_op : string;
  rule_agent_pattern : string;
  rule_decision : RuleDecision;
  rule_reason : option string
}.

Definition default_agent_pattern : string := "*".

(* ------------------------------------------------------------------ *)
(** * Glob matching *)

Definition star : ascii := Ascii.ascii_of_N 42.

Definition is_star (c : ascii) : bool := bool_decide (c = star).

(** [while p < pat.len() && pat[p] == b'*'] then [p == pat.len()] *)
Fixpoint only_stars (p : list ascii) : bool :=
  match p with
  | [] => true
  | c :: p' => is_star c && only_stars p'
  end.

(** The state of the backtracker's loop: what is left of the pattern
    ([pat[p..]]) and of the value ([val[v..]]), and, once a star was met, what
    follows it in the pattern, where in the value it was met or last moved to
    ([val[star_v..]]), and whether it is a double star. *)
Definition star_state : Type := option (list ascii * list ascii * bool).

(** One run of the loop; [None] when the fuel ends first. *)
Fixpoint glob_loop (fuel : nat) (p v : list ascii) (st : star_state) : option bool :=
  match fuel with
  | O => None
  | S fuel =>
      match v with
      | [] => Some (only_stars p)
      | c :: v' =>
          let mismatch :=
            match st with
            | Some (sp, s :: sv, double) =>
                if negb double && bool_decide (s = slash) then Some false
                else glob_loop fuel sp sv (Some (sp, sv, double))
            | _ => Some false
            end in
          match p with
          | d :: p1 =>
              if is_star d then
                let double := match p1 with d' :: _ => is_star d' | [] => false end in
                let p' := if double then drop 1 p1 else p1 in
                glob_loop fuel p' v (Some (p', v, double))
              else if bool_decide (d = c) then glob_loop fuel p1 v' st
              else mismatch
          | [] => mismatch
          end
      end
  end.

Definition glob_fuel (p v : list ascii) : nat :=
  (length p + 2) * ((length v + 2) * (length p + 2)).

Definition glob_inner (pat val : list ascii) : bool :=
  default false (glob_loop (glob_fuel pat val) pat val None).

Definition glob_matches (pattern value : string) : bool :=
  glob_inner (String.list_ascii_of_string pattern)
    (String.list_ascii_of_string value).

(** [pattern.bytes().take_while(|b| *b != b'*').count()] *)
Fixpoint pattern_specificity (pattern : string) : nat :=
  match pattern with
  | EmptyString => 0
  | String c pattern' => if is_star c then 0 else S (pattern_specificity pattern')
  end.

(* ------------------------------------------------------------------ *)
(** * Rule selection and combination *)

Definition rule_matches (ctx : PermissionContext) (r : PermissionRule) : bool :=
  bool_decide (rule_op r = Op_as_str (ctx_op ctx))
  && glob_matches (rule_namespace_pattern r) (ctx_namespace ctx)
  && glob_matches (rule_agent_pattern r) (ctx_agent_id ctx).

Definition rule_rank (r : PermissionRule) : nat * nat :=
  (pattern_specificity (rule_namespace_pattern r),
   if str_contains_char star (rule_agent_pattern r) then 0 else 1).

(** [sb.cmp(&sa)] is not [Greater]: the first ranks at least as high. *)
Definition ranks_before (a b : PermissionRule) : Prop :=
  let '(na, aa) := rule_rank a in
  let '(nb, ab) := rule_rank b in
  nb < na ∨ nb = na ∧ ab ≤ aa.

#[global] Instance ranks_before_dec : RelDecision ranks_before.
Proof. intros a b. unfold ranks_before. destruct (rule_rank a), (rule_rank b). apply _. Defined.

Definition matched_rules (ctx : PermissionContext) (rules : list PermissionRule) :
    list PermissionRule :=
  stable_sort ranks_before (List.filter (rule_matches ctx) rules).

(** Field-wise: a field the next delta sets overrides the prior one. *)
Definition merge_delta (prior : option MemoryDelta) (next : MemoryDelta) : MemoryDelta :=
  let out := default delta_default prior in
  let pick {A} (n o : option A) := match n with Some _ => n | None => o end in
  mkDelta (pick (delta_tier next) (delta_tier out))
    (pick (delta_namespace next) (delta_namespace out))
    (pick (delta_title next) (delta_title out))
    (pick (delta_content next) (delta_content out))
    (pick (delta_tags next) (delta_tags out))
    (pick (delta_priority next) (delta_priority out))
    (pick (delta_confidence next) (delta_confidence out))
    (pick (delta_source next) (delta_source out))
    (pick (delta_expires_at next) (delta_expires_at out))
    (pick (delta_metadata next) (delta_metadata out)).

(** [format!("{s:?}")]: quoted, with the quote, the backslash and the control
    bytes escaped; bytes of printable characters stand for themselves. *)
Definition hex_digit (n : N) : string :=
  String (Ascii.ascii_of_N (if (n <? 10)%N then 48 + n else 87 + n)) "".

Definition quote : string := String (Ascii.ascii_of_N 34) "".
Definition backslash : string := String (Ascii.ascii_of_N 92) "".

Definition debug_char (c : ascii) : string :=
  let n := Ascii.N_of_ascii c in
  if (n =? 34)%N || (n =? 92)%N then backslash +:+ String c ""
  else if (n =? 0)%N then backslash +:+ "0"
  else if (n =? 9)%N then backslash +:+ "t"
  else if (n =? 10)%N then backslash +:+ "n"
  else if (n =? 13)%N then backslash +:+ "r"
  else if (n <? 16)%N then backslash +:+ "u{" +:+ hex_digit n +:+ "}"
  else if (n <? 32)%N || (n =? 127)%N then
    backslash +:+ "u{" +:+ hex_digit (n / 16) +:+ hex_digit (n mod 16) +:+ "}"
  else String c "".

Fixpoint debug_chars (s : string) : string :=
  match s with EmptyString => "" | String c s' => debug_char c +:+ debug_chars s' end.

Definition debug_str (s : string) : string := quote +:+ debug_chars s +:+ quote.

Definition deny_reason (r : PermissionRule) : string :=
  match rule_reason r with
  | Some reason => reason
  | None =>
      "denied by permission rule (namespace_pattern=" +:+ rule_namespace_pattern r
      +:+ ", op=" +:+ rule_op r +:+ ", agent_pattern=" +:+ rule_agent_pattern r +:+ ")"
  end.

Definition ask_prompt (r : PermissionRule) : string :=
  match rule_reason r with
  | Some reason => reason
  | None =>
      "permission rule requests approval (namespace_pattern=" +:+ rule_namespace_pattern r
      +:+ ", op=" +:+ rule_op r +:+ ")"
  end.

Definition mode_default_for (_mode : PermissionsMode) (_ctx : PermissionContext) : Decision := Allow.

Definition hook_deny (h : HookDecision) : option string :=
  match h with HookDeny reason _ => Some reason | _ => None end.
Definition hook_delta (h : HookDecision) : option MemoryDelta :=
  match h with HookModify d => Some d | _ => None end.
Definition hook_allow (h : HookDecision) : bool :=
  match h with HookAllow => true | _ => false end.
Definition hook_ask (h : HookDecision) : option string :=
  match h with HookAskUser prompt _ _ => Some prompt | _ => None end.

(** The first element the function maps to something: a loop that returns. *)
Fixpoint find_map {A B} (f : A → option B) (l : list A) : option B :=
  match l with
  | [] => None
  | x :: l' => match f x with Some y => Some y | None => find_map f l' end
  end.

Definition composed_delta (hooks : list HookDecision) : option MemoryDelta :=
  fold_left
    (λ composed h,
       match hook_delta h with Some d => Some (merge_delta composed d) | None => composed end)
    hooks None.

(** What the guard on a namespace rewrite answers: the decision that replaces
    the modification, if any. *)
Definition escalation (pinned_ns new_ns : string) (rebound : Decision) : option Decision :=
  match rebound with
  | Deny reason =>
      Some (Deny ("namespace escalation rejected: hook proposed Modify into namespace "
        +:+ debug_str new_ns +:+ " (from pinned " +:+ debug_str pinned_ns
        +:+ ") which is denied: " +:+ reason))
  | Ask reason =>
      Some (Ask ("namespace escalation requires approval: hook proposed Modify into namespace "
        +:+ debug_str new_ns +:+ " (from pinned " +:+ debug_str pinned_ns
        +:+ "); rebound rule prompts: " +:+ reason))
  | Allow | Modify _ => None
  end.

Definition rule_is (d : RuleDecision) (r : PermissionRule) : bool :=
  bool_decide (rule_decision r = d).

(** The evaluator, with the evaluation of the rebound context (its own
    recursive call, which passes no hook decisions) as an argument. *)
Definition evaluate_pass (rebound : PermissionContext → Decision) (ctx : PermissionContext)
    (hook_decisions : list HookDecision) (rules : list PermissionRule) (mode : PermissionsMode) :
    Decision :=
  if decide (mode = ModeOff) then Allow
  else
    let pinned_ns := ctx_namespace ctx in
    let rule_outcomes := matched_rules ctx rules in
    match List.find (rule_is RuleDeny) rule_outcomes with
    | Some r => Deny (deny_reason r)
    | None =>
        match find_map hook_deny hook_decisions with
        | Some reason => Deny reason
        | None =>
            match composed_delta hook_decisions with
            | Some delta =>
                let guard :=
                  match delta_namespace delta with
                  | Some new_ns =>
                      if decide (new_ns = pinned_ns) then None
                      else
                        escalation pinned_ns new_ns
                          (rebound (mkContext (ctx_op ctx) new_ns (ctx_agent_id ctx)
                             (ctx_payload ctx)))
                  | None => None
                  end in
                default (Modify delta) guard
            | None =>
                if existsb (rule_is RuleAllow) rule_outcomes || existsb hook_allow hook_decisions
                then Allow
                else
                  let prompt :=
                    match List.find (rule_is RuleAsk) rule_outcomes with
                    | Some r => Some (ask_prompt r)
                    | None => find_map hook_ask hook_decisions
                    end in
                  match prompt with
                  | None => mode_default_for mode ctx
                  | Some prompt =>
                      match mode with
                      | Enforce =>
                          Deny ("permission ask escalated to deny under enforce mode: " +:+ prompt)
                      | Advisory | ModeOff => Ask prompt
                      end
                  end
            end
        end
    end.

(** A pass without hook decisions composes no delta, so the recursion is one
    level deep. *)
Definition evaluate_with (ctx : PermissionContext) (hook_decisions : list HookDecision)
    (rules : list PermissionRule) (mode : PermissionsMode) : Decision :=
  evaluate_pass (λ ctx', evaluate_pass (λ _, Allow) ctx' [] rules mode)
    ctx hook_decisions rules mode.

(* ------------------------------------------------------------------ *)
(** * Remembered operator decisions *)

Record SyntheticPermissionRule : Type := mkSynthetic {
  syn_action_type : string;
  syn_namespace : string;
  syn_agent_id : option string;
  syn_decision : string;
  syn_recorded_at : string
}.

Definition op_matches_action_type (op : Op) (action_type : string) : bool :=
  match op with
  | MemoryStore => bool_decide (action_type = "store")
  | MemoryDelete => bool_decide (action_type = "delete")
  | MemoryArchive => bool_decide (action_type = "archive") || bool_decide (action_type = "promote")
  | MemoryConsolidate => bool_decide (action_type = "consolidate")
  | MemoryLink => bool_decide (action_type = "link")
  | MemoryReplay => false
  end.

Definition synthetic_decision (verb : string) : option RuleDecision :=
  if bool_decide (verb = "approve") || bool_decide (verb = "allow") then Some RuleAllow
  else if bool_decide (verb = "deny") || bool_decide (verb = "reject") then Some RuleDeny
  else None.

Definition synthetic_ops : list Op :=
  [MemoryStore; MemoryDelete; MemoryArchive; MemoryConsolidate; MemoryLink].

Definition synthetic_rule (s : SyntheticPermissionRule) : list PermissionRule :=
  match synthetic_decision (syn_decision s) with
  | None => []
  | Some decision =>
      (λ op, mkRule (syn_namespace s) (Op_as_str op) (default "*" (syn_agent_id s)) decision
               (Some ("remembered operator decision (recorded_at=" +:+ syn_recorded_at s +:+ ")")))
      <$> List.filter (λ op, op_matches_action_type op (syn_action_type s)) synthetic_ops
  end.

Definition synthetic_rules_as_permission_rules (synth : list SyntheticPermissionRule) :
    list PermissionRule :=
  synth ≫= synthetic_rule.

(** [synth], [active] and [mode] are the process-wide registries. *)
Definition evaluate (ctx : PermissionContext) (hook_decisions : list HookDecision)
    (synth : list SyntheticPermissionRule) (active : list PermissionRule)
    (mode : PermissionsMode) : Decision :=
  evaluate_with ctx hook_decisions (synthetic_rules_as_permission_rules synth ++ active) mode.

Definition default_v07_secure_mode : PermissionsMode := Enforce.

Definition resolve_v07_default_mode (configured : option PermissionsMode) :
    PermissionsMode * option string :=
  match configured with
  | Some mode => (mode, None)
  | None =>
      (default_v07_secure_mode,
       Some ("v0.7.0 default changed to enforce; set permissions.mode=advisory in config to "
             +:+ "opt out — see release notes."))
  end.

(* ------------------------------------------------------------------ *)
(** * What a glob means *)

Inductive glob_tok : Type :=
| TLit (c : ascii)
| TStar (double : bool).

(** A pattern read left to right, two stars at a time. *)
Fixpoint toks (p : list ascii) : list glob_tok :=
  match p with
  | [] => []
  | d :: p1 =>
      if is_star d then
        match p1 with
        | d' :: p2 => if is_star d' then TStar true :: toks p2 else TStar false :: toks p1
        | [] => [TStar false]
        end
      else TLit d :: toks p1
  end.

(** A single star stands for a run without slashes, a double star for any
    run. *)
Inductive glob_meaning : list glob_tok → list ascii → Prop :=
| gm_nil : glob_meaning [] []
| gm_lit c t v : glob_meaning t v → glob_meaning (TLit c :: t) (c :: v)
| gm_star double t w v :
    (double = false → slash ∉ w) → glob_meaning t v → glob_meaning (TStar double :: t) (w ++ v).

(** All the stars of the pattern are of one kind. *)
Definition stars_are (double : bool) (t : list glob_tok) : Prop :=
  Forall (λ k, match k with TStar b => b = double | TLit _ => True end) t.

(* ------------------------------------------------------------------ *)
(** * Lemmas: the loop ends *)

Definition glob_measure (P V : nat) (p v : list ascii) (st : star_state) : nat :=
  let '(a, b) := match st with Some (sp, sv, _) => (length sp, length sv) | None => (P + 1, V + 1) end in
  a * ((V + 2) * (P + 2)) + (b * (P + 2) + length p).

Definition glob_inv (P V : nat) (p v : list ascii) (st : star_state) : Prop :=
  length p ≤ P ∧ length v ≤ V
  ∧ match st with
    | Some (sp, sv, _) =>
        length p ≤ length sp ∧ length sp ≤ P ∧ length v ≤ length sv ∧ length sv ≤ V
    | None => True
    end.

Lemma glob_loop_ends P V fuel p v st :
  glob_inv P V p v st → glob_measure P V p v st < fuel → is_Some (glob_loop fuel p v st).
Proof.
  revert p v st. induction fuel as [|fuel IH]; intros p v st Hinv Hm; [lia|].
  cbn [glob_loop]. destruct v as [|c v']; [by eexists|].
  assert (is_Some match st with
    | Some (sp, s :: sv, double) =>
        if negb double && bool_decide (s = slash) then Some false
        else glob_loop fuel sp sv (Some (sp, sv, double))
    | _ => Some false end) as Hback.
  { destruct st as [[[sp [|s sv]] double]|]; [by eexists| |by eexists].
    destruct (negb double && bool_decide (s = slash)); [by eexists|].
    unfold glob_inv, glob_measure in *. simpl in *. apply IH; simpl; [lia|nia]. }
  destruct p as [|d p1]; [done|].
  destruct (is_star d).
  - generalize match p1 with d' :: _ => is_star d' | [] => false end as double. intros double.
    assert (length (if double then drop 1 p1 else p1) ≤ length p1) as Hlen
      by (destruct double; [rewrite length_drop|]; lia).
    unfold glob_inv, glob_measure in *. destruct st as [[[sp sv] db]|]; simpl in *;
      (apply IH; simpl; [lia|nia]).
  - destruct (bool_decide (d = c)); [|done].
    unfold glob_inv, glob_measure in *. destruct st as [[[sp sv] db]|]; simpl in *;
      (apply IH; simpl; [lia|nia]).
Qed.

(** The fuel is enough, so [glob_inner] is the loop's answer. *)
Lemma glob_inner_ends p v : is_Some (glob_loop (glob_fuel p v) p v None).
Proof.
  apply (glob_loop_ends (length p) (length v)).
  - unfold glob_inv. lia.
  - unfold glob_measure, glob_fuel. nia.
Qed.

(* ------------------------------------------------------------------ *)
(** * Lemmas: what the loop accepts *)

Lemma toks_star d p1 :
  is_star d = true →
  let double := match p1 with d' :: _ => is_star d' | [] => false end in
  toks (d :: p1) = TStar double :: toks (if double then drop 1 p1 else p1).
Proof.
  intros Hd. cbn [toks]. rewrite Hd. destruct p1 as [|d' p2]; [done|]. by destruct (is_star d').
Qed.

Lemma toks_lit d p1 : is_star d = false → toks (d :: p1) = TLit d :: toks p1.
Proof. intros Hd. cbn [toks]. by rewrite Hd. Qed.

Lemma gm_star_inv double t v :
  glob_meaning (TStar double :: t) v →
  ∃ w v', v = w ++ v' ∧ (double = false → slash ∉ w) ∧ glob_meaning t v'.
Proof. inversion 1; subst. eauto. Qed.

Lemma gm_star_empty double t v : glob_meaning t v → glob_meaning (TStar double :: t) v.
Proof. intros H. apply (gm_star double t [] v); [|done]. intros _. apply not_elem_of_nil. Qed.

Lemma gm_star_more double t s v :
  (double = false → s ≠ slash) →
  glob_meaning (TStar double :: t) v → glob_meaning (TStar double :: t) (s :: v).
Proof.
  intros Hs (w & v' & -> & Hw & Ht)%gm_star_inv.
  apply (gm_star double t (s :: w)); [|done]. intros ->. apply not_elem_of_cons. naive_solver.
Qed.

Lemma only_stars_meaning p : only_stars p = true → glob_meaning (toks p) [].
Proof.
  remember (length p) as n eqn:Hn. revert p Hn.
  induction n as [n IH] using lt_wf_ind. intros [|d p1] ->; simpl; [constructor|].
  intros [Hd Hp]%andb_true_iff. rewrite Hd.
  destruct p1 as [|d' p2]; [by apply gm_star_empty; constructor|].
  simpl in Hp. apply andb_true_iff in Hp as [Hd' Hp]. rewrite Hd'.
  apply gm_star_empty. apply (IH (length p2)); simpl; [lia|done|done].
Qed.

(** What is left to match: the pattern from here, or the last star again. *)
Definition glob_pending (p v : list ascii) (st : star_state) : Prop :=
  glob_meaning (toks p) v
  ∨ match st with
    | Some (sp, sv, double) => glob_meaning (TStar double :: toks sp) sv
    | None => False
    end.

Lemma glob_loop_sound fuel p v st :
  glob_loop fuel p v st = Some true → glob_pending p v st.
Proof.
  revert p v st. induction fuel as [|fuel IH]; intros p v st; [done|].
  cbn [glob_loop]. destruct v as [|c v'].
  { intros [= Hp]. left. by apply only_stars_meaning. }
  assert (match st with
    | Some (sp, s :: sv, double) =>
        if negb double && bool_decide (s = slash) then Some false
        else glob_loop fuel sp sv (Some (sp, sv, double))
    | _ => Some false end = Some true → glob_pending p (c :: v') st) as Hback.
  { destruct st as [[[sp [|s sv]] double]|]; [done| |done].
    destruct (negb double && bool_decide (s = slash)) eqn:Hs; [done|]. intros H%IH. right.
    apply gm_star_more.
    - intros ->. simpl in Hs. by apply bool_decide_eq_false in Hs.
    - destruct H as [H|H]; [by apply gm_star_empty|done]. }
  destruct p as [|d p1]; [done|]. destruct (is_star d) eqn:Hd.
  - intros H%IH. left. rewrite (toks_star _ _ Hd).
    destruct H as [H|H]; [by apply gm_star_empty|done].
  - case_bool_decide as Hc; [|done]. subst. intros [H|H]%IH; [left|by right].
    rewrite toks_lit by done. by constructor.
Qed.

(** A pattern prefix without stars. *)
Definition literal (l : list ascii) : Prop := Forall (λ c, is_star c = false) l.

Lemma toks_literal l p : literal l → toks (l ++ p) = (TLit <$> l) ++ toks p.
Proof.
  induction 1 as [|c l Hc Hl IH]; simpl; [done|]. rewrite Hc. by rewrite IH.
Qed.

Lemma gm_literal l t v :
  glob_meaning ((TLit <$> l) ++ t) v → ∃ v', v = l ++ v' ∧ glob_meaning t v'.
Proof.
  revert v. induction l as [|c l IH]; intros v H; simpl in *; [by exists v|].
  inversion H as [|? ? v' H'|]; subst. destruct (IH _ H') as (v2 & -> & ?). by exists v2.
Qed.

Lemma gm_nil_only_stars p : glob_meaning (toks p) [] → only_stars p = true.
Proof.
  remember (length p) as n eqn:Hn. revert p Hn.
  induction n as [n IH] using lt_wf_ind. intros [|d p1] -> H; [done|]. simpl.
  destruct (is_star d) eqn:Hd; [|rewrite toks_lit in H by done; inversion H].
  rewrite (toks_star _ _ Hd) in H. apply gm_star_inv in H as (w & v' & Heq & _ & Ht).
  symmetry in Heq. apply app_eq_nil in Heq as [-> ->]. simpl.
  destruct p1 as [|d' p2]; [done|]. destruct (is_star d') eqn:Hd'; simpl.
  - rewrite Hd'. simpl. apply (IH (length p2)); simpl; [lia|done|done].
  - by apply (IH (length (d' :: p2))) in Ht; simpl in *; [rewrite Hd' in Ht| lia|].
Qed.

(** A text that is repeated after itself, shifted past a slash-free run, has
    no slash. *)
Lemma shifted_no_slash (x l y r : list ascii) :
  x ≠ [] → slash ∉ x → l ++ y = x ++ l ++ r → slash ∉ l.
Proof.
  intros Hx Hs. remember (length l) as n eqn:Hn. revert l y Hn.
  induction n as [n IH] using lt_wf_ind. intros l y -> Heq.
  destruct (decide (length l ≤ length x)) as [Hle|Hgt].
  - assert (l = take (length l) x) as ->.
    { rewrite <-(take_app_length l y) at 1. rewrite Heq. by rewrite take_app_le. }
    intros Hin. by apply Hs, (subseteq_take (length l)).
  - assert (l = x ++ drop (length x) l) as Hl.
    { rewrite <-(take_drop (length x) l) at 1. f_equal.
      rewrite <-(take_app_le l y) by lia. by rewrite Heq, take_app_length. }
    rewrite Hl. rewrite elem_of_app. intros [|Hin]; [done|].
    destruct x as [|a x]; [done|].
    apply (IH (length (drop (length (a :: x)) l))) with (drop (length (a :: x)) l)
      (y); [rewrite length_drop; simpl in *; lia|done| |done].
    rewrite Hl in Heq at 1. rewrite <-app_assoc in Heq. apply app_inv_head in Heq.
    rewrite Heq. rewrite Hl at 1. by rewrite <-app_assoc.
Qed.

Lemma star_can_restart k lits t s v sv :
  lits ++ v = s :: sv → (k = false → s ≠ slash) →
  glob_meaning (TStar k :: (TLit <$> lits) ++ TStar k :: t) sv →
  glob_meaning (TStar k :: t) v.
Proof.
  intros Hsv Hs (w & v1 & -> & Hw & H1)%gm_star_inv.
  apply gm_literal in H1 as (v2 & -> & H2). apply gm_star_inv in H2 as (w2 & v3 & -> & Hw2 & H3).
  change (s :: w ++ lits ++ w2 ++ v3) with ((s :: w) ++ lits ++ w2 ++ v3) in Hsv.
  assert (v = drop (length lits) ((s :: w) ++ lits) ++ w2 ++ v3) as ->.
  { rewrite <-(drop_app_length lits v), Hsv. rewrite (app_assoc (s :: w)).
    rewrite drop_app_le by (rewrite length_app; simpl; lia). done. }
  rewrite app_assoc. apply gm_star; [|done]. intros ->.
  assert (slash ∉ s :: w) as Hsw by (apply not_elem_of_cons; naive_solver).
  assert (slash ∉ lits) as Hl by (by eapply (shifted_no_slash (s :: w)); [| |exact Hsv]).
  rewrite elem_of_app. intros [Hin|Hin]; [|by apply Hw2].
  apply subseteq_drop in Hin. set_solver.
Qed.

(** The loop's invariant for a pattern with one kind of star: since the last
    star, pattern and value have advanced over the same literal text. *)
Definition glob_uniform (k : bool) (p v : list ascii) (st : star_state) : Prop :=
  stars_are k (toks p)
  ∧ match st with
    | Some (sp, sv, b) =>
        b = k ∧ stars_are k (toks sp) ∧ ∃ lits, literal lits ∧ sp = lits ++ p ∧ sv = lits ++ v
    | None => True
    end.

(** A match from here, or one that restarts from the last star further on. *)
Definition glob_open (k : bool) (p v : list ascii) (st : star_state) : Prop :=
  glob_meaning (toks p) v
  ∨ match st with
    | Some (sp, s :: sv, _) => (k = false → s ≠ slash) ∧ glob_meaning (TStar k :: toks sp) sv
    | _ => False
    end.

Lemma gm_star_open k sp v :
  glob_meaning (TStar k :: toks sp) v → glob_open k sp v (Some (sp, v, k)).
Proof.
  intros (w & v' & -> & Hw & Ht)%gm_star_inv. unfold glob_open.
  destruct w as [|s w]; [by left|]. right. split.
  - intros Hk. specialize (Hw Hk). set_solver.
  - apply gm_star; [|done]. intros Hk. specialize (Hw Hk). set_solver.
Qed.

Lemma open_at_end k p st : glob_uniform k p [] st → glob_open k p [] st → only_stars p = true.
Proof.
  intros [_ Hst] [H|H]; [by apply gm_nil_only_stars|].
  destruct st as [[[sp [|s sv]] b]|]; [done| |done]. destruct H as [_ H].
  destruct Hst as (_ & _ & lits & Hl & -> & Hsv). rewrite app_nil_r in Hsv. subst lits.
  apply gm_star_inv in H as (w & v' & Hv & _ & H). rewrite toks_literal in H by done.
  apply gm_literal in H as (v2 & -> & _). apply (f_equal length) in Hv.
  rewrite !length_app in Hv. simpl in Hv. lia.
Qed.

Lemma glob_loop_complete k fuel p v st b :
  glob_uniform k p v st → glob_open k p v st → glob_loop fuel p v st = Some b → b = true.
Proof.
  revert p v st. induction fuel as [|fuel IH]; intros p v st Hu Ho; [done|].
  cbn [glob_loop]. destruct v as [|c v'].
  { intros [= <-]. by eapply open_at_end. }
  assert (¬ glob_meaning (toks p) (c :: v') → match st with
    | Some (sp, s :: sv, double) =>
        if negb double && bool_decide (s = slash) then Some false
        else glob_loop fuel sp sv (Some (sp, sv, double))
    | _ => Some false end = Some b → b = true) as Hback.
  { intros Hno. destruct Ho as [Ho|Ho]; [done|].
    destruct st as [[[sp [|s sv]] d]|]; [done| |done].
    destruct Hu as (_ & -> & Hsp & _). destruct Ho as [Hs Hm].
    destruct (negb k && bool_decide (s = slash)) eqn:E.
    { apply andb_true_iff in E as [Hk E%bool_decide_eq_true]. destruct k; naive_solver. }
    apply IH; [|by apply gm_star_open]. split; [done|]. split_and!; [done..|].
    exists []. by split_and!; [constructor|..]. }
  destruct Hu as [Hp Hst]. destruct p as [|d p1]; [apply Hback; by inversion 1|].
  destruct (is_star d) eqn:Hd.
  - pose proof (toks_star d p1 Hd) as Htoks. cbn zeta in Htoks.
    rewrite Htoks in Hp. apply Forall_cons in Hp as [Hdk Hp].
    revert Htoks Hdk Hp. generalize match p1 with d' :: _ => is_star d' | [] => false end.
    intros double Htoks -> Hp. apply IH.
    + split; [done|]. split_and!; [done..|]. exists []. by split_and!; [constructor|..].
    + apply gm_star_open. rewrite <-Htoks. destruct Ho as [Ho|Ho]; [done|].
      destruct st as [[[sp [|s sv]] d']|]; [done| |done]. destruct Ho as [Hs Hm].
      destruct Hst as (-> & _ & lits & Hl & -> & Hsv). rewrite toks_literal, Htoks in Hm by done.
      rewrite Htoks. by eapply star_can_restart.
  - rewrite toks_lit in Hp by done. apply Forall_cons in Hp as [_ Hp].
    case_bool_decide as Hc.
    + subst d. apply IH.
      * split; [done|]. destruct st as [[[sp sv] d']|]; [|done].
        destruct Hst as (-> & Hsp & lits & Hl & -> & ->). split_and!; [done..|].
        exists (lits ++ [c]). rewrite <-!app_assoc. split_and!; [|done..].
        apply Forall_app. by repeat constructor.
      * destruct Ho as [Ho|Ho]; [|by right]. left. rewrite toks_lit in Ho by done.
        by inversion Ho.
    + apply Hback. rewrite toks_lit by done. by inversion 1.
Qed.

(* ------------------------------------------------------------------ *)
(** * Theorems: globs *)

Definition glob_tokens (pattern : string) : list glob_tok := toks (String.list_ascii_of_string pattern).

(** The backtracking matcher always ends, never matches what the pattern
    does not mean, and on a pattern whose stars are all single or all double
    matches exactly what it means. *)
Lemma glob_exact pattern value :
  is_Some (glob_loop (glob_fuel (String.list_ascii_of_string pattern) (String.list_ascii_of_string value))
             (String.list_ascii_of_string pattern) (String.list_ascii_of_string value) None)
  ∧ (glob_matches pattern value = true →
     glob_meaning (glob_tokens pattern) (String.list_ascii_of_string value))
  ∧ (∀ k, stars_are k (glob_tokens pattern) →
     glob_meaning (glob_tokens pattern) (String.list_ascii_of_string value) →
     glob_matches pattern value = true).
Proof.
  unfold glob_tokens, glob_matches, glob_inner.
  set (p := String.list_ascii_of_string pattern). set (v := String.list_ascii_of_string value).
  destruct (glob_inner_ends p v) as [b Hb]. rewrite Hb. split_and!; [by eexists| |].
  - simpl. intros ->. apply glob_loop_sound in Hb as [H|H]; done.
  - intros k Hk Hm. simpl. eapply (glob_loop_complete k); [|by left|exact Hb]. by split.
Qed.

(** With both kinds of star in one pattern the matcher can miss: it only
    ever backs up to the last star it met, so a single star that runs into a
    slash ends the search although an earlier double star could still give
    way. A rule with such a pattern does not apply where it should. *)
Lemma glob_mixed_stars_miss :
  ∃ pattern value,
    glob_meaning (glob_tokens pattern) (String.list_ascii_of_string value)
    ∧ glob_matches pattern value = false.
Proof.
  exists "**/x*", "a/x/b/xc". split; [|reflexivity].
  change (glob_tokens "**/x*") with [TStar true; TLit slash; TLit (Ascii.ascii_of_N 120); TStar false].
  change (String.list_ascii_of_string "a/x/b/xc") with
    (String.list_ascii_of_string "a/x/b" ++ String.list_ascii_of_string "/xc").
  apply gm_star; [done|]. apply gm_lit, gm_lit. apply (gm_star false [] [_] []); [|constructor].
  intros _ Hin. apply list_elem_of_singleton in Hin. discriminate.
Qed.

Lemma string_of_list_no_char c s :
  str_contains_char c s = false ↔ c ∉ String.list_ascii_of_string s.
Proof.
  induction s as [|a s IH]; simpl; [split; [intros _; apply not_elem_of_nil|done]|].
  rewrite orb_false_iff, bool_decide_eq_false, IH, not_elem_of_cons. naive_solver.
Qed.

Lemma gm_self l : glob_meaning (TLit <$> l) l.
Proof. induction l as [|c l IH]; [apply gm_nil|by apply gm_lit]. Qed.

(** A text without stars is a pattern for itself only. *)
Lemma glob_literal pattern value :
  str_contains_char star pattern = false →
  glob_matches pattern value = bool_decide (pattern = value).
Proof.
  intros Hp. rewrite string_of_list_no_char in Hp.
  assert (literal (String.list_ascii_of_string pattern)) as Hl.
  { apply Forall_forall. intros c Hc. unfold is_star. case_bool_decide; [|done]. by subst. }
  assert (glob_tokens pattern = TLit <$> String.list_ascii_of_string pattern) as Ht.
  { unfold glob_tokens. rewrite <-(app_nil_r (String.list_ascii_of_string pattern)) at 1.
    rewrite (toks_literal _ [] Hl). simpl. by rewrite app_nil_r. }
  destruct (glob_exact pattern value) as (_ & Hsound & Hcomplete).
  apply eq_bool_prop_intro. rewrite !Is_true_true, bool_decide_eq_true. split.
  - intros H%Hsound. rewrite Ht, <-(app_nil_r (TLit <$> _)) in H.
    apply gm_literal in H as (v & Hv & H). inversion H; subst. rewrite app_nil_r in Hv.
    by rewrite <-(String.string_of_list_ascii_of_string pattern), <-Hv,
      String.string_of_list_ascii_of_string.
  - intros <-. apply (Hcomplete true); rewrite Ht.
    + apply Forall_forall. by intros k (c & -> & _)%list_elem_of_fmap.
    + apply gm_self.
Qed.

(** The default agent pattern, documented as any agent, leaves out every
    agent whose id contains a slash (a SPIFFE id, say): a deny rule written
    without an agent pattern does not bind such an agent. *)
Lemma default_agent_pattern_skips_slash ctx r :
  rule_agent_pattern r = default_agent_pattern →
  rule_matches ctx r =
    bool_decide (rule_op r = Op_as_str (ctx_op ctx))
    && glob_matches (rule_namespace_pattern r) (ctx_namespace ctx)
    && negb (str_contains_char slash (ctx_agent_id ctx)).
Proof.
  intros Hr. unfold rule_matches. f_equal. rewrite Hr.
  destruct (glob_exact default_agent_pattern (ctx_agent_id ctx)) as (_ & Hsound & Hcomplete).
  change (glob_tokens default_agent_pattern) with [TStar false] in *.
  destruct (str_contains_char slash (ctx_agent_id ctx)) eqn:E; simpl.
  - apply not_true_iff_false. intros (w & v & Hv & Hw & Ht)%Hsound%gm_star_inv.
    inversion Ht; subst. rewrite app_nil_r in Hv.
    apply not_false_iff_true in E. apply E, string_of_list_no_char. rewrite Hv. by apply Hw.
  - apply (Hcomplete false); [by repeat constructor|].
    rewrite <-(app_nil_r (String.list_ascii_of_string _)). apply gm_star; [|constructor].
    intros _. by apply string_of_list_no_char.
Qed.

(* ------------------------------------------------------------------ *)
(** * Lemmas: the evaluator *)

Lemma elem_of_matched ctx rules r :
  r ∈ matched_rules ctx rules ↔ r ∈ rules ∧ rule_matches ctx r = true.
Proof. apply elem_of_sorted_filter. Qed.

(** Rules of one rank keep the order they are written in, so that of several
    denials the first gives the reason. *)
Lemma matched_rules_in_order ctx rules k :
  let of_rank r := bool_decide (rule_rank r = k) in
  List.filter of_rank (matched_rules ctx rules) = List.filter of_rank (List.filter (rule_matches ctx) rules).
Proof.
  apply stable_sort_stable. intros x y Hx%bool_decide_eq_true Hy%bool_decide_eq_true.
  unfold ranks_before. rewrite Hx, Hy. destruct k. lia.
Qed.

Lemma find_is_Some d rules :
  is_Some (List.find (rule_is d) rules) ↔ ∃ r, r ∈ rules ∧ rule_decision r = d.
Proof.
  induction rules as [|r rules IH]; simpl.
  { split; [by intros []|]. by intros (? & ?%elem_of_nil & _). }
  unfold rule_is at 1. case_bool_decide as H.
  - split; [|by eexists]. intros _. exists r. split; [by left|done].
  - rewrite IH. setoid_rewrite elem_of_cons. naive_solver.
Qed.

Lemma existsb_is d rules :
  existsb (rule_is d) rules = true ↔ ∃ r, r ∈ rules ∧ rule_decision r = d.
Proof.
  rewrite existsb_exists. unfold rule_is. setoid_rewrite bool_decide_eq_true.
  by setoid_rewrite list_elem_of_In.
Qed.

(** Some rule of the list applies to the context with this outcome. *)
Definition some_rule (d : RuleDecision) (ctx : PermissionContext) (rules : list PermissionRule) : Prop :=
  ∃ r, r ∈ rules ∧ rule_matches ctx r = true ∧ rule_decision r = d.

Lemma find_matched d ctx rules :
  is_Some (List.find (rule_is d) (matched_rules ctx rules)) ↔ some_rule d ctx rules.
Proof. rewrite find_is_Some. unfold some_rule. setoid_rewrite elem_of_matched. naive_solver. Qed.

Lemma exists_matched d ctx rules :
  existsb (rule_is d) (matched_rules ctx rules) = true ↔ some_rule d ctx rules.
Proof. rewrite existsb_is. unfold some_rule. setoid_rewrite elem_of_matched. naive_solver. Qed.

Lemma composed_nil : composed_delta [] = None.
Proof. done. Qed.

(** The recursion of the source: one level of rebinding, then no deltas. *)
Lemma evaluate_with_unfold ctx hooks rules mode :
  evaluate_with ctx hooks rules mode =
  evaluate_pass (λ ctx', evaluate_with ctx' [] rules mode) ctx hooks rules mode.
Proof.
  assert (∀ k k' c, evaluate_pass k c [] rules mode = evaluate_pass k' c [] rules mode) as Hk
    by (intros; unfold evaluate_pass; by rewrite composed_nil).
  unfold evaluate_with. unfold evaluate_pass at 1 3.
  do 3 (case_match; [done|]). destruct (composed_delta hooks) as [d|]; [|done].
  destruct (delta_namespace d); [|done]. case_decide; [done|].
  by rewrite (Hk (λ _, Allow) (λ ctx', evaluate_pass (λ _, Allow) ctx' [] rules mode)).
Qed.

Lemma deny_rule_wins rebound ctx hooks rules mode :
  mode ≠ ModeOff → some_rule RuleDeny ctx rules →
  ∃ reason, evaluate_pass rebound ctx hooks rules mode = Deny reason.
Proof.
  intros Hm Hr%find_matched. unfold evaluate_pass. rewrite decide_False by done.
  destruct Hr as [r ->]. by eexists.
Qed.

(** No rule and no hook denies, none modifies. *)
Definition quiet (ctx : PermissionContext) (hooks : list HookDecision) (rules : list PermissionRule) : Prop :=
  ¬ some_rule RuleDeny ctx rules
  ∧ Forall (λ h, hook_deny h = None ∧ hook_delta h = None) hooks.

Lemma quiet_find hooks :
  Forall (λ h, hook_deny h = None ∧ hook_delta h = None) hooks →
  find_map hook_deny hooks = None ∧ composed_delta hooks = None.
Proof.
  unfold composed_delta. induction 1 as [|h hooks [Hd Hm] _ IH]; [done|]. simpl.
  rewrite Hd, Hm. done.
Qed.

Lemma quiet_allow ctx hooks rules mode :
  quiet ctx hooks rules → some_rule RuleAllow ctx rules →
  evaluate_with ctx hooks rules mode = Allow.
Proof.
  intros [Hd Hh] Ha. rewrite evaluate_with_unfold. unfold evaluate_pass. case_decide; [done|].
  destruct (List.find _ _) eqn:E; [exfalso; apply Hd, find_matched; by rewrite E|].
  destruct (quiet_find _ Hh) as [-> ->]. apply exists_matched in Ha. by rewrite Ha.
Qed.

(* ------------------------------------------------------------------ *)
(** * Theorems: the evaluator *)

Definition rebind (ctx : PermissionContext) (ns : string) : PermissionContext :=
  mkContext (ctx_op ctx) ns (ctx_agent_id ctx) (ctx_payload ctx).

Lemma evaluate_no_hooks ctx rules mode d : evaluate_with ctx [] rules mode ≠ Modify d.
Proof.
  rewrite evaluate_with_unfold. unfold evaluate_pass. case_decide; [done|].
  destruct (List.find (rule_is RuleDeny) _); [done|]. cbn [find_map]. rewrite composed_nil.
  destruct (_ || _); [done|]. destruct (List.find (rule_is RuleAsk) _); [by destruct mode|done].
Qed.

Lemma find_map_is_Some {A B} (f : A → option B) l :
  (∃ x, x ∈ l ∧ is_Some (f x)) → is_Some (find_map f l).
Proof.
  intros (x & Hx & Hf). induction Hx as [x l|x y l _ IH]; simpl.
  - destruct Hf as [b ->]. by eexists.
  - destruct (f y); [by eexists|]. by apply IH.
Qed.

Lemma enforce_never_asks ctx hooks rules p : evaluate_with ctx hooks rules Enforce ≠ Ask p.
Proof.
  assert (∀ c q, evaluate_with c [] rules Enforce ≠ Ask q) as Hno.
  { intros c q. rewrite evaluate_with_unfold. unfold evaluate_pass. case_decide; [done|].
    destruct (List.find (rule_is RuleDeny) _); [done|]. cbn [find_map]. rewrite composed_nil.
    destruct (_ || _); [done|]. by destruct (List.find (rule_is RuleAsk) _). }
  rewrite evaluate_with_unfold. unfold evaluate_pass. case_decide; [done|].
  destruct (List.find (rule_is RuleDeny) _); [done|]. destruct (find_map hook_deny hooks); [done|].
  destruct (composed_delta hooks) as [d|].
  - destruct (delta_namespace d) as [n|]; [|done]. case_decide; [done|].
    destruct (evaluate_with _ [] rules Enforce) eqn:E; try done. by apply Hno in E.
  - destruct (_ || _); [done|]. by destruct (List.find (rule_is RuleAsk) _), (find_map hook_ask hooks).
Qed.

(** C31: a denial cannot be bypassed while the gate is on: a deny rule that
    applies, or a hook that denies, decides whatever the other rules and
    hooks say; a hook may rewrite the write, but into another namespace only
    when the rules allow the write there; and under enforce nothing is left
    as an open question. *)
Theorem deny_cannot_be_bypassed ctx hooks rules mode :
  mode ≠ ModeOff →
  (some_rule RuleDeny ctx rules → ∃ reason, evaluate_with ctx hooks rules mode = Deny reason)
  ∧ ((∃ reason code, HookDeny reason code ∈ hooks) →
     ∃ reason, evaluate_with ctx hooks rules mode = Deny reason)
  ∧ (∀ d n, evaluate_with ctx hooks rules mode = Modify d →
     delta_namespace d = Some n → n ≠ ctx_namespace ctx →
     evaluate_with (rebind ctx n) [] rules mode = Allow ∧ ¬ some_rule RuleDeny (rebind ctx n) rules)
  ∧ (mode = Enforce → ∀ p, evaluate_with ctx hooks rules mode ≠ Ask p).
Proof.
  intros Hm. split_and!.
  - intros Hr. rewrite evaluate_with_unfold. by apply deny_rule_wins.
  - intros (reason & code & Hin). rewrite evaluate_with_unfold. unfold evaluate_pass.
    rewrite decide_False by done. destruct (List.find _ _); [by eexists|].
    destruct (find_map_is_Some hook_deny hooks) as [r ->]; [|by eexists].
    exists (HookDeny reason code). split; [done|by eexists].
  - intros d n Heval Hn Hne. rewrite evaluate_with_unfold in Heval. unfold evaluate_pass in Heval.
    rewrite decide_False in Heval by done.
    destruct (List.find (rule_is RuleDeny) (matched_rules ctx rules)); [done|].
    destruct (find_map hook_deny hooks); [done|].
    destruct (composed_delta hooks) as [delta|]; [|by repeat case_match].
    destruct (delta_namespace delta) as [n'|] eqn:Hd; [|simplify_eq/=; congruence].
    case_decide; [simplify_eq/=; congruence|].
    change (mkContext _ n' _ _) with (rebind ctx n') in Heval.
    destruct (evaluate_with (rebind ctx n') [] rules mode) eqn:E; simpl in Heval; try done.
    + assert (n = n') as -> by congruence. split; [done|]. intros Hdeny.
      destruct (deny_rule_wins (λ c, evaluate_with c [] rules mode) (rebind ctx n') [] rules mode Hm Hdeny)
        as [r Hr]. rewrite <-evaluate_with_unfold in Hr. congruence.
    + by apply evaluate_no_hooks in E.
  - intros ->. apply enforce_never_asks.
Qed.

Lemma synthetic_rule_matches ctx s d :
  synthetic_decision (syn_decision s) = Some d →
  op_matches_action_type (ctx_op ctx) (syn_action_type s) = true →
  syn_namespace s = ctx_namespace ctx → str_contains_char star (ctx_namespace ctx) = false →
  syn_agent_id s = Some (ctx_agent_id ctx) → str_contains_char star (ctx_agent_id ctx) = false →
  some_rule d ctx (synthetic_rule s).
Proof.
  intros Hd Hop Hns Hstar Ha Hastar. unfold some_rule, synthetic_rule. rewrite Hd.
  eexists. split_and!; [apply list_elem_of_fmap; exists (ctx_op ctx); split; [reflexivity|]|..].
  - apply elem_of_list_filter_bool. split; [|done]. unfold synthetic_ops.
    destruct (ctx_op ctx); rewrite !elem_of_cons; naive_solver.
  - unfold rule_matches. simpl. rewrite Hns, Ha. simpl.
    rewrite !glob_literal, !bool_decide_true by done. done.
  - done.
Qed.

Lemma some_rule_in ctx d rs rules :
  (∀ r, r ∈ rs → r ∈ rules) → some_rule d ctx rs → some_rule d ctx rules.
Proof. intros Hsub (r & Hr & ?). exists r. eauto. Qed.

(** A remembered operator decision takes effect for the agent, action and
    namespace it was recorded for: a remembered denial denies, and a
    remembered approval lets the operation through without asking again,
    unless a rule or a hook denies it or a hook rewrites it. *)
Lemma remembered_decision_applies ctx hooks synth active mode s :
  s ∈ synth →
  op_matches_action_type (ctx_op ctx) (syn_action_type s) = true →
  syn_namespace s = ctx_namespace ctx → str_contains_char star (ctx_namespace ctx) = false →
  syn_agent_id s = Some (ctx_agent_id ctx) → str_contains_char star (ctx_agent_id ctx) = false →
  (syn_decision s = "deny" → mode ≠ ModeOff →
   ∃ reason, evaluate ctx hooks synth active mode = Deny reason)
  ∧ (syn_decision s = "approve" →
     quiet ctx hooks (synthetic_rules_as_permission_rules synth ++ active) →
     evaluate ctx hooks synth active mode = Allow).
Proof.
  intros Hs Hop Hns Hstar Ha Hastar.
  assert (∀ r, r ∈ synthetic_rule s → r ∈ synthetic_rules_as_permission_rules synth ++ active) as Hsub.
  { intros r Hr. apply elem_of_app. left. apply list_elem_of_bind. eauto. }
  unfold evaluate. split.
  - intros Hd Hm. rewrite evaluate_with_unfold. apply deny_rule_wins; [done|].
    eapply some_rule_in; [exact Hsub|]. apply synthetic_rule_matches; try done. by rewrite Hd.
  - intros Hd Hq. apply quiet_allow; [done|].
    eapply some_rule_in; [exact Hsub|]. apply synthetic_rule_matches; try done. by rewrite Hd.
Qed.

(* ------------------------------------------------------------------ *)
(** * Witnesses *)

Definition demo_ctx (agent : string) : PermissionContext :=
  mkContext MemoryStore "team/notes" agent JNull.
Definition demo_deny : PermissionRule := mkRule "secrets/**" "memory_store" "*" RuleDeny None.
Definition demo_allow : PermissionRule := mkRule "team/*" "memory_store" "*" RuleAllow None.
Definition demo_move : HookDecision :=
  HookModify (mkDelta None (Some "secrets/keys") None None None None None None None None).

Lemma default_agent_pattern_skips_slash_witness :
  rule_matches (mkContext MemoryStore "secrets/keys" "spiffe://org/ns" JNull) demo_deny = false
  ∧ rule_matches (mkContext MemoryStore "secrets/keys" "ai:bob" JNull) demo_deny = true.
Proof.
  split.
  - by rewrite (default_agent_pattern_skips_slash
      (mkContext MemoryStore "secrets/keys" "spiffe://org/ns" JNull) demo_deny eq_refl).
  - by rewrite (default_agent_pattern_skips_slash
      (mkContext MemoryStore "secrets/keys" "ai:bob" JNull) demo_deny eq_refl).
Defined.

(** Of three denials of one rank the first is the reason. *)
Definition demo_because (reason : string) : PermissionRule :=
  mkRule "team/*" "memory_store" "*" RuleDeny (Some reason).

Example demo_ties :
  evaluate_with (demo_ctx "ai:bob") [] (demo_because <$> ["first"; "second"; "third"]) Enforce
  = evaluate_with (demo_ctx "ai:bob") [] [demo_because "first"] Enforce.
Proof. vm_compute. reflexivity. Qed.

(** A hook that tries to move a write into a denied namespace. *)
Example demo_escalation :
  evaluate_with (demo_ctx "ai:bob") [demo_move] [demo_deny; demo_allow] Advisory =
  Deny (("namespace escalation rejected: hook proposed Modify into namespace "
    +:+ debug_str "secrets/keys" +:+ " (from pinned " +:+ debug_str "team/notes")
    +:+ ") which is denied: denied by permission rule (namespace_pattern=secrets/**, "
    +:+ "op=memory_store, agent_pattern=*)").
Proof. vm_compute. reflexivity. Qed.

Lemma deny_cannot_be_bypassed_witness :
  ∃ reason,
    evaluate_with (mkContext MemoryStore "secrets/keys" "ai:bob" JNull) [HookAllow]
      [demo_allow; demo_deny] Enforce = Deny reason.
Proof.
  destruct (deny_cannot_be_bypassed (mkContext MemoryStore "secrets/keys" "ai:bob" JNull)
    [HookAllow] [demo_allow; demo_deny] Enforce) as [H _]; [done|]. apply H.
  exists demo_deny. split_and!; [right; left|vm_compute; reflexivity|reflexivity].
Defined.

Definition demo_remembered : SyntheticPermissionRule :=
  mkSynthetic "store" "team/notes" (Some "ai:bob") "deny" "2026-01-01".

Lemma remembered_decision_applies_witness :
  ∃ reason, evaluate (demo_ctx "ai:bob") [] [demo_remembered] [demo_allow] Advisory = Deny reason.
Proof.
  apply (remembered_decision_applies (demo_ctx "ai:bob") [] [demo_remembered] [demo_allow] Advisory
    demo_remembered); [left|reflexivity..|done].
Defined.
