(* ===== verification/Policy.v ===== *)
(** Namespaces, governance policies and typed refusals
    ([src/src/models/namespace.rs], [src/src/governance/refusal.rs]). *)
From S2P Require Import Prelude.
From S2P Require Import Text.
From S2P Require Import Json.

(* ------------------------------------------------------------------ *)
(** * Namespace paths *)

(** [s.rsplit_once(sep)] *)
Fixpoint str_rsplit_once (sep : ascii) (s : string) : option (string * string) :=
  match s with
  | EmptyString => None
  | String c s' =>
      match str_rsplit_once sep s' with
      | Some (a, b) => Some (String c a, b)
      | None => if bool_decide (c = sep) then Some ("", s') else None
      end
  end.

Definition MAX_NAMESPACE_DEPTH : nat := 8.

Definition namespace_depth (ns : string) : nat :=
  if str_is_empty ns then 0
  else length (List.filter (λ s, negb (str_is_empty s)) (str_split slash ns)).

Definition namespace_parent (ns : string) : option string := fst <$> str_rsplit_once slash ns.

(** The loop of [namespace_ancestors]; the fuel bounds its iterations. *)
Fixpoint ancestors_loop (fuel : nat) (current : string) : list string :=
  match fuel with
  | O => []
  | S fuel =>
      current ::
      match namespace_parent current with
      | Some p => if str_is_empty p then [] else ancestors_loop fuel p
      | None => []
      end
  end.

Definition namespace_ancestors (ns : string) : list string :=
  if str_is_empty ns then [] else ancestors_loop (S (String.length ns)) ns.

(* ------------------------------------------------------------------ *)
(** * Visibility scopes *)

Definition COLLECTIVE : string := "collective".

Inductive MemoryScope : Type := Private | Team | Unit | Org | Collective.

#[global] Instance MemoryScope_eq_dec : EqDecision MemoryScope.
Proof. solve_decision. Defined.

Definition MemoryScope_as_str (s : MemoryScope) : string :=
  match s with
  | Private => "private" | Team => "team" | Unit => "unit" | Org => "org"
  | Collective => COLLECTIVE
  end.

Definition MemoryScope_from_str (s : string) : option MemoryScope :=
  if decide (s = "private") then Some Private
  else if decide (s = "team") then Some Team
  else if decide (s = "unit") then Some Unit
  else if decide (s = "org") then Some Org
  else if decide (s = COLLECTIVE) then Some Collective
  else None.

Definition MemoryScope_all : list MemoryScope := [Private; Team; Unit; Org; Collective].

(* ------------------------------------------------------------------ *)
(** * Governance policies *)

Inductive GovernanceLevel : Type := LevelAny | LevelRegistered | LevelOwner | LevelApprove.

#[global] Instance GovernanceLevel_eq_dec : EqDecision GovernanceLevel.
Proof. solve_decision. Defined.

Definition GovernanceLevel_as_str (l : GovernanceLevel) : string :=
  match l with
  | LevelAny => "any" | LevelRegistered => "registered" | LevelOwner => "owner"
  | LevelApprove => "approve"
  end.

Inductive ApproverType : Type :=
| ApproverHuman
| ApproverAgent (id : string)
| ApproverConsensus (quorum : Z).

Definition ApproverType_kind (a : ApproverType) : string :=
  match a with
  | ApproverHuman => "human" | ApproverAgent _ => "agent" | ApproverConsensus _ => "consensus"
  end.

Inductive GovernedAction : Type := Store | Delete | Promote | Reflect.

#[global] Instance GovernedAction_eq_dec : EqDecision GovernedAction.
Proof. solve_decision. Defined.

Definition GovernedAction_as_str (a : GovernedAction) : string :=
  match a with
  | Store => "store" | Delete => "delete" | Promote => "promote" | Reflect => "reflect"
  end.

(** The enforcement fields of a policy. *)
Record CorePolicy : Type := mkPolicy {
  write : GovernanceLevel;
  promote : GovernanceLevel;
  delete : GovernanceLevel;
  approver : ApproverType;
  inherit : bool;
  max_reflection_depth : option Z;
  required_scope : option MemoryScope
}.

Definition CorePolicy_default : CorePolicy :=
  mkPolicy LevelAny LevelAny LevelOwner ApproverHuman true None None.

(** [default_for_managed_namespace]: only [write] differs. *)
Definition default_for_managed_namespace : CorePolicy :=
  mkPolicy LevelOwner LevelAny LevelOwner ApproverHuman true None None.

Definition META_KEY_GOVERNANCE : string := "governance".

(** The derived [Deserialize] of a policy: the enforcement fields of
    [serde_json::from_value::<GovernancePolicy>], or its failure. *)
Class PolicySerde : Type := policy_from_value : value → option CorePolicy.

(** No policy, or a policy that may fail to parse. *)
Definition from_metadata `{PolicySerde} (metadata : value) : option (result CorePolicy unit) :=
  match json_get metadata META_KEY_GOVERNANCE with
  | None => None
  | Some gov =>
      if json_is_null gov then None else Some (ok_or (policy_from_value gov) tt)
  end.

(* ------------------------------------------------------------------ *)
(** * Refusals and decisions *)

Record GovernanceRefusal : Type := mkRefusal {
  refusal_action : GovernedAction;
  refusal_level : GovernanceLevel;
  refusal_agent_id : string;
  refusal_namespace : option string;
  refusal_owner : option string;
  refusal_reason : string
}.

Definition refusal_new (action : GovernedAction) (level : GovernanceLevel) (agent_id reason : string) :
    GovernanceRefusal :=
  mkRefusal action level agent_id None None reason.

Definition with_namespace (ns : string) (r : GovernanceRefusal) : GovernanceRefusal :=
  mkRefusal (refusal_action r) (refusal_level r) (refusal_agent_id r) (Some ns) (refusal_owner r)
    (refusal_reason r).

Definition with_owner (o : string) (r : GovernanceRefusal) : GovernanceRefusal :=
  mkRefusal (refusal_action r) (refusal_level r) (refusal_agent_id r) (refusal_namespace r) (Some o)
    (refusal_reason r).

Definition deny_message (action gate reason : string) : string :=
  action +:+ " denied by " +:+ gate +:+ ": " +:+ reason.

(** [Display] of a refusal. *)
Definition refusal_display (r : GovernanceRefusal) : string :=
  deny_message (GovernedAction_as_str (refusal_action r)) "governance" (refusal_reason r).

Definition effective_scope (payload : value) : MemoryScope :=
  default Private
    (m ← json_get payload "metadata"; v ← json_get m "scope"; s ← json_as_str v;
     MemoryScope_from_str s).

Definition required_scope_refusal (required : MemoryScope) (payload : value) (action : GovernedAction)
    (denied_level : GovernanceLevel) (agent_id namespace : string) : option GovernanceRefusal :=
  let effective := effective_scope payload in
  if decide (effective = required) then None
  else
    Some (with_namespace namespace
      (refusal_new action denied_level agent_id
        ("namespace requires scope '" +:+ MemoryScope_as_str required
         +:+ "' but write declared scope '" +:+ MemoryScope_as_str effective +:+ "'"))).

Inductive GovernanceDecision : Type :=
| GovAllow
| GovDeny (refusal : GovernanceRefusal)
| GovPending (id : string).

(* ------------------------------------------------------------------ *)
(** * Lemmas *)

Lemma rsplit_once_app sep s a b :
  str_rsplit_once sep s = Some (a, b) → s = a +:+ String sep b.
Proof.
  revert a b. induction s as [|c s IH]; intros a b; simpl; [done|].
  destruct (str_rsplit_once sep s) as [[a' b']|].
  - intros [= <- <-]. by rewrite (IH a' b').
  - case_bool_decide; [|done]. intros [= <- <-]. by subst.
Qed.

Lemma namespace_parent_app ns p :
  namespace_parent ns = Some p → ∃ b, ns = p +:+ String slash b.
Proof.
  unfold namespace_parent. intros ([a b] & H & ->)%fmap_Some. exists b. by apply rsplit_once_app.
Qed.

Lemma string_length_app a b : String.length (a +:+ b) = String.length a + String.length b.
Proof. induction a as [|c a IH]; simpl; [done|]. by rewrite IH. Qed.

Lemma namespace_parent_shorter ns p :
  namespace_parent ns = Some p → String.length p < String.length ns.
Proof. intros [b ->]%namespace_parent_app. rewrite string_length_app. simpl. lia. Qed.

Lemma ancestors_loop_fuel f1 f2 s :
  String.length s < f1 → String.length s < f2 → ancestors_loop f1 s = ancestors_loop f2 s.
Proof.
  revert f2 s. induction f1 as [|f1 IH]; intros [|f2] s H1 H2; try lia. simpl. f_equal.
  destruct (namespace_parent s) as [p|] eqn:Hp; [|done]. destruct (str_is_empty p); [done|].
  apply namespace_parent_shorter in Hp. apply IH; lia.
Qed.

(** The fuel is enough: the loop's own equation. *)
Lemma namespace_ancestors_unfold ns :
  namespace_ancestors ns =
  if str_is_empty ns then []
  else ns :: match namespace_parent ns with Some p => namespace_ancestors p | None => [] end.
Proof.
  unfold namespace_ancestors at 1. destruct (str_is_empty ns); [done|].
  cbn [ancestors_loop]. f_equal. destruct (namespace_parent ns) as [p|] eqn:Hp; [|done].
  unfold namespace_ancestors. destruct (str_is_empty p); [done|].
  apply namespace_parent_shorter in Hp. apply ancestors_loop_fuel; lia.
Qed.

Lemma namespace_ancestors_length ns a :
  a ∈ namespace_ancestors ns → String.length a ≤ String.length ns ∧ str_is_empty a = false.
Proof.
  remember (String.length ns) as n eqn:Hn. revert ns Hn.
  induction n as [n IH] using lt_wf_ind. intros ns ->. rewrite namespace_ancestors_unfold.
  destruct (str_is_empty ns) eqn:E; [by intros ?%elem_of_nil|].
  destruct (namespace_parent ns) as [p|] eqn:Hp.
  - pose proof (namespace_parent_shorter _ _ Hp) as Hlt.
    intros [->|Ha]%elem_of_cons; [done|].
    destruct (IH (String.length p) Hlt p eq_refl Ha) as [? ?]. split; [lia|done].
  - intros ->%list_elem_of_singleton. done.
Qed.

Lemma namespace_ancestors_NoDup ns : NoDup (namespace_ancestors ns).
Proof.
  remember (String.length ns) as n eqn:Hn. revert ns Hn.
  induction n as [n IH] using lt_wf_ind. intros ns ->. rewrite namespace_ancestors_unfold.
  destruct (str_is_empty ns) eqn:E; [constructor|].
  destruct (namespace_parent ns) as [p|] eqn:Hp; [|apply NoDup_singleton].
  pose proof (namespace_parent_shorter _ _ Hp) as Hlt. apply NoDup_cons. split.
  - intros [H _]%namespace_ancestors_length. lia.
  - by apply (IH (String.length p)).
Qed.

Lemma namespace_ancestors_self ns : str_is_empty ns = false → ns ∈ namespace_ancestors ns.
Proof. intros H. rewrite namespace_ancestors_unfold, H. by left. Qed.
