(* ===== verification/Validate.v ===== *)
(** Identifiers, namespaces and visibility: the shape validators of
    [src/src/validate.rs] that every surface and the federation receiver run on
    what comes off the wire, and the predicates of [src/src/visibility.rs] that
    say which rows a caller may read and change. *)
From S2P Require Import Prelude.
From S2P Require Import BTree.
From S2P Require Import F64.
From S2P Require Import Json.
From S2P Require Import Text.
From S2P Require Import Memory.
From S2P Require Import Policy.
From stdpp Require Import pretty.

(* ------------------------------------------------------------------ *)
(** * Characters *)

Definition MAX_NAMESPACE_LEN : Z := 512.
Definition MAX_SOURCE_LEN : Z := 64.
Definition MAX_RELATION_LEN : Z := 64.
Definition MAX_ID_LEN : Z := 128.
Definition MAX_AGENT_ID_LEN : Z := 128.
Definition MAX_AGENT_TYPE_LEN : Z := 64.
Definition MAX_CITATIONS_PER_MEMORY : Z := 64.
Definition MAX_SOURCE_URI_LEN : Z := 4096.

Definition backslash : ascii := Ascii.ascii_of_N 92.
Definition space : ascii := Ascii.ascii_of_N 32.
Definition nul : ascii := Ascii.ascii_of_N 0.

(** Some character is a control other than a newline or a tab; the controls
    above ASCII are the two-byte sequences of U+0080 to U+009F. *)
Fixpoint has_control (s : string) : bool :=
  match s with
  | EmptyString => false
  | String a s' =>
      ((byte_in 0 31 a && negb (byte_is 10 a) && negb (byte_is 9 a)) || byte_is 127 a)
      || (byte_is 194 a && match s' with String b _ => byte_in 128 159 b | EmptyString => false end)
      || has_control s'
  end.

Definition is_clean_string (s : string) : bool := negb (has_control s).

(** [chars().count()]: the bytes that begin a character. *)
Fixpoint char_count (s : string) : Z :=
  match s with
  | EmptyString => 0
  | String a s' => (if byte_in 128 191 a then 0 else 1) + char_count s'
  end.

Definition ascii_alphanumeric (a : ascii) : bool := byte_in 48 57 a || byte_in 65 90 a || byte_in 97 122 a.
Definition ascii_hexdigit (a : ascii) : bool := byte_in 48 57 a || byte_in 65 70 a || byte_in 97 102 a.

(** One of the characters of a literal. *)
Definition one_of (literal : string) (a : ascii) : bool := str_contains_char a literal.

Definition ends_with_char (c : ascii) (s : string) : bool :=
  match String.rev s with String a _ => bool_decide (a = c) | EmptyString => false end.

Definition starts_with_char (c : ascii) (s : string) : bool :=
  match s with String a _ => bool_decide (a = c) | EmptyString => false end.

(** [bail!] *)
Definition ensure (b : bool) (message : string) : result unit string := if b then Ok tt else Err message.

(* ------------------------------------------------------------------ *)
(** * Validators *)

Definition id_char (a : ascii) : bool := ascii_alphanumeric a || one_of "_:.@-" a.

Definition validate_id (id : string) : result unit string :=
  let? _ := ensure (negb (str_is_empty (str_trim id))) "id cannot be empty" in
  let? _ := ensure (byte_len id <=? MAX_ID_LEN)%Z ("id exceeds max length of " +:+ pretty MAX_ID_LEN +:+ " bytes") in
  let? _ := ensure (is_clean_string id) "id contains invalid characters" in
  let? _ := ensure (negb (str_contains ".." id)) "id may not contain '..' (path-traversal guard)" in
  let? _ := ensure (negb (str_contains_char slash id || str_contains_char backslash id))
              "id may not contain '/' or '\' (path-traversal guard)" in
  ensure (str_all id_char id) "id contains characters outside the allowed set [A-Za-z0-9_:.@-] (path-traversal guard)".

Definition validate_namespace (ns : string) : result unit string :=
  let trimmed := str_trim ns in
  let? _ := ensure (negb (str_is_empty trimmed)) "namespace cannot be empty" in
  let? _ := ensure (char_count trimmed <=? MAX_NAMESPACE_LEN)%Z
              ("namespace exceeds max length of " +:+ pretty MAX_NAMESPACE_LEN +:+ " characters") in
  let? _ := ensure (negb (str_contains_char backslash trimmed || str_contains_char nul trimmed))
              "namespace cannot contain backslashes or null bytes" in
  let? _ := ensure (negb (str_contains_char space trimmed)) "namespace cannot contain spaces (use hyphens or underscores)" in
  let? _ := ensure (is_clean_string trimmed) "namespace contains invalid control characters" in
  let? _ := ensure (negb (starts_with_char slash trimmed)) "namespace cannot start with '/' (normalize input first)" in
  let? _ := ensure (negb (ends_with_char slash trimmed)) "namespace cannot end with '/' (normalize input first)" in
  let? _ := ensure (negb (existsb str_is_empty (str_split slash trimmed)))
              "namespace cannot contain empty segments (e.g. '//')" in
  let? _ := ensure (negb (existsb (λ s, bool_decide (s = "..") || bool_decide (s = ".")) (str_split slash trimmed)))
              "namespace segments '.' and '..' are not allowed" in
  let depth := namespace_depth trimmed in
  ensure (depth <=? MAX_NAMESPACE_DEPTH)
    ("namespace depth " +:+ pretty depth +:+ " exceeds max of " +:+ pretty MAX_NAMESPACE_DEPTH).

Definition VALID_SOURCES : list string :=
  ["user"; "nhi"; "claude"; "hook"; "api"; "cli"; "import"; "consolidation"; "system"; "chaos"; "notify"].

Definition validate_source (source : string) : result unit string :=
  let? _ := ensure (negb (str_is_empty (str_trim source))) "source cannot be empty" in
  let? _ := ensure (byte_len source <=? MAX_SOURCE_LEN)%Z ("source exceeds max length of " +:+ pretty MAX_SOURCE_LEN +:+ " bytes") in
  ensure (bool_decide (source ∈ VALID_SOURCES))
    ("invalid source '" +:+ source +:+ "' — must be one of: " +:+ str_join ", " VALID_SOURCES).

Definition DAEMON_PRINCIPAL : string := "daemon".

Definition RESERVED_AGENT_IDS : list string :=
  [DAEMON_PRINCIPAL; "system"; "federation-catchup"; "subscription-dispatch"; "ai:http-internal"; "ai:migrate";
   "export-internal"; "governance-internal"; "embedding-backfill"].

Definition agent_id_char (a : ascii) : bool := ascii_alphanumeric a || one_of "_-:@./" a.

(** The message names the first character outside the set. *)
Fixpoint first_char_not (p : ascii → bool) (s : string) : option string :=
  match s with
  | EmptyString => None
  | String a s' =>
      if p a then first_char_not p s'
      else Some (String a ((fix continuation s := match s with
                            | String b s' => if byte_in 128 191 b then String b (continuation s') else ""
                            | EmptyString => ""
                            end) s'))
  end.

Definition validate_agent_id_shape (agent_id : string) : result unit string :=
  let? _ := ensure (negb (str_is_empty agent_id)) "agent_id cannot be empty" in
  let? _ := ensure (byte_len agent_id <=? MAX_AGENT_ID_LEN)%Z
              ("agent_id exceeds max length of " +:+ pretty MAX_AGENT_ID_LEN +:+ " bytes") in
  let? _ := match first_char_not agent_id_char agent_id with
            | Some c => Err ("agent_id contains invalid character '" +:+ c +:+ "' (allowed: alphanumeric, _-:@./)")
            | None => Ok tt
            end in
  let? _ := ensure (negb (str_contains ".." agent_id)) "agent_id may not contain '..' (path-traversal guard)" in
  ensure (negb (starts_with_char slash agent_id)) "agent_id may not start with '/' (path-traversal guard)".

Definition validate_agent_id (agent_id : string) : result unit string :=
  let? _ := validate_agent_id_shape agent_id in
  ensure (negb (bool_decide (agent_id ∈ RESERVED_AGENT_IDS)))
    ("agent_id '" +:+ agent_id +:+ "' is reserved for internal use and cannot be supplied by wire callers").

Definition VALID_SCOPES : list string := ["private"; "team"; "unit"; "org"; "collective"].

Definition validate_scope (scope : string) : result unit string :=
  let? _ := ensure (negb (str_is_empty scope)) "scope cannot be empty" in
  ensure (bool_decide (scope ∈ VALID_SCOPES))
    ("invalid scope '" +:+ scope +:+ "' — must be one of: " +:+ str_join ", " VALID_SCOPES).

(** A quorum of no one is refused whatever the levels are; the second test of
    the code repeats the first. *)
Definition validate_governance_policy (policy : CorePolicy) : result unit string :=
  let? _ := match approver policy with
            | ApproverHuman => Ok tt
            | ApproverAgent id => validate_agent_id id
            | ApproverConsensus n => ensure (negb (n =? 0)%Z) "governance.approver.consensus quorum must be >= 1"
            end in
  let uses_approve := bool_decide (Policy.write policy = LevelApprove) || bool_decide (Policy.promote policy = LevelApprove)
                      || bool_decide (Policy.delete policy = LevelApprove) in
  match approver policy with
  | ApproverConsensus n =>
      ensure (negb (uses_approve && (n =? 0)%Z)) "governance uses 'approve' level but approver consensus is 0"
  | _ => Ok tt
  end.

Definition VALID_AGENT_TYPES : list string :=
  ["ai:claude-opus-4.6"; "ai:claude-opus-4.7"; "ai:codex-5.4"; "ai:grok-4.2"; "human"; "system"].

Definition agent_type_char (a : ascii) : bool := ascii_alphanumeric a || one_of "_-." a.

Definition strip_prefix (p s : string) : option string :=
  if starts_with p s then Some (String.substring (String.length p) (String.length s - String.length p) s) else None.

Definition validate_agent_type (agent_type : string) : result unit string :=
  let? _ := ensure (negb (str_is_empty agent_type)) "agent_type cannot be empty" in
  let? _ := ensure (byte_len agent_type <=? MAX_AGENT_TYPE_LEN)%Z
              ("agent_type exceeds max length of " +:+ pretty MAX_AGENT_TYPE_LEN +:+ " bytes") in
  if bool_decide (agent_type ∈ VALID_AGENT_TYPES) then Ok tt
  else match strip_prefix "ai:" agent_type with
       | Some name =>
           let? _ := ensure (negb (str_is_empty name)) "agent_type 'ai:' must include a name (e.g. 'ai:claude-opus-4.7')" in
           ensure (str_all agent_type_char name)
             ("agent_type '" +:+ agent_type +:+ "' contains invalid characters in the ai: name part (allowed: alphanumeric, _-.)")
       | None => Err ("invalid agent_type '" +:+ agent_type +:+ "' — must be one of: " +:+ str_join ", " VALID_AGENT_TYPES
                      +:+ " (or any ai:<name> form)")
       end.

Definition SECS_PER_DAY : Z := 86400.

Definition validate_ttl_secs (ttl : option Z) : result unit string :=
  match ttl with
  | Some secs =>
      let? _ := ensure (0 <? secs)%Z ("ttl_secs must be positive (got " +:+ pretty secs +:+ ")") in
      ensure (secs <=? 365 * SECS_PER_DAY)%Z "ttl_secs exceeds maximum of 1 year"
  | None => Ok tt
  end.

Definition validate_priority (priority : Z) : result unit string :=
  ensure ((1 <=? priority) && (priority <=? 10))%Z ("priority must be between 1 and 10 (got " +:+ pretty priority +:+ ")").

Definition VALID_RELATIONS : list string :=
  ["related_to"; "supersedes"; "contradicts"; "derived_from"; "reflects_on"; "derives_from"; "decomposes_into";
   "depends_on"; "advances"].

Definition validate_relation (relation : string) : result unit string :=
  let? _ := ensure (negb (str_is_empty (str_trim relation))) "relation cannot be empty" in
  let? _ := ensure (byte_len relation <=? MAX_RELATION_LEN)%Z ("relation exceeds max length of " +:+ pretty MAX_RELATION_LEN +:+ " bytes") in
  ensure (bool_decide (relation ∈ VALID_RELATIONS))
    ("invalid relation '" +:+ relation +:+ "' — must be one of: " +:+ str_join ", " VALID_RELATIONS).

(** Nesting, scalars at zero. *)
Fixpoint json_depth (v : value) : Z :=
  match v with
  | JObject m => (1 + (fix go (l : list (string * value)) : Z :=
      match l with [] => 0 | (_, w) :: l => Z.max (json_depth w) (go l) end) m)%Z
  | JArray vs => (1 + (fix go (l : list value) : Z := match l with [] => 0 | w :: l => Z.max (json_depth w) (go l) end) vs)%Z
  | _ => 0%Z
  end.

Definition VALID_SOURCE_URI_SCHEMES : list string := ["uri:"; "doc:"; "file:"].

Definition validate_source_uri (s : string) : result unit string :=
  let trimmed := str_trim s in
  let? _ := ensure (negb (str_is_empty trimmed)) "source URI cannot be empty" in
  let? _ := ensure (byte_len trimmed <=? MAX_SOURCE_URI_LEN)%Z
              ("source URI exceeds max length of " +:+ pretty MAX_SOURCE_URI_LEN +:+ " bytes") in
  let? _ := ensure (is_clean_string trimmed) "source URI contains invalid control characters" in
  match List.find (λ prefix, starts_with prefix trimmed) VALID_SOURCE_URI_SCHEMES with
  | Some prefix =>
      ensure (negb (str_is_empty (str_trim (default "" (strip_prefix prefix trimmed)))))
        ("source URI scheme '" +:+ prefix +:+ "' has empty payload")
  | None => Err ("source URI must start with one of: " +:+ str_join ", " VALID_SOURCE_URI_SCHEMES)
  end.

Definition validate_source_span (span : SourceSpan) : result unit string :=
  ensure (span_start span <? span_end span)%Z
    ("source_span requires start < end (got start=" +:+ pretty (span_start span) +:+ ", end=" +:+ pretty (span_end span) +:+ ")").

Definition validate_source_span_for_body (span : SourceSpan) (body : string) : result unit string :=
  let? _ := validate_source_span span in
  let? _ := ensure (span_end span <=? byte_len body)%Z
              ("source_span end=" +:+ pretty (span_end span) +:+ " exceeds body length " +:+ pretty (byte_len body)) in
  let? _ := ensure (is_char_boundary body (span_start span))
              ("source_span start=" +:+ pretty (span_start span) +:+ " is not a UTF-8 char boundary in body") in
  ensure (is_char_boundary body (span_end span))
    ("source_span end=" +:+ pretty (span_end span) +:+ " is not a UTF-8 char boundary in body").

Definition validate_citation `{Chrono} (c : Citation) : result unit string :=
  let? _ := validate_source_uri (cite_uri c) in
  let? _ := ensure (is_some (parse_rfc3339 (cite_accessed_at c)))
              ("citation.accessed_at is not valid RFC3339: '" +:+ cite_accessed_at c +:+ "'") in
  let? _ := match cite_hash c with
            | Some h => ensure ((byte_len h =? 64)%Z && str_all ascii_hexdigit h)
                          "citation.hash must be 64 hex characters (SHA-256 digest)"
            | None => Ok tt
            end in
  match cite_span c with Some span => validate_source_span span | None => Ok tt end.

Fixpoint validate_each {A} (validate : A → result unit string) (l : list A) : result unit string :=
  match l with [] => Ok tt | a :: l => let? _ := validate a in validate_each validate l end.

Definition validate_citations `{Chrono} (citations : list Citation) : result unit string :=
  let? _ := ensure (Z.of_nat (length citations) <=? MAX_CITATIONS_PER_MEMORY)%Z
              ("too many citations: " +:+ pretty (length citations) +:+ " exceeds cap of " +:+ pretty MAX_CITATIONS_PER_MEMORY) in
  validate_each validate_citation citations.

Definition validate_expires_at `{Chrono} (utc_now : datetime) (expires_at : option string) : result unit string :=
  match expires_at with
  | Some ts =>
      match parse_rfc3339 ts with
      | None => Err ("expires_at is not valid RFC3339: '" +:+ ts +:+ "'")
      | Some dt => ensure (negb (dt_instant dt <? dt_instant utc_now)%Z) "expires_at is in the past"
      end
  | None => Ok tt
  end.

Definition PEER_HEAD_ENTANGLEMENT_NAMESPACE : string := "_peer_head_entanglement".

Definition reject_reserved_write_namespace (namespace : string) : result unit string :=
  ensure (negb (bool_decide (str_trim namespace = PEER_HEAD_ENTANGLEMENT_NAMESPACE)))
    ("namespace '" +:+ PEER_HEAD_ENTANGLEMENT_NAMESPACE
       +:+ "' is reserved for substrate peer-head-entanglement records and cannot be written by a caller").

Definition validate_kind (kind : option string) : result unit string :=
  match kind with
  | Some s =>
      ensure (is_some (MemoryKind_from_str s))
        ("invalid kind '" +:+ s +:+ "' (expected one of: " +:+ str_join ", " (MemoryKind_as_str <$> MemoryKind_all) +:+ ")")
  | None => Ok tt
  end.

Definition validate_lifecycle_state (state : option string) : result unit string :=
  let allowed := str_join ", " (LifecycleState_as_str <$> List.filter (λ k, negb (Lifecycle_is_system_only k)) LifecycleState_all) in
  match state with
  | None => Ok tt
  | Some s =>
      match LifecycleState_from_str s with
      | Some st =>
          ensure (negb (Lifecycle_is_system_only st))
            ("lifecycle_state '" +:+ s +:+ "' is system-only and cannot be set by a caller (expected one of: " +:+ allowed +:+ ")")
      | None => Err ("invalid lifecycle_state '" +:+ s +:+ "' (expected one of: " +:+ allowed +:+ ")")
      end
  end.

(* ------------------------------------------------------------------ *)
(** * Visibility *)

(** A text field of a row's metadata. *)
Definition meta_str (m : Memory) (key : string) : option string :=
  v ← json_get (mem_metadata m) key; json_as_str v.

Definition private_visible (m : Memory) (caller : string) : bool :=
  bool_decide (default "" (meta_str m "agent_id") = caller)
  || bool_decide (default "" (meta_str m "target_agent_id") = caller).

Definition scope_subtree_visible (m : Memory) (caller : string) (ancestor_idx : nat) : bool :=
  match namespace_ancestors caller !! ancestor_idx with
  | Some prefix => bool_decide (mem_namespace m = prefix) || starts_with (prefix +:+ "/") (mem_namespace m)
  | None => false
  end.

Definition is_visible_to_caller (m : Memory) (caller : string) : bool :=
  match MemoryScope_from_str <$> meta_str m "scope" with
  | None => private_visible m caller
  | Some None => true
  | Some (Some Private) => private_visible m caller
  | Some (Some Collective) => true
  | Some (Some Team) => scope_subtree_visible m caller 1
  | Some (Some Unit) => scope_subtree_visible m caller 2
  | Some (Some Org) => scope_subtree_visible m caller 3
  end.

Definition caller_owns_for_mutation (m : Memory) (caller : string) (allow_inbox : bool) : bool :=
  let owner := default "" (meta_str m "agent_id") in
  if str_is_empty owner || bool_decide (owner = caller) || bool_decide (caller = DAEMON_PRINCIPAL) then true
  else
    let target := default "" (meta_str m "target_agent_id") in
    allow_inbox && negb (str_is_empty target) && bool_decide (target = caller).

(* ------------------------------------------------------------------ *)
(** * What the validators accept *)

Lemma ensure_Ok b message : ensure b message = Ok tt ↔ b = true.
Proof. unfold ensure. destruct b; split; done. Qed.

Lemma ensure_then b message (k : unit → result unit string) :
  result_bind (ensure b message) k = Ok tt ↔ b = true ∧ k tt = Ok tt.
Proof. unfold ensure, result_bind. destruct b; split; [done|tauto|done|by intros [? _]]. Qed.

(** A visible ASCII character is no white space, no control and no lead byte. *)
Definition visible_ascii (a : ascii) : bool := byte_in 33 126 a.

Lemma byte_out lo hi a : visible_ascii a = true → (hi <? 33)%N || (126 <? lo)%N = true → byte_in lo hi a = false.
Proof. unfold visible_ascii, byte_in. rewrite andb_true_iff, orb_true_iff, andb_false_iff, !N.leb_le, !N.ltb_lt, !N.leb_gt. lia. Qed.

Lemma visible_not_ws a : visible_ascii a = true →
  ws1 a = false ∧ (∀ b, ws2 a b = false ∧ ws2 b a = false) ∧ (∀ b c, ws3 a b c = false ∧ ws3 b c a = false).
Proof.
  intros Ha. unfold ws1, ws2, ws3, byte_is. split_and!; intros; rewrite ?(byte_out _ _ a Ha) by done; simpl;
    rewrite ?andb_false_r; done.
Qed.

(** What [trim] leaves alone. *)
Lemma trim_start_visible w2 w3 s : str_all visible_ascii s = true →
  (∀ a b, visible_ascii a = true → w2 a b = false) → (∀ a b c, visible_ascii a = true → w3 a b c = false) →
  trim_start_with w2 w3 s = s.
Proof.
  intros Hs H2 H3. destruct s as [|a s]; [done|]. simpl in Hs. apply andb_true_iff in Hs as [Ha _]. simpl.
  destruct (visible_not_ws a Ha) as [-> _]. destruct s as [|b s]; [done|]. rewrite (H2 a b Ha). destruct s; [done|]. by rewrite (H3 _ _ _ Ha).
Qed.

Lemma list_ascii_rev s : String.list_ascii_of_string (String.rev s) = rev (String.list_ascii_of_string s).
Proof.
  unfold String.rev. rewrite rev_alt. change (@nil ascii) with (String.list_ascii_of_string ""). generalize "" as t.
  induction s as [|a s IH]; intros t; [done|]. simpl. by rewrite IH.
Qed.

Lemma list_ascii_inj s t : String.list_ascii_of_string s = String.list_ascii_of_string t → s = t.
Proof. intros H. by rewrite <-(String.string_of_list_ascii_of_string s), H, String.string_of_list_ascii_of_string. Qed.

Lemma rev_rev s : String.rev (String.rev s) = s.
Proof. apply list_ascii_inj. by rewrite !list_ascii_rev, rev_involutive. Qed.

Lemma trim_visible s : str_all visible_ascii s = true → str_trim s = s.
Proof.
  intros Hs. unfold str_trim, trim_start. rewrite (trim_start_visible ws2 ws3 s Hs).
  2-3: intros a; intros; by apply (visible_not_ws a).
  unfold trim_end. rewrite trim_start_visible; [apply rev_rev| | |].
  - apply str_all_spec. rewrite list_ascii_rev. apply Forall_rev. by apply str_all_spec.
  - intros a b Ha. by apply (visible_not_ws a).
  - intros a b c Ha. destruct (visible_not_ws a Ha) as (_ & _ & H). by apply (H c b).
Qed.

Lemma visible_clean s : str_all visible_ascii s = true → is_clean_string s = true.
Proof.
  unfold is_clean_string. rewrite negb_true_iff. induction s as [|a s IH]; simpl; [done|].
  rewrite andb_true_iff. intros [Ha Hs]. rewrite (IH Hs). unfold visible_ascii, byte_is, byte_in in *.
  rewrite andb_true_iff, !N.leb_le in Ha. rewrite !orb_false_iff, !andb_false_iff, !N.leb_gt. split_and!; lia.
Qed.

Lemma id_char_spec a : id_char a = true → visible_ascii a = true ∧ a ≠ slash ∧ a ≠ backslash.
Proof. destruct a as [[] [] [] [] [] [] [] []]; vm_compute; try done; by intros _. Qed.

Lemma contains_char_all p c s : (∀ a, p a = true → a ≠ c) → str_all p s = true → str_contains_char c s = false.
Proof.
  intros Hp. induction s as [|a s IH]; simpl; [done|]. rewrite andb_true_iff. intros [Ha Hs].
  by rewrite (IH Hs), bool_decide_eq_false_2 by by apply Hp.
Qed.

Lemma str_all_impl (p q : ascii → bool) s : (∀ a, p a = true → q a = true) → str_all p s = true → str_all q s = true.
Proof. intros Hpq. rewrite !str_all_spec. intros H. eapply Forall_impl; eauto. Qed.

(** The identifiers accepted: up to 128 characters of the alphabet, without two
    dots in a row; the other tests of the validator never decide. *)
Lemma validate_id_exact id : validate_id id = Ok tt ↔
  id ≠ "" ∧ (byte_len id ≤ MAX_ID_LEN)%Z ∧ str_contains ".." id = false
  ∧ Forall (λ a, id_char a = true) (String.list_ascii_of_string id).
Proof.
  unfold validate_id. rewrite !ensure_then, ensure_Ok, !negb_true_iff, Z.leb_le, str_all_spec.
  split.
  - intros (Hne & Hlen & _ & Hdots & _ & Hall). split_and!; [|done..]. intros ->. by vm_compute in Hne.
  - intros (Hne & Hlen & Hdots & Hall). apply str_all_spec in Hall.
    assert (str_all visible_ascii id = true) as Hv by (eapply str_all_impl, Hall; intros a; apply id_char_spec).
    rewrite trim_visible, visible_clean by done. unfold str_is_empty. rewrite bool_decide_eq_false_2 by done.
    rewrite !(contains_char_all id_char) by (try done; intros a; apply id_char_spec). split_and!; try done. by apply str_all_spec.
Qed.

(* ------------------------------------------------------------------ *)
(** * Paths and their segments *)

Definition segments (ns : string) : list string := str_split slash ns.

Lemma segments_app a b : segments (a +:+ String slash b) = segments a ++ segments b.
Proof.
  unfold segments. induction a as [|c a IH]; [done|]. rewrite str_app_cons. simpl. rewrite IH. case_decide; [done|].
  destruct (str_split slash a) as [|x xs] eqn:E; [by apply str_split_nonempty in E|done].
Qed.

Lemma segments_no_slash ns : Forall (λ s, str_contains_char slash s = false) (segments ns).
Proof.
  unfold segments. induction ns as [|c ns IH]; simpl; [by repeat constructor|]. case_decide as Hc; [by constructor|].
  destruct (str_split slash ns) as [|x xs] eqn:E; [by apply str_split_nonempty in E|].
  apply Forall_cons in IH as [Hx Hxs]. constructor; [|done]. simpl. by rewrite Hx, bool_decide_eq_false_2.
Qed.

Definition path (segs : list string) : string := str_join "/" segs.

Lemma path_cons x y segs : path (x :: y :: segs) = x +:+ String slash (path (y :: segs)).
Proof. done. Qed.

Lemma path_segments ns : path (segments ns) = ns.
Proof.
  unfold segments. induction ns as [|c ns IH]; [done|]. simpl. case_decide as Hc.
  - subst. destruct (str_split slash ns) as [|x xs] eqn:E; [by apply str_split_nonempty in E|].
    rewrite path_cons, IH. done.
  - destruct (str_split slash ns) as [|x [|y xs]] eqn:E; [by apply str_split_nonempty in E| |].
    + rewrite <-IH. done.
    + rewrite path_cons in *. by rewrite <-IH.
Qed.

Lemma segments_path segs : segs ≠ [] → Forall (λ s, str_contains_char slash s = false) segs → segments (path segs) = segs.
Proof. apply str_split_join. Qed.

Lemma path_app l k : l ≠ [] → k ≠ [] → path (l ++ k) = path l +:+ String slash (path k).
Proof.
  intros Hl Hk. induction l as [|x l IH]; [done|]. destruct l as [|y l].
  - destruct k as [|z k]; [done|]. apply path_cons.
  - rewrite <-!app_comm_cons, !path_cons. rewrite app_comm_cons, IH by done. apply (str_app_assoc x (String slash (path (y :: l)))).
Qed.

Lemma starts_with_spec p s : starts_with p s = true ↔ ∃ r, s = p +:+ r.
Proof.
  revert s. induction p as [|a p IH]; intros s; simpl; [split; [by exists s|done]|].
  destruct s as [|b s]; [split; [done|by intros [? [=]]]|]. rewrite andb_true_iff, bool_decide_eq_true, IH.
  split; [intros [-> [r ->]]; by exists r|intros [r [= -> ->]]; eauto].
Qed.

(** A path lies under another when its segments begin with the other's. *)
Lemma under_path p ns :
  bool_decide (ns = p) || starts_with (p +:+ "/") ns = true ↔ segments p `prefix_of` segments ns.
Proof.
  rewrite orb_true_iff, bool_decide_eq_true, starts_with_spec. split.
  - intros [->|[r ->]]; [done|]. change (p +:+ "/") with (p +:+ String slash ""). rewrite <-str_app_assoc.
    change (String slash "" +:+ r) with (String slash r). rewrite segments_app. by exists (segments r).
  - intros [k Hk]. destruct k as [|x k].
    + left. rewrite app_nil_r in Hk. by rewrite <-(path_segments ns), Hk, path_segments.
    + right. exists (path (x :: k)). rewrite <-(path_segments ns), Hk, path_app by (try done; apply str_split_nonempty).
      rewrite path_segments. apply (str_app_assoc p (String slash "")).
Qed.

Lemma rsplit_once_none b : str_contains_char slash b = false → str_rsplit_once slash b = None.
Proof.
  induction b as [|c b IH]; [done|]. simpl. rewrite orb_false_iff. intros [Hc Hb]. by rewrite (IH Hb), Hc.
Qed.

Lemma namespace_parent_snoc a b : str_contains_char slash b = false → namespace_parent (a +:+ String slash b) = Some a.
Proof.
  intros Hb. unfold namespace_parent. induction a as [|c a IH]; [by simpl; rewrite (rsplit_once_none b Hb)|].
  rewrite str_app_cons. cbn [str_rsplit_once]. destruct (str_rsplit_once slash (a +:+ String slash b)) as [[x y]|]; [|done].
  simpl in IH. by injection IH as ->.
Qed.

Lemma path_nonempty segs : segs ≠ [] → Forall (λ s, s ≠ "") segs → path segs ≠ "".
Proof.
  intros Hne Hall. destruct segs as [|x [|y segs]]; [done| |]; apply Forall_cons in Hall as [Hx _]; [done|].
  rewrite path_cons. by destruct x.
Qed.

Lemma path_snoc_nonempty l x : l ≠ [] → path (l ++ [x]) ≠ "".
Proof. intros Hl. rewrite path_app by done. by destruct (path l). Qed.

(** The ancestors of a path are its prefixes, the longest first; an empty first
    segment is none of them. *)
Lemma ancestors_lookup_any segs k : Forall (λ s, str_contains_char slash s = false) segs →
  namespace_ancestors (path segs) !! k =
  (if decide (k < length segs ∧ path (take (length segs - k) segs) ≠ "") then Some (path (take (length segs - k) segs)) else None).
Proof.
  revert segs. induction k as [|k IH]; intros segs Hall; rewrite namespace_ancestors_unfold; unfold str_is_empty.
  - rewrite Nat.sub_0_r, firstn_all. case_bool_decide as Hp; [rewrite decide_False; [done|tauto]|].
    rewrite decide_True; [done|]. split; [|done]. destruct segs; [done|simpl; lia].
  - destruct segs as [|x l _] using rev_ind; [done|]. apply Forall_app in Hall as [Hl [Hx _]%Forall_cons].
    destruct (decide (l = [])) as [->|Hne].
    + rewrite decide_False by (simpl; lia). case_bool_decide; [done|]. simpl. unfold namespace_parent. by rewrite rsplit_once_none.
    + rewrite bool_decide_eq_false_2 by by apply path_snoc_nonempty. rewrite path_app by done. change (path [x]) with x.
      rewrite namespace_parent_snoc by done. simpl. rewrite (IH l) by done. rewrite length_app. simpl.
      replace (length l + 1 - S k) with (length l - k) by lia. rewrite take_app_le by lia.
      apply decide_ext. split; intros [? ?]; (split; [lia|done]).
Qed.

Lemma ancestors_lookup segs k :
  Forall (λ s, s ≠ "" ∧ str_contains_char slash s = false) segs →
  namespace_ancestors (path segs) !! k =
  (if decide (k < length segs) then Some (path (take (length segs - k) segs)) else None).
Proof.
  intros Hall. rewrite ancestors_lookup_any by (eapply Forall_impl; [exact Hall|]; simpl; tauto).
  destruct (decide (k < length segs)) as [Hk|Hk]; [|rewrite decide_False; [done|tauto]]. rewrite decide_True; [done|].
  split; [done|]. apply path_nonempty; [intros E; apply (f_equal length) in E; rewrite length_take in E; simpl in E; lia|].
  apply Forall_take. eapply Forall_impl; [exact Hall|]. simpl. tauto.
Qed.

Lemma segments_nonempty ns : segments ns ≠ [].
Proof. apply str_split_nonempty. Qed.

Lemma filter_nonempty segs : Forall (λ s, s ≠ "") segs → List.filter (λ s, negb (str_is_empty s)) segs = segs.
Proof.
  induction 1 as [|s segs Hs _ IH]; [done|]. simpl. unfold str_is_empty at 1. rewrite bool_decide_eq_false_2 by done. simpl. by rewrite IH.
Qed.

Lemma depth_segments ns : Forall (λ s, s ≠ "") (segments ns) → namespace_depth ns = length (segments ns).
Proof.
  intros Hs. unfold namespace_depth. destruct (str_is_empty ns) eqn:E.
  - apply bool_decide_eq_true in E as ->. inversion Hs; done.
  - fold (segments ns). by rewrite filter_nonempty.
Qed.

Lemma starts_with_slash ns : starts_with_char slash ns = true → "" ∈ segments ns.
Proof. destruct ns as [|c ns]; [done|]. intros ->%bool_decide_eq_true. left. Qed.

Lemma ends_with_slash ns : ends_with_char slash ns = true → "" ∈ segments ns.
Proof.
  unfold ends_with_char. destruct (String.rev ns) as [|c r] eqn:E; [done|]. intros ->%bool_decide_eq_true.
  assert (ns = String.rev r +:+ String slash "") as ->.
  { rewrite <-(rev_rev ns), E. apply list_ascii_inj. rewrite list_ascii_rev. simpl. rewrite <-list_ascii_rev.
    generalize (String.rev r) as t. induction t as [|a t IH]; [done|]. simpl. by rewrite IH. }
  rewrite segments_app. apply elem_of_app. right. left.
Qed.

Lemma existsb_Forall {A} (p : A → bool) (l : list A) : existsb p l = false ↔ Forall (λ x, p x = false) l.
Proof.
  induction l as [|x l IH]; simpl; [split; [constructor|done]|]. by rewrite orb_false_iff, Forall_cons, IH.
Qed.

(** What a namespace is, white space around it aside. *)
Record namespace_ok (ns : string) : Prop := {
  no_length : (char_count ns ≤ MAX_NAMESPACE_LEN)%Z;
  no_clean : is_clean_string ns = true;
  no_chars : ∀ c, c ∈ [backslash; nul; space] → str_contains_char c ns = false;
  no_segments : Forall (λ s, s ≠ "" ∧ s ≠ "." ∧ s ≠ "..") (segments ns);
  no_depth : length (segments ns) ≤ MAX_NAMESPACE_DEPTH
}.

Lemma namespace_ok_segments ns : namespace_ok ns → Forall (λ s, s ≠ "") (segments ns).
Proof. intros H. eapply Forall_impl; [apply H|]. simpl. tauto. Qed.

Lemma namespace_ok_accepted ns : namespace_ok (str_trim ns) → validate_namespace ns = Ok tt.
Proof.
  unfold validate_namespace. generalize (str_trim ns) as t. intros t Ht. fold (segments t).
  pose proof (namespace_ok_segments t Ht) as Hne. destruct Ht as [Hlen Hc Hchars Hsegs Hdepth].
  rewrite !ensure_then, ensure_Ok, !negb_true_iff, !orb_false_iff, Z.leb_le, Nat.leb_le, !existsb_Forall.
  assert ("" ∉ segments t) as Hempty by (intros Hin; rewrite Forall_forall in Hne; by apply (Hne "")).
  rewrite depth_segments by done. split_and!; try done; try (apply Hchars; set_solver).
  - apply bool_decide_eq_false. intros ->. apply Hempty. left.
  - destruct (starts_with_char slash t) eqn:E; [by apply starts_with_slash in E|done].
  - destruct (ends_with_char slash t) eqn:E; [by apply ends_with_slash in E|done].
  - eapply Forall_impl; [exact Hne|]. intros s Hs. by apply bool_decide_eq_false.
  - eapply Forall_impl; [exact Hsegs|]. intros s (_ & ? & ?). by rewrite !bool_decide_eq_false_2.
Qed.

Lemma accepted_namespace_ok ns : validate_namespace ns = Ok tt → namespace_ok (str_trim ns).
Proof.
  unfold validate_namespace. generalize (str_trim ns) as t. intros t. fold (segments t).
  rewrite !ensure_then, ensure_Ok, !negb_true_iff, !orb_false_iff, Z.leb_le, Nat.leb_le, !existsb_Forall.
  intros (_ & Hlen & [Hb Hn] & Hsp & Hc & _ & _ & Hempty & Hdots & Hdepth).
  assert (Forall (λ s, s ≠ "" ∧ s ≠ "." ∧ s ≠ "..") (segments t)) as Hsegs.
  { rewrite !Forall_forall in *. intros s Hs. specialize (Hempty s Hs). specialize (Hdots s Hs).
    apply bool_decide_eq_false in Hempty. apply orb_false_iff in Hdots as [?%bool_decide_eq_false ?%bool_decide_eq_false]. done. }
  rewrite depth_segments in Hdepth by (eapply Forall_impl; [exact Hsegs|]; simpl; tauto).
  split; [done|done| |done|done]. intros c Hin. rewrite !elem_of_cons, elem_of_nil in Hin. by destruct Hin as [->|[->|[->|[]]]].
Qed.

(** C33: the namespaces accepted are, white space around them aside, exactly
    the paths of at most eight segments, none of them empty or a dot segment,
    within the length and without a backslash, a space or a control (the tests
    on the leading and trailing slash never decide), and the ancestors of an
    accepted namespace, on which policies and scopes are looked up, are exactly
    its prefixes, so at most eight. *)
Theorem namespace_exact ns :
  (validate_namespace ns = Ok tt ↔ namespace_ok (str_trim ns))
  ∧ (validate_namespace ns = Ok tt →
     let segs := segments (str_trim ns) in
     (∀ k, namespace_ancestors (str_trim ns) !! k =
           (if decide (k < length segs) then Some (path (take (length segs - k) segs)) else None))
     ∧ length (namespace_ancestors (str_trim ns)) ≤ MAX_NAMESPACE_DEPTH).
Proof.
  split; [split; [apply accepted_namespace_ok|apply namespace_ok_accepted]|].
  intros Hok%accepted_namespace_ok segs. assert (∀ k, namespace_ancestors (str_trim ns) !! k =
           (if decide (k < length segs) then Some (path (take (length segs - k) segs)) else None)) as Hk.
  { intros k. subst segs. rewrite <-(path_segments (str_trim ns)) at 1. apply ancestors_lookup.
    pose proof (namespace_ok_segments _ Hok) as Hne. pose proof (segments_no_slash (str_trim ns)) as Hns.
    rewrite !Forall_forall in *. auto. }
  split; [exact Hk|]. etrans; [|apply (no_depth _ Hok)]. apply Nat.le_ngt. intros Hlt.
  apply lookup_lt_is_Some in Hlt as [x Hx]. rewrite Hk, decide_False in Hx by (subst segs; lia). done.
Qed.

(** How many segments of the caller's path a scope leaves aside. *)
Definition scope_index (s : MemoryScope) : option nat :=
  match s with Team => Some 1 | Unit => Some 2 | Org => Some 3 | Private | Collective => None end.

(** C32: a row of team, unit or org scope is visible exactly to the callers whose
    path, without its last one, two or three segments, leaves a text that is not
    empty and begins the row's namespace segment by segment. Callers are any
    texts, empty segments included, as in a SPIFFE id; a path that begins with a
    slash is cut at most to its first segment that has a name. So whoever sees
    such a row shares the first segment of its namespace, and a caller of a
    single segment sees none, its own included. *)
Theorem subtree_visibility_exact m caller scope k :
  meta_str m "scope" = Some (MemoryScope_as_str scope) → scope_index scope = Some k →
  let left := take (length (segments caller) - k) (segments caller) in
  (is_visible_to_caller m caller = true ↔
   k < length (segments caller) ∧ path left ≠ "" ∧ left `prefix_of` segments (mem_namespace m))
  ∧ (is_visible_to_caller m caller = true → head (segments (mem_namespace m)) = head (segments caller))
  ∧ (length (segments caller) = 1 → is_visible_to_caller m caller = false).
Proof.
  intros Hscope Hk left. pose proof (segments_no_slash caller) as Hall.
  assert (is_visible_to_caller m caller = scope_subtree_visible m caller k) as ->.
  { unfold is_visible_to_caller. rewrite Hscope. destruct scope; try done; simpl in Hk; by injection Hk as <-. }
  assert (scope_subtree_visible m caller k = true ↔
   k < length (segments caller) ∧ path left ≠ "" ∧ left `prefix_of` segments (mem_namespace m)) as Hexact.
  { unfold scope_subtree_visible. rewrite <-(path_segments caller) at 1. rewrite ancestors_lookup_any by done. fold left.
    case_decide as Hlt; [|split; [done|tauto]]. rewrite under_path, segments_path; [tauto| |by apply Forall_take].
    intros E. apply (f_equal length) in E. unfold left in E. rewrite length_take in E. simpl in E. lia. }
  split; [exact Hexact|]. split.
  - intros (Hlt & _ & r & Hr)%Hexact. rewrite Hr. unfold left. destruct (segments caller) as [|x xs]; [simpl in Hlt; lia|].
    simpl length in *. destruct (S (length xs) - k) eqn:E; [lia|]. done.
  - intros H1. apply not_true_is_false. rewrite Hexact, H1. destruct scope; simpl in Hk; try done; injection Hk as <-; lia.
Qed.

Lemma namespace_exact_witness :
  validate_namespace " a/b/c" = Ok tt ∧ namespace_ok (str_trim " a/b/c")
  ∧ ∀ k, namespace_ancestors (str_trim " a/b/c") !! k =
      (if decide (k < length (segments (str_trim " a/b/c")))
       then Some (path (take (length (segments (str_trim " a/b/c")) - k) (segments (str_trim " a/b/c")))) else None).
Proof.
  assert (validate_namespace " a/b/c" = Ok tt) as H by by vm_compute. destruct (namespace_exact " a/b/c") as [H1 H2].
  split; [exact H|]. split; [by apply H1|]. apply (proj1 (H2 H)).
Defined.

Definition demo_team_row : Memory :=
  mkMemory "m1" None Mid "acme/lab/notes" "t" "c" [] 5 f64_one "api" 0 "" "" None None
    (JObject [("agent_id", JString "acme/lab/bob"); ("scope", JString "team")])
    0 KindObservation None None [] None None CallerProvided None None 1 LifeOpen.

Lemma subtree_visibility_exact_witness :
  is_visible_to_caller demo_team_row "acme/lab/bob" = true
  ∧ head (segments (mem_namespace demo_team_row)) = head (segments "acme/lab/bob")
  ∧ is_visible_to_caller demo_team_row "acme" = false.
Proof.
  assert (is_visible_to_caller demo_team_row "acme/lab/bob" = true) as Hv by by vm_compute. split; [exact Hv|]. split.
  - apply (subtree_visibility_exact demo_team_row "acme/lab/bob" Team 1); [done|done|exact Hv].
  - apply (subtree_visibility_exact demo_team_row "acme" Team 1); done.
Defined.
