(* ===== verification/Capability.v ===== *)
(** Capability tokens: caveats, the signed root block, the HMAC chain that
    binds them, verification, and the joiner that may turn a refusal into a
    grant ([src/src/governance/capability.rs]). The cryptographic libraries
    (HMAC-SHA256, Ed25519, CBOR, base64) are an interface. *)
From S2P Require Import Prelude.
From S2P Require Import BTree.
From S2P Require Import Bytes.
From S2P Require Import Text.
From S2P Require Import Json.
From S2P Require Import Permissions.
From S2P Require Import Policy.

(* ------------------------------------------------------------------ *)
(** * CBOR values, the library interface *)

(** The part of [ciborium::Value] the program uses. *)
#[warnings="-register-all"]
Inductive cbor : Type :=
| CInteger (z : Z)
| CBytes (b : bytes)
| CText (s : string)
| CNull
| CArray (l : list cbor)
| CMap (m : list (cbor * cbor)).

Definition CAPABILITY_VERSION : Z := 1.
Definition TOKEN_PREFIX : string := "cap1:".
Definition MAX_TOKEN_B64_LEN : nat := 8 * 1024.
Definition DEFAULT_CAPABILITIES_ENABLED : bool := true.
Definition KEY_DOMAIN : string := "cap_dom".
Definition KEY_V : string := "cap_v".
Definition KEY_ISSUER : string := "cap_issuer".
Definition KEY_ROOT_ID : string := "cap_root_id".
Definition KEY_ROOT_CAVEATS : string := "cap_root_caveats".
Definition DOMAIN_ROOT : string := "ai-memory/capability-root/v1".
Definition NAMESPACE_PREFIX_LABEL : string := "namespace_prefix".

(* ------------------------------------------------------------------ *)
(** * Operation levels *)

Inductive OpLevel : Type := OpNone | OpRead | OpWrite | OpAdmin.

#[global] Instance OpLevel_eq_dec : EqDecision OpLevel.
Proof. solve_decision. Defined.

Definition wire_ord (l : OpLevel) : Z :=
  match l with OpNone => 0 | OpRead => 1 | OpWrite => 2 | OpAdmin => 3 end.

(** The derived order is the declaration order. *)
Definition op_gtb (a b : OpLevel) : bool := bool_decide (wire_ord b < wire_ord a)%Z.
Definition op_min (a b : OpLevel) : OpLevel := if op_gtb a b then b else a.

Definition op_level_of (action : string) : OpLevel :=
  if decide (action = "Store") then OpWrite
  else if decide (action = "Promote") then OpWrite
  else if decide (action = "Delete") then OpWrite
  else if decide (action = "Reflect") then OpRead
  else OpAdmin.

Definition OpLevel_as_str (l : OpLevel) : string :=
  match l with OpNone => "none" | OpRead => "read" | OpWrite => "write" | OpAdmin => "admin" end.

Definition OpLevel_parse (raw : string) : option OpLevel :=
  let s := to_ascii_lowercase (str_trim raw) in
  if decide (s = "none") then Some OpNone
  else if decide (s = "read") then Some OpRead
  else if decide (s = "write") then Some OpWrite
  else if decide (s = "admin") then Some OpAdmin
  else None.

Definition parse_capabilities_toggle (raw : string) : option bool :=
  let s := to_ascii_lowercase (str_trim raw) in
  if decide (s ∈ ["on"; "1"; "true"; "yes"]) then Some true
  else if decide (s ∈ ["off"; "0"; "false"; "no"]) then Some false
  else None.

(* ------------------------------------------------------------------ *)
(** * Caveats, root blocks, tokens *)

Inductive Caveat : Type :=
| NamespacePrefix (p : string)
| OpCeiling (l : OpLevel)
| ActionIs (a : string)
| AgentIs (a : string)
| ExpiresAt (t : Z)
| NotBefore (t : Z).

#[global] Instance Caveat_eq_dec : EqDecision Caveat.
Proof. solve_decision. Defined.

Definition Caveat_to_value (c : Caveat) : cbor :=
  let '(tag, payload) :=
    match c with
    | NamespacePrefix s => (0, CText s)
    | OpCeiling l => (1, CInteger (wire_ord l))
    | ActionIs s => (2, CText s)
    | AgentIs s => (3, CText s)
    | ExpiresAt t => (4, CInteger t)
    | NotBefore t => (5, CInteger t)
    end%Z in
  CArray [CInteger tag; payload].

Definition caveats_have_expiry (caveats : list Caveat) : bool :=
  existsb (λ c, match c with ExpiresAt _ => true | _ => false end) caveats.

Record RootBlock : Type := mkRoot {
  root_v : Z;
  root_issuer : string;
  root_root_id : string;
  root_root_caveats : list Caveat
}.

(** The sorted map the block is encoded as. *)
Definition RootBlock_to_value (r : RootBlock) : cbor :=
  let map : btree cbor := [] in
  let map := binsert KEY_DOMAIN (CText DOMAIN_ROOT) map in
  let map := binsert KEY_V (CInteger (root_v r)) map in
  let map := binsert KEY_ISSUER (CText (root_issuer r)) map in
  let map := binsert KEY_ROOT_ID (CText (root_root_id r)) map in
  let map := binsert KEY_ROOT_CAVEATS (CArray (Caveat_to_value <$> root_root_caveats r)) map in
  CMap ((λ kv, (CText kv.1, kv.2)) <$> map).

Record CapabilityToken : Type := mkToken {
  tok_v : Z;
  tok_issuer : string;
  tok_root_id : string;
  tok_root_caveats : list Caveat;
  tok_root_sig : bytes;
  tok_ext_caveats : list Caveat;
  tok_tag : bytes
}.

Definition root_block (t : CapabilityToken) : RootBlock :=
  mkRoot (tok_v t) (tok_issuer t) (tok_root_id t) (tok_root_caveats t).

(** The libraries: keys, signatures, the message authentication code and the
    encoders. *)
Class CapCrypto : Type := {
  VerifyingKey : Type;
  SigningKey : Type;
  public_key : SigningKey → VerifyingKey;
  sign : SigningKey → bytes → bytes;
  verify_strict : VerifyingKey → bytes → bytes → bool;
  hmac_sha256 : bytes → bytes → bytes;
  cbor_encode : cbor → option bytes;
  token_to_cbor : CapabilityToken → option bytes;
  token_from_cbor : bytes → option CapabilityToken;
  b64_encode : bytes → string;
  b64_decode : string → option bytes
}.

(** What they document: a signature made with a key has 64 bytes and verifies
    under its public key; an encoding determines the encoded value; decoding
    inverts encoding. Nothing is assumed of the authentication code. *)
Class CapCryptoLaws (C : CapCrypto) : Prop := {
  sign_verifies : ∀ k m, verify_strict (public_key k) m (sign k m) = true;
  sign_length : ∀ k m, length (sign k m) = 64;
  cbor_encode_inj : ∀ v w b, cbor_encode v = Some b → cbor_encode w = Some b → v = w;
  token_roundtrip : ∀ t b, token_to_cbor t = Some b → token_from_cbor b = Some t;
  b64_roundtrip : ∀ b, b64_decode (b64_encode b) = Some b
}.

(* ------------------------------------------------------------------ *)
(** * Errors, configuration, requests *)

Inductive CapReject : Type :=
| UnsupportedVersion | UnknownIssuer | BadRootSig | BadChain | Expired | NotYetValid
| CaveatUnmet (reason : string) | Malformed.

Definition CapReject_code (r : CapReject) : string :=
  match r with
  | UnsupportedVersion => "unsupported_version"
  | UnknownIssuer => "unknown_issuer"
  | BadRootSig => "bad_root_sig"
  | BadChain => "bad_chain"
  | Expired => "expired"
  | NotYetValid => "not_yet_valid"
  | CaveatUnmet _ => "caveat"
  | Malformed => "malformed"
  end.

Definition CapReject_display (r : CapReject) : string :=
  match r with
  | UnsupportedVersion => "unsupported capability version"
  | UnknownIssuer => "unknown capability issuer"
  | BadRootSig => "bad capability root signature"
  | BadChain => "bad capability caveat chain"
  | Expired => "capability expired"
  | NotYetValid => "capability not yet valid"
  | CaveatUnmet reason => "capability caveat unmet: " +:+ reason
  | Malformed => "malformed capability token"
  end.

Record CapRequest : Type := mkRequest {
  req_action : string;
  req_namespace : string;
  req_agent_id : string;
  req_now : Z
}.

Record VerifiedGrant : Type := mkGrant {
  grant_root_id : string;
  grant_issuer : string;
  grant_op_level : OpLevel;
  grant_namespace_prefix : string
}.

(** Whether the namespace is the prefix itself or a [/]-delimited
    descendant. *)
Definition namespace_under (namespace prefix : string) : bool :=
  bool_decide (namespace = prefix) || starts_with (prefix +:+ "/") namespace.

(** [ns_prefix.as_ref().is_none_or(|cur| p.len() > cur.len())] *)
Definition longer_prefix (ns_prefix : option string) (p : string) : option string :=
  match ns_prefix with
  | Some cur => if decide (String.length cur < String.length p) then Some p else ns_prefix
  | None => Some p
  end.

Inductive GrantOutcome : Type :=
| NoOp
| Granted (root_id issuer : string) (op_level : OpLevel)
| Rejected (r : CapReject).

(** [str::strip_prefix] *)
Fixpoint str_strip_prefix (p s : string) : option string :=
  match p, s with
  | EmptyString, _ => Some s
  | String a p', String b s' => if bool_decide (a = b) then str_strip_prefix p' s' else None
  | String _ _, EmptyString => None
  end.

(* ------------------------------------------------------------------ *)
(** * Minting, attenuation, verification *)

Section with_crypto.
Context `{C : CapCrypto}.

Record IssuerConfig : Type := mkIssuer {
  pubkey : VerifyingKey;
  root_secret : bytes;
  max_op : OpLevel;
  namespace_prefix : option string
}.

Record CapabilityConfig : Type := mkCapConfig {
  enabled : bool;
  issuers : btree IssuerConfig
}.

Definition Caveat_canonical_cbor (c : Caveat) : option bytes := cbor_encode (Caveat_to_value c).

Definition RootBlock_canonical_cbor (r : RootBlock) : option bytes :=
  cbor_encode (RootBlock_to_value r).

Definition to_wire (t : CapabilityToken) : option string :=
  buf ← token_to_cbor t;
  Some (TOKEN_PREFIX +:+ b64_encode buf).

Definition from_wire (s : string) : result CapabilityToken CapReject :=
  let? b64 := ok_or (str_strip_prefix TOKEN_PREFIX s) Malformed in
  if decide (MAX_TOKEN_B64_LEN < String.length b64) then Err Malformed
  else
    let? bytes := ok_or (b64_decode b64) Malformed in
    ok_or (token_from_cbor bytes) Malformed.

Definition resolve_capability_issuer_pubkey (cfg : CapabilityConfig) (issuer : string) :
    option VerifyingKey :=
  pubkey <$> bget issuer (issuers cfg).

Definition mint_with_secret (issuer_key : SigningKey) (secret : bytes) (issuer root_id : string)
    (root_caveats : list Caveat) : option CapabilityToken :=
  let root := mkRoot CAPABILITY_VERSION issuer root_id root_caveats in
  root_bytes ← RootBlock_canonical_cbor root;
  Some (mkToken CAPABILITY_VERSION issuer root_id root_caveats (sign issuer_key root_bytes) []
          (hmac_sha256 secret root_bytes)).

Definition attenuate (t : CapabilityToken) (c : Caveat) : option CapabilityToken :=
  cav_bytes ← Caveat_canonical_cbor c;
  Some (mkToken (tok_v t) (tok_issuer t) (tok_root_id t) (tok_root_caveats t) (tok_root_sig t)
          (tok_ext_caveats t ++ [c]) (hmac_sha256 (tok_tag t) cav_bytes)).

(** Step 5: the tag recomputed over the appended caveats. *)
Fixpoint fold_chain (tag : bytes) (ext : list Caveat) : option bytes :=
  match ext with
  | [] => Some tag
  | c :: ext' =>
      cav ← Caveat_canonical_cbor c;
      fold_chain (hmac_sha256 tag cav) ext'
  end.

(** Step 6: the loop over all caveats with its two accumulators. *)
Fixpoint enforce_caveats (req : CapRequest) (cs : list Caveat) (op_ceiling : OpLevel)
    (ns_prefix : option string) : result (OpLevel * option string) CapReject :=
  match cs with
  | [] => Ok (op_ceiling, ns_prefix)
  | c :: cs' =>
      match c with
      | NamespacePrefix p =>
          if namespace_under (req_namespace req) p
          then enforce_caveats req cs' op_ceiling (longer_prefix ns_prefix p)
          else Err (CaveatUnmet NAMESPACE_PREFIX_LABEL)
      | OpCeiling l =>
          if op_gtb (op_level_of (req_action req)) l then Err (CaveatUnmet "op_ceiling")
          else enforce_caveats req cs' (op_min op_ceiling l) ns_prefix
      | ActionIs a =>
          if decide (req_action req = a) then enforce_caveats req cs' op_ceiling ns_prefix
          else Err (CaveatUnmet "action")
      | AgentIs a =>
          if decide (req_agent_id req = a) then enforce_caveats req cs' op_ceiling ns_prefix
          else Err (CaveatUnmet "agent")
      | ExpiresAt t =>
          if decide (t < req_now req)%Z then Err Expired
          else enforce_caveats req cs' op_ceiling ns_prefix
      | NotBefore t =>
          if decide (req_now req < t)%Z then Err NotYetValid
          else enforce_caveats req cs' op_ceiling ns_prefix
      end
  end.

Definition verify (t : CapabilityToken) (cfg : CapabilityConfig) (req : CapRequest) :
    result VerifiedGrant CapReject :=
  if decide (tok_v t ≠ CAPABILITY_VERSION) then Err UnsupportedVersion
  else
    let? issuer_cfg := ok_or (bget (tok_issuer t) (issuers cfg)) UnknownIssuer in
    let? key := ok_or (resolve_capability_issuer_pubkey cfg (tok_issuer t)) UnknownIssuer in
    let? root_bytes := ok_or (RootBlock_canonical_cbor (root_block t)) Malformed in
    if decide (length (tok_root_sig t) ≠ 64) then Err BadRootSig
    else if negb (verify_strict key root_bytes (tok_root_sig t)) then Err BadRootSig
    else
      let? tag := ok_or (fold_chain (hmac_sha256 (root_secret issuer_cfg) root_bytes)
                           (tok_ext_caveats t)) Malformed in
      if decide (tag ≠ tok_tag t) then Err BadChain
      else
        let req_op := op_level_of (req_action req) in
        let? acc := enforce_caveats req (tok_root_caveats t ++ tok_ext_caveats t) OpAdmin None in
        let '(op_ceiling, ns_prefix) := acc in
        if op_gtb req_op (max_op issuer_cfg) then Err (CaveatUnmet "issuer_ceiling")
        else
          let? ns_prefix :=
            match namespace_prefix issuer_cfg with
            | Some issuer_ns =>
                if namespace_under (req_namespace req) issuer_ns
                then Ok (longer_prefix ns_prefix issuer_ns)
                else Err (CaveatUnmet "issuer_namespace")
            | None => Ok ns_prefix
            end in
          let effective_op := op_min op_ceiling (max_op issuer_cfg) in
          if op_gtb req_op effective_op then Err (CaveatUnmet "op_ceiling")
          else Ok (mkGrant (tok_root_id t) (tok_issuer t) effective_op (default "" ns_prefix)).

(* ------------------------------------------------------------------ *)
(** * Joining a grant onto a decision *)

Definition flippable (d : Decision) : bool :=
  match d with Deny _ | Ask _ => true | _ => false end.

Definition is_allow (d : Decision) : bool := match d with Allow => true | _ => false end.

Definition apply_capability_grant (base : Decision) (cfg : CapabilityConfig) (mode_is_enforce : bool)
    (token : option CapabilityToken) (req : CapRequest) : Decision * GrantOutcome :=
  if is_allow base || negb (enabled cfg) || negb mode_is_enforce then (base, NoOp)
  else
    match token with
    | None => (base, NoOp)
    | Some tok =>
        if negb (flippable base) then (base, NoOp)
        else
          match verify tok cfg req with
          | Ok g => (Allow, Granted (grant_root_id g) (grant_issuer g) (grant_op_level g))
          | Err reject => (base, Rejected reject)
          end
    end.

Definition governed_action_name (a : GovernedAction) : string :=
  match a with
  | Store => "Store" | Delete => "Delete" | Promote => "Promote" | Reflect => "Reflect"
  end.

Definition shadow (base : GovernanceDecision) : Decision :=
  match base with
  | GovAllow => Allow
  | GovDeny refusal => Deny (refusal_reason refusal)
  | GovPending id => Ask id
  end.

Definition apply_capability_grant_gov (base : GovernanceDecision) (cfg : CapabilityConfig)
    (mode_is_enforce : bool) (token : option CapabilityToken) (req : CapRequest) :
    GovernanceDecision * GrantOutcome :=
  let '(_, outcome) := apply_capability_grant (shadow base) cfg mode_is_enforce token req in
  match outcome with
  | Granted _ _ _ => (GovAllow, outcome)
  | _ => (base, outcome)
  end.

(** One row handed to the forensic sink. *)
Record AuditRow : Type := mkAudit {
  audit_actor : string;
  audit_decision : string;
  audit_kind : string;
  audit_subject : string;
  audit_detail : value
}.

Definition AUDIT_KIND_GRANT : string := "capability-grant".
Definition AUDIT_KIND_REJECT : string := "capability-reject".

(** [json!({..})]: fields inserted into a sorted object. *)
Definition json_object (fields : list (string * string)) : value :=
  JObject (fold_left (λ m kv, binsert kv.1 (JString kv.2) m) fields []).

Definition audit_grant_outcome (req : CapRequest) (base_kind : string) (outcome : GrantOutcome) :
    list AuditRow :=
  match outcome with
  | NoOp => []
  | Granted root_id issuer op_level =>
      [mkAudit (req_agent_id req) "allow" AUDIT_KIND_GRANT root_id
         (json_object [("issuer", issuer); ("op_level", OpLevel_as_str op_level);
            ("namespace", req_namespace req); ("action", req_action req);
            ("flipped_from", base_kind)])]
  | Rejected rej =>
      [mkAudit (req_agent_id req) base_kind AUDIT_KIND_REJECT (CapReject_code rej)
         (json_object [("namespace", req_namespace req); ("action", req_action req);
            ("reason", CapReject_display rej)])]
  end.

(** The gate's hook, with the active configuration and the clock as
    arguments and the audit rows it emits as its second result. *)
Definition apply_at_gate (cfg : CapabilityConfig) (now : Z) (base : GovernanceDecision)
    (action : GovernedAction) (namespace agent_id : string) (token : option CapabilityToken) :
    GovernanceDecision * list AuditRow :=
  if negb (is_some token) || is_allow (shadow base) then (base, [])
  else if negb (enabled cfg) then (base, [])
  else
    let base_kind := match base with GovPending _ => "pending" | _ => "deny" end in
    let req := mkRequest (governed_action_name action) namespace agent_id now in
    let '(decision, outcome) := apply_capability_grant_gov base cfg true token req in
    (decision, audit_grant_outcome req base_kind outcome).

(** The edge parser of a presented token, with the rows it emits. *)
Definition parse_presented_token (cfg : CapabilityConfig) (raw : option string) (actor : string) :
    option CapabilityToken * list AuditRow :=
  match str_trim <$> raw with
  | None => (None, [])
  | Some raw =>
      if str_is_empty raw then (None, [])
      else if negb (enabled cfg) then (None, [])
      else
        match from_wire raw with
        | Ok tok => (Some tok, [])
        | Err rej =>
            (None, [mkAudit actor "warn" AUDIT_KIND_REJECT (CapReject_code rej)
                      (json_object [("stage", "edge-parse")])])
        end
  end.
End with_crypto.

(* ------------------------------------------------------------------ *)
(** * Specification *)

(** A caveat as a predicate on the request. *)
Definition caveat_holds (req : CapRequest) (c : Caveat) : Prop :=
  match c with
  | NamespacePrefix p => namespace_under (req_namespace req) p = true
  | OpCeiling l => (wire_ord (op_level_of (req_action req)) ≤ wire_ord l)%Z
  | ActionIs a => req_action req = a
  | AgentIs a => req_agent_id req = a
  | ExpiresAt t => (req_now req ≤ t)%Z
  | NotBefore t => (t ≤ req_now req)%Z
  end.

Definition all_caveats (t : CapabilityToken) : list Caveat := tok_root_caveats t ++ tok_ext_caveats t.

Section spec.
Context `{C : CapCrypto}.

(** The token was issued: known issuer, its signature on the root block, and
    the chain from its secret over the appended caveats ending in the tag. *)
Definition authentic (cfg : CapabilityConfig) (t : CapabilityToken) (ic : IssuerConfig) : Prop :=
  tok_v t = CAPABILITY_VERSION
  ∧ bget (tok_issuer t) (issuers cfg) = Some ic
  ∧ ∃ root, RootBlock_canonical_cbor (root_block t) = Some root
     ∧ length (tok_root_sig t) = 64
     ∧ verify_strict (pubkey ic) root (tok_root_sig t) = true
     ∧ fold_chain (hmac_sha256 (root_secret ic) root) (tok_ext_caveats t) = Some (tok_tag t).

(** The issuer's own bounds. *)
Definition within_issuer (ic : IssuerConfig) (req : CapRequest) : Prop :=
  (wire_ord (op_level_of (req_action req)) ≤ wire_ord (max_op ic))%Z
  ∧ ∀ p, namespace_prefix ic = Some p → namespace_under (req_namespace req) p = true.

(** Tokens made by minting under an issuer's key and secret and by any number
    of attenuations. *)
Inductive issued (sk : SigningKey) (secret : bytes) (issuer : string) : CapabilityToken → Prop :=
| issued_mint root_id caveats t :
    mint_with_secret sk secret issuer root_id caveats = Some t → issued sk secret issuer t
| issued_attenuate t c t' :
    issued sk secret issuer t → attenuate t c = Some t' → issued sk secret issuer t'.

(* ------------------------------------------------------------------ *)
(** * Lemmas *)

Lemma op_min_ord a b : wire_ord (op_min a b) = Z.min (wire_ord a) (wire_ord b).
Proof. by destruct a, b. Qed.

Lemma op_gtb_false a b : op_gtb a b = false ↔ (wire_ord a ≤ wire_ord b)%Z.
Proof. unfold op_gtb. rewrite bool_decide_eq_false. lia. Qed.

Lemma longer_prefix_cases o p : longer_prefix o p = Some p ∨ longer_prefix o p = o.
Proof. unfold longer_prefix. destruct o; [case_decide|]; auto. Qed.

Ltac caveat_side :=
  intros; simplify_eq; try done; try lia; try (split; intros; try done; lia); auto.

(** The accumulators: the lowest ceiling, and a prefix the request is under. *)
Lemma enforce_caveats_spec req cs ceil pre :
  (∀ p, pre = Some p → namespace_under (req_namespace req) p = true) →
  match enforce_caveats req cs ceil pre with
  | Ok (ceil', pre') =>
      Forall (caveat_holds req) cs
      ∧ (wire_ord ceil' ≤ wire_ord ceil)%Z
      ∧ (∀ l, OpCeiling l ∈ cs → wire_ord ceil' ≤ wire_ord l)%Z
      ∧ (wire_ord (op_level_of (req_action req)) ≤ wire_ord ceil →
         wire_ord (op_level_of (req_action req)) ≤ wire_ord ceil')%Z
      ∧ (∀ p, pre' = Some p → namespace_under (req_namespace req) p = true)
  | Err _ => ¬ Forall (caveat_holds req) cs
  end.
Proof.
  revert ceil pre. induction cs as [|c cs IH]; intros ceil pre Hpre; cbn [enforce_caveats].
  { split_and!; [constructor|lia|by intros l ?%elem_of_nil|done|done]. }
  assert (∀ b ceil2 pre2 (e : CapReject),
    (caveat_holds req c ↔ b = true) →
    (wire_ord ceil2 ≤ wire_ord ceil)%Z →
    (∀ l, c = OpCeiling l → wire_ord ceil2 ≤ wire_ord l)%Z →
    (caveat_holds req c → wire_ord (op_level_of (req_action req)) ≤ wire_ord ceil →
     wire_ord (op_level_of (req_action req)) ≤ wire_ord ceil2)%Z →
    (caveat_holds req c → ∀ p, pre2 = Some p → namespace_under (req_namespace req) p = true) →
    match (if b then enforce_caveats req cs ceil2 pre2 else Err e) with
    | Ok (ceil', pre') =>
        Forall (caveat_holds req) (c :: cs)
        ∧ (wire_ord ceil' ≤ wire_ord ceil)%Z
        ∧ (∀ l, OpCeiling l ∈ c :: cs → wire_ord ceil' ≤ wire_ord l)%Z
        ∧ (wire_ord (op_level_of (req_action req)) ≤ wire_ord ceil →
           wire_ord (op_level_of (req_action req)) ≤ wire_ord ceil')%Z
        ∧ (∀ p, pre' = Some p → namespace_under (req_namespace req) p = true)
    | Err _ => ¬ Forall (caveat_holds req) (c :: cs)
    end) as Hstep.
  { intros b ceil2 pre2 e Hb Hle Hl Hreq Hp.
    destruct b; [|intros [H _]%Forall_cons; by apply Hb in H].
    assert (caveat_holds req c) as Hc by by apply Hb.
    specialize (IH ceil2 pre2 (Hp Hc)). destruct (enforce_caveats _ _ _ _) as [[ceil' pre']|].
    - destruct IH as (H1 & H2 & H3 & H4 & H5). rewrite Forall_cons.
      split_and!; [done|done|lia| |auto|done].
      intros l [Heq|?]%elem_of_cons; [|by apply H3]. specialize (Hl l (eq_sym Heq)). lia.
    - intros [_ H]%Forall_cons. done. }
  destruct c; cbn [caveat_holds] in *.
  - apply Hstep; [done|lia|done|auto|]. intros Hc q Hq.
    destruct (longer_prefix_cases pre p) as [E|E]; rewrite E in Hq; simplify_eq; auto.
  - pose proof (op_gtb_false (op_level_of (req_action req)) l) as Hl.
    destruct (op_gtb _ l).
    + intros [Hc%Hl _]%Forall_cons. done.
    + destruct Hl as [Hl _]. specialize (Hl eq_refl).
      apply (Hstep true (op_min ceil l) pre Malformed); rewrite ?op_min_ord; caveat_side.
  - case_decide; [apply (Hstep true ceil pre Malformed); caveat_side|by intros [? _]%Forall_cons].
  - case_decide; [apply (Hstep true ceil pre Malformed); caveat_side|by intros [? _]%Forall_cons].
  - case_decide; [intros [? _]%Forall_cons; simpl in *; lia|apply (Hstep true ceil pre Malformed); caveat_side].
  - case_decide; [intros [? _]%Forall_cons; simpl in *; lia|apply (Hstep true ceil pre Malformed); caveat_side].
Qed.

(** What a grant reports: enough for the request, no more than the issuer and
    every ceiling allow, a prefix the request is under. *)
Definition grant_sound (ic : IssuerConfig) (t : CapabilityToken) (req : CapRequest)
    (g : VerifiedGrant) : Prop :=
  grant_root_id g = tok_root_id t ∧ grant_issuer g = tok_issuer t
  ∧ (wire_ord (op_level_of (req_action req)) ≤ wire_ord (grant_op_level g) ≤ wire_ord (max_op ic))%Z
  ∧ (∀ l, OpCeiling l ∈ all_caveats t → wire_ord (grant_op_level g) ≤ wire_ord l)%Z
  ∧ (grant_namespace_prefix g = "" ∨
     namespace_under (req_namespace req) (grant_namespace_prefix g) = true).

Lemma issuer_step ic req pre e1 :
  (∀ p, pre = Some p → namespace_under (req_namespace req) p = true) →
  match match namespace_prefix ic with
    | Some issuer_ns =>
        if namespace_under (req_namespace req) issuer_ns
        then Ok (longer_prefix pre issuer_ns) else Err (CaveatUnmet e1)
    | None => Ok pre
    end with
  | Ok pre' =>
      (∀ p, namespace_prefix ic = Some p → namespace_under (req_namespace req) p = true)
      ∧ (default "" pre' = "" ∨ namespace_under (req_namespace req) (default "" pre') = true)
  | Err _ =>
      ¬ (∀ p, namespace_prefix ic = Some p → namespace_under (req_namespace req) p = true)
  end.
Proof.
  intros Hpre.
  assert (∀ o, (∀ p, o = Some p → namespace_under (req_namespace req) p = true) →
    default "" o = "" ∨ namespace_under (req_namespace req) (default "" o) = true) as Hdef
    by (intros [p|] H; simpl; [right; by apply H|by left]).
  destruct (namespace_prefix ic) as [ns|]; [|by split; [|apply Hdef]].
  destruct (namespace_under (req_namespace req) ns) eqn:E.
  - split; [by intros p [= <-]|]. apply Hdef. intros q Hq.
    destruct (longer_prefix_cases pre ns) as [Ec|Ec]; rewrite Ec in Hq; simplify_eq; auto.
  - intros H. specialize (H ns eq_refl). congruence.
Qed.

Lemma verify_cases t cfg req :
  match verify t cfg req with
  | Ok g => ∃ ic, authentic cfg t ic ∧ Forall (caveat_holds req) (all_caveats t)
              ∧ within_issuer ic req ∧ grant_sound ic t req g
  | Err _ => ∀ ic, authentic cfg t ic → Forall (caveat_holds req) (all_caveats t) →
              ¬ within_issuer ic req
  end.
Proof.
  unfold verify. case_decide as Hv; [by intros ic [? _]|].

  unfold resolve_capability_issuer_pubkey.
  destruct (bget (tok_issuer t) (issuers cfg)) as [ic0|] eqn:Hic; simpl;
    [|by intros ic (_ & ? & _); congruence].
  destruct (RootBlock_canonical_cbor (root_block t)) as [root|] eqn:Hroot; simpl;
    [|by intros ic (_ & _ & root & ? & _); congruence].
  assert (∀ ic, authentic cfg t ic → ic = ic0 ∧ length (tok_root_sig t) = 64
     ∧ verify_strict (pubkey ic0) root (tok_root_sig t) = true
     ∧ fold_chain (hmac_sha256 (root_secret ic0) root) (tok_ext_caveats t) = Some (tok_tag t)) as Hauth.
  { intros ic (_ & Hic' & root' & Hroot' & ?). assert (ic = ic0) as -> by congruence.
    by assert (root' = root) as -> by congruence. }
  case_decide as Hl; [intros ic (_ & ? & _)%Hauth; done|].
  destruct (verify_strict (pubkey ic0) root (tok_root_sig t)) eqn:Hsig; simpl;
    [|by intros ic (_ & _ & ? & _)%Hauth].
  destruct (fold_chain _ _) as [tag|] eqn:Hfold; simpl; [|by intros ic (_ & _ & _ & ?)%Hauth].
  case_decide as Htag; [intros ic (_ & _ & _ & ?)%Hauth; congruence|]. subst tag.
  pose proof (enforce_caveats_spec req (all_caveats t) OpAdmin None) as Henf.
  specialize (Henf ltac:(done)). unfold all_caveats in *.
  destruct (enforce_caveats _ _ _ _) as [[ceil pre]|]; simpl; [|by intros].
  destruct Henf as (Hall & _ & Hceil & Hreq & Hpre).
  assert (wire_ord (op_level_of (req_action req)) ≤ wire_ord OpAdmin)%Z as Hadmin
    by (by destruct (op_level_of _)).
  specialize (Hreq Hadmin).
  destruct (op_gtb _ (max_op ic0)) eqn:Hmax; simpl.
  { intros ic (-> & _)%Hauth _ [Hle _]. apply op_gtb_false in Hle. congruence. }
  apply op_gtb_false in Hmax. pose proof (issuer_step ic0 req pre "issuer_namespace" Hpre) as Hns.
  destruct (match namespace_prefix ic0 with Some _ => _ | None => _ end) as [pre'|]; simpl;
    [|intros ic (-> & _)%Hauth _ [_ ?]; done].
  destruct Hns as [Hns Hdef].
  destruct (op_gtb _ (op_min ceil (max_op ic0))) eqn:Hmin; simpl.
  { assert (op_gtb (op_level_of (req_action req)) (op_min ceil (max_op ic0)) = false); [|congruence].
    apply op_gtb_false. rewrite op_min_ord. lia. }
  exists ic0. split_and!; [|done|done|].
  - split_and!; [done|done|]. by exists root.
  - apply op_gtb_false in Hmin. split_and!; simpl; rewrite ?op_min_ord in *; try done; try lia.
    intros l Hl'. specialize (Hceil l Hl'). lia.
Qed.

(** Minted and attenuated tokens carry a valid signature and chain. *)
Lemma issued_valid `{CL : !CapCryptoLaws C} sk secret issuer t :
  issued sk secret issuer t →
  tok_v t = CAPABILITY_VERSION ∧ tok_issuer t = issuer
  ∧ ∃ root, RootBlock_canonical_cbor (root_block t) = Some root
     ∧ length (tok_root_sig t) = 64
     ∧ verify_strict (public_key sk) root (tok_root_sig t) = true
     ∧ fold_chain (hmac_sha256 secret root) (tok_ext_caveats t) = Some (tok_tag t).
Proof.
  induction 1 as [root_id caveats t Hmint|t c t' _ IH Hatt].
  - unfold mint_with_secret in Hmint. apply bind_Some in Hmint as (root & Hroot & [= <-]).
    split_and!; [done..|]. exists root. split_and!; simpl; [done|apply sign_length|apply sign_verifies|done].
  - unfold attenuate in Hatt. apply bind_Some in Hatt as (cav & Hcav & [= <-]).
    destruct IH as (Hv & Hi & root & Hroot & Hlen & Hsig & Hfold). split_and!; [done..|].
    exists root. split_and!; simpl; [done..|]. clear -Hfold Hcav.
    revert Hfold. generalize (hmac_sha256 secret root) as tag.
    induction (tok_ext_caveats t) as [|c' ext IH]; intros tag; simpl.
    + intros [= ->]. by rewrite Hcav.
    + destruct (Caveat_canonical_cbor c'); simpl; [apply IH|done].
Qed.

Lemma issued_authentic `{CL : !CapCryptoLaws C} sk secret issuer t cfg ic :
  issued sk secret issuer t →
  bget issuer (issuers cfg) = Some ic → pubkey ic = public_key sk → root_secret ic = secret →
  authentic cfg t ic.
Proof.
  intros (Hv & <- & root & ?)%issued_valid Hic Hk Hs. split_and!; [done..|].
  exists root. by rewrite Hk, Hs.
Qed.

Lemma attenuate_caveats t c t' : attenuate t c = Some t' → all_caveats t' = all_caveats t ++ [c].
Proof.
  unfold attenuate, all_caveats. intros (cav & _ & [= <-])%bind_Some. simpl. by rewrite app_assoc.
Qed.

(** Acceptance and grants, as the theorems below use them. *)
Lemma verify_accepts t cfg req :
  (∃ g, verify t cfg req = Ok g) ↔
  ∃ ic, authentic cfg t ic ∧ Forall (caveat_holds req) (all_caveats t) ∧ within_issuer ic req.
Proof.
  pose proof (verify_cases t cfg req) as H. destruct (verify t cfg req) as [g|e].
  - destruct H as (ic & Ha & Hall & Hw & Hg). split; [intros _; by exists ic|intros _; by exists g].
  - split; [by intros [? ?]|]. intros (ic & Ha & Hall & Hw). by destruct (H ic).
Qed.

Lemma verify_grants t cfg req g :
  verify t cfg req = Ok g →
  ∃ ic, bget (tok_issuer t) (issuers cfg) = Some ic ∧ grant_sound ic t req g.
Proof.
  intros Hg. pose proof (verify_cases t cfg req) as H. rewrite Hg in H.
  destruct H as (ic & (_ & Hic & _) & _ & _ & ?). by exists ic.
Qed.

(** The decision at the gate, without its audit rows. *)
Lemma apply_at_gate_decision cfg now base action ns agent token :
  (apply_at_gate cfg now base action ns agent token).1 = GovAllow ↔
  base = GovAllow ∨ ∃ tok g, token = Some tok ∧ enabled cfg = true
    ∧ verify tok cfg (mkRequest (governed_action_name action) ns agent now) = Ok g.
Proof.
  unfold apply_at_gate. destruct token as [tok|]; simpl; [|naive_solver].
  destruct (is_allow (shadow base)) eqn:Hb; [assert (base = GovAllow) as -> by (by destruct base); naive_solver|].
  assert (base ≠ GovAllow) as Hne by by intros ->.
  destruct (enabled cfg) eqn:He; simpl; [|naive_solver].
  unfold apply_capability_grant_gov, apply_capability_grant. rewrite Hb, He. simpl.
  assert (flippable (shadow base) = true) as -> by by destruct base. simpl.
  destruct (verify tok cfg _) as [g|e] eqn:Hv; simpl.
  - split; [|done]. intros _. right. by exists tok, g.
  - split; [done|]. intros [?|(tok' & g & [= <-] & _ & ?)]; congruence.
Qed.

Lemma apply_at_gate_base cfg now base action ns agent token :
  (apply_at_gate cfg now base action ns agent token).1 ≠ GovAllow →
  (apply_at_gate cfg now base action ns agent token).1 = base.
Proof.
  unfold apply_at_gate. case_match; [done|]. case_match; [done|].
  unfold apply_capability_grant_gov. destruct (apply_capability_grant _ _ _ _ _) as [? []]; simpl; done.
Qed.

(* ------------------------------------------------------------------ *)
(** * Theorems *)

(** C30: verification accepts a token for a request exactly when the token is
    authentic under a configured issuer, every caveat it carries holds and
    the request is within the issuer's bounds; the grant it reports covers
    the request and exceeds neither the issuer nor any ceiling. *)
Theorem verify_exact t cfg req :
  ((∃ g, verify t cfg req = Ok g) ↔
   ∃ ic, authentic cfg t ic ∧ Forall (caveat_holds req) (all_caveats t) ∧ within_issuer ic req)
  ∧ ∀ g, verify t cfg req = Ok g →
      ∃ ic, bget (tok_issuer t) (issuers cfg) = Some ic ∧ grant_sound ic t req g.
Proof. split; [apply verify_accepts|apply verify_grants]. Qed.

(** Attenuation only narrows: of a token made by minting and attenuating
    under a configured issuer, the attenuated token is accepted exactly for
    the requests the original is accepted for that satisfy the new caveat,
    and never at a higher level. *)
Lemma attenuation_only_narrows `{CL : !CapCryptoLaws C} sk secret issuer t c t' cfg ic req :
  issued sk secret issuer t → attenuate t c = Some t' →
  bget issuer (issuers cfg) = Some ic → pubkey ic = public_key sk → root_secret ic = secret →
  ((∃ g, verify t' cfg req = Ok g) ↔ (∃ g, verify t cfg req = Ok g) ∧ caveat_holds req c)
  ∧ ∀ g g', verify t cfg req = Ok g → verify t' cfg req = Ok g' →
      ∀ l, c = OpCeiling l → (wire_ord (grant_op_level g') ≤ wire_ord l)%Z.
Proof.
  intros Hi Hatt Hic Hk Hs.
  assert (issued sk secret issuer t') as Hi' by by eapply issued_attenuate.
  pose proof (issued_authentic _ _ _ _ cfg ic Hi Hic Hk Hs) as Ha.
  pose proof (issued_authentic _ _ _ _ cfg ic Hi' Hic Hk Hs) as Ha'.
  assert (∀ ic0, authentic cfg t ic0 → ic0 = ic) as Huniq.
  { intros ic0 (_ & H1 & _). destruct Ha as (_ & H2 & _). congruence. }
  assert (∀ ic0, authentic cfg t' ic0 → ic0 = ic) as Huniq'.
  { intros ic0 (_ & H1 & _). destruct Ha' as (_ & H2 & _). congruence. }
  split.
  - rewrite !verify_accepts.
    rewrite (attenuate_caveats _ _ _ Hatt).
    assert (Forall (caveat_holds req) (all_caveats t ++ [c]) ↔
      Forall (caveat_holds req) (all_caveats t) ∧ caveat_holds req c) as Hsnoc
      by by rewrite Forall_app, Forall_singleton.
    setoid_rewrite Hsnoc. split.
    + intros (ic0 & Ha0 & [Hall Hc] & Hw). rewrite (Huniq' ic0 Ha0) in Hw.
      split; [|done]. by exists ic.
    + intros [(ic0 & Ha0 & Hall & Hw) Hc]. rewrite (Huniq ic0 Ha0) in Hw. by exists ic.
  - intros g g' _ Hg' l ->. apply verify_grants in Hg' as (ic0 & _ & _ & _ & _ & Hl & _).
    apply Hl. rewrite (attenuate_caveats _ _ _ Hatt), elem_of_app. right. by left.
Qed.

(** Two different inputs of the authentication code with one output. *)
Definition collision : Prop :=
  ∃ k1 m1 k2 m2, (k1, m1) ≠ (k2, m2) ∧ hmac_sha256 k1 m1 = hmac_sha256 k2 m2.

Lemma hmac_eq k1 m1 k2 m2 :
  hmac_sha256 k1 m1 = hmac_sha256 k2 m2 → (k1 = k2 ∧ m1 = m2) ∨ collision.
Proof.
  intros H. destruct (decide (k1 = k2)) as [->|Hk]; [destruct (decide (m1 = m2)) as [->|Hm]|].
  - by left.
  - right. exists k2, m1, k2, m2. split; [congruence|done].
  - right. exists k1, m1, k2, m2. split; [congruence|done].
Qed.

Lemma fold_chain_snoc tag ext c :
  fold_chain tag (ext ++ [c]) =
  (tag' ← fold_chain tag ext; cav ← Caveat_canonical_cbor c; Some (hmac_sha256 tag' cav)).
Proof.
  revert tag. induction ext as [|c' ext IH]; intros tag; simpl; [done|].
  destruct (Caveat_canonical_cbor c'); simpl; [apply IH|done].
Qed.

#[local] Instance Caveat_to_value_inj : Inj (=) (=) Caveat_to_value.
Proof. intros c1 c2. destruct c1 as [|[]| | | |], c2 as [|[]| | | |]; intros; simplify_eq/=; done. Qed.

Lemma RootBlock_to_value_eq r :
  RootBlock_to_value r =
  CMap [(CText KEY_DOMAIN, CText DOMAIN_ROOT); (CText KEY_ISSUER, CText (root_issuer r));
        (CText KEY_ROOT_CAVEATS, CArray (Caveat_to_value <$> root_root_caveats r));
        (CText KEY_ROOT_ID, CText (root_root_id r)); (CText KEY_V, CInteger (root_v r))].
Proof. reflexivity. Qed.

#[local] Instance RootBlock_to_value_inj : Inj (=) (=) RootBlock_to_value.
Proof.
  intros [v1 i1 r1 c1] [v2 i2 r2 c2]. rewrite !RootBlock_to_value_eq. simpl.
  intros [= -> Hc -> ->]. by apply (inj (fmap Caveat_to_value)) in Hc as ->.
Qed.

Lemma chain_binds `{CL : !CapCryptoLaws C} secret b1 b2 r1 r2 e1 e2 tag :
  RootBlock_canonical_cbor r1 = Some b1 → RootBlock_canonical_cbor r2 = Some b2 →
  fold_chain (hmac_sha256 secret b1) e1 = Some tag →
  fold_chain (hmac_sha256 secret b2) e2 = Some tag →
  (r1 = r2 ∧ e1 = e2) ∨ collision.
Proof.
  intros H1 H2. assert (∀ r b c, RootBlock_canonical_cbor r = Some b → Caveat_canonical_cbor c ≠ Some b)
    as Hdiff.
  { intros r b c Hr Hc. pose proof (cbor_encode_inj _ _ _ Hr Hc) as H.
    rewrite RootBlock_to_value_eq in H. unfold Caveat_to_value in H. by destruct c. }
  revert e2 tag. induction e1 as [|c1 e1 IH] using rev_ind; intros e2 tag;
    destruct e2 as [|c2 e2 _] using rev_ind; rewrite ?fold_chain_snoc; simpl.
  - intros [= <-] [= Htag]. apply hmac_eq in Htag as [[_ ->]|]; [|by right].
    left. split; [|done]. apply (inj RootBlock_to_value). by eapply cbor_encode_inj.
  - intros [= <-] (tag' & _ & (cav & Hcav & [= Htag])%bind_Some)%bind_Some.
    apply hmac_eq in Htag as [[_ ->]|]; [|by right]. by apply (Hdiff _ _ _ H1) in Hcav.
  - intros (tag' & _ & (cav & Hcav & [= Htag])%bind_Some)%bind_Some [= <-].
    apply hmac_eq in Htag as [[_ ->]|]; [|by right]. by apply (Hdiff _ _ _ H2) in Hcav.
  - intros (t1 & Ht1 & (v1 & Hv1 & [= <-])%bind_Some)%bind_Some
      (t2 & Ht2 & (v2 & Hv2 & [= Htag])%bind_Some)%bind_Some.
    apply hmac_eq in Htag as [[-> ->]|]; [|by right].
    destruct (IH e2 t1 Ht1 Ht2) as [[-> ->]|]; [|by right]. left. split; [done|].
    f_equal. f_equal. apply (inj Caveat_to_value). by eapply cbor_encode_inj.
Qed.

(** A tag binds the whole token: two authentic tokens of one issuer with
    the same tag have the same root block and the same appended caveats in
    the same order, unless a collision of the authentication code is at hand.
    So no caveat can be dropped, edited, moved or reordered under a tag. *)
Lemma tag_binds_caveats `{CL : !CapCryptoLaws C} cfg t1 t2 ic :
  authentic cfg t1 ic → authentic cfg t2 ic → tok_tag t1 = tok_tag t2 →
  (root_block t1 = root_block t2 ∧ all_caveats t1 = all_caveats t2) ∨ collision.
Proof.
  intros (_ & _ & b1 & Hb1 & _ & _ & Hf1) (_ & _ & b2 & Hb2 & _ & _ & Hf2) Htag.
  rewrite Htag in Hf1.
  destruct (chain_binds _ _ _ _ _ _ _ _ Hb1 Hb2 Hf1 Hf2) as [[Hr He]|]; [left|by right].
  split; [done|]. unfold all_caveats. rewrite He. f_equal.
  unfold root_block in Hr. congruence.
Qed.

(** The joiner at the gate adds no denial and asks nothing of a caller
    without a token: the decision is the base decision or an allow; it
    changes only when the layer is on and the presented token verifies for
    exactly this action, namespace, caller and time, and then one grant row
    is recorded; a token that fails leaves the decision as it was and is
    recorded with its reason. *)
Lemma grant_adds_no_denial cfg now base action ns agent token :
  let req := mkRequest (governed_action_name action) ns agent now in
  let '(d, rows) := apply_at_gate cfg now base action ns agent token in
  (d = base ∨ d = GovAllow)
  ∧ (token = None ∨ enabled cfg = false ∨ base = GovAllow → d = base ∧ rows = [])
  ∧ (d ≠ base → ∃ tok g, token = Some tok ∧ enabled cfg = true ∧ verify tok cfg req = Ok g
       ∧ audit_kind <$> rows = [AUDIT_KIND_GRANT] ∧ audit_subject <$> rows = [tok_root_id tok])
  ∧ (∀ tok e, token = Some tok → enabled cfg = true → base ≠ GovAllow → verify tok cfg req = Err e →
       d = base ∧ audit_kind <$> rows = [AUDIT_KIND_REJECT]
       ∧ audit_subject <$> rows = [CapReject_code e]).
Proof.
  intros req. unfold apply_at_gate.
  destruct token as [tok|]; simpl; [|split_and!; [by left|by intros|by intros []|by intros]].
  destruct (is_allow (shadow base)) eqn:Hb; [assert (base = GovAllow) as -> by by destruct base|].
  { split_and!; [by left|by intros|by intros []|by intros]. }
  assert (base ≠ GovAllow) as Hne by by intros ->.
  destruct (enabled cfg) eqn:He; simpl; [|split_and!; [by left|by intros|by intros []|by intros]].
  unfold apply_capability_grant_gov, apply_capability_grant. rewrite Hb, He. simpl.
  assert (flippable (shadow base) = true) as -> by by destruct base. simpl. fold req.
  destruct (verify tok cfg req) as [g|e] eqn:Hv; simpl.
  - split_and!; [by right|intros [|[]]; congruence| |intros ? ? [= <-] _ _ ?; congruence]. intros _. exists tok, g.
    split_and!; try done. by apply verify_grants in Hv as (ic & _ & -> & _).
  - split_and!; [by left|intros [|[]]; congruence|by intros []|]. intros ? e' [= <-] _ _ Hv2.
    by assert (e' = e) as -> by congruence.
Qed.

Lemma strip_prefix_app p s : str_strip_prefix p (p +:+ s) = Some s.
Proof.
  induction p as [|c p IH]; [done|].
  change ((if bool_decide (c = c) then str_strip_prefix p (p +:+ s) else None) = Some s).
  by rewrite bool_decide_true.
Qed.

(** A token written to the wire is read back, unless its encoding is
    longer than the reader accepts, and then it is refused as malformed. *)
Lemma wire_roundtrip `{CL : !CapCryptoLaws C} t s :
  to_wire t = Some s →
  from_wire s =
    if decide (String.length s ≤ String.length TOKEN_PREFIX + MAX_TOKEN_B64_LEN) then Ok t
    else Err Malformed.
Proof.
  unfold to_wire. intros (buf & Hbuf & [= <-])%bind_Some. unfold from_wire.
  rewrite strip_prefix_app. cbn [ok_or result_bind]. rewrite string_length_app.
  do 2 case_decide; try lia; [done|]. rewrite b64_roundtrip. simpl. by rewrite (token_roundtrip _ _ Hbuf).
Qed.
End spec.

(* ------------------------------------------------------------------ *)
(** * Witnesses *)

#[global] Instance cbor_eq_dec : EqDecision cbor.
Proof.
  refine (fix go (v w : cbor) : base.Decision (v = w) :=
    match v, w with
    | CInteger a, CInteger b => cast_if (decide (a = b))
    | CBytes a, CBytes b => cast_if (decide (a = b))
    | CText a, CText b => cast_if (decide (a = b))
    | CNull, CNull => left _
    | CArray a, CArray b => cast_if (@list_eq_dec _ go a b)
    | CMap a, CMap b => cast_if (@list_eq_dec _ (@prod_eq_dec _ go _ go) a b)
    | _, _ => right _
    end); clear go; abstract congruence.
Defined.

#[global] Instance CapabilityToken_eq_dec : EqDecision CapabilityToken.
Proof. solve_decision. Defined.

Definition demo_root : RootBlock := mkRoot CAPABILITY_VERSION "owner" "r1" [ExpiresAt 100].
Definition demo_caveat : Caveat := OpCeiling OpRead.

(** The values the demonstration encodes: each as its index, in unary. *)
Definition demo_values : list cbor := [RootBlock_to_value demo_root; Caveat_to_value demo_caveat].

Definition demo_sign (k m : bytes) : bytes := take 64 (k ++ m ++ replicate 64 Byte.x00).

Definition table_encode (values : list cbor) (v : cbor) : option bytes :=
  (λ '(i, _), replicate i Byte.x01) <$> list_find (v =.) values.

Lemma table_encode_inj values v w b :
  table_encode values v = Some b → table_encode values w = Some b → v = w.
Proof.
  intros ([i x] & Hv & ->)%fmap_Some ([j y] & Hw & Hb)%fmap_Some.
  apply (f_equal length) in Hb. rewrite !length_replicate in Hb. subst j.
  apply list_find_Some in Hv as (Hv & -> & _), Hw as (Hw & -> & _). congruence.
Qed.

Lemma demo_sign_length k m : length (demo_sign k m) = 64.
Proof. unfold demo_sign. rewrite length_take, !length_app, length_replicate. lia. Qed.

Definition demo_secret : bytes := [Byte.x07].
Definition demo_token : CapabilityToken :=
  mkToken CAPABILITY_VERSION "owner" "r1" [ExpiresAt 100] (demo_sign [Byte.x05] []) [] [Byte.x07].

#[local] Instance demo_crypto : CapCrypto := {
  VerifyingKey := bytes;
  SigningKey := bytes;
  public_key k := k;
  sign := demo_sign;
  verify_strict k m s := bool_decide (s = demo_sign k m);
  hmac_sha256 k m := k ++ m;
  cbor_encode := table_encode demo_values;
  token_to_cbor t := if decide (t = demo_token) then Some [] else None;
  token_from_cbor b := if decide (b = []) then Some demo_token else None;
  b64_encode := String.string_of_list_byte;
  b64_decode s := Some (String.list_byte_of_string s)
}.

#[local] Instance demo_crypto_laws : CapCryptoLaws demo_crypto.
Proof.
  split; simpl.
  - intros k m. by rewrite bool_decide_true.
  - apply demo_sign_length.
  - apply table_encode_inj.
  - intros t b. case_decide as Ht; [|done]. intros [= <-]. rewrite Ht. by rewrite decide_True.
  - intros b. by rewrite String.list_byte_of_string_of_list_byte.
Qed.

Definition demo_key : @SigningKey demo_crypto := [Byte.x05].
Definition demo_issuer : @IssuerConfig demo_crypto :=
  mkIssuer (public_key demo_key) demo_secret OpAdmin None.
Definition demo_cfg : @CapabilityConfig demo_crypto := mkCapConfig true [("owner", demo_issuer)].
Definition demo_request (action : string) : CapRequest := mkRequest action "team" "ai:bob" 50.

Lemma demo_minted : mint_with_secret demo_key demo_secret "owner" "r1" [ExpiresAt 100] = Some demo_token.
Proof. reflexivity. Qed.

Lemma attenuation_only_narrows_witness :
  ∃ t', attenuate demo_token demo_caveat = Some t'
    ∧ (∃ g, verify t' demo_cfg (demo_request "Reflect") = Ok g)
    ∧ ¬ (∃ g, verify t' demo_cfg (demo_request "Store") = Ok g).
Proof.
  eexists. split; [reflexivity|]. split.
  - apply (attenuation_only_narrows demo_key demo_secret "owner" demo_token demo_caveat _ demo_cfg
      demo_issuer (demo_request "Reflect")
      (issued_mint _ _ _ _ _ _ demo_minted) eq_refl eq_refl eq_refl eq_refl).
    split; [eexists; reflexivity|]. simpl. lia.
  - intros H. apply (attenuation_only_narrows demo_key demo_secret "owner" demo_token demo_caveat _ demo_cfg
      demo_issuer (demo_request "Store")
      (issued_mint _ _ _ _ _ _ demo_minted) eq_refl eq_refl eq_refl eq_refl) in H.
    destruct H as [_ H]. simpl in H. lia.
Defined.

Lemma tag_binds_caveats_witness :
  (root_block demo_token = root_block demo_token ∧ all_caveats demo_token = all_caveats demo_token)
  ∨ collision.
Proof.
  assert (authentic demo_cfg demo_token demo_issuer) as Ha.
  { split_and!; [reflexivity..|]. exists []. split_and!; reflexivity. }
  apply (tag_binds_caveats demo_cfg demo_token demo_token _ Ha Ha eq_refl).
Defined.

Lemma wire_roundtrip_witness : from_wire "cap1:" = Ok demo_token.
Proof.
  rewrite (wire_roundtrip demo_token "cap1:"); [reflexivity|]. vm_compute. reflexivity.
Defined.

(** A verified token turns a pending decision into a grant at the gate. *)
Example demo_gate :
  fst (apply_at_gate demo_cfg 50 (GovPending "") Store "team" "ai:bob" (Some demo_token)) = GovAllow
  ∧ fst (apply_at_gate demo_cfg 200 (GovPending "") Store "team" "ai:bob" (Some demo_token))
    = GovPending "".
Proof. split; reflexivity. Qed.
