(* ===== verification/Attestation.v ===== *)
(** The signed surfaces of the program: every record an Ed25519 signature
    commits to, its canonical encoding, signing and verification
    ([src/src/identity/sign.rs], [src/src/identity/verify.rs]), and the
    interface the attested rows of the coordination tables satisfy. *)
From S2P Require Import Prelude.
From S2P Require Import Bytes.
From S2P Require Import Text.
From S2P Require Import Capability.

(* ------------------------------------------------------------------ *)
(** * Signed records *)

Definition SIGNATURE_LEN : nat := 64.
Definition PUBLIC_KEY_LEN : nat := 32.
Definition DOMAIN_SEP_KEY : string := "_dst".
Definition DOMAIN_LINK : string := "ai-memory/link/v1".
Definition DOMAIN_WRITE : string := "ai-memory/write/v1".
Definition DOMAIN_PERSONA : string := "ai-memory/persona/v1".
Definition CUSTODY_CLASS_SOFTWARE_FILE : string := "software-file".
(** [b"agent-lineage-succession-v1\0"] *)
Definition LINEAGE_DOMAIN : bytes := str_bytes "agent-lineage-succession-v1" ++ [Byte.x00].

Record SignableLink : Type := mkSignable {
  sl_src_id : string;
  sl_dst_id : string;
  sl_relation : string;
  sl_observed_by : option string;
  sl_valid_from : option string;
  sl_valid_until : option string
}.

Record SignablePersona : Type := mkSignablePersona {
  sp_persona_id : string;
  sp_entity_id : string;
  sp_namespace : string;
  sp_version : Z;
  sp_generated_at : string;
  sp_sources : list string;
  sp_body_md_sha256 : bytes
}.

Record SignableWrite : Type := mkSignableWrite {
  sw_agent_id : string;
  sw_namespace : string;
  sw_title : string;
  sw_kind : string;
  sw_created_at : string;
  sw_content_sha256 : bytes
}.

Record SignableSignal : Type := mkSignableSignal {
  ss_id : string;
  ss_namespace : string;
  ss_from_agent : string;
  ss_to_agent : option string;
  ss_subject : string;
  ss_body_sha256 : bytes;
  ss_signal_type : string;
  ss_in_reply_to : option string;
  ss_correlation_id : option string;
  ss_created_at : Z
}.

Record SignableTransition : Type := mkSignableTransition {
  st_action_id : string;
  st_namespace : string;
  st_from_state : string;
  st_to_state : string;
  st_claimed_by : option string;
  st_nonce : bytes;
  st_created_at : Z
}.

Record SignableCheckpointResolution : Type := mkSignableResolution {
  sr_checkpoint_id : string;
  sr_namespace : string;
  sr_state : string;
  sr_resolved_by : string;
  sr_resolution : option string;
  sr_resolved_at : Z
}.

Record SignableEpochManifest : Type := mkSignableEpoch {
  se_epoch_seq : Z;
  se_prior_epoch_id : string;
  se_policy_seq : Z;
  se_policy_digest_hex : string;
  se_content_sha256 : bytes;
  se_created_at : string
}.

Record SignableRoutineFreeze : Type := mkSignableFreeze {
  sf_routine_id : string;
  sf_namespace : string;
  sf_name : string;
  sf_template_sha256 : bytes;
  sf_parameters_sha256 : bytes;
  sf_frozen_at : Z
}.

Record SignableSuccession : Type := mkSuccession {
  su_agent_id : string;
  su_epoch : Z;
  su_reason : string;
  su_predecessor_pubkey : string;
  su_successor_pubkey : string;
  su_recovery_pubkey : option string;
  su_not_before : string;
  su_prev_record_hash : bytes;
  su_custody_class : string;
  su_suspected_compromise_from_seq : option Z;
  su_guardian_set_id : option bytes;
  su_recovery_threshold : option Z
}.

(* ------------------------------------------------------------------ *)
(** * Their fields *)

Definition text_or_null (opt : option string) : cbor :=
  match opt with Some s => CText s | None => CNull end.

#[global] Arguments text_or_null : simpl never.

Definition domain_separation_pair (tag : string) : string * cbor := (DOMAIN_SEP_KEY, CText tag).

(** Pairs pushed only when the value is there. *)
Definition present {A} (key : string) (f : A → cbor) (o : option A) : list (string * cbor) :=
  match o with Some a => [(key, f a)] | None => [] end.

Definition link_fields (link : SignableLink) : list (string * cbor) :=
  [ domain_separation_pair DOMAIN_LINK;
    ("src_id", CText (sl_src_id link));
    ("dst_id", CText (sl_dst_id link));
    ("relation", CText (sl_relation link));
    ("observed_by", text_or_null (sl_observed_by link));
    ("valid_from", text_or_null (sl_valid_from link));
    ("valid_until", text_or_null (sl_valid_until link)) ].

Definition persona_fields (p : SignablePersona) : list (string * cbor) :=
  [ domain_separation_pair DOMAIN_PERSONA;
    ("persona_id", CText (sp_persona_id p));
    ("entity_id", CText (sp_entity_id p));
    ("namespace", CText (sp_namespace p));
    ("version", CInteger (sp_version p));
    ("generated_at", CText (sp_generated_at p));
    ("sources", CArray (CText <$> sp_sources p));
    ("body_md_sha256", CBytes (sp_body_md_sha256 p)) ].

Definition write_fields (w : SignableWrite) : list (string * cbor) :=
  [ domain_separation_pair DOMAIN_WRITE;
    ("agent_id", CText (sw_agent_id w));
    ("namespace", CText (sw_namespace w));
    ("title", CText (sw_title w));
    ("kind", CText (sw_kind w));
    ("created_at", CText (sw_created_at w));
    ("content_sha256", CBytes (sw_content_sha256 w)) ].

Definition signal_fields (s : SignableSignal) : list (string * cbor) :=
  [ ("id", CText (ss_id s));
    ("namespace", CText (ss_namespace s));
    ("from_agent", CText (ss_from_agent s));
    ("to_agent", text_or_null (ss_to_agent s));
    ("subject", CText (ss_subject s));
    ("body_sha256", CBytes (ss_body_sha256 s));
    ("signal_type", CText (ss_signal_type s));
    ("in_reply_to", text_or_null (ss_in_reply_to s));
    ("correlation_id", text_or_null (ss_correlation_id s));
    ("created_at", CInteger (ss_created_at s)) ].

Definition transition_fields (t : SignableTransition) : list (string * cbor) :=
  [ ("action_id", CText (st_action_id t));
    ("namespace", CText (st_namespace t));
    ("from_state", CText (st_from_state t));
    ("to_state", CText (st_to_state t));
    ("claimed_by", text_or_null (st_claimed_by t));
    ("nonce", CBytes (st_nonce t));
    ("created_at", CInteger (st_created_at t)) ].

Definition resolution_fields (r : SignableCheckpointResolution) : list (string * cbor) :=
  [ ("checkpoint_id", CText (sr_checkpoint_id r));
    ("namespace", CText (sr_namespace r));
    ("state", CText (sr_state r));
    ("resolved_by", CText (sr_resolved_by r));
    ("resolution", text_or_null (sr_resolution r));
    ("resolved_at", CInteger (sr_resolved_at r)) ].

Definition epoch_fields (m : SignableEpochManifest) : list (string * cbor) :=
  [ ("epoch_seq", CInteger (se_epoch_seq m));
    ("prior_epoch_id", CText (se_prior_epoch_id m));
    ("policy_seq", CInteger (se_policy_seq m));
    ("policy_digest_hex", CText (se_policy_digest_hex m));
    ("content_sha256", CBytes (se_content_sha256 m));
    ("created_at", CText (se_created_at m)) ].

Definition freeze_fields (r : SignableRoutineFreeze) : list (string * cbor) :=
  [ ("routine_id", CText (sf_routine_id r));
    ("namespace", CText (sf_namespace r));
    ("name", CText (sf_name r));
    ("template_sha256", CBytes (sf_template_sha256 r));
    ("parameters_sha256", CBytes (sf_parameters_sha256 r));
    ("frozen_at", CInteger (sf_frozen_at r)) ].

(** The later fields are present only when they are not the default. *)
Definition succession_fields (s : SignableSuccession) : list (string * cbor) :=
  [ ("agent_id", CText (su_agent_id s));
    ("epoch", CInteger (su_epoch s));
    ("reason", CText (su_reason s));
    ("predecessor_pubkey", CText (su_predecessor_pubkey s));
    ("successor_pubkey", CText (su_successor_pubkey s));
    ("recovery_pubkey", text_or_null (su_recovery_pubkey s));
    ("not_before", CText (su_not_before s));
    ("prev_record_hash", CBytes (su_prev_record_hash s)) ]
  ++ (if decide (su_custody_class s = CUSTODY_CLASS_SOFTWARE_FILE) then []
      else [("custody_class", CText (su_custody_class s))])
  ++ present "suspected_compromise_from_seq" CInteger (su_suspected_compromise_from_seq s)
  ++ present "guardian_set_id" CBytes (su_guardian_set_id s)
  ++ present "recovery_threshold" CInteger (su_recovery_threshold s).

(* ------------------------------------------------------------------ *)
(** * Canonical order *)

(** The order of byte strings. *)
Fixpoint bytes_leb (a b : bytes) : bool :=
  match a, b with
  | [], _ => true
  | _ :: _, [] => false
  | x :: a, y :: b => if decide (x = y) then bytes_leb a b else (Byte.to_N x <? Byte.to_N y)%N
  end.

Definition by_encoded_key (a b : bytes * (cbor * cbor)) : Prop := bytes_leb a.1 b.1 = true.
#[global] Instance by_encoded_key_dec : RelDecision by_encoded_key.
Proof. intros a b. unfold by_encoded_key. apply _. Defined.

(** [VerifyError]; the lookup of the key is the caller's. *)
Inductive VerifyError : Type := Tampered | NoPublicKey | MalformedSignature.

(** Why signing fails. *)
Inductive SignError : Type := NoPrivateKey (agent_id : string) | CborEncode.

(** [AttestLevel] and [AttestError] of [identity/verify.rs]. *)
Inductive WriteAttestLevel : Type := Claimed | AgentAttested.
Inductive AttestError : Type := Forged | AttestationRequired | BadBoundKey | AttestMalformedSignature.

Definition WriteAttestLevel_rank (a : WriteAttestLevel) : Z :=
  match a with Claimed => 0 | AgentAttested => 1 end.

(** The wire form of keys: their 32 bytes, and the padded base64 the import
    accepts beside the unpadded one. *)
Class KeyBytes (CC : CapCrypto) : Type := {
  key_to_bytes : VerifyingKey → bytes;
  key_from_bytes : bytes → option VerifyingKey;
  b64_standard_decode : string → option bytes
}.

Class KeyBytesLaws {CC : CapCrypto} (K : KeyBytes CC) : Prop := {
  key_roundtrip : ∀ k, key_from_bytes (key_to_bytes k) = Some k;
  key_to_bytes_length : ∀ k, length (key_to_bytes k) = PUBLIC_KEY_LEN
}.

(** The head byte of an encoded map says that it is one (major type 5). *)
Class CborMapHead (CC : CapCrypto) : Prop :=
  cbor_map_head : ∀ m b, cbor_encode (CMap m) = Some b → ∃ h t, b = h :: t ∧ (160 ≤ Byte.to_N h)%N.

(* ------------------------------------------------------------------ *)
(** * Encoding, signing, verifying *)

Section with_crypto.
Context {CC : CapCrypto}.

Record AgentKeypair : Type := mkKeypair {
  kp_agent_id : string;
  kp_public : VerifyingKey;
  kp_private : option SigningKey
}.

Definition can_sign (kp : AgentKeypair) : bool := is_some (kp_private kp).

(** The two halves of a loaded pair belong together. *)
Definition keypair_wf (kp : AgentKeypair) : Prop :=
  ∀ k, kp_private kp = Some k → kp_public kp = public_key k.

(** Encoding a text key is infallible. *)
Definition canonical_cbor_map (pairs : list (string * cbor)) : cbor :=
  let keyed := (λ kv : string * cbor, (default [] (cbor_encode (CText kv.1)), (CText kv.1, kv.2))) <$> pairs in
  CMap (snd <$> stable_sort by_encoded_key keyed).

Definition canonical_cbor (link : SignableLink) : option bytes :=
  cbor_encode (canonical_cbor_map (link_fields link)).
Definition canonical_cbor_persona (p : SignablePersona) : option bytes :=
  cbor_encode (canonical_cbor_map (persona_fields p)).
Definition canonical_cbor_write (w : SignableWrite) : option bytes :=
  cbor_encode (canonical_cbor_map (write_fields w)).
Definition canonical_cbor_signal (s : SignableSignal) : option bytes :=
  cbor_encode (canonical_cbor_map (signal_fields s)).
Definition canonical_cbor_transition (t : SignableTransition) : option bytes :=
  cbor_encode (canonical_cbor_map (transition_fields t)).
Definition canonical_cbor_checkpoint_resolution (r : SignableCheckpointResolution) : option bytes :=
  cbor_encode (canonical_cbor_map (resolution_fields r)).
Definition canonical_cbor_epoch (m : SignableEpochManifest) : option bytes :=
  cbor_encode (canonical_cbor_map (epoch_fields m)).
Definition canonical_cbor_routine_freeze (r : SignableRoutineFreeze) : option bytes :=
  cbor_encode (canonical_cbor_map (freeze_fields r)).
Definition canonical_cbor_succession (s : SignableSuccession) : option bytes :=
  cbor_encode (canonical_cbor_map (succession_fields s)).

Definition lineage_signing_input (canonical_body : bytes) : bytes := LINEAGE_DOMAIN ++ canonical_body.

(** The shape every [sign_*] function has. *)
Definition sign_payload (kp : AgentKeypair) (payload : option bytes) : result bytes SignError :=
  let? signing := ok_or (kp_private kp) (NoPrivateKey (kp_agent_id kp)) in
  let? bytes := ok_or payload CborEncode in
  Ok (sign signing bytes).

Definition sign_persona kp p := sign_payload kp (canonical_cbor_persona p).
Definition sign_write kp w := sign_payload kp (canonical_cbor_write w).
Definition sign_signal kp s := sign_payload kp (canonical_cbor_signal s).
Definition sign_transition kp t := sign_payload kp (canonical_cbor_transition t).
Definition sign_checkpoint_resolution kp r := sign_payload kp (canonical_cbor_checkpoint_resolution r).
Definition sign_epoch kp m := sign_payload kp (canonical_cbor_epoch m).
Definition sign_routine_freeze kp r := sign_payload kp (canonical_cbor_routine_freeze r).
Definition sign_succession kp s := sign_payload kp (lineage_signing_input <$> canonical_cbor_succession s).

(** [verify] and [verify_write] of [identity/verify.rs]: a decoded key, and
    an error for each way to fail. *)
Definition verify_payload (public : VerifyingKey) (payload : option bytes) (signature : bytes) :
    result unit VerifyError :=
  if negb (length signature =? SIGNATURE_LEN) then Err MalformedSignature
  else
    let? payload := ok_or payload Tampered in
    if verify_strict public payload signature then Ok tt else Err Tampered.

Definition verify_link (public : VerifyingKey) (link : SignableLink) (signature : bytes) :=
  verify_payload public (canonical_cbor link) signature.
Definition verify_write (public : VerifyingKey) (write : SignableWrite) (signature : bytes) :=
  verify_payload public (canonical_cbor_write write) signature.

Context {KB : KeyBytes CC}.

Definition public_base64 (kp : AgentKeypair) : string := b64_encode (key_to_bytes (kp_public kp)).

Definition decode_public_base64 (s : string) : option VerifyingKey :=
  let trimmed := str_trim s in
  bytes ← match b64_decode trimmed with Some b => Some b | None => b64_standard_decode trimmed end;
  if negb (length bytes =? PUBLIC_KEY_LEN) then None else key_from_bytes bytes.

(** The shape of the verifiers that take raw key bytes and answer yes or no. *)
Definition verify_raw (payload : option bytes) (signature pubkey : bytes) : bool :=
  if negb (length pubkey =? PUBLIC_KEY_LEN) then false
  else
    match key_from_bytes pubkey with
    | None => false
    | Some public =>
        if negb (length signature =? SIGNATURE_LEN) then false
        else
          match payload with
          | None => false
          | Some payload => verify_strict public payload signature
          end
    end.

Definition verify_signal s signature pubkey := verify_raw (canonical_cbor_signal s) signature pubkey.
Definition verify_transition t signature pubkey := verify_raw (canonical_cbor_transition t) signature pubkey.
Definition verify_checkpoint_resolution r signature pubkey :=
  verify_raw (canonical_cbor_checkpoint_resolution r) signature pubkey.
Definition verify_routine_freeze r signature pubkey :=
  verify_raw (canonical_cbor_routine_freeze r) signature pubkey.

(** The gate of the store path. *)
Definition attest_write (write : SignableWrite) (bound_pubkey_b64 : option string) (signature : option bytes)
    (require : bool) : result WriteAttestLevel AttestError :=
  match signature, bound_pubkey_b64 with
  | Some sig, Some pk_b64 =>
      let? public := ok_or (decode_public_base64 pk_b64) BadBoundKey in
      match verify_write public write sig with
      | Ok _ => Ok AgentAttested
      | Err MalformedSignature => Err AttestMalformedSignature
      | Err _ => Err Forged
      end
  | _, _ => if require then Err AttestationRequired else Ok Claimed
  end.
End with_crypto.

(* ------------------------------------------------------------------ *)
(** * Attested rows *)

(** What the signals, the checkpoints and the routines have in common: a view
    the signature commits to, and the two columns it is kept in, which are
    not part of the view. *)
Class Attested {CC : CapCrypto} (T : Type) : Type := {
  att_payload : T → option bytes;
  att_signature : T → bytes;
  att_pubkey : T → bytes;
  att_put : bytes → bytes → T → T
}.

Class AttestedLaws {CC : CapCrypto} (T : Type) {A : Attested T} : Prop := {
  att_payload_put : ∀ s p t, att_payload (att_put s p t) = att_payload t;
  att_signature_put : ∀ s p t, att_signature (att_put s p t) = s;
  att_pubkey_put : ∀ s p t, att_pubkey (att_put s p t) = p
}.

Section attested.
Context {CC : CapCrypto} {KB : KeyBytes CC} {T : Type} {A : Attested T}.

Definition sign_row (t : T) (kp : AgentKeypair) : result T SignError :=
  let? sig := sign_payload kp (att_payload t) in
  Ok (att_put sig (key_to_bytes (kp_public kp)) t).

Definition verify_row (t : T) : bool :=
  if is_nil (att_signature t) || is_nil (att_pubkey t) then false
  else verify_raw (att_payload t) (att_signature t) (att_pubkey t).

Definition verify_row_with_key (t : T) (pubkey : bytes) : bool :=
  if is_nil (att_signature t) then false
  else verify_raw (att_payload t) (att_signature t) pubkey.

Lemma verify_row_with_own_key t :
  verify_row t = negb (is_nil (att_pubkey t)) && verify_row_with_key t (att_pubkey t).
Proof. unfold verify_row, verify_row_with_key. by destruct (is_nil (att_signature t)), (is_nil (att_pubkey t)). Qed.

(** Exactly what a verifier that takes raw bytes accepts. *)
Lemma verify_raw_true payload sig pk :
  verify_raw payload sig pk = true ↔
  ∃ k p, length pk = PUBLIC_KEY_LEN ∧ key_from_bytes pk = Some k ∧ length sig = SIGNATURE_LEN
    ∧ payload = Some p ∧ verify_strict k p sig = true.
Proof.
  unfold verify_raw. destruct (Nat.eqb_spec (length pk) PUBLIC_KEY_LEN); simpl; [|naive_solver].
  destruct (key_from_bytes pk) as [k|]; [|naive_solver].
  destruct (Nat.eqb_spec (length sig) SIGNATURE_LEN); simpl; [|naive_solver].
  destruct payload as [p|]; naive_solver.
Qed.

Lemma sign_payload_Ok kp payload sig :
  sign_payload kp payload = Ok sig ↔
  ∃ k p, kp_private kp = Some k ∧ payload = Some p ∧ sig = sign k p.
Proof.
  unfold sign_payload. destruct (kp_private kp) as [k|]; simpl; [|naive_solver].
  destruct payload as [p|]; simpl; [|naive_solver]. split; [|naive_solver]. intros [= <-]. eauto.
Qed.

Context {L : CapCryptoLaws CC} {KL : KeyBytesLaws KB}.

Lemma sign_payload_verifies kp payload sig :
  keypair_wf kp → sign_payload kp payload = Ok sig →
  verify_payload (kp_public kp) payload sig = Ok tt
  ∧ verify_raw payload sig (key_to_bytes (kp_public kp)) = true.
Proof.
  intros Hwf (k & p & Hk & -> & ->)%sign_payload_Ok. rewrite (Hwf k Hk). split.
  - unfold verify_payload. rewrite sign_length. simpl. by rewrite sign_verifies.
  - apply verify_raw_true. exists (public_key k), p.
    by rewrite key_to_bytes_length, key_roundtrip, sign_length, sign_verifies.
Qed.

Context {AL : AttestedLaws T}.

Lemma sign_row_Ok t kp t' :
  sign_row t kp = Ok t' ↔
  ∃ k p, kp_private kp = Some k ∧ att_payload t = Some p
    ∧ t' = att_put (sign k p) (key_to_bytes (kp_public kp)) t.
Proof.
  unfold sign_row. destruct (sign_payload kp (att_payload t)) as [sig|e] eqn:E; simpl.
  - apply sign_payload_Ok in E as (k & p & -> & -> & ->). split; [intros [= <-]; eauto|naive_solver].
  - split; [done|]. intros (k & p & Hk & Hp & _). unfold sign_payload in E. by rewrite Hk, Hp in E.
Qed.

Lemma sign_row_verifies t kp t' : keypair_wf kp → sign_row t kp = Ok t' → verify_row t' = true.
Proof.
  intros Hwf (k & p & Hk & Hp & ->)%sign_row_Ok.
  assert (sign_payload kp (att_payload t) = Ok (sign k p)) as E by (apply sign_payload_Ok; eauto).
  apply sign_payload_verifies in E as [_ E]; [|done].
  unfold verify_row. rewrite att_payload_put, att_signature_put, att_pubkey_put, E.
  pose proof (sign_length k p) as Hl. pose proof (key_to_bytes_length (kp_public kp)) as Hl'.
  destruct (sign k p); [done|]. by destruct (key_to_bytes (kp_public kp)).
Qed.

Lemma sign_row_payload t kp t' : sign_row t kp = Ok t' → att_payload t' = att_payload t.
Proof. intros (k & p & _ & _ & ->)%sign_row_Ok. apply att_payload_put. Qed.
End attested.

(* ------------------------------------------------------------------ *)
(** * Canonical maps *)

Lemma bytes_leb_total a b : bytes_leb a b = true ∨ bytes_leb b a = true.
Proof.
  revert b. induction a as [|x a IH]; intros [|y b]; simpl; auto.
  destruct (decide (x = y)) as [->|Hne]; [rewrite decide_True by done; auto|].
  rewrite decide_False by done. rewrite !N.ltb_lt.
  assert (Byte.to_N x ≠ Byte.to_N y); [|lia].
  intros E. apply Hne. apply (f_equal Byte.of_N) in E. rewrite !Byte.of_to_N in E. congruence.
Qed.

Lemma bytes_leb_antisym a b : bytes_leb a b = true → bytes_leb b a = true → a = b.
Proof.
  revert b. induction a as [|x a IH]; intros [|y b]; simpl; try done.
  destruct (decide (x = y)) as [->|Hne]; [rewrite decide_True by done; intros; f_equal; auto|].
  rewrite decide_False by done. rewrite !N.ltb_lt. lia.
Qed.

Lemma bytes_leb_trans a b c : bytes_leb a b = true → bytes_leb b c = true → bytes_leb a c = true.
Proof.
  revert b c. induction a as [|x a IH]; intros [|y b] [|z c]; simpl; try done.
  repeat case_decide; subst; try done; try (by eauto); rewrite ?N.ltb_lt; try lia.
Qed.

#[global] Instance by_encoded_key_total : Total by_encoded_key.
Proof. intros a b. apply bytes_leb_total. Qed.
#[global] Instance by_encoded_key_trans : Transitive by_encoded_key.
Proof. intros a b c. apply bytes_leb_trans. Qed.

(** Two sorted lists with the same entries and no repeated key are the same
    list. *)
Lemma sorted_by_key_unique (l l' : list (bytes * (cbor * cbor))) :
  StronglySorted by_encoded_key l → StronglySorted by_encoded_key l' → NoDup l.*1 → l ≡ₚ l' → l = l'.
Proof.
  revert l'. induction l as [|x l IH]; intros l' Hs Hs' Hnd Hp; [by apply Permutation_nil_l in Hp|].
  destruct l' as [|y l']; [by apply Permutation_nil_r in Hp|].
  apply StronglySorted_inv in Hs as [Hs Hx], Hs' as [Hs' Hy].
  assert (x = y) as ->.
  { rewrite fmap_cons, NoDup_cons in Hnd. destruct Hnd as [Hnd _].
    assert (y ∈ x :: l) as Hyl by (rewrite Hp; left).
    apply elem_of_cons in Hyl as [->|Hyl]; [done|].
    assert (x ∈ y :: l') as Hxl by (rewrite <-Hp; left).
    apply elem_of_cons in Hxl as [->|Hxl]; [done|].
    rewrite Forall_forall in Hx, Hy. destruct Hnd. apply list_elem_of_fmap. exists y. split; [|done].
    apply bytes_leb_antisym; [by apply Hx|by apply Hy]. }
  f_equal. apply IH; [done..| |by apply Permutation_cons_inv in Hp].
  rewrite fmap_cons, NoDup_cons in Hnd. by destruct Hnd.
Qed.

Section canonical.
Context {CC : CapCrypto}.

Definition keyed (kv : string * cbor) : bytes * (cbor * cbor) :=
  (default [] (cbor_encode (CText kv.1)), (CText kv.1, kv.2)).

Lemma canonical_map_entries l l' : canonical_cbor_map l = canonical_cbor_map l' → l ≡ₚ l'.
Proof.
  unfold canonical_cbor_map. intros [= E]. change (λ kv : string * cbor, _) with keyed in E.
  assert (∀ l, snd <$> stable_sort by_encoded_key (keyed <$> l) ≡ₚ (λ kv : string * cbor, (CText kv.1, kv.2)) <$> l) as H.
  { intros k. rewrite (stable_sort_Permutation by_encoded_key), <-list_fmap_compose. done. }
  pose proof (H l) as Hl. rewrite E, H in Hl. clear H E. symmetry in Hl.
  set (back := λ vw : cbor * cbor, (match vw.1 with CText k => k | _ => "" end, vw.2)).
  apply (fmap_Permutation back) in Hl. rewrite <-!list_fmap_compose in Hl.
  assert (∀ l : list (string * cbor), (back ∘ (λ kv : string * cbor, (CText kv.1, kv.2))) <$> l = l) as Hback.
  { intros k. rewrite <-(list_fmap_id k) at 2. apply list_fmap_ext. by intros ? [??] _. }
  by rewrite !Hback in Hl.
Qed.

(** The encoding does not depend on the order the code lists the fields in. *)
Lemma canonical_map_order `{!CapCryptoLaws CC} l l' :
  (∀ k, k ∈ l.*1 → is_Some (cbor_encode (CText k))) → NoDup l.*1 → l ≡ₚ l' →
  canonical_cbor_map l = canonical_cbor_map l'.
Proof.
  intros Henc Hnd Hp. unfold canonical_cbor_map. change (λ kv : string * cbor, _) with keyed. do 2 f_equal.
  apply sorted_by_key_unique; try apply (StronglySorted_stable_sort _).
  - rewrite (stable_sort_Permutation by_encoded_key). clear Hp. rewrite <-list_fmap_compose.
    induction l as [|[k v] l IH]; [constructor|]. apply NoDup_cons in Hnd as [Hk Hnd].
    apply NoDup_cons.
    split; [|apply IH; [|done]; intros; apply Henc; by right].
    intros ([k' v'] & E & Hin)%list_elem_of_fmap. simpl in E. apply Hk.
    apply list_elem_of_fmap. exists (k', v'). split; [|done]. simpl.
    destruct (Henc k ltac:(left)) as [b Hb].
    destruct (Henc k') as [b' Hb']; [right; apply list_elem_of_fmap; by exists (k', v')|].
    rewrite Hb, Hb' in E. simpl in E. subst b'. by pose proof (cbor_encode_inj _ _ _ Hb Hb') as [= ].
  - by rewrite !(stable_sort_Permutation by_encoded_key), Hp.
Qed.
End canonical.

(* ------------------------------------------------------------------ *)
(** * No two signed records share their bytes *)

(** Every kind of record the program signs. *)
Inductive Surface : Type :=
| OfLink (l : SignableLink)
| OfPersona (p : SignablePersona)
| OfWrite (w : SignableWrite)
| OfSignal (s : SignableSignal)
| OfTransition (t : SignableTransition)
| OfResolution (r : SignableCheckpointResolution)
| OfEpoch (m : SignableEpochManifest)
| OfFreeze (r : SignableRoutineFreeze)
| OfSuccession (s : SignableSuccession).

Definition surface_fields (x : Surface) : list (string * cbor) :=
  match x with
  | OfLink l => link_fields l
  | OfPersona p => persona_fields p
  | OfWrite w => write_fields w
  | OfSignal s => signal_fields s
  | OfTransition t => transition_fields t
  | OfResolution r => resolution_fields r
  | OfEpoch m => epoch_fields m
  | OfFreeze r => freeze_fields r
  | OfSuccession s => succession_fields s
  end.

(** What a key signs for a record. *)
Definition surface_bytes {CC : CapCrypto} (x : Surface) : option bytes :=
  match x with
  | OfLink l => canonical_cbor l
  | OfPersona p => canonical_cbor_persona p
  | OfWrite w => canonical_cbor_write w
  | OfSignal s => canonical_cbor_signal s
  | OfTransition t => canonical_cbor_transition t
  | OfResolution r => canonical_cbor_checkpoint_resolution r
  | OfEpoch m => canonical_cbor_epoch m
  | OfFreeze r => canonical_cbor_routine_freeze r
  | OfSuccession s => lineage_signing_input <$> canonical_cbor_succession s
  end.

Fixpoint field (k : string) (l : list (string * cbor)) : option cbor :=
  match l with
  | [] => None
  | (k', v) :: l => if String.eqb k k' then Some v else field k l
  end.

Lemma field_elem k v l : NoDup l.*1 → field k l = Some v ↔ (k, v) ∈ l.
Proof.
  induction l as [|[k' v'] l IH]; [intros _; split; [done|intros H; by apply elem_of_nil in H]|].
  intros [Hk Hnd]%NoDup_cons. cbn [field]. destruct (String.eqb_spec k k') as [->|Hne].
  - rewrite elem_of_cons. split; [intros [= ->]; by left|].
    intros [[= ->]|Hin]; [done|]. destruct Hk. apply list_elem_of_fmap. by exists (k', v).
  - rewrite IH, elem_of_cons by done. naive_solver.
Qed.

Lemma field_perm l l' k : NoDup l.*1 → l ≡ₚ l' → field k l = field k l'.
Proof.
  intros Hnd Hp. assert (NoDup l'.*1) as Hnd' by by rewrite <-Hp.
  destruct (field k l) as [v|] eqn:E.
  - symmetry. apply field_elem; [done|]. rewrite <-Hp. by apply field_elem.
  - destruct (field k l') as [v|] eqn:E'; [|done].
    apply field_elem in E'; [|done]. rewrite <-Hp in E'. apply field_elem in E'; congruence.
Qed.

Lemma surface_fields_nodup x : NoDup (surface_fields x).*1.
Proof.
  destruct x; try (apply (bool_decide_unpack _); vm_compute; exact I).
  cbn [surface_fields]. unfold succession_fields.
  destruct (decide _), (su_suspected_compromise_from_seq s), (su_guardian_set_id s), (su_recovery_threshold s);
    apply (bool_decide_unpack _); vm_compute; exact I.
Qed.

(** The keys that tell the kinds apart. *)
Definition kind_of (l : list (string * cbor)) : option cbor * list bool :=
  (field DOMAIN_SEP_KEY l,
   (λ k, is_some (field k l)) <$>
     ["signal_type"; "action_id"; "checkpoint_id"; "epoch_seq"; "routine_id"; "prev_record_hash"]).


Lemma text_or_null_inj a b : Some (text_or_null a) = Some (text_or_null b) → a = b.
Proof. by destruct a, b; simpl; intros; simplify_eq. Qed.

(** Reads the listed fields of two equal maps, and concludes that the records
    are equal. *)
Ltac use_fields H ks :=
  lazymatch ks with
  | nil => idtac
  | ?k :: ?ks => let E := fresh "E" in pose proof (H k) as E; simpl in E; use_fields H ks
  end.

Ltac same_fields H ks :=
  use_fields H ks;
  repeat match goal with E : Some (text_or_null _) = Some (text_or_null _) |- _ => apply text_or_null_inj in E end;
  simplify_eq; try done.

Lemma field_app k l l' : field k (l ++ l') = match field k l with Some v => Some v | None => field k l' end.
Proof. induction l as [|[k' v'] l IH]; simpl; [done|]. by destruct (String.eqb k k'). Qed.

Lemma field_present {A} k k' (f : A → cbor) o : field k (present k' f o) = if String.eqb k k' then f <$> o else None.
Proof. destruct o; simpl; by destruct (String.eqb k k'). Qed.

Lemma field_custody k a :
  field k (if decide (a = CUSTODY_CLASS_SOFTWARE_FILE) then [] else [("custody_class", CText a)])
  = if String.eqb k "custody_class" then
      if decide (a = CUSTODY_CLASS_SOFTWARE_FILE) then None else Some (CText a)
    else None.
Proof. case_decide; simpl; by destruct (String.eqb k "custody_class"). Qed.

Lemma succession_fields_inj x y : (∀ k, field k (succession_fields x) = field k (succession_fields y)) → x = y.
Proof.
  intros H. destruct x, y. unfold succession_fields in H.
  assert (∀ k, _) as H' by (intros k; specialize (H k); rewrite !field_app, !field_custody, !field_present in H; exact H).
  clear H. same_fields H' ["agent_id"; "epoch"; "reason"; "predecessor_pubkey"; "successor_pubkey"; "recovery_pubkey";
    "not_before"; "prev_record_hash"; "custody_class"; "suspected_compromise_from_seq"; "guardian_set_id";
    "recovery_threshold"].
  assert (su_custody_class0 = su_custody_class1) as -> by (repeat case_decide; congruence).
  clear H' E7.
  assert (∀ (a b : option Z), CInteger <$> a = CInteger <$> b → a = b) as HZ by (intros [] []; simpl; congruence).
  assert (∀ a b : option bytes, CBytes <$> a = CBytes <$> b → a = b) as HB by (intros [] []; simpl; congruence).
  assert (∀ o : option cbor, match o with Some v => Some v | None => None end = o) as He by by intros [].
  rewrite !He in E8, E9. apply HZ in E8 as ->. apply HB in E9 as ->. by apply HZ in E10 as ->.
Qed.

(** The same fields, the same record, of the same kind. *)
Lemma surface_fields_inj x y : (∀ k, field k (surface_fields x) = field k (surface_fields y)) → x = y.
Proof.
  intros H.
  assert (kind_of (surface_fields x) = kind_of (surface_fields y)) as Hk.
  { unfold kind_of. f_equal; [apply H|]. apply list_fmap_ext. intros i k _. by rewrite H. }
  destruct x as [x|x|x|x|x|x|x|x|x], y as [y|y|y|y|y|y|y|y|y];
    try (clear H; exfalso; vm_compute in Hk; discriminate Hk); clear Hk; cbn [surface_fields] in H;
    f_equal; lazymatch type of x with SignableSuccession => by apply succession_fields_inj | _ => destruct x, y end.
  - same_fields H ["src_id"; "dst_id"; "relation"; "observed_by"; "valid_from"; "valid_until"].
  - same_fields H ["persona_id"; "entity_id"; "namespace"; "version"; "generated_at"; "sources"; "body_md_sha256"].
    assert (Inj (=) (=) CText) as Hinj by (intros ??; congruence).
    by apply (inj (fmap CText)) in E4 as ->.
  - same_fields H ["agent_id"; "namespace"; "title"; "kind"; "created_at"; "content_sha256"].
  - same_fields H ["id"; "namespace"; "from_agent"; "to_agent"; "subject"; "body_sha256"; "signal_type";
      "in_reply_to"; "correlation_id"; "created_at"].
  - same_fields H ["action_id"; "namespace"; "from_state"; "to_state"; "claimed_by"; "nonce"; "created_at"].
  - same_fields H ["checkpoint_id"; "namespace"; "state"; "resolved_by"; "resolution"; "resolved_at"].
  - same_fields H ["epoch_seq"; "prior_epoch_id"; "policy_seq"; "policy_digest_hex"; "content_sha256"; "created_at"].
  - same_fields H ["routine_id"; "namespace"; "name"; "template_sha256"; "parameters_sha256"; "frozen_at"].
Qed.

Section surfaces.
Context {CC : CapCrypto} {L : CapCryptoLaws CC}.

Lemma encoded_fields x y b :
  cbor_encode (canonical_cbor_map (surface_fields x)) = Some b →
  cbor_encode (canonical_cbor_map (surface_fields y)) = Some b → x = y.
Proof.
  intros Hx Hy. apply surface_fields_inj. intros k.
  apply field_perm; [apply surface_fields_nodup|]. apply canonical_map_entries.
  by eapply cbor_encode_inj.
Qed.

(** C20: no two signed records share their bytes. Over all nine surfaces the
    program signs, tagged or not, the bytes a key commits to determine the
    kind of the record and every one of its fields: a signature minted for a
    link, a signal, a transition, a checkpoint resolution, a freeze, an epoch
    or a succession is never a signature of anything else. *)
Theorem signatures_do_not_transfer `{!CborMapHead CC} x y b :
  surface_bytes x = Some b → surface_bytes y = Some b → x = y.
Proof.
  assert (∀ z, surface_bytes z = match z with
    | OfSuccession _ => lineage_signing_input <$> cbor_encode (canonical_cbor_map (surface_fields z))
    | _ => cbor_encode (canonical_cbor_map (surface_fields z)) end) as Hb by by intros [].
  assert (∀ l l' c, cbor_encode (canonical_cbor_map l) = Some c →
    lineage_signing_input <$> cbor_encode (canonical_cbor_map l') = Some c → False) as Hhead.
  { intros l l' c Hl (d & _ & ->)%fmap_Some. unfold canonical_cbor_map in Hl.
    apply cbor_map_head in Hl as (h & t & [= <- _] & Hh). vm_compute in Hh. by apply Hh. }
  rewrite !Hb. intros Hx Hy.
  destruct x, y; try (by eapply encoded_fields); try (exfalso; by eapply Hhead).
  apply fmap_Some in Hx as (bx & Hx & ->), Hy as (b' & Hy & E). unfold lineage_signing_input in E.
  apply app_inv_head in E as ->. by eapply encoded_fields.
Qed.
End surfaces.

(* ------------------------------------------------------------------ *)
(** * The store-path gate *)

Section gate.
Context {CC : CapCrypto} {KB : KeyBytes CC}.

(** A presented signature is never downgraded to a claim: the gate attests
    exactly what verifies under the bound key, claims only where there is no
    signature or no key and none is required, and refuses the rest. *)
Lemma attest_write_cases write bound signature require :
  (attest_write write bound signature require = Ok AgentAttested ↔
     ∃ pk k sig p, bound = Some pk ∧ signature = Some sig ∧ decode_public_base64 pk = Some k
       ∧ canonical_cbor_write write = Some p ∧ length sig = SIGNATURE_LEN ∧ verify_strict k p sig = true)
  ∧ (attest_write write bound signature require = Ok Claimed ↔
     require = false ∧ (bound = None ∨ signature = None)).
Proof.
  unfold attest_write. destruct signature as [sig|], bound as [pk|];
    try (destruct require; split; split; naive_solver).
  destruct (decode_public_base64 pk) as [k|] eqn:Hk; simpl; [|split; split; naive_solver].
  unfold verify_write, verify_payload. destruct (Nat.eqb_spec (length sig) SIGNATURE_LEN); simpl;
    [|split; split; naive_solver].
  destruct (canonical_cbor_write write) as [p|]; simpl; [|split; split; naive_solver].
  destruct (verify_strict k p sig) eqn:Hv; (split; [|by split; [done|intros [_ [?|?]]]]); split; intros H; try done.
  - by exists pk, k, sig, p.
  - destruct H as (?&?&?&?&[= <-]&[= <-]&Hk'&[= <-]&_&H). congruence.
Qed.
End gate.

(* ------------------------------------------------------------------ *)
(** * Demonstration: a self-delimiting encoding and transparent signatures *)

Fixpoint demo_pos (p : positive) : bytes :=
  match p with xH => [Byte.x00] | xO p => Byte.x01 :: demo_pos p | xI p => Byte.x02 :: demo_pos p end.

Definition demo_int (z : Z) : bytes :=
  match z with Z0 => [Byte.x00] | Zpos p => Byte.x01 :: demo_pos p | Zneg p => Byte.x02 :: demo_pos p end.

Fixpoint demo_bytes (b : bytes) : bytes :=
  match b with [] => [Byte.x00] | x :: b => Byte.x01 :: x :: demo_bytes b end.

Fixpoint demo_encode (v : cbor) : bytes :=
  match v with
  | CInteger z => Byte.x00 :: demo_int z
  | CBytes b => Byte.x40 :: demo_bytes b
  | CText s => Byte.x60 :: demo_bytes (str_bytes s)
  | CArray l => Byte.x80 :: (fix go l := match l with [] => [Byte.x00] | v :: l => Byte.x01 :: demo_encode v ++ go l end) l
  | CMap m =>
      Byte.xa0 :: (fix go m := match m with
                   | [] => [Byte.x00]
                   | (k, v) :: m => Byte.x01 :: demo_encode k ++ demo_encode v ++ go m
                   end) m
  | CNull => [Byte.xf6]
  end.

Lemma demo_pos_inj p q x y : demo_pos p ++ x = demo_pos q ++ y → p = q ∧ x = y.
Proof.
  revert q. induction p as [p IH|p IH|]; intros [q|q|]; simpl; intros [= E]; try done;
    apply IH in E as [-> ->]; done.
Qed.

Lemma demo_int_inj a b x y : demo_int a ++ x = demo_int b ++ y → a = b ∧ x = y.
Proof.
  destruct a, b; simpl; intros [= E]; try done; apply demo_pos_inj in E as [-> ->]; done.
Qed.

Lemma demo_bytes_inj a b x y : demo_bytes a ++ x = demo_bytes b ++ y → a = b ∧ x = y.
Proof.
  revert b. induction a as [|c a IH]; intros [|d b]; simpl; intros E; try discriminate E;
    [by injection E as ->|]. injection E as -> E. by apply IH in E as [-> ->].
Qed.

Fixpoint demo_encode_inj v w x y {struct v} : demo_encode v ++ x = demo_encode w ++ y → v = w ∧ x = y.
Proof.
  destruct v as [a|a|a| |l|m], w as [b|b|b| |l'|m']; simpl; intros [= E]; try done.
  - apply demo_int_inj in E as [-> ->]. done.
  - apply demo_bytes_inj in E as [-> ->]. done.
  - apply demo_bytes_inj in E as [->%str_bytes_inj ->]. done.
  - revert l' E. induction l as [|v l IH]; intros [|w l'] E; simpl in E; try done; simplify_eq/=; [done|].
    rewrite <-!app_assoc in E. apply demo_encode_inj in E as [-> E]. apply IH in E as [? ->]. split; congruence.
  - revert m' E. induction m as [|[k v] m IH]; intros [|[k' w] m'] E; simpl in E; try done; simplify_eq/=; [done|].
    rewrite <-!app_assoc in E. apply demo_encode_inj in E as [-> E]. apply demo_encode_inj in E as [-> E].
    apply IH in E as [? ->]. split; congruence.
Qed.

(** A signature is the key and the last bytes of the message. *)
Definition demo_mac (k : bool) (m : bytes) : bytes :=
  (if k then Byte.x01 else Byte.x02) :: take 63 (rev m ++ replicate 63 Byte.x00).
Lemma demo_mac_length k m : length (demo_mac k m) = 64.
Proof. unfold demo_mac. cbn [length]. rewrite length_take, length_app, length_replicate. lia. Qed.

Definition demo_key_bytes (k : bool) : bytes := replicate 32 (if k then Byte.x01 else Byte.x02).

#[local] Instance demo_attest_crypto : CapCrypto := {
  VerifyingKey := bool;
  SigningKey := bool;
  public_key k := k;
  sign := demo_mac;
  verify_strict k m s := bool_decide (s = demo_mac k m);
  hmac_sha256 k m := k ++ m;
  cbor_encode v := Some (demo_encode v);
  token_to_cbor _ := None;
  token_from_cbor _ := None;
  b64_encode := String.string_of_list_byte;
  b64_decode s := Some (String.list_byte_of_string s)
}.

#[local] Instance demo_key_codec : KeyBytes demo_attest_crypto := {
  key_to_bytes (k : bool) := demo_key_bytes k;
  key_from_bytes b :=
    if decide (b = demo_key_bytes true) then Some true
    else if decide (b = demo_key_bytes false) then Some false else None;
  b64_standard_decode _ := None
}.

Lemma demo_attest_laws : CapCryptoLaws demo_attest_crypto.
Proof.
  split.
  - intros k m. by apply bool_decide_true.
  - intros k m. apply demo_mac_length.
  - intros v w b [= <-] [= E]. apply (demo_encode_inj v w [] []). by rewrite !app_nil_r.
  - done.
  - intros b. simpl. by rewrite String.list_byte_of_string_of_list_byte.
Qed.

Lemma demo_key_laws : KeyBytesLaws demo_key_codec.
Proof. split; [by intros []|done]. Qed.

Lemma demo_map_head : CborMapHead demo_attest_crypto.
Proof. intros m b [= <-]. do 2 eexists. split; [done|]. by vm_compute. Qed.

Definition demo_write : SignableWrite := mkSignableWrite "ai:alice" "team" "t" "fact" "now" [].
Definition demo_transition : SignableTransition := mkSignableTransition "a" "team" "pending" "claimed" None [] 7.

Lemma signatures_do_not_transfer_witness :
  surface_bytes (OfWrite demo_write) ≠ surface_bytes (OfTransition demo_transition).
Proof.
  intros E.
  pose proof (@signatures_do_not_transfer demo_attest_crypto demo_attest_laws demo_map_head
    (OfWrite demo_write) (OfTransition demo_transition) _ E eq_refl) as H.
  discriminate H.
Defined.
