(* ===== verification/Governance.v ===== *)
(** The namespace governance gate: standards and their inheritance chain,
    policy resolution, evaluation of a level, the gate itself with its three
    modes, and the queue of pending actions
    ([set_namespace_standard] to [queue_pending_action] of
    [src/src/storage/mod.rs]). *)
From S2P Require Import Prelude.
From S2P Require Import F64.
From S2P Require Import Text.
From S2P Require Import Json.
From S2P Require Import Memory.
From S2P Require Import Permissions.
From S2P Require Import Policy.
From S2P Require Import Capability.

(* ------------------------------------------------------------------ *)
(** * Store *)

(** A row of [namespace_meta]. *)
Record NsMeta : Type := mkNsMeta {
  nm_standard_id : string;
  nm_updated_at : string;
  nm_parent : option string
}.

(** A row of [pending_actions]; the payload and the votes are JSON text. *)
Record PendingRow : Type := mkPending {
  pr_action_type : string;
  pr_memory_id : option string;
  pr_namespace : string;
  pr_payload : string;
  pr_requested_by : string;
  pr_requested_at : string;
  pr_status : string;
  pr_decided_by : option string;
  pr_decided_at : option string;
  pr_approvals : string;
  pr_timeout_seconds : option Z;
  pr_expired_at : option string
}.

(** The tables the gate reads and writes, keyed as their primary keys are. *)
Record GovDb : Type := mkGovDb {
  memories : gmap string Memory;
  namespace_meta : gmap string NsMeta;
  pending_actions : gmap string PendingRow
}.

Definition with_namespace_meta (db : GovDb) (m : gmap string NsMeta) : GovDb :=
  mkGovDb (memories db) m (pending_actions db).
Definition with_pending (db : GovDb) (p : gmap string PendingRow) : GovDb :=
  mkGovDb (memories db) (namespace_meta db) p.

Inductive StorageError : Type :=
| MemoryNotFound (id : string)
| PendingActionNotFound (id : string)
| PendingActionStateInvalid (id status : string)
| ApproverLaundering (id claimed requester : string)
| InvalidArgument (reason : string).

(* ------------------------------------------------------------------ *)
(** * Namespace standards *)

Definition get_namespace_standard (db : GovDb) (ns : string) : option string :=
  nm_standard_id <$> namespace_meta db !! ns.

Definition get_namespace_parent (db : GovDb) (ns : string) : option string :=
  m ← namespace_meta db !! ns; nm_parent m.

Definition dash : ascii := Ascii.ascii_of_N 45.

(** Cut the candidate at its last dash until one has a standard. *)
Fixpoint auto_detect_loop (fuel : nat) (db : GovDb) (candidate : string) : option string :=
  match fuel with
  | O => None
  | S fuel =>
      match fst <$> str_rsplit_once dash candidate with
      | None => None
      | Some candidate' =>
          if str_is_empty candidate' then None
          else if is_some (get_namespace_standard db candidate') then Some candidate'
          else auto_detect_loop fuel db candidate'
      end
  end.

Definition auto_detect_parent (db : GovDb) (ns : string) : option string :=
  auto_detect_loop (S (String.length ns)) db ns.

Definition set_namespace_standard (now : string) (db : GovDb) (ns standard_id : string)
    (parent : option string) : result GovDb StorageError :=
  let? _mem := ok_or (memories db !! standard_id) (MemoryNotFound standard_id) in
  let? resolved_parent :=
    match parent with
    | Some p =>
        if decide (p = ns) then Err (InvalidArgument "namespace cannot be its own parent")
        else Ok (Some p)
    | None => Ok (auto_detect_parent db ns)
    end in
  Ok (with_namespace_meta db (<[ns := mkNsMeta standard_id now resolved_parent]> (namespace_meta db))).

Definition clear_namespace_standard (db : GovDb) (ns : string) : GovDb * bool :=
  (with_namespace_meta db (base.delete ns (namespace_meta db)), is_some (namespace_meta db !! ns)).

(* ------------------------------------------------------------------ *)
(** * The inheritance chain *)

Definition MAX_EXPLICIT_DEPTH : nat := 8.

(** Follow explicit parents from [current], at most [n] steps, stopping at the
    global standard, at a repetition or inside the path hierarchy. *)
Fixpoint explicit_loop (n : nat) (db : GovDb) (hierarchy explicit_above : list string)
    (current : string) : list string :=
  match n with
  | O => explicit_above
  | S n =>
      match get_namespace_parent db current with
      | Some p =>
          if bool_decide (p ≠ "*") && bool_decide (p ∉ explicit_above)
             && bool_decide (p ∉ hierarchy)
          then explicit_loop n db hierarchy (explicit_above ++ [p]) p
          else explicit_above
      | None => explicit_above
      end
  end.

Definition build_namespace_chain (db : GovDb) (ns : string) : list string :=
  if decide (ns = "*") then ["*"]
  else
    let hierarchy_chain := reverse (namespace_ancestors ns) in
    let chain :=
      "*" ::
      match hierarchy_chain with
      | root :: _ => reverse (explicit_loop MAX_EXPLICIT_DEPTH db hierarchy_chain [] root)
      | [] => []
      end in
    fold_left (λ chain entry, if bool_decide (entry ∈ chain) then chain else chain ++ [entry])
      hierarchy_chain chain.

(* ------------------------------------------------------------------ *)
(** * Policy resolution *)

Section with_serde.
Context `{PS : PolicySerde}.

(** The standard memory of a namespace, if both rows exist. *)
Definition namespace_standard (db : GovDb) (ns : string) : option Memory :=
  id ← get_namespace_standard db ns; memories db !! id.

Definition read_namespace_policy (db : GovDb) (ns : string) : option CorePolicy :=
  mem ← namespace_standard db ns;
  match from_metadata (mem_metadata mem) with
  | Some (Ok p) => Some p
  | Some (Err _) => None
  | None => None
  end.

Definition resolve_governance_policy (db : GovDb) (ns : string) : option CorePolicy :=
  find_map (read_namespace_policy db) (reverse (build_namespace_chain db ns)).

Definition json_as_u64 (v : value) : option Z :=
  match v with JNumber (NPosInt n) => Some n | _ => None end.

(** What one level of the threshold walk does: answer, stop, or go on. *)
Inductive walk : Type := Answer (n : Z) | Stop | GoOn.

Definition threshold_at (key : string) (overflow : Z) (db : GovDb) (ns : string) : walk :=
  match namespace_standard db ns with
  | None => GoOn
  | Some mem =>
      match json_get (mem_metadata mem) META_KEY_GOVERNANCE with
      | None => GoOn
      | Some gov =>
          if json_is_null gov then GoOn
          else
            match json_get gov key ≫= json_as_u64 with
            | Some n => Answer (if decide (n ≤ u32_max)%Z then n else overflow)
            | None => if is_some (from_metadata (mem_metadata mem)) then Stop else GoOn
            end
      end
  end.

Fixpoint threshold_walk (key : string) (overflow : Z) (db : GovDb) (levels : list string) :
    option Z :=
  match levels with
  | [] => None
  | level :: levels' =>
      match threshold_at key overflow db level with
      | Answer n => Some n
      | Stop => None
      | GoOn => threshold_walk key overflow db levels'
      end
  end.

(** A value too large for a depth closes the gate: every depth needs
    approval, no depth can be promoted. *)
Definition resolve_require_approval_above_depth (db : GovDb) (ns : string) : option Z :=
  threshold_walk "require_approval_above_depth" 0 db (reverse (build_namespace_chain db ns)).

Definition resolve_skill_promotion_min_depth (db : GovDb) (ns : string) : option Z :=
  threshold_walk "skill_promotion_min_depth" u32_max db (reverse (build_namespace_chain db ns)).

(* ------------------------------------------------------------------ *)
(** * Levels *)

Definition AGENTS_NAMESPACE : string := "_agents".
Definition agent_registration_title (agent_id : string) : string := "agent:" +:+ agent_id.

Definition is_registered_agent (db : GovDb) (agent_id : string) : bool :=
  existsb
    (λ kv, bool_decide (mem_namespace kv.2 = AGENTS_NAMESPACE)
           && bool_decide (mem_title kv.2 = agent_registration_title agent_id))
    (map_to_list (memories db)).

Definition evaluate_level (db : GovDb) (action : GovernedAction) (ns : string)
    (level : GovernanceLevel) (agent_id : string) (memory_owner namespace_owner : option string) :
    GovernanceDecision :=
  match level with
  | LevelAny => GovAllow
  | LevelRegistered =>
      if is_registered_agent db agent_id then GovAllow
      else
        GovDeny (with_namespace ns
          (refusal_new action LevelRegistered agent_id
             ("caller '" +:+ agent_id +:+ "' is not a registered agent")))
  | LevelOwner =>
      let owner := match memory_owner with Some o => Some o | None => namespace_owner end in
      match owner with
      | Some o =>
          if decide (o = agent_id) then GovAllow
          else
            GovDeny (with_owner o (with_namespace ns
              (refusal_new action LevelOwner agent_id
                 ("caller '" +:+ agent_id +:+ "' is not the owner ('" +:+ o +:+ "')"))))
      | None =>
          GovDeny (with_namespace ns
            (refusal_new action LevelOwner agent_id "owner-level action has no resolvable owner"))
      end
  | LevelApprove => GovPending ""
  end.

Definition namespace_owner (db : GovDb) (ns : string) : option string :=
  find_map
    (λ level,
       mem ← namespace_standard db level;
       v ← json_get (mem_metadata mem) "agent_id";
       json_as_str v)
    (reverse (build_namespace_chain db ns)).

(* ------------------------------------------------------------------ *)
(** * The gate *)

(** [uuid] is the fresh row id, [now] the clock. *)
Definition queue_pending_action `{JsonCodec} (uuid now : string) (db : GovDb)
    (action : GovernedAction) (ns : string) (memory_id : option string) (requested_by : string)
    (payload : value) : GovDb * string :=
  (with_pending db
     (<[uuid := mkPending (GovernedAction_as_str action) memory_id ns (json_to_string payload)
                  requested_by now "pending" None None "[]" None None]> (pending_actions db)),
   uuid).

Definition level_for (policy : CorePolicy) (action : GovernedAction) : GovernanceLevel :=
  match action with
  | Store => write policy
  | Delete => Policy.delete policy
  | Promote => promote policy
  | Reflect => write policy
  end.

(** The base decision, before mode and capability. *)
Definition base_decision (db : GovDb) (policy : CorePolicy) (action : GovernedAction) (ns agent_id : string)
    (memory_owner : option string) (payload : value) : GovernanceDecision :=
  let ns_owner := match action with Store => namespace_owner db ns | _ => None end in
  let decision :=
    evaluate_level db action ns (level_for policy action) agent_id memory_owner ns_owner in
  match action, decision, required_scope policy with
  | Store, GovAllow, Some required =>
      match required_scope_refusal required payload action (write policy) agent_id ns with
      | Some refusal => GovDeny refusal
      | None => decision
      end
  | _, _, _ => decision
  end.

(** [mode], [cfg] and [unix_now] are the process-wide settings and the clock;
    the audit rows are those of the capability layer. *)
Definition enforce_governance `{CapCrypto, JsonCodec} (mode : PermissionsMode)
    (cfg : CapabilityConfig) (unix_now : Z) (uuid now : string) (db : GovDb)
    (action : GovernedAction) (ns agent_id : string) (memory_id memory_owner : option string)
    (payload : value) (capability : option CapabilityToken) :
    GovDb * GovernanceDecision * list AuditRow :=
  if decide (mode = ModeOff) then (db, GovAllow, [])
  else
    match resolve_governance_policy db ns with
    | None => (db, GovAllow, [])
    | Some policy =>
        let decision := base_decision db policy action ns agent_id memory_owner payload in
        if decide (mode = Advisory) then (db, GovAllow, [])
        else
          let '(decision, rows) :=
            apply_at_gate cfg unix_now decision action ns agent_id capability in
          match decision with
          | GovPending _ =>
              let '(db', id) :=
                queue_pending_action uuid now db action ns memory_id agent_id payload in
              (db', GovPending id, rows)
          | _ => (db, decision, rows)
          end
    end.
End with_serde.

(* ------------------------------------------------------------------ *)
(** * Lemmas: the chain *)

Lemma NoDup_reverse {A} (l : list A) : NoDup l → NoDup (reverse l).
Proof. by rewrite reverse_Permutation. Qed.

Lemma elem_of_reverse_1 {A} (x : A) l : x ∈ reverse l → x ∈ l.
Proof. by rewrite elem_of_reverse. Qed.

Definition push_new (chain : list string) (entry : string) : list string :=
  if bool_decide (entry ∈ chain) then chain else chain ++ [entry].

Lemma push_new_fold l chain :
  NoDup l → (∀ x, x ∈ l → x ∈ chain → x = "*") → "*" ∈ chain →
  fold_left push_new l chain = chain ++ List.filter (λ x, bool_decide (x ≠ "*")) l.
Proof.
  revert chain. induction l as [|x l IH]; intros chain Hl Hd Hstar; simpl; [by rewrite app_nil_r|].
  apply NoDup_cons in Hl as [Hx Hl]. unfold push_new at 2.
  destruct (decide (x = "*")) as [->|Hne].
  - rewrite (bool_decide_true ("*" ∈ chain)), (bool_decide_false ("*" ≠ "*")) by naive_solver.
    apply IH; [done| |done]. intros y Hy. apply Hd. by right.
  - rewrite (bool_decide_false (x ∈ chain)), (bool_decide_true (x ≠ "*")); [|done|].
    + rewrite IH; [by rewrite <-app_assoc|done| |set_solver].
      intros y Hy [Hc| ->%list_elem_of_singleton]%elem_of_app; [|done]. apply Hd; [by right|done].
    + intros Hc. apply Hne, Hd; [by left|done].
Qed.

(** What the walk over explicit parents collects. *)
Lemma explicit_loop_spec n db h acc cur :
  NoDup acc → (∀ x, x ∈ acc → x ≠ "*" ∧ x ∉ h) →
  let r := explicit_loop n db h acc cur in
  NoDup r ∧ (∀ x, x ∈ r → x ≠ "*" ∧ x ∉ h) ∧ length r ≤ length acc + n ∧ (∀ x, x ∈ acc → x ∈ r).
Proof.
  revert acc cur. induction n as [|n IH]; intros acc cur Hnd Hacc; simpl.
  { split_and!; [done|done|lia|done]. }
  assert (NoDup acc ∧ (∀ x, x ∈ acc → x ≠ "*" ∧ x ∉ h) ∧ length acc ≤ length acc + S n
          ∧ (∀ x, x ∈ acc → x ∈ acc)) as Hstop by (split_and!; [done|done|lia|done]).
  destruct (get_namespace_parent db cur) as [p|]; [|done].
  destruct (bool_decide (p ≠ "*") && bool_decide (p ∉ acc) && bool_decide (p ∉ h)) eqn:E; [|done].
  rewrite !andb_true_iff, !bool_decide_eq_true in E. destruct E as [[Hps Hpa] Hph].
  destruct (IH (acc ++ [p]) p) as (H1 & H2 & H3 & H4).
  - apply NoDup_app. split_and!; [done| |apply NoDup_singleton].
    by intros x Hx ->%list_elem_of_singleton.
  - intros x [?| ->%list_elem_of_singleton]%elem_of_app; [by apply Hacc|done].
  - rewrite length_app in H3. simpl in H3. split_and!; [done|done|lia|].
    intros x Hx. apply H4, elem_of_app. by left.
Qed.

Lemma explicit_loop_incl n db h acc cur x : x ∈ acc → x ∈ explicit_loop n db h acc cur.
Proof.
  revert acc cur. induction n as [|n IH]; intros acc cur Hx; simpl; [done|].
  destruct (get_namespace_parent db cur) as [p|]; [|done].
  destruct (_ && _); [|done]. apply IH, elem_of_app. by left.
Qed.

(** A namespace the walk does not meet may as well be in the hierarchy. *)
Lemma explicit_loop_extend n db h c acc cur :
  c ∉ explicit_loop n db h acc cur →
  explicit_loop n db (h ++ [c]) acc cur = explicit_loop n db h acc cur.
Proof.
  revert acc cur. induction n as [|n IH]; intros acc cur Hc; simpl in *; [done|].
  destruct (get_namespace_parent db cur) as [p|]; [|done].
  destruct (bool_decide (p ≠ "*") && bool_decide (p ∉ acc)) eqn:E; simpl in *; [|done].
  destruct (bool_decide (p ∉ h)) eqn:Eh; simpl in *.
  - apply bool_decide_eq_true in Eh.
    assert (p ≠ c) as Hpc.
    { intros ->. apply Hc, explicit_loop_incl, elem_of_app. right. by left. }
    rewrite bool_decide_true by set_solver. by apply IH.
  - apply bool_decide_eq_false in Eh. rewrite bool_decide_false by set_solver. done.
Qed.

(** The explicit parents above a non-empty hierarchy. *)
Definition explicit_parents (db : GovDb) (h : list string) : list string :=
  match h with root :: _ => explicit_loop MAX_EXPLICIT_DEPTH db h [] root | [] => [] end.

Lemma explicit_parents_spec db h :
  NoDup (explicit_parents db h)
  ∧ (∀ x, x ∈ explicit_parents db h → x ≠ "*" ∧ x ∉ h)
  ∧ length (explicit_parents db h) ≤ MAX_EXPLICIT_DEPTH.
Proof.
  destruct h as [|root h]; simpl explicit_parents.
  { split_and!; [constructor|by intros x ?%elem_of_nil|simpl; lia]. }
  destruct (explicit_loop_spec MAX_EXPLICIT_DEPTH db (root :: h) [] root) as (H1 & H2 & H3 & _);
    [constructor|by intros x ?%elem_of_nil|].
  split_and!; done.
Qed.

Lemma chain_eq db ns :
  ns ≠ "*" →
  build_namespace_chain db ns =
  ("*" :: reverse (explicit_parents db (reverse (namespace_ancestors ns))))
  ++ List.filter (λ x, bool_decide (x ≠ "*")) (reverse (namespace_ancestors ns)).
Proof.
  intros Hns. unfold build_namespace_chain. rewrite decide_False by done.
  set (h := reverse (namespace_ancestors ns)).
  destruct (explicit_parents_spec db h) as (_ & Hd & _).
  assert (match h with [] => [] | root :: _ => reverse (explicit_loop MAX_EXPLICIT_DEPTH db h [] root) end
          = reverse (explicit_parents db h)) as -> by by destruct h.
  change (λ chain entry, if bool_decide (entry ∈ chain) then chain else chain ++ [entry]) with push_new.
  apply push_new_fold.
  - apply NoDup_reverse, namespace_ancestors_NoDup.
  - intros x Hx [->|Hr]%elem_of_cons; [done|]. apply elem_of_reverse_1 in Hr. by apply Hd in Hr as [_ ?].
  - by left.
Qed.

Lemma find_map_snoc {A B} (f : A → option B) l x :
  find_map f (reverse (l ++ [x])) =
  match f x with Some y => Some y | None => find_map f (reverse l) end.
Proof. by rewrite reverse_app. Qed.

(* ------------------------------------------------------------------ *)
(** * Theorems *)

(** Whatever parent links the table holds, cycles included, the chain of
    a namespace is finite and free of repetitions: it starts with the global
    standard, ends with the namespace itself, contains every ancestor of its
    path and at most eight explicit parents above them. *)
Lemma chain_shape db ns :
  ns ≠ "" →
  let c := build_namespace_chain db ns in
  NoDup c ∧ head c = Some "*" ∧ last c = Some ns
  ∧ (∀ a, a ∈ namespace_ancestors ns → a ∈ c)
  ∧ length c ≤ 1 + MAX_EXPLICIT_DEPTH + length (namespace_ancestors ns).
Proof.
  intros Hne c. subst c. destruct (decide (ns = "*")) as [->|Hns].
  { split_and!; [apply NoDup_singleton|done|done|by intros a|vm_compute; lia]. }
  rewrite chain_eq by done. set (h := reverse (namespace_ancestors ns)).
  assert (str_is_empty ns = false) as He by by destruct ns.
  assert (NoDup h) as Hh by apply NoDup_reverse, namespace_ancestors_NoDup.
  destruct (explicit_parents_spec db h) as (Hnd & Hd & Hlen).
  pose proof (List.filter_length_le (λ x, bool_decide (x ≠ "*")) h) as Hfl.
  split_and!.
  - apply NoDup_app. split_and!.
    + apply NoDup_cons. split; [|by apply NoDup_reverse].
      intros Hin%elem_of_reverse_1. by apply Hd in Hin as [? _].
    + intros x Hx [Hxh Hxs]%elem_of_list_filter_bool. apply bool_decide_eq_true in Hxs.
      apply elem_of_cons in Hx as [->|Hr%elem_of_reverse_1]; [done|]. by apply Hd in Hr as [_ ?].
    + clear -Hh. induction Hh as [|x l Hx _ IH]; simpl; [constructor|].
      case_match; [|done]. apply NoDup_cons. split; [|done].
      by intros [? _]%elem_of_list_filter_bool.
  - done.
  - unfold h. rewrite namespace_ancestors_unfold, He, reverse_cons, List.filter_app. simpl.
    rewrite bool_decide_true by done. by rewrite app_assoc, app_comm_cons, last_snoc.
  - intros a Ha. apply elem_of_app. destruct (decide (a = "*")) as [->|]; [left; by left|right].
    apply elem_of_list_filter_bool. split; [by apply elem_of_reverse|]. by apply bool_decide_eq_true.
  - unfold h, MAX_EXPLICIT_DEPTH in *. rewrite length_app. simpl. rewrite !length_reverse in *. lia.
Qed.

Lemma chain_child db child p :
  namespace_parent child = Some p → p ≠ "" → p ≠ "*" → child ≠ "*" →
  child ∉ build_namespace_chain db p →
  build_namespace_chain db child = build_namespace_chain db p ++ [child].
Proof.
  intros Hp Hne Hps Hcs Hc.
  assert (str_is_empty child = false) as He by (destruct child; [by apply namespace_parent_shorter in Hp; simpl in Hp; lia|done]).
  rewrite chain_eq in Hc by done. rewrite !chain_eq by done.
  rewrite (namespace_ancestors_unfold child), He, Hp, reverse_cons, List.filter_app. simpl.
  rewrite bool_decide_true by done. rewrite app_assoc. f_equal. f_equal. f_equal. f_equal.
  set (h := reverse (namespace_ancestors p)) in *.
  assert (h ≠ []) as Hh.
  { intros Hnil. apply (f_equal length) in Hnil. unfold h in Hnil.
    rewrite length_reverse, namespace_ancestors_unfold in Hnil. by destruct p. }
  destruct h as [|root h']; [done|]. apply (explicit_loop_extend _ _ (root :: h')).
  intros Hin. apply Hc, elem_of_app. left. right. by apply elem_of_reverse.
Qed.

Section inheritance.
Context `{PS : PolicySerde}.

(** A policy is inherited along the path: under a child that no explicit
    link makes its own ancestor, the child's chain is its parent's with the
    child at the end; the child's own policy wins, and without one the child
    resolves to exactly what its parent resolves to. *)
Lemma policy_inheritance db child p :
  namespace_parent child = Some p → p ≠ "" → p ≠ "*" → child ≠ "*" →
  child ∉ build_namespace_chain db p →
  build_namespace_chain db child = build_namespace_chain db p ++ [child]
  ∧ resolve_governance_policy db child =
    match read_namespace_policy db child with
    | Some policy => Some policy
    | None => resolve_governance_policy db p
    end.
Proof.
  intros Hp Hne Hps Hcs Hc. pose proof (chain_child _ _ _ Hp Hne Hps Hcs Hc) as Hchain.
  split; [done|]. unfold resolve_governance_policy. rewrite Hchain. apply find_map_snoc.
Qed.

(* ------------------------------------------------------------------ *)
(** * The gate *)

Definition registered (db : GovDb) (agent : string) : Prop :=
  ∃ id m, memories db !! id = Some m ∧ mem_namespace m = AGENTS_NAMESPACE
    ∧ mem_title m = agent_registration_title agent.

(** What a policy asks of a caller, without the code's order of checks. *)
Definition may (db : GovDb) (policy : CorePolicy) (action : GovernedAction) (ns agent : string)
    (memory_owner : option string) (payload : value) : Prop :=
  match level_for policy action with
  | LevelAny => True
  | LevelRegistered => registered db agent
  | LevelOwner =>
      memory_owner = Some agent
      ∨ memory_owner = None ∧ action = Store ∧ namespace_owner db ns = Some agent
  | LevelApprove => False
  end
  ∧ (action = Store → ∀ required, required_scope policy = Some required →
       effective_scope payload = required).

Lemma is_registered_agent_spec db agent :
  is_registered_agent db agent = true ↔ registered db agent.
Proof.
  unfold is_registered_agent, registered. rewrite existsb_exists. setoid_rewrite andb_true_iff.
  setoid_rewrite bool_decide_eq_true. split.
  - intros ([id m] & Hin & Hm). exists id, m. simpl in Hm. split; [|done].
    apply elem_of_map_to_list, list_elem_of_In, Hin.
  - intros (id & m & Hin & Hm). exists (id, m). split; [|done].
    by apply list_elem_of_In, elem_of_map_to_list.
Qed.

(** A refusal names the caller, the action and the namespace it is about. *)
Definition names (r : GovernanceRefusal) (action : GovernedAction) (ns agent : string) : Prop :=
  refusal_action r = action ∧ refusal_agent_id r = agent ∧ refusal_namespace r = Some ns.

Lemma evaluate_level_spec db action ns level agent mo no :
  match evaluate_level db action ns level agent mo no with
  | GovAllow =>
      match level with
      | LevelAny => True
      | LevelRegistered => registered db agent
      | LevelOwner => mo = Some agent ∨ mo = None ∧ no = Some agent
      | LevelApprove => False
      end
  | GovDeny r =>
      names r action ns agent ∧
      match level with
      | LevelRegistered => ¬ registered db agent
      | LevelOwner => ¬ (mo = Some agent ∨ mo = None ∧ no = Some agent)
      | _ => False
      end
  | GovPending id => level = LevelApprove ∧ id = ""
  end.
Proof.
  destruct level; simpl; [done| | |done].
  - pose proof (is_registered_agent_spec db agent) as E.
    destruct (is_registered_agent db agent); [by apply E|]. split; [done|].
    intros ?%E. done.
  - destruct mo as [o|]; [|destruct no as [o|]]; simpl;
      try case_decide; subst; repeat split; naive_solver.
Qed.

Lemma base_decision_spec db policy action ns agent mo payload :
  match base_decision db policy action ns agent mo payload with
  | GovAllow => may db policy action ns agent mo payload
  | GovDeny r => names r action ns agent ∧ ¬ may db policy action ns agent mo payload
  | GovPending _ =>
      level_for policy action = LevelApprove ∧ ¬ may db policy action ns agent mo payload
  end.
Proof.
  pose proof (evaluate_level_spec db action ns (level_for policy action) agent mo
    match action with Store => namespace_owner db ns | _ => None end) as H.
  unfold base_decision, may.
  destruct (evaluate_level _ _ _ _ _ _ _) as [|r|id].
  - assert (∀ P : Prop, P → match level_for policy action with
      | LevelAny => True | LevelRegistered => registered db agent
      | LevelOwner => mo = Some agent ∨ mo = None ∧ action = Store ∧ namespace_owner db ns = Some agent
      | LevelApprove => False end ∧ P) as Hok.
    { intros P HP. split; [|done]. destruct (level_for policy action); try done.
      destruct action; naive_solver. }
    destruct action; try by apply Hok.
    destruct (required_scope policy) as [required|]; [|by apply Hok].
    unfold required_scope_refusal. case_decide as Hs; [apply Hok; by intros _ ? [= <-]|].
    split; [done|]. intros [_ Hr]. by apply Hs, Hr.
  - assert (names r action ns agent ∧ ¬ may db policy action ns agent mo payload) as Hd.
    { destruct H as [Hn Hl]. split; [done|]. unfold may.
      intros [Hm _]. destruct (level_for policy action); try done.
      destruct action; naive_solver. }
    unfold may in Hd. by destruct action.
  - destruct H as [Hl _]. rewrite Hl. destruct action; (split; [done|by intros [? _]]).
Qed.

(** The gate in the enforcing mode with a policy in force. *)
Definition admitted `{CapCrypto} (cfg : CapabilityConfig) (unix_now : Z) (db : GovDb)
    (policy : CorePolicy) (action : GovernedAction) (ns agent : string) (mo : option string)
    (payload : value) (capability : option CapabilityToken) : Prop :=
  may db policy action ns agent mo payload
  ∨ ∃ tok g, capability = Some tok ∧ enabled cfg = true
      ∧ verify tok cfg (mkRequest (governed_action_name action) ns agent unix_now) = Ok g.

(** C1: under an enforcing mode and a policy in force, the gate allows
    exactly what the policy permits the caller (anyone, a registered agent,
    the owner; for a store also the required scope) or a presented token
    grants; every refusal names the action, caller and namespace and changes
    nothing; a pending outcome happens only at the approval level and adds
    exactly one undecided row, asked for by the caller. Without a policy, or
    in another mode, the gate allows everything and changes nothing. *)
Theorem enforce_governance_sound `{CapCrypto, JsonCodec} mode cfg unix_now uuid now db action ns
    agent memory_id mo payload capability :
  let '(db', d, rows) :=
    enforce_governance mode cfg unix_now uuid now db action ns agent memory_id mo payload capability in
  (mode ≠ Enforce ∨ resolve_governance_policy db ns = None → d = GovAllow ∧ db' = db ∧ rows = [])
  ∧ (∀ policy, mode = Enforce → resolve_governance_policy db ns = Some policy →
       (d = GovAllow ↔ admitted cfg unix_now db policy action ns agent mo payload capability))
  ∧ (∀ r, d = GovDeny r → db' = db ∧ names r action ns agent)
  ∧ (∀ id, d = GovPending id →
       (∃ policy, resolve_governance_policy db ns = Some policy ∧ level_for policy action = LevelApprove)
       ∧ id = uuid ∧ memories db' = memories db ∧ namespace_meta db' = namespace_meta db
       ∧ ∃ row, pending_actions db' = <[uuid := row]> (pending_actions db)
           ∧ pr_status row = "pending" ∧ pr_requested_by row = agent ∧ pr_namespace row = ns
           ∧ pr_action_type row = GovernedAction_as_str action ∧ pr_decided_by row = None
           ∧ pr_approvals row = "[]")
  ∧ (d = GovAllow → db' = db).
Proof.
  unfold enforce_governance.
  case_decide as Hoff; [subst; split_and!; by intros|].
  destruct (resolve_governance_policy db ns) as [policy|] eqn:Hpol; [|split_and!; by intros].
  case_decide as Hadv; [subst; split_and!; by intros|].
  assert (mode = Enforce) as -> by by destruct mode.
  pose proof (base_decision_spec db policy action ns agent mo payload) as Hbase.
  set (base := base_decision _ _ _ _ _ _ _) in *.
  pose proof (apply_at_gate_decision cfg unix_now base action ns agent capability) as Hiff.
  pose proof (apply_at_gate_base cfg unix_now base action ns agent capability) as Hkeep.
  assert ((apply_at_gate cfg unix_now base action ns agent capability).1 = GovAllow ↔
    admitted cfg unix_now db policy action ns agent mo payload capability) as Hadm.
  { rewrite Hiff. unfold admitted. destruct base as [|r|id]; naive_solver. }
  destruct (apply_at_gate _ _ _ _ _ _ _) as [d rows]; simpl in *.
  assert (∀ d', d ≠ GovAllow → d' ≠ GovAllow → d' = GovAllow ↔
    admitted cfg unix_now db policy action ns agent mo payload capability) as Hnot by naive_solver.
  destruct d as [|r|id].
  - split_and!; try by intros. + intros []; congruence. + by intros ? _ [= <-].
  - rewrite <-Hkeep in Hbase by done. split_and!; try by intros.
    + intros []; congruence.
    + intros ? _ [= <-]. by apply Hnot.
    + intros ? [= <-]. by destruct Hbase.
  - rewrite <-Hkeep in Hbase by done. simpl. split_and!; try by intros.
    + intros []; congruence.
    + intros ? _ [= <-]. by apply Hnot.
    + intros ? [= <-]. destruct Hbase as [Hl _]. split_and!; try done; [by exists policy|].
      by eexists.
Qed.
End inheritance.

(* ------------------------------------------------------------------ *)
(** * Witnesses *)

Definition demo_standard : Memory :=
  mkMemory "std" None Mid "a" "standard" "" [] 5 f64_one "api" 0 "" "" None None
    (JObject [("governance", JObject [])]) 0 KindObservation None None [] None None CallerProvided
    None None default_memory_version LifeOpen.

Definition demo_meta (id : string) (p : option string) : NsMeta := mkNsMeta id "" p.

(** Two namespaces that name each other as parents; one has a standard. *)
Definition demo_db : GovDb :=
  mkGovDb {["std" := demo_standard]}
    {["a" := demo_meta "std" (Some "b"); "b" := demo_meta "none" (Some "a")]} ∅.

Lemma chain_shape_witness : last (build_namespace_chain demo_db "a/x") = Some "a/x".
Proof. apply (chain_shape demo_db "a/x"). done. Defined.

(** A parser that knows one policy, the empty object. *)
#[local] Instance demo_serde : PolicySerde :=
  λ v, match v with JObject [] => Some default_for_managed_namespace | _ => None end.

Lemma policy_inheritance_witness :
  build_namespace_chain demo_db "a/x" = ["*"; "b"; "a"; "a/x"]
  ∧ resolve_governance_policy demo_db "a/x" = Some default_for_managed_namespace.
Proof.
  assert ("a/x" ∉ build_namespace_chain demo_db "a") as Hc.
  { apply (bool_decide_unpack _). vm_compute. exact I. }
  destruct (policy_inheritance demo_db "a/x" "a" eq_refl ltac:(done) ltac:(done) ltac:(done) Hc)
    as [H1 H2].
  split; [rewrite H1|rewrite H2]; vm_compute; reflexivity.
Defined.
