(* ===== verification/Approvals.v ===== *)
(** Pending actions after they are queued: the row as callers see it, the
    decision write, the approver-aware approval with its consensus votes, the
    replay of an approved payload up to the storage call it selects, and the
    timeout sweep ([upsert_pending_action] to
    [execute_reflect_from_payload] and [sweep_pending_action_timeouts] of
    [src/src/storage/mod.rs]). *)
From Stdlib Require Import Floats.SpecFloat.
From S2P Require Import Prelude.
From S2P Require Import BTree.
From S2P Require Import F64.
From S2P Require Import Text.
From S2P Require Import Json.
From S2P Require Import Memory.
From S2P Require Import Permissions.
From S2P Require Import Policy.
From S2P Require Import Capability.
From S2P Require Import Governance.

(* ------------------------------------------------------------------ *)
(** * Data *)

Record Approval : Type := mkApproval { vote_agent_id : string; vote_approved_at : string }.

#[global] Instance approval_eq_dec : EqDecision Approval.
Proof. solve_decision. Defined.

Record PendingAction : Type := mkPendingAction {
  pa_id : string;
  pa_action_type : string;
  pa_memory_id : option string;
  pa_namespace : string;
  pa_payload : value;
  pa_requested_by : string;
  pa_requested_at : string;
  pa_status : string;
  pa_decided_by : option string;
  pa_decided_at : option string;
  pa_approvals : list Approval
}.

(** The derived serializer and parser of [Vec<Approval>] on JSON text. *)
Class ApprovalSerde : Type := {
  approvals_to_string : list Approval → string;
  approvals_from_str : string → option (list Approval)
}.

(** A vote log is read back as it was written; a new row's log is empty. *)
Class ApprovalSerdeLaws (S : ApprovalSerde) : Prop := {
  approvals_roundtrip : ∀ l, approvals_from_str (approvals_to_string l) = Some l;
  approvals_empty : approvals_from_str "[]" = Some []
}.

(** The derived parser of a [Memory] from a JSON value, or its message. *)
Class MemorySerde : Type := memory_from_value : value → result Memory string.

(** One row handed to the audit chain: the committed payload fields, then the
    event type and the acting agent. *)
Record PendingEvent : Type := mkEvent {
  ev_pending_id : string;
  ev_action_type : string;
  ev_namespace : string;
  ev_requested_by : string;
  ev_decided_by : string;
  ev_status : string;
  ev_timestamp : string;
  ev_type : string;
  ev_agent_id : string
}.

Record ApprDb : Type := mkAppr { gov : GovDb; signed_events : list PendingEvent }.

Definition rows (db : ApprDb) : gmap string PendingRow := pending_actions (gov db).
Definition with_rows (db : ApprDb) (m : gmap string PendingRow) : ApprDb :=
  mkAppr (with_pending (gov db) m) (signed_events db).

Inductive ApproveOutcome : Type :=
| OutNotFound
| OutRejected (reason : string)
| OutPending (votes : Z) (quorum : Z)
| OutApproved.

Inductive ApproveSurface : Type := Http | LocalOperator.

#[global] Instance approve_surface_eq_dec : EqDecision ApproveSurface.
Proof. solve_decision. Defined.

Definition SELF_APPROVAL_REFUSED : string :=
  "self-approval refused: the requester cannot approve their own Human-gated pending action".
Definition DECISION_WRITE_FAILED : string := "decision write failed".

(* ------------------------------------------------------------------ *)
(** * Rows *)

Section with_codecs.
Context `{JC : JsonCodec, AS : ApprovalSerde}.

(** Unreadable JSON text reads as null, an unreadable vote log as empty. *)
Definition row_to_pending (id : string) (r : PendingRow) : PendingAction :=
  mkPendingAction id (pr_action_type r) (pr_memory_id r) (pr_namespace r)
    (default JNull (json_from_str (pr_payload r))) (pr_requested_by r) (pr_requested_at r)
    (pr_status r) (pr_decided_by r) (pr_decided_at r)
    (default [] (approvals_from_str (pr_approvals r))).

Definition get_pending_action (db : ApprDb) (id : string) : option PendingAction :=
  row_to_pending id <$> rows db !! id.

(** [ORDER BY requested_at DESC]. *)
Definition newest_first (a b : PendingAction) : Prop :=
  (pa_requested_at b ≤ pa_requested_at a)%string.

#[global] Instance newest_first_dec : RelDecision newest_first.
Proof. unfold RelDecision, newest_first. apply _. Defined.

(** A limit beyond the database's integers fails to bind. *)
Definition list_pending_actions (db : ApprDb) (status : option string) (limit : Z) :
    option (list PendingAction) :=
  if decide (i64_max < limit)%Z then None
  else
    Some (select ((λ kv, row_to_pending kv.1 kv.2) <$> map_to_list (rows db))
      (λ pa, match status with None => true | Some s => bool_decide (pa_status pa = s) end)
      newest_first limit).

(** [INSERT .. ON CONFLICT(id) DO UPDATE]: on conflict the timeout and expiry
    columns stay. *)
Definition upsert_pending_action (db : ApprDb) (pa : PendingAction) : ApprDb :=
  let old := rows db !! pa_id pa in
  with_rows db
    (<[pa_id pa :=
       mkPending (pa_action_type pa) (pa_memory_id pa) (pa_namespace pa)
         (json_to_string (pa_payload pa)) (pa_requested_by pa) (pa_requested_at pa)
         (pa_status pa) (pa_decided_by pa) (pa_decided_at pa)
         (approvals_to_string (pa_approvals pa)) (old ≫= pr_timeout_seconds) (old ≫= pr_expired_at)]>
       (rows db)).

(** [UPDATE .. WHERE id = ? AND status = 'pending'], and whether a row changed. *)
Definition update_pending (f : PendingRow → PendingRow) (db : ApprDb) (id : string) :
    ApprDb * bool :=
  match rows db !! id with
  | Some r =>
      if bool_decide (pr_status r = "pending") then (with_rows db (<[id := f r]> (rows db)), true)
      else (db, false)
  | None => (db, false)
  end.

Definition set_decision (status decided_by now : string) (r : PendingRow) : PendingRow :=
  mkPending (pr_action_type r) (pr_memory_id r) (pr_namespace r) (pr_payload r) (pr_requested_by r)
    (pr_requested_at r) status (Some decided_by) (Some now) (pr_approvals r)
    (pr_timeout_seconds r) (pr_expired_at r).

Definition set_approvals (approvals : string) (r : PendingRow) : PendingRow :=
  mkPending (pr_action_type r) (pr_memory_id r) (pr_namespace r) (pr_payload r) (pr_requested_by r)
    (pr_requested_at r) (pr_status r) (pr_decided_by r) (pr_decided_at r) approvals
    (pr_timeout_seconds r) (pr_expired_at r).

Definition set_expired (now : string) (r : PendingRow) : PendingRow :=
  mkPending (pr_action_type r) (pr_memory_id r) (pr_namespace r) (pr_payload r) (pr_requested_by r)
    (pr_requested_at r) "expired" (pr_decided_by r) (pr_decided_at r) (pr_approvals r)
    (pr_timeout_seconds r) (Some now).

(* ------------------------------------------------------------------ *)
(** * Audit and decisions *)

Section with_sink.
(** Whether the audit chain takes a row: a failed append is only logged. *)
Variable sink : PendingEvent → bool.

Definition pending_event (now : string) (pa : PendingAction) (event_type : string)
    (decided_by_override : option string) : PendingEvent :=
  let decided_by :=
    default "" (match decided_by_override with Some d => Some d | None => pa_decided_by pa end) in
  mkEvent (pa_id pa) (pa_action_type pa) (pa_namespace pa) (pa_requested_by pa) decided_by
    (pa_status pa) now event_type
    (if decide (event_type = "pending_action.timed_out") then pa_requested_by pa else decided_by).

Definition emit_pending_action_event (now : string) (db : ApprDb) (pa : PendingAction)
    (event_type : string) (decided_by_override : option string) : ApprDb :=
  let ev := pending_event now pa event_type decided_by_override in
  if sink ev then mkAppr (gov db) (signed_events db ++ [ev]) else db.

(** [now] stands for the clock readings of one call. *)
Definition decide_pending_action (now : string) (db : ApprDb) (id : string) (approve : bool)
    (decided_by : string) : ApprDb * bool :=
  let new_status := if approve then "approved" else "rejected" in
  let '(db, updated) := update_pending (set_decision new_status decided_by now) db id in
  let db :=
    if updated && negb approve then
      match get_pending_action db id with
      | Some pa => emit_pending_action_event now db pa "pending_action.denied" (Some decided_by)
      | None => db
      end
    else db in
  (db, updated).

(* ------------------------------------------------------------------ *)
(** * Approval *)

Definition eq_ignore_ascii_case (a b : string) : bool :=
  bool_decide (to_ascii_lowercase a = to_ascii_lowercase b).

Context `{PS : PolicySerde}.

Definition decided (ok : bool) (failure : string) : ApproveOutcome :=
  if ok then OutApproved else OutRejected failure.

Definition approve_human (visibility : option string) (now : string) (db : ApprDb)
    (pa : PendingAction) (pending_id approver : string) (surface : ApproveSurface) :
    ApprDb * ApproveOutcome :=
  let enforce_human_gate :=
    match surface with Http => true | LocalOperator => is_some visibility end in
  if enforce_human_gate && bool_decide (approver = pa_requested_by pa) then
    (db, OutRejected SELF_APPROVAL_REFUSED)
  else if enforce_human_gate && negb (is_registered_agent (gov db) approver) then
    (db, OutRejected ("Human approver '" +:+ approver +:+ "' is not a registered agent"))
  else
    let '(db, ok) := decide_pending_action now db pending_id true approver in
    (db, decided ok DECISION_WRITE_FAILED).

Definition approve_agent (now : string) (db : ApprDb) (pending_id approver required : string) :
    ApprDb * ApproveOutcome :=
  if decide (approver ≠ required) then
    (db, OutRejected ("designated approver is '" +:+ required +:+ "'; got '" +:+ approver +:+ "'"))
  else
    let '(db, ok) := decide_pending_action now db pending_id true approver in
    (db, decided ok DECISION_WRITE_FAILED).

(** The vote count is a [usize] compared as a saturated [u32]. *)
Definition quorum_met (votes quorum : Z) : bool :=
  bool_decide (quorum ≤ (if decide (votes ≤ u32_max)%Z then votes else u32_max))%Z.

Definition approve_consensus (now : string) (db : ApprDb) (pa : PendingAction)
    (pending_id approver : string) (quorum : Z) : ApprDb * ApproveOutcome :=
  if negb (is_registered_agent (gov db) approver) then
    (db, OutRejected ("consensus voter '" +:+ approver +:+ "' is not a registered agent"))
  else
    let canonical_id := to_ascii_lowercase approver in
    let approvals := pa_approvals pa in
    if existsb (λ a, eq_ignore_ascii_case (vote_agent_id a) canonical_id) approvals then
      (db, OutPending (Z.of_nat (length approvals)) quorum)
    else
      let approvals := approvals ++ [mkApproval canonical_id now] in
      let '(db, _) := update_pending (set_approvals (approvals_to_string approvals)) db pending_id in
      let votes := Z.of_nat (length approvals) in
      if quorum_met votes quorum then
        let '(db, ok) := decide_pending_action now db pending_id true canonical_id in
        (db, decided ok "decision write failed at consensus threshold")
      else (db, OutPending votes quorum).

(** [visibility] is the process-wide identity setting. *)
Definition approve_with_approver_type (visibility : option string) (now : string) (db : ApprDb)
    (pending_id approver_agent_id : string) (surface : ApproveSurface) : ApprDb * ApproveOutcome :=
  match get_pending_action db pending_id with
  | None => (db, OutNotFound)
  | Some pa =>
      if decide (pa_status pa ≠ "pending") then
        (db, OutRejected ("already decided: status=" +:+ pa_status pa))
      else
        let approver :=
          match resolve_governance_policy (gov db) (pa_namespace pa) with
          | Some p => approver p
          | None => ApproverHuman
          end in
        match approver with
        | ApproverHuman => approve_human visibility now db pa pending_id approver_agent_id surface
        | ApproverAgent required => approve_agent now db pending_id approver_agent_id required
        | ApproverConsensus quorum => approve_consensus now db pa pending_id approver_agent_id quorum
        end
  end.

(* ------------------------------------------------------------------ *)
(** * Replay *)

Definition payload_str (payload : value) (key : string) : option string :=
  json_get payload key ≫= json_as_str.

Definition verify_payload_agent_id (pa : PendingAction) : result unit StorageError :=
  let payload_agent_id :=
    match payload_str (pa_payload pa) "agent_id" with
    | Some a => Some a
    | None => m ← json_get (pa_payload pa) "metadata"; payload_str m "agent_id"
    end in
  match payload_agent_id with
  | Some claimed =>
      if decide (claimed ≠ pa_requested_by pa)
      then Err (ApproverLaundering (pa_id pa) claimed (pa_requested_by pa))
      else Ok tt
  | None => Ok tt
  end.

Definition DEFAULT_NHI_SOURCE : string := "nhi".

Record ReflectInput : Type := mkReflectInput {
  ri_source_ids : list string;
  ri_title : string;
  ri_content : string;
  ri_namespace : option string;
  ri_tier : Tier;
  ri_tags : list string;
  ri_priority : Z;
  ri_confidence : f64;
  ri_source : string;
  ri_agent_id : string;
  ri_metadata : value
}.

Definition json_as_array (v : value) : option (list value) :=
  match v with JArray l => Some l | _ => None end.

Definition json_as_i64 (v : value) : option Z :=
  match v with
  | JNumber (NPosInt n) => if decide (n ≤ i64_max)%Z then Some n else None
  | JNumber (NNegInt i) => Some i
  | _ => None
  end.

(** Integers convert to the nearest double, ties to even. *)
Definition json_as_f64 (v : value) : option f64 :=
  match v with
  | JNumber (NPosInt n) => Some (binary_normalize 53 1024 n 0 false)
  | JNumber (NNegInt i) => Some (binary_normalize 53 1024 i 0 false)
  | JNumber (NFloat f) => Some f
  | _ => None
  end.

(** The strings of an array field; other elements are skipped. *)
Definition payload_strings (payload : value) (key : string) : list string :=
  default [] ((λ l : list value, omap json_as_str l) <$> (json_get payload key ≫= json_as_array)).

Definition i32_or (d n : Z) : Z :=
  if decide (- 2 ^ 31 ≤ n ∧ n < 2 ^ 31)%Z then n else d.

Definition reflect_input (pa : PendingAction) : result ReflectInput StorageError :=
  let payload := pa_payload pa in
  let source_ids := payload_strings payload "source_ids" in
  if bool_decide (source_ids = [])
  then Err (InvalidArgument "invalid reflect payload: source_ids missing or empty")
  else
    let? title := ok_or (payload_str payload "title")
                    (InvalidArgument "invalid reflect payload: title missing") in
    let? content := ok_or (payload_str payload "content")
                      (InvalidArgument "invalid reflect payload: content missing") in
    Ok (mkReflectInput source_ids title content
          (Some (default (pa_namespace pa) (payload_str payload "namespace")))
          (default Mid (payload_str payload "tier" ≫= Tier_from_str))
          (payload_strings payload "tags")
          (i32_or 5 (default 5 (json_get payload "priority" ≫= json_as_i64))%Z)
          (default f64_one (json_get payload "confidence" ≫= json_as_f64))
          DEFAULT_NHI_SOURCE
          (default (pa_requested_by pa) (payload_str payload "agent_id"))
          (default (JObject []) (json_get payload "metadata"))).

(** The storage call an approved row is replayed as. *)
Inductive Replay : Type :=
| ReplayInsert (mem : Memory)
| ReplayDelete (id : string)
| ReplayPromoteTo (id to_namespace : string)
| ReplayTierLong (id : string)
| ReplayReflect (input : ReflectInput)
| ReplayNothing.

Context `{MS : MemorySerde}.

(** A store gets a fresh id, new timestamps and a zero access count. *)
Definition restamp (uuid now : string) (m : Memory) : Memory :=
  mkMemory uuid (mem_cid m) (mem_tier m) (mem_namespace m) (mem_title m) (mem_content m)
    (mem_tags m) (mem_priority m) (mem_confidence m) (mem_source m) 0 now now
    (mem_last_accessed_at m) (mem_expires_at m) (mem_metadata m) (mem_reflection_depth m)
    (mem_memory_kind m) (mem_entity_id m) (mem_persona_version m) (mem_citations m)
    (mem_source_uri m) (mem_source_span m) (mem_confidence_source m) (mem_confidence_signals m)
    (mem_confidence_decayed_at m) (mem_version m) (mem_lifecycle_state m).

Definition replay_of (uuid now : string) (pa : PendingAction) : result Replay StorageError :=
  if decide (pa_action_type pa = "store") then
    match memory_from_value (pa_payload pa) with
    | Ok mem => Ok (ReplayInsert (restamp uuid now mem))
    | Err e => Err (InvalidArgument ("invalid store payload: " +:+ e))
    end
  else if decide (pa_action_type pa = "delete") then
    Ok (match pa_memory_id pa with Some mid => ReplayDelete mid | None => ReplayNothing end)
  else if decide (pa_action_type pa = "promote") then
    Ok (match pa_memory_id pa with
        | Some mid =>
            match payload_str (pa_payload pa) "to_namespace" with
            | Some to_ns => ReplayPromoteTo mid to_ns
            | None => ReplayTierLong mid
            end
        | None => ReplayNothing
        end)
  else if decide (pa_action_type pa = "reflect") then
    let? input := reflect_input pa in Ok (ReplayReflect input)
  else Err (InvalidArgument ("unknown action_type: " +:+ pa_action_type pa)).

(** [run] performs the storage call: the new tables and the affected memory,
    or its error. *)
Definition execute_pending_action (run : GovDb → Replay → GovDb * result (option string) StorageError)
    (uuid now : string) (db : ApprDb) (pending_id : string) :
    ApprDb * result (option string) StorageError :=
  match get_pending_action db pending_id with
  | None => (db, Err (PendingActionNotFound pending_id))
  | Some pa =>
      if decide (pa_status pa ≠ "approved") then
        (db, Err (PendingActionStateInvalid pending_id (pa_status pa)))
      else
        match verify_payload_agent_id pa with
        | Err e =>
            (emit_pending_action_event now db pa "pending_action.refused_agent_id_mismatch" None, Err e)
        | Ok _ =>
            match replay_of uuid now pa with
            | Err e => (db, Err e)
            | Ok replay =>
                let '(g, res) := run (gov db) replay in
                let db := mkAppr g (signed_events db) in
                match res with
                | Ok memory_id =>
                    (emit_pending_action_event now db pa "pending_action.approved" (pa_decided_by pa),
                     Ok memory_id)
                | Err e => (db, Err e)
                end
            end
        end
  end.

(* ------------------------------------------------------------------ *)
(** * Timeouts *)

(** [age_exceeds requested_at secs]: the database's date arithmetic, false
    for a timestamp it cannot read. *)
Variable age_exceeds : string → Z → bool.

Definition expire_one (now : string) (db : ApprDb) (kv : string * string) : ApprDb :=
  (update_pending (set_expired now) db kv.1).1.

Definition emit_timed_out (now : string) (db : ApprDb) (kv : string * string) : ApprDb :=
  match get_pending_action db kv.1 with
  | Some pa => emit_pending_action_event now db pa "pending_action.timed_out" None
  | None => db
  end.

Definition timed_out (global_default_secs : Z) (r : PendingRow) : bool :=
  bool_decide (pr_status r = "pending")
  && age_exceeds (pr_requested_at r) (default global_default_secs (pr_timeout_seconds r)).

Definition sweep_pending_action_timeouts (now : string) (db : ApprDb) (global_default_secs : Z) :
    ApprDb * list (string * string) :=
  if decide (global_default_secs ≤ 0)%Z then (db, [])
  else
    let found :=
      (λ kv, (kv.1, pr_namespace kv.2))
        <$> List.filter (λ kv, timed_out global_default_secs kv.2) (map_to_list (rows db)) in
    let db := fold_left (expire_one now) found db in
    (fold_left (emit_timed_out now) found db, found).
End with_sink.
End with_codecs.

(* ------------------------------------------------------------------ *)
(** * Specification *)

(** What a row asks for, fixed when it is queued. *)
Definition request_of (r : PendingRow) : string * option string * string * string * string * string :=
  (pr_action_type r, pr_memory_id r, pr_namespace r, pr_payload r, pr_requested_by r,
   pr_requested_at r).

(** A decision carries its author and time, an expiry its time. *)
Definition settled (r : PendingRow) : Prop :=
  pr_status r = "pending"
  ∨ (pr_status r = "approved" ∨ pr_status r = "rejected")
    ∧ is_Some (pr_decided_by r) ∧ is_Some (pr_decided_at r)
  ∨ pr_status r = "expired" ∧ is_Some (pr_expired_at r).

(** How a row may change: not at all, or while pending, keeping its request. *)
Definition evolves (r r' : PendingRow) : Prop :=
  r' = r ∨ pr_status r = "pending" ∧ request_of r' = request_of r ∧ settled r'.

Definition rows_evolve (db db' : ApprDb) : Prop :=
  ∀ id r, rows db !! id = Some r → ∃ r', rows db' !! id = Some r' ∧ evolves r r'.

#[global] Instance evolves_preorder : PreOrder evolves.
Proof.
  split; [by left|]. intros r1 r2 r3 [->|(H1 & H2 & H3)] [->|(H4 & H5 & H6)].
  - by left.
  - by right.
  - by right.
  - right. split_and!; [done|congruence|done].
Qed.

#[global] Instance rows_evolve_preorder : PreOrder rows_evolve.
Proof.
  split; [intros db id r ?; by exists r|]. intros d1 d2 d3 H12 H23 id r Hr.
  destruct (H12 id r Hr) as (r2 & Hr2 & He2). destruct (H23 id r2 Hr2) as (r3 & Hr3 & He3).
  exists r3. split; [done|]. by transitivity r2.
Qed.

(** Who may turn a pending row into an approved one. *)
Definition may_approve `{PolicySerde} (visibility : option string) (db : ApprDb)
    (pa : PendingAction) (who : string) (surface : ApproveSurface) : Prop :=
  match from_option approver ApproverHuman (resolve_governance_policy (gov db) (pa_namespace pa)) with
  | ApproverHuman =>
      surface = Http ∨ is_Some visibility → who ≠ pa_requested_by pa ∧ registered (gov db) who
  | ApproverAgent required => who = required
  | ApproverConsensus quorum =>
      registered (gov db) who
      ∧ (∀ a, a ∈ pa_approvals pa →
           to_ascii_lowercase (vote_agent_id a) ≠ to_ascii_lowercase who)
      ∧ (quorum ≤ Z.min (Z.of_nat (S (length (pa_approvals pa)))) u32_max)%Z
  end.

(* ------------------------------------------------------------------ *)
(** * Lemmas: single writes *)

Lemma ascii_lower_idem c : ascii_lower (ascii_lower c) = ascii_lower c.
Proof. by destruct c as [[] [] [] [] [] [] [] []]. Qed.

Lemma to_ascii_lowercase_idem s : to_ascii_lowercase (to_ascii_lowercase s) = to_ascii_lowercase s.
Proof. induction s as [|c s IH]; simpl; [done|]. by rewrite ascii_lower_idem, IH. Qed.

Lemma quorum_met_spec votes quorum :
  quorum_met votes quorum = true ↔ (quorum ≤ Z.min votes u32_max)%Z.
Proof. unfold quorum_met. rewrite bool_decide_eq_true. case_decide; lia. Qed.

Lemma update_pending_true f db id r :
  rows db !! id = Some r → pr_status r = "pending" →
  update_pending f db id = (with_rows db (<[id := f r]> (rows db)), true).
Proof. intros Hr Hs. unfold update_pending. rewrite Hr. by rewrite bool_decide_true. Qed.

Lemma update_pending_cases f db id :
  (∃ r, rows db !! id = Some r ∧ pr_status r = "pending"
     ∧ update_pending f db id = (with_rows db (<[id := f r]> (rows db)), true))
  ∨ update_pending f db id = (db, false)
    ∧ ∀ r, rows db !! id = Some r → pr_status r ≠ "pending".
Proof.
  unfold update_pending. destruct (rows db !! id) as [r|]; [|by right].
  case_bool_decide; [left; by exists r|right]. split; [done|]. by intros r' [= <-].
Qed.

Lemma update_pending_evolves f db id :
  (∀ r, pr_status r = "pending" → evolves r (f r)) → rows_evolve db (update_pending f db id).1.
Proof.
  intros Hf. destruct (update_pending_cases f db id) as [(r & Hr & Hs & ->)|[-> _]]; [|reflexivity].
  intros id' r' Hr'. unfold rows, with_rows, with_pending in *; simpl in *.
  destruct (decide (id' = id)) as [->|Hne].
  - rewrite lookup_insert_eq. exists (f r). split; [done|].
    assert (r' = r) as -> by congruence. by apply Hf.
  - rewrite lookup_insert_ne by done. by exists r'.
Qed.

Section ops.
Context `{JC : JsonCodec, AS : ApprovalSerde, PS : PolicySerde, MS : MemorySerde}.
Variable sink : PendingEvent → bool.

Lemma emit_gov now db pa ty over : gov (emit_pending_action_event sink now db pa ty over) = gov db.
Proof. unfold emit_pending_action_event. by destruct (sink _). Qed.

Lemma emit_rows now db pa ty over : rows (emit_pending_action_event sink now db pa ty over) = rows db.
Proof. unfold rows. by rewrite emit_gov. Qed.

Definition status_of (approve : bool) : string := if approve then "approved" else "rejected".

Lemma decide_cases now db id approve who :
  (∃ r, rows db !! id = Some r ∧ pr_status r = "pending"
     ∧ (decide_pending_action sink now db id approve who).2 = true
     ∧ gov (decide_pending_action sink now db id approve who).1 =
       with_pending (gov db) (<[id := set_decision (status_of approve) who now r]> (rows db)))
  ∨ decide_pending_action sink now db id approve who = (db, false)
    ∧ ∀ r, rows db !! id = Some r → pr_status r ≠ "pending".
Proof.
  unfold decide_pending_action.
  destruct (update_pending_cases (set_decision (status_of approve) who now) db id)
    as [(r & Hr & Hs & E)|[E Hn]]; unfold status_of in E; rewrite E; [left|by right].
  exists r. split_and!; [done..|]. destruct approve; simpl; [done|].
  destruct (get_pending_action _ id); [|done]. by rewrite emit_gov.
Qed.

Lemma decide_approves now db id who r :
  rows db !! id = Some r → pr_status r = "pending" →
  (decide_pending_action sink now db id true who).2 = true
  ∧ gov (decide_pending_action sink now db id true who).1 =
    with_pending (gov db) (<[id := set_decision "approved" who now r]> (rows db)).
Proof.
  intros Hr Hs. destruct (decide_cases now db id true who) as [(r' & Hr' & _ & H)|[_ Hn]].
  - by assert (r' = r) as -> by congruence.
  - by destruct (Hn r Hr).
Qed.

Lemma decision_evolves approve who now r :
  pr_status r = "pending" → evolves r (set_decision (status_of approve) who now r).
Proof.
  intros Hs. right. split_and!; [done|done|right; left]. simpl.
  split_and!; [destruct approve; auto|by eexists|by eexists].
Qed.

Lemma decide_evolves now db id approve who :
  rows_evolve db (decide_pending_action sink now db id approve who).1.
Proof.
  destruct (decide_cases now db id approve who) as [(r & Hr & Hs & _ & Hg)|[-> _]]; [|reflexivity].
  pose proof (update_pending_evolves (set_decision (status_of approve) who now) db id
    (decision_evolves approve who now)) as H.
  rewrite (update_pending_true _ _ _ _ Hr Hs) in H. unfold rows_evolve, rows in *. by rewrite Hg.
Qed.

Lemma vote_evolves s r : pr_status r = "pending" → evolves r (set_approvals s r).
Proof. intros Hs. right. split_and!; [done|done|by left]. Qed.

Lemma approve_evolves vis now db id who surface :
  rows_evolve db (approve_with_approver_type sink vis now db id who surface).1.
Proof.
  unfold approve_with_approver_type. destruct (get_pending_action db id) as [pa|]; [|reflexivity].
  case_decide; [reflexivity|]. pose proof (decide_evolves now db id true who) as Hd.
  destruct (match resolve_governance_policy _ _ with Some p => _ | None => _ end) as [|req|q].
  - unfold approve_human. destruct (_ && bool_decide _); [reflexivity|].
    destruct (_ && negb _); [reflexivity|]. by destruct (decide_pending_action _ _ _ _ _ _).
  - unfold approve_agent. case_decide; [reflexivity|]. by destruct (decide_pending_action _ _ _ _ _ _).
  - unfold approve_consensus. case_match; [reflexivity|]. case_match; [reflexivity|].
    set (f := set_approvals _). pose proof (update_pending_evolves f db id (vote_evolves _)) as Hu.
    destruct (update_pending f db id) as [db1 ?]. simpl in Hu. case_match; [|done].
    pose proof (decide_evolves now db1 id true (to_ascii_lowercase who)) as Hd1.
    destruct (decide_pending_action _ _ db1 _ _ _). simpl in *. by transitivity db1.
Qed.

Lemma execute_evolves run uuid now db id :
  (∀ g c, pending_actions (run g c).1 = pending_actions g) →
  rows_evolve db (execute_pending_action sink run uuid now db id).1.
Proof.
  intros Hrun. unfold execute_pending_action.
  assert (∀ db', rows db' = rows db → rows_evolve db db') as Hsame
    by (intros db' E i r Hi; rewrite E; by exists r).
  destruct (get_pending_action db id) as [pa|]; [|by apply Hsame].
  case_decide; [by apply Hsame|]. destruct (verify_payload_agent_id pa); [|by apply Hsame, emit_rows].
  destruct (replay_of _ _ _) as [c|]; [|by apply Hsame]. specialize (Hrun (gov db) c).
  destruct (run (gov db) c) as [g [m|e]]; simpl in *; apply Hsame; [rewrite emit_rows|]; exact Hrun.
Qed.

Lemma expire_evolves now db kv : rows_evolve db (expire_one now db kv).
Proof.
  apply update_pending_evolves. intros r Hs. right. split_and!; [done|done|right; right].
  split; [done|by eexists].
Qed.

Lemma emit_timed_out_rows now db kv : rows (emit_timed_out sink now db kv) = rows db.
Proof. unfold emit_timed_out. destruct (get_pending_action db kv.1); [apply emit_rows|done]. Qed.

Lemma fold_evolves (f : ApprDb → string * string → ApprDb) l db :
  (∀ d x, rows_evolve d (f d x)) → rows_evolve db (fold_left f l db).
Proof.
  intros Hf. revert db. induction l as [|x l IH]; intros db; simpl; [reflexivity|].
  transitivity (f db x); auto.
Qed.

Lemma sweep_evolves age_exceeds now db secs :
  rows_evolve db (sweep_pending_action_timeouts sink age_exceeds now db secs).1.
Proof.
  unfold sweep_pending_action_timeouts. case_decide; [reflexivity|]. simpl.
  transitivity (fold_left (expire_one now) ((λ kv, (kv.1, pr_namespace kv.2)) <$>
    List.filter (λ kv, timed_out age_exceeds secs kv.2) (map_to_list (rows db))) db).
  - apply fold_evolves, expire_evolves.
  - apply fold_evolves. intros d x i r Hi. rewrite emit_timed_out_rows. by exists r.
Qed.

(* ------------------------------------------------------------------ *)
(** * Lemmas: approval *)

Lemma get_pending_row db id pa :
  get_pending_action db id = Some pa ↔ ∃ r, rows db !! id = Some r ∧ pa = row_to_pending id r.
Proof.
  unfold get_pending_action. rewrite fmap_Some. naive_solver.
Qed.

(** The row an approval writes. *)
Definition approved_row (r r' : PendingRow) (who now : string) : Prop :=
  pr_status r' = "approved" ∧ request_of r' = request_of r
  ∧ pr_decided_by r' = Some who ∧ pr_decided_at r' = Some now.

Definition set_row (db : ApprDb) (id : string) (r : PendingRow) : GovDb :=
  with_pending (gov db) (<[id := r]> (rows db)).

(** Whether an equal vote, up to case, is in the log. *)
Definition has_voted (pa : PendingAction) (who : string) : Prop :=
  ∃ a, a ∈ pa_approvals pa ∧ to_ascii_lowercase (vote_agent_id a) = to_ascii_lowercase who.

Lemma has_voted_spec pa who :
  existsb (λ a, eq_ignore_ascii_case (vote_agent_id a) (to_ascii_lowercase who)) (pa_approvals pa)
  = true ↔ has_voted pa who.
Proof.
  unfold has_voted, eq_ignore_ascii_case. rewrite existsb_exists.
  setoid_rewrite bool_decide_eq_true. setoid_rewrite to_ascii_lowercase_idem.
  by setoid_rewrite list_elem_of_In.
Qed.

Definition add_vote (pa : PendingAction) (who now : string) : list Approval :=
  pa_approvals pa ++ [mkApproval (to_ascii_lowercase who) now].

Lemma approve_consensus_cases now db id r who q :
  let pa := row_to_pending id r in
  let out := approve_consensus sink now db pa id who q in
  rows db !! id = Some r → pr_status r = "pending" →
  ((¬ registered (gov db) who ∨ has_voted pa who) ∧ out.1 = db ∧ out.2 ≠ OutApproved)
  ∨ registered (gov db) who ∧ ¬ has_voted pa who
    ∧ let r1 := set_approvals (approvals_to_string (add_vote pa who now)) r in
      if quorum_met (Z.of_nat (S (length (pa_approvals pa)))) q
      then out.2 = OutApproved
           ∧ gov out.1 = set_row db id (set_decision "approved" (to_ascii_lowercase who) now r1)
      else out.1 = with_rows db (<[id := r1]> (rows db))
           ∧ out.2 = OutPending (Z.of_nat (S (length (pa_approvals pa)))) q.
Proof.
  intros pa out Hr Hs. subst out. unfold approve_consensus.
  pose proof (is_registered_agent_spec (gov db) who) as Hreg.
  destruct (is_registered_agent (gov db) who); simpl; [|left; naive_solver].
  pose proof (has_voted_spec pa who) as Hv.
  destruct (existsb _ _); [left; simpl; naive_solver|]. right.
  split_and!; [by apply Hreg|by intros ?%Hv|].
  rewrite (update_pending_true _ _ _ _ Hr Hs), length_app, Nat.add_1_r.
  destruct (quorum_met _ q); [|done].
  set (r1 := set_approvals _ r). set (db1 := with_rows db (<[id := r1]> (rows db))).
  destruct (decide_approves now db1 id (to_ascii_lowercase who) r1) as [H1 H2].
  { unfold db1, rows. simpl. by rewrite lookup_insert_eq. } { done. }
  destruct (decide_pending_action sink now db1 id true _) as [db2 ok]. simpl in *. subst ok.
  split; [done|]. rewrite H2. unfold db1, set_row, with_pending, rows; simpl.
  by rewrite insert_insert_eq.
Qed.

(** What an approval call does to a pending row. *)
Lemma approve_cases vis now db id r who surface :
  let pa := row_to_pending id r in
  let out := approve_with_approver_type sink vis now db id who surface in
  rows db !! id = Some r → pr_status r = "pending" →
  (may_approve vis db pa who surface ∧ out.2 = OutApproved
     ∧ ∃ r' by_, gov out.1 = set_row db id r' ∧ approved_row r r' by_ now
         ∧ (by_ = who ∨ by_ = to_ascii_lowercase who))
  ∨ ¬ may_approve vis db pa who surface ∧ out.2 ≠ OutApproved
    ∧ (out.1 = db ∨ ∃ s, gov out.1 = set_row db id (set_approvals s r)).
Proof.
  intros pa out Hr Hs. subst out. unfold approve_with_approver_type, may_approve.
  rewrite (proj2 (get_pending_row db id pa)) by by exists r. rewrite decide_False by naive_solver.
  destruct (decide_approves now db id who r Hr Hs) as [H1 H2]. simpl pa_namespace.
  unfold from_option.
  destruct (match resolve_governance_policy _ _ with Some p => _ | None => _ end) as [|req|q].
  - pose proof (is_registered_agent_spec (gov db) who) as Hreg. unfold approve_human.
    set (gate := match surface with Http => true | _ => _ end).
    assert (gate = true ↔ surface = Http ∨ is_Some vis) as Hgate.
    { unfold gate. destruct surface, vis; naive_solver. }
    destruct gate; simpl.
    + assert (surface = Http ∨ is_Some vis) as G by by apply Hgate. clear Hgate.
      case_bool_decide as Hself; [right; split_and!; [by intros [? _]%(λ f, f G)|done|by left]|].
      destruct (is_registered_agent _ _); simpl;
        [left|right; split_and!; [by intros [_ ?%Hreg]%(λ f, f G)|done|by left]].
      destruct (decide_pending_action _ _ _ _ _ _) as [db2 ok]; simpl in *. subst ok.
      split_and!; [intros _; split; [done|by apply Hreg]|done|].
      eexists _, who. split_and!; [done..|by left].
    + destruct (decide_pending_action _ _ _ _ _ _) as [db2 ok]; simpl in *. subst ok. left.
      split_and!; [intros ?%Hgate; done|done|]. eexists _, who. split_and!; [done..|by left].
  - unfold approve_agent. case_decide as Hw; [right; split_and!; [done|done|by left]|left].
    destruct (decide_pending_action _ _ _ _ _ _) as [db2 ok]; simpl in *. subst ok.
    split_and!; [by destruct (decide (who = req))|done|].
    eexists _, who. split_and!; [done..|by left].
  - pose proof (approve_consensus_cases now db id r who q Hr Hs) as Hc. cbv zeta in Hc. fold pa in Hc.
    destruct Hc as [(Hno & -> & ?)|(Hreg & Hnv & H)].
    + right. split_and!; [|done|by left]. intros (Hreg & Hnew & _).
      destruct Hno as [?|(a & Ha & E)]; [done|by apply (Hnew a Ha)].
    + assert (∀ a, a ∈ pa_approvals pa →
        to_ascii_lowercase (vote_agent_id a) ≠ to_ascii_lowercase who) as Hnew
        by (intros a Ha E; apply Hnv; by exists a).
      pose proof (quorum_met_spec (Z.of_nat (S (length (pa_approvals pa)))) q) as Hq.
      destruct (quorum_met _ _).
      * left. destruct H as [Ho Hg]. split_and!; [done..|by apply Hq|done|].
        eexists _, (to_ascii_lowercase who). split_and!; [done..|by right].
      * right. destruct H as [Hg Ho]. rewrite Ho, Hg.
        split_and!; [by intros (_ & _ & ?%Hq)|done|right; by eexists].
Qed.

Lemma rows_set_row db db' id r : gov db' = set_row db id r → rows db' = <[id := r]> (rows db).
Proof. unfold rows at 1. by intros ->. Qed.

Lemma approve_absent vis now db id who surface :
  rows db !! id = None →
  approve_with_approver_type sink vis now db id who surface = (db, OutNotFound).
Proof. intros Hr. unfold approve_with_approver_type, get_pending_action. by rewrite Hr. Qed.

Lemma approve_decided vis now db id r who surface :
  rows db !! id = Some r → pr_status r ≠ "pending" →
  approve_with_approver_type sink vis now db id who surface =
  (db, OutRejected ("already decided: status=" +:+ pr_status r)).
Proof.
  intros Hr Hs. unfold approve_with_approver_type, get_pending_action. rewrite Hr. simpl.
  by rewrite decide_True.
Qed.

Lemma approve_when_pending vis now db id r who surface :
  rows db !! id = Some r → pr_status r = "pending" →
  (approve_with_approver_type sink vis now db id who surface).2 = OutApproved ↔
  may_approve vis db (row_to_pending id r) who surface.
Proof. intros Hr Hs. destruct (approve_cases vis now db id r who surface Hr Hs); naive_solver. Qed.

(* ------------------------------------------------------------------ *)
(** * Theorems *)

(** An approval goes through exactly when the row exists, is undecided
    and the approver its namespace names accepts the caller: for a human
    gate under enforcement a registered agent other than the requester, the
    designated agent, or the vote that completes a quorum of registered
    voters. The approved row keeps its request and names its decider; any
    other outcome leaves every row's status, and the memories, as they were. *)
Lemma approval_exact vis now db id who surface :
  let '(db', out) := approve_with_approver_type sink vis now db id who surface in
  (out = OutApproved ↔
   ∃ r, rows db !! id = Some r ∧ pr_status r = "pending"
     ∧ may_approve vis db (row_to_pending id r) who surface)
  ∧ (out = OutApproved → ∃ r r', rows db !! id = Some r ∧ gov db' = set_row db id r'
       ∧ pr_status r' = "approved" ∧ request_of r' = request_of r ∧ is_Some (pr_decided_by r'))
  ∧ (out ≠ OutApproved → ∀ i, pr_status <$> rows db' !! i = pr_status <$> rows db !! i)
  ∧ memories (gov db') = memories (gov db) ∧ namespace_meta (gov db') = namespace_meta (gov db).
Proof.
  destruct (rows db !! id) as [r|] eqn:Hr;
    [|rewrite approve_absent by done; split_and!; try done; naive_solver].
  destruct (decide (pr_status r = "pending")) as [Hs|Hs];
    [|rewrite (approve_decided _ _ _ _ _ _ _ Hr Hs); split_and!; try done; naive_solver].
  destruct (approve_cases vis now db id r who surface Hr Hs)
    as [(Hm & Ho & r' & by_ & Hg & (H1 & H2 & H3 & _) & _)|(Hm & Ho & Hg)];
    destruct (approve_with_approver_type _ _ _ _ _ _ _) as [db' out]; simpl in *.
  - split_and!; [by split; [intros _; exists r|]| |done|by rewrite Hg..].
    intros _. exists r, r'. by rewrite H3.
  - split_and!; [by split; [|intros (r' & [= <-] & _ & ?)]|done| |by destruct Hg as [->|[s ->]]..].
    intros _ i. destruct Hg as [->|[s Hg]]; [done|]. rewrite (rows_set_row _ _ _ _ Hg).
    destruct (decide (i = id)) as [->|]; [|by rewrite lookup_insert_ne].
    by rewrite lookup_insert_eq, Hr.
Qed.

(** The operations of one node on its queue: the gate queueing a fresh row,
    a rejection, an approval, the replay of an approved row by storage calls
    that leave the queue alone, and the sweep. *)
Inductive queue_step `{C : CapCrypto} : ApprDb → ApprDb → Prop :=
| step_gate db mode cfg unix_now uuid now action ns agent memory_id mo payload capability :
    rows db !! uuid = None →
    queue_step db
      (mkAppr (enforce_governance mode cfg unix_now uuid now (gov db) action ns agent memory_id mo
                 payload capability).1.1 (signed_events db))
| step_reject db now id who :
    queue_step db (decide_pending_action sink now db id false who).1
| step_approve db vis now id who surface :
    queue_step db (approve_with_approver_type sink vis now db id who surface).1
| step_execute db run uuid now id :
    (∀ g c, pending_actions (run g c).1 = pending_actions g) →
    queue_step db (execute_pending_action sink run uuid now db id).1
| step_sweep db age_exceeds now secs :
    queue_step db (sweep_pending_action_timeouts sink age_exceeds now db secs).1.

Lemma gate_evolves `{C : CapCrypto} db mode cfg unix_now uuid now action ns agent memory_id mo payload
    capability :
  rows db !! uuid = None →
  rows_evolve db
    (mkAppr (enforce_governance mode cfg unix_now uuid now (gov db) action ns agent memory_id mo
               payload capability).1.1 (signed_events db)).
Proof.
  intros Hfresh. unfold enforce_governance. case_decide; [by intros i r Hi; exists r|].
  destruct (resolve_governance_policy _ _); [|by intros i r Hi; exists r].
  case_decide; [by intros i r Hi; exists r|].
  destruct (apply_at_gate _ _ _ _ _ _ _) as [[|refusal|q] rs]; simpl;
    intros i r Hi; exists r; split; try done; try reflexivity.
  unfold rows in *; simpl. rewrite lookup_insert_ne; [done|congruence].
Qed.

Lemma queue_step_evolves `{C : CapCrypto} db db' : queue_step db db' → rows_evolve db db'.
Proof.
  destruct 1; [by apply gate_evolves|apply decide_evolves|apply approve_evolves
    |by apply execute_evolves|apply sweep_evolves].
Qed.

(** C17: through any sequence of queueing, rejecting, approving, replaying and
    sweeping, a row is never lost; once decided or expired it never changes
    again; what it asks for (action, target, namespace, payload, requester)
    never changes at all; and the state it ends in is pending, approved or
    rejected with the decider and time on record, or expired with its time. *)
Theorem pending_lifecycle `{C : CapCrypto} db db' id r :
  rtc queue_step db db' → rows db !! id = Some r →
  ∃ r', rows db' !! id = Some r' ∧ request_of r' = request_of r
    ∧ (pr_status r ≠ "pending" → r' = r) ∧ (settled r → settled r').
Proof.
  intros Hsteps Hr.
  assert (rows_evolve db db') as He.
  { clear Hr. induction Hsteps as [|d1 d2 d3 H12 _ IH]; [reflexivity|]. transitivity d2; [|done].
    by apply queue_step_evolves. }
  destruct (He id r Hr) as (r' & Hr' & Hev). exists r'. split; [done|].
  destruct Hev as [->|(Hs & Hq & Hset)]; by split_and!.
Qed.

(* ------------------------------------------------------------------ *)
(** * Consensus *)

(** The distinct registered callers, up to letter case. *)
Definition electorate (db : ApprDb) (callers : list string) : gset string :=
  list_to_set (to_ascii_lowercase <$> List.filter (is_registered_agent (gov db)) callers).

(** One approval call per caller, on one surface, whatever the clock says. *)
Definition ballots (vis : option string) (id : string) (surface : ApproveSurface)
    (db : ApprDb) (calls : list (string * string)) : ApprDb :=
  fold_left
    (λ db call, (approve_with_approver_type sink vis call.1 db id call.2 surface).1) calls db.

(** Where a consensus row stands after a set of voters. *)
Definition tallied (q : Z) (voters : gset string) (r : PendingRow) : Prop :=
  if decide (Z.max 1 q ≤ Z.of_nat (size voters))%Z then pr_status r = "approved"
  else pr_status r = "pending" ∧ ∃ l,
    approvals_from_str (pr_approvals r) = Some l
    ∧ NoDup (vote_agent_id <$> l) ∧ list_to_set (vote_agent_id <$> l) = voters
    ∧ Forall (λ a, to_ascii_lowercase (vote_agent_id a) = vote_agent_id a) l.

Lemma has_voted_log id r l who :
  approvals_from_str (pr_approvals r) = Some l →
  Forall (λ a, to_ascii_lowercase (vote_agent_id a) = vote_agent_id a) l →
  has_voted (row_to_pending id r) who ↔ to_ascii_lowercase who ∈ vote_agent_id <$> l.
Proof.
  intros Hr Hl. unfold has_voted. simpl. rewrite Hr. simpl.
  rewrite list_elem_of_fmap. rewrite Forall_forall in Hl. split.
  - intros (a & Ha & E). exists a. split; [|done]. by rewrite <-(Hl a Ha).
  - intros (a & E & Ha). exists a. split; [done|]. by rewrite (Hl a Ha).
Qed.

Definition voter (db : ApprDb) (who : string) : gset string :=
  if is_registered_agent (gov db) who then {[to_ascii_lowercase who]} else ∅.

Lemma approve_by_consensus vis now db id r who surface p q :
  rows db !! id = Some r → pr_status r = "pending" →
  resolve_governance_policy (gov db) (pr_namespace r) = Some p → approver p = ApproverConsensus q →
  approve_with_approver_type sink vis now db id who surface =
  approve_consensus sink now db (row_to_pending id r) id who q.
Proof.
  intros Hr Hs Hp Hq. unfold approve_with_approver_type, get_pending_action. rewrite Hr. simpl.
  rewrite decide_False by naive_solver. by rewrite Hp, Hq.
Qed.

Lemma tallied_approved q V r : tallied q V r → pr_status r ≠ "pending" →
  (Z.max 1 q ≤ Z.of_nat (size V))%Z ∧ pr_status r = "approved".
Proof. unfold tallied. case_decide; [done|]. by intros [? _]. Qed.

Lemma tally_step `{AL : !ApprovalSerdeLaws AS} vis surface now db id r who p q V :
  rows db !! id = Some r →
  resolve_governance_policy (gov db) (pr_namespace r) = Some p → approver p = ApproverConsensus q →
  (q ≤ u32_max)%Z → tallied q V r →
  let db' := (approve_with_approver_type sink vis now db id who surface).1 in
  ∃ r', gov db' = set_row db id r' ∧ pr_namespace r' = pr_namespace r
    ∧ tallied q (V ∪ voter db who) r'.
Proof.
  intros Hr Hp Hq Hmax Ht. assert (gov db = set_row db id r) as Hsame.
  { unfold set_row, with_pending, rows. rewrite insert_id by done. by destruct (gov db). }
  destruct (decide (pr_status r = "pending")) as [Hs|Hs].
  2: { rewrite (approve_decided _ _ _ _ _ _ _ Hr Hs). exists r. split_and!; [done..|].
       apply tallied_approved in Ht as [Hle Ha]; [|done]. unfold tallied.
       rewrite decide_True; [done|]. pose proof (subseteq_size V (V ∪ voter db who)). set_solver by lia. }
  rewrite (approve_by_consensus _ _ _ _ _ _ _ _ _ Hr Hs Hp Hq). unfold tallied in Ht.
  case_decide as Hlt; [congruence|]. destruct Ht as (_ & l & Hl & Hnd & HV & Hlow).
  assert (size V = length l) as Hsize by (subst V; rewrite size_list_to_set, length_fmap; done).
  pose proof (has_voted_log id r l who Hl Hlow) as Hvoted.
  assert (pa_approvals (row_to_pending id r) = l) as Hlog by (simpl; by rewrite Hl).
  pose proof (is_registered_agent_spec (gov db) who) as Hreg.
  destruct (approve_consensus_cases now db id r who q Hr Hs) as [(Hno & -> & _)|(Hyes & Hnv & H)].
  - exists r. split_and!; [done..|]. replace (V ∪ voter db who) with V.
    { unfold tallied. rewrite decide_False by done. split; [done|]. by exists l. }
    unfold voter. destruct (is_registered_agent _ _); [|set_solver].
    destruct Hno as [Hn|Hv%Hvoted]; [by destruct Hn; apply Hreg|]. subst V. set_solver.
  - assert (voter db who = {[to_ascii_lowercase who]}) as Hv
      by (unfold voter; by rewrite (proj2 Hreg Hyes)).
    rewrite Hvoted in Hnv. rewrite Hlog in H. unfold add_vote in H. rewrite Hlog in H.
    assert (size (V ∪ voter db who) = S (length l)) as Hsize'.
    { rewrite Hv, size_union, size_singleton, Hsize by (subst V; set_solver). lia. }
    pose proof (quorum_met_spec (Z.of_nat (S (length l))) q) as Hmet.
    destruct (quorum_met _ _); simpl in H.
    + destruct H as [_ Hg]. eexists. split_and!; [exact Hg|done|]. unfold tallied.
      rewrite Hsize', decide_True; [done|]. assert (q ≤ Z.of_nat (S (length l)))%Z; [|lia].
      pose proof (proj1 Hmet eq_refl). lia.
    + destruct H as [-> _]. eexists. split_and!; [done|done|]. unfold tallied.
      rewrite Hsize', decide_False; [|intros Hle; assert (false = true) by (apply Hmet; lia); done].
      split; [done|]. eexists. split_and!; [apply approvals_roundtrip| | |].
      * rewrite fmap_app. apply NoDup_app. split_and!; [done| |apply NoDup_singleton].
        intros x Hx Hin. apply list_elem_of_singleton in Hin as ->. done.
      * rewrite fmap_app, list_to_set_app_L, HV, Hv. simpl. set_solver.
      * apply Forall_app. split; [done|]. constructor; [apply to_ascii_lowercase_idem|constructor].
Qed.

(** C2: consensus counts people, not calls: over any sequence of approval
    calls on a queued row, by anyone, repeated or in another spelling, the row
    ends up approved exactly when the distinct registered callers reach the
    quorum (and at least one of them voted), and stays pending otherwise. *)
Theorem consensus_exact `{AL : !ApprovalSerdeLaws AS} vis surface db id r calls p q :
  rows db !! id = Some r → pr_status r = "pending" → pr_approvals r = "[]" →
  resolve_governance_policy (gov db) (pr_namespace r) = Some p → approver p = ApproverConsensus q →
  (q ≤ u32_max)%Z →
  ∃ r', rows (ballots vis id surface db calls) !! id = Some r'
    ∧ pr_status r' =
      if decide (Z.max 1 q ≤ Z.of_nat (size (electorate db (snd <$> calls))))%Z
      then "approved" else "pending".
Proof.
  intros Hr Hs Hnew Hp Hq Hmax.
  assert (tallied q ∅ r) as Ht.
  { unfold tallied. rewrite decide_False by (rewrite size_empty; lia). split; [done|]. exists [].
    rewrite Hnew. split_and!; [apply approvals_empty|constructor|done|constructor]. }
  assert (∃ r', rows (ballots vis id surface db calls) !! id = Some r'
    ∧ tallied q (∅ ∪ electorate db (snd <$> calls)) r') as (r' & Hr' & Ht').
  { clear Hs Hnew. revert db r Hr Hp Ht. generalize (∅ : gset string) as V.
    induction calls as [|[now who] calls IH]; intros V db r Hr Hp Ht.
    { exists r. split; [done|]. by replace (V ∪ electorate db (snd <$> [])) with V by set_solver. }
    destruct (tally_step vis surface now db id r who p q V Hr Hp Hq Hmax Ht) as (r1 & Hg & Hn & Ht1).
    simpl in *. set (db1 := (approve_with_approver_type _ _ _ _ _ _ _).1) in *.
    destruct (IH (V ∪ voter db who) db1 r1) as (r' & Hr' & Ht').
    - by rewrite (rows_set_row _ _ _ _ Hg), lookup_insert_eq.
    - by rewrite Hn, Hg.
    - done.
    - exists r'. split; [done|]. replace (V ∪ _) with (V ∪ voter db who ∪ electorate db1 (snd <$> calls)); [done|].
      unfold electorate, voter. rewrite Hg. simpl.
      change (is_registered_agent (set_row db id r1)) with (is_registered_agent (gov db)).
      destruct (is_registered_agent (gov db) who); simpl; set_solver. }
  exists r'. split; [done|]. rewrite union_empty_l_L in Ht'. unfold tallied in Ht'.
  case_decide; [done|]. by destruct Ht'.
Qed.

(* ------------------------------------------------------------------ *)
(** * Replication and replay *)

(** An upsert does not know decisions: a copy of a row taken while it was
    pending, arriving after the row was rejected, makes it pending again with
    its old vote log, and whoever could approve it before can approve it
    then. The only thing lost is the rejection. *)
Lemma stale_replay_reopens `{AL : !ApprovalSerdeLaws AS} vis surface db id r who denier now now' :
  rows db !! id = Some r → pr_status r = "pending" →
  may_approve vis db (row_to_pending id r) who surface →
  let snapshot := row_to_pending id r in
  let db1 := (decide_pending_action sink now db id false denier).1 in
  let db2 := upsert_pending_action db1 snapshot in
  pr_status <$> rows db1 !! id = Some "rejected"
  ∧ pr_status <$> rows db2 !! id = Some "pending"
  ∧ (approve_with_approver_type sink vis now' db2 id who surface).2 = OutApproved.
Proof.
  intros Hr Hs Hmay snapshot db1 db2.
  destruct (decide_cases now db id false denier) as [(r' & Hr' & _ & _ & Hg)|[_ Hn]];
    [|by destruct (Hn r Hr)].
  fold db1 in Hg.
  assert (rows db1 !! id = Some (set_decision "rejected" denier now r')) as H1
    by (rewrite (rows_set_row _ _ _ _ Hg); apply lookup_insert_eq).
  split; [by rewrite H1|].
  assert (∃ r2, rows db2 !! id = Some r2 ∧ pr_status r2 = "pending"
    ∧ pr_namespace r2 = pr_namespace r ∧ pr_requested_by r2 = pr_requested_by r
    ∧ default [] (approvals_from_str (pr_approvals r2)) =
      default [] (approvals_from_str (pr_approvals r))) as (r2 & Hr2 & Hs2 & Hn2 & Hb2 & Ha2).
  { eexists. split; [apply lookup_insert_eq|]. simpl. split_and!; [done..|]. by rewrite approvals_roundtrip. }
  split; [by rewrite Hr2, <-Hs2|]. rewrite (approve_when_pending _ _ _ _ _ _ _ Hr2 Hs2).
  unfold may_approve in *. simpl in *. rewrite Hn2, Hb2, Ha2.
  change (resolve_governance_policy (gov db2)) with (resolve_governance_policy (gov db1)).
  change (registered (gov db2)) with (registered (gov db1)). by rewrite Hg.
Qed.

(** The author a payload claims: the outer field, else the one in its
    metadata. *)
Definition claims (payload : value) (who : string) : Prop :=
  payload_str payload "agent_id" = Some who
  ∨ payload_str payload "agent_id" = None
    ∧ ∃ m, json_get payload "metadata" = Some m ∧ payload_str m "agent_id" = Some who.

Lemma verify_payload_spec pa :
  verify_payload_agent_id pa = Ok tt ↔ ∀ who, claims (pa_payload pa) who → who = pa_requested_by pa.
Proof.
  unfold verify_payload_agent_id, claims.
  destruct (payload_str (pa_payload pa) "agent_id") as [a|].
  - case_decide as H; split; try done; [intros Hall; destruct H; apply Hall; by left|].
    intros _ who [[= <-]|[? _]]; [|done]. by destruct (decide (a = pa_requested_by pa)).
  - destruct (json_get (pa_payload pa) "metadata") as [m|]; simpl; [|split; [|done]; naive_solver].
    destruct (payload_str m "agent_id") as [a|] eqn:Ea; [|split; [|done]; naive_solver].
    case_decide as H; split; try done.
    + intros Hall. destruct H. apply Hall. right. split; [done|]. by exists m.
    + intros _ who [?|(_ & m' & [= <-] & E)]; [done|]. rewrite Ea in E. injection E as <-.
      by destruct (decide (a = pa_requested_by pa)).
Qed.

Lemma replay_of_store uuid now pa mem :
  pa_action_type pa = "store" → memory_from_value (pa_payload pa) = Ok mem →
  replay_of uuid now pa = Ok (ReplayInsert (restamp uuid now mem)).
Proof. intros Ht Hm. unfold replay_of. by rewrite decide_True, Hm by done. Qed.

(** Nothing is replayed but an approved row whose claimed author is its
    requester, and then as exactly the storage call the row describes; when
    the row is absent, undecided, refused, expired or claims another author,
    the tables stay as they were. A claim beside the metadata hides the one
    inside it: the memory a store lands with keeps the metadata it was sent
    with, whatever author that names. *)
Lemma replay_guarded run uuid now db id :
  let '(db', res) := execute_pending_action sink run uuid now db id in
  (∀ m, res = Ok m → ∃ r c, rows db !! id = Some r ∧ pr_status r = "approved"
     ∧ (∀ who, claims (pa_payload (row_to_pending id r)) who → who = pr_requested_by r)
     ∧ replay_of uuid now (row_to_pending id r) = Ok c ∧ run (gov db) c = (gov db', Ok m))
  ∧ (∀ r who, rows db !! id = Some r →
       pr_status r ≠ "approved"
       ∨ claims (pa_payload (row_to_pending id r)) who ∧ who ≠ pr_requested_by r →
       gov db' = gov db ∧ is_ok res = false)
  ∧ (rows db !! id = None → db' = db ∧ res = Err (PendingActionNotFound id))
  ∧ (∀ r mem, rows db !! id = Some r → pr_status r = "approved" → pr_action_type r = "store" →
       let payload := pa_payload (row_to_pending id r) in
       payload_str payload "agent_id" = Some (pr_requested_by r) → memory_from_value payload = Ok mem →
       ∃ mem', mem_metadata mem' = mem_metadata mem ∧ gov db' = (run (gov db) (ReplayInsert mem')).1).
Proof.
  unfold execute_pending_action, get_pending_action.
  destruct (rows db !! id) as [r|]; simpl; [|split_and!; [done..| |]; by intros].
  case_decide as Ha; [split_and!; [done| |done|]; [by intros|by intros ? ? [= <-] ?]|].
  assert (pr_status r = "approved") as Hs by by destruct (decide (pr_status r = "approved")).
  pose proof (verify_payload_spec (row_to_pending id r)) as Hv.
  destruct (verify_payload_agent_id (row_to_pending id r)) as [[]|e] eqn:Ev.
  - assert (∀ who, claims (pa_payload (row_to_pending id r)) who → who = pr_requested_by r) as Hc
      by by apply Hv.
    assert (∀ r0 who, Some r = Some r0 → pr_status r0 ≠ "approved"
      ∨ claims (pa_payload (row_to_pending id r0)) who ∧ who ≠ pr_requested_by r0 → False) as Hno.
    { intros ? who [= <-] [?|[H1 H2]]; [done|]. by apply H2, Hc. }
    assert (∀ r0 mem, Some r = Some r0 → pr_action_type r0 = "store" →
      memory_from_value (pa_payload (row_to_pending id r0)) = Ok mem →
      replay_of uuid now (row_to_pending id r) = Ok (ReplayInsert (restamp uuid now mem))) as Hst.
    { intros ? mem [= <-] Ht Hm. by apply replay_of_store. }
    destruct (replay_of _ _ _) as [c|e] eqn:Ec;
      [|split_and!; [done|intros ? ? H1 H2; by destruct (Hno _ _ H1 H2)|done|];
        intros ? mem H1 _ H2 _ H3; by specialize (Hst _ _ H1 H2 H3)].
    assert (∀ r0 mem, Some r = Some r0 → pr_action_type r0 = "store" →
      memory_from_value (pa_payload (row_to_pending id r0)) = Ok mem →
      ∃ mem', mem_metadata mem' = mem_metadata mem
        ∧ (run (gov db) c).1 = (run (gov db) (ReplayInsert mem')).1) as Hins.
    { intros r0 mem H1 H2 H3. specialize (Hst r0 mem H1 H2 H3) as [= ->].
      by exists (restamp uuid now mem). }
    destruct (run (gov db) c) as [g [m|e]] eqn:Er; rewrite ?emit_gov;
      (split_and!; [|intros ? ? H1 H2; by destruct (Hno _ _ H1 H2)|done
        |intros r0 mem H1 _ H2 _ H3; exact (Hins r0 mem H1 H2 H3)]); [|done].
    intros ? [= <-]. exists r, c. by split_and!.
  - rewrite emit_gov. split_and!; [done|by intros|done|]. intros ? mem [= <-] _ _ Hp _.
    assert (Err e = Ok tt) as ?; [|done]. apply Hv. intros who [E|[E _]]; simpl in *; congruence.
Qed.
End ops.

(* ------------------------------------------------------------------ *)
(** * Witnesses *)

(** A vote log as the digits of its encoding. *)
Fixpoint demo_digits (p : positive) : string :=
  match p with
  | xH => "" | xO p => String (Ascii.ascii_of_N 48) (demo_digits p) | xI p => String (Ascii.ascii_of_N 49) (demo_digits p)
  end.
Fixpoint demo_number (s : string) : positive :=
  match s with
  | EmptyString => xH
  | String c s => if decide (c = (Ascii.ascii_of_N 48)) then xO (demo_number s) else xI (demo_number s)
  end.

Lemma demo_digits_number p : demo_number (demo_digits p) = p.
Proof. induction p as [p IH|p IH|]; simpl; by rewrite ?IH. Qed.

Definition demo_log (l : list Approval) : list (string * string) :=
  (λ a, (vote_agent_id a, vote_approved_at a)) <$> l.

#[local] Instance demo_approvals : ApprovalSerde := {|
  approvals_to_string l := demo_digits (encode (demo_log l));
  approvals_from_str s :=
    if decide (s = "[]") then Some []
    else (λ l : list (string * string), (λ kv, mkApproval kv.1 kv.2) <$> l) <$> decode (demo_number s)
|}.

#[local] Instance demo_approvals_laws : ApprovalSerdeLaws demo_approvals.
Proof.
  split; [|done]. intros l. simpl. rewrite decide_False by (by destruct (encode (demo_log l))).
  rewrite demo_digits_number, decode_encode. simpl. f_equal. unfold demo_log.
  rewrite <-list_fmap_compose. rewrite <-(list_fmap_id l) at 2. apply list_fmap_ext. by intros ? [? ?] ?.
Qed.

#[local] Instance demo_json : JsonCodec := {| json_to_string _ := "{}"; json_from_str _ := None |}.
#[local] Instance demo_memories : MemorySerde := λ _, Err "no store".

Definition demo_quorum : CorePolicy :=
  mkPolicy LevelApprove LevelAny LevelOwner (ApproverConsensus 2) true None None.

#[local] Instance demo_policies : PolicySerde :=
  λ v, match v with JObject [] => Some demo_quorum | _ => None end.

Definition demo_agent (name : string) : Memory :=
  mkMemory name None Long AGENTS_NAMESPACE (agent_registration_title name) "" [] 5 f64_one "api" 0 "" ""
    None None (JObject []) 0 KindObservation None None [] None None CallerProvided None None
    default_memory_version LifeOpen.

Definition demo_row : PendingRow :=
  mkPending "delete" (Some "m1") "a/x" "{}" "ai:req" "2026-01-01" "pending" None None "[]" None None.

(** A queued deletion under a standard that asks for two votes. *)
Definition demo_queue : ApprDb :=
  mkAppr
    (mkGovDb {["std" := demo_standard; "m2" := demo_agent "alice"; "m3" := demo_agent "Bob"]}
       (namespace_meta demo_db) {["p1" := demo_row]}) [].

Lemma consensus_exact_witness :
  pr_status <$> rows (ballots (λ _, true) None "p1" Http demo_queue
    [("t1", "alice"); ("t2", "alice"); ("t3", "eve"); ("t4", "Bob")]) !! "p1" = Some "approved".
Proof.
  destruct (consensus_exact (PS := demo_policies) (λ _, true) None Http demo_queue "p1" demo_row
    [("t1", "alice"); ("t2", "alice"); ("t3", "eve"); ("t4", "Bob")] demo_quorum 2
    eq_refl eq_refl eq_refl ltac:(vm_compute; reflexivity) eq_refl ltac:(done)) as (r' & -> & H).
  simpl. rewrite H. vm_compute. reflexivity.
Defined.

Lemma pending_lifecycle_witness :
  ∃ r', rows (decide_pending_action (λ _, true) "t1" demo_queue "p1" false "ai:owner").1 !! "p1" = Some r'
    ∧ request_of r' = request_of demo_row.
Proof.
  destruct (pending_lifecycle (C := demo_crypto) (λ _, true) demo_queue
    (decide_pending_action (λ _, true) "t1" demo_queue "p1" false "ai:owner").1 "p1" demo_row
    ltac:(apply rtc_once, step_reject) eq_refl) as (r' & H1 & H2 & _).
  by exists r'.
Defined.

(** A namespace without a standard: any registered agent but the requester. *)
Definition demo_human : PendingRow :=
  mkPending "delete" (Some "m1") "other" "{}" "ai:req" "2026-01-01" "pending" None None "[]" None None.
Definition demo_human_queue : ApprDb :=
  mkAppr (with_pending (gov demo_queue) {["p2" := demo_human]}) [].

Lemma stale_replay_reopens_witness :
  (approve_with_approver_type (λ _, true) None "t2"
     (upsert_pending_action
        (decide_pending_action (λ _, true) "t1" demo_human_queue "p2" false "ai:owner").1
        (row_to_pending "p2" demo_human)) "p2" "alice" Http).2 = OutApproved.
Proof.
  apply (stale_replay_reopens (λ _, true) None Http demo_human_queue "p2" demo_human "alice" "ai:owner"
    "t1" "t2" eq_refl eq_refl).
  unfold may_approve. replace (resolve_governance_policy _ _) with (@None CorePolicy)
    by (vm_compute; reflexivity).
  simpl. intros _. split; [done|]. by exists "m2", (demo_agent "alice").
Defined.
