(* ===== verification/Ledger.v ===== *)
(** The append-only audit ledger: the canonical bytes of a row, the writer
    that links a row to its predecessor, the verifier of links, sequence and
    per-row signatures, the gap scan and the off-table verdicts
    ([src/src/signed_events.rs]). The hash and the signature scheme are an
    interface. *)
From S2P Require Import Prelude.
From S2P Require Import Bytes.
From S2P Require Import SecretScreen.

(* ------------------------------------------------------------------ *)
(** * Rows *)

Record SignedEvent : Type := mkSigned {
  se_id : string;
  se_agent_id : string;
  se_event_type : string;
  se_payload_hash : bytes;
  se_signature : option bytes;
  se_attest_level : string;
  se_timestamp : string;
  se_prev_hash : bytes;
  se_sequence : Z;
  se_cause_hash : option bytes
}.

(** A row of [signed_events]; the two chain columns are nullable. *)
Record EventRow : Type := mkRow {
  er_id : string;
  er_agent_id : string;
  er_event_type : string;
  er_payload_hash : bytes;
  er_signature : option bytes;
  er_attest_level : string;
  er_timestamp : string;
  er_prev_hash : option bytes;
  er_sequence : option Z;
  er_cause_hash : option bytes
}.

Definition row_to_event (r : EventRow) : SignedEvent :=
  mkSigned (er_id r) (er_agent_id r) (er_event_type r) (er_payload_hash r) (er_signature r)
    (er_attest_level r) (er_timestamp r) (default [] (er_prev_hash r)) (default 0%Z (er_sequence r))
    (er_cause_hash r).

(** The table in insertion order. *)
Abbreviation ledger := (list EventRow).

Definition UNSIGNED : string := "unsigned".
Definition DAEMON_SIGNED : string := "daemon_signed".
Definition RECORDER_SIGNED : string := "recorder_signed".
Definition LINEAGE_SIGNED : string := "lineage_signed".
Definition GOVERNANCE_CHECK_EVENT_TYPE : string := "governance.check".

Definition ZERO_HASH : bytes := replicate 32 Byte.x00.
Definition FIELD_SEP : Byte.byte := Byte.x1f.
Definition separator_free (s : string) : Prop := FIELD_SEP ∉ str_bytes s.
Definition DAEMON_ROW_SIG_DOMAIN : bytes := str_bytes "ai-memory/signed-events/row-v1" ++ [Byte.x00].
Definition CAUSE_PREIMAGE_DOMAIN : bytes := str_bytes "audit-cause-v1" ++ [Byte.x00].
Definition DOMAIN_RECORDER : bytes := str_bytes "ai-memory:gov-recorder:v1" ++ [Byte.x1f].

(** SHA-256 and Ed25519. *)
Class LedgerCrypto : Type := {
  sha256 : bytes → bytes;
  VerifyingKey : Type;
  verify_strict : VerifyingKey → bytes → bytes → bool
}.

Class LedgerCryptoLaws (C : LedgerCrypto) : Prop := {
  sha256_length : ∀ b, length (sha256 b) = 32
}.

(* ------------------------------------------------------------------ *)
(** * Encodings *)

(** The present-only cause, with its presence tag. *)
Definition tagged (o : option bytes) : bytes :=
  match o with Some c => Byte.x01 :: len_prefixed c | None => [Byte.x00] end.

Definition canonical_chain_bytes (e : SignedEvent) : bytes :=
  len_prefixed (str_bytes (se_id e))
  ++ len_prefixed (str_bytes (se_agent_id e))
  ++ len_prefixed (str_bytes (se_event_type e))
  ++ len_prefixed (se_payload_hash e)
  ++ len_prefixed (default [] (se_signature e))
  ++ len_prefixed (str_bytes (se_attest_level e))
  ++ len_prefixed (str_bytes (se_timestamp e))
  ++ be64 (se_sequence e)
  ++ tagged (se_cause_hash e).

(** What the daemon key signs, before hashing. *)
Definition daemon_row_preimage (e : SignedEvent) : bytes :=
  DAEMON_ROW_SIG_DOMAIN
  ++ len_prefixed (str_bytes (se_id e))
  ++ len_prefixed (str_bytes (se_agent_id e))
  ++ len_prefixed (str_bytes (se_event_type e))
  ++ len_prefixed (str_bytes (se_attest_level e))
  ++ len_prefixed (str_bytes (se_timestamp e))
  ++ be64 (se_sequence e)
  ++ len_prefixed (se_payload_hash e)
  ++ tagged (se_cause_hash e).

Section with_crypto.
Context `{C : LedgerCrypto}.

Definition payload_hash (b : bytes) : bytes := sha256 b.

Definition signing_input_bytes (payload : bytes) (cause : option bytes) : bytes :=
  match cause with
  | Some cause => sha256 (payload ++ [FIELD_SEP] ++ cause)
  | None => payload
  end.

Definition daemon_row_signing_input (e : SignedEvent) : bytes := sha256 (daemon_row_preimage e).

Definition recorder_signing_preimage (payload : bytes) (cause : option bytes) : bytes :=
  DOMAIN_RECORDER ++ signing_input_bytes payload cause.

(** Only the screened form of the arguments enters the hash. *)
Definition compute_cause_hash {L : Log2} (caller_agent_id action_kind action_id input_args : string) : Run bytes :=
  args ← screened input_args;
  mret (sha256 (CAUSE_PREIMAGE_DOMAIN ++ str_bytes caller_agent_id ++ [FIELD_SEP]
                ++ str_bytes action_kind ++ [FIELD_SEP] ++ str_bytes action_id ++ [FIELD_SEP]
                ++ payload_hash (str_bytes args))).

(** [try_sign] signs with the installed daemon key, if there is one. *)
Definition with_daemon_signature (try_sign : bytes → option bytes) (uuid : string) (payload : bytes)
    (agent_id event_type timestamp : string) (cause : option bytes) : SignedEvent :=
  let signature := try_sign (signing_input_bytes payload cause) in
  mkSigned uuid agent_id event_type payload signature
    (match signature with Some _ => DAEMON_SIGNED | None => UNSIGNED end) timestamp [] 0 cause.

(* ------------------------------------------------------------------ *)
(** * Appending *)

Definition digest (e : SignedEvent) : bytes := sha256 (canonical_chain_bytes e).

(** [ORDER BY sequence DESC, rowid DESC LIMIT 1] over the numbered rows: of
    equal sequences the later row wins. *)
Definition newer (best : option EventRow) (r : EventRow) : option EventRow :=
  match best with
  | None => Some r
  | Some b =>
      if decide (default 0 (er_sequence b) ≤ default 0 (er_sequence r))%Z then Some r else Some b
  end.

Definition head_row (db : ledger) : option EventRow :=
  fold_left newer (List.filter (λ r, is_some (er_sequence r)) db) None.

(** An unnumbered row stops the writer. *)
Definition read_chain_head (db : ledger) : result (Z * bytes) string :=
  if existsb (λ r, negb (is_some (er_sequence r))) db
  then Err "signed_events row(s) have sequence IS NULL"
  else
    match head_row db with
    | None => Ok (0%Z, ZERO_HASH)
    | Some prev => Ok (se_sequence (row_to_event prev), digest (row_to_event prev))
    end.

Definition with_sequence (e : SignedEvent) (n : Z) : SignedEvent :=
  mkSigned (se_id e) (se_agent_id e) (se_event_type e) (se_payload_hash e) (se_signature e)
    (se_attest_level e) (se_timestamp e) (se_prev_hash e) n (se_cause_hash e).

(** A daemon-signed row is signed again, now that it has its number. *)
Definition resign (try_sign : bytes → option bytes) (e : SignedEvent) (next_seq : Z) : option bytes :=
  if bool_decide (se_attest_level e = DAEMON_SIGNED) && is_some (se_signature e) then
    match try_sign (daemon_row_signing_input (with_sequence e next_seq)) with
    | Some sig => Some sig
    | None => se_signature e
    end
  else se_signature e.

(** The insert fails on a repeated id or number. *)
Definition append_signed_event_no_tx (try_sign : bytes → option bytes) (db : ledger) (e : SignedEvent) :
    result ledger string :=
  match read_chain_head db with
  | Err err => Err err
  | Ok (max_seq, prev_hash) =>
      let next_seq := (max_seq + 1)%Z in
      let row :=
        mkRow (se_id e) (se_agent_id e) (se_event_type e) (se_payload_hash e)
          (resign try_sign e next_seq) (se_attest_level e) (se_timestamp e) (Some prev_hash)
          (Some next_seq) (se_cause_hash e) in
      if existsb (λ r, bool_decide (er_id r = se_id e) || bool_decide (er_sequence r = Some next_seq)) db
      then Err "append signed_event"
      else Ok (db ++ [row])
  end.

(* ------------------------------------------------------------------ *)
(** * Verification *)

Record RowSignatureVerdict : Type := mkVerdict {
  signature_failure : bool;
  role_separation_failure : bool
}.

(** A present, non-empty signature of 64 bytes that [ok] accepts. *)
Definition good_signature (sig : option bytes) (ok : bytes → bool) : bool :=
  match sig with
  | Some s => bool_decide (s ≠ []) && bool_decide (length s = 64) && ok s
  | None => false
  end.

Definition classify_row_signature (e : SignedEvent) (daemon_verifier recorder_verifier : option VerifyingKey) :
    RowSignatureVerdict :=
  if decide (se_attest_level e = LINEAGE_SIGNED) then mkVerdict false false
  else if decide (se_attest_level e = RECORDER_SIGNED) then
    match recorder_verifier with
    | None => mkVerdict false false
    | Some rk =>
        let ok :=
          good_signature (se_signature e)
            (verify_strict rk (recorder_signing_preimage (se_payload_hash e) (se_cause_hash e))) in
        mkVerdict false (negb ok)
    end
  else if is_some recorder_verifier && bool_decide (se_attest_level e = DAEMON_SIGNED)
          && bool_decide (se_event_type e = GOVERNANCE_CHECK_EVENT_TYPE)
  then mkVerdict false true
  else
    match daemon_verifier with
    | None => mkVerdict false false
    | Some vk =>
        let failed :=
          match se_signature e with
          | Some (_ :: _ as s) =>
              negb (good_signature (Some s)
                (λ s, verify_strict vk (daemon_row_signing_input e) s
                      || verify_strict vk (signing_input_bytes (se_payload_hash e) (se_cause_hash e)) s))
          | _ => bool_decide (se_attest_level e ≠ UNSIGNED)
          end in
        mkVerdict failed false
    end.

Record ChainVerificationReport : Type := mkReport {
  rows_checked : Z;
  chain_break : option Z;
  signature_failures : list Z;
  role_separation_failures : list Z
}.

Definition chain_holds (r : ChainVerificationReport) : bool := negb (is_some (chain_break r)).

(** The walk's state: the number and predecessor hash the next row must have,
    and the report so far. *)
Record VerifyState : Type := mkVerify {
  expected_seq : Z;
  prev_canonical_hash : bytes;
  report : ChainVerificationReport
}.

Definition flag_break (broken : bool) (seq : Z) (b : option Z) : option Z :=
  match b with
  | Some s => Some s
  | None => if broken then Some seq else None
  end.

Definition verify_row (vk rk : option VerifyingKey) (st : VerifyState) (e : SignedEvent) : VerifyState :=
  let seq := se_sequence e in
  let rep := report st in
  let b := flag_break (bool_decide (seq ≠ expected_seq st)) seq (chain_break rep) in
  let b :=
    flag_break (bool_decide (length (se_prev_hash e) ≠ 32)
                || bool_decide (se_prev_hash e ≠ prev_canonical_hash st)) seq b in
  let rv := classify_row_signature e vk rk in
  mkVerify (seq + 1) (digest e)
    (mkReport (rows_checked rep + 1) b
       (signature_failures rep ++ (if signature_failure rv then [seq] else []))
       (role_separation_failures rep ++ (if role_separation_failure rv then [seq] else []))).

Definition by_sequence (a b : SignedEvent) : Prop := (se_sequence a ≤ se_sequence b)%Z.
#[global] Instance by_sequence_dec : RelDecision by_sequence.
Proof. unfold RelDecision, by_sequence. apply _. Defined.

#[global] Instance by_sequence_trans : Transitive by_sequence.
Proof. unfold by_sequence. intros x y z ??. lia. Qed.
#[global] Instance by_sequence_total : Total by_sequence.
Proof. unfold by_sequence. intros x y. lia. Qed.

(** The rows above a floor, in sequence order. *)
Definition window (db : ledger) (lower : Z) : list SignedEvent :=
  stable_sort by_sequence
    (List.filter (λ e, bool_decide (lower < se_sequence e)%Z) (row_to_event <$> db)).

(** The hash the first row of a window must name. *)
Definition floor_hash (db : ledger) (lower : Z) : bytes :=
  if decide (0 < lower)%Z then
    from_option digest ZERO_HASH
      (List.find (λ e, bool_decide (se_sequence e = lower)) (row_to_event <$> db))
  else ZERO_HASH.

(** [vk] and [rk] are the resolved daemon and recorder keys. *)
Definition verify_chain (vk rk : option VerifyingKey) (db : ledger) (since_sequence : option Z) :
    ChainVerificationReport :=
  let lower := default 0%Z since_sequence in
  report
    (fold_left (verify_row vk rk) (window db lower)
       (mkVerify (lower + 1) (floor_hash db lower) (mkReport 0 None [] []))).
End with_crypto.

(* ------------------------------------------------------------------ *)
(** * Gaps and off-table verdicts *)

(** [COALESCE(MAX(..), 0)]. *)
Definition max_or_0 (l : list Z) : Z :=
  match l with [] => 0%Z | n :: l => foldr Z.max n l end.

Definition head_sequence (db : ledger) : Z := max_or_0 (omap er_sequence db).

(** [SELECT COALESCE(MAX(sequence), 0) .. WHERE timestamp < since]. *)
Definition since_floor (db : ledger) (since : option string) : Z :=
  match since with
  | None => 0%Z
  | Some ts =>
      max_or_0
        (omap er_sequence (List.filter (λ r, bool_decide (er_timestamp r ≤ ts)%string
                                             && negb (bool_decide (er_timestamp r = ts))) db))
  end.

(** The holes before each present number; the walk realigns past each row. *)
Fixpoint gap_scan (expected : Z) (seqs : list Z) : list (Z * Z) :=
  match seqs with
  | [] => []
  | seq :: seqs' =>
      (if decide (expected < seq)%Z then [(expected, seq - 1)%Z] else []) ++ gap_scan (seq + 1) seqs'
  end.

Definition sequence_gaps (db : ledger) (floor : Z) : list (Z * Z) :=
  gap_scan (floor + 1)
    (stable_sort Z.le (List.filter (λ n, bool_decide (floor < n)%Z) (omap er_sequence db))).

Inductive TruncationCheck : Type :=
| TruncationUnknown | TruncationNotDetected | TruncationDetected (anchored_head db_head : Z).

(** The anchor's hash is read and not compared. *)
Definition truncation_verdict (db_head : Z) (watermark : option (Z * bytes)) : TruncationCheck :=
  match watermark with
  | Some (anchored_head, _) =>
      if decide (db_head < anchored_head)%Z then TruncationDetected anchored_head db_head
      else TruncationNotDetected
  | None => TruncationUnknown
  end.

Inductive CauseBinding : Type :=
| CauseUnknown | CauseNotDetected | CauseDetected (rows_without_cause : Z).

Definition compute_cause_binding_verdict (rows_without_cause : Z) (require : bool) : CauseBinding :=
  if decide (rows_without_cause ≤ 0)%Z then CauseNotDetected
  else if require then CauseDetected rows_without_cause
  else CauseUnknown.

Inductive RollbackCheck : Type :=
| RollbackUnknown | RollbackNotDetected
| RollbackEvidence (anchored_head db_head : Z) | RollbackSanctioned (anchored_head db_head : Z)
| RollbackMissing.

Definition compute_rollback_verdict (db_head : Z) (anchored_head : option Z) (sanctioned require : bool) :
    RollbackCheck :=
  match anchored_head with
  | None => if require then RollbackMissing else RollbackUnknown
  | Some anchored =>
      if decide (anchored ≤ db_head)%Z then RollbackNotDetected
      else if sanctioned then RollbackSanctioned anchored db_head
      else RollbackEvidence anchored db_head
  end.

(* ------------------------------------------------------------------ *)
(** * Specification *)

(** What the canonical bytes commit to: every column but the link itself,
    an absent and an empty signature alike. *)
Definition committed (e : SignedEvent) :=
  (se_id e, se_agent_id e, se_event_type e, se_payload_hash e, default [] (se_signature e),
   se_attest_level e, se_timestamp e, se_sequence e, se_cause_hash e).

(** Lengths fit a [u64], the number an [i64]. *)
Definition fits (e : SignedEvent) : Prop :=
  Forall (λ f : bytes, (Z.of_nat (length f) < 2 ^ 64)%Z)
    [str_bytes (se_id e); str_bytes (se_agent_id e); str_bytes (se_event_type e);
     se_payload_hash e; default [] (se_signature e); str_bytes (se_attest_level e);
     str_bytes (se_timestamp e); default [] (se_cause_hash e)]
  ∧ (- 2 ^ 63 ≤ se_sequence e < 2 ^ 63)%Z.

Section spec.
Context `{C : LedgerCrypto}.

(** Two inputs of the hash with one output. *)
Definition collision : Prop := ∃ a b, a ≠ b ∧ sha256 a = sha256 b.

Definition links (h : bytes) (n : Z) (e : SignedEvent) : Prop :=
  se_sequence e = n ∧ se_prev_hash e = h ∧ length (se_prev_hash e) = 32.

(** Consecutive numbers from [n], each row naming the hash of the one before. *)
Fixpoint linked (h : bytes) (n : Z) (l : list SignedEvent) : Prop :=
  match l with [] => True | e :: l' => links h n e ∧ linked (digest e) (n + 1) l' end.

(** A table whose rows are linked in the order they were inserted. *)
Definition intact (db : ledger) : Prop :=
  linked ZERO_HASH 1 (row_to_event <$> db) ∧ Forall (λ r, is_Some (er_sequence r)) db.

(** The tables the writer can have produced. *)
Inductive written (try_sign : bytes → option bytes) : ledger → Prop :=
| written_nil : written try_sign []
| written_append db e db' :
    written try_sign db → append_signed_event_no_tx try_sign db e = Ok db' → written try_sign db'.

(* ------------------------------------------------------------------ *)
(** * Lemmas: encodings *)

Lemma split_at_separator a b x y :
  FIELD_SEP ∉ a → FIELD_SEP ∉ b → a ++ FIELD_SEP :: x = b ++ FIELD_SEP :: y → a = b ∧ x = y.
Proof.
  revert b. induction a as [|c a IH]; intros [|d b] Ha Hb E; simplify_eq/=; try done.
  - by destruct Hb; left.
  - by destruct Ha; left.
  - apply not_elem_of_cons in Ha as [_ Ha], Hb as [_ Hb]. destruct (IH b Ha Hb) as [-> ->]; done.
Qed.

Lemma tagged_inj a b :
  (Z.of_nat (length (default [] a)) < 2 ^ 64)%Z → (Z.of_nat (length (default [] b)) < 2 ^ 64)%Z →
  tagged a = tagged b → a = b.
Proof.
  destruct a as [a|], b as [b|]; simpl; intros Ha Hb E; try discriminate; [|done].
  apply (f_equal tail) in E. simpl in E. rewrite <-(app_nil_r (len_prefixed a)), <-(app_nil_r (len_prefixed b)) in E.
  apply len_prefixed_inj in E as [-> _]; done.
Qed.

(** Read a length-prefixed field off both sides of an equation. *)
Ltac read_field E :=
  let F := fresh "F" in
  apply len_prefixed_inj in E as [F E]; [|assumption|assumption].

Lemma canonical_reads e e' :
  fits e → fits e' → canonical_chain_bytes e = canonical_chain_bytes e' → committed e = committed e'.
Proof.
  intros [Hf Hs] [Hf' Hs'] E. rewrite !Forall_cons in Hf, Hf'.
  destruct Hf as (? & ? & ? & ? & ? & ? & ? & ? & _), Hf' as (? & ? & ? & ? & ? & ? & ? & ? & _).
  unfold canonical_chain_bytes in E. do 7 read_field E.
  apply app_inj_1 in E as [En E]; [|by unfold be64; rewrite !length_be_bytes].
  apply be64_inj in En; [|done|done]. apply tagged_inj in E; [|done|done].
  unfold committed. repeat match goal with H : str_bytes _ = str_bytes _ |- _ => apply str_bytes_inj in H end.
  congruence.
Qed.

Lemma digest_inj e e' :
  fits e → fits e' → digest e = digest e' → committed e = committed e' ∨ collision.
Proof.
  intros Hf Hf' E. destruct (decide (canonical_chain_bytes e = canonical_chain_bytes e')) as [Hc|Hc].
  - left. by apply canonical_reads.
  - right. by exists (canonical_chain_bytes e), (canonical_chain_bytes e').
Qed.

(** The digest does not see the link column. *)
Lemma digest_committed e e' : committed e = committed e' → digest e = digest e'.
Proof.
  intros E. unfold committed in E. simplify_eq. unfold digest, canonical_chain_bytes. congruence.
Qed.

(* ------------------------------------------------------------------ *)
(** * Lemmas: links and the walk *)

#[local] Instance links_dec h n e : Decision (links h n e).
Proof. unfold links. apply _. Defined.

Lemma linked_app h n l1 l2 :
  linked h n (l1 ++ l2) ↔
  linked h n l1 ∧ linked (default h (digest <$> last l1)) (n + Z.of_nat (length l1)) l2.
Proof.
  revert h n. induction l1 as [|e l1 IH]; intros h n; simpl.
  { rewrite Z.add_0_r. naive_solver. }
  rewrite IH. replace (n + 1 + Z.of_nat (length l1))%Z with (n + Z.of_nat (S (length l1)))%Z by lia.
  destruct l1 as [|x l1]; [simpl; tauto|].
  change (last (e :: x :: l1)) with (last (x :: l1)).
  assert (is_Some (last (x :: l1))) as [y ->] by (by apply last_is_Some). simpl. tauto.
Qed.

(** The numbers of a linked list are consecutive. *)
Lemma linked_numbers h n l : linked h n l → se_sequence <$> l = seqZ n (Z.of_nat (length l)).
Proof.
  revert h n. induction l as [|e l IH]; intros h n; [done|]. intros [(Hn & _) Hl].
  rewrite fmap_cons, (IH _ _ Hl), Hn. cbn [length]. rewrite Nat2Z.inj_succ, (seqZ_cons n) by lia.
  f_equal. f_equal; lia.
Qed.

(** The number of the first row that does not link. *)
Fixpoint first_break (h : bytes) (n : Z) (l : list SignedEvent) : option Z :=
  match l with
  | [] => None
  | e :: l' => if decide (links h n e) then first_break (digest e) (n + 1) l' else Some (se_sequence e)
  end.

Lemma first_break_None h n l : first_break h n l = None ↔ linked h n l.
Proof.
  revert h n. induction l as [|e l IH]; intros h n; simpl; [done|].
  case_decide as Hd; [rewrite IH; tauto|]. split; [done|]. by intros [? _].
Qed.

Lemma first_break_Some h n l s :
  first_break h n l = Some s → ∃ pre e post, l = pre ++ e :: post ∧ linked h n pre
    ∧ ¬ linked h n (pre ++ [e]) ∧ s = se_sequence e.
Proof.
  revert h n. induction l as [|e l IH]; intros h n; simpl; [done|]. case_decide as Hd.
  - intros (pre & e' & post & -> & H1 & H2 & H3)%IH. exists (e :: pre), e', post.
    split_and!; [done|done| |done]. simpl. by intros [_ ?].
  - intros [= <-]. exists [], e, l. split_and!; try done. simpl. by intros [? _].
Qed.

Definition failing (vk rk : option VerifyingKey) (p : RowSignatureVerdict → bool) (l : list SignedEvent) :
    list Z :=
  se_sequence <$> List.filter (λ e, p (classify_row_signature e vk rk)) l.

Lemma failing_cons vk rk p e l :
  failing vk rk p (e :: l) =
  (if p (classify_row_signature e vk rk) then [se_sequence e] else []) ++ failing vk rk p l.
Proof. unfold failing. simpl. by destruct (p _). Qed.

Lemma verify_fold vk rk l n h cnt b sf rf :
  report (fold_left (verify_row vk rk) l (mkVerify n h (mkReport cnt b sf rf))) =
  mkReport (cnt + Z.of_nat (length l))
    (match b with Some s => Some s | None => first_break h n l end)
    (sf ++ failing vk rk signature_failure l) (rf ++ failing vk rk role_separation_failure l).
Proof.
  revert n h cnt b sf rf. induction l as [|e l IH]; intros n h cnt b sf rf; simpl.
  { rewrite Z.add_0_r, !app_nil_r. by destruct b. }
  unfold verify_row at 2. simpl. rewrite IH. rewrite !failing_cons, !app_assoc.
  f_equal; [lia|]. destruct b as [s|]; simpl; [done|].
  unfold flag_break. case_decide as Hd.
  - destruct Hd as (Hn & Hh & Hlen). rewrite !bool_decide_false by auto. simpl.
    by rewrite Hn.
  - destruct (decide (se_sequence e = n)) as [Hn|Hn];
      [|by rewrite (bool_decide_true (se_sequence e ≠ n))].
    rewrite (bool_decide_false (se_sequence e ≠ n)) by auto.
    destruct (decide (se_prev_hash e = h)) as [Hh|Hh];
      [|by rewrite (bool_decide_true (se_prev_hash e ≠ h)), orb_true_r].
    destruct (decide (length (se_prev_hash e) = 32)) as [Hl|Hl];
      [by destruct Hd|by rewrite (bool_decide_true (length _ ≠ 32))].
Qed.

Lemma verify_chain_eq vk rk db since :
  let lower := default 0%Z since in
  let l := window db lower in
  verify_chain vk rk db since =
  mkReport (Z.of_nat (length l)) (first_break (floor_hash db lower) (lower + 1) l)
    (failing vk rk signature_failure l) (failing vk rk role_separation_failure l).
Proof. intros lower l. unfold verify_chain. by rewrite verify_fold. Qed.

(** A linked list is its own window. *)
Lemma window_linked db h n :
  (0 < n)%Z → linked h n (row_to_event <$> db) → window db 0 = row_to_event <$> db.
Proof.
  intros Hn Hl. unfold window. set (l := row_to_event <$> db) in *.
  pose proof (linked_numbers h n l Hl) as Hnum.
  assert (∀ e, e ∈ l → (n ≤ se_sequence e)%Z) as Hpos.
  { intros e He. assert (se_sequence e ∈ se_sequence <$> l) as Hin by (by apply list_elem_of_fmap_2).
    rewrite Hnum, elem_of_seqZ in Hin. lia. }
  rewrite (forallb_filter_id _ l).
  2: { apply forallb_forall. intros e He%list_elem_of_In. apply bool_decide_eq_true. specialize (Hpos e He). lia. }
  assert (∀ h n, linked h n l → StronglySorted by_sequence l) as Hss.
  { clear. induction l as [|e l IH]; intros h n; [constructor|]. intros Hl. pose proof Hl as [_ Hl'].
    constructor; [by eapply IH|]. apply Forall_forall. intros x Hx. unfold by_sequence.
    pose proof (linked_numbers _ _ _ Hl) as Hnum. rewrite fmap_cons in Hnum. cbn [length] in Hnum.
    rewrite Nat2Z.inj_succ, seqZ_cons in Hnum by lia. injection Hnum as -> Hnum.
    assert (se_sequence x ∈ se_sequence <$> l) as Hin by (by apply list_elem_of_fmap_2).
    rewrite Hnum, elem_of_seqZ in Hin. lia. }
  apply (StronglySorted_unique_strong by_sequence).
  - intros x y Hx Hy Hxy Hyx. rewrite (stable_sort_Permutation by_sequence l) in Hx.
    apply list_elem_of_lookup_1 in Hx as [i Hi], Hy as [j Hj].
    assert (i = j) as ->; [|congruence].
    assert (NoDup (se_sequence <$> l)) as Hnd by (rewrite Hnum; apply NoDup_seqZ).
    eapply (NoDup_lookup _ _ _ (se_sequence x) Hnd); [by rewrite list_lookup_fmap, Hi|].
    rewrite list_lookup_fmap, Hj. simpl. f_equal. unfold by_sequence in *. lia.
  - apply (StronglySorted_stable_sort by_sequence).
  - by eapply Hss.
  - apply stable_sort_Permutation.
Qed.

Lemma verify_linked vk rk db :
  chain_break (verify_chain vk rk db None) = None ↔ linked ZERO_HASH 1 (window db 0).
Proof. rewrite verify_chain_eq. simpl. apply first_break_None. Qed.

Lemma verify_intact vk rk db :
  intact db →
  let l := row_to_event <$> db in
  verify_chain vk rk db None =
  mkReport (Z.of_nat (length db)) None
    (failing vk rk signature_failure l) (failing vk rk role_separation_failure l).
Proof.
  intros [Hl _] l. rewrite verify_chain_eq. cbn [default].
  rewrite (window_linked db ZERO_HASH 1 ltac:(done) Hl), length_fmap. f_equal.
  by apply first_break_None.
Qed.

Definition tip (db : ledger) : bytes := default ZERO_HASH (digest <$> last (row_to_event <$> db)).

Lemma intact_snoc db r :
  intact (db ++ [r]) ↔
  intact db ∧ links (tip db) (1 + Z.of_nat (length db)) (row_to_event r) ∧ is_Some (er_sequence r).
Proof.
  unfold intact, tip. rewrite fmap_app, linked_app, Forall_app, Forall_singleton, length_fmap. simpl. tauto.
Qed.

Lemma row_number r n :
  is_Some (er_sequence r) → se_sequence (row_to_event r) = n → er_sequence r = Some n.
Proof. intros [m Hm]. unfold row_to_event. simpl. rewrite Hm. simpl. by intros ->. Qed.

Lemma intact_numbers db : intact db → omap er_sequence db = seqZ 1 (Z.of_nat (length db)).
Proof.
  intros [Hl Hs]. apply linked_numbers in Hl. rewrite length_fmap in Hl. rewrite <-Hl. clear Hl.
  induction Hs as [|r db [n Hn] _ IH]; [done|]. rewrite !fmap_cons. simpl. rewrite Hn. simpl.
  by f_equal.
Qed.

Lemma intact_head db : intact db → head_row db = last db.
Proof.
  induction db as [|r db IH] using rev_ind; [done|]. intros (Hi & (Hn & _) & Hs)%intact_snoc.
  unfold head_row in *. rewrite List.filter_app, fold_left_app. simpl.
  rewrite (IH Hi), last_snoc. apply row_number in Hn as Hr; [|done]. rewrite Hr. simpl.
  destruct (last db) as [b|] eqn:Hb; simpl; [|done].
  apply last_Some in Hb as [db0 ->]. apply intact_snoc in Hi as (_ & (Hb & _) & Hsb).
  apply row_number in Hb; [|done]. rewrite Hb, Hr. simpl. rewrite decide_True; [done|].
  rewrite length_app. lia.
Qed.

Lemma intact_read db : intact db → read_chain_head db = Ok (Z.of_nat (length db), tip db).
Proof.
  intros Hi. unfold read_chain_head. pose proof Hi as [_ Hs].
  rewrite (proj2 (existsb_false_iff _ db)).
  2: { intros r Hr. rewrite Forall_forall in Hs. by destruct (Hs r Hr) as [n ->]. }
  rewrite (intact_head db Hi). unfold tip. rewrite fmap_last.
  destruct (last db) as [b|] eqn:Hb; simpl; [|by apply last_None in Hb as ->].
  apply last_Some in Hb as [db0 ->]. apply intact_snoc in Hi as (_ & (Hn & _) & _).
  simpl in Hn. rewrite Hn, length_app. simpl. do 2 f_equal. lia.
Qed.

(** The row the writer adds. *)
Lemma append_cases `{CL : !LedgerCryptoLaws C} try_sign db e :
  intact db →
  match append_signed_event_no_tx try_sign db e with
  | Ok db' =>
      se_id e ∉ er_id <$> db ∧ ∃ r, db' = db ++ [r] ∧ intact db'
      ∧ committed (row_to_event r) = committed (mkSigned (se_id e) (se_agent_id e) (se_event_type e)
          (se_payload_hash e) (resign try_sign e (1 + Z.of_nat (length db))) (se_attest_level e)
          (se_timestamp e) [] (1 + Z.of_nat (length db)) (se_cause_hash e))
  | Err _ => se_id e ∈ er_id <$> db
  end.
Proof.
  intros Hi. unfold append_signed_event_no_tx. rewrite (intact_read db Hi).
  rewrite (Z.add_comm (Z.of_nat (length db)) 1).
  assert (∀ r, r ∈ db → er_sequence r ≠ Some (1 + Z.of_nat (length db))%Z) as Hfresh.
  { intros r Hr E. assert ((1 + Z.of_nat (length db))%Z ∈ omap er_sequence db) as Hin
      by (apply list_elem_of_omap; by exists r).
    rewrite (intact_numbers db Hi), elem_of_seqZ in Hin. lia. }
  destruct (existsb _ db) eqn:Hex.
  - apply existsb_exists in Hex as (r & Hr%list_elem_of_In & [E|E]%orb_true_iff);
      rewrite bool_decide_eq_true in E; [|by destruct (Hfresh r Hr)].
    rewrite <-E. by apply list_elem_of_fmap_2.
  - rewrite existsb_false_iff in Hex. split.
    + intros (r & E & Hr)%list_elem_of_fmap. specialize (Hex r Hr).
      rewrite orb_false_iff, bool_decide_eq_false in Hex. naive_solver.
    + eexists. split; [done|]. split; [|done]. apply intact_snoc. split_and!; [done| |by eexists].
      split_and!; [done..|]. simpl. unfold tip. destruct (digest <$> last _) as [d|] eqn:E; [|done].
      apply fmap_Some in E as (x & _ & ->). apply sha256_length.
Qed.

Lemma written_intact `{CL : !LedgerCryptoLaws C} try_sign db : written try_sign db → intact db.
Proof.
  induction 1 as [|db e db' _ IH Happ]; [by split|].
  pose proof (append_cases try_sign db e IH) as H. rewrite Happ in H. by destruct H as (_ & r & -> & ? & _).
Qed.

(* ------------------------------------------------------------------ *)
(** * Lemmas: gaps *)

Lemma gap_scan_spec expected l n :
  StronglySorted Z.le l → (∀ x, x ∈ l → (expected - 1 ≤ x)%Z) →
  (∃ a b, (a, b) ∈ gap_scan expected l ∧ (a ≤ n ≤ b)%Z) ↔
  (expected ≤ n)%Z ∧ n ∉ l ∧ ∃ m, m ∈ l ∧ (n < m)%Z.
Proof.
  intros Hs. revert expected. induction Hs as [|x l Hs IH Hx]; intros expected Hlow; simpl.
  { split; [by intros (? & ? & ?%elem_of_nil & _)|by intros (_ & _ & ? & ?%elem_of_nil & _)]. }
  rewrite Forall_forall in Hx. specialize (IH (x + 1)%Z).
  assert (∀ y, y ∈ l → (x + 1 - 1 ≤ y)%Z) as Hlow' by (intros y Hy; specialize (Hx y Hy); lia).
  specialize (IH Hlow'). assert (expected - 1 ≤ x)%Z as Hex by (apply Hlow; by left).
  setoid_rewrite elem_of_app. split.
  - intros (a & b & [Hg|Hg] & Hn).
    + case_decide; [|by apply elem_of_nil in Hg]. apply list_elem_of_singleton in Hg as [= -> ->].
      split_and!; [lia| |exists x; split; [by left|lia]].
      intros [->|Hin]%elem_of_cons; [lia|]. specialize (Hx n Hin). lia.
    + destruct (proj1 IH) as (H1 & H2 & m & Hm & H3); [by exists a, b|].
      split_and!; [lia| |exists m; split; [by right|done]].
      intros [->|Hin]%elem_of_cons; [lia|done].
  - intros (H1 & H2 & m & Hm & H3). apply not_elem_of_cons in H2 as [Hnx Hnl].
    destruct (decide (n < x)%Z) as [Hlt|Hge].
    + exists expected, (x - 1)%Z. split; [left|lia]. rewrite decide_True by lia. by left.
    + assert (m ∈ l) as Hml by (apply elem_of_cons in Hm as [->|?]; [lia|done]).
      destruct (proj2 IH) as (a & b & Hg & Hn); [split_and!; [lia|done|by exists m]|].
      exists a, b. split; [by right|done].
Qed.

Lemma gap_scan_seqZ a k : gap_scan a (seqZ a k) = [].
Proof.
  destruct (Z_le_gt_dec 0 k); [|by rewrite seqZ_nil by lia].
  revert a. apply (natlike_ind (λ k, ∀ a, gap_scan a (seqZ a k) = [])); [by intros|intros j Hj IH a|lia].
  rewrite seqZ_cons by lia. simpl. rewrite decide_False by lia. simpl.
  replace (Z.succ a) with (a + 1)%Z by lia. rewrite Z.pred_succ. apply IH.
Qed.

Lemma intact_seqs db : intact db →
  stable_sort Z.le (List.filter (λ n, bool_decide (0 < n)%Z) (omap er_sequence db)) =
  seqZ 1 (Z.of_nat (length db)).
Proof.
  intros Hi. rewrite (intact_numbers db Hi). rewrite forallb_filter_id.
  2: { apply forallb_forall. intros n Hn. apply list_elem_of_In, elem_of_seqZ in Hn. apply bool_decide_eq_true. lia. }
  apply (StronglySorted_unique Z.le); [apply (StronglySorted_stable_sort Z.le)| |apply stable_sort_Permutation].
  apply Sorted_StronglySorted; [intros x y z; lia|]. generalize (length db). intros k.
  assert (∀ a, Sorted Z.le (seqZ a (Z.of_nat k))) as H; [|apply H].
  induction k as [|k IH]; intros a; [constructor|]. rewrite Nat2Z.inj_succ, seqZ_cons by lia.
  rewrite Z.pred_succ. constructor; [apply IH|]. destruct k as [|k]; [constructor|].
  rewrite Nat2Z.inj_succ, seqZ_cons by lia. constructor. lia.
Qed.

Lemma intact_max db : intact db → head_sequence db = Z.of_nat (length db).
Proof.
  intros Hi. unfold head_sequence. rewrite (intact_numbers db Hi).
  destruct db as [|r db]; [done|]. simpl length. rewrite Nat2Z.inj_succ, seqZ_cons by lia.
  rewrite Z.pred_succ. simpl. generalize (length db). intros k.
  assert (∀ a b, (b ≤ a)%Z → foldr Z.max b (seqZ (Z.succ a) (Z.of_nat k)) =
    if decide (k = 0) then b else (a + Z.of_nat k)%Z) as H.
  { induction k as [|k IH]; intros a b Hab; [done|]. rewrite Nat2Z.inj_succ, seqZ_cons by lia.
    rewrite Z.pred_succ. simpl. rewrite (IH (Z.succ a)) by lia. repeat case_decide; lia. }
  rewrite H by lia. case_decide; lia.
Qed.

(* ------------------------------------------------------------------ *)
(** * Theorems *)

(** The encoding of a row can be read back: two rows whose fields fit
    their length prefixes and whose canonical bytes agree agree in every
    column but the link (and an absent signature reads as an empty one). *)
Lemma canonical_injective e e' :
  fits e → fits e' → canonical_chain_bytes e = canonical_chain_bytes e' → committed e = committed e'.
Proof. apply canonical_reads. Qed.

(** The verifier walks every row above its floor once, reports no break
    exactly when the rows are consecutively numbered and each names the hash
    of the one before it, reports as its break the first row for which this
    fails, and lists exactly the rows whose signatures fail. *)
Lemma verify_chain_exact vk rk db since :
  let lower := default 0%Z since in
  let l := window db lower in
  let rep := verify_chain vk rk db since in
  rows_checked rep = Z.of_nat (length l)
  ∧ (chain_break rep = None ↔ linked (floor_hash db lower) (lower + 1) l)
  ∧ (∀ s, chain_break rep = Some s → ∃ pre e post, l = pre ++ e :: post
       ∧ linked (floor_hash db lower) (lower + 1) pre
       ∧ ¬ linked (floor_hash db lower) (lower + 1) (pre ++ [e]) ∧ s = se_sequence e)
  ∧ (∀ s, s ∈ signature_failures rep ↔
       ∃ e, e ∈ l ∧ signature_failure (classify_row_signature e vk rk) = true ∧ s = se_sequence e).
Proof.
  intros lower l rep. subst rep. rewrite verify_chain_eq. simpl. fold lower l. split_and!; [done| | |].
  - apply first_break_None.
  - intros s. apply first_break_Some.
  - intros s. unfold failing. rewrite list_elem_of_fmap. setoid_rewrite elem_of_list_filter_bool. naive_solver.
Qed.

(** Writer and verifier agree: a table only ever appended to is linked
    without a break or a gap, numbered from one to its length; an append
    fails exactly on a repeated id, and otherwise adds one row with the
    event's columns, the next number, and a signature over them when the
    daemon signs. *)
Lemma writer_verifies `{CL : !LedgerCryptoLaws C} try_sign vk rk db :
  written try_sign db →
  let n := Z.of_nat (length db) in
  let rep := verify_chain vk rk db None in
  chain_holds rep = true ∧ rows_checked rep = n
  ∧ head_sequence db = n ∧ sequence_gaps db 0 = []
  ∧ ∀ e, match append_signed_event_no_tx try_sign db e with
         | Err _ => se_id e ∈ er_id <$> db
         | Ok db' => se_id e ∉ er_id <$> db ∧ ∃ r, db' = db ++ [r]
             ∧ committed (row_to_event r) = committed (mkSigned (se_id e) (se_agent_id e)
                 (se_event_type e) (se_payload_hash e) (resign try_sign e (1 + n)) (se_attest_level e)
                 (se_timestamp e) [] (1 + n) (se_cause_hash e))
         end.
Proof.
  intros Hw n rep. pose proof (written_intact try_sign db Hw) as Hi. subst rep.
  unfold chain_holds. rewrite (verify_intact _ _ _ Hi). simpl. split_and!; [done|done| | |].
  - by apply intact_max.
  - unfold sequence_gaps. rewrite (intact_seqs db Hi). apply gap_scan_seqZ.
  - intros e. pose proof (append_cases try_sign db e Hi) as H.
    destruct (append_signed_event_no_tx try_sign db e); [|done].
    destruct H as (Hn & r & -> & _ & Hc). split; [done|]. by exists r.
Qed.

(** The gap scan is exact: a number lies in a reported range exactly when
    it is above the floor, missing, and below a number that is present. *)
Lemma gaps_exact db floor n :
  (∃ a b, (a, b) ∈ sequence_gaps db floor ∧ (a ≤ n ≤ b)%Z) ↔
  (floor < n)%Z ∧ n ∉ omap er_sequence db ∧ ∃ m, m ∈ omap er_sequence db ∧ (n < m)%Z.
Proof.
  unfold sequence_gaps. set (l := List.filter _ _).
  assert (∀ x, x ∈ stable_sort Z.le l ↔ (floor < x)%Z ∧ x ∈ omap er_sequence db) as Hin.
  { intros x. rewrite stable_sort_Permutation. unfold l. rewrite elem_of_list_filter_bool, bool_decide_eq_true.
    naive_solver. }
  rewrite gap_scan_spec; [|apply (StronglySorted_stable_sort Z.le)|intros x [? _]%Hin; lia].
  setoid_rewrite Hin. split.
  - intros (H1 & H2 & m & [_ Hm] & H3). split_and!; [lia| |by exists m]. intros ?. apply H2. split; [lia|done].
  - intros (H1 & H2 & m & Hm & H3). split_and!; [lia|tauto|exists m]. split_and!; [lia|done|done].
Qed.

Lemma linked_next h n l i e e' :
  linked h n l → l !! i = Some e → l !! S i = Some e' → se_prev_hash e' = digest e.
Proof.
  revert h n i. induction l as [|x l IH]; intros h n i; [done|]. intros [_ Hl].
  destruct i as [|i]; simpl; [|by eapply IH].
  intros [= ->]. destruct l as [|y l]; [done|]. intros [= ->]. by destruct Hl as [(_ & -> & _) _].
Qed.

(** C15: an edit is detected unless the links are edited with it: of two
    tables that both verify and carry the same links, every row but the last
    has the same content, or the hash has a collision; and deleting a row
    that has a successor always breaks the chain. *)
Theorem tampering_detected vk rk db db' :
  chain_break (verify_chain vk rk db None) = None →
  (chain_break (verify_chain vk rk db' None) = None →
   se_prev_hash <$> window db 0 = se_prev_hash <$> window db' 0 →
   ∀ i e e', S i < length (window db 0) → window db 0 !! i = Some e → window db' 0 !! i = Some e' →
     fits e → fits e' → committed e = committed e' ∨ collision)
  ∧ (∀ l1 a l2, window db 0 = l1 ++ a :: l2 → window db' 0 = l1 ++ l2 → l2 ≠ [] →
     chain_break (verify_chain vk rk db' None) ≠ None).
Proof.
  rewrite !verify_linked. intros Hl. split.
  - intros Hl' Hprev i e e' Hi He He' Hf Hf'.
    destruct (lookup_lt_is_Some_2 _ _ Hi) as [e2 He2].
    assert (Hi' : S i < length (window db' 0)).
    { rewrite <-(length_fmap se_prev_hash), <-Hprev, length_fmap. done. }
    destruct (lookup_lt_is_Some_2 _ _ Hi') as [e2' He2'].
    apply digest_inj; [done|done|].
    rewrite <-(linked_next _ _ _ _ _ _ Hl He He2), <-(linked_next _ _ _ _ _ _ Hl' He' He2').
    assert ((se_prev_hash <$> window db 0) !! S i = (se_prev_hash <$> window db' 0) !! S i) as E by by rewrite Hprev.
    rewrite !list_lookup_fmap, He2, He2' in E. by injection E.
  - intros l1 a l2 Hw Hw' Hne. rewrite Hw in Hl. rewrite verify_linked, Hw'. intros Hl'.
    destruct l2 as [|b l2]; [done|]. apply linked_numbers in Hl, Hl'.
    assert ((l1 ++ b :: l2) !! length l1 = Some b) as Hb by by rewrite list_lookup_middle.
    assert ((l1 ++ a :: b :: l2) !! S (length l1) = Some b) as Hb'.
    { rewrite lookup_app_r by lia. by replace (S (length l1) - length l1) with 1 by lia. }
    apply (f_equal (lookup (length l1))) in Hl'. apply (f_equal (lookup (S (length l1)))) in Hl.
    rewrite list_lookup_fmap, Hb in Hl'. rewrite list_lookup_fmap, Hb' in Hl. simpl in Hl, Hl'.
    symmetry in Hl, Hl'. apply lookup_seqZ in Hl, Hl'. lia.
Qed.

(** Point a row at another predecessor. *)
Definition set_prev (h : bytes) (r : EventRow) : EventRow :=
  mkRow (er_id r) (er_agent_id r) (er_event_type r) (er_payload_hash r) (er_signature r)
    (er_attest_level r) (er_timestamp r) (Some h) (er_sequence r) (er_cause_hash r).

Definition relink (h : bytes) (l : ledger) : ledger :=
  match l with [] => [] | r :: l' => set_prev h r :: l' end.

Lemma classify_unsigned e vk rk :
  se_attest_level e = UNSIGNED → se_signature e = None →
  classify_row_signature e vk rk = mkVerdict false false.
Proof.
  intros Ha Hs. unfold classify_row_signature. rewrite Ha, Hs.
  rewrite !decide_False by done. rewrite (bool_decide_false (UNSIGNED = DAEMON_SIGNED)), andb_false_r by done.
  simpl. by destruct vk.
Qed.

Lemma relink_linked `{CL : !LedgerCryptoLaws C} h n a a' l :
  linked h n (row_to_event <$> (a :: l)) →
  er_sequence a' = er_sequence a → er_prev_hash a' = er_prev_hash a →
  linked h n (row_to_event <$> (a' :: relink (digest (row_to_event a')) l)).
Proof.
  intros [(Hn & Hh & Hlen) Hl] Hs Hp. split.
  { unfold links, row_to_event in *. simpl in *. by rewrite Hs, Hp. }
  destruct l as [|b l]; [done|]. destruct Hl as [(Hbn & _ & _) Hl]. split.
  - split_and!; [done..|]. simpl. apply sha256_length.
  - done.
Qed.

Lemma failing_relink vk rk p h l :
  failing vk rk p (row_to_event <$> relink h l) = failing vk rk p (row_to_event <$> l).
Proof. destruct l as [|r l]; [done|]. simpl relink. by rewrite !fmap_cons, !failing_cons. Qed.

(** The chain is only pairwise: canonical bytes leave the link column
    out, so any row can be replaced by an unsigned row of any content and the
    one next row re-pointed at it, and nothing further: the table verifies
    with as many rows, no more signature failures, the same head number, no
    new gap and, unless the last row itself was replaced, the same head hash
    for the next append and for an off-table anchor. *)
Lemma row_rewrite_undetected `{CL : !LedgerCryptoLaws C} vk rk r1 a r2 a' :
  intact (r1 ++ a :: r2) →
  er_sequence a' = er_sequence a → er_prev_hash a' = er_prev_hash a →
  er_attest_level a' = UNSIGNED → er_signature a' = None →
  let db := r1 ++ a :: r2 in
  let db' := r1 ++ a' :: relink (digest (row_to_event a')) r2 in
  let rep := verify_chain vk rk db None in
  let rep' := verify_chain vk rk db' None in
  chain_break rep' = None ∧ rows_checked rep' = rows_checked rep
  ∧ signature_failures rep' ⊆ signature_failures rep
  ∧ role_separation_failures rep' ⊆ role_separation_failures rep
  ∧ head_sequence db' = head_sequence db ∧ sequence_gaps db' 0 = sequence_gaps db 0
  ∧ (r2 ≠ [] → read_chain_head db' = read_chain_head db).
Proof.
  intros Hi Hs Hp Ha Hsig db db' rep rep'.
  assert (length (relink (digest (row_to_event a')) r2) = length r2) as Hlen by by destruct r2.
  assert (length db' = length db) as Hlen' by (unfold db, db'; rewrite !length_app; simpl; by rewrite Hlen).
  assert (intact db') as Hi'.
  { destruct Hi as [Hl Hn]. unfold intact, db'. rewrite fmap_app, linked_app in *.
    apply Forall_app in Hn as [Hn1 [Hna Hn2]%Forall_cons]. split.
    - split; [apply Hl|]. destruct Hl as [_ Hl]. by eapply relink_linked.
    - apply Forall_app. split; [done|]. constructor; [by rewrite Hs|].
      destruct r2 as [|b r2]; [constructor|]. apply Forall_cons in Hn2 as [??]. by constructor. }
  assert (∀ p, p (mkVerdict false false) = false →
    failing vk rk p (row_to_event <$> db') ⊆ failing vk rk p (row_to_event <$> db)) as Hsub.
  { intros p Hp0. assert (∀ x y, failing vk rk p (x ++ y) = failing vk rk p x ++ failing vk rk p y) as Happ
      by (intros x y; unfold failing; by rewrite List.filter_app, fmap_app).
    unfold db, db'. rewrite !fmap_app, !fmap_cons, !Happ, !failing_cons, failing_relink.
    rewrite classify_unsigned, Hp0 by done. set_solver. }
  subst rep rep'. rewrite (verify_intact _ _ _ Hi), (verify_intact _ _ _ Hi'). simpl.
  split_and!; [done|by rewrite Hlen'|by apply Hsub|by apply Hsub| | |].
  - by rewrite !intact_max, Hlen' by done.
  - unfold sequence_gaps. by rewrite !intact_seqs, Hlen' by done.
  - intros Hne. rewrite !intact_read by done. unfold db, db' in *. rewrite Hlen'. do 2 f_equal.
    unfold tip. rewrite !fmap_app, !fmap_cons, !last_app_cons. destruct r2 as [|b r2]; [done|].
    simpl relink. rewrite !fmap_cons. change (?x :: ?y :: ?l) with ([x] ++ y :: l). rewrite !last_app_cons.
    destruct r2 as [|c r2]; [done|]. rewrite !fmap_cons.
    change (?x :: ?y :: ?l) with ([x] ++ y :: l). by rewrite !last_app_cons.
Qed.
End spec.

(* ------------------------------------------------------------------ *)
(** * Witnesses *)

(** A digest of the right length, keys that accept everything. *)
#[local] Instance demo_ledger_crypto : LedgerCrypto := {|
  sha256 b := take 32 (rev b ++ replicate 32 Byte.x00);
  VerifyingKey := unit;
  verify_strict _ _ _ := true
|}.

#[local] Instance demo_ledger_laws : LedgerCryptoLaws demo_ledger_crypto.
Proof.
  split. intros b. unfold sha256, demo_ledger_crypto.
  rewrite length_take, length_app, length_replicate. lia.
Qed.

Definition demo_event (id : string) (sig : option bytes) : SignedEvent :=
  mkSigned id "ai:alice" "memory.stored" [Byte.x2a] sig UNSIGNED "2026-01-01" [] 1 None.

Lemma canonical_injective_witness :
  committed (demo_event "e1" None) = committed (demo_event "e1" (Some [])).
Proof.
  apply canonical_injective; [| |reflexivity];
    (split; [repeat constructor; vm_compute; reflexivity|vm_compute; split; [discriminate|reflexivity]]).
Defined.

Definition demo_append (db : ledger) (e : SignedEvent) : ledger :=
  match append_signed_event_no_tx (λ _, None) db e with Ok db' => db' | Err _ => db end.

Definition demo_one : ledger := demo_append [] (demo_event "e1" None).
Definition demo_two : ledger := demo_append demo_one (demo_event "e2" None).
Definition demo_rows : ledger := demo_append demo_two (demo_event "e3" None).

Lemma demo_written : written (λ _, None) demo_rows.
Proof.
  apply (written_append _ demo_two (demo_event "e3" None)); [|vm_compute; reflexivity].
  apply (written_append _ demo_one (demo_event "e2" None)); [|vm_compute; reflexivity].
  apply (written_append _ [] (demo_event "e1" None)); [constructor|vm_compute; reflexivity].
Qed.

Lemma writer_verifies_witness : head_sequence demo_rows = 3%Z ∧ sequence_gaps demo_rows 0 = [].
Proof.
  destruct (writer_verifies (λ _, None) None None demo_rows demo_written) as (_ & _ & H1 & H2 & _).
  split; [exact H1|exact H2].
Defined.

Definition demo_blank : EventRow := mkRow "" "" "" [] None "" "" None None None.
Definition demo_row (i : nat) : EventRow := nth i demo_rows demo_blank.

(** The middle row deleted. *)
Lemma tampering_detected_witness :
  chain_break (verify_chain None None [demo_row 0; demo_row 2] None) ≠ None.
Proof.
  refine (proj2 (tampering_detected None None demo_rows [demo_row 0; demo_row 2] _)
    [row_to_event (demo_row 0)] (row_to_event (demo_row 1)) [row_to_event (demo_row 2)] _ _ _);
    try (vm_compute; reflexivity). discriminate.
Defined.

(** The middle row rewritten, the last re-pointed. *)
Definition demo_forged : EventRow :=
  mkRow "e2" "ai:mallory" "memory.stored" [] None UNSIGNED "2020-01-01" (er_prev_hash (demo_row 1))
    (er_sequence (demo_row 1)) None.

Lemma row_rewrite_undetected_witness :
  chain_break (verify_chain None None
    [demo_row 0; demo_forged; set_prev (digest (row_to_event demo_forged)) (demo_row 2)] None) = None.
Proof.
  apply (row_rewrite_undetected None None [demo_row 0] (demo_row 1) [demo_row 2] demo_forged);
    try reflexivity.
  split; [vm_compute; repeat split; reflexivity|repeat constructor; by eexists].
Defined.
