(* ===== verification/Cid.v ===== *)
(** Content ids: the bytes a memory's identity is hashed over, the id itself and
    its verification ([src/src/identity/cid.rs]); what an id determines, and on
    what it depends that it should not. *)
From S2P Require Import Prelude.
From S2P Require Import BTree.
From S2P Require Import Bytes.
From S2P Require Import Json.
From S2P Require Import Text.
From S2P Require Import F64.
From S2P Require Import Memory.
From S2P Require Import SecretScreen.
From S2P Require Import Ledger.

(** The outer hash. *)
Class Blake3 : Type := blake3_hex : bytes → string.

Definition CID_DOMAIN : bytes := str_bytes "memory-cid-v1" ++ [Byte.x00].
Definition CID_SCHEME_PREFIX : string := "b3:".

Record CidStamp : Type := mkCidStamp { cs_cid : string; cs_genesis : bytes }.
Record CidMismatch : Type := mkCidMismatch { cm_stored : string; cm_recomputed : string }.

Definition owner_of (m : Memory) : string := default "" (json_get (mem_metadata m) "agent_id" ≫= json_as_str).

Section cid.
Context {L : Log2} {LC : LedgerCrypto} {B3 : Blake3}.

Definition canonical_cid_preimage (agent_id namespace title kind created_at content : string) : Run bytes :=
  title_s ← screened title;
  content_s ← screened content;
  mret (CID_DOMAIN ++ str_bytes agent_id ++ [FIELD_SEP] ++ str_bytes namespace ++ [FIELD_SEP]
        ++ str_bytes title_s ++ [FIELD_SEP] ++ str_bytes kind ++ [FIELD_SEP]
        ++ str_bytes created_at ++ [FIELD_SEP] ++ sha256 (str_bytes content_s)).

Definition compute_cid (preimage : bytes) : string := CID_SCHEME_PREFIX +:+ blake3_hex preimage.

Definition stamp_cid (agent_id namespace title kind created_at content : string) : Run CidStamp :=
  genesis ← canonical_cid_preimage agent_id namespace title kind created_at content;
  mret (mkCidStamp (compute_cid genesis) genesis).

Definition stamp_memory_cid (m : Memory) : Run CidStamp :=
  stamp_cid (owner_of m) (mem_namespace m) (mem_title m) (MemoryKind_as_str (mem_memory_kind m)) (mem_created_at m)
    (mem_content m).

Definition verify_cid (stored_cid : string) (stored_genesis : bytes) : result unit CidMismatch :=
  let recomputed := compute_cid stored_genesis in
  if bool_decide (recomputed = stored_cid) then Ok tt else Err (mkCidMismatch stored_cid recomputed).

(* ------------------------------------------------------------------ *)
(** * What an id determines *)

(** The two memories themselves exhibit a collision: the bytes their stamps were
    hashed over under the outer hash, or their screened contents under the inner
    one, are different and hashed alike. *)
Definition collide (m m' : Memory) (c c' : CidStamp) : Prop :=
  (cs_genesis c ≠ cs_genesis c' ∧ blake3_hex (cs_genesis c) = blake3_hex (cs_genesis c'))
  ∨ ∃ x x', screened (mem_content m) = Returns x ∧ screened (mem_content m') = Returns x'
      ∧ x ≠ x' ∧ sha256 (str_bytes x) = sha256 (str_bytes x').

(** What a memory's id is made of: its origin, and its texts screened. *)
Definition genesis_of (m : Memory) : Run (string * string * string * MemoryKind * string * string) :=
  title ← screened (mem_title m);
  content ← screened (mem_content m);
  mret (owner_of m, mem_namespace m, title, mem_memory_kind m, mem_created_at m, content).

(** Neither the author, the namespace nor the date holds the separator. *)
Definition separable (m : Memory) : Prop :=
  separator_free (owner_of m) ∧ separator_free (mem_namespace m) ∧ separator_free (mem_created_at m).

Lemma kind_separable k : separator_free (MemoryKind_as_str k).
Proof. apply (bool_decide_unpack _). by destruct k; vm_compute. Qed.

Lemma kind_spelled k k' : MemoryKind_as_str k = MemoryKind_as_str k' → k = k'.
Proof. by destruct k, k'. Qed.

(** The fields behind the last separators are read from the end. *)
Lemma split_at_last (a b x y : bytes) :
  FIELD_SEP ∉ x → FIELD_SEP ∉ y → a ++ FIELD_SEP :: x = b ++ FIELD_SEP :: y → a = b ∧ x = y.
Proof.
  intros Hx Hy E. apply (f_equal reverse) in E. rewrite !reverse_app, !reverse_cons, <-!app_assoc in E.
  apply split_at_separator in E as [E1 E2]; [|by rewrite elem_of_reverse..].
  by apply (inj reverse) in E1 as ->, E2 as ->.
Qed.

Lemma preimage_shape m c : stamp_memory_cid m = Returns c →
  ∃ title content, screened (mem_title m) = Returns title ∧ screened (mem_content m) = Returns content
    ∧ genesis_of m = Returns (owner_of m, mem_namespace m, title, mem_memory_kind m, mem_created_at m, content)
    ∧ cs_cid c = compute_cid (cs_genesis c)
    ∧ cs_genesis c = CID_DOMAIN ++ str_bytes (owner_of m) ++ [FIELD_SEP] ++ str_bytes (mem_namespace m) ++ [FIELD_SEP]
        ++ str_bytes title ++ [FIELD_SEP] ++ str_bytes (MemoryKind_as_str (mem_memory_kind m)) ++ [FIELD_SEP]
        ++ str_bytes (mem_created_at m) ++ [FIELD_SEP] ++ sha256 (str_bytes content).
Proof.
  unfold stamp_memory_cid, stamp_cid, canonical_cid_preimage, genesis_of.
  destruct (screened (mem_title m)) as [title| |]; [|done..]. destruct (screened (mem_content m)) as [content| |]; [|done..].
  intros [= <-]. by exists title, content.
Qed.

Lemma compute_cid_eq a b : compute_cid a = compute_cid b → blake3_hex a = blake3_hex b.
Proof. unfold compute_cid. apply (inj (String.append _)). Qed.

Context {LCL : LedgerCryptoLaws LC}.

(** The digest is the last thirty-two bytes. *)
Lemma split_digest (a b : bytes) c d : a ++ sha256 c = b ++ sha256 d → a = b ∧ sha256 c = sha256 d.
Proof using LCL. intros E. apply app_inj_2 in E; [done|]. by rewrite !sha256_length. Qed.

Lemma same_id_same_genesis m m' c c' : separable m → separable m' →
  stamp_memory_cid m = Returns c → stamp_memory_cid m' = Returns c' → cs_cid c = cs_cid c' →
  genesis_of m = genesis_of m' ∨ collide m m' c c'.
Proof using LCL.
  intros (Ho & Hn & Hd) (Ho' & Hn' & Hd') (t & x & _ & Hx & -> & -> & E)%preimage_shape
    (t' & x' & _ & Hx' & -> & -> & E')%preimage_shape Hh%compute_cid_eq.
  destruct (decide (cs_genesis c = cs_genesis c')) as [Hc|Hc]; [|by right; left]. rewrite E, E', !app_assoc in Hc.
  apply split_digest in Hc as [Hc Hdig]. destruct (decide (x = x')) as [<-|Hne]; [|right; right; by exists x, x'].
  rewrite <-!app_assoc in Hc. apply (inj (CID_DOMAIN ++.)) in Hc. cbn [app] in Hc.
  apply split_at_separator in Hc as [<-%str_bytes_inj Hc]; [|done..].
  apply split_at_separator in Hc as [<-%str_bytes_inj Hc]; [|done..].
  assert (∀ (a k d : bytes), a ++ FIELD_SEP :: k ++ FIELD_SEP :: d ++ [FIELD_SEP] =
    ((a ++ FIELD_SEP :: k) ++ FIELD_SEP :: d) ++ [FIELD_SEP]) as Hshape by (intros; by rewrite <-!app_assoc).
  rewrite !Hshape in Hc. apply (inj (.++ [FIELD_SEP])) in Hc.
  apply split_at_last in Hc as [Hc <-%str_bytes_inj]; [|done..].
  apply split_at_last in Hc as [<-%str_bytes_inj ->%str_bytes_inj%kind_spelled]; [by left|apply kind_separable..].
Qed.

Lemma same_genesis_same_id m m' c c' :
  stamp_memory_cid m = Returns c → stamp_memory_cid m' = Returns c' → genesis_of m = genesis_of m' → c = c'.
Proof using Type.
  intros (t & x & _ & _ & Hg & E1 & E2)%preimage_shape (t' & x' & _ & _ & Hg' & F1 & F2)%preimage_shape E.
  rewrite Hg, Hg' in E. destruct c as [i g], c' as [i' g']. simpl in *. simplify_eq. f_equal; congruence.
Qed.

(** C16: an id is an identity. Two memories whose author, namespace and date hold
    no separator byte, whatever their texts, have one id exactly when they agree
    on the author, the namespace, the kind, the date and the screened title and
    content, unless these two memories are a collision: different hashed bytes
    with one outer hash, or different screened contents with one inner hash. The
    id of a stamp verifies against the bytes kept with it, and against no others
    that hash differently. *)
Theorem cid_identifies m m' c c' : separable m → separable m' →
  stamp_memory_cid m = Returns c → stamp_memory_cid m' = Returns c' →
  (genesis_of m = genesis_of m' → c = c')
  ∧ (cs_cid c = cs_cid c' → genesis_of m = genesis_of m' ∨ collide m m' c c')
  ∧ verify_cid (cs_cid c) (cs_genesis c) = Ok tt
  ∧ ∀ tampered, is_ok (verify_cid (cs_cid c) tampered) = true → blake3_hex tampered = blake3_hex (cs_genesis c).
Proof using LCL.
  intros Hm Hm' Hc Hc'. split; [by apply same_genesis_same_id|split; [by apply same_id_same_genesis|]].
  apply preimage_shape in Hc as (t & x & _ & _ & _ & E & _). unfold verify_cid. split; [by rewrite bool_decide_eq_true_2|].
  intros b. case_bool_decide as Hi; [|done]. intros _. rewrite E in Hi. by apply compute_cid_eq.
Qed.

(** A stamp that is known to be minted. *)
Definition stamp_given (m : Memory) : CidStamp :=
  match stamp_memory_cid m with Returns c => c | _ => mkCidStamp "" [] end.

(* ------------------------------------------------------------------ *)
(** * What an id depends on *)

(** The id of the row a node in this mode writes. *)
Definition written_stamp (mode : SecretScreenMode) (m : Memory) : Run CidStamp :=
  redacted ← redact_memory_for_storage mode m;
  stamp_memory_cid (default m redacted).

Lemma redact_clean mode s : screen s = Returns Clean → redact_for_storage mode s = Returns None.
Proof. unfold redact_for_storage. intros ->. by case_bool_decide. Qed.

Lemma redact_hit s kinds r : screen s = Returns (Hit kinds r) → redact_for_storage ScreenRedact s = Returns (Some r).
Proof. unfold redact_for_storage. by intros ->. Qed.

Lemma run_each_clean mode l : Forall (λ t, screen t = Returns Clean) l →
  ∃ r, run_each (redact_for_storage mode) l = Returns r ∧ existsb is_some r = false ∧ zip_with default l r = l.
Proof.
  induction 1 as [|t l Ht _ (r & Hr & He & Hz)]; [by exists []|]. exists (None :: r). simpl.
  rewrite redact_clean by done. simpl. rewrite Hr. simpl. by rewrite Hz.
Qed.

Lemma screened_clean s : screen s = Returns Clean → screened s = Returns s.
Proof. unfold screened. by intros ->. Qed.

Lemma screened_hit s kinds r : screen s = Returns (Hit kinds r) → screened s = Returns r.
Proof. unfold screened. by intros ->. Qed.

(** Only the content of this memory is masked. *)
Lemma redacted_content m kinds r : screen (mem_content m) = Returns (Hit kinds r) → screen (mem_title m) = Returns Clean →
  Forall (λ t, screen t = Returns Clean) (mem_tags m) → redact_metadata_values ScreenRedact (mem_metadata m) = Returns None →
  redact_memory_for_storage ScreenRedact m = Returns (Some (with_texts m r (mem_title m) (mem_tags m) (mem_metadata m))).
Proof.
  intros Hc Ht Hg Hm. unfold redact_memory_for_storage. rewrite bool_decide_eq_false_2 by done.
  destruct (run_each_clean ScreenRedact _ Hg) as (tags & Hr & He & Hz).
  rewrite (redact_hit _ _ _ Hc). cbn [mbind Run_bind]. rewrite redact_clean by done. cbn [mbind Run_bind].
  rewrite Hr. cbn [mbind Run_bind]. rewrite Hm. cbn. by rewrite Hz.
Qed.

(** C27: an id depends on the mode of the node that minted it. The texts are
    screened before they are hashed so that nodes in different modes agree, but
    what the screen leaves is not clean: a token too plain to be a key hides an
    access key, and once that is masked what precedes the mask is dense enough
    to be one. The node that stores the text masked screens it twice and the
    node that stores it as it came screens it once. Unless the two contents
    left have one inner hash the bytes hashed for one memory differ, and unless
    those have one outer hash its ids differ. *)
Theorem cid_depends_on_mode {LL : Log2Law L} m :
  mem_content m = plain_token ("AKIA" +:+ repeated 16 "A") → screen (mem_title m) = Returns Clean →
  Forall (λ t, screen t = Returns Clean) (mem_tags m) → redact_metadata_values ScreenRedact (mem_metadata m) = Returns None →
  sha256 (str_bytes (plain_token REDACTION_PLACEHOLDER)) ≠ sha256 (str_bytes twice_screened) →
  ∃ raw masked, written_stamp ScreenOff m = Returns raw ∧ written_stamp ScreenRedact m = Returns masked
    ∧ cs_genesis raw ≠ cs_genesis masked
    ∧ (blake3_hex (cs_genesis raw) ≠ blake3_hex (cs_genesis masked) → cs_cid raw ≠ cs_cid masked).
Proof using LCL.
  intros Hc Ht Hg Hm Hdig. destruct screen_not_idempotent as [H1 H2]. rewrite <-Hc in H1.
  unfold written_stamp. rewrite (redacted_content _ _ _ H1) by done. simpl.
  set (m' := with_texts _ _ _ _ _). assert (screened (mem_content m') = Returns twice_screened) as Hx' by by eapply screened_hit.
  apply screened_hit in H1 as Hx. apply screened_clean in Ht.
  assert (screened (mem_title m') = Returns (mem_title m)) as Ht' by done.
  assert (∃ raw, stamp_memory_cid m = Returns raw) as [raw Hraw].
  { unfold stamp_memory_cid, stamp_cid, canonical_cid_preimage. rewrite Ht, Hx. by eexists. }
  assert (∃ masked, stamp_memory_cid m' = Returns masked) as [masked Hmasked].
  { unfold stamp_memory_cid, stamp_cid, canonical_cid_preimage. rewrite Ht', Hx'. by eexists. }
  exists raw, masked. split; [done|]. split; [done|].
  apply preimage_shape in Hraw as (t & x & _ & Hr & _ & -> & E).
  apply preimage_shape in Hmasked as (t' & x' & _ & Hr' & _ & -> & E').
  rewrite Hx in Hr. rewrite Hx' in Hr'. injection Hr as <-. injection Hr' as <-.
  split; [|intros Hne Hh%compute_cid_eq; exact (Hne Hh)].
  rewrite E, E', !app_assoc. intros [_ Hd]%split_digest. exact (Hdig Hd).
Qed.
End cid.

(* ------------------------------------------------------------------ *)
(** * Demonstration *)

(** A digest of the right length that tells texts by their beginning. *)
#[local] Instance demo_head_crypto : LedgerCrypto := {|
  sha256 b := take 32 (b ++ replicate 32 Byte.x00);
  VerifyingKey := unit;
  verify_strict _ _ _ := true
|}.

#[local] Instance demo_head_laws : LedgerCryptoLaws demo_head_crypto.
Proof. split. intros b. unfold sha256, demo_head_crypto. rewrite length_take, length_app, length_replicate. lia. Qed.

#[local] Existing Instance log2_powers.
#[local] Instance demo_blake3 : Blake3 := String.string_of_list_byte.

#[local] Instance log2_powers_law : Log2Law log2_powers.
Proof. intros k _. unfold log2, log2_powers. f_equal. lia. Qed.

Definition demo_genesis (content : string) : Memory :=
  mkMemory "m" None Mid "team" "notes" content [] 5 f64_one "api" 0 "10" "10" None None
    (JObject [("agent_id", JString "ai:alice")]) 0 KindObservation None None [] None None CallerProvided None None 1 LifeOpen.

Lemma demo_separable content : separable (demo_genesis content).
Proof. by apply (bool_decide_unpack _); vm_compute. Qed.

Lemma cid_identifies_witness :
  verify_cid (cs_cid (stamp_given (demo_genesis "a"))) (cs_genesis (stamp_given (demo_genesis "a"))) = Ok tt
  ∧ cs_cid (stamp_given (demo_genesis "a")) ≠ cs_cid (stamp_given (demo_genesis "b")).
Proof.
  destruct (cid_identifies (demo_genesis "a") (demo_genesis "b") (stamp_given (demo_genesis "a")) (stamp_given (demo_genesis "b")))
    as (_ & H & Hv & _); [apply demo_separable..|by vm_compute|by vm_compute|].
  split; [exact Hv|]. intros E. destruct (H E) as [Hg|[[_ Hh]|(x & x' & Hx & Hx' & _ & Hh)]]; [discriminate Hg|by vm_compute in Hh|].
  vm_compute in Hx, Hx'. injection Hx as <-. injection Hx' as <-. by vm_compute in Hh.
Defined.

Lemma cid_depends_on_mode_witness :
  let m := demo_genesis (plain_token ("AKIA" +:+ repeated 16 "A") ) in
  ∃ raw masked, written_stamp ScreenOff m = Returns raw ∧ written_stamp ScreenRedact m = Returns masked
    ∧ cs_genesis raw ≠ cs_genesis masked.
Proof.
  destruct (cid_depends_on_mode (demo_genesis (plain_token ("AKIA" +:+ repeated 16 "A")))) as (raw & masked & H1 & H2 & H3 & _);
    [done|by vm_compute|by constructor|by vm_compute|by vm_compute|].
  exists raw, masked. exact (conj H1 (conj H2 H3)).
Defined.
