(* ===== verification/Lineage.v ===== *)
(** Identity lineage: the chain of signed handoffs that ties the keys of an
    agent together, its verification from the first key to the current one and
    the verdict over all agents ([src/src/identity/lineage.rs]). *)
From S2P Require Import Prelude.
From S2P Require Import Bytes.
From S2P Require Import Text.
From S2P Require Import Memory.
From S2P Require Import Ledger.
From S2P Require Import Capability.
From S2P Require Import Attestation.
From stdpp Require Import gmultiset pretty.

(* ------------------------------------------------------------------ *)
(** * Data *)

Definition ZERO_PREV_HASH : bytes := replicate 32 Byte.x00.
Definition RECOVERY_QUORUM_FORMAT_V1 : Z := 1.

Inductive LineageReason : Type := Genesis | Rotation | Recovery | Revocation.

#[global] Instance LineageReason_eq_dec : EqDecision LineageReason.
Proof. solve_decision. Defined.

Definition LineageReason_as_str (r : LineageReason) : string :=
  match r with
  | Genesis => "genesis"
  | Rotation => "rotation"
  | Recovery => "recovery"
  | Revocation => "revocation"
  end.

Definition LineageReason_from_str (s : string) : option LineageReason :=
  if decide (s = "genesis") then Some Genesis
  else if decide (s = "rotation") then Some Rotation
  else if decide (s = "recovery") then Some Recovery
  else if decide (s = "revocation") then Some Revocation
  else None.

#[global] Instance LineageReason_wire : WireEnum LineageReason LineageReason_as_str LineageReason_from_str.
Proof. solve_wire_enum LineageReason_from_str. Qed.

Inductive CustodyClass : Type := SoftwareFile | Tpm2 | Pkcs11Hsm | SecureEnclave | Kms.

#[global] Instance CustodyClass_eq_dec : EqDecision CustodyClass.
Proof. solve_decision. Defined.

Definition CustodyClass_as_str (c : CustodyClass) : string :=
  match c with
  | SoftwareFile => "software-file"
  | Tpm2 => "tpm2"
  | Pkcs11Hsm => "pkcs11-hsm"
  | SecureEnclave => "secure-enclave"
  | Kms => "kms"
  end.

Definition CustodyClass_from_str (s : string) : option CustodyClass :=
  if decide (s = "software-file") then Some SoftwareFile
  else if decide (s = "tpm2") then Some Tpm2
  else if decide (s = "pkcs11-hsm") then Some Pkcs11Hsm
  else if decide (s = "secure-enclave") then Some SecureEnclave
  else if decide (s = "kms") then Some Kms
  else None.

#[global] Instance CustodyClass_wire : WireEnum CustodyClass CustodyClass_as_str CustodyClass_from_str.
Proof. solve_wire_enum CustodyClass_from_str. Qed.

(** A column from before the field existed is the default. *)
Definition CustodyClass_from_stored (slug : option string) : option CustodyClass :=
  match slug with None => Some SoftwareFile | Some s => CustodyClass_from_str s end.

Definition is_software_file (c : CustodyClass) : bool := bool_decide (c = SoftwareFile).

Definition ensure_oss_mintable (c : CustodyClass) : result CustodyClass string :=
  if is_software_file c then Ok c else Err (CustodyClass_as_str c).

Record LineageRecord : Type := mkLineage {
  li_agent_id : string;
  li_epoch : Z;
  li_reason : LineageReason;
  li_predecessor : string;
  li_successor : string;
  li_recovery : option string;
  li_not_before : string;
  li_prev_hash : bytes;
  li_custody : CustodyClass;
  li_from_seq : option Z;
  li_guardian_set : option bytes;
  li_threshold : option Z
}.

Definition genesis (agent_id k0 : string) (recovery : option string) (not_before : string) : LineageRecord :=
  mkLineage agent_id 0 Genesis k0 k0 recovery not_before ZERO_PREV_HASH SoftwareFile None None None.

(** Never before the record it succeeds; the texts are compared. *)
Definition clamp_not_before (prev : LineageRecord) (not_before : string) : string :=
  if li_not_before prev >?s not_before then li_not_before prev else not_before.

Definition to_signable (r : LineageRecord) : SignableSuccession :=
  mkSuccession (li_agent_id r) (li_epoch r) (LineageReason_as_str (li_reason r)) (li_predecessor r)
    (li_successor r) (li_recovery r) (li_not_before r) (li_prev_hash r) (CustodyClass_as_str (li_custody r))
    (li_from_seq r) (li_guardian_set r) (li_threshold r).

#[global] Instance LineageRecord_eq_dec : EqDecision LineageRecord.
Proof. solve_decision. Defined.

Inductive LineageError : Type :=
| NoGenesis
| EpochGap (epoch : Z)
| PredecessorMismatch (epoch : Z)
| BrokenLink (epoch : Z)
| SignatureInvalid (epoch : Z)
| NonMonotonicTime (epoch : Z)
| HeadKeyMismatch
| WitnessMismatch (epoch : Z)
| Truncated (records witnesses : Z)
| RecoveryNotEnrolled (epoch : Z)
| RecoveryQuorumInvalid (epoch : Z)
| RecoveryQuorumNotMet (epoch distinct threshold : Z).

Record RecoveryAttestation : Type := mkAttestation {
  ra_guardian : string;
  ra_signature : bytes
}.

Record RecoveryVerification : Type := mkRecoveryVerification {
  rv_distinct_signers : Z;
  rv_guardian_set_drift : bool
}.

(** CBOR read back: the first value of the input, [None] for what the six
    kinds of value the program writes do not cover. *)
Class CborDecode : Type := cbor_decode : bytes → option cbor.

Class CborDecodeLaw (CC : CapCrypto) (D : CborDecode) : Prop :=
  cbor_roundtrip : ∀ v b, cbor_encode v = Some b → cbor_decode b = Some v.

#[global] Instance byte_countable : Countable Byte.byte.
Proof. refine (inj_countable Byte.to_N Byte.of_N _). exact Byte.of_to_N. Defined.

Definition by_bytes (a b : bytes) : Prop := bytes_leb a b = true.
#[global] Instance by_bytes_dec : RelDecision by_bytes.
Proof. intros a b. unfold by_bytes. apply _. Defined.

(** [str::parse::<usize>]: decimal digits after an optional plus sign, within
    64 bits. *)
Fixpoint parse_digits (acc : Z) (s : string) : option Z :=
  match s with
  | EmptyString => Some acc
  | String c s =>
      if byte_in 48 57 c then
        let acc := (acc * 10 + (Z.of_N (Ascii.N_of_ascii c) - 48))%Z in
        if decide (acc ≤ u64_max)%Z then parse_digits acc s else None
      else None
  end.

Definition parse_usize (s : string) : option Z :=
  match s with
  | EmptyString => None
  | String c s' =>
      if byte_is 43 c then (if str_is_empty s' then None else parse_digits 0 s') else parse_digits 0 s
  end.

Definition recovery_threshold_explicit (var : option string) : option Z :=
  n ← (var ≫= λ v, parse_usize (str_trim v)); if decide (1 ≤ n)%Z then Some n else None.

(* ------------------------------------------------------------------ *)
(** * Records and signatures *)

Section records.
Context {CC : CapCrypto} {LC : LedgerCrypto} {KB : KeyBytes CC} {CD : CborDecode} {T : Chrono}.

(** [None] where the encoding fails. *)
Definition canonical_bytes (r : LineageRecord) : option bytes := canonical_cbor_succession (to_signable r).
Definition signing_input (r : LineageRecord) : option bytes := lineage_signing_input <$> canonical_bytes r.
Definition record_hash (r : LineageRecord) : option bytes := sha256 <$> canonical_bytes r.
Definition witness_payload_hash (r : LineageRecord) : option bytes := sha256 <$> signing_input r.

Definition rotation (prev : LineageRecord) (successor : string) (recovery : option string) (not_before : string) :
    option LineageRecord :=
  prev_hash ← record_hash prev;
  Some (mkLineage (li_agent_id prev) (li_epoch prev + 1) Rotation (li_successor prev) successor recovery
    (clamp_not_before prev not_before) prev_hash SoftwareFile None None None).

Definition revocation (prev : LineageRecord) (successor : string) (from_seq : Z) (recovery : option string)
    (not_before : string) : option LineageRecord :=
  prev_hash ← record_hash prev;
  Some (mkLineage (li_agent_id prev) (li_epoch prev + 1) Revocation (li_successor prev) successor recovery
    (clamp_not_before prev not_before) prev_hash SoftwareFile (Some from_seq) None None).

Definition recovery (prev : LineageRecord) (successor : string) (from_seq : option Z) (recovery : option string)
    (guardian_set : bytes) (threshold : Z) (not_before : string) : option LineageRecord :=
  prev_hash ← record_hash prev;
  Some (mkLineage (li_agent_id prev) (li_epoch prev + 1) Recovery (li_successor prev) successor recovery
    (clamp_not_before prev not_before) prev_hash SoftwareFile from_seq (Some guardian_set) (Some threshold)).

Record VerifiedLineage : Type := mkVerified {
  vl_head_key : VerifyingKey;
  vl_epoch : Z;
  vl_records_checked : Z;
  vl_head_custody : CustodyClass;
  vl_revoked_from_seq : option Z;
  vl_recovered_at : option Z;
  vl_guardian_drift : bool
}.

Definition verify_succession (r : LineageRecord) (signature : bytes) (predecessor : VerifyingKey) :
    result unit LineageError :=
  let invalid := SignatureInvalid (li_epoch r) in
  if negb (length signature =? SIGNATURE_LEN) then Err invalid
  else
    let? input := ok_or (signing_input r) invalid in
    if verify_strict predecessor input signature then Ok tt else Err invalid.

(* ------------------------------------------------------------------ *)
(** * Recovery by a quorum of guardians *)

Record RecoveryPolicy : Type := mkRecovery {
  rp_guardians : list VerifyingKey;
  rp_threshold : option Z
}.

(** The keys of the variable, in order, each once. *)
Fixpoint enrolled_loop (tokens : list string) (seen : gset bytes) : list VerifyingKey :=
  match tokens with
  | [] => []
  | tok :: tokens =>
      let tok := str_trim tok in
      if str_is_empty tok then enrolled_loop tokens seen
      else
        match decode_public_base64 tok with
        | None => enrolled_loop tokens seen
        | Some pk =>
            if bool_decide (key_to_bytes pk ∈ seen) then enrolled_loop tokens seen
            else pk :: enrolled_loop tokens ({[key_to_bytes pk]} ∪ seen)
        end
  end.

Definition enrolled_recovery_guardians (var : option string) : list VerifyingKey :=
  match var with Some v => enrolled_loop (str_split comma v) ∅ | None => [] end.

(** [RecoveryPolicy::from_env] over its two variables. *)
Definition policy_from_env (pubkeys threshold : option string) : option RecoveryPolicy :=
  let guardians := enrolled_recovery_guardians pubkeys in
  if is_nil guardians then None else Some (mkRecovery guardians (recovery_threshold_explicit threshold)).

Definition guardian_set_id_digest (guardians : list VerifyingKey) : bytes :=
  sha256 (concat (stable_sort by_bytes (key_to_bytes <$> guardians))).

Definition guardian_set_id (policy : RecoveryPolicy) : bytes := guardian_set_id_digest (rp_guardians policy).

Definition quorum_value (quorum : list RecoveryAttestation) : cbor :=
  CArray [CInteger RECOVERY_QUORUM_FORMAT_V1;
          CArray ((λ att, CArray [CText (ra_guardian att); CBytes (ra_signature att)]) <$> quorum)].

Definition encode_recovery_quorum (quorum : list RecoveryAttestation) : option bytes :=
  cbor_encode (quorum_value quorum).

Definition decode_attestation (entry : cbor) : option RecoveryAttestation :=
  match entry with CArray [CText pubkey; CBytes sig] => Some (mkAttestation pubkey sig) | _ => None end.

Definition decode_recovery_quorum (blob : bytes) : option (list RecoveryAttestation) :=
  value ← cbor_decode blob;
  match value with
  | CArray [CInteger version; CArray pairs] =>
      if decide (version = RECOVERY_QUORUM_FORMAT_V1) then mapM decode_attestation pairs else None
  | _ => None
  end.

(** The key an attestation counts for: one that decodes, is enrolled and
    signed the input. *)
Definition counted (policy : RecoveryPolicy) (input : bytes) (att : RecoveryAttestation) : option bytes :=
  pk ← decode_public_base64 (ra_guardian att);
  if negb (bool_decide (key_to_bytes pk ∈ key_to_bytes <$> rp_guardians policy)) then None
  else if negb (length (ra_signature att) =? SIGNATURE_LEN) then None
  else if verify_strict pk input (ra_signature att) then Some (key_to_bytes pk) else None.

Definition distinct_signers (policy : RecoveryPolicy) (input : bytes) (quorum : list RecoveryAttestation) : gset bytes :=
  list_to_set (omap (counted policy input) quorum).

Definition verify_recovery_record (r : LineageRecord) (quorum_blob : bytes) (policy : RecoveryPolicy) :
    result RecoveryVerification LineageError :=
  let invalid := RecoveryQuorumInvalid (li_epoch r) in
  let? committed_threshold := ok_or (li_threshold r) invalid in
  if decide (committed_threshold < 1)%Z then Err invalid
  else
    let? committed_gid := ok_or (li_guardian_set r) invalid in
    let guardian_set_drift := bool_decide (committed_gid ≠ guardian_set_id policy) in
    let? quorum := ok_or (decode_recovery_quorum quorum_blob) invalid in
    let? input := ok_or (signing_input r) invalid in
    let distinct := Z.of_nat (size (distinct_signers policy input quorum)) in
    if decide (distinct < committed_threshold)%Z
    then Err (RecoveryQuorumNotMet (li_epoch r) distinct committed_threshold)
    else Ok (mkRecoveryVerification distinct guardian_set_drift).

(* ------------------------------------------------------------------ *)
(** * The walk *)

Definition genesis_shape (g : LineageRecord) : bool :=
  bool_decide (li_epoch g = 0%Z) && bool_decide (li_reason g = Genesis)
  && bool_decide (li_predecessor g = li_successor g) && bool_decide (li_prev_hash g = ZERO_PREV_HASH).

(** What a record must have of the one before it. *)
Definition check_link (policy : option RecoveryPolicy) (prior r : LineageRecord) : result unit LineageError :=
  let epoch := li_epoch r in
  if decide (epoch ≠ li_epoch prior + 1)%Z then Err (EpochGap epoch)
  else
    let? expected := ok_or (record_hash prior) (BrokenLink epoch) in
    if decide (li_prev_hash r ≠ expected) then Err (BrokenLink epoch)
    else
      let? _ :=
        match parse_rfc3339 (li_not_before prior), parse_rfc3339 (li_not_before r) with
        | Some a, Some b => if decide (dt_instant a ≤ dt_instant b)%Z then Ok tt else Err (NonMonotonicTime epoch)
        | _, _ => Err (NonMonotonicTime epoch)
        end in
      let hands_off_from_head := bool_decide (li_predecessor r = li_successor prior) in
      match li_reason r with
      | Rotation | Revocation => if hands_off_from_head then Ok tt else Err (PredecessorMismatch epoch)
      | Recovery =>
          if hands_off_from_head then
            if is_some policy then Ok tt else Err (RecoveryNotEnrolled epoch)
          else Err (PredecessorMismatch epoch)
      | Genesis => Err (PredecessorMismatch epoch)
      end.

Record WalkState : Type := mkWalkState {
  wk_prev : option LineageRecord;
  wk_witnesses : gmultiset bytes;
  wk_revoked : option Z;
  wk_recovered : option Z;
  wk_drift : bool
}.

Definition consume_witness (r : LineageRecord) (witnesses : gmultiset bytes) : result (gmultiset bytes) LineageError :=
  let mismatch := WitnessMismatch (li_epoch r) in
  let? hash := ok_or (witness_payload_hash r) mismatch in
  if decide (hash ∈ witnesses) then Ok (witnesses ∖ {[+ hash +]}) else Err mismatch.

Definition carries_window (reason : LineageReason) : bool :=
  match reason with Revocation | Recovery => true | _ => false end.

(** The signature, by reason: whether it was a recovery and whether its
    guardians drifted. *)
Definition check_authority (policy : option RecoveryPolicy) (r : LineageRecord) (signature : bytes) :
    result (option bool) LineageError :=
  match li_reason r with
  | Recovery =>
      let? policy := ok_or policy (RecoveryNotEnrolled (li_epoch r)) in
      let? verified := verify_recovery_record r signature policy in
      Ok (Some (rv_guardian_set_drift verified))
  | _ =>
      let? predecessor := ok_or (decode_public_base64 (li_predecessor r)) (SignatureInvalid (li_epoch r)) in
      let? _ := verify_succession r signature predecessor in
      Ok None
  end.

Definition walk_record (policy : option RecoveryPolicy) (st : WalkState) (entry : LineageRecord * bytes) :
    result WalkState LineageError :=
  let '(r, signature) := entry in
  let? _ := match wk_prev st with Some prior => check_link policy prior r | None => Ok tt end in
  let revoked :=
    match carries_window (li_reason r), li_from_seq r with
    | true, Some from_seq => Some from_seq
    | _, _ => wk_revoked st
    end in
  let? witnesses := consume_witness r (wk_witnesses st) in
  let? recovery := check_authority policy r signature in
  Ok (mkWalkState (Some r) witnesses revoked
    (match recovery with Some _ => Some (li_epoch r) | None => wk_recovered st end)
    (match recovery with Some drift => wk_drift st || drift | None => wk_drift st end)).

Fixpoint walk_records (policy : option RecoveryPolicy) (st : WalkState) (records : list (LineageRecord * bytes)) :
    result WalkState LineageError :=
  match records with
  | [] => Ok st
  | entry :: records => let? st := walk_record policy st entry in walk_records policy st records
  end.

(** Keys are compared as bytes, so that spellings of one key agree. *)
Definition matches_bound (bound : option string) (head : string) : bool :=
  match bound ≫= decode_public_base64, decode_public_base64 head with
  | Some b, Some h => bool_decide (key_to_bytes b = key_to_bytes h)
  | _, _ => false
  end.

Definition verify_lineage_with_recovery (records : list (LineageRecord * bytes)) (witness_hashes : list bytes)
    (bound : option string) (policy : option RecoveryPolicy) : result VerifiedLineage LineageError :=
  match records with
  | [] => Err NoGenesis
  | (g, _) :: _ =>
      if negb (genesis_shape g) then Err NoGenesis
      else
        let? st := walk_records policy
                     (mkWalkState None (list_to_set_disj witness_hashes) None None false) records in
        if decide (wk_witnesses st ≠ ∅)
        then Err (Truncated (Z.of_nat (length records)) (Z.of_nat (length witness_hashes)))
        else
          let? head := ok_or (wk_prev st) NoGenesis in
          if negb (matches_bound bound (li_successor head)) then Err HeadKeyMismatch
          else
            let? head_key := ok_or (decode_public_base64 (li_successor head)) (SignatureInvalid (li_epoch head)) in
            Ok (mkVerified head_key (li_epoch head) (Z.of_nat (length records)) (li_custody head)
              (wk_revoked st) (wk_recovered st) (wk_drift st))
  end.

Definition verify_lineage (records : list (LineageRecord * bytes)) (witness_hashes : list bytes)
    (bound : option string) : result VerifiedLineage LineageError :=
  verify_lineage_with_recovery records witness_hashes bound None.
End records.

(* ------------------------------------------------------------------ *)
(** * The verdict over all agents *)

Definition LineageError_display (e : LineageError) : string :=
  match e with
  | NoGenesis => "lineage has no well-formed epoch-0 self-signed genesis record"
  | EpochGap epoch => "epoch " +:+ pretty epoch +:+ " is not contiguous with its predecessor"
  | PredecessorMismatch epoch =>
      "record at epoch " +:+ pretty epoch +:+ " claims a predecessor the chain never authorized "
      +:+ "(or is a recovery record, whose verify path lands in v1.0)"
  | BrokenLink epoch =>
      "record at epoch " +:+ pretty epoch +:+ " does not hash-link to its predecessor (tampered body)"
  | SignatureInvalid epoch =>
      "record at epoch " +:+ pretty epoch +:+ " signature does not verify under its predecessor key"
  | NonMonotonicTime epoch =>
      "record at epoch " +:+ pretty epoch +:+ " not_before precedes its predecessor's (or is malformed)"
  | HeadKeyMismatch => "verified head key does not match the bound metadata.agent_pubkey"
  | WitnessMismatch epoch =>
      "record at epoch " +:+ pretty epoch +:+ " has no matching append-only signed_events witness (C1)"
  | Truncated records witnesses =>
      "lineage truncation/rollback: " +:+ pretty records +:+ " stored record(s) but " +:+ pretty witnesses
      +:+ " append-only witness row(s) (C3)"
  | RecoveryNotEnrolled epoch =>
      "recovery record at epoch " +:+ pretty epoch +:+ " cannot be verified — no recovery guardians "
      +:+ "are enrolled (set AI_MEMORY_RECOVERY_GUARDIAN_PUBKEYS)"
  | RecoveryQuorumInvalid epoch =>
      "recovery record at epoch " +:+ pretty epoch +:+ " carries a malformed or unverifiable "
      +:+ "guardian-quorum attestation"
  | RecoveryQuorumNotMet epoch distinct threshold =>
      "recovery record at epoch " +:+ pretty epoch +:+ " met only " +:+ pretty distinct +:+ " of "
      +:+ pretty threshold +:+ " distinct enrolled recovery guardians"
  end.

Inductive LineageCheck : Type :=
| LineageUnknown
| LineageNotDetected
| LineageForged (detail : string)
| LineageRevoked (from_seq : Z) (detail : string)
| LineageMissing.

Record LineageWalkOutcome : Type := mkOutcome {
  lo_agent_id : string;
  lo_failure : option string;
  lo_revoked_from_seq : option Z;
  lo_head_custody : CustodyClass
}.

Fixpoint find_failed (outcomes : list LineageWalkOutcome) : option LineageCheck :=
  match outcomes with
  | [] => None
  | o :: outcomes =>
      match lo_failure o with
      | Some detail => Some (LineageForged ("agent '" +:+ lo_agent_id o +:+ "': " +:+ detail))
      | None => find_failed outcomes
      end
  end.

Fixpoint find_revoked (outcomes : list LineageWalkOutcome) : option LineageCheck :=
  match outcomes with
  | [] => None
  | o :: outcomes =>
      match lo_revoked_from_seq o with
      | Some from_seq =>
          Some (LineageRevoked from_seq
            ("agent '" +:+ lo_agent_id o +:+ "': chain revoked — entries from witness sequence "
             +:+ pretty from_seq +:+ " are SUSPECT (custody: " +:+ CustodyClass_as_str (lo_head_custody o) +:+ ")"))
      | None => find_revoked outcomes
      end
  end.

Definition compute_lineage_check (outcomes : list LineageWalkOutcome) (require : bool) : LineageCheck :=
  if is_nil outcomes then (if require then LineageMissing else LineageUnknown)
  else
    match find_failed outcomes with
    | Some verdict => verdict
    | None => default LineageNotDetected (find_revoked outcomes)
    end.

(* ------------------------------------------------------------------ *)
(** * Specification *)

Section spec.
Context {CC : CapCrypto} {LC : LedgerCrypto} {KB : KeyBytes CC} {CD : CborDecode} {T : Chrono}.

(** Enough guardians signed: as many distinct enrolled keys as the record
    itself asks for. *)
Definition quorum_met (policy : RecoveryPolicy) (r : LineageRecord) (blob : bytes) : Prop :=
  ∃ threshold quorum input,
    li_threshold r = Some threshold ∧ (1 ≤ threshold)%Z ∧ is_Some (li_guardian_set r)
    ∧ decode_recovery_quorum blob = Some quorum ∧ signing_input r = Some input
    ∧ (threshold ≤ Z.of_nat (size (distinct_signers policy input quorum)))%Z.

Definition signed_by_predecessor (r : LineageRecord) (signature : bytes) : Prop :=
  ∃ k input, decode_public_base64 (li_predecessor r) = Some k ∧ signing_input r = Some input
    ∧ length signature = SIGNATURE_LEN ∧ verify_strict k input signature = true.

Definition authorised (policy : option RecoveryPolicy) (r : LineageRecord) (signature : bytes) : Prop :=
  match li_reason r with
  | Recovery => ∃ p, policy = Some p ∧ quorum_met p r signature
  | _ => signed_by_predecessor r signature
  end.

Definition in_order (a b : string) : Prop :=
  ∃ x y, parse_rfc3339 a = Some x ∧ parse_rfc3339 b = Some y ∧ (dt_instant x ≤ dt_instant y)%Z.

Definition hands_off (prior r : LineageRecord) : Prop :=
  li_epoch r = (li_epoch prior + 1)%Z ∧ record_hash prior = Some (li_prev_hash r)
  ∧ in_order (li_not_before prior) (li_not_before r) ∧ li_reason r ≠ Genesis
  ∧ li_predecessor r = li_successor prior.

Fixpoint chained (prior : LineageRecord) (rs : list LineageRecord) : Prop :=
  match rs with [] => True | r :: rs => hands_off prior r ∧ chained r rs end.

Definition valid_chain (policy : option RecoveryPolicy) (entries : list (LineageRecord * bytes)) : Prop :=
  match entries with
  | [] => False
  | (g, _) :: entries' => genesis_shape g = true ∧ chained g entries'.*1
  end ∧ Forall (λ e, authorised policy e.1 e.2) entries.

(** What the walk reports of a chain: the newest window, the newest recovery,
    and whether the guardians of any recovery are not today's. *)
Definition window_of (r : LineageRecord) : option Z := if carries_window (li_reason r) then li_from_seq r else None.
Definition recovery_epoch (r : LineageRecord) : option Z :=
  if decide (li_reason r = Recovery) then Some (li_epoch r) else None.
Definition drifted (policy : option RecoveryPolicy) (r : LineageRecord) : bool :=
  match li_reason r, policy with
  | Recovery, Some p => bool_decide (li_guardian_set r ≠ Some (guardian_set_id p))
  | _, _ => false
  end.
Definition newest {A} (f : LineageRecord → option A) (rs : list LineageRecord) (dflt : option A) : option A :=
  fold_left (λ acc r, match f r with Some a => Some a | None => acc end) rs dflt.

Definition advance (policy : option RecoveryPolicy) (st : WalkState) (r : LineageRecord) : WalkState :=
  mkWalkState (Some r) (wk_witnesses st ∖ {[+ default [] (witness_payload_hash r) +]})
    (match window_of r with Some n => Some n | None => wk_revoked st end)
    (match recovery_epoch r with Some n => Some n | None => wk_recovered st end)
    (wk_drift st || drifted policy r).

(* ------------------------------------------------------------------ *)
(** * Lemmas: one record *)

Lemma verify_succession_Ok r sig k : verify_succession r sig k = Ok tt ↔
  ∃ input, signing_input r = Some input ∧ length sig = SIGNATURE_LEN ∧ verify_strict k input sig = true.
Proof.
  unfold verify_succession. destruct (Nat.eqb_spec (length sig) SIGNATURE_LEN) as [El|El]; simpl negb; cbv iota.
  - destruct (signing_input r) as [input|]; simpl; [|by split; [|intros (? & [=] & _)]].
    destruct (verify_strict k input sig) eqn:E; split; [by eauto|done|done|].
    intros (i & [= <-] & _ & Hv). congruence.
  - split; [done|]. by intros (_ & _ & ? & _).
Qed.

Lemma verify_recovery_Ok p r blob v : verify_recovery_record r blob p = Ok v →
  quorum_met p r blob ∧ rv_guardian_set_drift v = bool_decide (li_guardian_set r ≠ Some (guardian_set_id p)).
Proof.
  unfold verify_recovery_record. destruct (li_threshold r) as [n|] eqn:Hn; simpl; [|done]. case_decide; [done|].
  destruct (li_guardian_set r) as [g|] eqn:Hg; simpl; [|done].
  destruct (decode_recovery_quorum blob) as [q|] eqn:Hq; simpl; [|done].
  destruct (signing_input r) as [i|] eqn:Hi; simpl; [|done]. case_decide; [done|]. intros [= <-]. split.
  - exists n, q, i. split_and!; (done || lia).
  - simpl. apply bool_decide_ext. naive_solver.
Qed.

Lemma quorum_met_verifies p r blob : quorum_met p r blob → ∃ v, verify_recovery_record r blob p = Ok v.
Proof.
  intros (n & q & i & Hn & H1 & [g Hg] & Hq & Hi & Hs). unfold verify_recovery_record. rewrite Hn. simpl.
  rewrite decide_False by lia. rewrite Hg. simpl. rewrite Hq. simpl. rewrite Hi. simpl. rewrite decide_False by lia.
  by eexists.
Qed.

Lemma check_authority_Ok policy r sig o : check_authority policy r sig = Ok o →
  authorised policy r sig
  ∧ o = match recovery_epoch r with Some _ => Some (drifted policy r) | None => None end.
Proof.
  unfold check_authority, authorised, recovery_epoch, drifted. destruct (li_reason r).
  3: { destruct policy as [p|]; simpl; [|done]. destruct (verify_recovery_record r sig p) as [v|] eqn:E; simpl; [|done].
    intros [= <-]. apply verify_recovery_Ok in E as [Hq ->]. split; [by exists p|done]. }
  all: destruct (decode_public_base64 _) as [k|] eqn:Hk; simpl; [|done];
    destruct (verify_succession r sig k) as [[]|] eqn:E; simpl; [|done]; intros [= <-];
    apply verify_succession_Ok in E as (i & ? & ? & ?); (split; [by exists k, i|done]).
Qed.

Lemma authorised_passes policy r sig : authorised policy r sig → ∃ o, check_authority policy r sig = Ok o.
Proof.
  unfold check_authority, authorised. destruct (li_reason r).
  3: { intros (p & -> & Hq). apply quorum_met_verifies in Hq as [v Hv]. simpl. rewrite Hv. simpl. by eexists. }
  all: intros (k & i & -> & Hi & Hl & Hv); simpl; exists None;
    by rewrite (proj2 (verify_succession_Ok r sig k)) by eauto.
Qed.

Lemma check_link_Ok policy prior r : check_link policy prior r = Ok tt ↔
  hands_off prior r ∧ (li_reason r = Recovery → is_Some policy).
Proof.
  unfold check_link, hands_off, in_order. destruct (decide (li_epoch r = li_epoch prior + 1)%Z) as [He|He];
    [rewrite decide_False by auto|rewrite decide_True by done; naive_solver].
  destruct (record_hash prior) as [h|]; simpl; [|naive_solver].
  destruct (decide (li_prev_hash r = h)) as [<-|Hh];
    [rewrite decide_False by auto|rewrite decide_True by done; naive_solver].
  destruct (parse_rfc3339 (li_not_before prior)) as [a|]; [|naive_solver].
  destruct (parse_rfc3339 (li_not_before r)) as [b|]; [|naive_solver].
  case_decide; simpl; [|naive_solver lia].
  destruct (decide (li_predecessor r = li_successor prior)) as [Hp|Hp];
    [rewrite bool_decide_eq_true_2 by done|rewrite bool_decide_eq_false_2 by done];
    destruct (li_reason r), policy; simpl; try naive_solver.
Qed.

Lemma walk_record_Ok policy st r sig st' : walk_record policy st (r, sig) = Ok st' ↔
  (∀ prior, wk_prev st = Some prior → hands_off prior r) ∧ authorised policy r sig
  ∧ (∃ h, witness_payload_hash r = Some h ∧ h ∈ wk_witnesses st) ∧ st' = advance policy st r.
Proof.
  unfold walk_record. split.
  - intros H. destruct (match wk_prev st with Some _ => _ | None => _ end) as [[]|] eqn:Hl; simpl in H; [|done].
    unfold consume_witness in H. destruct (witness_payload_hash r) as [h|] eqn:Hh; simpl in H; [|done].
    case_decide as Hin; simpl in H; [|done]. destruct (check_authority policy r sig) as [o|] eqn:Ha; simpl in H; [|done].
    apply check_authority_Ok in Ha as [Ha ->]. split_and!; [|done|by exists h|].
    + intros prior Hp. rewrite Hp in Hl. by apply check_link_Ok in Hl as [? _].
    + injection H as <-. unfold advance, window_of. rewrite Hh. cbn [default].
      f_equal; [by destruct (carries_window _), (li_from_seq r)|by unfold recovery_epoch; case_decide|].
      unfold recovery_epoch, drifted. destruct (li_reason r), (wk_drift st), policy; done.
  - intros (Hl & Ha & (h & Hh & Hin) & ->). destruct (authorised_passes policy r sig Ha) as [o Ho].
    assert (match wk_prev st with Some prior => check_link policy prior r | None => Ok tt end = Ok tt) as ->.
    { destruct (wk_prev st) as [prior|]; [|done]. apply check_link_Ok. split; [by apply Hl|].
      intros Hr. unfold authorised in Ha. rewrite Hr in Ha. destruct Ha as (p & -> & _). done. }
    simpl. unfold consume_witness. rewrite Hh. simpl. rewrite decide_True by done. simpl. rewrite Ho. simpl.
    apply check_authority_Ok in Ho as [_ ->]. unfold advance, window_of. rewrite Hh. cbn [default]. do 2 f_equal.
    + by destruct (carries_window _), (li_from_seq r).
    + by unfold recovery_epoch; case_decide.
    + unfold recovery_epoch, drifted. destruct (li_reason r), (wk_drift st), policy; done.
Qed.

(* ------------------------------------------------------------------ *)
(** * Lemmas: the whole chain *)

Definition follows (prev : option LineageRecord) (rs : list LineageRecord) : Prop :=
  match prev, rs with
  | Some prior, _ => chained prior rs
  | None, r :: rs => chained r rs
  | None, [] => True
  end.

#[local] Arguments walk_record : simpl never.

Lemma walk_records_Ok policy entries st st' : walk_records policy st entries = Ok st' ↔
  follows (wk_prev st) entries.*1 ∧ Forall (λ e, authorised policy e.1 e.2) entries
  ∧ (∃ hs, mapM witness_payload_hash entries.*1 = Some hs ∧ list_to_set_disj hs ⊆ wk_witnesses st)
  ∧ st' = fold_left (advance policy) entries.*1 st.
Proof.
  revert st. induction entries as [|[r sig] entries IH]; intros st.
  { simpl. split; [intros [= <-]|by intros (_ & _ & _ & ->)]. split_and!; [by destruct (wk_prev st)|done| |done].
    exists []. split; [done|]. apply gmultiset_empty_subseteq. }
  rewrite Forall_cons, fmap_cons. set (rs := entries.*1) in *. cbn [walk_records mapM fst snd].
  destruct (walk_record policy st (r, sig)) as [st1|e] eqn:E; simpl.
  - apply walk_record_Ok in E as (Hp & Ha & (h & Hh & Hin) & ->). rewrite IH. clear IH. rewrite Hh. cbn [mbind option_bind].
    assert (∀ hs : list bytes, list_to_set_disj hs ⊆ wk_witnesses (advance policy st r)
      ↔ {[+ h +]} ⊎ list_to_set_disj hs ⊆ wk_witnesses st) as Hsub.
    { intros hs. simpl. rewrite Hh. cbn [default]. multiset_solver. }
    assert (follows (Some r) rs ↔ follows (wk_prev st) (r :: rs)) as Hf.
    { destruct (wk_prev st) as [prior|]; simpl; [|done]. specialize (Hp prior eq_refl). tauto. }
    change (wk_prev (advance policy st r)) with (Some r). rewrite Hf. split.
    + intros (? & ? & (hs & Hhs & Hs) & ->). split_and!; try done. exists (h :: hs). rewrite Hhs. split; [done|].
      rewrite list_to_set_disj_cons.
      by apply Hsub.
    + intros (? & (_ & ?) & (hs & Hhs & Hs) & ->). split_and!; try done.
      destruct (mapM _ rs) as [hs'|]; simpl in Hhs; [|done]. injection Hhs as <-. exists hs'. split; [done|].
      by apply Hsub.
  - split; [done|]. intros (Hf & (Ha & _) & (hs & Hhs & Hs) & _). exfalso.
    assert (walk_record policy st (r, sig) = Ok (advance policy st r)) as E'; [|congruence].
    apply walk_record_Ok. split_and!; [|done| |done].
    + intros prior Hp. rewrite Hp in Hf. by destruct Hf.
    + destruct (witness_payload_hash r) as [h|]; simpl in Hhs; [|done]. exists h. split; [done|].
      destruct (mapM _ _); simpl in Hhs; [|done]. injection Hhs as <-. simpl in Hs. multiset_solver.
Qed.

Lemma fold_advance policy rs st :
  fold_left (advance policy) rs st =
  mkWalkState (match last rs with Some r => Some r | None => wk_prev st end)
    (wk_witnesses st ∖ list_to_set_disj ((λ r, default [] (witness_payload_hash r)) <$> rs))
    (newest window_of rs (wk_revoked st)) (newest recovery_epoch rs (wk_recovered st))
    (wk_drift st || existsb (drifted policy) rs).
Proof.
  revert st. induction rs as [|r rs IH]; intros st; simpl.
  { destruct st as [p w a b d]. simpl. rewrite orb_false_r. f_equal. multiset_solver. }
  rewrite IH. simpl. f_equal.
  - destruct rs; [done|]. rewrite last_cons_cons.
    by destruct (last (_ :: rs)) eqn:El; [|apply last_None in El].
  - multiset_solver.
  - by rewrite orb_assoc.
Qed.

Lemma mapM_defaults (rs : list LineageRecord) hs : mapM witness_payload_hash rs = Some hs →
  (λ r, default [] (witness_payload_hash r)) <$> rs = hs.
Proof.
  revert hs. induction rs as [|r rs IH]; intros hs; simpl; [by intros [= <-]|].
  destruct (witness_payload_hash r) as [h|]; simpl; [|done].
  destruct (mapM _ rs) as [hs'|]; simpl; [|done]. intros [= <-]. f_equal. by apply IH.
Qed.

Lemma disj_perm (hs ws : list bytes) :
  (list_to_set_disj hs : gmultiset bytes) = list_to_set_disj ws → hs ≡ₚ ws.
Proof.
  revert ws. induction hs as [|h hs IH]; intros ws E.
  - destruct ws as [|w ws]; [done|]. exfalso. simpl in E. multiset_solver.
  - assert (h ∈ ws) as Hin.
    { rewrite <-(elem_of_list_to_set_disj (A := bytes)), <-E. simpl. multiset_solver. }
    apply elem_of_Permutation in Hin as [ws' Hws]. rewrite Hws. constructor. apply IH.
    rewrite Hws in E. simpl in E. multiset_solver.
Qed.

(** Every witness is used exactly once. *)
Lemma witnesses_used (hs ws : list bytes) :
  list_to_set_disj hs ⊆ (list_to_set_disj ws : gmultiset bytes)
  ∧ (list_to_set_disj ws : gmultiset bytes) ∖ list_to_set_disj hs = ∅ ↔ hs ≡ₚ ws.
Proof.
  split; [|intros ->; split; multiset_solver]. intros [H1 H2]. apply disj_perm. multiset_solver.
Qed.

Lemma valid_chain_follows policy entries :
  valid_chain policy entries ↔
  (∃ g, head entries.*1 = Some g ∧ genesis_shape g = true)
  ∧ follows None entries.*1 ∧ Forall (λ e, authorised policy e.1 e.2) entries.
Proof.
  unfold valid_chain. destruct entries as [|[g sig] entries]; simpl; [naive_solver|].
  split; [intros [[? ?] ?]; eauto|intros ((g' & [= <-] & ?) & ? & ?); auto].
Qed.

(** The report of a chain that verified. *)
Definition report_of (policy : option RecoveryPolicy) (rs : list LineageRecord) (head : LineageRecord)
    (k : VerifyingKey) : VerifiedLineage :=
  mkVerified k (li_epoch head) (Z.of_nat (length rs)) (li_custody head) (newest window_of rs None)
    (newest recovery_epoch rs None) (existsb (drifted policy) rs).

(** The walk accepts exactly the unbroken chains. It succeeds when and
    only when the records form a chain from a self-anchored first record, each
    naming the hash, the next epoch and the key of the one before and each
    signed by that key, or by as many enrolled guardians as the record itself
    asks for; the witnesses in the ledger are those of the records, each once;
    and the last key is the one bound to the agent. What it reports is the head
    of that chain. *)
Lemma lineage_exact policy entries ws bound v :
  verify_lineage_with_recovery entries ws bound policy = Ok v ↔
  valid_chain policy entries
  ∧ (∃ hs, mapM witness_payload_hash entries.*1 = Some hs ∧ hs ≡ₚ ws)
  ∧ ∃ head k, last entries.*1 = Some head ∧ decode_public_base64 (li_successor head) = Some k
      ∧ matches_bound bound (li_successor head) = true ∧ v = report_of policy entries.*1 head k.
Proof.
  rewrite valid_chain_follows. unfold verify_lineage_with_recovery.
  destruct entries as [|[g sig] entries']; [naive_solver|]. set (entries := (g, sig) :: entries').
  assert (head entries.*1 = Some g) as -> by done.
  destruct (genesis_shape g) eqn:Hg; cbn [negb]; [|split; [done|naive_solver congruence]].
  set (st0 := mkWalkState None _ None None false).
  destruct (walk_records policy st0 entries) as [st|e] eqn:E; cbn [result_bind].
  - apply walk_records_Ok in E as (Hf & Ha & (hs & Hhs & Hsub) & ->). rewrite fold_advance.
    cbn [wk_witnesses wk_prev wk_revoked wk_recovered wk_drift st0 orb]. rewrite (mapM_defaults _ _ Hhs).
    pose proof (witnesses_used hs ws) as Hws. cbn [wk_witnesses st0] in Hsub.
    destruct (last entries.*1) as [hd|] eqn:Hl; [|by apply last_None in Hl].
    case_decide as Hleft; [split; [done|naive_solver]|]. cbn [ok_or result_bind].
    assert (hs ≡ₚ ws) as Hp by by apply Hws.
    destruct (matches_bound bound (li_successor hd)) eqn:Hb; cbn [negb]; [|split; [done|naive_solver congruence]].
    destruct (decode_public_base64 (li_successor hd)) as [k|] eqn:Hk; cbn [ok_or result_bind];
      [|split; [done|naive_solver congruence]].
    unfold report_of. rewrite length_fmap. split; [intros [= <-]|].
    + split_and!; eauto. exists hd, k. by rewrite Hk.
    + intros (_ & _ & hd' & k' & [= <-] & Hk' & _ & ->). congruence.
  - split; [done|]. intros ((_ & Hf & Ha) & (hs & Hhs & Hp) & _). exfalso.
    assert (walk_records policy st0 entries = Ok (fold_left (advance policy) entries.*1 st0)) as E'; [|congruence].
    apply walk_records_Ok. split_and!; [done|done| |done]. exists hs. split; [done|]. apply witnesses_used in Hp. by destruct Hp.
Qed.
Lemma chained_snoc prior rs r : chained prior (rs ++ [r]) ↔ chained prior rs ∧ hands_off (default prior (last rs)) r.
Proof.
  revert prior. induction rs as [|x rs IH]; intros prior; simpl; [tauto|]. rewrite IH.
  destruct rs as [|y rs]; [simpl; tauto|]. rewrite last_cons_cons.
  destruct (last (y :: rs)) eqn:El; [simpl; tauto|by apply last_None in El].
Qed.

(** A verified chain grows by one record that follows its head. *)
Lemma extend_verified policy entries ws bound v head r sig h ws' bound' k :
  verify_lineage_with_recovery entries ws bound policy = Ok v → last entries.*1 = Some head →
  hands_off head r → authorised policy r sig → witness_payload_hash r = Some h → ws' ≡ₚ ws ++ [h] →
  decode_public_base64 (li_successor r) = Some k → matches_bound bound' (li_successor r) = true →
  ∃ v', verify_lineage_with_recovery (entries ++ [(r, sig)]) ws' bound' policy = Ok v'.
Proof.
  intros (Hc & (hs & Hhs & Hp) & _)%lineage_exact Hl Hh Ha Hw Hp' Hk Hb.
  exists (report_of policy (entries ++ [(r, sig)]).*1 r k). apply lineage_exact. rewrite fmap_app. split_and!.
  - destruct Hc as [Hc HF]. split; [|by rewrite Forall_app, Forall_singleton].
    destruct entries as [|[g s] entries]; [done|]. destruct Hc as [Hg Hc]. cbn [app fmap list_fmap fst] in *.
    change (list_fmap _ _ fst entries) with entries.*1 in *. rewrite last_cons in Hl. split; [done|].
    rewrite fmap_app. apply chained_snoc. split; [done|]. by destruct (last entries.*1); simplify_eq/=.
  - exists (hs ++ [h]). split; [|by rewrite Hp, Hp']. apply mapM_Some. apply mapM_Some in Hhs.
    apply Forall2_app; [done|]. by constructor.
  - exists r, k. split_and!; [apply last_snoc|done..].
Qed.

(** A first record verifies on its own. *)
Lemma genesis_verified policy r sig h bound k :
  genesis_shape r = true → authorised policy r sig → witness_payload_hash r = Some h →
  decode_public_base64 (li_successor r) = Some k → matches_bound bound (li_successor r) = true →
  ∃ v, verify_lineage_with_recovery [(r, sig)] [h] bound policy = Ok v.
Proof.
  intros Hg Ha Hw Hk Hb. exists (report_of policy [r] r k). apply lineage_exact. split_and!.
  - split; [done|]. by constructor.
  - exists [h]. simpl. by rewrite Hw.
  - by exists r, k.
Qed.
End spec.

(* ------------------------------------------------------------------ *)
(** * What a verified chain is worth *)

Section worth.
Context {CC : CapCrypto} {LC : LedgerCrypto} {KB : KeyBytes CC} {CD : CborDecode} {T : Chrono}.
Context {CL : CapCryptoLaws CC}.

Lemma to_signable_inj r r' : to_signable r = to_signable r' → r = r'.
Proof.
  destruct r, r'. unfold to_signable. simpl. intros [= -> -> Hr -> -> -> -> -> Hc -> -> ->].
  apply (wire_as_str_inj (W := LineageReason_wire)) in Hr as ->.
  by apply (wire_as_str_inj (W := CustodyClass_wire)) in Hc as ->.
Qed.

Lemma canonical_bytes_inj r r' b : canonical_bytes r = Some b → canonical_bytes r' = Some b → r = r'.
Proof.
  intros H H'. apply to_signable_inj.
  pose proof (encoded_fields (OfSuccession (to_signable r)) (OfSuccession (to_signable r')) b H H') as E. congruence.
Qed.

Lemma signing_input_inj r r' b : signing_input r = Some b → signing_input r' = Some b → r = r'.
Proof.
  intros (x & H & ->)%fmap_Some (y & H' & E)%fmap_Some. unfold lineage_signing_input in E.
  apply app_inv_head in E as ->. by eapply canonical_bytes_inj.
Qed.

(** Two records with one witness are one record. *)
Lemma witness_hash_inj r r' h :
  witness_payload_hash r = Some h → witness_payload_hash r' = Some h → r = r' ∨ Ledger.collision.
Proof.
  intros (x & H & ->)%fmap_Some (y & H' & E)%fmap_Some. destruct (decide (x = y)) as [->|Hne].
  - left. by eapply signing_input_inj.
  - right. by exists x, y.
Qed.

Lemma chained_epoch prior rs i r : chained prior rs → rs !! i = Some r →
  li_epoch r = (li_epoch prior + 1 + Z.of_nat i)%Z.
Proof.
  revert prior i. induction rs as [|x rs IH]; intros prior i; [done|]. intros [(He & _) Hc].
  destruct i as [|i]; simpl; [intros [= ->]; lia|]. intros Hi. rewrite (IH _ _ Hc Hi). lia.
Qed.

Lemma valid_chain_epoch policy entries i r : valid_chain policy entries → entries.*1 !! i = Some r →
  li_epoch r = Z.of_nat i.
Proof.
  intros [Hc _]. destruct entries as [|[g sig] entries]; [done|]. destruct Hc as [Hg Hc].
  unfold genesis_shape in Hg. rewrite !andb_true_iff, !bool_decide_eq_true in Hg. destruct Hg as [[[Hg _] _] _].
  destruct i as [|i]; simpl; [by intros [= <-]|]. intros Hi. rewrite (chained_epoch _ _ _ _ Hc Hi). lia.
Qed.

Lemma mapM_hash (rs : list LineageRecord) hs i r : mapM witness_payload_hash rs = Some hs → rs !! i = Some r →
  ∃ h, witness_payload_hash r = Some h ∧ hs !! i = Some h.
Proof. intros Hm Hi. apply mapM_Some in Hm. by eapply Forall2_lookup_l in Hm as (h & ? & ?); [exists h|]. Qed.

(** C19: the chain an agent was enrolled with is the only one its witnesses
    accept. Of two tables that verify against the same witness rows, whatever
    their signatures, the key each was checked against and the guardians then
    enrolled, the records are the same, unless the hash has a collision: a
    record edited, dropped from the end, reordered, or added without its own
    witness is found out. *)
Theorem lineage_tamper_evident policy policy' entries entries' ws bound bound' v v' :
  verify_lineage_with_recovery entries ws bound policy = Ok v →
  verify_lineage_with_recovery entries' ws bound' policy' = Ok v' →
  entries.*1 = entries'.*1 ∨ Ledger.collision.
Proof.
  intros (Hc & (hs & Hhs & Hp) & _)%lineage_exact (Hc' & (hs' & Hhs' & Hp') & _)%lineage_exact.
  assert (∀ i r, entries.*1 !! i = Some r → ∃ r' h, r' ∈ entries'.*1
    ∧ witness_payload_hash r = Some h ∧ witness_payload_hash r' = Some h) as Hmatch.
  { intros i r Hi. destruct (mapM_hash _ _ _ _ Hhs Hi) as (h & Hr & Hh).
    apply list_elem_of_lookup_2 in Hh. rewrite Hp, <-Hp' in Hh. apply list_elem_of_lookup in Hh as [j Hj].
    apply mapM_Some in Hhs'. apply (Forall2_lookup_r _ _ _ _ _ Hhs') in Hj as (r' & Hr' & Hw).
    exists r', h. split_and!; [by eapply list_elem_of_lookup_2|done|done]. }
  destruct (decide (Forall (λ r, r ∈ entries'.*1) entries.*1)) as [Hall|Hnot].
  - left. apply list_eq_same_length with (length entries.*1); [| done |].
    + apply mapM_Some, Forall2_length in Hhs, Hhs'. by rewrite Hhs, Hhs', Hp, Hp'.
    + intros i r r' _ Hi Hi'. rewrite Forall_forall in Hall. pose proof (list_elem_of_lookup_2 _ _ _ Hi) as Hr.
      apply Hall, list_elem_of_lookup in Hr as [j Hj].
      pose proof (valid_chain_epoch _ _ _ _ Hc Hi). pose proof (valid_chain_epoch _ _ _ _ Hc' Hj).
      assert (i = j) as -> by lia. congruence.
  - right. apply not_Forall_Exists in Hnot; [|apply _]. apply Exists_exists in Hnot as (r & Hr & Hn).
    apply list_elem_of_lookup in Hr as [i Hi]. destruct (Hmatch i r Hi) as (r' & h & Hr' & Hw & Hw').
    destruct (witness_hash_inj _ _ _ Hw Hw') as [->|?]; [by destruct Hn|done].
Qed.

(** A quorum reads back as it was written, from the blob that stands in
    the signature column of a recovery record. *)
Lemma quorum_roundtrip `{!CborDecodeLaw CC CD} quorum blob :
  encode_recovery_quorum quorum = Some blob → decode_recovery_quorum blob = Some quorum.
Proof.
  unfold encode_recovery_quorum, decode_recovery_quorum. intros H%cbor_roundtrip. rewrite H. simpl.
  rewrite mapM_fmap_Some; [done|]. by intros [].
Qed.
End worth.
