(* ===== verification/LineageStore.v ===== *)
(** The tables of the identity lineage: the chain rows, the registration row
    that carries the current key, and the witnesses in the audit ledger; the
    append that writes all three, and the operations that mint a handoff
    ([append_lineage_record] to [append_recovery] of [src/src/storage/mod.rs]). *)
From S2P Require Import Prelude.
From S2P Require Import BTree.
From S2P Require Import Bytes.
From S2P Require Import Text.
From S2P Require Import Json.
From S2P Require Import Memory.
From S2P Require Import Ledger.
From S2P Require Import Capability.
From S2P Require Import Attestation.
From S2P Require Import Lineage.
From stdpp Require Import gmultiset pretty.

(* ------------------------------------------------------------------ *)
(** * Tables *)

(** A row of [agent_lineage], whose key is the agent and the epoch. *)
Record lineage_row : Type := mkLineageRow {
  lw_reason : string;
  lw_predecessor : string;
  lw_successor : string;
  lw_recovery : option string;
  lw_not_before : string;
  lw_prev_hash : bytes;
  lw_signature : bytes;
  lw_record_bytes : bytes;
  lw_created_at : string;
  lw_custody : option string;
  lw_from_seq : option Z;
  lw_guardian_set : option bytes;
  lw_threshold : option Z
}.

(** The registration row of an agent: the memory of the reserved namespace
    titled with its name, whose content mirrors its metadata. *)
Record agent_row : Type := mkAgentRow {
  ag_metadata : value;
  ag_content : value;
  ag_updated_at : string
}.

Record LineageDb : Type := mkLineageDb {
  ln_rows : gmap (string * Z) lineage_row;
  ln_agents : gmap string agent_row;
  ln_events : ledger;
  ln_in_tx : bool
}.

Inductive LineageRefusal : Type :=
| UnknownReason (reason : string)
| UnknownCustody (slug : string)
| NegativeEpoch
| OtherAgent (record_agent : string)
| CustodyMintRefused (slug : string)
| NotEnrolled
| AlreadyEnrolled
| EpochNotNext (epoch head : Z)
| PredecessorNotHead
| HashNotLinked
| EncodingFailed
| NoGuardians
| Unverifiable (e : LineageError)
| UndecodableKey (context : string)
| TransactionOpen
| EpochTooLarge
| DuplicateEpoch
| NotRegistered
| WitnessRefused (e : string)
| PublicOnly
| RecoveryKeyRequired
| BoundKeyMismatch
| NotHeadKey
| SigningFailed (e : SignError)
| ThresholdUnset.

(** The text of a refusal. *)
Class RefusalDisplay : Type := refusal_display : LineageRefusal → string.

(** The integer columns: saturated on the way in, and a negative
    one reads as zero. *)
Definition stored_u64 (n : Z) : Z := if decide (n ≤ i64_max)%Z then n else i64_max.
Definition loaded_u64 (n : Z) : Z := if decide (0 ≤ n)%Z then n else 0%Z.

Definition lineage_to_row (r : LineageRecord) (signature record_bytes : bytes) (now : string) : lineage_row :=
  mkLineageRow (LineageReason_as_str (li_reason r)) (li_predecessor r) (li_successor r) (li_recovery r)
    (li_not_before r) (li_prev_hash r) signature record_bytes now (Some (CustodyClass_as_str (li_custody r)))
    (stored_u64 <$> li_from_seq r) (li_guardian_set r) (stored_u64 <$> li_threshold r).

Definition row_to_lineage (agent_id : string) (epoch : Z) (w : lineage_row) :
    result (LineageRecord * bytes) LineageRefusal :=
  let? reason := ok_or (LineageReason_from_str (lw_reason w)) (UnknownReason (lw_reason w)) in
  let? custody := ok_or (CustodyClass_from_stored (lw_custody w)) (UnknownCustody (default "" (lw_custody w))) in
  if decide (epoch < 0)%Z then Err NegativeEpoch
  else
    Ok (mkLineage agent_id epoch reason (lw_predecessor w) (lw_successor w) (lw_recovery w) (lw_not_before w)
          (lw_prev_hash w) custody (loaded_u64 <$> lw_from_seq w) (lw_guardian_set w) (loaded_u64 <$> lw_threshold w),
        lw_signature w).

(** The epochs an agent has rows for, in order. *)
Definition lineage_epochs (db : LineageDb) (agent_id : string) : list Z :=
  stable_sort Z.le
    (omap (λ k : string * Z, if decide (k.1 = agent_id) then Some k.2 else None) (map_to_list (ln_rows db)).*1).

Fixpoint load_epochs (db : LineageDb) (agent_id : string) (epochs : list Z) :
    result (list (LineageRecord * bytes)) LineageRefusal :=
  match epochs with
  | [] => Ok []
  | n :: epochs =>
      match ln_rows db !! (agent_id, n) with
      | None => load_epochs db agent_id epochs
      | Some w =>
          let? entry := row_to_lineage agent_id n w in
          let? rest := load_epochs db agent_id epochs in
          Ok (entry :: rest)
      end
  end.

Definition read_lineage (db : LineageDb) (agent_id : string) : result (list (LineageRecord * bytes)) LineageRefusal :=
  load_epochs db agent_id (lineage_epochs db agent_id).

Definition lineage_head (db : LineageDb) (agent_id : string) : result (option (LineageRecord * bytes)) LineageRefusal :=
  let? records := read_lineage db agent_id in Ok (last records).

Definition lineage_witness_event_type (reason : LineageReason) : string :=
  match reason with
  | Genesis => "identity.lineage.genesis"
  | Rotation => "identity.lineage.succession"
  | Recovery => "identity.lineage.recovery"
  | Revocation => "identity.lineage.revocation"
  end.

Definition IDENTITY_LINEAGE_EVENT_TYPES : list string :=
  lineage_witness_event_type <$> [Genesis; Rotation; Recovery; Revocation].

Definition is_witness_of (agent_id : string) (r : EventRow) : bool :=
  bool_decide (er_agent_id r = agent_id) && bool_decide (er_event_type r ∈ IDENTITY_LINEAGE_EVENT_TYPES).

Definition lineage_witness_hashes (db : LineageDb) (agent_id : string) : list bytes :=
  se_payload_hash <$>
    stable_sort by_sequence (row_to_event <$> List.filter (is_witness_of agent_id) (ln_events db)).

(** [json_extract] read as text: a nested value comes as its JSON, and a
    number, a boolean or a null as nothing. *)
Definition json_extract_text `{JsonCodec} (v : value) (key : string) : option string :=
  json_get v key ≫= λ x,
    match x with
    | JString s => Some s
    | JArray _ | JObject _ => Some (json_to_string x)
    | _ => None
    end.

Definition agent_pubkey `{JsonCodec} (db : LineageDb) (agent_id : string) : option string :=
  ln_agents db !! agent_id ≫= λ a, json_extract_text (ag_metadata a) "agent_pubkey".

Definition set_agents (f : gmap string agent_row) (db : LineageDb) : LineageDb :=
  mkLineageDb (ln_rows db) f (ln_events db) (ln_in_tx db).

Definition bind_agent_pubkey (db : LineageDb) (agent_id pubkey now : string) : result LineageDb LineageRefusal :=
  let stamp v := json_insert "pubkey_bound_at" (JString now) (json_insert "agent_pubkey" (JString pubkey) v) in
  match ln_agents db !! agent_id with
  | None => Err NotRegistered
  | Some a =>
      Ok (set_agents (<[agent_id := mkAgentRow (stamp (ag_metadata a)) (stamp (ag_content a)) now]> (ln_agents db)) db)
  end.

Definition revoke_agent_pubkey (db : LineageDb) (agent_id now : string) : result LineageDb LineageRefusal :=
  let strip v :=
    json_insert "pubkey_revoked_at" (JString now) (json_remove "pubkey_bound_at" (json_remove "agent_pubkey" v)) in
  match ln_agents db !! agent_id with
  | None => Err NotRegistered
  | Some a =>
      Ok (set_agents (<[agent_id := mkAgentRow (strip (ag_metadata a)) (strip (ag_content a)) now]> (ln_agents db)) db)
  end.

(* ------------------------------------------------------------------ *)
(** * Statements *)

(** The readings one append makes: the two clocks and the fresh identifier of
    the witness row. *)
Record LineageReadings : Type := mkReadings {
  lg_now : string;
  lg_bound_at : string;
  lg_uuid : string
}.

Section statements.
Context {CC : CapCrypto} {LC : LedgerCrypto} {KB : KeyBytes CC} {CD : CborDecode} {T : Chrono} {JC : JsonCodec}
  {RD : RefusalDisplay}.
(** The guardians the environment enrols, and the key the ledger writer
    signs with. *)
Context (policy : option RecoveryPolicy) (try_sign : bytes → option bytes).

(** The checks before anything is written. *)
Definition append_preflight (db : LineageDb) (agent_id : string) (r : LineageRecord) (signature : bytes) :
    result unit LineageRefusal :=
  if decide (li_agent_id r ≠ agent_id) then Err (OtherAgent (li_agent_id r))
  else
    match ensure_oss_mintable (li_custody r) with
    | Err slug => Err (CustodyMintRefused slug)
    | Ok _ =>
        let? head := lineage_head db agent_id in
        let? _ :=
          match head, li_reason r with
          | None, Genesis => Ok tt
          | None, _ => Err NotEnrolled
          | Some _, Genesis => Err AlreadyEnrolled
          | Some (head, _), _ =>
              if decide (li_epoch r ≠ li_epoch head + 1)%Z then Err (EpochNotNext (li_epoch r) (li_epoch head))
              else if decide (li_predecessor r ≠ li_successor head) then Err PredecessorNotHead
              else
                let? hash := ok_or (record_hash head) EncodingFailed in
                if decide (li_prev_hash r ≠ hash) then Err HashNotLinked else Ok tt
          end in
        match li_reason r with
        | Recovery =>
            let? policy := ok_or policy NoGuardians in
            match verify_recovery_record r signature policy with Ok _ => Ok tt | Err e => Err (Unverifiable e) end
        | _ =>
            let? predecessor := ok_or (decode_public_base64 (li_predecessor r)) (UndecodableKey "predecessor") in
            match verify_succession r signature predecessor with Ok _ => Ok tt | Err e => Err (Unverifiable e) end
        end
    end.

Definition witness_event (rd : LineageReadings) (agent_id : string) (r : LineageRecord) (signature hash : bytes) :
    SignedEvent :=
  mkSigned (lg_uuid rd) agent_id (lineage_witness_event_type (li_reason r)) hash (Some signature) LINEAGE_SIGNED
    (lg_now rd) [] 0 None.

(** The transaction: body, flat key, witness. A failure rolls all of it
    back. *)
Definition append_commit (rd : LineageReadings) (db : LineageDb) (agent_id : string) (r : LineageRecord)
    (signature : bytes) : result LineageDb LineageRefusal :=
  let? record_bytes := ok_or (canonical_bytes r) EncodingFailed in
  let? witness_hash := ok_or (witness_payload_hash r) EncodingFailed in
  if ln_in_tx db then Err TransactionOpen
  else if decide (i64_max < li_epoch r)%Z then Err EpochTooLarge
  else if is_some (ln_rows db !! (li_agent_id r, li_epoch r)) then Err DuplicateEpoch
  else
    let row := lineage_to_row r signature record_bytes (lg_now rd) in
    let db := mkLineageDb (<[(li_agent_id r, li_epoch r) := row]> (ln_rows db)) (ln_agents db) (ln_events db)
                (ln_in_tx db) in
    let? db := bind_agent_pubkey db agent_id (li_successor r) (lg_bound_at rd) in
    match append_signed_event_no_tx try_sign (ln_events db) (witness_event rd agent_id r signature witness_hash) with
    | Ok events => Ok (mkLineageDb (ln_rows db) (ln_agents db) events (ln_in_tx db))
    | Err e => Err (WitnessRefused e)
    end.

Definition append_lineage_record (rd : LineageReadings) (db : LineageDb) (agent_id : string) (r : LineageRecord)
    (signature : bytes) : result LineageDb LineageRefusal :=
  let? _ := append_preflight db agent_id r signature in append_commit rd db agent_id r signature.

Definition verify_agent_lineage (db : LineageDb) (agent_id : string) :
    result (result VerifiedLineage LineageError) LineageRefusal :=
  let? records := read_lineage db agent_id in
  Ok (verify_lineage_with_recovery records (lineage_witness_hashes db agent_id) (agent_pubkey db agent_id) policy).

Definition current_authoritative_key (db : LineageDb) (agent_id : string) : result (option VerifyingKey) LineageRefusal :=
  let? records := read_lineage db agent_id in
  if is_nil records then
    match agent_pubkey db agent_id with
    | Some b64 => let? key := ok_or (decode_public_base64 b64) (UndecodableKey "bound") in Ok (Some key)
    | None => Ok None
    end
  else
    match verify_lineage_with_recovery records (lineage_witness_hashes db agent_id) (agent_pubkey db agent_id) policy with
    | Ok verified => Ok (Some (vl_head_key verified))
    | Err _ => Ok None
    end.

(** The outcome of one agent in the audit report. *)
Definition lineage_outcome (db : LineageDb) (agent_id : string) : LineageWalkOutcome :=
  match verify_agent_lineage db agent_id with
  | Ok (Ok v) => mkOutcome agent_id None (vl_revoked_from_seq v) (vl_head_custody v)
  | Ok (Err e) => mkOutcome agent_id (Some (LineageError_display e)) None SoftwareFile
  | Err e => mkOutcome agent_id (Some ("lineage read failed: " +:+ refusal_display e)) None SoftwareFile
  end.

Definition lineage_agents (db : LineageDb) : list string :=
  stable_sort String.le (elements (list_to_set ((map_to_list (ln_rows db)).*1.*1) : gset string)).

Definition compute_identity_lineage_verdict (db : LineageDb) (require : bool) : LineageCheck :=
  compute_lineage_check (lineage_outcome db <$> lineage_agents db) require.

(* ------------------------------------------------------------------ *)
(** * Minting *)

Definition sign_and_append (rd : LineageReadings) (db : LineageDb) (agent_id : string) (kp : AgentKeypair)
    (r : LineageRecord) : result (LineageDb * LineageRecord) LineageRefusal :=
  match sign_succession kp (to_signable r) with
  | Err e => Err (SigningFailed e)
  | Ok sig => let? db := append_lineage_record rd db agent_id r sig in Ok (db, r)
  end.

(** An optional recovery key must decode. *)
Definition check_recovery_key (key : option string) : result unit LineageRefusal :=
  match key with
  | Some rec => let? _ := ok_or (decode_public_base64 rec) (UndecodableKey "recovery") in Ok tt
  | None => Ok tt
  end.

(** [None] carries the commitment of the head forward. *)
Definition carried_recovery (key : option string) (head : LineageRecord) : option string :=
  match key with Some rec => Some rec | None => li_recovery head end.

(** The head, which [k_old] must hold the key of. *)
Definition head_held_by (db : LineageDb) (agent_id : string) (k_old : AgentKeypair) :
    result LineageRecord LineageRefusal :=
  let? found := lineage_head db agent_id in
  let? head := ok_or found NotEnrolled in
  if negb (can_sign k_old) then Err PublicOnly
  else
    let? head_key := ok_or (decode_public_base64 (li_successor head.1)) (UndecodableKey "head") in
    if decide (key_to_bytes head_key ≠ key_to_bytes (kp_public k_old)) then Err NotHeadKey else Ok head.1.

Definition enroll_lineage (rd : LineageReadings) (not_before : string) (db : LineageDb) (agent_id : string)
    (kp : AgentKeypair) (recovery_pubkey : option string) : result (LineageDb * LineageRecord) LineageRefusal :=
  if negb (can_sign kp) then Err PublicOnly
  else
    let? head := lineage_head db agent_id in
    if is_some head then Err AlreadyEnrolled
    else if negb (is_some recovery_pubkey) then Err RecoveryKeyRequired
    else
      let k0 := public_base64 kp in
      let? _ :=
        match agent_pubkey db agent_id with
        | Some bound =>
            let? bound_key := ok_or (decode_public_base64 bound) (UndecodableKey "bound") in
            if decide (key_to_bytes bound_key ≠ key_to_bytes (kp_public kp)) then Err BoundKeyMismatch else Ok tt
        | None => Ok tt
        end in
      let? _ := check_recovery_key recovery_pubkey in
      sign_and_append rd db agent_id kp (genesis agent_id k0 recovery_pubkey not_before).

Definition append_succession (rd : LineageReadings) (not_before : string) (db : LineageDb) (agent_id : string)
    (k_old : AgentKeypair) (successor : string) (recovery_pubkey : option string) :
    result (LineageDb * LineageRecord) LineageRefusal :=
  let? head := head_held_by db agent_id k_old in
  let? _ := ok_or (decode_public_base64 successor) (UndecodableKey "successor") in
  let? _ := check_recovery_key recovery_pubkey in
  let? r := ok_or (rotation head successor (carried_recovery recovery_pubkey head) not_before) EncodingFailed in
  sign_and_append rd db agent_id k_old r.

Definition append_revocation (rd : LineageReadings) (not_before : string) (db : LineageDb) (agent_id : string)
    (k_old : AgentKeypair) (successor : string) (from_seq : Z) (recovery_pubkey : option string) :
    result (LineageDb * LineageRecord) LineageRefusal :=
  let? head := head_held_by db agent_id k_old in
  let? _ := ok_or (decode_public_base64 successor) (UndecodableKey "successor") in
  let? _ := check_recovery_key recovery_pubkey in
  let? r := ok_or (revocation head successor from_seq (carried_recovery recovery_pubkey head) not_before)
              EncodingFailed in
  sign_and_append rd db agent_id k_old r.

Definition mint_recovery_record (db : LineageDb) (agent_id successor : string) (from_seq : option Z)
    (recovery_pubkey : option string) (not_before : string) : result LineageRecord LineageRefusal :=
  let? found := lineage_head db agent_id in
  let? head := ok_or found NotEnrolled in
  let? _ := ok_or (decode_public_base64 successor) (UndecodableKey "recovery successor") in
  let? _ := check_recovery_key recovery_pubkey in
  let? policy := ok_or policy NoGuardians in
  let? threshold := ok_or (rp_threshold policy) ThresholdUnset in
  ok_or (recovery head.1 successor from_seq (carried_recovery recovery_pubkey head.1) (guardian_set_id policy)
           threshold not_before) EncodingFailed.

Definition prepare_recovery_challenge (db : LineageDb) (agent_id successor : string) (from_seq : option Z)
    (recovery_pubkey : option string) (not_before : string) : result (LineageRecord * bytes) LineageRefusal :=
  let? r := mint_recovery_record db agent_id successor from_seq recovery_pubkey not_before in
  let? challenge := ok_or (signing_input r) EncodingFailed in
  Ok (r, challenge).

Definition append_recovery (rd : LineageReadings) (db : LineageDb) (agent_id successor : string)
    (quorum : list RecoveryAttestation) (from_seq : option Z) (recovery_pubkey : option string) (not_before : string) :
    result (LineageDb * LineageRecord) LineageRefusal :=
  let? r := mint_recovery_record db agent_id successor from_seq recovery_pubkey not_before in
  let? quorum_blob := ok_or (encode_recovery_quorum quorum) EncodingFailed in
  let? db := append_lineage_record rd db agent_id r quorum_blob in
  Ok (db, r).
End statements.


(* ------------------------------------------------------------------ *)
(** * Specification *)

(** The texts the clock prints: on them the order of texts is the order of
    instants. *)
Class UtcClock (T : Chrono) : Type := utc_text : string → Prop.
Class UtcClockLaw {T : Chrono} (U : UtcClock T) : Prop :=
  utc_in_order : ∀ a b, utc_text a → utc_text b → (a ≤ b)%string → in_order a b.

(** The text of a key survives trimming. *)
Class KeyTextLaw {CC : CapCrypto} (KB : KeyBytes CC) : Prop :=
  key_text_trimmed : ∀ k, str_trim (b64_encode (key_to_bytes k)) = b64_encode (key_to_bytes k).

Section spec.
Context {CC : CapCrypto} {LC : LedgerCrypto} {KB : KeyBytes CC} {CD : CborDecode} {T : Chrono} {JC : JsonCodec}
  {U : UtcClock T}.
Context (policy : option RecoveryPolicy) (try_sign : bytes → option bytes).

(** The records the four operations mint, from the state they read. *)
Inductive minted (db : LineageDb) (agent_id : string) : LineageRecord → Prop :=
| minted_genesis kp recovery_key not_before :
    utc_text not_before → minted db agent_id (genesis agent_id (public_base64 kp) (Some recovery_key) not_before)
| minted_rotation head sig successor recovery_key not_before r :
    lineage_head db agent_id = Ok (Some (head, sig)) → is_Some (decode_public_base64 successor) →
    utc_text not_before → rotation head successor recovery_key not_before = Some r → minted db agent_id r
| minted_revocation head sig successor from_seq recovery_key not_before r :
    lineage_head db agent_id = Ok (Some (head, sig)) → is_Some (decode_public_base64 successor) →
    utc_text not_before → (0 ≤ from_seq ≤ i64_max)%Z →
    revocation head successor from_seq recovery_key not_before = Some r → minted db agent_id r
| minted_recovery head sig successor from_seq recovery_key guardian_set threshold not_before r :
    lineage_head db agent_id = Ok (Some (head, sig)) → is_Some (decode_public_base64 successor) →
    utc_text not_before → (∀ n, from_seq = Some n → 0 ≤ n ≤ i64_max)%Z →
    recovery head successor from_seq recovery_key guardian_set threshold not_before = Some r → minted db agent_id r.

(** What can happen to the tables: a record that was minted and checked on an
    earlier state of the chain is committed; an event of another kind is
    appended; an agent registers. *)
Inductive lineage_step (db : LineageDb) : LineageDb → Prop :=
| step_append db0 rd agent_id r sig db' :
    ln_rows db0 ⊆ ln_rows db → minted db0 agent_id r → append_preflight policy db0 agent_id r sig = Ok tt →
    append_commit try_sign rd db agent_id r sig = Ok db' → lineage_step db db'
| step_event e events :
    se_event_type e ∉ IDENTITY_LINEAGE_EVENT_TYPES → append_signed_event_no_tx try_sign (ln_events db) e = Ok events →
    lineage_step db (mkLineageDb (ln_rows db) (ln_agents db) events (ln_in_tx db))
| step_register agent_id metadata content updated_at :
    ln_agents db !! agent_id = None →
    lineage_step db (set_agents (<[agent_id := mkAgentRow (JObject metadata) content updated_at]> (ln_agents db)) db).

(** A chain that is contiguous from zero, dated by the clock, and verifies;
    or none, and no witness of one. *)
Definition agent_sound (db : LineageDb) (agent_id : string) : Prop :=
  ∃ entries, lineage_epochs db agent_id = seqZ 0 (Z.of_nat (length entries))
    ∧ read_lineage db agent_id = Ok entries
    ∧ Forall (λ r, utc_text (li_not_before r)) entries.*1
    ∧ match entries with
      | [] => lineage_witness_hashes db agent_id = []
      | _ => ∃ v, verify_lineage_with_recovery entries (lineage_witness_hashes db agent_id)
                    (agent_pubkey db agent_id) policy = Ok v
      end.

Definition lineages_sound (db : LineageDb) : Prop :=
  (∀ agent_id, agent_sound db agent_id)
  ∧ ∀ agent_id a, ln_agents db !! agent_id = Some a → ∃ m, ag_metadata a = JObject m.

(* ------------------------------------------------------------------ *)
(** * Lemmas: reading *)

Lemma elem_of_epochs db agent_id n : n ∈ lineage_epochs db agent_id ↔ is_Some (ln_rows db !! (agent_id, n)).
Proof.
  unfold lineage_epochs. rewrite (stable_sort_Permutation Z.le), list_elem_of_omap. split.
  - intros ([a m] & Hin & Ha). simpl in Ha. case_decide; [|done]. injection Ha as ->. subst a.
    apply list_elem_of_fmap in Hin as ([k w] & -> & Hk). apply elem_of_map_to_list in Hk. simpl in *. by exists w.
  - intros [w Hw]. exists (agent_id, n). simpl. rewrite decide_True by done. split; [|done].
    apply list_elem_of_fmap. exists ((agent_id, n), w). split; [done|]. by apply elem_of_map_to_list.
Qed.

Lemma epochs_sorted db agent_id : StronglySorted Z.le (lineage_epochs db agent_id).
Proof. apply (StronglySorted_stable_sort Z.le). Qed.

Lemma epochs_nodup db agent_id : NoDup (lineage_epochs db agent_id).
Proof.
  unfold lineage_epochs. rewrite (stable_sort_Permutation Z.le).
  pose proof (NoDup_fst_map_to_list (ln_rows db)) as Hnd. induction ((map_to_list (ln_rows db)).*1) as [|[a n] l IH];
    [constructor|]. apply NoDup_cons in Hnd as [Hin Hnd]. simpl. case_decide; [|auto]. subst a. apply NoDup_cons.
  split; [|auto]. rewrite list_elem_of_omap. intros ([a m] & Hl & E). simpl in E. case_decide; [|done].
  simplify_eq. done.
Qed.

(** The epochs of an agent are determined by which rows it has. *)
Lemma epochs_are db agent_id l :
  StronglySorted Z.le l → NoDup l → (∀ n, n ∈ l ↔ is_Some (ln_rows db !! (agent_id, n))) →
  lineage_epochs db agent_id = l.
Proof.
  intros Hs Hnd H. apply (StronglySorted_unique Z.le); [apply epochs_sorted|done|].
  apply NoDup_Permutation; [apply epochs_nodup|done|]. intros n. by rewrite elem_of_epochs, H.
Qed.

Lemma seqZ_sorted a n : StronglySorted Z.le (seqZ a n).
Proof.
  destruct (Z_le_gt_dec 0 n); [|rewrite seqZ_nil by lia; constructor]. revert a.
  apply (natlike_ind (λ n, ∀ a, StronglySorted Z.le (seqZ a n))); [by constructor|intros j Hj IH a|lia].
  rewrite seqZ_cons by lia. constructor; [rewrite Z.pred_succ; apply IH|].
  apply Forall_forall. intros x Hx%elem_of_seqZ. lia.
Qed.

Lemma load_app db agent_id l1 l2 :
  load_epochs db agent_id (l1 ++ l2) =
  let? a := load_epochs db agent_id l1 in let? b := load_epochs db agent_id l2 in Ok (a ++ b).
Proof.
  induction l1 as [|n l1 IH]; simpl; [by destruct (load_epochs _ _ l2)|].
  destruct (ln_rows db !! (agent_id, n)) as [w|]; [|done]. destruct (row_to_lineage _ _ w); simpl; [|done].
  rewrite IH. destruct (load_epochs _ _ l1); simpl; [|done]. by destruct (load_epochs _ _ l2).
Qed.

Lemma load_ext db db' agent_id l :
  (∀ n, n ∈ l → ln_rows db' !! (agent_id, n) = ln_rows db !! (agent_id, n)) →
  load_epochs db' agent_id l = load_epochs db agent_id l.
Proof.
  induction l as [|n l IH]; intros H; [done|]. simpl. rewrite (H n) by left.
  rewrite IH; [done|]. intros m Hm. apply H. by right.
Qed.

Lemma row_epoch agent_id n w e : row_to_lineage agent_id n w = Ok e → li_epoch e.1 = n ∧ (0 ≤ n)%Z ∧ li_agent_id e.1 = agent_id.
Proof.
  unfold row_to_lineage. destruct (LineageReason_from_str _); simpl; [|done].
  destruct (CustodyClass_from_stored _); simpl; [|done]. case_decide; [done|]. intros [= <-]. simpl. split_and!; (done || lia).
Qed.

(** The rows loaded are those of the epochs, in order. *)
Lemma load_lookup db agent_id l entries : load_epochs db agent_id l = Ok entries →
  ∀ e, e ∈ entries → ∃ n w, n ∈ l ∧ ln_rows db !! (agent_id, n) = Some w ∧ row_to_lineage agent_id n w = Ok e.
Proof.
  revert entries. induction l as [|n l IH]; intros entries; simpl.
  { intros [= <-] e He. by apply elem_of_nil in He. }
  destruct (ln_rows db !! (agent_id, n)) as [w|] eqn:Hw.
  - destruct (row_to_lineage agent_id n w) as [e0|] eqn:He0; simpl; [|done].
    destruct (load_epochs db agent_id l) as [rest|]; simpl; [|done]. intros [= <-] e [->|He]%elem_of_cons.
    + exists n, w. split; [left|done].
    + destruct (IH rest eq_refl e He) as (m & w' & ? & ?). exists m, w'. split; [by right|done].
  - intros H e He. destruct (IH _ H e He) as (m & w' & ? & ?). exists m, w'. split; [by right|done].
Qed.

Lemma load_at db agent_id l entries n w e : load_epochs db agent_id l = Ok entries → n ∈ l →
  ln_rows db !! (agent_id, n) = Some w → row_to_lineage agent_id n w = Ok e → e ∈ entries.
Proof.
  intros Hl Hn Hw He. revert entries Hl. induction l as [|m l IH]; intros entries; [by apply elem_of_nil in Hn|]. simpl.
  apply elem_of_cons in Hn as [<-|Hn].
  - rewrite Hw, He. simpl. destruct (load_epochs db agent_id l); simpl; [|done]. intros [= <-]. by left.
  - destruct (ln_rows db !! (agent_id, m)) as [w'|]; [|by apply IH].
    destruct (row_to_lineage agent_id m w'); simpl; [|done]. destruct (load_epochs db agent_id l) as [rest|]; simpl; [|done].
    intros [= <-]. right. by apply (IH Hn rest).
Qed.

(** The head is the stored row with its epoch. *)
Lemma head_row db agent_id e : lineage_head db agent_id = Ok (Some e) →
  ∃ w, ln_rows db !! (agent_id, li_epoch e.1) = Some w ∧ row_to_lineage agent_id (li_epoch e.1) w = Ok e.
Proof.
  unfold lineage_head. destruct (read_lineage db agent_id) as [entries|] eqn:Hr; simpl; [|done]. intros [= Hl].
  apply last_Some_elem_of in Hl. destruct (load_lookup _ _ _ _ Hr e Hl) as (n & w & _ & Hw & He).
  destruct (row_epoch _ _ _ _ He) as (-> & _). by exists w.
Qed.
End spec.

(* ------------------------------------------------------------------ *)
(** * Lemmas: appending *)

(** What the integer columns can hold. *)
Definition storable (r : LineageRecord) : Prop :=
  (∀ n, li_from_seq r = Some n → 0 ≤ n ≤ i64_max)%Z ∧ (∀ n, li_threshold r = Some n → 0 ≤ n ≤ i64_max)%Z.

Lemma stored_exact (o : option Z) : (∀ n, o = Some n → 0 ≤ n ≤ i64_max)%Z → loaded_u64 <$> (stored_u64 <$> o) = o.
Proof.
  destruct o as [n|]; [|done]. intros H. specialize (H n eq_refl). simpl. unfold stored_u64, loaded_u64.
  rewrite (decide_True (P := (n ≤ i64_max)%Z)) by lia. by rewrite decide_True by lia.
Qed.

Lemma row_roundtrip r sig rb now : storable r → (0 ≤ li_epoch r)%Z →
  row_to_lineage (li_agent_id r) (li_epoch r) (lineage_to_row r sig rb now) = Ok (r, sig).
Proof.
  intros [Hf Ht] He. unfold row_to_lineage, lineage_to_row. simpl.
  rewrite (spelling_roundtrip (W := LineageReason_wire)). simpl.
  rewrite (spelling_roundtrip (W := CustodyClass_wire)). simpl. rewrite decide_False by lia.
  rewrite !stored_exact by done. by destruct r.
Qed.

Lemma append_shape `{LedgerCrypto} try_sign db e db' : append_signed_event_no_tx try_sign db e = Ok db' →
  ∃ row, db' = db ++ [row] ∧ er_agent_id row = se_agent_id e ∧ er_event_type row = se_event_type e
    ∧ er_payload_hash row = se_payload_hash e.
Proof.
  unfold append_signed_event_no_tx. destruct (read_chain_head db) as [[n h]|]; [|done].
  destruct (existsb _ db); [done|]. intros [= <-]. by eexists.
Qed.

Lemma witnesses_snoc db db' row agent_id : ln_events db' = ln_events db ++ [row] →
  lineage_witness_hashes db' agent_id
  ≡ₚ lineage_witness_hashes db agent_id ++ (if is_witness_of agent_id row then [er_payload_hash row] else []).
Proof.
  intros E. unfold lineage_witness_hashes. rewrite E, List.filter_app, !(stable_sort_Permutation by_sequence), !fmap_app.
  f_equiv. simpl. by destruct (is_witness_of agent_id row).
Qed.

Lemma witness_type reason : lineage_witness_event_type reason ∈ IDENTITY_LINEAGE_EVENT_TYPES.
Proof. apply list_elem_of_fmap_2. destruct reason; set_solver. Qed.

Section append.
Context {CC : CapCrypto} {LC : LedgerCrypto} {KB : KeyBytes CC} {CD : CborDecode} {T : Chrono} {JC : JsonCodec}.
Context (policy : option RecoveryPolicy).

(** What passed the checks. *)
Definition checked (db : LineageDb) (agent_id : string) (r : LineageRecord) (sig : bytes) : Prop :=
  li_agent_id r = agent_id ∧ li_custody r = SoftwareFile ∧ authorised policy r sig
  ∧ match lineage_head db agent_id with
    | Ok None => li_reason r = Genesis
    | Ok (Some (head, _)) =>
        li_reason r ≠ Genesis ∧ li_epoch r = (li_epoch head + 1)%Z ∧ li_predecessor r = li_successor head
        ∧ record_hash head = Some (li_prev_hash r)
    | Err _ => False
    end.

Lemma authority_checked r sig :
  (match li_reason r with
   | Recovery =>
       let? policy := ok_or policy NoGuardians in
       match verify_recovery_record r sig policy with Ok _ => Ok tt | Err e => Err (Unverifiable e) end
   | _ =>
       let? predecessor := ok_or (decode_public_base64 (li_predecessor r)) (UndecodableKey "predecessor") in
       match verify_succession r sig predecessor with Ok _ => Ok tt | Err e => Err (Unverifiable e) end
   end = Ok tt) ↔ authorised policy r sig.
Proof.
  unfold authorised. destruct (li_reason r).
  3: { destruct policy as [p|]; simpl; [|naive_solver]. split.
    - destruct (verify_recovery_record r sig p) as [v|] eqn:E; [|done]. intros _. exists p. split; [done|].
      by apply verify_recovery_Ok in E as [? _].
    - intros (p' & [= <-] & Hq). by apply quorum_met_verifies in Hq as [v ->]. }
  all: unfold signed_by_predecessor; destruct (decode_public_base64 _) as [k|]; simpl; [|naive_solver];
    destruct (verify_succession r sig k) as [[]|e] eqn:E; (split; [|]); try done;
    try (intros _; apply verify_succession_Ok in E as (i & ? & ? & ?); by exists k, i);
    intros (k' & i & [= <-] & Hi & Hl & Hv); exfalso;
    by rewrite (proj2 (verify_succession_Ok r sig k)) in E by eauto.
Qed.

Lemma preflight_Ok db agent_id r sig : append_preflight policy db agent_id r sig = Ok tt ↔ checked db agent_id r sig.
Proof.
  unfold append_preflight, checked, ensure_oss_mintable, is_software_file.
  destruct (decide (li_agent_id r = agent_id)) as [<-|Ha]; [rewrite decide_False by auto|rewrite decide_True by done; naive_solver].
  destruct (decide (li_custody r = SoftwareFile)) as [Hc|Hc];
    [rewrite bool_decide_eq_true_2 by done|rewrite bool_decide_eq_false_2 by done; naive_solver].
  destruct (lineage_head db (li_agent_id r)) as [[[h s]|]|]; simpl; [| |naive_solver].
  - destruct (decide (li_reason r = Genesis)) as [Hg|Hg]; [rewrite Hg; naive_solver|].
    rewrite <-authority_checked.
    destruct (decide (li_epoch r = li_epoch h + 1)%Z); [rewrite decide_False by auto|rewrite decide_True by done; destruct (li_reason r); naive_solver].
    destruct (decide (li_predecessor r = li_successor h)); [rewrite decide_False by auto|rewrite decide_True by done; destruct (li_reason r); naive_solver].
    destruct (record_hash h) as [d|]; simpl; [|destruct (li_reason r); naive_solver].
    destruct (decide (li_prev_hash r = d)) as [<-|]; [rewrite decide_False by auto|rewrite decide_True by done; destruct (li_reason r); naive_solver].
    destruct (li_reason r); simpl; naive_solver.
  - rewrite <-authority_checked. destruct (li_reason r); simpl; naive_solver.
Qed.

(** What a committed append did. *)
Record committed_append (rd : LineageReadings) (db db' : LineageDb) (agent_id : string) (r : LineageRecord)
    (sig : bytes) : Prop := {
  ca_idle : ln_in_tx db = false ∧ ln_in_tx db' = false;
  ca_epoch : (li_epoch r ≤ i64_max)%Z;
  ca_rows : ∃ rb, canonical_bytes r = Some rb ∧ ln_rows db !! (li_agent_id r, li_epoch r) = None
    ∧ ln_rows db' = <[(li_agent_id r, li_epoch r) := lineage_to_row r sig rb (lg_now rd)]> (ln_rows db);
  ca_agents : ∃ a a', ln_agents db !! agent_id = Some a ∧ ln_agents db' = <[agent_id := a']> (ln_agents db)
    ∧ ag_metadata a' = json_insert "pubkey_bound_at" (JString (lg_bound_at rd))
                         (json_insert "agent_pubkey" (JString (li_successor r)) (ag_metadata a));
  ca_witness : ∃ row, ln_events db' = ln_events db ++ [row] ∧ er_agent_id row = agent_id
    ∧ er_event_type row = lineage_witness_event_type (li_reason r)
    ∧ witness_payload_hash r = Some (er_payload_hash row)
}.

Lemma commit_Ok try_sign rd db agent_id r sig db' : append_commit try_sign rd db agent_id r sig = Ok db' →
  committed_append rd db db' agent_id r sig.
Proof.
  unfold append_commit. destruct (canonical_bytes r) as [rb|] eqn:Hrb; simpl; [|done].
  destruct (witness_payload_hash r) as [h|] eqn:Hh; simpl; [|done]. destruct (ln_in_tx db) eqn:Htx; [done|].
  case_decide; [done|]. destruct (ln_rows db !! _) eqn:Hrow; simpl; [done|].
  unfold bind_agent_pubkey. simpl. destruct (ln_agents db !! agent_id) as [a|] eqn:Ha; simpl; [|done].
  destruct (append_signed_event_no_tx _ _ _) as [events|] eqn:E; [|done]. intros [= <-].
  apply append_shape in E as (row & -> & ? & ? & Hp). split; simpl.
  - done.
  - lia.
  - by exists rb.
  - by do 2 eexists.
  - exists row. split_and!; [done..|]. by rewrite Hp.
Qed.
End append.

(* ------------------------------------------------------------------ *)
(** * Lemmas: the tables after an append *)

Lemma epochs_after db db' agent_id n w : (0 ≤ n)%Z →
  lineage_epochs db agent_id = seqZ 0 n → ln_rows db' = <[(agent_id, n) := w]> (ln_rows db) →
  lineage_epochs db' agent_id = seqZ 0 (n + 1).
Proof.
  intros Hn He Hr. apply epochs_are; [apply seqZ_sorted|apply NoDup_seqZ|]. intros m. rewrite elem_of_seqZ, Hr.
  destruct (decide (m = n)) as [->|Hm].
  - rewrite lookup_insert_eq. split; [by eexists|lia].
  - rewrite lookup_insert_ne by congruence. rewrite <-elem_of_epochs, He, elem_of_seqZ. lia.
Qed.

Lemma read_after db db' agent_id n w entries e : (0 ≤ n)%Z →
  lineage_epochs db agent_id = seqZ 0 n → read_lineage db agent_id = Ok entries →
  ln_rows db' = <[(agent_id, n) := w]> (ln_rows db) → row_to_lineage agent_id n w = Ok e →
  read_lineage db' agent_id = Ok (entries ++ [e]).
Proof.
  intros Hn He Hread Hr Hw. unfold read_lineage in *. rewrite (epochs_after db db' _ _ _ Hn He Hr), seqZ_app by lia.
  rewrite load_app, (load_ext db).
  2: { intros m Hm%elem_of_seqZ. rewrite Hr, lookup_insert_ne; [done|]. intros [= <-]. lia. }
  rewrite <-He, Hread. simpl. by rewrite !Z.add_0_l, Hr, lookup_insert_eq, Hw.
Qed.

(** The other agents' chains are left alone. *)
Lemma read_frame db db' a b k w : a ≠ b → ln_rows db' = <[(a, k) := w]> (ln_rows db) →
  lineage_epochs db' b = lineage_epochs db b ∧ read_lineage db' b = read_lineage db b.
Proof.
  intros Hne Hr. assert (∀ n, ln_rows db' !! (b, n) = ln_rows db !! (b, n)) as Hsame
    by (intros n; rewrite Hr, lookup_insert_ne; congruence).
  assert (lineage_epochs db' b = lineage_epochs db b) as He.
  { apply epochs_are; [apply epochs_sorted|apply epochs_nodup|]. intros n. by rewrite elem_of_epochs, Hsame. }
  split; [done|]. unfold read_lineage. rewrite He. by apply load_ext.
Qed.

Lemma size_set_of (l : list bytes) : size (list_to_set l : gset bytes) ≤ length l.
Proof.
  induction l as [|x l IH]; [done|]. simpl. rewrite size_union_alt, size_singleton.
  assert (list_to_set l ∖ {[x]} ⊆ (list_to_set l : gset bytes)) as Hs%subseteq_size by set_solver. lia.
Qed.

Section soundness.
Context {CC : CapCrypto} {LC : LedgerCrypto} {KB : KeyBytes CC} {CD : CborDecode} {T : Chrono} {JC : JsonCodec}
  {U : UtcClock T}.
Context {CL : CapCryptoLaws CC} {KL : KeyBytesLaws KB} {KT : KeyTextLaw KB} {UL : UtcClockLaw U}.
Context (policy : option RecoveryPolicy) (try_sign : bytes → option bytes).
Context (Hpolicy : ∀ p, policy = Some p → (Z.of_nat (length (rp_guardians p)) ≤ i64_max)%Z).

Lemma decode_own kp : decode_public_base64 (public_base64 kp) = Some (kp_public kp).
Proof.
  unfold decode_public_base64, public_base64. rewrite key_text_trimmed, b64_roundtrip. simpl.
  by rewrite key_to_bytes_length, Nat.eqb_refl, key_roundtrip.
Qed.

Lemma matches_own s k : decode_public_base64 s = Some k → matches_bound (Some s) s = true.
Proof. intros E. unfold matches_bound. simpl. rewrite E. by apply bool_decide_eq_true. Qed.

Lemma distinct_le p input quorum :
  (Z.of_nat (size (distinct_signers p input quorum)) ≤ Z.of_nat (length (rp_guardians p)))%Z.
Proof.
  assert (distinct_signers p input quorum ⊆ (list_to_set (key_to_bytes <$> rp_guardians p) : gset bytes)) as Hsub.
  { intros k. unfold distinct_signers. rewrite !elem_of_list_to_set, list_elem_of_omap. intros (att & _ & E).
    unfold counted in E. destruct (decode_public_base64 _) as [pk|]; simpl in E; [|done].
    destruct (bool_decide_reflect (key_to_bytes pk ∈ key_to_bytes <$> rp_guardians p)); simpl in E; [|done].
    destruct (negb _); [done|]. destruct (verify_strict _ _ _); [|done]. by injection E as <-. }
  apply subseteq_size in Hsub. pose proof (size_set_of (key_to_bytes <$> rp_guardians p)) as H.
  rewrite length_fmap in H. lia.
Qed.

Lemma clamped prev nb : utc_text (li_not_before prev) → utc_text nb →
  utc_text (clamp_not_before prev nb) ∧ in_order (li_not_before prev) (clamp_not_before prev nb).
Proof.
  intros Hp Hn. unfold clamp_not_before. split_strings; (split; [done|]); apply utc_in_order; try done.
Qed.

Lemma minted_walkable db agent_id r sig :
  minted db agent_id r → checked policy db agent_id r sig →
  (∀ h s, lineage_head db agent_id = Ok (Some (h, s)) → utc_text (li_not_before h) ∧ (0 ≤ li_epoch h)%Z) →
  utc_text (li_not_before r) ∧ storable r ∧ (0 ≤ li_epoch r)%Z ∧ is_Some (decode_public_base64 (li_successor r))
  ∧ match lineage_head db agent_id with
    | Ok None => genesis_shape r = true
    | Ok (Some (h, _)) => hands_off h r
    | Err _ => False
    end.
Proof.
  intros Hm (Ha & Hc & Hauth & Hhead) Hutc.
  assert (∀ n, li_threshold r = Some n → li_reason r = Recovery → 0 ≤ n ≤ i64_max)%Z as Hthr.
  { intros n Hn Hrec. unfold authorised in Hauth. rewrite Hrec in Hauth. destruct Hauth as (p & Hp & m & q & i & Hm' & H1 & _ & _ & _ & Hs).
    rewrite Hn in Hm'. injection Hm' as <-. pose proof (distinct_le p i q). specialize (Hpolicy p Hp). lia. }
  assert (∀ h s nb rec, lineage_head db agent_id = Ok (Some (h, s)) → rec ≠ Genesis → utc_text nb →
    is_Some (decode_public_base64 (li_successor r)) → li_reason r = rec → li_epoch r = (li_epoch h + 1)%Z →
    li_predecessor r = li_successor h → li_not_before r = clamp_not_before h nb → record_hash h = Some (li_prev_hash r) →
    storable r → utc_text (li_not_before r) ∧ storable r ∧ (0 ≤ li_epoch r)%Z
      ∧ is_Some (decode_public_base64 (li_successor r))
      ∧ match lineage_head db agent_id with
        | Ok None => genesis_shape r = true | Ok (Some (h, _)) => hands_off h r | Err _ => False end) as Hnext.
  { intros h s nb rec E Hrec Hnb Hd <- Hep Hpr Hnbr Hph Hst. destruct (Hutc h s E) as [Hu H0]. rewrite E.
    destruct (clamped h nb Hu Hnb) as [??]. unfold hands_off. rewrite Hnbr.
    by split_and!; (done || lia). }
  destruct Hm as [kp rk nb Hnb|h s succ rk nb r E Hd Hnb Hr|h s succ n rk nb r E Hd Hnb Hn Hr|h s succ n rk gs th nb r E Hd Hnb Hn Hr].
  - simpl. split; [done|]. split; [by split|]. split; [done|]. split; [by rewrite decode_own|]. destruct (lineage_head db agent_id) as [[[h s]|]|]; [|
      unfold genesis_shape; by rewrite !bool_decide_eq_true_2|done].
    by destruct Hhead as [[] _].
  - apply bind_Some in Hr as (d & Hd' & [= <-]). eapply (Hnext h s nb Rotation); eauto. by split.
  - apply bind_Some in Hr as (d & Hd' & [= <-]). eapply (Hnext h s nb Revocation); eauto.
    split; simpl; [by intros ? [= <-]|done].
  - apply bind_Some in Hr as (d & Hd' & [= <-]). eapply (Hnext h s nb Recovery); eauto.
    split; simpl; [done|]. intros m [= <-]. by apply Hthr.
Qed.

(** A record that passed the checks and found its epoch free is next. *)
Lemma next_record db db0 agent_id r sig entries :
  lineage_epochs db agent_id = seqZ 0 (Z.of_nat (length entries)) → read_lineage db agent_id = Ok entries →
  Forall (λ r, utc_text (li_not_before r)) entries.*1 → (entries ≠ [] → ∃ p, valid_chain p entries) →
  ln_rows db0 ⊆ ln_rows db → minted db0 agent_id r → checked policy db0 agent_id r sig →
  ln_rows db !! (agent_id, li_epoch r) = None →
  li_epoch r = Z.of_nat (length entries) ∧ utc_text (li_not_before r) ∧ storable r
  ∧ is_Some (decode_public_base64 (li_successor r))
  ∧ match last entries.*1 with Some h => hands_off h r | None => genesis_shape r = true end.
Proof.
  intros He Hread Hutc Hc Hsub Hmint Hchk Hnone. set (len := Z.of_nat (length entries)) in *.
  assert (∀ h s, lineage_head db0 agent_id = Ok (Some (h, s)) →
    (h, s) ∈ entries ∧ (0 ≤ li_epoch h < len)%Z) as Hhead.
  { intros h s (w & Hw & Hrow)%head_row. simpl in *. pose proof (lookup_weaken _ _ _ _ Hw Hsub) as Hw'.
    assert (li_epoch h ∈ lineage_epochs db agent_id) as Hin by (apply elem_of_epochs; by eexists).
    rewrite He in Hin. apply elem_of_seqZ in Hin. split; [|lia].
    apply (load_at db agent_id (seqZ 0 len) entries (li_epoch h) w); [by rewrite <-He|by apply elem_of_seqZ|done|done]. }
  destruct (minted_walkable db0 agent_id r sig Hmint Hchk) as (Hu & Hst & Hep & Hk & Hlink).
  { intros h s [Hin ?]%Hhead. rewrite Forall_fmap, Forall_forall in Hutc. split; [by apply (Hutc _ Hin)|lia]. }
  assert (¬ (0 ≤ li_epoch r < len)%Z) as Hnew.
  { intros H. assert (li_epoch r ∈ lineage_epochs db agent_id) as Hin by (rewrite He; apply elem_of_seqZ; lia).
    apply elem_of_epochs in Hin as [? Hin]. congruence. }
  destruct (lineage_head db0 agent_id) as [[[h s]|]|] eqn:E; [| |done].
  - destruct (Hhead h s eq_refl) as [Hin Hb]. pose proof Hlink as [Hnext _]. split_and!; [lia|done..|].
    destruct Hc as [p Hc]; [by intros ->; apply elem_of_nil in Hin|]. apply list_elem_of_lookup in Hin as [i Hi].
    assert (entries.*1 !! i = Some h) as Hi' by by rewrite list_lookup_fmap, Hi.
    pose proof (valid_chain_epoch _ _ _ _ Hc Hi') as Hih. apply lookup_lt_Some in Hi.
    rewrite last_lookup, length_fmap. replace (pred (length entries)) with i by (subst len; lia). by rewrite Hi'.
  - pose proof Hlink as Hg. unfold genesis_shape in Hg. rewrite !andb_true_iff, !bool_decide_eq_true in Hg.
    destruct Hg as [[[H0 _] _] _]. assert (len = 0%Z) as Hl by lia. split_and!; [lia|done..|].
    by destruct entries.
Qed.

(** The chain of the agent a record was committed for. *)
Lemma append_own db db' db0 rd agent_id r sig :
  agent_sound policy db agent_id → (∃ m, ag_metadata <$> ln_agents db !! agent_id = Some (JObject m)) →
  ln_rows db0 ⊆ ln_rows db → minted db0 agent_id r → checked policy db0 agent_id r sig →
  committed_append rd db db' agent_id r sig → agent_sound policy db' agent_id.
Proof.
  intros (entries & He & Hread & Hutc & Hv) [m Hm] Hsub Hmint Hchk [_ _ (rb & _ & Hnone & Hrows)
    (a & a' & Ha & Hagents & Hmeta) (row & Hev & Hwa & Hwt & Hwh)].
  pose proof Hchk as (Hid & _ & Hauth & _). rewrite Hid in Hnone, Hrows.
  destruct (next_record db db0 agent_id r sig entries) as (Hlen & Hu & Hst & [k Hk] & Hlast); [done..| |done|done|done|done|].
  { destruct entries as [|e entries]; [done|]. intros _. exists policy. by destruct Hv as [v [Hc _]%lineage_exact]. }
  rewrite Hlen in Hrows. set (len := Z.of_nat (length entries)) in *. exists (entries ++ [(r, sig)]).
  assert (row_to_lineage agent_id len (lineage_to_row r sig rb (lg_now rd)) = Ok (r, sig)) as Hrt
    by (rewrite <-Hid, <-Hlen; apply row_roundtrip; [done|lia]).
  assert (agent_pubkey db' agent_id = Some (li_successor r)) as Hpk.
  { unfold agent_pubkey, json_extract_text. rewrite Hagents, lookup_insert_eq. simpl. rewrite Hmeta.
    rewrite Ha in Hm. simpl in Hm. injection Hm as ->. simpl. by rewrite bget_insert_ne, bget_insert_eq by done. }
  pose proof (witnesses_snoc db db' row agent_id Hev) as Hws. unfold is_witness_of in Hws.
  rewrite Hwa, Hwt, !bool_decide_eq_true_2 in Hws by (done || apply witness_type). simpl in Hws.
  split_and!.
  - rewrite (epochs_after db db' agent_id len _ ltac:(lia) He Hrows), length_app. f_equal. simpl. lia.
  - apply (read_after db db' agent_id len (lineage_to_row r sig rb (lg_now rd))); (done || lia).
  - rewrite fmap_app. apply Forall_app. split; [done|]. by constructor.
  - rewrite Hpk. destruct entries as [|e0 entries'].
    + rewrite Hv in Hws. simpl in Hws. apply symmetry, Permutation_singleton_l in Hws. rewrite <-Hws. simpl.
      by eapply genesis_verified; [..|by eapply matches_own].
    + destruct Hv as [v Hv]. destruct (last (e0 :: entries').*1) as [h|] eqn:Hl; [|by apply last_None in Hl].
      assert (∃ v', verify_lineage_with_recovery ((e0 :: entries') ++ [(r, sig)]) (lineage_witness_hashes db' agent_id)
        (Some (li_successor r)) policy = Ok v') as Hv'; [|by destruct entries'].
      by eapply extend_verified; [exact Hv|exact Hl|exact Hlast|..|by eapply matches_own].
Qed.

(** A chain is as sound as its rows, its witnesses and its key. *)
Lemma sound_frame db db' b :
  agent_sound policy db b → lineage_epochs db' b = lineage_epochs db b → read_lineage db' b = read_lineage db b →
  lineage_witness_hashes db' b ≡ₚ lineage_witness_hashes db b →
  (is_Some (ln_agents db !! b) → agent_pubkey db' b = agent_pubkey db b) → agent_sound policy db' b.
Proof.
  intros (entries & He & Hr & Hu & Hv) He' Hr' Hw Hk. exists entries. rewrite He', Hr'. split_and!; [done..|].
  destruct entries as [|e entries].
  - rewrite Hv in Hw. by apply symmetry, Permutation_nil_l in Hw as ->.
  - destruct Hv as [v Hv]. exists v. apply lineage_exact in Hv as (Hc & (hs & Hhs & Hp) & hd & k & Hl & Hd & Hb & ->).
    apply lineage_exact. split_and!; [done|exists hs; by rewrite Hw|]. exists hd, k. split_and!; try done.
    rewrite Hk; [done|]. unfold agent_pubkey in Hb. destruct (ln_agents db !! b); [by eexists|].
    unfold matches_bound in Hb. simpl in Hb. done.
Qed.

Lemma read_same db db' b : ln_rows db' = ln_rows db → read_lineage db' b = read_lineage db b.
Proof.
  intros E. unfold read_lineage, lineage_epochs. rewrite E. apply load_ext. intros n _. by rewrite E.
Qed.

Lemma step_sound db db' : lineages_sound policy db → lineage_step policy try_sign db db' → lineages_sound policy db'.
Proof.
  intros [Hs Ho] Hstep. destruct Hstep as [db0 rd agent_id r sig db' Hsub Hmint Hpre Hcom|e events He Happ|agent_id m c at_ Hnew].
  - apply preflight_Ok in Hpre. apply commit_Ok in Hcom. pose proof Hcom as [_ _ (rb & _ & _ & Hrows)
      (a & a' & Ha & Hagents & Hmeta) (row & Hev & Hwa & _)]. destruct (Ho _ _ Ha) as [m Hm].
    pose proof Hpre as (Hid & _). rewrite Hid in Hrows. split.
    + intros b. destruct (decide (agent_id = b)) as [<-|Hne].
      { eapply append_own; [apply Hs| |exact Hsub|done..]. exists m. by rewrite Ha, <-Hm. }
      destruct (read_frame db db' agent_id b _ _ Hne Hrows) as [??].
      apply (sound_frame db); [apply Hs|done|done| |].
      * rewrite (witnesses_snoc db db' row b Hev). unfold is_witness_of. rewrite Hwa, (bool_decide_eq_false_2 (agent_id = b)) by done.
        simpl. by rewrite app_nil_r.
      * intros _. unfold agent_pubkey. by rewrite Hagents, lookup_insert_ne.
    + intros b x. rewrite Hagents. destruct (decide (agent_id = b)) as [<-|Hne];
        [rewrite lookup_insert_eq|rewrite lookup_insert_ne by done; apply Ho].
      intros [= <-]. rewrite Hmeta, Hm. simpl. by eexists.
  - apply append_shape in Happ as (row & Hev & _ & Ht & _). split; [|done]. intros b.
    apply (sound_frame db); [apply Hs|done|by apply read_same| |done]. rewrite (witnesses_snoc db _ row b) by done. unfold is_witness_of.
    rewrite Ht, (bool_decide_eq_false_2 (se_event_type e ∈ _)) by done. rewrite andb_false_r. by rewrite app_nil_r.
  - split.
    + intros b. apply (sound_frame db); [apply Hs|done|by apply read_same|done|]. intros [x Hx]. unfold agent_pubkey. simpl.
      by rewrite lookup_insert_ne by congruence.
    + intros b x. simpl. destruct (decide (agent_id = b)) as [<-|Hne];
        [rewrite lookup_insert_eq|rewrite lookup_insert_ne by done; apply Ho]. intros [= <-]. by eexists.
Qed.

(** C8: an identity survives its handoffs. From tables whose chains verify, after
    any sequence of enrolments, rotations, revocations and recoveries, each
    checked against the tables as they were when it was minted and committed
    after any number of others, of events of other kinds and of new agents
    registered, every agent with a chain still verifies and resolves to the key
    its newest record hands off to. Every record minted, recoveries included,
    carries a date as the clock prints it, any point of compromise it names is
    within 63 bits, and so is the number of guardians; no agent is registered
    again. Without the date, or after a second registration, a lineage can stop
    verifying ([undated_recovery_is_fatal], [reregistration_unbinds]). *)
Theorem lineages_stay_verified db db' agent_id :
  lineages_sound policy db → rtc (lineage_step policy try_sign) db db' →
  ∃ entries, read_lineage db' agent_id = Ok entries
    ∧ match last entries.*1 with
      | None => True
      | Some newest => ∃ k v, decode_public_base64 (li_successor newest) = Some k
          ∧ verify_agent_lineage policy db' agent_id = Ok (Ok v) ∧ vl_head_key v = k
          ∧ vl_records_checked v = (li_epoch newest + 1)%Z
          ∧ current_authoritative_key policy db' agent_id = Ok (Some k)
      end.
Proof.
  intros Hs Hrtc. assert (lineages_sound policy db') as [H _]
    by (induction Hrtc as [|x y z Hxy _ IH]; [done|]; apply IH; by eapply step_sound).
  destruct (H agent_id) as (entries & He & Hr & _ & Hv). exists entries. split; [done|].
  destruct (last entries.*1) as [newest|] eqn:Hl; [|done]. destruct entries as [|e entries]; [done|].
  destruct Hv as [v Hv]. pose proof Hv as (Hc & _ & hd & k & Hl' & Hd & _ & ->)%lineage_exact.
  rewrite Hl in Hl'. injection Hl' as <-. exists k, (report_of policy (e :: entries).*1 newest k).
  unfold verify_agent_lineage, current_authoritative_key. rewrite Hr. cbn [result_bind is_nil]. rewrite Hv.
  split_and!; try done. rewrite last_lookup in Hl. pose proof (valid_chain_epoch _ _ _ _ Hc Hl) as ->.
  simpl vl_records_checked. rewrite !length_fmap. cbn [length]. lia.
Qed.

End soundness.

(* ------------------------------------------------------------------ *)
(** * The four operations *)

Section operations.
Context {CC : CapCrypto} {LC : LedgerCrypto} {KB : KeyBytes CC} {CD : CborDecode} {T : Chrono} {JC : JsonCodec}
  {U : UtcClock T}.
Context (policy : option RecoveryPolicy) (try_sign : bytes → option bytes).

Lemma sign_and_append_Ok rd db agent_id kp r db' r' :
  sign_and_append policy try_sign rd db agent_id kp r = Ok (db', r') → r' = r
  ∧ ∃ sig, append_preflight policy db agent_id r sig = Ok tt ∧ append_commit try_sign rd db agent_id r sig = Ok db'.
Proof.
  unfold sign_and_append, append_lineage_record. destruct (sign_succession kp (to_signable r)) as [sig|]; [|done].
  destruct (append_preflight policy db agent_id r sig) as [[]|] eqn:E; simpl; [|done].
  destruct (append_commit try_sign rd db agent_id r sig) eqn:E'; simpl; [|done]. intros [= -> ->]. split; [done|].
  by exists sig.
Qed.

Lemma appended_step rd db agent_id r sig db' : minted db agent_id r →
  append_preflight policy db agent_id r sig = Ok tt → append_commit try_sign rd db agent_id r sig = Ok db' →
  lineage_step policy try_sign db db'.
Proof. intros. by eapply (step_append _ _ db db). Qed.

Lemma head_held_Ok db agent_id kp h : head_held_by db agent_id kp = Ok h →
  ∃ s, lineage_head db agent_id = Ok (Some (h, s)).
Proof.
  unfold head_held_by. destruct (lineage_head db agent_id) as [[[h' s]|]|]; simpl; [|done|done].
  destruct (can_sign kp); simpl; [|done]. destruct (decode_public_base64 _); simpl; [|done]. case_decide; [done|].
  intros [= <-]. by exists s.
Qed.

Lemma mint_recovery_Ok db agent_id succ fs rk nb r : mint_recovery_record policy db agent_id succ fs rk nb = Ok r →
  ∃ h s p n, lineage_head db agent_id = Ok (Some (h, s)) ∧ is_Some (decode_public_base64 succ) ∧ policy = Some p
    ∧ rp_threshold p = Some n ∧ recovery h succ fs (carried_recovery rk h) (guardian_set_id p) n nb = Some r.
Proof.
  unfold mint_recovery_record. destruct (lineage_head db agent_id) as [[[h s]|]|]; simpl; [|done|done].
  destruct (decode_public_base64 succ) as [k|]; simpl; [|done]. destruct (check_recovery_key rk); simpl; [|done].
  destruct policy as [p|]; simpl; [|done]. destruct (rp_threshold p) as [n|] eqn:Hn; simpl; [|done].
  destruct (recovery _ _ _ _ _ _ _) as [r'|] eqn:E; simpl; [|done]. intros [= <-]. exists h, s, p, n. by split_and!.
Qed.

(** Every operation on an identity, an enrolment, a rotation, a revocation
    or a recovery dated by the clock, is a step of the chain's life, so that what
    holds of every sequence of steps holds of every sequence of operations. *)
Lemma operations_are_steps rd db db' agent_id kp succ fs rk nb quorum r : utc_text nb →
  (enroll_lineage policy try_sign rd nb db agent_id kp rk = Ok (db', r) → lineage_step policy try_sign db db')
  ∧ (append_succession policy try_sign rd nb db agent_id kp succ rk = Ok (db', r) →
     lineage_step policy try_sign db db')
  ∧ (∀ n, (0 ≤ n ≤ i64_max)%Z → append_revocation policy try_sign rd nb db agent_id kp succ n rk = Ok (db', r) →
     lineage_step policy try_sign db db')
  ∧ ((∀ n, fs = Some n → 0 ≤ n ≤ i64_max)%Z →
     append_recovery policy try_sign rd db agent_id succ quorum fs rk nb = Ok (db', r) →
     lineage_step policy try_sign db db').
Proof.
  intros Hnb. split_and!.
  - unfold enroll_lineage. destruct (can_sign kp); simpl; [|done]. destruct (lineage_head db agent_id) as [[?|]|]; simpl; [done| |done].
    destruct rk as [rec|]; [|done]. cbn [is_some negb].
    destruct (match agent_pubkey db agent_id with Some _ => _ | None => _ end) as [[]|]; cbn [result_bind]; [|done].
    destruct (check_recovery_key (Some rec)) as [[]|]; cbn [result_bind]; [|done].
    intros (-> & sig & Hp & Hc)%sign_and_append_Ok. eapply appended_step; [by apply minted_genesis|done..].
  - unfold append_succession. destruct (head_held_by db agent_id kp) as [h|] eqn:Eh; simpl; [|done].
    apply head_held_Ok in Eh as [s Eh]. destruct (decode_public_base64 succ) as [k|] eqn:Ek; simpl; [|done].
    destruct (check_recovery_key rk); simpl; [|done]. destruct (rotation _ _ _ _) as [r0|] eqn:Er; simpl; [|done].
    intros (-> & sig & Hp & Hc)%sign_and_append_Ok.
    eapply appended_step; [eapply minted_rotation; [done|by rewrite Ek|done..]|done..].
  - intros n Hn. unfold append_revocation. destruct (head_held_by db agent_id kp) as [h|] eqn:Eh; simpl; [|done].
    apply head_held_Ok in Eh as [s Eh]. destruct (decode_public_base64 succ) as [k|] eqn:Ek; simpl; [|done].
    destruct (check_recovery_key rk); simpl; [|done]. destruct (revocation _ _ _ _ _) as [r0|] eqn:Er; simpl; [|done].
    intros (-> & sig & Hp & Hc)%sign_and_append_Ok.
    eapply appended_step; [eapply minted_revocation; [done|by rewrite Ek|done..]|done..].
  - intros Hfs. unfold append_recovery, append_lineage_record.
    destruct (mint_recovery_record _ _ _ _ _ _ _) as [r0|] eqn:Em; simpl; [|done].
    apply mint_recovery_Ok in Em as (h & s & p & n & Eh & Ek & _ & _ & Er).
    destruct (encode_recovery_quorum quorum) as [blob|]; simpl; [|done].
    destruct (append_preflight policy db agent_id r0 blob) as [[]|] eqn:E; simpl; [|done].
    destruct (append_commit _ _ _ _ _ _) eqn:E'; simpl; [|done]. intros [= -> ->].
    eapply appended_step; [by eapply minted_recovery|done..].
Qed.

(* ------------------------------------------------------------------ *)
(** * What the append does not check *)

Lemma chained_after prior rs i r : chained prior rs → rs !! i = Some r → ∃ p, hands_off p r.
Proof.
  revert prior i. induction rs as [|x rs IH]; intros prior i; [done|]. intros [Hx Hc].
  destruct i as [|i]; simpl; [intros [= ->]; by exists prior|].
  intros Hi. by apply (IH x i).
Qed.

(** A recovery with an unreadable date takes the identity away. The append
    compares dates as texts and never reads one, so a record dated after its
    head in the order of texts, and in no other, is persisted; from then on, rows
    being only ever added, the agent resolves to no key, whatever is appended
    later and whatever guardians are enrolled. *)
Lemma undated_recovery_is_fatal rd db db' db'' agent_id succ quorum fs rk nb r policy' k :
  append_recovery policy try_sign rd db agent_id succ quorum fs rk nb = Ok (db', r) →
  li_not_before r = nb → parse_rfc3339 nb = None → ln_rows db' ⊆ ln_rows db'' →
  current_authoritative_key policy' db'' agent_id ≠ Ok (Some k).
Proof.
  unfold append_recovery, append_lineage_record. intros Hop Hnb Hparse Hsub.
  destruct (mint_recovery_record _ _ _ _ _ _ _) as [r0|] eqn:Em; simpl in Hop; [|done].
  apply mint_recovery_Ok in Em as (h & s & p & n & Eh & _ & _ & _ & (d & _ & [= <-])%bind_Some).
  destruct (encode_recovery_quorum quorum) as [blob|]; simpl in Hop; [|done].
  destruct (append_preflight _ _ _ _ _) as [[]|] eqn:E; simpl in Hop; [|done].
  destruct (append_commit _ _ _ _ _ _) as [db1|] eqn:E'; simpl in Hop; [|done]. injection Hop as -> <-.
  apply preflight_Ok in E as (Hid & _). apply commit_Ok in E' as [_ _ (rb & _ & _ & Hrows) _ _].
  rewrite Hid in Hrows. apply head_row in Eh as (w & _ & Hw). apply row_epoch in Hw as (_ & Hpos & _). simpl in *.
  set (row := lineage_to_row _ _ _ _) in Hrows.
  assert (ln_rows db'' !! (agent_id, li_epoch h + 1)%Z = Some row) as Hrow
    by (eapply lookup_weaken; [|exact Hsub]; rewrite Hrows; apply lookup_insert_eq).
  unfold current_authoritative_key. destruct (read_lineage db'' agent_id) as [entries|] eqn:Hread; simpl; [|done].
  assert (∃ e, row_to_lineage agent_id (li_epoch h + 1) row = Ok e ∧ li_not_before e.1 = nb) as (e & He & Hed).
  { unfold row_to_lineage, row, lineage_to_row. simpl. rewrite decide_False by lia. by eexists. }
  pose proof (load_at _ _ _ _ _ _ _ Hread ltac:(by apply elem_of_epochs) Hrow He) as Hin.
  destruct (is_nil entries) eqn:Hnil; [by destruct entries; [apply elem_of_nil in Hin|]|].
  destruct (verify_lineage_with_recovery _ _ _ _) as [v|] eqn:Hv; [|done]. intros _.
  apply lineage_exact in Hv as (Hc & _). apply list_elem_of_lookup in Hin as [i Hi].
  assert (entries.*1 !! i = Some e.1) as Hi' by by rewrite list_lookup_fmap, Hi.
  pose proof (valid_chain_epoch _ _ _ _ Hc Hi') as Hie. destruct (row_epoch _ _ _ _ He) as (Hee & _).
  destruct Hc as [Hc _]. destruct entries as [|[g sg] entries]; [done|]. destruct Hc as [_ Hc].
  destruct i as [|i]; [lia|]. simpl in Hi'. destruct (chained_after _ _ _ _ Hc Hi') as (q & _ & _ & (a & b & _ & Hb & _) & _).
  congruence.
Qed.

Context {CL : CapCryptoLaws CC} {KL : KeyBytesLaws KB} {KT : KeyTextLaw KB}.

(** One guardian is enough, whatever threshold is configured. The quorum a
    recovery is checked against is the number the record itself carries, and the
    record is covered by no other signature than the guardians': over any
    enrolled head, a record that asks for one guardian and is signed by one is
    accepted by the append and by the walk. *)
Lemma one_guardian_suffices db agent_id h s succ fs rk gs nb p kp sk r input blob :
  policy = Some p → kp_private kp = Some sk → keypair_wf kp → kp_public kp ∈ rp_guardians p →
  lineage_head db agent_id = Ok (Some (h, s)) → li_agent_id h = agent_id →
  recovery h succ fs rk gs 1 nb = Some r → signing_input r = Some input →
  decode_recovery_quorum blob = Some [mkAttestation (public_base64 kp) (sign sk input)] →
  append_preflight policy db agent_id r blob = Ok tt ∧ authorised policy r blob.
Proof.
  intros Hp Hsk Hwf Hin Eh Hid (d & Hd & [= <-])%bind_Some Hi Hq.
  assert (authorised policy (mkLineage (li_agent_id h) (li_epoch h + 1) Recovery (li_successor h) succ rk
    (clamp_not_before h nb) d SoftwareFile fs (Some gs) (Some 1%Z)) blob) as Ha.
  { exists p. split; [done|]. exists 1%Z, [mkAttestation (public_base64 kp) (sign sk input)], input.
    split_and!; try done.
    assert (counted p input (mkAttestation (public_base64 kp) (sign sk input)) = Some (key_to_bytes (kp_public kp))) as Hc.
    { unfold counted. cbn [ra_guardian ra_signature]. rewrite decode_own. cbn [mbind option_bind].
      rewrite bool_decide_eq_true_2 by (by apply list_elem_of_fmap_2). rewrite sign_length. cbn [negb Nat.eqb].
      by rewrite (Hwf _ Hsk), sign_verifies. }
    unfold distinct_signers. cbn [omap list_omap]. rewrite Hc. by rewrite list_to_set_singleton_L, size_singleton. }
  split; [|exact Ha]. apply preflight_Ok. unfold checked. rewrite Eh. by split_and!.
Qed.

(** The verdict is clean exactly when a chain is enrolled and every enrolled
    chain verifies. *)
Lemma find_failed_None l : find_failed l = None ↔ Forall (λ o, lo_failure o = None) l.
Proof.
  induction l as [|o l IH]; simpl; [by split|]. rewrite Forall_cons, <-IH. destruct (lo_failure o); naive_solver.
Qed.

Lemma find_failed_Some l c : find_failed l = Some c → ∃ d, c = LineageForged d.
Proof. induction l as [|o l IH]; simpl; [done|]. destruct (lo_failure o); [intros [= <-]; by eexists|done]. Qed.

Lemma find_revoked_Some l c : find_revoked l = Some c → ∃ n d, c = LineageRevoked n d.
Proof.
  induction l as [|o l IH]; simpl; [done|]. destruct (lo_revoked_from_seq o); [intros [= <-]; by do 2 eexists|done].
Qed.

Definition verdict_clean (c : LineageCheck) : bool :=
  match c with LineageForged _ | LineageMissing => false | _ => true end.

Lemma elem_of_lineage_agents db a : a ∈ lineage_agents db ↔ ∃ n, is_Some (ln_rows db !! (a, n)).
Proof.
  unfold lineage_agents. rewrite (stable_sort_Permutation String.le), elem_of_elements, elem_of_list_to_set. split.
  - intros ([b n] & -> & H)%list_elem_of_fmap. apply list_elem_of_fmap in H as ([k w] & E & H).
    apply elem_of_map_to_list in H. simpl in *. subst k. exists n. by eexists.
  - intros [n [w Hw]]. apply list_elem_of_fmap. exists (a, n). split; [done|]. apply list_elem_of_fmap.
    exists ((a, n), w). split; [done|]. by apply elem_of_map_to_list.
Qed.

Lemma verdict_exact {RD : RefusalDisplay} db require :
  verdict_clean (compute_identity_lineage_verdict policy db require) = true ↔
  (ln_rows db = ∅ ∧ require = false)
  ∨ (ln_rows db ≠ ∅ ∧ ∀ a n, is_Some (ln_rows db !! (a, n)) → ∃ v, verify_agent_lineage policy db a = Ok (Ok v)).
Proof.
  unfold compute_identity_lineage_verdict, compute_lineage_check.
  destruct (lineage_agents db) as [|a0 l] eqn:Hl.
  - assert (ln_rows db = ∅) as H0.
    { apply map_empty. intros [a n]. destruct (ln_rows db !! (a, n)) eqn:E; [|done].
      assert (a ∈ lineage_agents db) as Hin by (apply elem_of_lineage_agents; exists n; by eexists).
      rewrite Hl in Hin. by apply elem_of_nil in Hin. }
    simpl. destruct require; simpl; naive_solver.
  - assert (ln_rows db ≠ ∅) as H0.
    { intros E. assert (a0 ∈ lineage_agents db) as (n & w & Hw)%elem_of_lineage_agents by (rewrite Hl; left).
      by rewrite E in Hw. }
    rewrite <-Hl. set (out := lineage_outcome policy db <$> lineage_agents db).
    assert (is_nil out = false) as -> by (unfold out; by rewrite Hl).
    assert (Forall (λ o, lo_failure o = None) out ↔
      ∀ a n, is_Some (ln_rows db !! (a, n)) → ∃ v, verify_agent_lineage policy db a = Ok (Ok v)) as Hall.
    { unfold out. rewrite Forall_fmap, Forall_forall.
      assert (∀ a, lo_failure (lineage_outcome policy db a) = None ↔ ∃ v, verify_agent_lineage policy db a = Ok (Ok v)) as Ho.
      { intros a. unfold lineage_outcome. destruct (verify_agent_lineage policy db a) as [[v|e]|e]; simpl; naive_solver. }
      setoid_rewrite elem_of_lineage_agents. simpl. setoid_rewrite Ho. naive_solver. }
    rewrite <-Hall, <-find_failed_None. destruct (find_failed out) as [c|] eqn:Ef.
    + apply find_failed_Some in Ef as [d ->]. naive_solver.
    + destruct (find_revoked out) as [c|] eqn:Er; simpl; [apply find_revoked_Some in Er as (n & d & ->)|]; naive_solver.
Qed.
End operations.

(* ------------------------------------------------------------------ *)
(** * Demonstration *)

#[local] Existing Instance demo_attest_crypto.
#[local] Existing Instance demo_key_codec.
#[local] Existing Instance demo_ledger_crypto.
#[local] Instance demo_lineage_json : JsonCodec := {| json_to_string _ := "{}"; json_from_str _ := None |}.

(** A clock that prints one digit. *)
#[local] Instance demo_clock : Chrono := {|
  parse_rfc3339 s :=
    if decide (s = "1") then Some (mkDateTime 1 0) else if decide (s = "2") then Some (mkDateTime 2 0) else None;
  to_rfc3339 t := if decide (dt_instant t = 1%Z) then "1" else "2"
|}.
#[local] Instance demo_utc : UtcClock demo_clock := λ s, s = "1" ∨ s = "2".

Lemma demo_utc_law : UtcClockLaw demo_utc.
Proof.
  intros a b [-> | ->] [-> | ->] H; unfold in_order; simpl;
    try (by vm_compute in H; destruct H); do 2 eexists; by split_and!.
Qed.

Lemma demo_key_text : KeyTextLaw demo_key_codec.
Proof. by intros []. Qed.

Definition demo_kp (k : bool) : AgentKeypair := mkKeypair "ai:a" k (Some k).
Definition demo_key (k : bool) : string := public_base64 (demo_kp k).
Definition demo_policy : option RecoveryPolicy := Some (mkRecovery [true; false] (Some 2%Z)).
Definition demo_read (uuid : string) : LineageReadings := mkReadings "now" "now" uuid.
Definition demo_start : LineageDb := mkLineageDb ∅ {["ai:a" := mkAgentRow (JObject []) JNull "0"]} [] false.
Definition demo_result {A} (dflt : A) (r : result (A * LineageRecord) LineageRefusal) : A :=
  match r with Ok (db, _) => db | Err _ => dflt end.

#[local] Instance no_decode : CborDecode := λ _, None.
Definition demo_enrolled : LineageDb :=
  demo_result demo_start (enroll_lineage demo_policy (λ _, None) (demo_read "e1") "1" demo_start "ai:a" (demo_kp true)
    (Some (demo_key false))).
Definition demo_rotated : LineageDb :=
  demo_result demo_start (append_succession demo_policy (λ _, None) (demo_read "e2") "2" demo_enrolled "ai:a"
    (demo_kp true) (demo_key false) None).

Lemma demo_lineages_sound : lineages_sound demo_policy demo_start.
Proof.
  split.
  - intros a. exists []. split_and!; [done..|]. done.
  - intros a x. unfold demo_start. simpl. intros [<- <-]%lookup_singleton_Some. by eexists.
Qed.

Definition demo_records (db : LineageDb) : list (LineageRecord * bytes) :=
  match read_lineage db "ai:a" with Ok l => l | Err _ => [] end.

Definition demo_head (db : LineageDb) : option VerifyingKey :=
  last (demo_records db).*1 ≫= λ r, decode_public_base64 (li_successor r).

Lemma Ok_inj {A E} (a b : A) : @Ok A E a = Ok b → a = b.
Proof. by intros [= ->]. Qed.

Lemma demo_steps : rtc (lineage_step demo_policy (λ _, None)) demo_start demo_rotated.
Proof.
  apply (rtc_l _ _ demo_enrolled); [|apply rtc_once].
  - pose proof (operations_are_steps demo_policy (λ _, None) (demo_read "e1") demo_start demo_enrolled "ai:a"
      (demo_kp true) "" None (Some (demo_key false)) "1" [] (genesis "ai:a" (demo_key true) (Some (demo_key false)) "1")
      (or_introl eq_refl)) as [H _]. apply H. by vm_compute.
  - assert (is_ok (append_succession demo_policy (λ _, None) (demo_read "e2") "2" demo_enrolled "ai:a"
      (demo_kp true) (demo_key false) None) = true) as Hok by by vm_compute.
    unfold demo_rotated. destruct (append_succession _ _ _ _ _ _ _ _ _) as [[db r]|e] eqn:E; [|discriminate Hok].
    pose proof (operations_are_steps demo_policy (λ _, None) (demo_read "e2") demo_enrolled db "ai:a"
      (demo_kp true) (demo_key false) None None "2" [] r (or_intror eq_refl)) as (_ & H & _). exact (H E).
Qed.

Lemma lineages_stay_verified_witness :
  ∃ entries, read_lineage demo_rotated "ai:a" = Ok entries ∧ length entries = 2
    ∧ current_authoritative_key demo_policy demo_rotated "ai:a" = Ok (Some false).
Proof.
  assert (∀ p : RecoveryPolicy, demo_policy = Some p → (Z.of_nat (length (rp_guardians p)) ≤ i64_max)%Z) as Hp
    by by intros p [= <-].
  destruct (lineages_stay_verified (CL := demo_attest_laws) (KL := demo_key_laws) (KT := demo_key_text)
    (UL := demo_utc_law) demo_policy (λ _, None) Hp demo_start demo_rotated "ai:a" demo_lineages_sound demo_steps)
    as (entries & Hr & H).
  assert (read_lineage demo_rotated "ai:a" = Ok (demo_records demo_rotated)) as Hr' by by vm_compute.
  assert (length (demo_records demo_rotated) = 2) as Hlen by by vm_compute.
  assert (demo_head demo_rotated = Some false) as Hlast by by vm_compute.
  rewrite Hr in Hr'. apply Ok_inj in Hr' as ->. exists (demo_records demo_rotated). split; [exact Hr|]. split; [exact Hlen|].
  unfold demo_head in Hlast. destruct (last (demo_records demo_rotated).*1) as [newest|]; [|discriminate Hlast].
  destruct H as (k & v & Hk & _ & _ & _ & Hcur). cbn [mbind option_bind] in Hlast.
  assert (k = false) as -> by congruence. exact Hcur.
Defined.

Definition demo_walk : result VerifiedLineage LineageError :=
  verify_lineage_with_recovery (demo_records demo_rotated) (lineage_witness_hashes demo_rotated "ai:a")
    (agent_pubkey demo_rotated "ai:a") demo_policy.

Lemma lineage_tamper_evident_witness :
  is_ok demo_walk = true ∧ ((demo_records demo_rotated).*1 = (demo_records demo_rotated).*1 ∨ Ledger.collision).
Proof.
  assert (is_ok demo_walk = true) as Hok by by vm_compute. split; [exact Hok|].
  destruct demo_walk as [v|e] eqn:E; [|discriminate Hok].
  exact (lineage_tamper_evident (CL := demo_attest_laws) demo_policy demo_policy _ _ _ _ _ v v E E).
Defined.

(** A recovery of the enrolled agent, its two guardians' signatures, and the
    reading of the blob they are kept in. *)
Definition demo_newest (db : LineageDb) : LineageRecord * bytes :=
  default (genesis "" "" None "", []) (last (demo_records db)).
Definition recovery_of (h : LineageRecord) (threshold : Z) (nb : string) : LineageRecord :=
  default h (recovery h (demo_key false) None (carried_recovery None h)
               (guardian_set_id (mkRecovery [true; false] (Some 2%Z))) threshold nb).
Definition demo_recovery (threshold : Z) (nb : string) : LineageRecord :=
  recovery_of (demo_newest demo_enrolled).1 threshold nb.
Definition demo_signature (k : bool) (r : LineageRecord) : RecoveryAttestation :=
  mkAttestation (demo_key k) (sign k (default [] (signing_input r))).
Definition demo_quorum : list RecoveryAttestation :=
  [demo_signature true (demo_recovery 2 "zzz"); demo_signature false (demo_recovery 2 "zzz")].
Definition demo_single : list RecoveryAttestation := [demo_signature true (demo_recovery 1 "2")].
Definition demo_blob (quorum : list RecoveryAttestation) : bytes := demo_encode (quorum_value quorum).

Definition demo_decode : CborDecode := λ b,
  if decide (b = demo_blob demo_quorum) then Some (quorum_value demo_quorum)
  else if decide (b = demo_blob demo_single) then Some (quorum_value demo_single) else None.

Definition demo_undated : result (LineageDb * LineageRecord) LineageRefusal :=
  append_recovery (CD := demo_decode) demo_policy (λ _, None) (demo_read "e2") demo_enrolled "ai:a" (demo_key false)
    demo_quorum None None "zzz".

Lemma undated_recovery_is_fatal_witness :
  match demo_undated with
  | Ok (db, _) => ∀ k, current_authoritative_key (CD := demo_decode) demo_policy db "ai:a" ≠ Ok (Some k)
  | Err _ => False
  end.
Proof.
  assert (match demo_undated with Ok (_, r) => bool_decide (li_not_before r = "zzz") | Err _ => false end = true) as Hok
    by by vm_compute.
  destruct demo_undated as [[db r]|e] eqn:E; [|discriminate Hok]. apply bool_decide_eq_true_1 in Hok. intros k.
  assert (ln_rows db ⊆ ln_rows db) as Hsub by reflexivity. unfold demo_undated in E. revert E.
  generalize demo_quorum, demo_enrolled, (demo_key false). intros quorum start key E.
  exact (undated_recovery_is_fatal (CD := demo_decode) demo_policy (λ _, None) (demo_read "e2") start db db "ai:a"
    key quorum None None "zzz" r demo_policy k E Hok eq_refl Hsub).
Defined.

Lemma one_guardian_suffices_witness :
  append_preflight (CD := demo_decode) demo_policy demo_enrolled "ai:a" (demo_recovery 1 "2") (demo_blob demo_single)
  = Ok tt.
Proof.
  assert (∃ h s input, lineage_head demo_enrolled "ai:a" = Ok (Some (h, s)) ∧ li_agent_id h = "ai:a"
    ∧ recovery h (demo_key false) None (carried_recovery None h)
        (guardian_set_id (mkRecovery [true; false] (Some 2%Z))) 1 "2" = Some (demo_recovery 1 "2")
    ∧ signing_input (demo_recovery 1 "2") = Some input
    ∧ decode_recovery_quorum (CD := demo_decode) (demo_blob demo_single)
      = Some [mkAttestation (demo_key true) (sign (true : SigningKey) input)]) as (h & s & input & Hh & Hid & Hr & Hi & Hq).
  { exists (demo_newest demo_enrolled).1, (demo_newest demo_enrolled).2,
      (default [] (signing_input (demo_recovery 1 "2"))).
    split; [by vm_compute|]. split; [by vm_compute|]. split; [by vm_compute|]. split; by vm_compute. }
  refine (proj1 (one_guardian_suffices (CD := demo_decode) (CL := demo_attest_laws) (KL := demo_key_laws)
    (KT := demo_key_text) demo_policy demo_enrolled "ai:a" h s _ _ _ _ _ (mkRecovery [true; false] (Some 2%Z))
    (demo_kp true) (true : SigningKey) (demo_recovery 1 "2") input (demo_blob demo_single) eq_refl eq_refl _ _ Hh Hid Hr Hi Hq)).
  - by intros k [= <-].
  - by left.
Defined.
