(* ===== verification/Replay.v ===== *)
(** Replay protection ([src/src/identity/replay.rs]): the cache of verified
    links and the per-peer cache of federation nonces with its table on disk,
    their windows, and what a restart keeps. *)
From S2P Require Import Prelude.
From S2P Require Import Bytes.
From S2P Require Import Ledger.
From S2P Require Import Lineage.

(* ------------------------------------------------------------------ *)
(** * Definitions *)

Inductive ReplayDecision : Type := Fresh | Replay.

#[global] Instance ReplayDecision_eq_dec : EqDecision ReplayDecision.
Proof. solve_decision. Defined.

Definition SEEN_VERIFICATIONS_CAPACITY : Z := 100000.
Definition FEDERATION_NONCE_CAPACITY_PER_PEER : Z := 10000.
Definition FEDERATION_NONCE_MAX_PEERS : Z := 1024.

(** A set for membership and a queue for eviction. *)
Record Window : Type := mkWindow { seen : gset bytes; order : list bytes }.

Definition window_empty : Window := mkWindow ∅ [].

(** A full queue drops its oldest fingerprint. *)
Definition window_evict (capacity : Z) (w : Window) : Window * option bytes :=
  if bool_decide (capacity ≤ Z.of_nat (length (order w)))%Z then
    match order w with
    | [] => (w, None)
    | old :: rest => (mkWindow (seen w ∖ {[old]}) rest, Some old)
    end
  else (w, None).

Definition window_push (w : Window) (fp : bytes) : Window := mkWindow (seen w ∪ {[fp]}) (order w ++ [fp]).

Definition window_record (capacity : Z) (w : Window) (fp : bytes) : Window * option bytes * ReplayDecision :=
  if bool_decide (fp ∈ seen w) then (w, None, Replay)
  else let '(w, evicted) := window_evict capacity w in (window_push w fp, evicted, Fresh).

(** A component with its length as four bytes; the cast drops the high bits. *)
Definition u32_prefixed (field : bytes) : bytes := be_bytes 4 (Z.of_nat (length field)) ++ field.

Module ReplayCache.
Section with_hash.
Context {LC : LedgerCrypto}.

Record t : Type := mk { inner : Window; evictions : Z }.

Definition new : t := mk window_empty 0.

Definition fingerprint (link_id : string) (signature : bytes) (nonce : string) : bytes :=
  sha256 (u32_prefixed (str_bytes link_id) ++ u32_prefixed signature ++ u32_prefixed (str_bytes nonce)).

Definition record_and_check (c : t) (link_id : string) (signature : bytes) (nonce : string) : t * ReplayDecision :=
  let '(w, evicted, decision) :=
    window_record SEEN_VERIFICATIONS_CAPACITY (inner c) (fingerprint link_id signature nonce) in
  (mk w (if is_some evicted then ((evictions c + 1) mod 2 ^ 64)%Z else evictions c), decision).
End with_hash.
End ReplayCache.

(** A row of [federation_nonce_cache]: its key and its [last_touch]. *)
Abbreviation nonce_table := (gmap (string * bytes) Z).
Abbreviation nonce_row := (string * bytes * Z)%type.

(** [ORDER BY last_touch ASC] *)
Definition by_touch (a b : nonce_row) : Prop := (a.2 ≤ b.2)%Z.
#[global] Instance by_touch_dec : RelDecision by_touch.
Proof. intros a b. apply Z_le_dec. Defined.

Section with_hash.
Context {LC : LedgerCrypto}.

(** A peer's fingerprints, and when it was last heard. *)
Record PeerNonceSlot : Type := mkSlot { slot_window : Window; last_touch : Z }.

Record FederationNonceCache : Type := mkNonceCache {
  nc_peers : gmap string PeerNonceSlot;
  nc_touch_counter : Z;
  nc_peer_evictions : Z;
  nc_disk : option nonce_table
}.

(** Which statements of the write-behind succeed. *)
Record DiskIo : Type := mkDiskIo { io_open : bool; io_insert : bool; io_delete_fp : bool; io_delete_peer : bool }.

Definition all_ok : DiskIo := mkDiskIo true true true true.

(** [u64 as i64]. *)
Definition as_i64 (z : Z) : Z := if (z <? 2 ^ 63)%Z then z else (z - 2 ^ 64)%Z.

Definition nonce_fingerprint (peer_id nonce : string) : bytes :=
  sha256 (u32_prefixed (str_bytes peer_id) ++ u32_prefixed (str_bytes nonce)).

(** [min_by_key] over the slots. *)
Definition lru_peer (peers : gmap string PeerNonceSlot) : option string :=
  fst <$> foldr (λ kv best, match best with
                            | Some b => Some (if (last_touch b.2 <? last_touch kv.2)%Z then b else kv)
                            | None => Some kv
                            end) None (map_to_list peers).

Definition delete_peer_rows (peer_id : string) (d : nonce_table) : nonce_table := filter (λ kv, kv.1.1 ≠ peer_id) d.

Definition persist_fingerprint_and_evict (io : DiskIo) (peer_id : string) (fp : bytes) (touch : Z)
    (evicted_fp : option bytes) (evicted_peer : option string) (disk : option nonce_table) : option nonce_table :=
  match disk with
  | None => None
  | Some d =>
      if negb (io_open io) then Some d
      else
        let d := if io_insert io then <[(peer_id, fp) := as_i64 touch]> d else d in
        let d := match evicted_fp with
                 | Some efp => if io_delete_fp io then delete (peer_id, efp) d else d
                 | None => d
                 end in
        Some (match evicted_peer with
              | Some ep => if io_delete_peer io then delete_peer_rows ep d else d
              | None => d
              end)
  end.

(** At the ceiling of peers a new one displaces the least recently heard. *)
Definition make_room (peers : gmap string PeerNonceSlot) (peer_id : string) : gmap string PeerNonceSlot * option string :=
  if negb (is_some (peers !! peer_id)) && bool_decide (FEDERATION_NONCE_MAX_PEERS ≤ Z.of_nat (size peers))%Z then
    match lru_peer peers with
    | Some ep => (delete ep peers, Some ep)
    | None => (peers, None)
    end
  else (peers, None).

Definition record_nonce (io : DiskIo) (c : FederationNonceCache) (peer_id nonce : string) :
    FederationNonceCache * ReplayDecision :=
  let fp := nonce_fingerprint peer_id nonce in
  let '(peers, evicted_peer) := make_room (nc_peers c) peer_id in
  let touch := nc_touch_counter c in
  let slot := default (mkSlot window_empty 0) (peers !! peer_id) in
  let '(w, evicted_fp, decision) := window_record FEDERATION_NONCE_CAPACITY_PER_PEER (slot_window slot) fp in
  let disk := match decision with
              | Fresh => persist_fingerprint_and_evict io peer_id fp touch evicted_fp evicted_peer (nc_disk c)
              | Replay => nc_disk c
              end in
  (mkNonceCache (<[peer_id := mkSlot w touch]> peers) ((touch + 1) mod 2 ^ 64)%Z
     (if is_some evicted_peer then ((nc_peer_evictions c + 1) mod 2 ^ 64)%Z else nc_peer_evictions c) disk, decision).

Definition sorted_rows (d : nonce_table) : list nonce_row := stable_sort by_touch (map_to_list d).

(** One row of the hydration; a blob that is no digest is skipped. *)
Definition hydrate_row (st : gmap string PeerNonceSlot * Z) (row : nonce_row) : gmap string PeerNonceSlot * Z :=
  let '(peers, max_touch) := st in
  let '(peer_id, fp, touch) := row in
  if negb (bool_decide (length fp = 32)) then st
  else
    let touch_u64 := Z.max touch 0 in
    let slot := default (mkSlot window_empty 0) (peers !! peer_id) in
    let w := (window_evict FEDERATION_NONCE_CAPACITY_PER_PEER (slot_window slot)).1 in
    (<[peer_id := mkSlot (window_push w fp) touch_u64]> peers, Z.max max_touch touch_u64).

(** The rows of one peer that are kept: the newest. *)
Definition rows_of (d : nonce_table) (peer_id : string) : list nonce_row :=
  filter (λ row, row.1.1 = peer_id) (sorted_rows d).

Definition prune_nonce_cache_to_per_peer_cap (d : nonce_table) (per_peer_cap : Z) : nonce_table :=
  filter (λ kv, kv ∈ drop (length (rows_of d kv.1.1) - Z.to_nat per_peer_cap) (rows_of d kv.1.1)) d.

Definition hydrate_from_disk (d : nonce_table) : FederationNonceCache :=
  let '(peers, max_touch) := fold_left hydrate_row (sorted_rows d) (∅, 0%Z) in
  mkNonceCache peers (Z.min (max_touch + 1) (2 ^ 64 - 1)) 0
    (Some (prune_nonce_cache_to_per_peer_cap d FEDERATION_NONCE_CAPACITY_PER_PEER)).

Definition nonce_cache_new : FederationNonceCache := mkNonceCache ∅ 0 0 None.

(** A restart keeps nothing but the table. *)
Definition restart (c : FederationNonceCache) : FederationNonceCache :=
  match nc_disk c with Some d => hydrate_from_disk d | None => nonce_cache_new end.
End with_hash.

(* ------------------------------------------------------------------ *)
(** * Windows *)

(** The last [capacity] of a history. *)
Definition recent (capacity : Z) (h : list bytes) : list bytes := drop (length h - Z.to_nat capacity) h.

(** What a window promises: it answers by the last fresh fingerprints. *)
Definition spec_record (capacity : Z) (h : list bytes) (fp : bytes) : list bytes * ReplayDecision :=
  if bool_decide (fp ∈ recent capacity h) then (h, Replay) else (h ++ [fp], Fresh).

(** A window that holds a history. *)
Record holds (capacity : Z) (w : Window) (h : list bytes) : Prop := {
  hw_order : order w = recent capacity h;
  hw_seen : seen w = list_to_set (order w);
  hw_nodup : NoDup (order w)
}.

Lemma recent_length capacity h : length (recent capacity h) = Nat.min (length h) (Z.to_nat capacity).
Proof. unfold recent. rewrite length_drop. lia. Qed.

Lemma recent_snoc capacity h fp : (0 < capacity)%Z →
  recent capacity (h ++ [fp]) =
  (if bool_decide (capacity ≤ Z.of_nat (length (recent capacity h)))%Z then drop 1 (recent capacity h) else recent capacity h) ++ [fp].
Proof.
  intros Hc. rewrite recent_length. unfold recent. rewrite length_app. simpl. case_bool_decide as Hle.
  - rewrite drop_drop, drop_app_le by lia. do 2 f_equal. lia.
  - rewrite !drop_app_le by lia. do 2 f_equal. lia.
Qed.

Lemma holds_empty capacity : holds capacity window_empty [].
Proof. split; [done|done|apply NoDup_nil_2]. Qed.

(** A window answers as its specification and goes on holding the history. *)
Lemma window_record_spec capacity w h fp : (0 < capacity)%Z → holds capacity w h →
  let '(w', evicted, decision) := window_record capacity w fp in
  let '(h', decision') := spec_record capacity h fp in
  decision = decision' ∧ holds capacity w' h'
  ∧ evicted = (if bool_decide (decision' = Fresh ∧ capacity ≤ Z.of_nat (length (order w)))%Z then head (order w) else None).
Proof.
  intros Hc [Ho Hs Hn]. unfold window_record, spec_record. rewrite Hs, <-Ho.
  rewrite (bool_decide_ext (fp ∈ (list_to_set (order w) : gset bytes)) (fp ∈ order w)) by apply elem_of_list_to_set.
  case_bool_decide as Hfp.
  - split; [done|]. split; [by split|]. by rewrite bool_decide_eq_false_2 by naive_solver.
  - unfold window_evict. rewrite (bool_decide_ext (Fresh = Fresh ∧ _) (capacity ≤ Z.of_nat (length (order w)))%Z) by naive_solver.
    pose proof (recent_snoc capacity h fp Hc) as Hr. rewrite <-Ho in Hr.
    case_bool_decide as Hle; [destruct (order w) as [|old rest] eqn:Eo; [simpl in Hle; lia|]|]; cbn [window_push order seen];
      (split; [done|]; split; [split; cbn [window_push order seen]|done]).
    + by rewrite Hr.
    + rewrite Hs, list_to_set_app_L. simpl. apply NoDup_cons in Hn as [Hold _]. set_solver.
    + apply NoDup_cons in Hn as [_ Hn]. apply NoDup_app. split_and!; [done|set_solver|apply NoDup_singleton].
    + by rewrite Hr.
    + rewrite Hs, list_to_set_app_L. set_solver.
    + apply NoDup_app. split_and!; [done|set_solver|apply NoDup_singleton].
Qed.

Lemma holds_bounded capacity w h : (0 < capacity)%Z → holds capacity w h → (Z.of_nat (length (order w)) ≤ capacity)%Z.
Proof. intros Hc [Ho _ _]. rewrite Ho, recent_length. lia. Qed.

(* ------------------------------------------------------------------ *)
(** * The table on disk *)

Definition distinct_touches (d : nonce_table) : Prop := ∀ k k' t, d !! k = Some t → d !! k' = Some t → k = k'.

(** A list is the table in order. *)
Record lists (d : nonce_table) (l : list nonce_row) : Prop := {
  ls_sorted : StronglySorted by_touch l;
  ls_nodup : NoDup l;
  ls_rows : ∀ row, row ∈ l ↔ d !! row.1 = Some row.2
}.

#[local] Instance by_touch_trans : Transitive by_touch.
Proof. intros a b c. unfold by_touch. lia. Qed.
#[local] Instance by_touch_total : Total by_touch.
Proof. intros a b. unfold by_touch. lia. Qed.

Lemma sorted_rows_lists d : lists d (sorted_rows d).
Proof.
  split.
  - apply StronglySorted_stable_sort; apply _.
  - unfold sorted_rows. rewrite stable_sort_Permutation. apply NoDup_map_to_list.
  - intros [k t]. unfold sorted_rows. rewrite stable_sort_Permutation. apply elem_of_map_to_list.
Qed.

Lemma lists_unique d l : distinct_touches d → lists d l → sorted_rows d = l.
Proof.
  intros Hd [Hs Hn Hr]. destruct (sorted_rows_lists d) as [Hs' Hn' Hr'].
  apply (StronglySorted_unique_strong by_touch); [|done..|].
  - intros [k t] [k' t'] H1 H2 L1 L2. apply Hr' in H1. apply Hr in H2. unfold by_touch in L1, L2. simpl in *.
    assert (t = t') as <- by lia. by rewrite (Hd k k' t).
  - apply NoDup_Permutation; [done..|]. intros row. by rewrite Hr', Hr.
Qed.

Lemma sorted_filter (P : nonce_row → Prop) `{∀ x, Decision (P x)} (l : list nonce_row) :
  StronglySorted by_touch l → StronglySorted by_touch (filter P l).
Proof.
  induction 1 as [|row l Hs IH Hf]; [constructor|]. rewrite filter_cons. case_decide; [|done].
  constructor; [done|]. apply Forall_forall. intros x [_ Hx]%list_elem_of_filter. rewrite Forall_forall in Hf.
  by apply Hf.
Qed.

(** A row with a later touch comes last. *)
Lemma sorted_rows_insert d k t : distinct_touches d → d !! k = None → (∀ k' t', d !! k' = Some t' → (t' < t)%Z) →
  distinct_touches (<[k := t]> d) ∧ sorted_rows (<[k := t]> d) = sorted_rows d ++ [(k, t)].
Proof.
  intros Hd Hk Hlt. assert (distinct_touches (<[k := t]> d)) as Hd'.
  { intros i j u [[<- <-]|[Hi Hi']]%lookup_insert_Some [[<- E]|[Hj Hj']]%lookup_insert_Some; subst; try done.
    - apply Hlt in Hj'. lia.
    - apply Hlt in Hi'. lia.
    - by eapply Hd. }
  split; [done|]. apply lists_unique; [done|]. destruct (sorted_rows_lists d) as [Hs Hn Hr]. split.
  - apply StronglySorted_app. split_and!; [|done|repeat constructor].
    intros x y Hx%Hr ->%list_elem_of_singleton. unfold by_touch. simpl. apply Hlt in Hx. lia.
  - apply NoDup_app. split_and!; [done| |apply NoDup_singleton].
    intros x Hx%Hr ->%list_elem_of_singleton. simpl in Hx. by rewrite Hk in Hx.
  - intros [k' t']. rewrite elem_of_app, Hr, list_elem_of_singleton. simpl. rewrite lookup_insert_Some.
    split; [intros [H|[= -> ->]]; [right; split; [intros ->; by rewrite Hk in H|done]|by left]|].
    intros [[-> ->]|[_ H]]; [by right|by left].
Qed.

(** Rows deleted drop out of the order. *)
Lemma sorted_rows_filter (P : nonce_row → Prop) `{∀ x, Decision (P x)} d : distinct_touches d →
  distinct_touches (filter P d) ∧ sorted_rows (filter P d) = filter P (sorted_rows d).
Proof.
  intros Hd. assert (distinct_touches (filter P d)) as Hd'.
  { intros i j u [Hi _]%map_lookup_filter_Some [Hj _]%map_lookup_filter_Some. by eapply Hd. }
  split; [done|]. apply lists_unique; [done|]. destruct (sorted_rows_lists d) as [Hs Hn Hr]. split.
  - by apply sorted_filter.
  - by apply NoDup_filter.
  - intros [k t]. rewrite list_elem_of_filter, Hr, map_lookup_filter_Some. simpl. naive_solver.
Qed.

Lemma delete_as_filter (d : nonce_table) k : delete k d = filter (λ kv, kv.1 ≠ k) d.
Proof.
  apply map_eq. intros i. apply option_eq. intros t. rewrite lookup_delete_Some, map_lookup_filter_Some. simpl. naive_solver.
Qed.

(* ------------------------------------------------------------------ *)
(** * The rows of one peer *)

Definition fps (rows : list nonce_row) : list bytes := (λ row, row.1.2) <$> rows.

Lemma elem_of_rows d p row : row ∈ rows_of d p ↔ row.1.1 = p ∧ d !! row.1 = Some row.2.
Proof. unfold rows_of. by rewrite list_elem_of_filter, (ls_rows _ _ (sorted_rows_lists d)). Qed.

Lemma elem_of_fps d p fp : fp ∈ fps (rows_of d p) ↔ is_Some (d !! (p, fp)).
Proof.
  unfold fps. rewrite list_elem_of_fmap. split.
  - intros ([[q f] t] & -> & [<- H]%elem_of_rows). by exists t.
  - intros [t Ht]. exists ((p, fp), t). split; [done|]. by apply elem_of_rows.
Qed.

Lemma fps_insert d p fp t q : distinct_touches d → d !! (p, fp) = None → (∀ k' t', d !! k' = Some t' → (t' < t)%Z) →
  fps (rows_of (<[(p, fp) := t]> d) q) = fps (rows_of d q) ++ (if decide (p = q) then [fp] else []).
Proof.
  intros Hd Hk Hlt. unfold rows_of. rewrite (proj2 (sorted_rows_insert d (p, fp) t Hd Hk Hlt)), filter_app.
  unfold fps. rewrite fmap_app. f_equal. rewrite filter_cons. simpl. by case_decide.
Qed.

Lemma fps_filter (P : nonce_row → Prop) (Q : bytes → Prop) `{∀ x, Decision (P x)} `{∀ x, Decision (Q x)} d q :
  distinct_touches d → (∀ f t, P (q, f, t) ↔ Q f) → fps (rows_of (filter P d) q) = filter Q (fps (rows_of d q)).
Proof.
  intros Hd HPQ. unfold rows_of. rewrite (proj2 (sorted_rows_filter P d Hd)). unfold fps.
  induction (sorted_rows d) as [|[[r f] t] l IH]; [done|]. rewrite !filter_cons. simpl.
  destruct (decide (P (r, f, t))) as [Hp|Hp]; rewrite ?filter_cons; simpl; destruct (decide (r = q)) as [->|Hr]; simpl;
    rewrite ?filter_cons; simpl; [|done| |done].
  - rewrite decide_True by naive_solver. f_equal. exact IH.
  - rewrite decide_False by naive_solver. done.
Qed.

Lemma filter_all {A} (P : A → Prop) `{∀ x, Decision (P x)} (l : list A) : (∀ x, x ∈ l → P x) → filter P l = l.
Proof.
  induction l as [|x l IH]; [done|]. intros Hl. rewrite filter_cons, decide_True by (apply Hl; left).
  f_equal. apply IH. intros y Hy. apply Hl. by right.
Qed.

Lemma filter_none {A} (P : A → Prop) `{∀ x, Decision (P x)} (l : list A) : (∀ x, x ∈ l → ¬ P x) → filter P l = [].
Proof.
  induction l as [|x l IH]; [done|]. intros Hl. rewrite filter_cons, decide_False by (apply Hl; left).
  apply IH. intros y Hy. apply Hl. by right.
Qed.

Lemma fps_delete d p e q : distinct_touches d →
  fps (rows_of (delete (p, e) d) q) = (if decide (p = q) then filter (λ f, f ≠ e) else id) (fps (rows_of d q)).
Proof.
  intros Hd. rewrite delete_as_filter. case_decide as Hq; subst.
  - apply fps_filter; [done|]. simpl. naive_solver.
  - rewrite (fps_filter _ (λ _, True)); [|done|simpl; naive_solver]. by apply filter_all.
Qed.

Lemma fps_delete_peer d e q : distinct_touches d →
  fps (rows_of (delete_peer_rows e d) q) = (if decide (e = q) then [] else fps (rows_of d q)).
Proof.
  intros Hd. unfold delete_peer_rows. case_decide as Hq; subst.
  - rewrite (fps_filter _ (λ _, False)); [|done|simpl; naive_solver]. apply filter_none. tauto.
  - rewrite (fps_filter _ (λ _, True)); [|done|simpl; naive_solver]. by apply filter_all.
Qed.

Lemma distinct_delete d k : distinct_touches d → distinct_touches (delete k d).
Proof. intros Hd. rewrite delete_as_filter. by apply sorted_rows_filter. Qed.

(* ------------------------------------------------------------------ *)
(** * Room for a new peer *)

Lemma lru_peer_member peers p : lru_peer peers = Some p → is_Some (peers !! p).
Proof.
  unfold lru_peer. intros H. apply fmap_Some in H as ((p' & s) & H & ->). simpl.
  enough (Hin : (p', s) ∈ map_to_list peers) by (apply elem_of_map_to_list in Hin; by exists s).
  revert p' s H. induction (map_to_list peers) as [|kv l IH]; [done|]. intros p' s. simpl.
  destruct (foldr _ None l) as [[p1 s1]|]; [|intros [= ->]; left].
  destruct (_ <? _)%Z; intros [= E]; subst; [right; by apply IH|left].
Qed.

Lemma lru_peer_exists peers : peers ≠ ∅ → is_Some (lru_peer peers).
Proof.
  intros Hne. unfold lru_peer. apply fmap_is_Some.
  destruct (map_to_list peers) as [|kv l] eqn:E; [by apply map_to_list_empty_iff in E|]. simpl.
  destruct (foldr _ None l); eauto.
Qed.

(** Either there is room, or a peer heard before makes it. *)
Lemma make_room_cases peers p : (Z.of_nat (size peers) ≤ FEDERATION_NONCE_MAX_PEERS)%Z →
  (make_room peers p = (peers, None) ∧ (is_Some (peers !! p) ∨ (Z.of_nat (size peers) < FEDERATION_NONCE_MAX_PEERS)%Z))
  ∨ ∃ e, make_room peers p = (delete e peers, Some e) ∧ peers !! p = None ∧ is_Some (peers !! e)
         ∧ Z.of_nat (size peers) = FEDERATION_NONCE_MAX_PEERS.
Proof.
  intros Hsz. unfold make_room. destruct (peers !! p) as [s|] eqn:Ep; simpl; [left; eauto|].
  case_bool_decide as Hfull; [|left; split; [done|]; right; lia]. right.
  destruct (lru_peer_exists peers) as [e He]; [intros ->; rewrite map_size_empty in Hfull; by vm_compute in Hfull|].
  rewrite He. exists e. split_and!; [done|done|by apply lru_peer_member|lia].
Qed.

(* ------------------------------------------------------------------ *)
(** * Loading the table *)

Definition windows (c : FederationNonceCache) : gmap string Window := slot_window <$> nc_peers c.

(** A peer's rows pushed one by one. *)
Definition load (ow : option Window) (rows : list nonce_row) : option Window :=
  fold_left (λ ow row,
    Some (window_push (window_evict FEDERATION_NONCE_CAPACITY_PER_PEER (default window_empty ow)).1 row.1.2)) rows ow.

Lemma hydrate_row_lookup st row p : length row.1.2 = 32 →
  slot_window <$> (hydrate_row st row).1 !! p =
  load (slot_window <$> st.1 !! p) (if decide (row.1.1 = p) then [row] else []).
Proof.
  destruct st as [peers m], row as [[q fp] t]. intros Hl. unfold hydrate_row. simpl in Hl.
  rewrite bool_decide_eq_true_2 by done. cbn [negb fst snd]. case_decide as Hq; subst.
  - rewrite lookup_insert_eq. simpl. by destruct (peers !! p).
  - by rewrite lookup_insert_ne.
Qed.

Lemma hydrate_lookup l st p : (∀ row, row ∈ l → length row.1.2 = 32) →
  slot_window <$> (fold_left hydrate_row l st).1 !! p =
  load (slot_window <$> st.1 !! p) (filter (λ row, row.1.1 = p) l).
Proof.
  revert st. induction l as [|row l IH]; intros st Hl; [done|]. cbn [fold_left].
  rewrite IH by (intros r Hr; apply Hl; by right). rewrite hydrate_row_lookup by (apply Hl; left).
  rewrite filter_cons. by case_decide.
Qed.

(** Within the capacity nothing is evicted. *)
Lemma load_window rows w : NoDup (order w ++ fps rows) → seen w = list_to_set (order w) →
  (Z.of_nat (length (order w ++ fps rows)) ≤ FEDERATION_NONCE_CAPACITY_PER_PEER)%Z →
  load (Some w) rows = Some (mkWindow (list_to_set (order w ++ fps rows)) (order w ++ fps rows)).
Proof.
  revert w. induction rows as [|row rows IH]; intros w Hn Hs Hc.
  - cbn. rewrite app_nil_r, <-Hs. by destruct w.
  - change (load (Some w) (row :: rows)) with
      (load (Some (window_push (window_evict FEDERATION_NONCE_CAPACITY_PER_PEER w).1 row.1.2)) rows).
    assert ((window_evict FEDERATION_NONCE_CAPACITY_PER_PEER w).1 = w) as ->.
    { unfold window_evict. rewrite bool_decide_eq_false_2; [done|].
      rewrite length_app in Hc. cbn [fps fmap list_fmap length] in Hc. lia. }
    assert (order w ++ fps (row :: rows) = order (window_push w row.1.2) ++ fps rows) as Happ.
    { cbn. by rewrite <-app_assoc. }
    rewrite Happ in *. apply IH; [done| |done]. cbn. rewrite Hs, list_to_set_app_L. set_solver.
Qed.

Lemma load_rows rows : NoDup (fps rows) → (Z.of_nat (length (fps rows)) ≤ FEDERATION_NONCE_CAPACITY_PER_PEER)%Z →
  load None rows = (if decide (rows = []) then None else Some (mkWindow (list_to_set (fps rows)) (fps rows))).
Proof.
  intros Hn Hc. destruct rows as [|row rows]; [done|]. rewrite decide_False by done.
  change (load None (row :: rows)) with (load (Some window_empty) (row :: rows)). exact (load_window (row :: rows) window_empty Hn eq_refl Hc).
Qed.

(** The touches read back. *)
Lemma hydrate_max l st : (∀ row, row ∈ l → (0 ≤ row.2)%Z ∧ length row.1.2 = 32) →
  let m := (fold_left hydrate_row l st).2 in
  (st.2 ≤ m)%Z ∧ (∀ row, row ∈ l → (row.2 ≤ m)%Z) ∧ (m = st.2 ∨ ∃ row, row ∈ l ∧ m = row.2).
Proof.
  revert st. induction l as [|row l IH]; intros st Hl; cbn [fold_left]; [split_and!; [done|set_solver|by left]|].
  specialize (IH (hydrate_row st row)) as (H1 & H2 & H3); [intros r Hr; apply Hl; by right|].
  destruct (Hl row) as [H0 H32]; [left|].
  assert ((hydrate_row st row).2 = Z.max st.2 row.2) as Hm.
  { destruct st as [peers m], row as [[q fp] t]. unfold hydrate_row. simpl in *.
    rewrite bool_decide_eq_true_2 by done. cbn [negb snd]. lia. }
  rewrite Hm in *. split_and!; [lia| |].
  - intros r [->|Hr]%elem_of_cons; [lia|by apply H2].
  - destruct H3 as [->|(r & Hr & ->)]; [|right; exists r; split; [by right|done]].
    destruct (Z.max_spec st.2 row.2) as [[_ ->]|[_ ->]]; [right; exists row; split; [left|done]|by left].
Qed.

(* ------------------------------------------------------------------ *)
(** * Memory and disk *)

(** The cache, its table and the histories of the peers it remembers. *)
Record mirrored (c : FederationNonceCache) (d : nonce_table) (hs : gmap string (list bytes)) : Prop := {
  mi_disk : nc_disk c = Some d;
  mi_rows : ∀ p, fps (rows_of d p) = default [] (order <$> windows c !! p);
  mi_windows : ∀ p, option_Forall2 (λ w h, holds FEDERATION_NONCE_CAPACITY_PER_PEER w h ∧ h ≠ []) (windows c !! p) (hs !! p);
  mi_touches : ∀ k t, d !! k = Some t → (0 ≤ t < nc_touch_counter c)%Z ∧ length k.2 = 32;
  mi_distinct : distinct_touches d;
  mi_counter : (1 ≤ nc_touch_counter c ≤ 2 ^ 63)%Z;
  mi_peers : (Z.of_nat (size (nc_peers c)) ≤ FEDERATION_NONCE_MAX_PEERS)%Z
}.

Lemma related_size {A B} (R : A → B → Prop) (m : gmap string A) (m' : gmap string B) :
  (∀ p, option_Forall2 R (m !! p) (m' !! p)) → size m' = size m.
Proof.
  intros H. rewrite <-!size_dom. f_equal. apply set_eq. intros p. rewrite !elem_of_dom.
  destruct (H p); split; intros [? [=]]; eauto.
Qed.

Lemma mirrored_size c d hs : mirrored c d hs → size hs = size (nc_peers c).
Proof. intros Hm. rewrite (related_size _ _ _ (mi_windows _ _ _ Hm)). apply map_size_fmap. Qed.

(** What a fresh database is read as. *)
Lemma mirrored_fresh : mirrored (hydrate_from_disk ∅) ∅ ∅.
Proof. split; try done; intros; unfold windows; simpl; rewrite ?fmap_empty, ?lookup_empty; try done; constructor. Qed.

Lemma mirrored_nodup c d hs p : mirrored c d hs →
  NoDup (fps (rows_of d p)) ∧ (Z.of_nat (length (fps (rows_of d p))) ≤ FEDERATION_NONCE_CAPACITY_PER_PEER)%Z.
Proof.
  intros Hm. rewrite (mi_rows _ _ _ Hm). pose proof (mi_windows _ _ _ Hm p) as H.
  destruct (windows c !! p) as [w|]; inversion H as [? h [Hh _]|]; subst; simpl; [|split; [apply NoDup_nil_2|done]].
  split; [apply Hh|by eapply holds_bounded].
Qed.

(** The table is read back as the windows it was written from. *)
Lemma restart_windows c d hs : mirrored c d hs → windows (restart c) = windows c.
Proof.
  intros Hm. unfold restart. rewrite (mi_disk _ _ _ Hm). apply map_eq. intros p. unfold windows, hydrate_from_disk.
  pose proof (hydrate_lookup (sorted_rows d) (∅, 0%Z) p) as Hh. cbn [fst] in Hh. rewrite lookup_empty in Hh.
  destruct (fold_left hydrate_row (sorted_rows d) (∅, 0%Z)) as [peers m]. cbn [nc_peers fst] in *. rewrite lookup_fmap, Hh.
  - destruct (mirrored_nodup c d hs p Hm) as [Hn Hc]. fold (rows_of d p) in *. rewrite load_rows by done.
    fold (windows c). pose proof (mi_rows _ _ _ Hm p) as Hr. pose proof (mi_windows _ _ _ Hm p) as H.
    destruct (windows c !! p) as [w|]; inversion H as [? h [[Ho Hs Hnd] Hne]|]; subst; simpl in Hr.
    + rewrite Hr, decide_False; [by rewrite <-Hs; destruct w|]. intros E. rewrite E in Hr. cbn in Hr.
      apply (f_equal length) in Ho. rewrite <-Hr, recent_length in Ho. destruct h; [done|]. by vm_compute in Ho.
    + rewrite decide_True; [done|]. by destruct (rows_of d p).
  - intros row Hrow. apply (ls_rows _ _ (sorted_rows_lists d)) in Hrow. by apply (mi_touches _ _ _ Hm) in Hrow as [_ ?].
Qed.

(** A table within the bounds has nothing to prune. *)
Lemma prune_nothing d cap : (∀ p, length (rows_of d p) ≤ Z.to_nat cap) → prune_nonce_cache_to_per_peer_cap d cap = d.
Proof.
  intros Hc. apply map_eq. intros k. apply option_eq. intros t. unfold prune_nonce_cache_to_per_peer_cap.
  rewrite map_lookup_filter_Some. split; [by intros [? _]|]. intros Hk. split; [done|].
  assert (length (rows_of d k.1) - Z.to_nat cap = 0) as E by (specialize (Hc k.1); lia). simpl. rewrite E.
  by apply elem_of_rows.
Qed.

Lemma restart_mirrored c d hs : mirrored c d hs → mirrored (restart c) d hs ∧ (nc_touch_counter (restart c) ≤ nc_touch_counter c)%Z.
Proof.
  intros Hm. pose proof (restart_windows c d hs Hm) as Hw.
  assert (Z.of_nat (size (nc_peers (restart c))) ≤ FEDERATION_NONCE_MAX_PEERS)%Z as Hsz.
  { pose proof (mi_peers _ _ _ Hm). rewrite <-(map_size_fmap slot_window (nc_peers (restart c))).
    fold (windows (restart c)). rewrite Hw. unfold windows. by rewrite map_size_fmap. }
  pose proof (hydrate_max (sorted_rows d) (∅, 0%Z)) as Hx. cbn [snd] in Hx.
  assert (∀ row, row ∈ sorted_rows d → (0 ≤ row.2 < nc_touch_counter c)%Z ∧ length row.1.2 = 32) as Hrows.
  { intros row Hrow%(ls_rows _ _ (sorted_rows_lists d)). by apply (mi_touches _ _ _ Hm). }
  destruct Hx as (H0 & Hall & Hmax); [intros row Hr; by destruct (Hrows row Hr) as [[? _] ?]|].
  pose proof (mi_counter _ _ _ Hm) as Hcnt.
  assert (nc_touch_counter (restart c) = (fold_left hydrate_row (sorted_rows d) (∅, 0)).2 + 1
          ∧ (fold_left hydrate_row (sorted_rows d) (∅, 0)).2 < nc_touch_counter c)%Z as [Hc Hlt].
  { assert ((fold_left hydrate_row (sorted_rows d) (∅, 0)).2 < nc_touch_counter c)%Z as Hlt.
    { destruct Hmax as [->|(row & Hr & ->)]; [lia|]. by apply Hrows. }
    split; [|done]. unfold restart, hydrate_from_disk. rewrite (mi_disk _ _ _ Hm).
    destruct (fold_left _ _ _) as [peers m]. cbn [nc_touch_counter snd] in *. lia. }
  split; [|lia]. split.
  - unfold restart. rewrite (mi_disk _ _ _ Hm). unfold hydrate_from_disk. destruct (fold_left _ _ _) as [peers m]. cbn [nc_disk].
    f_equal. apply prune_nothing. intros p. destruct (mirrored_nodup c d hs p Hm) as [_ Hl]. unfold fps in Hl. rewrite length_fmap in Hl. lia.
  - intros p. rewrite Hw. apply Hm.
  - intros p. rewrite Hw. apply Hm.
  - intros k t Hk. split; [|by apply (mi_touches _ _ _ Hm) in Hk as [_ ?]].
    rewrite Hc. pose proof (proj1 (mi_touches _ _ _ Hm k t Hk)). specialize (Hall (k, t)). simpl in Hall.
    rewrite (ls_rows _ _ (sorted_rows_lists d)) in Hall. specialize (Hall Hk). lia.
  - apply Hm.
  - lia.
  - done.
Qed.

(* ------------------------------------------------------------------ *)
(** * What the nonce cache promises *)

(** A peer that is remembered is answered by its history; a peer that is not is
    believed, and at the ceiling some other peer is forgotten. *)
Inductive nonce_promise (hs : gmap string (list bytes)) (p : string) (fp : bytes) :
    ReplayDecision → gmap string (list bytes) → Prop :=
  | promise_known h : hs !! p = Some h →
      nonce_promise hs p fp (spec_record FEDERATION_NONCE_CAPACITY_PER_PEER h fp).2
        (<[p := (spec_record FEDERATION_NONCE_CAPACITY_PER_PEER h fp).1]> hs)
  | promise_new : hs !! p = None → (Z.of_nat (size hs) < FEDERATION_NONCE_MAX_PEERS)%Z →
      nonce_promise hs p fp Fresh (<[p := [fp]]> hs)
  | promise_displacing e : hs !! p = None → Z.of_nat (size hs) = FEDERATION_NONCE_MAX_PEERS → is_Some (hs !! e) →
      nonce_promise hs p fp Fresh (<[p := [fp]]> (delete e hs)).

Lemma spec_record_first fp : spec_record FEDERATION_NONCE_CAPACITY_PER_PEER [] fp = ([fp], Fresh).
Proof. unfold spec_record. rewrite bool_decide_eq_false_2; [done|]. unfold recent. simpl. apply not_elem_of_nil. Qed.

(** The table after the writes of one fresh nonce. *)
Definition after_writes (d : nonce_table) (p : string) (fp : bytes) (t : Z) (efp : option bytes) (ep : option string) : nonce_table :=
  let d := <[(p, fp) := t]> d in
  let d := match efp with Some e => delete (p, e) d | None => d end in
  match ep with Some e => delete_peer_rows e d | None => d end.

Lemma persist_all_ok p fp t efp ep d : (t < 2 ^ 63)%Z →
  persist_fingerprint_and_evict all_ok p fp t efp ep (Some d) = Some (after_writes d p fp t efp ep).
Proof.
  intros Ht. unfold persist_fingerprint_and_evict, after_writes, all_ok, as_i64. cbn [io_open io_insert io_delete_fp io_delete_peer negb].
  rewrite (proj2 (Z.ltb_lt t (2 ^ 63))) by done. by destruct efp, ep.
Qed.

Lemma after_writes_lookup d p fp t efp ep k u : after_writes d p fp t efp ep !! k = Some u →
  k = (p, fp) ∧ u = t ∨ d !! k = Some u.
Proof.
  unfold after_writes. intros H.
  assert ((match efp with Some e => delete (p, e) (<[(p, fp) := t]> d) | None => <[(p, fp) := t]> d end) !! k = Some u) as H1.
  { destruct ep as [e|]; [|done]. unfold delete_peer_rows in H. by apply map_lookup_filter_Some in H as [H _]. }
  assert (<[(p, fp) := t]> d !! k = Some u) as H2 by (destruct efp; [by apply lookup_delete_Some in H1 as [_ H1]|done]).
  apply lookup_insert_Some in H2 as [[<- <-]|[_ H2]]; auto.
Qed.

Section writes.
Context (d : nonce_table) (p : string) (fp : bytes) (t : Z) (efp : option bytes) (ep : option string).
Context (Hd : distinct_touches d) (Hk : d !! (p, fp) = None) (Hlt : ∀ k' t', d !! k' = Some t' → (t' < t)%Z).

Lemma after_writes_distinct : distinct_touches (after_writes d p fp t efp ep).
Proof using Hd Hk Hlt.
  unfold after_writes. assert (distinct_touches (<[(p, fp) := t]> d)) by by apply sorted_rows_insert.
  destruct ep; [unfold delete_peer_rows; apply sorted_rows_filter|]; destruct efp; try done; by apply distinct_delete.
Qed.

Lemma after_writes_rows q : ep ≠ Some p →
  fps (rows_of (after_writes d p fp t efp ep) q) =
  (if decide (ep = Some q) then []
   else if decide (p = q) then (match efp with Some e => filter (λ f, f ≠ e) | None => id end) (fps (rows_of d q) ++ [fp])
   else fps (rows_of d q)).
Proof using Hd Hk Hlt.
  intros Hep. unfold after_writes. assert (distinct_touches (<[(p, fp) := t]> d)) as Hd1 by by apply sorted_rows_insert.
  assert (fps (rows_of (match efp with Some e => delete (p, e) (<[(p, fp) := t]> d) | None => <[(p, fp) := t]> d end) q) =
    if decide (p = q) then (match efp with Some e => filter (λ f, f ≠ e) | None => id end) (fps (rows_of d q) ++ [fp])
    else fps (rows_of d q)) as H.
  { pose proof (fps_insert d p fp t q Hd Hk Hlt) as Hi.
    destruct efp as [e|]; [rewrite fps_delete by done|]; rewrite Hi; case_decide; rewrite ?app_nil_r; done. }
  destruct ep as [e|]; [|exact H].
  rewrite fps_delete_peer by (destruct efp; [by apply distinct_delete|done]).
  destruct (decide (e = q)) as [He|He].
  - rewrite decide_True by congruence. done.
  - rewrite decide_False by congruence. exact H.
Qed.
End writes.

Definition forget {A} (ep : option string) (m : gmap string A) : gmap string A :=
  match ep with Some e => delete e m | None => m end.

Lemma lookup_forget {A} ep (m : gmap string A) q : forget ep m !! q = if decide (ep = Some q) then None else m !! q.
Proof.
  unfold forget. destruct ep as [e|]; [|done]. destruct (decide (Some e = Some q)) as [[= ->]|H].
  - by rewrite lookup_delete_eq.
  - apply lookup_delete_ne. congruence.
Qed.

(** A peer heard, with its new window and history. *)
Lemma mirrored_heard c d hs p w h ep d' ev : mirrored c d hs → (nc_touch_counter c < 2 ^ 63)%Z →
  holds FEDERATION_NONCE_CAPACITY_PER_PEER w h → h ≠ [] → ep ≠ Some p →
  (Z.of_nat (size (<[p := h]> (forget ep hs))) ≤ FEDERATION_NONCE_MAX_PEERS)%Z →
  (∀ q, fps (rows_of d' q) = if decide (ep = Some q) then [] else if decide (p = q) then order w else fps (rows_of d q)) →
  distinct_touches d' → (∀ k t, d' !! k = Some t → (0 ≤ t < nc_touch_counter c + 1)%Z ∧ length k.2 = 32) →
  mirrored (mkNonceCache (<[p := mkSlot w (nc_touch_counter c)]> (forget ep (nc_peers c)))
              ((nc_touch_counter c + 1) mod 2 ^ 64) ev (Some d'))
    d' (<[p := h]> (forget ep hs)).
Proof.
  intros Hm Hcnt Hw Hne Hep Hsz Hrows Hd' Ht. pose proof (mi_counter _ _ _ Hm).
  assert ((nc_touch_counter c + 1) mod 2 ^ 64 = nc_touch_counter c + 1)%Z as Hmod by (apply Z.mod_small; lia).
  match goal with |- mirrored ?c' _ _ => assert (windows c' = <[p := w]> (forget ep (windows c))) as Hws end.
  { apply map_eq. intros q. unfold windows at 1. cbn [nc_peers]. rewrite lookup_fmap, !lookup_insert. case_decide; [done|].
    rewrite !lookup_forget. case_decide; [done|]. unfold windows. by rewrite lookup_fmap. }
  assert (∀ q, option_Forall2 (λ w h, holds FEDERATION_NONCE_CAPACITY_PER_PEER w h ∧ h ≠ [])
            (<[p := w]> (forget ep (windows c)) !! q) (<[p := h]> (forget ep hs) !! q)) as Hrel.
  { intros q. rewrite !lookup_insert, !lookup_forget. case_decide; [by constructor|]. case_decide; [constructor|apply Hm]. }
  split.
  - done.
  - intros q. rewrite Hws, Hrows, lookup_insert, lookup_forget. destruct (decide (ep = Some q)) as [->|]; [|case_decide; [done|apply Hm]].
    rewrite decide_False by congruence. done.
  - intros q. rewrite Hws. apply Hrel.
  - intros k t Hk. cbn [nc_touch_counter]. rewrite Hmod. by apply Ht.
  - done.
  - cbn [nc_touch_counter]. rewrite Hmod. lia.
  - rewrite (related_size _ _ _ Hrel), <-Hws in Hsz. unfold windows in Hsz. by rewrite map_size_fmap in Hsz.
Qed.

Lemma windows_lookup c d hs p : mirrored c d hs →
  let w := slot_window (default (mkSlot window_empty 0) (nc_peers c !! p)) in
  holds FEDERATION_NONCE_CAPACITY_PER_PEER w (default [] (hs !! p)) ∧ fps (rows_of d p) = order w
  ∧ (is_Some (hs !! p) ↔ is_Some (nc_peers c !! p)) ∧ (∀ h, hs !! p = Some h → h ≠ []).
Proof.
  intros Hm. pose proof (mi_windows _ _ _ Hm p) as H. pose proof (mi_rows _ _ _ Hm p) as Hr.
  unfold windows in H, Hr. rewrite lookup_fmap in H, Hr. destruct (nc_peers c !! p) as [s|]; simpl in *.
  - inversion H as [? h [Hh Hne] E1 E2|]; subst. simpl. split_and!; [done|done|split; eauto|by intros ? [= <-]].
  - inversion H; subst. simpl. split_and!; [apply holds_empty|done|split; intros [? [=]]|done].
Qed.

(** Room, with the peer that makes it. *)
Lemma make_room_forget c d hs p : mirrored c d hs → ∃ ep,
  make_room (nc_peers c) p = (forget ep (nc_peers c), ep) ∧ ep ≠ Some p
  ∧ (∀ e, ep = Some e → hs !! p = None ∧ Z.of_nat (size hs) = FEDERATION_NONCE_MAX_PEERS ∧ is_Some (hs !! e))
  ∧ (ep = None → is_Some (hs !! p) ∨ (Z.of_nat (size hs) < FEDERATION_NONCE_MAX_PEERS)%Z).
Proof.
  intros Hm. rewrite (mirrored_size _ _ _ Hm). pose proof (windows_lookup c d hs p Hm) as (_ & _ & Hp & _).
  destruct (make_room_cases (nc_peers c) p (mi_peers _ _ _ Hm)) as [[Hr Hroom]|(e & Hr & Hnone & He & Hfull)].
  - exists None. split_and!; [done|done|done|]. by rewrite Hp.
  - exists (Some e). split_and!; [done| | |done].
    + intros [= ->]. rewrite Hnone in He. by destruct He.
    + intros ? [= <-]. pose proof (windows_lookup c d hs e Hm) as (_ & _ & He' & _).
      split_and!; [|done|by apply He']. apply eq_None_not_Some. rewrite Hp, Hnone. by intros [].
Qed.

Lemma room_enough {A} (hs : gmap string A) p ep (a : A) :
  (Z.of_nat (size hs) ≤ FEDERATION_NONCE_MAX_PEERS)%Z → ep ≠ Some p →
  (∀ e, ep = Some e → hs !! p = None ∧ Z.of_nat (size hs) = FEDERATION_NONCE_MAX_PEERS ∧ is_Some (hs !! e)) →
  (ep = None → is_Some (hs !! p) ∨ (Z.of_nat (size hs) < FEDERATION_NONCE_MAX_PEERS)%Z) →
  (Z.of_nat (size (<[p := a]> (forget ep hs))) ≤ FEDERATION_NONCE_MAX_PEERS)%Z.
Proof.
  intros Hle Hne Hsome Hnone. rewrite map_size_insert, lookup_forget, decide_False by done. destruct ep as [e|]; cbn [forget].
  - destruct (Hsome e eq_refl) as (-> & Hfull & [x Hx]). rewrite map_size_delete, Hx.
    destruct (size hs) as [|n]; [by vm_compute in Hfull|]. simpl. lia.
  - destruct (hs !! p); [done|]. destruct (Hnone eq_refl) as [[? [=]]|]. lia.
Qed.

(** What the eviction leaves on disk is what it leaves in memory. *)
Lemma evicted_queue capacity w h fp : (0 < capacity)%Z → holds capacity w h → fp ∉ order w →
  (match (if bool_decide (capacity ≤ Z.of_nat (length (order w)))%Z then head (order w) else None) with
   | Some e => filter (λ f, f ≠ e) | None => id end) (order w ++ [fp]) = recent capacity (h ++ [fp]).
Proof.
  intros Hc [Ho _ Hn] Hfp. rewrite recent_snoc by done. rewrite <-Ho. case_bool_decide; [|done].
  destruct (order w) as [|e l]; [done|]. cbn [head app]. apply NoDup_cons in Hn as [He Hn].
  rewrite filter_cons_False by tauto. simpl. apply filter_all. set_solver.
Qed.

Lemma spec_record_Replay capacity h fp h' : spec_record capacity h fp = (h', Replay) → h' = h ∧ h ≠ [].
Proof.
  unfold spec_record. case_bool_decide as Hin; [|done]. intros [= <-]. split; [done|]. intros ->.
  unfold recent in Hin. rewrite drop_nil in Hin. by apply elem_of_nil in Hin.
Qed.

Lemma spec_record_Fresh capacity h fp h' : spec_record capacity h fp = (h', Fresh) → h' = h ++ [fp] ∧ fp ∉ recent capacity h.
Proof. unfold spec_record. case_bool_decide; [done|]. by intros [= <-]. Qed.

Lemma promise_of_spec hs p fp ep h' decision :
  spec_record FEDERATION_NONCE_CAPACITY_PER_PEER (default [] (hs !! p)) fp = (h', decision) →
  (∀ e, ep = Some e → hs !! p = None ∧ Z.of_nat (size hs) = FEDERATION_NONCE_MAX_PEERS ∧ is_Some (hs !! e)) →
  (ep = None → is_Some (hs !! p) ∨ (Z.of_nat (size hs) < FEDERATION_NONCE_MAX_PEERS)%Z) →
  nonce_promise hs p fp decision (<[p := h']> (forget ep hs)).
Proof.
  intros Es Hsome Hnone. destruct (hs !! p) as [h|] eqn:Eh; simpl in Es.
  - destruct ep as [e|]; [destruct (Hsome e eq_refl) as [[=] _]|]. pose proof (promise_known hs p fp h Eh) as H.
    by rewrite Es in H.
  - rewrite spec_record_first in Es. injection Es as <- <-. destruct ep as [e|].
    + destruct (Hsome e eq_refl) as (_ & ? & ?). by apply promise_displacing.
    + destruct (Hnone eq_refl) as [[? [=]]|]. by apply promise_new.
Qed.

Section promise.
Context {LC : LedgerCrypto} {LL : LedgerCryptoLaws LC}.

(** A recorded nonce is a step of the promise. *)
Lemma record_simulates c d hs p nonce :
  mirrored c d hs → (nc_touch_counter c < 2 ^ 63)%Z →
  let '(c', decision) := record_nonce all_ok c p nonce in
  ∃ d' hs', mirrored c' d' hs' ∧ nonce_promise hs p (nonce_fingerprint p nonce) decision hs'
            ∧ nc_touch_counter c' = (nc_touch_counter c + 1)%Z.
Proof using LL.
  intros Hm Hcnt. unfold record_nonce. rewrite (mi_disk _ _ _ Hm). set (fp := nonce_fingerprint p nonce).
  destruct (make_room_forget c d hs p Hm) as (ep & -> & Hep & Hsome & Hnone). rewrite lookup_forget, decide_False by done.
  destruct (windows_lookup c d hs p Hm) as (Hw & Hrows & Hp & _).
  set (w := slot_window (default (mkSlot window_empty 0) (nc_peers c !! p))) in *.
  pose proof (window_record_spec FEDERATION_NONCE_CAPACITY_PER_PEER w _ fp eq_refl Hw) as Hrec.
  destruct (window_record FEDERATION_NONCE_CAPACITY_PER_PEER w fp) as [[w' efp] dec].
  destruct (spec_record _ _ fp) as [h' dec'] eqn:Es. destruct Hrec as (-> & Hw' & Hev).
  pose proof (mi_counter _ _ _ Hm) as Hcs.
  assert (Z.of_nat (size (<[p := h']> (forget ep hs))) ≤ FEDERATION_NONCE_MAX_PEERS)%Z as Hsz.
  { apply room_enough; try done. rewrite (mirrored_size _ _ _ Hm). apply Hm. }
  pose proof (promise_of_spec hs p fp ep h' dec' Es Hsome Hnone) as Hprom.
  destruct dec'.
  - apply spec_record_Fresh in Es as [-> Hfp]. rewrite <-(hw_order _ _ _ Hw) in Hfp.
    assert (d !! (p, fp) = None) as Hk by (apply eq_None_not_Some; by rewrite <-elem_of_fps, Hrows).
    assert (∀ k' t', d !! k' = Some t' → (t' < nc_touch_counter c)%Z) as Hlt by (intros k' t' H; by apply (mi_touches _ _ _ Hm) in H as [[_ ?] _]).
    rewrite persist_all_ok by done. eexists _, _. split; [|split; [exact Hprom|cbn [nc_touch_counter]; apply Z.mod_small; lia]].
    eapply mirrored_heard; try done.
    + by destruct (default [] (hs !! p)).
    + intros q. rewrite after_writes_rows by (try done; apply Hm). destruct (decide (ep = Some q)); [done|].
      destruct (decide (p = q)) as [<-|]; [|done]. rewrite Hrows, Hev, (hw_order _ _ _ Hw').
      rewrite (bool_decide_ext _ (FEDERATION_NONCE_CAPACITY_PER_PEER ≤ Z.of_nat (length (order w)))%Z) by naive_solver.
      by apply evicted_queue.
    + apply after_writes_distinct; [apply Hm|done|done].
    + intros k t [[-> ->]|H]%after_writes_lookup; [split; [lia|apply sha256_length]|]. apply (mi_touches _ _ _ Hm) in H. lia.
  - apply spec_record_Replay in Es as [-> Hne].
    destruct ep as [e|]; [destruct (Hsome e eq_refl) as [E _]; by rewrite E in Hne|].
    eexists _, _. split; [|split; [exact Hprom|cbn [nc_touch_counter]; apply Z.mod_small; lia]].
    eapply (mirrored_heard c d hs p w' _ None); try done; try apply Hm.
    + intros q. rewrite decide_False by done. destruct (decide (p = q)) as [<-|]; [|done].
      rewrite Hrows, (hw_order _ _ _ Hw). symmetry. apply Hw'.
    + intros k t H. apply (mi_touches _ _ _ Hm) in H. lia.
Qed.

Inductive NonceEvent : Type := Heard (peer_id nonce : string) | Restarted.

(** Pushes and restarts, with the answers to the pushes. *)
Fixpoint nonce_run (events : list NonceEvent) (c : FederationNonceCache) : FederationNonceCache * list ReplayDecision :=
  match events with
  | [] => (c, [])
  | Heard p nonce :: events =>
      let '(c, decision) := record_nonce all_ok c p nonce in
      let '(c, decisions) := nonce_run events c in (c, decision :: decisions)
  | Restarted :: events => nonce_run events (restart c)
  end.

(** The promise over a run; a restart is no step of it. *)
Inductive nonce_promises : list NonceEvent → gmap string (list bytes) → list ReplayDecision → gmap string (list bytes) → Prop :=
  | promises_nil hs : nonce_promises [] hs [] hs
  | promises_heard p nonce events hs hs' hs'' decision decisions :
      nonce_promise hs p (nonce_fingerprint p nonce) decision hs' → nonce_promises events hs' decisions hs'' →
      nonce_promises (Heard p nonce :: events) hs (decision :: decisions) hs''
  | promises_restarted events hs hs' decisions :
      nonce_promises events hs decisions hs' → nonce_promises (Restarted :: events) hs decisions hs'.

Lemma nonce_run_simulates events c d hs c' decisions :
  mirrored c d hs → (nc_touch_counter c + Z.of_nat (length events) ≤ 2 ^ 63)%Z → nonce_run events c = (c', decisions) →
  ∃ d' hs', mirrored c' d' hs' ∧ nonce_promises events hs decisions hs'
            ∧ (nc_touch_counter c' ≤ nc_touch_counter c + Z.of_nat (length events))%Z.
Proof using LL.
  revert c d hs decisions. induction events as [|[p nonce|] events IH]; intros c d hs decisions Hm Hcnt; simpl.
  - intros [= <- <-]. exists d, hs. split_and!; [done|constructor|lia].
  - pose proof (record_simulates c d hs p nonce Hm) as Hs. cbn [length] in Hcnt.
    destruct (record_nonce all_ok c p nonce) as [c1 decision].
    destruct Hs as (d1 & hs1 & Hm1 & Hp & Hc1); [lia|]. destruct (nonce_run events c1) as [c2 decisions'] eqn:E.
    intros [= <- <-]. destruct (IH c1 d1 hs1 decisions' Hm1) as (d2 & hs2 & Hm2 & Hps & Hc2); [lia|done|].
    exists d2, hs2. split_and!; [done|by econstructor|lia].
  - cbn [length] in Hcnt. destruct (restart_mirrored c d hs Hm) as [Hm1 Hc1]. intros E.
    destruct (IH (restart c) d hs decisions Hm1) as (d2 & hs2 & Hm2 & Hps & Hc2); [lia|done|].
    exists d2, hs2. split_and!; [done|by constructor|lia].
Qed.

(** C34: the nonce cache over a fresh database, through any pushes and any
    restarts between them, answers as its promise: a nonce is refused exactly
    when it is among its peer's last ten thousand accepted ones, a peer is
    forgotten only to make room for a new one at the ceiling, and a restart
    forgets nothing, for the table read back is the windows it was written
    from; the peers, their windows and their rows stay within the bounds. *)
Theorem nonce_cache_refines events c' decisions :
  (Z.of_nat (length events) < 2 ^ 63)%Z → nonce_run events (hydrate_from_disk ∅) = (c', decisions) →
  ∃ hs, nonce_promises events ∅ decisions hs
    ∧ (∀ p, order <$> windows c' !! p = recent FEDERATION_NONCE_CAPACITY_PER_PEER <$> hs !! p)
    ∧ windows (restart c') = windows c'
    ∧ (Z.of_nat (size (nc_peers c')) ≤ FEDERATION_NONCE_MAX_PEERS)%Z
    ∧ ∃ d, nc_disk c' = Some d
           ∧ ∀ p, (Z.of_nat (length (rows_of d p)) ≤ FEDERATION_NONCE_CAPACITY_PER_PEER)%Z.
Proof using LL.
  intros Hl E. destruct (nonce_run_simulates events _ ∅ ∅ c' decisions mirrored_fresh) as (d & hs & Hm & Hp & _); [change (nc_touch_counter (hydrate_from_disk ∅)) with 1%Z; lia|done|].
  exists hs. split_and!; [done| |by eapply restart_windows|apply Hm|].
  - intros p. destruct (mi_windows _ _ _ Hm p) as [w h [Hw _]|]; [|done]. simpl. f_equal. apply Hw.
  - exists d. split; [apply Hm|]. intros p. destruct (mirrored_nodup c' d hs p Hm) as [_ H]. unfold fps in H. by rewrite length_fmap in H.
Qed.
End promise.

(* ------------------------------------------------------------------ *)
(** * How long a nonce is remembered *)

Section remembered.
Context {LC : LedgerCrypto}.

Lemma nonce_run_app events events' c :
  (nonce_run (events ++ events') c).1 = (nonce_run events' (nonce_run events c).1).1.
Proof.
  revert c. induction events as [|[p nonce|] events IH]; intros c; simpl; [done| |done].
  destruct (record_nonce all_ok c p nonce) as [c1 d]. rewrite <-(IH c1) || (specialize (IH c1)).
  destruct (nonce_run events c1) as [c2 ds], (nonce_run (events ++ events') c1) as [c3 ds']. simpl in *. congruence.
Qed.

(** A nonce with fewer than the capacity behind it is in the window. *)
Lemma recent_behind pre fp post : (Z.of_nat (length post) < FEDERATION_NONCE_CAPACITY_PER_PEER)%Z →
  fp ∈ recent FEDERATION_NONCE_CAPACITY_PER_PEER (pre ++ fp :: post).
Proof.
  intros Hl. unfold recent. rewrite drop_app_le by (rewrite length_app; simpl; lia).
  apply elem_of_app. right. left.
Qed.

Lemma spec_record_grows capacity h fp : ∃ k, (spec_record capacity h fp).1 = h ++ k ∧ length k ≤ 1.
Proof. unfold spec_record. case_bool_decide; [exists []|exists [fp]]; split; simpl; rewrite ?app_nil_r; auto. Qed.

(** While there is room for every peer that may turn up, a peer's history only grows. *)
Lemma promises_remember events hs decisions hs' p h :
  nonce_promises events hs decisions hs' → hs !! p = Some h →
  (Z.of_nat (size hs + length events) ≤ FEDERATION_NONCE_MAX_PEERS)%Z →
  ∃ k, hs' !! p = Some (h ++ k) ∧ length k ≤ length events.
Proof.
  intros Hp. revert h. induction Hp as [hs|q nonce events hs hs1 hs2 d ds Hstep _ IH|events hs hs' ds _ IH]; intros h Hh Hsz.
  - exists []. by rewrite app_nil_r.
  - assert (∃ k, hs1 !! p = Some (h ++ k) ∧ length k ≤ 1 ∧ size hs1 ≤ S (size hs)) as (k & Hk & Hl & Hs1).
    { cbn [length] in Hsz. destruct Hstep as [hq Hq|Hq _|e Hq Hfull _].
      - rewrite map_size_insert, Hq. destruct (decide (q = p)) as [->|Hne].
        + rewrite Hh in Hq. injection Hq as <-.
          destruct (spec_record_grows FEDERATION_NONCE_CAPACITY_PER_PEER h (nonce_fingerprint p nonce)) as (k & -> & Hl).
          exists k. rewrite lookup_insert_eq. simpl. split_and!; [done|done|lia].
        + exists []. rewrite lookup_insert_ne, app_nil_r by done. simpl. split_and!; [done|lia|lia].
      - exists []. rewrite lookup_insert_ne, app_nil_r by congruence. rewrite map_size_insert, Hq. simpl. split_and!; [done|lia|lia].
      - lia. }
    destruct (IH (h ++ k) Hk) as (k' & Hk' & Hl'); [cbn [length] in Hsz; lia|].
    exists (k ++ k'). rewrite app_assoc, length_app. simpl. split; [done|lia].
  - destruct (IH h Hh) as (k & ? & ?); [cbn [length] in Hsz; lia|]. exists k. simpl. split; [done|lia].
Qed.

Lemma promise_fresh hs p fp hs' : nonce_promise hs p fp Fresh hs' → ∃ pre, hs' !! p = Some (pre ++ [fp]).
Proof.
  inversion 1 as [h Hh E|_ _|e _ _ _].
  - exists h. rewrite lookup_insert_eq. f_equal. destruct (spec_record _ h fp) as [h' dec] eqn:Es. simpl in *. subst dec.
    by apply spec_record_Fresh in Es as [-> _].
  - exists []. by rewrite lookup_insert_eq.
  - exists []. by rewrite lookup_insert_eq.
Qed.

(** A nonce accepted from a peer is refused from it ever after, through
    restarts, within the bounds of the cache. *)
Lemma accepted_nonce_refused {LL : LedgerCryptoLaws LC} before p nonce events :
  let c0 := (nonce_run before (hydrate_from_disk ∅)).1 in
  let c1 := (record_nonce all_ok c0 p nonce).1 in
  let c2 := (nonce_run events c1).1 in
  (record_nonce all_ok c0 p nonce).2 = Fresh →
  (Z.of_nat (length before + length events + 2) < 2 ^ 63)%Z →
  (Z.of_nat (length events) < FEDERATION_NONCE_CAPACITY_PER_PEER)%Z →
  (Z.of_nat (size (nc_peers c1) + length events) ≤ FEDERATION_NONCE_MAX_PEERS)%Z →
  (record_nonce all_ok c2 p nonce).2 = Replay.
Proof.
  intros c0 c1 c2 Hfresh Hlen Hcap Hroom. subst c0 c1 c2. set (fp := nonce_fingerprint p nonce).
  destruct (nonce_run before (hydrate_from_disk ∅)) as [c0 ds0] eqn:E0. cbn [fst] in *.
  destruct (nonce_run_simulates before _ ∅ ∅ c0 ds0 mirrored_fresh) as (d0 & hs0 & Hm0 & _ & Hc0);
    [change (nc_touch_counter (hydrate_from_disk ∅)) with 1%Z; lia|done|].
  change (nc_touch_counter (hydrate_from_disk ∅)) with 1%Z in Hc0.
  pose proof (record_simulates c0 d0 hs0 p nonce Hm0) as H1. destruct (record_nonce all_ok c0 p nonce) as [c1 dec].
  cbn [fst snd] in *. subst dec. destruct H1 as (d1 & hs1 & Hm1 & Hp1 & Hc1); [lia|].
  destruct (promise_fresh _ _ _ _ Hp1) as [pre Hpre].
  destruct (nonce_run events c1) as [c2 ds2] eqn:E2. cbn [fst].
  destruct (nonce_run_simulates events c1 d1 hs1 c2 ds2 Hm1) as (d2 & hs2 & Hm2 & Hps & Hc2); [lia|done|].
  destruct (promises_remember _ _ _ _ p _ Hps Hpre) as (k & Hk & Hl); [by rewrite (mirrored_size _ _ _ Hm1)|].
  pose proof (record_simulates c2 d2 hs2 p nonce Hm2) as H2. destruct (record_nonce all_ok c2 p nonce) as [c3 dec].
  destruct H2 as (d3 & hs3 & _ & Hp3 & _); [lia|]. cbn [snd]. inversion Hp3 as [h Hh|Hn _|e Hn _ _]; [|congruence..].
  rewrite Hk in Hh. injection Hh as <-. unfold spec_record. fold fp.
  rewrite bool_decide_eq_true_2; [done|]. rewrite <-app_assoc. apply (recent_behind pre fp k). lia.
Qed.
End remembered.

(* ------------------------------------------------------------------ *)
(** * The cache of verified links *)

Section links.
Context {LC : LedgerCrypto}.

Record VerifyRequest : Type := mkVerify { vr_link : string; vr_signature : bytes; vr_nonce : string }.

Fixpoint replay_run (requests : list VerifyRequest) (c : ReplayCache.t) : ReplayCache.t * list ReplayDecision :=
  match requests with
  | [] => (c, [])
  | r :: requests =>
      let '(c, decision) := ReplayCache.record_and_check c (vr_link r) (vr_signature r) (vr_nonce r) in
      let '(c, decisions) := replay_run requests c in (c, decision :: decisions)
  end.

Fixpoint spec_run (capacity : Z) (fingerprints h : list bytes) : list bytes * list ReplayDecision :=
  match fingerprints with
  | [] => (h, [])
  | fp :: fingerprints =>
      let '(h, decision) := spec_record capacity h fp in
      let '(h, decisions) := spec_run capacity fingerprints h in (h, decision :: decisions)
  end.

Definition request_fingerprint (r : VerifyRequest) : bytes :=
  ReplayCache.fingerprint (vr_link r) (vr_signature r) (vr_nonce r).

(** The evictions counted are the fingerprints forgotten. *)
Record cache_holds (c : ReplayCache.t) (h : list bytes) : Prop := {
  ch_window : holds SEEN_VERIFICATIONS_CAPACITY (ReplayCache.inner c) h;
  ch_evictions : ReplayCache.evictions c = (Z.max 0 (Z.of_nat (length h) - SEEN_VERIFICATIONS_CAPACITY) mod 2 ^ 64)%Z
}.

Lemma record_and_check_spec c h r : cache_holds c h →
  let '(c', decision) := ReplayCache.record_and_check c (vr_link r) (vr_signature r) (vr_nonce r) in
  let '(h', decision') := spec_record SEEN_VERIFICATIONS_CAPACITY h (request_fingerprint r) in
  decision = decision' ∧ cache_holds c' h'.
Proof.
  intros [Hw He]. unfold ReplayCache.record_and_check. fold (request_fingerprint r).
  pose proof (window_record_spec SEEN_VERIFICATIONS_CAPACITY _ h (request_fingerprint r) eq_refl Hw) as H.
  destruct (window_record _ _ _) as [[w efp] dec]. destruct (spec_record _ _ _) as [h' dec'] eqn:Es.
  destruct H as (-> & Hw' & ->). split; [done|]. split; [done|]. cbn [ReplayCache.evictions]. rewrite He.
  rewrite (hw_order _ _ _ Hw). pose proof (recent_length SEEN_VERIFICATIONS_CAPACITY h) as Hl.
  assert (0 < SEEN_VERIFICATIONS_CAPACITY)%Z as Hpos by done. destruct dec'.
  - apply spec_record_Fresh in Es as [-> _]. rewrite length_app. cbn [length]. case_bool_decide as Hfull.
    + destruct (recent _ h) as [|x l] eqn:Er; [simpl in Hl; destruct Hfull as [_ Hfull]; simpl in Hfull; lia|]. cbn [head is_some].
      rewrite Zplus_mod_idemp_l. f_equal. destruct Hfull as [_ Hfull]. lia.
    + cbn [is_some]. f_equal. assert (¬ (SEEN_VERIFICATIONS_CAPACITY ≤ Z.of_nat (length (recent SEEN_VERIFICATIONS_CAPACITY h)))%Z) by tauto. lia.
  - apply spec_record_Replay in Es as [-> _]. by rewrite bool_decide_eq_false_2 by naive_solver.
Qed.

Lemma replay_run_spec requests c h : cache_holds c h →
  let '(c', decisions) := replay_run requests c in
  let '(h', decisions') := spec_run SEEN_VERIFICATIONS_CAPACITY (request_fingerprint <$> requests) h in
  decisions = decisions' ∧ cache_holds c' h'.
Proof.
  revert c h. induction requests as [|r requests IH]; intros c h Hc; [done|]. simpl.
  pose proof (record_and_check_spec c h r Hc) as H. destruct (ReplayCache.record_and_check _ _ _ _) as [c1 dec].
  destruct (spec_record _ _ _) as [h1 dec']. destruct H as [-> H1]. specialize (IH c1 h1 H1).
  destruct (replay_run requests c1) as [c2 decs]. change (list_fmap _ _ request_fingerprint requests) with (request_fingerprint <$> requests).
  destruct (spec_run _ _ h1) as [h2 decs']. destruct IH as [-> IH]. done.
Qed.

(** The cache of verified links, from the daemon's start and over any
    requests, answers each as the reference does (refused exactly when its
    fingerprint is among the last hundred thousand accepted), never holds more,
    keeps its set and its queue the same fingerprints, and counts exactly those
    it has forgotten, modulo the counter's width. *)
Lemma replay_cache_exact requests :
  let '(c, decisions) := replay_run requests ReplayCache.new in
  let '(h, decisions') := spec_run SEEN_VERIFICATIONS_CAPACITY (request_fingerprint <$> requests) [] in
  decisions = decisions'
  ∧ order (ReplayCache.inner c) = recent SEEN_VERIFICATIONS_CAPACITY h
  ∧ seen (ReplayCache.inner c) = list_to_set (order (ReplayCache.inner c)) ∧ NoDup (order (ReplayCache.inner c))
  ∧ (Z.of_nat (length (order (ReplayCache.inner c))) ≤ SEEN_VERIFICATIONS_CAPACITY)%Z
  ∧ ReplayCache.evictions c = (Z.max 0 (Z.of_nat (length h) - SEEN_VERIFICATIONS_CAPACITY) mod 2 ^ 64)%Z.
Proof.
  assert (cache_holds ReplayCache.new []) as H0 by (split; [apply holds_empty|done]).
  pose proof (replay_run_spec requests ReplayCache.new [] H0) as H.
  destruct (replay_run requests ReplayCache.new) as [c decs]. destruct (spec_run _ _ _) as [h decs'].
  destruct H as [-> [Hw He]]. split_and!; [done|apply Hw|apply Hw|apply Hw|by eapply holds_bounded|done].
Qed.
End links.

Lemma nonce_cache_refines_witness :
  ∃ hs, nonce_promises (LC := demo_ledger_crypto) [Heard "p" "1"; Heard "p" "2"; Restarted; Heard "p" "1"; Heard "q" "1"] ∅
          [Fresh; Fresh; Replay; Fresh] hs
    ∧ (∀ p, order <$> windows (nonce_run (LC := demo_ledger_crypto)
                [Heard "p" "1"; Heard "p" "2"; Restarted; Heard "p" "1"; Heard "q" "1"] (hydrate_from_disk ∅)).1 !! p
            = recent FEDERATION_NONCE_CAPACITY_PER_PEER <$> hs !! p).
Proof.
  edestruct (nonce_cache_refines (LC := demo_ledger_crypto) (LL := demo_ledger_laws)
    [Heard "p" "1"; Heard "p" "2"; Restarted; Heard "p" "1"; Heard "q" "1"]
    (nonce_run (LC := demo_ledger_crypto) [Heard "p" "1"; Heard "p" "2"; Restarted; Heard "p" "1"; Heard "q" "1"] (hydrate_from_disk ∅)).1
    [Fresh; Fresh; Replay; Fresh]) as (hs & H1 & H2 & _); [done|by vm_compute|].
  by exists hs.
Defined.
