(* ===== verification/Signals.v ===== *)
(** Signed signals between agents: the message, its lifecycle stamps, the
    statements of the [signals] table and the attestation over the fields
    that never change ([src/src/models/signal.rs], [src/src/signals/mod.rs]). *)
From S2P Require Import Prelude.
From S2P Require Import Sql.
From S2P Require Import BTree.
From S2P Require Import Bytes.
From S2P Require Import Json.
From S2P Require Import Memory.
From S2P Require Import Capability.
From S2P Require Import Ledger.
From S2P Require Import Attestation.

(* ------------------------------------------------------------------ *)
(** * Data: [models/signal.rs] *)

Inductive SignalType : Type := Authorize | Notify | Request | Response | Broadcast.

#[global] Instance SignalType_eq_dec : EqDecision SignalType.
Proof. solve_decision. Defined.

Definition SignalType_as_str (t : SignalType) : string :=
  match t with
  | Authorize => "authorize"
  | Notify => "notify"
  | Request => "request"
  | Response => "response"
  | Broadcast => "broadcast"
  end.

Definition SignalType_from_str (s : string) : option SignalType :=
  if decide (s = "authorize") then Some Authorize
  else if decide (s = "notify") then Some Notify
  else if decide (s = "request") then Some Request
  else if decide (s = "response") then Some Response
  else if decide (s = "broadcast") then Some Broadcast
  else None.

#[global] Instance SignalType_wire : WireEnum SignalType SignalType_as_str SignalType_from_str.
Proof. solve_wire_enum SignalType_from_str. Qed.

Record Signal : Type := mkSignal {
  sig_id : string;
  sig_namespace : string;
  sig_from_agent : string;
  sig_to_agent : option string;
  sig_subject : string;
  sig_body : value;
  sig_signal_type : SignalType;
  sig_in_reply_to : option string;
  sig_correlation_id : option string;
  sig_reference_ids : value;
  sig_created_at : Z;
  sig_expires_at : option Z;
  sig_delivered_at : option Z;
  sig_read_at : option Z;
  sig_acknowledged_at : option Z;
  sig_signature : bytes;
  sig_sender_pubkey : bytes
}.

(** A row of [signals]: the raw columns. *)
Record signal_row : Type := mkSignalRow {
  sgr_id : string;
  sgr_namespace : string;
  sgr_from_agent : string;
  sgr_to_agent : option string;
  sgr_subject : string;
  sgr_body : string;
  sgr_signal_type : string;
  sgr_in_reply_to : option string;
  sgr_correlation_id : option string;
  sgr_reference_ids : string;
  sgr_created_at : Z;
  sgr_expires_at : option Z;
  sgr_delivered_at : option Z;
  sgr_read_at : option Z;
  sgr_acknowledged_at : option Z;
  sgr_signature : bytes;
  sgr_sender_pubkey : bytes
}.

Abbreviation SignalDb := (gmap string signal_row).

Definition with_signature (sig pubkey : bytes) (s : Signal) : Signal :=
  mkSignal (sig_id s) (sig_namespace s) (sig_from_agent s) (sig_to_agent s) (sig_subject s) (sig_body s)
    (sig_signal_type s) (sig_in_reply_to s) (sig_correlation_id s) (sig_reference_ids s) (sig_created_at s)
    (sig_expires_at s) (sig_delivered_at s) (sig_read_at s) (sig_acknowledged_at s) sig pubkey.

(** The three lifecycle columns, as an update sets them. *)
Definition with_stamps (delivered read acked : option Z) (r : signal_row) : signal_row :=
  mkSignalRow (sgr_id r) (sgr_namespace r) (sgr_from_agent r) (sgr_to_agent r) (sgr_subject r) (sgr_body r)
    (sgr_signal_type r) (sgr_in_reply_to r) (sgr_correlation_id r) (sgr_reference_ids r) (sgr_created_at r)
    (sgr_expires_at r) delivered read acked (sgr_signature r) (sgr_sender_pubkey r).

(* ------------------------------------------------------------------ *)
(** * Signing *)

Section with_libs.
Context {CC : CapCrypto} {LC : LedgerCrypto} {JC : JsonCodec}.

Definition body_sha256 (s : Signal) : bytes := sha256 (str_bytes (json_to_string (sig_body s))).

Definition signable (s : Signal) (body_hash : bytes) : SignableSignal :=
  mkSignableSignal (sig_id s) (sig_namespace s) (sig_from_agent s) (sig_to_agent s) (sig_subject s) body_hash
    (SignalType_as_str (sig_signal_type s)) (sig_in_reply_to s) (sig_correlation_id s) (sig_created_at s).

#[global] Instance Signal_attested : Attested Signal := {
  att_payload s := canonical_cbor_signal (signable s (body_sha256 s));
  att_signature := sig_signature;
  att_pubkey := sig_sender_pubkey;
  att_put := with_signature
}.

#[global] Instance Signal_attested_laws : AttestedLaws Signal.
Proof. by split. Qed.

Definition sign_into {KB : KeyBytes CC} (s : Signal) (keypair : AgentKeypair) : result Signal SignError :=
  sign_row s keypair.
Definition verify {KB : KeyBytes CC} (s : Signal) : bool := verify_row s.
Definition verify_with_key {KB : KeyBytes CC} (s : Signal) (pubkey : bytes) : bool :=
  verify_row_with_key s pubkey.

(* ------------------------------------------------------------------ *)
(** * Statements *)

Definition row_to_signal (r : signal_row) : Signal :=
  mkSignal (sgr_id r) (sgr_namespace r) (sgr_from_agent r) (sgr_to_agent r) (sgr_subject r)
    (default JNull (json_from_str (sgr_body r))) (default Notify (SignalType_from_str (sgr_signal_type r)))
    (sgr_in_reply_to r) (sgr_correlation_id r) (default JNull (json_from_str (sgr_reference_ids r)))
    (sgr_created_at r) (sgr_expires_at r) (sgr_delivered_at r) (sgr_read_at r) (sgr_acknowledged_at r)
    (sgr_signature r) (sgr_sender_pubkey r).

(** The bound parameters of the [INSERT]. *)
Definition signal_to_row (s : Signal) : signal_row :=
  mkSignalRow (sig_id s) (sig_namespace s) (sig_from_agent s) (sig_to_agent s) (sig_subject s)
    (json_to_string (sig_body s)) (SignalType_as_str (sig_signal_type s)) (sig_in_reply_to s)
    (sig_correlation_id s) (json_to_string (sig_reference_ids s)) (sig_created_at s) (sig_expires_at s)
    (sig_delivered_at s) (sig_read_at s) (sig_acknowledged_at s) (sig_signature s) (sig_sender_pubkey s).

(** The foreign key of [in_reply_to]: a signal of the table, or the new row
    itself. *)
Definition reply_exists (db : SignalDb) (s : Signal) : bool :=
  match sig_in_reply_to s with
  | Some p => is_some (db !! p) || bool_decide (p = sig_id s)
  | None => true
  end.

Definition insert (db : SignalDb) (s : Signal) : result (SignalDb * string) sql_error :=
  match db !! sig_id s with
  | Some _ => Err ConstraintPrimaryKey
  | None =>
      if reply_exists db s then Ok (<[sig_id s := signal_to_row s]> db, sig_id s)
      else Err ConstraintForeignKey
  end.

Definition get (db : SignalDb) (id : string) : option Signal := row_to_signal <$> db !! id.

Definition signal_rows (db : SignalDb) : list signal_row := (map_to_list db).*2.

Definition inbox_where (namespace : string) (to_agent : option string) (r : signal_row) : bool :=
  bool_decide (sgr_namespace r = namespace)
  && match to_agent with
     | Some agent => bool_decide (sgr_to_agent r = Some agent) || negb (is_some (sgr_to_agent r))
     | None => true
     end.

Definition list_inbox (db : SignalDb) (namespace : string) (to_agent : option string) (limit : Z) : list Signal :=
  row_to_signal <$> select (signal_rows db) (inbox_where namespace to_agent) (desc sgr_created_at) (limit_i64 limit).

Definition thread (db : SignalDb) (correlation_id : string) : list Signal :=
  row_to_signal <$>
    stable_sort (asc sgr_created_at)
      (List.filter (λ r, bool_decide (sgr_correlation_id r = Some correlation_id)) (signal_rows db)).

(** [UPDATE signals SET .. = ?1 WHERE id = ?2 AND .. IS NULL]: whether a row
    changed. *)
Definition stamp_once (column : signal_row → option Z) (set : signal_row → signal_row) (db : SignalDb) (id : string) :
    SignalDb * bool :=
  match db !! id with
  | Some r => if is_some (column r) then (db, false) else (<[id := set r]> db, true)
  | None => (db, false)
  end.

Definition mark_delivered (db : SignalDb) (id : string) (now : Z) : SignalDb * bool :=
  stamp_once sgr_delivered_at (λ r, with_stamps (Some now) (sgr_read_at r) (sgr_acknowledged_at r) r) db id.
Definition mark_read (db : SignalDb) (id : string) (now : Z) : SignalDb * bool :=
  stamp_once sgr_read_at (λ r, with_stamps (sgr_delivered_at r) (Some now) (sgr_acknowledged_at r) r) db id.
Definition mark_acked (db : SignalDb) (id : string) (now : Z) : SignalDb * bool :=
  stamp_once sgr_acknowledged_at (λ r, with_stamps (sgr_delivered_at r) (sgr_read_at r) (Some now) r) db id.

(* ------------------------------------------------------------------ *)
(** * The table over time *)

(** One statement that writes the table. *)
Inductive signal_step (db : SignalDb) : SignalDb → Prop :=
| step_insert s db' id : insert db s = Ok (db', id) → signal_step db db'
| step_delivered id now : signal_step db (mark_delivered db id now).1
| step_read id now : signal_step db (mark_read db id now).1
| step_acked id now : signal_step db (mark_acked db id now).1.

(** A column set once keeps its value. *)
Definition keeps (a b : option Z) : Prop := is_Some a → b = a.

(** The same message, at the same or a later stage. *)
Definition later (r r' : signal_row) : Prop :=
  r' = with_stamps (sgr_delivered_at r') (sgr_read_at r') (sgr_acknowledged_at r') r
  ∧ keeps (sgr_delivered_at r) (sgr_delivered_at r')
  ∧ keeps (sgr_read_at r) (sgr_read_at r')
  ∧ keeps (sgr_acknowledged_at r) (sgr_acknowledged_at r').

(** Rows are stored under their id, and answer signals of the table. *)
Definition signals_wf (db : SignalDb) : Prop :=
  ∀ id r, db !! id = Some r →
    sgr_id r = id ∧ is_Some (SignalType_from_str (sgr_signal_type r))
    ∧ (∀ p, sgr_in_reply_to r = Some p → is_Some (db !! p)).
End with_libs.

(* ------------------------------------------------------------------ *)
(** * Lemmas *)

Section later.
Lemma keeps_refl a : keeps a a.
Proof. done. Qed.
Lemma keeps_trans a b c : keeps a b → keeps b c → keeps a c.
Proof. unfold keeps. intros H1 H2 Ha. specialize (H1 Ha). subst. auto. Qed.
Lemma keeps_none a : keeps None a.
Proof. by intros [? ?]. Qed.

Lemma later_refl r : later r r.
Proof. by destruct r. Qed.

Lemma later_trans r1 r2 r3 : later r1 r2 → later r2 r3 → later r1 r3.
Proof.
  intros (E1 & ?&?&?) (E2 & ?&?&?). split_and!; try (by eapply keeps_trans).
  rewrite E2, E1. done.
Qed.
End later.

#[export] Hint Resolve keeps_refl keeps_none later_refl later_trans : mem.

Section spec.
Context {CC : CapCrypto} {LC : LedgerCrypto} {JC : JsonCodec}.

Lemma stamp_once_later column set db id r i :
  (∀ r, column r = None → later r (set r)) → db !! i = Some r →
  ∃ r', (stamp_once column set db id).1 !! i = Some r' ∧ later r r'.
Proof.
  intros Hset Hi. unfold stamp_once. destruct (db !! id) as [q|] eqn:Hq; [|by eauto with mem].
  destruct (column q) eqn:Hc; simpl; [by eauto with mem|].
  destruct (decide (i = id)) as [->|Hne]; [|by rewrite lookup_insert_ne by done; eauto with mem].
  simplify_eq. rewrite lookup_insert_eq. eauto.
Qed.

Lemma step_later db db' id r :
  signal_step db db' → db !! id = Some r → ∃ r', db' !! id = Some r' ∧ later r r'.
Proof.
  intros [s ? i H|i now|i now|i now] Hr.
  - unfold insert in H. destruct (db !! sig_id s) eqn:Hs; [done|]. destruct (reply_exists db s); [|done].
    injection H as <- <-. exists r. rewrite lookup_insert_ne by congruence. auto with mem.
  - eapply stamp_once_later; [|done]. intros q Hq. unfold later. simpl. rewrite Hq. auto with mem.
  - eapply stamp_once_later; [|done]. intros q Hq. unfold later. simpl. rewrite Hq. auto with mem.
  - eapply stamp_once_later; [|done]. intros q Hq. unfold later. simpl. rewrite Hq. auto with mem.
Qed.

Lemma steps_later db db' id r :
  rtc signal_step db db' → db !! id = Some r → ∃ r', db' !! id = Some r' ∧ later r r'.
Proof.
  intros Hs. revert r. induction Hs as [db|db1 db2 db3 Hs _ IH]; intros r Hr; [by eauto with mem|].
  destruct (step_later _ _ _ _ Hs Hr) as (r2 & Hr2 & H2). destruct (IH _ Hr2) as (r3 & ? & ?). eauto with mem.
Qed.

(** The stamps are outside everything verification reads. *)
Lemma later_signal r r' : later r r' →
  row_to_signal r' = mkSignal (sgr_id r) (sgr_namespace r) (sgr_from_agent r) (sgr_to_agent r) (sgr_subject r)
    (sig_body (row_to_signal r)) (sig_signal_type (row_to_signal r)) (sgr_in_reply_to r) (sgr_correlation_id r)
    (sig_reference_ids (row_to_signal r)) (sgr_created_at r) (sgr_expires_at r) (sgr_delivered_at r') (sgr_read_at r')
    (sgr_acknowledged_at r') (sgr_signature r) (sgr_sender_pubkey r).
Proof. intros (-> & _). done. Qed.

Lemma later_verify {KB : KeyBytes CC} r r' pk : later r r' →
  verify (row_to_signal r') = verify (row_to_signal r)
  ∧ verify_with_key (row_to_signal r') pk = verify_with_key (row_to_signal r) pk.
Proof. intros (-> & _). done. Qed.

Lemma stamp_once_wf column set db id :
  (∀ r, ∃ d a b, set r = with_stamps d a b r) → signals_wf db → signals_wf (stamp_once column set db id).1.
Proof.
  intros Hset Hwf. unfold stamp_once. destruct (db !! id) as [q|] eqn:Hq; [|done].
  destruct (column q); simpl; [done|]. intros i r Hi.
  assert (∃ r0, db !! i = Some r0 ∧ sgr_id r = sgr_id r0 ∧ sgr_signal_type r = sgr_signal_type r0
    ∧ sgr_in_reply_to r = sgr_in_reply_to r0) as (r0 & Hr0 & -> & -> & ->).
  { destruct (decide (i = id)) as [->|Hne]; [|rewrite lookup_insert_ne in Hi by done; eauto].
    rewrite lookup_insert_eq in Hi. injection Hi as <-. destruct (Hset q) as (?&?&?&->). eauto. }
  destruct (Hwf _ _ Hr0) as (?&?&Hp). split_and!; [done..|]. intros p Hin.
  destruct (Hp p Hin) as [? ?]. destruct (decide (p = id)) as [->|]; simplify_map_eq; eauto.
Qed.

Lemma step_wf db db' : signal_step db db' → signals_wf db → signals_wf db'.
Proof.
  intros [s ? i H|i now|i now|i now] Hwf; [|apply stamp_once_wf; [intros; by do 3 eexists|done]..].
  unfold insert in H. destruct (db !! sig_id s) eqn:Hs; [done|].
  destruct (reply_exists db s) eqn:Hp; [|done]. injection H as <- <-.
  unfold reply_exists in Hp. intros i r [[<- <-]|[Hne Hi]]%lookup_insert_Some.
  - simpl. split_and!; [done|rewrite spelling_roundtrip; by eexists|]. intros p E. rewrite E in Hp.
    apply orb_true_iff in Hp as [Hp| ->%bool_decide_eq_true]; [|by rewrite lookup_insert_eq].
    destruct (db !! p) eqn:Hdp; [|done]. destruct (decide (p = sig_id s)); simplify_map_eq; eauto.
  - destruct (Hwf _ _ Hi) as (?&?&Hq). split_and!; [done..|]. intros p E. destruct (Hq p E) as [q Hq'].
    destruct (decide (p = sig_id s)); simplify_map_eq; eauto.
Qed.
End spec.

(* ------------------------------------------------------------------ *)
(** * Properties *)

Section properties.
Context {CC : CapCrypto} {LC : LedgerCrypto} {JC : JsonCodec} {KB : KeyBytes CC}.

(** C21: a stored signal is immutable but for its lifecycle. Whatever
    statements run, the table stays well formed (rows under their id, known
    types, replies to signals that exist), no signal disappears, each stamp is
    set at most once, every other column keeps its value, and so the answer
    of verification never changes. *)
Theorem signal_lifecycle db db' :
  signals_wf db → rtc signal_step db db' →
  signals_wf db' ∧
  ∀ id r, db !! id = Some r → ∃ r', db' !! id = Some r' ∧ later r r'
    ∧ verify (row_to_signal r') = verify (row_to_signal r)
    ∧ ∀ pk, verify_with_key (row_to_signal r') pk = verify_with_key (row_to_signal r) pk.
Proof.
  intros Hwf Hs. split.
  - clear KB. induction Hs as [|db1 db2 db3 Hs _ IH]; [done|]. apply IH. by eapply step_wf.
  - intros id r Hr. destruct (steps_later _ _ _ _ Hs Hr) as (r' & Hr' & Hl). exists r'.
    split_and!; [done|done|apply (later_verify _ _ [] Hl)|intros pk; apply (later_verify _ _ pk Hl)].
Qed.

(** A signed signal survives the table. A signal signed with a keypair,
    inserted, and read back at any later stage of its life is the signal that
    was signed, stamps apart, and verifies, under its own key and under the
    enrolled key of its author. *)
Lemma signed_signal_survives `{!CapCryptoLaws CC} {KL : KeyBytesLaws KB}
    db s kp s' db1 id db2 :
  keypair_wf kp → json_from_str (json_to_string (sig_body s)) = Some (sig_body s) →
  json_from_str (json_to_string (sig_reference_ids s)) = Some (sig_reference_ids s) →
  sign_into s kp = Ok s' → insert db s' = Ok (db1, id) → rtc signal_step db1 db2 →
  ∃ g, get db2 id = Some g
    ∧ g = mkSignal (sig_id s) (sig_namespace s) (sig_from_agent s) (sig_to_agent s) (sig_subject s) (sig_body s)
            (sig_signal_type s) (sig_in_reply_to s) (sig_correlation_id s) (sig_reference_ids s) (sig_created_at s)
            (sig_expires_at s) (sig_delivered_at g) (sig_read_at g) (sig_acknowledged_at g) (sig_signature s')
            (key_to_bytes (kp_public kp))
    ∧ verify g = true ∧ verify_with_key g (key_to_bytes (kp_public kp)) = true.
Proof.
  intros Hkp Hb Hrefs Hsign Hins Hs. pose proof (sign_row_verifies _ _ _ Hkp Hsign) as Hv.
  apply sign_row_Ok in Hsign as (k & p & Hk & Hp & ->). cbn in Hins.
  unfold insert in Hins. cbn in Hins. destruct (db !! sig_id s); [done|].
  destruct (reply_exists db _); [|done]. injection Hins as <- <-.
  destruct (steps_later _ _ (sig_id s) _ Hs (lookup_insert_eq _ _ _)) as (r' & Hr' & Hl).
  change (att_put _ _ s) with (with_signature (sign k p) (key_to_bytes (kp_public kp)) s) in *.
  set (s1 := with_signature (sign k p) (key_to_bytes (kp_public kp)) s) in *.
  assert (row_to_signal (signal_to_row s1) = s1) as Hrt.
  { unfold row_to_signal, signal_to_row. simpl. by rewrite Hb, Hrefs, spelling_roundtrip. }
  exists (row_to_signal r'). unfold get. rewrite Hr'. split; [done|].
  destruct (later_verify (KB := KB) _ _ (key_to_bytes (kp_public kp)) Hl) as [-> ->]. rewrite Hrt.
  split_and!; [|done|].
  - rewrite (later_signal _ _ Hl), Hrt. done.
  - unfold verify in Hv. rewrite verify_row_with_own_key in Hv. by apply andb_true_iff in Hv as [_ Hv].
Qed.

(** The fields an attestation covers: the body through its text. *)
Definition covered (s : Signal) :=
  (sig_id s, sig_namespace s, sig_from_agent s, sig_to_agent s, sig_subject s, json_to_string (sig_body s),
   sig_signal_type s, sig_in_reply_to s, sig_correlation_id s, sig_created_at s).

(** What a signal's signature covers. It binds ten fields, unless SHA-256
    collides: no other signal shares the signed bytes. And it binds nothing
    else: the references and the expiry of a signed signal can be rewritten
    by whoever relays it, and it still verifies. *)
Lemma signature_covers `{!CapCryptoLaws CC} s s' p :
  att_payload s = Some p →
  (att_payload s' = Some p → covered s = covered s' ∨ collision)
  ∧ (covered s = covered s' → sig_signature s = sig_signature s' → sig_sender_pubkey s = sig_sender_pubkey s' →
     verify s' = verify s).
Proof.
  intros Hs. split.
  - intros Hs'. simpl in Hs, Hs'.
    assert (surface_bytes (OfSignal (signable s (body_sha256 s))) = Some p) as H1 by done.
    assert (OfSignal (signable s (body_sha256 s)) = OfSignal (signable s' (body_sha256 s'))) as E
      by (by eapply encoded_fields).
    clear H1. injection E as E1 E2 E3 E4 E5 Eb E6 E7 E8 E9.
    destruct (decide (json_to_string (sig_body s) = json_to_string (sig_body s'))) as [Hb|Hb].
    + left. unfold covered. apply (wire_as_str_inj (A := SignalType)) in E6. congruence.
    + right. unfold body_sha256 in Eb. exists (str_bytes (json_to_string (sig_body s))),
        (str_bytes (json_to_string (sig_body s'))). split; [|done]. by intros ?%str_bytes_inj.
  - intros E Esig Epk. unfold covered in E. unfold verify, verify_row. simpl. rewrite Esig, Epk.
    replace (signable s' (body_sha256 s')) with (signable s (body_sha256 s)); [done|].
    unfold signable, body_sha256. destruct s, s'; simpl in *. congruence.
Qed.

(** An inbox is exactly the mail of its reader: the signals of the
    namespace addressed to the agent or to everyone, newest first, the newest
    ones when the limit cuts, and all of them when it does not. *)
Lemma inbox_exact db namespace to_agent limit :
  ∃ rows, list_inbox db namespace to_agent limit = row_to_signal <$> rows
    ∧ page db (inbox_where namespace to_agent) (desc sgr_created_at) limit rows
    ∧ ∀ r, inbox_where namespace to_agent r = true ↔
        sgr_namespace r = namespace
        ∧ ∀ a, to_agent = Some a → sgr_to_agent r = Some a ∨ sgr_to_agent r = None.
Proof.
  eexists. split; [done|]. split; [apply select_page; apply _|].
  intros r. unfold inbox_where. rewrite andb_true_iff, bool_decide_eq_true.
  apply and_iff_compat_l. destruct to_agent as [a|]; [|naive_solver].
  rewrite orb_true_iff, bool_decide_eq_true, negb_true_iff.
  destruct (sgr_to_agent r); simpl; naive_solver.
Qed.
End properties.

(* ------------------------------------------------------------------ *)
(** * Witnesses *)

#[local] Existing Instance demo_attest_crypto.
#[local] Existing Instance demo_key_codec.
#[local] Existing Instance demo_ledger_crypto.
#[local] Instance demo_signal_json : JsonCodec := {|
  json_to_string v := match v with JNull => "null" | _ => "[]" end;
  json_from_str s := if decide (s = "null") then Some JNull else if decide (s = "[]") then Some (JArray []) else None
|}.

Definition demo_bob : AgentKeypair := mkKeypair "ai:bob" true (Some true).
Definition demo_draft : Signal :=
  mkSignal "s1" "team" "ai:bob" (Some "ai:alice") "hello" JNull Notify None (Some "c1") (JArray []) 7 (Some 99%Z)
    None None None [] [].
Definition demo_sent : Signal := match sign_into demo_draft demo_bob with Ok s => s | Err _ => demo_draft end.
Definition demo_mail : SignalDb := match insert ∅ demo_sent with Ok (db, _) => db | Err _ => ∅ end.
Definition demo_delivered : SignalDb := (mark_delivered demo_mail "s1" 8).1.
Definition demo_read : SignalDb := (mark_read demo_delivered "s1" 9).1.

Lemma demo_life : rtc signal_step demo_mail demo_read.
Proof. eapply rtc_l; [apply (step_delivered demo_mail "s1" 8)|]. apply rtc_once, (step_read demo_delivered "s1" 9). Qed.

Example demo_stamps : (sgr_delivered_at <$> demo_read !! "s1") = Some (Some 8%Z)
  ∧ (mark_delivered demo_read "s1" 12).2 = false.
Proof. split; vm_compute; reflexivity. Qed.

Lemma signal_lifecycle_witness :
  signals_wf demo_read ∧ (verify <$> get demo_read "s1") = (verify <$> get demo_mail "s1").
Proof.
  assert (signals_wf demo_mail) as Hwf.
  { intros id r Hr. replace demo_mail with ({[ "s1" := signal_to_row demo_sent ]} : SignalDb) in Hr by reflexivity.
    apply lookup_singleton_Some in Hr as [<- <-]. split_and!; [done|by eexists|done]. }
  destruct (signal_lifecycle demo_mail demo_read Hwf demo_life) as [Hwf' H]. split; [exact Hwf'|].
  destruct (demo_mail !! "s1") as [r|] eqn:Hr; [|vm_compute in Hr; discriminate Hr].
  destruct (H "s1" r Hr) as (r' & Hr' & _ & Hv & _). unfold get. by rewrite Hr, Hr'; simpl; rewrite Hv.
Defined.

Lemma signed_signal_survives_witness :
  ∃ g, get demo_read "s1" = Some g ∧ sig_subject g = "hello" ∧ sig_read_at g = Some 9%Z ∧ verify g = true.
Proof.
  destruct (@signed_signal_survives _ _ _ _ demo_attest_laws demo_key_laws ∅ demo_draft demo_bob demo_sent demo_mail
    "s1" demo_read) as (g & Hg & E & Hv & _).
  - by intros k [= <-].
  - reflexivity.
  - reflexivity.
  - vm_compute. reflexivity.
  - vm_compute. reflexivity.
  - exact demo_life.
  - exists g. split_and!; [exact Hg|by rewrite E| |exact Hv].
    assert (sig_read_at <$> get demo_read "s1" = Some (Some 9%Z)) as Hr by (vm_compute; reflexivity).
    rewrite Hg in Hr. by injection Hr.
Defined.

(** The references of a signed signal, rewritten by a relay. *)
Definition demo_relayed : Signal :=
  mkSignal "s1" "team" "ai:bob" (Some "ai:alice") "hello" JNull Notify None (Some "c1") JNull 7 None
    None None None (sig_signature demo_sent) (sig_sender_pubkey demo_sent).

Lemma signature_covers_witness : verify demo_relayed = true ∧ sig_reference_ids demo_relayed ≠ sig_reference_ids demo_sent.
Proof.
  split; [|vm_compute; discriminate].
  destruct (att_payload demo_sent) as [p|] eqn:Hp; [|vm_compute in Hp; discriminate Hp].
  destruct (@signature_covers _ _ _ _ demo_attest_laws demo_sent demo_relayed p Hp) as [_ ->];
    vm_compute; reflexivity.
Defined.
