(* ===== verification/Checkpoints.v ===== *)
(** Attested checkpoints: coordination gates whose resolution is signed, the
    statements of the [checkpoints] table, the local resolution and the
    receive side of a federated one ([src/src/models/checkpoint.rs],
    [src/src/checkpoints/mod.rs]). *)
From S2P Require Import Prelude.
From S2P Require Import Sql.
From S2P Require Import BTree.
From S2P Require Import Bytes.
From S2P Require Import Json.
From S2P Require Import Memory.
From S2P Require Import Capability.
From S2P Require Import Attestation.

(* ------------------------------------------------------------------ *)
(** * Data: [models/checkpoint.rs] *)

Inductive ConditionType : Type :=
| Approval | ExternalSignal | ConditionPredicate | Deadline | AuditHeadWitness | GovernanceVerdict
| GovernanceEnforcement | EpochAdvance | PeerHeadEntanglement.

#[global] Instance ConditionType_eq_dec : EqDecision ConditionType.
Proof. solve_decision. Defined.

Definition ConditionType_as_str (t : ConditionType) : string :=
  match t with
  | Approval => "approval"
  | ExternalSignal => "external_signal"
  | ConditionPredicate => "condition_predicate"
  | Deadline => "deadline"
  | AuditHeadWitness => "audit_head_witness"
  | GovernanceVerdict => "governance_verdict"
  | GovernanceEnforcement => "governance_enforcement"
  | EpochAdvance => "epoch_advance"
  | PeerHeadEntanglement => "peer_head_entanglement"
  end.

Definition ConditionType_from_str (s : string) : option ConditionType :=
  if decide (s = "approval") then Some Approval
  else if decide (s = "external_signal") then Some ExternalSignal
  else if decide (s = "condition_predicate") then Some ConditionPredicate
  else if decide (s = "deadline") then Some Deadline
  else if decide (s = "audit_head_witness") then Some AuditHeadWitness
  else if decide (s = "governance_verdict") then Some GovernanceVerdict
  else if decide (s = "governance_enforcement") then Some GovernanceEnforcement
  else if decide (s = "epoch_advance") then Some EpochAdvance
  else if decide (s = "peer_head_entanglement") then Some PeerHeadEntanglement
  else None.

Inductive CheckpointState : Type := CpPending | CpResolved | CpRejected | CpExpired.

#[global] Instance CheckpointState_eq_dec : EqDecision CheckpointState.
Proof. solve_decision. Defined.

Definition CheckpointState_as_str (s : CheckpointState) : string :=
  match s with
  | CpPending => "pending"
  | CpResolved => "resolved"
  | CpRejected => "rejected"
  | CpExpired => "expired"
  end.

Definition CheckpointState_from_str (s : string) : option CheckpointState :=
  if decide (s = "pending") then Some CpPending
  else if decide (s = "resolved") then Some CpResolved
  else if decide (s = "rejected") then Some CpRejected
  else if decide (s = "expired") then Some CpExpired
  else None.

#[global] Instance ConditionType_wire : WireEnum ConditionType ConditionType_as_str ConditionType_from_str.
Proof. solve_wire_enum ConditionType_from_str. Qed.
#[global] Instance CheckpointState_wire : WireEnum CheckpointState CheckpointState_as_str CheckpointState_from_str.
Proof. solve_wire_enum CheckpointState_from_str. Qed.

Record Checkpoint : Type := mkCheckpoint {
  cp_id : string;
  cp_namespace : string;
  cp_title : string;
  cp_condition_type : ConditionType;
  cp_condition : value;
  cp_state : CheckpointState;
  cp_created_by : string;
  cp_resolved_by : option string;
  cp_resolution : option string;
  cp_resolution_note : option string;
  cp_signature : bytes;
  cp_resolver_pubkey : bytes;
  cp_created_at : Z;
  cp_deadline_at : option Z;
  cp_resolved_at : option Z;
  cp_metadata : value
}.

(** A row of [checkpoints]; the attestation columns may be NULL. *)
Record checkpoint_row : Type := mkCheckpointRow {
  cr_id : string;
  cr_namespace : string;
  cr_title : string;
  cr_condition_type : string;
  cr_condition : string;
  cr_state : string;
  cr_created_by : string;
  cr_resolved_by : option string;
  cr_resolution : option string;
  cr_resolution_note : option string;
  cr_signature : option bytes;
  cr_resolver_pubkey : option bytes;
  cr_created_at : Z;
  cr_deadline_at : option Z;
  cr_resolved_at : option Z;
  cr_metadata : string
}.

Abbreviation CheckpointDb := (gmap string checkpoint_row).

Definition with_attestation (sig pubkey : bytes) (c : Checkpoint) : Checkpoint :=
  mkCheckpoint (cp_id c) (cp_namespace c) (cp_title c) (cp_condition_type c) (cp_condition c) (cp_state c)
    (cp_created_by c) (cp_resolved_by c) (cp_resolution c) (cp_resolution_note c) sig pubkey (cp_created_at c)
    (cp_deadline_at c) (cp_resolved_at c) (cp_metadata c).

(** [UPDATE checkpoints SET state, resolved_by, resolution, resolution_note,
    resolved_at]. *)
Definition set_resolution (state : CheckpointState) (resolved_by resolution note : option string)
    (resolved_at : option Z) (r : checkpoint_row) : checkpoint_row :=
  mkCheckpointRow (cr_id r) (cr_namespace r) (cr_title r) (cr_condition_type r) (cr_condition r)
    (CheckpointState_as_str state) (cr_created_by r) resolved_by resolution note (cr_signature r)
    (cr_resolver_pubkey r) (cr_created_at r) (cr_deadline_at r) resolved_at (cr_metadata r).

(** [UPDATE checkpoints SET signature, resolver_pubkey]. *)
Definition set_attestation (sig pubkey : bytes) (r : checkpoint_row) : checkpoint_row :=
  mkCheckpointRow (cr_id r) (cr_namespace r) (cr_title r) (cr_condition_type r) (cr_condition r) (cr_state r)
    (cr_created_by r) (cr_resolved_by r) (cr_resolution r) (cr_resolution_note r) (Some sig) (Some pubkey)
    (cr_created_at r) (cr_deadline_at r) (cr_resolved_at r) (cr_metadata r).

(* ------------------------------------------------------------------ *)
(** * Operations: [checkpoints/mod.rs] *)

Inductive InboundResolutionOutcome : Type := InboundApplied | InboundNoop | InboundConflict.

(** Why a resolution fails after its first statement. *)
Inductive ResolveError : Type := ResolutionSignFailed (e : SignError).

Section with_libs.
Context {CC : CapCrypto} {JC : JsonCodec}.

Definition resolution_signable (c : Checkpoint) : SignableCheckpointResolution :=
  mkSignableResolution (cp_id c) (cp_namespace c) (CheckpointState_as_str (cp_state c))
    (default "" (cp_resolved_by c)) (cp_resolution c) (default 0%Z (cp_resolved_at c)).

#[global] Instance Checkpoint_attested : Attested Checkpoint := {
  att_payload c := canonical_cbor_checkpoint_resolution (resolution_signable c);
  att_signature := cp_signature;
  att_pubkey := cp_resolver_pubkey;
  att_put := with_attestation
}.

#[global] Instance Checkpoint_attested_laws : AttestedLaws Checkpoint.
Proof. by split. Qed.

Definition sign_resolution_into {KB : KeyBytes CC} (c : Checkpoint) (keypair : AgentKeypair) :
    result Checkpoint SignError := sign_row c keypair.
Definition verify {KB : KeyBytes CC} (c : Checkpoint) : bool := verify_row c.

Definition row_to_checkpoint (r : checkpoint_row) : Checkpoint :=
  mkCheckpoint (cr_id r) (cr_namespace r) (cr_title r)
    (default Approval (ConditionType_from_str (cr_condition_type r)))
    (default JNull (json_from_str (cr_condition r)))
    (default CpPending (CheckpointState_from_str (cr_state r)))
    (cr_created_by r) (cr_resolved_by r) (cr_resolution r) (cr_resolution_note r)
    (default [] (cr_signature r)) (default [] (cr_resolver_pubkey r))
    (cr_created_at r) (cr_deadline_at r) (cr_resolved_at r) (default JNull (json_from_str (cr_metadata r))).

(** The bound parameters of the [INSERT]: the attestation is never NULL. *)
Definition checkpoint_to_row (c : Checkpoint) : checkpoint_row :=
  mkCheckpointRow (cp_id c) (cp_namespace c) (cp_title c) (ConditionType_as_str (cp_condition_type c))
    (json_to_string (cp_condition c)) (CheckpointState_as_str (cp_state c)) (cp_created_by c) (cp_resolved_by c)
    (cp_resolution c) (cp_resolution_note c) (Some (cp_signature c)) (Some (cp_resolver_pubkey c))
    (cp_created_at c) (cp_deadline_at c) (cp_resolved_at c) (json_to_string (cp_metadata c)).

Definition insert (db : CheckpointDb) (c : Checkpoint) : result (CheckpointDb * string) sql_error :=
  match db !! cp_id c with
  | Some _ => Err ConstraintPrimaryKey
  | None => Ok (<[cp_id c := checkpoint_to_row c]> db, cp_id c)
  end.

Definition get (db : CheckpointDb) (id : string) : option Checkpoint := row_to_checkpoint <$> db !! id.

Definition query_where (namespace : string) (condition_type : option ConditionType)
    (state : option CheckpointState) (r : checkpoint_row) : bool :=
  bool_decide (cr_namespace r = namespace)
  && match condition_type with
     | Some t => bool_decide (cr_condition_type r = ConditionType_as_str t) | None => true end
  && match state with
     | Some st => bool_decide (cr_state r = CheckpointState_as_str st) | None => true end.

Definition query (db : CheckpointDb) (namespace : string) (condition_type : option ConditionType)
    (state : option CheckpointState) (limit : Z) : list Checkpoint :=
  row_to_checkpoint <$>
    select (map_to_list db).*2 (query_where namespace condition_type state) (desc cr_created_at) (limit_i64 limit).

Definition list_checkpoints (db : CheckpointDb) (namespace : string) (state : option CheckpointState) (limit : Z) :
    list Checkpoint :=
  row_to_checkpoint <$>
    select (map_to_list db).*2 (query_where namespace None state) (desc cr_created_at) (limit_i64 limit).

(** Two statements, each committed on its own; the row is not guarded by its
    state. *)
Definition resolve {KB : KeyBytes CC} (db : CheckpointDb) (id : string) (state : CheckpointState)
    (resolved_by : string) (resolution resolution_note : option string) (resolved_at : Z)
    (keypair : option AgentKeypair) : CheckpointDb * result (option Checkpoint) ResolveError :=
  match db !! id with
  | None => (db, Ok None)
  | Some r =>
      let r := set_resolution state (Some resolved_by) resolution resolution_note (Some resolved_at) r in
      let db := <[id := r]> db in
      let row := row_to_checkpoint r in
      match keypair with
      | Some kp =>
          if can_sign kp then
            match sign_resolution_into row kp with
            | Err e => (db, Err (ResolutionSignFailed e))
            | Ok row => (<[id := set_attestation (cp_signature row) (cp_resolver_pubkey row) r]> db, Ok (Some row))
            end
          else (db, Ok (Some row))
      | None => (db, Ok (Some row))
      end
  end.

Definition resolutions_match (a b : Checkpoint) : bool :=
  bool_decide (cp_state a = cp_state b) && bool_decide (cp_resolved_by a = cp_resolved_by b)
  && bool_decide (cp_resolution a = cp_resolution b).

Definition apply_inbound_resolution (db : CheckpointDb) (incoming : Checkpoint) :
    result (CheckpointDb * InboundResolutionOutcome) sql_error :=
  match db !! cp_id incoming with
  | None =>
      let? inserted := insert db incoming in
      Ok (fst inserted, InboundApplied)
  | Some r =>
      let local := row_to_checkpoint r in
      if decide (cp_state local = CpPending) then
        let r := set_resolution (cp_state incoming) (cp_resolved_by incoming) (cp_resolution incoming)
                   (cp_resolution_note incoming) (cp_resolved_at incoming) r in
        Ok (<[cp_id incoming := set_attestation (cp_signature incoming) (cp_resolver_pubkey incoming) r]> db,
            InboundApplied)
      else if resolutions_match local incoming then Ok (db, InboundNoop)
      else Ok (db, InboundConflict)
  end.
End with_libs.

(* ------------------------------------------------------------------ *)
(** * Lemmas *)

Section spec.
Context {CC : CapCrypto} {JC : JsonCodec} {KB : KeyBytes CC}.

(** The fields a resolution sets, and those it leaves. *)
Definition resolved_as (state : CheckpointState) (by_ resolution note : option string) (at_ : option Z)
    (c c' : Checkpoint) : Prop :=
  c' = mkCheckpoint (cp_id c) (cp_namespace c) (cp_title c) (cp_condition_type c) (cp_condition c) state
         (cp_created_by c) by_ resolution note (cp_signature c') (cp_resolver_pubkey c') (cp_created_at c)
         (cp_deadline_at c) at_ (cp_metadata c).

Lemma decode_set_resolution state by_ resolution note at_ r :
  resolved_as state by_ resolution note at_ (row_to_checkpoint r)
    (row_to_checkpoint (set_resolution state by_ resolution note at_ r)).
Proof. unfold resolved_as, row_to_checkpoint. simpl. by rewrite spelling_roundtrip. Qed.

Lemma decode_set_attestation sig pk r :
  row_to_checkpoint (set_attestation sig pk r) = with_attestation sig pk (row_to_checkpoint r).
Proof. done. Qed.

Lemma resolve_cases db id r state by_ resolution note at_ kp :
  db !! id = Some r →
  let r1 := set_resolution state (Some by_) resolution note (Some at_) r in
  (∃ k c, kp = Some k ∧ can_sign k = true ∧ sign_resolution_into (row_to_checkpoint r1) k = Ok c
     ∧ resolve db id state by_ resolution note at_ kp
       = (<[id := set_attestation (cp_signature c) (cp_resolver_pubkey c) r1]> db, Ok (Some c)))
  ∨ (∃ k e, kp = Some k ∧ can_sign k = true ∧ sign_resolution_into (row_to_checkpoint r1) k = Err e
     ∧ resolve db id state by_ resolution note at_ kp = (<[id := r1]> db, Err (ResolutionSignFailed e)))
  ∨ ((∀ k, kp = Some k → can_sign k = false)
     ∧ resolve db id state by_ resolution note at_ kp = (<[id := r1]> db, Ok (Some (row_to_checkpoint r1)))).
Proof.
  intros Hr r1. unfold resolve. rewrite Hr. fold r1.
  destruct kp as [k|]; [|right; right; split; [intros ? [=]|done]].
  destruct (can_sign k) eqn:Hk; [|right; right; split; [by intros ? [= <-]|done]].
  destruct (sign_resolution_into (row_to_checkpoint r1) k) as [c|e] eqn:E.
  - left. exists k, c. split_and!; try done. by rewrite insert_insert_eq.
  - right. left. exists k, e. done.
Qed.

(** Decoding what was inserted gives the checkpoint back, but for JSON texts
    that do not parse. *)
Lemma decode_inserted_state c : cp_state (row_to_checkpoint (checkpoint_to_row c)) = cp_state c.
Proof. simpl. by rewrite spelling_roundtrip. Qed.

(** The statements that bring resolutions from elsewhere, or new rows. *)
Inductive inbound_step (db : CheckpointDb) : CheckpointDb → Prop :=
| step_create c db' id : insert db c = Ok (db', id) → inbound_step db db'
| step_inbound c db' o : apply_inbound_resolution db c = Ok (db', o) → inbound_step db db'.

Definition is_resolved (r : checkpoint_row) : Prop := cp_state (row_to_checkpoint r) ≠ CpPending.

Lemma insert_new db c db' id :
  insert db c = Ok (db', id) → db !! cp_id c = None ∧ db' = <[cp_id c := checkpoint_to_row c]> db ∧ id = cp_id c.
Proof. unfold insert. destruct (db !! cp_id c); [done|]. by intros [= <- <-]. Qed.

(** What the receive side does, on each kind of local row. *)
Lemma apply_inbound_cases db c :
  match db !! cp_id c with
  | None => apply_inbound_resolution db c = Ok (<[cp_id c := checkpoint_to_row c]> db, InboundApplied)
  | Some r =>
      let local := row_to_checkpoint r in
      (cp_state local = CpPending ∧
       apply_inbound_resolution db c =
         Ok (<[cp_id c := set_attestation (cp_signature c) (cp_resolver_pubkey c)
                (set_resolution (cp_state c) (cp_resolved_by c) (cp_resolution c) (cp_resolution_note c)
                   (cp_resolved_at c) r)]> db, InboundApplied))
      ∨ (cp_state local ≠ CpPending ∧ resolutions_match local c = true
         ∧ apply_inbound_resolution db c = Ok (db, InboundNoop))
      ∨ (cp_state local ≠ CpPending ∧ resolutions_match local c = false
         ∧ apply_inbound_resolution db c = Ok (db, InboundConflict))
  end.
Proof.
  destruct (db !! cp_id c) as [r|] eqn:Hr; unfold apply_inbound_resolution; rewrite Hr.
  - destruct (decide (cp_state (row_to_checkpoint r) = CpPending)); [auto|right].
    destruct (resolutions_match _ _); auto.
  - unfold insert. by rewrite Hr.
Qed.

Lemma inbound_step_resolved db db' id r :
  inbound_step db db' → db !! id = Some r → is_resolved r → db' !! id = Some r.
Proof.
  intros [c ? i H|c ? o H] Hr Hres.
  - apply insert_new in H as (Hn & -> & _). by rewrite lookup_insert_ne by congruence.
  - pose proof (apply_inbound_cases db c) as Hc.
    destruct (decide (cp_id c = id)) as [E|Hne].
    + rewrite E, Hr in Hc. destruct Hc as [[Hp _]|[(_ & _ & Hc)|(_ & _ & Hc)]]; [done|congruence..].
    + destruct (db !! cp_id c) as [r'|].
      * destruct Hc as [[_ Hc]|[(_ & _ & Hc)|(_ & _ & Hc)]]; rewrite Hc in H; injection H as <- <-; try done.
        by rewrite lookup_insert_ne.
      * rewrite Hc in H. injection H as <- <-. by rewrite lookup_insert_ne.
Qed.

Lemma inbound_steps_resolved db db' id r :
  rtc inbound_step db db' → db !! id = Some r → is_resolved r → db' !! id = Some r.
Proof. induction 1; [done|]. intros Hr Hres. apply IHrtc; [|done]. by eapply inbound_step_resolved. Qed.

(** An application that goes through leaves a row resolved as the incoming
    one says. *)
Lemma applied_row db c db' :
  apply_inbound_resolution db c = Ok (db', InboundApplied) →
  ∃ r, db' !! cp_id c = Some r ∧ cp_state (row_to_checkpoint r) = cp_state c
    ∧ resolutions_match (row_to_checkpoint r) c = true
    ∧ cp_signature (row_to_checkpoint r) = cp_signature c
    ∧ cp_resolver_pubkey (row_to_checkpoint r) = cp_resolver_pubkey c
    ∧ cp_resolved_at (row_to_checkpoint r) = cp_resolved_at c
    ∧ cp_namespace (row_to_checkpoint r) =
        match db !! cp_id c with Some l => cr_namespace l | None => cp_namespace c end
    ∧ cp_id (row_to_checkpoint r) = match db !! cp_id c with Some l => cr_id l | None => cp_id c end.
Proof.
  intros H. pose proof (apply_inbound_cases db c) as Hc. destruct (db !! cp_id c) as [l|] eqn:Hl.
  - destruct Hc as [[_ Hc]|[(_ & _ & Hc)|(_ & _ & Hc)]]; rewrite Hc in H; [|congruence..].
    injection H as <-. rewrite lookup_insert_eq. eexists. split; [done|]. unfold resolutions_match. simpl.
    by rewrite spelling_roundtrip, !bool_decide_true.
  - rewrite Hc in H. injection H as <-. rewrite lookup_insert_eq. eexists. split; [done|].
    unfold resolutions_match. simpl. by rewrite spelling_roundtrip, !bool_decide_true.
Qed.

Lemma resolution_bytes_inj `{!CapCryptoLaws CC} x y p :
  canonical_cbor_checkpoint_resolution x = Some p → canonical_cbor_checkpoint_resolution y = Some p → x = y.
Proof.
  intros Hx Hy. assert (OfResolution x = OfResolution y) as [= ->] by (by eapply encoded_fields). done.
Qed.

Lemma resolutions_match_spec a b :
  resolutions_match a b = true ↔
  cp_state a = cp_state b ∧ cp_resolved_by a = cp_resolved_by b ∧ cp_resolution a = cp_resolution b.
Proof. unfold resolutions_match. rewrite !andb_true_iff, !bool_decide_eq_true. tauto. Qed.
End spec.

(* ------------------------------------------------------------------ *)
(** * Properties *)

Section properties.
Context {CC : CapCrypto} {JC : JsonCodec} {KB : KeyBytes CC}.

(** A resolution by a keyholder is recorded and attested: the row now
    carries the state, the resolver, the verdict, the note and the time, keeps
    everything else, the answer is that row, its attestation verifies, and no
    other checkpoint is touched. *)
Lemma attested_resolution `{!CapCryptoLaws CC} {KL : KeyBytesLaws KB}
    db id r state by_ resolution note at_ kp k b :
  db !! id = Some r → keypair_wf kp → kp_private kp = Some k →
  att_payload (row_to_checkpoint (set_resolution state (Some by_) resolution note (Some at_) r)) = Some b →
  ∃ db' c, resolve db id state by_ resolution note at_ (Some kp) = (db', Ok (Some c))
    ∧ get db' id = Some c ∧ verify c = true ∧ cp_resolver_pubkey c = key_to_bytes (kp_public kp)
    ∧ resolved_as state (Some by_) resolution note (Some at_) (row_to_checkpoint r) c
    ∧ ∀ j, j ≠ id → db' !! j = db !! j.
Proof.
  intros Hr Hwf Hk Hb. set (r1 := set_resolution _ _ _ _ _ r) in Hb.
  destruct (resolve_cases db id r state by_ resolution note at_ (Some kp) Hr)
    as [(k' & c & [= <-] & _ & Hs & E)|[(k' & e & [= <-] & _ & Hs & _)|[Hno _]]].
  - exists (<[id := set_attestation (cp_signature c) (cp_resolver_pubkey c) r1]> db), c.
    split; [exact E|]. fold r1 in Hs. unfold get. rewrite lookup_insert_eq. simpl fmap.
    rewrite decode_set_attestation. pose proof (sign_row_verifies _ _ _ Hwf Hs) as Hv.
    apply sign_row_Ok in Hs as (k' & p & _ & _ & ->). split_and!; try done.
    + unfold resolved_as, r1. simpl. unfold with_attestation, row_to_checkpoint. simpl. by rewrite spelling_roundtrip.
    + intros j Hj. by rewrite lookup_insert_ne.
  - fold r1 in Hs. unfold sign_resolution_into, sign_row, sign_payload in Hs. by rewrite Hk, Hb in Hs.
  - specialize (Hno kp eq_refl). unfold can_sign in Hno. by rewrite Hk in Hno.
Qed.

(** C22: on the receive side the first resolution wins. Whatever checkpoints
    are created and whatever resolutions arrive, a resolved checkpoint never
    changes again; once one resolution was applied, its redelivery is a no-op
    and every different one for that checkpoint is refused, without a write. *)
Theorem first_resolution_wins db c db1 db2 :
  cp_state c ≠ CpPending → apply_inbound_resolution db c = Ok (db1, InboundApplied) → rtc inbound_step db1 db2 →
  db2 !! cp_id c = db1 !! cp_id c
  ∧ ∀ c', cp_id c' = cp_id c →
      apply_inbound_resolution db2 c' = Ok (db2, if resolutions_match c c' then InboundNoop else InboundConflict).
Proof.
  intros Hst Ha Hs. destruct (applied_row _ _ _ Ha) as (r & Hr & Hstate & Hm & _).
  assert (is_resolved r) as Hres by (unfold is_resolved; congruence).
  assert (db2 !! cp_id c = Some r) as Hr2 by (by eapply inbound_steps_resolved).
  split; [congruence|]. intros c' Hid. pose proof (apply_inbound_cases db2 c') as Hc.
  rewrite Hid, Hr2 in Hc. apply resolutions_match_spec in Hm as (Hm1 & Hm2 & Hm3).
  assert (resolutions_match (row_to_checkpoint r) c' = resolutions_match c c') as Em
    by (unfold resolutions_match; by rewrite Hm1, Hm2, Hm3).
  cbv zeta in Hc. rewrite Em in Hc. destruct Hc as [[Hp _]|[(_ & -> & ->)|(_ & -> & ->)]]; done.
Qed.

(** So replicas do not converge. Two that hold the same pending
    checkpoint and receive the same two different resolutions in opposite
    orders keep opposite ones, whatever either receives afterwards. *)
Lemma inbound_order_diverges db a b r :
  cp_id a = cp_id b → cp_state a ≠ CpPending → cp_state b ≠ CpPending → resolutions_match a b = false →
  db !! cp_id a = Some r → cp_state (row_to_checkpoint r) = CpPending →
  ∃ da db_, apply_inbound_resolution db a = Ok (da, InboundApplied)
    ∧ apply_inbound_resolution db b = Ok (db_, InboundApplied)
    ∧ ∀ da' db_', rtc inbound_step da da' → rtc inbound_step db_ db_' →
        da' !! cp_id a ≠ db_' !! cp_id a
        ∧ apply_inbound_resolution da' b = Ok (da', InboundConflict)
        ∧ apply_inbound_resolution db_' a = Ok (db_', InboundConflict).
Proof.
  intros Hid Ha Hb Hm Hr Hp.
  pose proof (apply_inbound_cases db a) as Hca. rewrite Hr in Hca.
  destruct Hca as [[_ Hca]|[[? _]|[? _]]]; [|done..].
  pose proof (apply_inbound_cases db b) as Hcb. rewrite <-Hid, Hr in Hcb.
  destruct Hcb as [[_ Hcb]|[[? _]|[? _]]]; [|done..].
  do 2 eexists. split; [exact Hca|]. split; [exact Hcb|]. intros da' db' Hsa Hsb.
  destruct (applied_row _ _ _ Hca) as (ra & Hra & Sa & Ma & _).
  destruct (applied_row _ _ _ Hcb) as (rb & Hrb & Sb & Mb & _).
  apply resolutions_match_spec in Ma as (A1 & A2 & A3), Mb as (B1 & B2 & B3).
  assert (resolutions_match b a = false) as Hm'.
  { apply not_true_iff_false. rewrite resolutions_match_spec. intros (?&?&?).
    apply not_true_iff_false in Hm. apply Hm, resolutions_match_spec. done. }
  assert (da' !! cp_id a = Some ra) as Ha' by (eapply inbound_steps_resolved; [done..|unfold is_resolved; congruence]).
  rewrite <-Hid in Hrb.
  assert (db' !! cp_id a = Some rb) as Hb' by (eapply inbound_steps_resolved; [done..|unfold is_resolved; congruence]).
  split_and!.
  - rewrite Ha', Hb'. intros [= ->]. apply not_true_iff_false in Hm. apply Hm, resolutions_match_spec.
    split_and!; congruence.
  - pose proof (apply_inbound_cases da' b) as H. rewrite <-Hid, Ha' in H.
    unfold resolutions_match in *. rewrite A1, A2, A3, Hm in H.
    by destruct H as [[? _]|[(_ & ? & _)|(_ & _ & ?)]].
  - pose proof (apply_inbound_cases db' a) as H. rewrite Hb' in H.
    unfold resolutions_match in *. rewrite B1, B2, B3, Hm' in H.
    by destruct H as [[? _]|[(_ & ? & _)|(_ & _ & ?)]].
Qed.

(** The local resolution has no such guard. Resolving a resolved, attested
    checkpoint again without a signing key overwrites its verdict and keeps
    the old signature, made for other bytes: the answer still carries an
    attestation, of something else. *)
Lemma reresolve_keeps_stale_attestation `{!CapCryptoLaws CC} db id r state by_ resolution note at_ kp p :
  db !! id = Some r → att_payload (row_to_checkpoint r) = Some p →
  (∀ k, kp = Some k → can_sign k = false) →
  (CheckpointState_as_str state, by_, resolution, at_)
    ≠ (CheckpointState_as_str (cp_state (row_to_checkpoint r)), default "" (cr_resolved_by r), cr_resolution r,
       default 0%Z (cr_resolved_at r)) →
  ∃ db' c, resolve db id state by_ resolution note at_ kp = (db', Ok (Some c))
    ∧ get db' id = Some c ∧ resolved_as state (Some by_) resolution note (Some at_) (row_to_checkpoint r) c
    ∧ cp_signature c = default [] (cr_signature r) ∧ att_payload c ≠ Some p.
Proof.
  intros Hr Hp Hkp Hne.
  destruct (resolve_cases db id r state by_ resolution note at_ kp Hr)
    as [(k & c & -> & Hk & _)|[(k & e & -> & Hk & _)|[_ E]]]; [by rewrite (Hkp k eq_refl) in Hk..|].
  do 2 eexists. split; [exact E|]. unfold get. rewrite lookup_insert_eq. split; [done|].
  split; [apply decode_set_resolution|]. split; [done|]. intros Hp'.
  pose proof (resolution_bytes_inj _ _ _ Hp Hp') as Hinj.
  apply Hne. unfold resolution_signable in Hinj. simpl in Hinj.
  injection Hinj as E1 E2 E3 E4. rewrite spelling_roundtrip in E1. simpl in E1. simpl. congruence.
Qed.

(** An inbound attestation fits the row it lands on when the row is new or
    is of the same namespace; a pending checkpoint of another namespace takes
    the resolution and an attestation that its own bytes do not match. *)
Lemma inbound_attestation `{!CapCryptoLaws CC} db c db' p :
  apply_inbound_resolution db c = Ok (db', InboundApplied) → att_payload c = Some p →
  (∀ l, db !! cp_id c = Some l → cr_id l = cp_id c) →
  ∃ c', get db' (cp_id c) = Some c'
    ∧ (att_payload c' = Some p ↔ ∀ l, db !! cp_id c = Some l → cr_namespace l = cp_namespace c)
    ∧ ((∀ l, db !! cp_id c = Some l → cr_namespace l = cp_namespace c) → verify c' = verify c).
Proof.
  intros Ha Hp Hids. destruct (applied_row _ _ _ Ha) as (r & Hr & Hst & Hm & Hsig & Hpk & Hat & Hns & Hid).
  exists (row_to_checkpoint r). unfold get. rewrite Hr. split; [done|].
  apply resolutions_match_spec in Hm as (_ & Hby & Hres).
  set (ns := match db !! cp_id c with Some l => cr_namespace l | None => cp_namespace c end) in *.
  assert ((∀ l, db !! cp_id c = Some l → cr_namespace l = cp_namespace c) ↔ ns = cp_namespace c) as Hiff.
  { unfold ns. destruct (db !! cp_id c) as [l|]; [|naive_solver]. split; [intros H; by apply H|by intros ? ? [= <-]]. }
  assert (cp_id (row_to_checkpoint r) = cp_id c) as Hid'.
  { rewrite Hid. destruct (db !! cp_id c) as [l|]; [by apply Hids|done]. }
  assert (resolution_signable (row_to_checkpoint r)
    = mkSignableResolution (cp_id c) ns (CheckpointState_as_str (cp_state c)) (default "" (cp_resolved_by c))
        (cp_resolution c) (default 0%Z (cp_resolved_at c))) as Es
    by (unfold resolution_signable; by rewrite Hid', Hns, Hst, Hby, Hres, Hat).
  setoid_rewrite Hiff. split.
  - split.
    + intros H. pose proof (resolution_bytes_inj _ _ _ H Hp) as E. rewrite Es in E. by injection E.
    + intros E. rewrite E in Es. change (canonical_cbor_checkpoint_resolution (resolution_signable (row_to_checkpoint r)) = Some p).
      rewrite Es. exact Hp.
  - intros E. rewrite E in Es. unfold verify, verify_row.
    cbn [att_signature att_pubkey att_payload Checkpoint_attested]. by rewrite Hsig, Hpk, Es.
Qed.

(** [query] pages through a namespace, newest first. *)
Lemma query_page db namespace ct state limit :
  ∃ rows, query db namespace ct state limit = row_to_checkpoint <$> rows
    ∧ page db (query_where namespace ct state) (desc cr_created_at) limit rows.
Proof. eexists. split; [done|]. apply select_page; apply _. Qed.
End properties.

(* ------------------------------------------------------------------ *)
(** * Witnesses *)

#[local] Existing Instance demo_attest_crypto.
#[local] Existing Instance demo_key_codec.
#[local] Instance demo_gate_json : JsonCodec := {| json_to_string _ := "null"; json_from_str _ := Some JNull |}.

Definition demo_carol : AgentKeypair := mkKeypair "ai:carol" true (Some true).
Definition demo_gate_row : checkpoint_row :=
  mkCheckpointRow "c1" "team" "ship?" "approval" "null" "pending" "ai:bob" None None None (Some []) (Some []) 5
    None None "null".
Definition demo_gates : CheckpointDb := {[ "c1" := demo_gate_row ]}.
Definition demo_verdict (state : CheckpointState) (by_ ns : string) : Checkpoint :=
  mkCheckpoint "c1" ns "ship?" Approval JNull state "ai:bob" (Some by_) None None [] [] 5 None (Some 9%Z) JNull.

Definition demo_resolved : CheckpointDb :=
  (resolve demo_gates "c1" CpResolved "ai:carol" (Some "yes") None 9 (Some demo_carol)).1.

Lemma attested_resolution_witness :
  ∃ c, get demo_resolved "c1" = Some c ∧ verify c = true ∧ cp_state c = CpResolved ∧ cp_resolution c = Some "yes".
Proof.
  destruct (@attested_resolution _ _ _ demo_attest_laws demo_key_laws demo_gates "c1" demo_gate_row CpResolved
    "ai:carol" (Some "yes") None 9 demo_carol true
    (default [] (canonical_cbor_checkpoint_resolution
       (mkSignableResolution "c1" "team" "resolved" "ai:carol" (Some "yes") 9))))
    as (db' & c & E & Hg & Hv & _ & Hr & _).
  - reflexivity.
  - by intros k [= <-].
  - reflexivity.
  - vm_compute. reflexivity.
  - exists c. unfold demo_resolved. rewrite E. split_and!; [exact Hg|exact Hv|by rewrite Hr..].
Defined.

Lemma first_resolution_wins_witness :
  ∃ db1, apply_inbound_resolution demo_gates (demo_verdict CpResolved "ai:carol" "team") = Ok (db1, InboundApplied)
    ∧ apply_inbound_resolution db1 (demo_verdict CpRejected "ai:eve" "team") = Ok (db1, InboundConflict).
Proof.
  eexists. split; [vm_compute; reflexivity|].
  edestruct (first_resolution_wins demo_gates (demo_verdict CpResolved "ai:carol" "team")) as [_ H];
    [discriminate|vm_compute; reflexivity|apply rtc_refl|].
  apply (H (demo_verdict CpRejected "ai:eve" "team")). reflexivity.
Defined.

Lemma inbound_order_diverges_witness :
  ∃ da db, apply_inbound_resolution demo_gates (demo_verdict CpResolved "ai:carol" "team") = Ok (da, InboundApplied)
    ∧ apply_inbound_resolution demo_gates (demo_verdict CpRejected "ai:eve" "team") = Ok (db, InboundApplied)
    ∧ da !! "c1" ≠ db !! "c1".
Proof.
  destruct (inbound_order_diverges demo_gates (demo_verdict CpResolved "ai:carol" "team")
    (demo_verdict CpRejected "ai:eve" "team") demo_gate_row) as (da & db & Ha & Hb & H);
    try discriminate; try reflexivity.
  exists da, db. split_and!; [exact Ha|exact Hb|]. apply (H da db (rtc_refl _ _) (rtc_refl _ _)).
Defined.

(** The overwritten verdict no longer verifies. *)
Lemma reresolve_keeps_stale_attestation_witness :
  (verify <$> get demo_resolved "c1") = Some true
  ∧ ∃ db' c, resolve demo_resolved "c1" CpRejected "ai:eve" None None 12 None = (db', Ok (Some c))
    ∧ cp_state c = CpRejected ∧ verify c = false ∧ cp_signature c ≠ [].
Proof.
  split; [vm_compute; reflexivity|].
  destruct (demo_resolved !! "c1") as [r|] eqn:Hr; [|vm_compute in Hr; discriminate Hr].
  destruct (@reresolve_keeps_stale_attestation _ _ _ demo_attest_laws demo_resolved "c1" r CpRejected "ai:eve" None
    None 12 None (default [] (canonical_cbor_checkpoint_resolution
       (mkSignableResolution "c1" "team" "resolved" "ai:carol" (Some "yes") 9)))) as (db' & c & E & _ & Hc & _).
  - exact Hr.
  - vm_compute in Hr. injection Hr as <-. vm_compute. reflexivity.
  - done.
  - vm_compute in Hr. injection Hr as <-. discriminate.
  - exists db', c. split; [exact E|]. split; [by rewrite Hc|]. vm_compute in E. injection E as _ <-.
    split; [vm_compute; reflexivity|vm_compute; discriminate].
Defined.

Lemma inbound_attestation_witness :
  ∃ db' c', apply_inbound_resolution demo_gates (demo_verdict CpResolved "ai:carol" "other") = Ok (db', InboundApplied)
    ∧ get db' "c1" = Some c'
    ∧ att_payload c' ≠ att_payload (demo_verdict CpResolved "ai:carol" "other").
Proof.
  eexists. destruct (att_payload (demo_verdict CpResolved "ai:carol" "other")) as [p|] eqn:Hp;
    [|vm_compute in Hp; discriminate Hp].
  destruct (@inbound_attestation _ _ _ demo_attest_laws demo_gates (demo_verdict CpResolved "ai:carol" "other") _ p
    ltac:(vm_compute; reflexivity) Hp) as (c' & Hg & Hiff & _).
  - by intros l [= <-].
  - exists c'. split; [vm_compute; reflexivity|]. split; [exact Hg|]. intros E. apply Hiff with (l := demo_gate_row) in E; done.
Defined.
