(* ===== verification/Receive.v ===== *)
(** The receiver's side of a federation push ([src/src/federation/peer_attestation.rs],
    [src/src/federation/receive_auth.rs] and the signal, transition and checkpoint
    lanes of [src/src/handlers/federation_receive.rs]): who a peer may speak for,
    which authority-granting writes are believed, and what they change. *)
From S2P Require Import Prelude.
From S2P Require Import Bytes.
From S2P Require Import Json.
From S2P Require Import Text.
From S2P Require Import BTree.
From S2P Require Import Memory.
From S2P Require Import Clock.
From S2P Require Import Crdt.
From S2P Require Import Sql.
From S2P Require Import Quotas.
From S2P Require Import Actions.
From S2P Require Import Capability.
From S2P Require Import Attestation.
From S2P Require Import Validate.
From S2P Require Import Ledger.
From S2P Require Import Replay.
From S2P Require Import Signals.
From S2P Require Import Checkpoints.

(* ------------------------------------------------------------------ *)
(** * Peers and what they may claim *)

Record PeerScope : Type := mkScope {
  allowed_sender_agent_ids : list string;
  allowed_namespaces : list string
}.

Definition PeerAttestationConfig : Type := gmap string PeerScope.

Definition scope_for (config : PeerAttestationConfig) (peer_id : string) : option PeerScope := config !! peer_id.
Definition has_allowlist (config : PeerAttestationConfig) : bool := negb (bool_decide (config = ∅)).

Inductive SenderError : Type := HeaderMissing | Mismatch (claimed peer_header : string).

Definition SenderError_tag (e : SenderError) : string :=
  match e with HeaderMissing => "peer_id_header_missing" | Mismatch _ _ => "sender_agent_id_mismatch" end.

(** Trimmed, and absent when nothing is left. *)
Definition nonblank (s : option string) : option string :=
  t ← str_trim <$> s; if str_is_empty t then None else Some t.

Definition may_author (scope : option PeerScope) (claimed : string) : bool :=
  match scope with Some scope => bool_decide (claimed ∈ allowed_sender_agent_ids scope) | None => false end.

Definition attest_sender (peer_header body_sender : option string) (config : PeerAttestationConfig) : result unit SenderError :=
  match nonblank peer_header with
  | None => Err HeaderMissing
  | Some peer =>
      match nonblank body_sender with
      | None => Ok tt
      | Some claimed =>
          if bool_decide (claimed = peer) then Ok tt
          else if may_author (scope_for config peer) claimed then Ok tt
          else Err (Mismatch claimed peer)
      end
  end.

Definition strip_suffix (suffix s : string) : option string :=
  String.rev <$> strip_prefix (String.rev suffix) (String.rev s).

(** [*] is one segment, [**] any. *)
Definition glob_match (pattern target : string) : bool :=
  if bool_decide (pattern = "**") then true
  else if bool_decide (pattern = "*") then negb (str_contains_char slash target)
  else match strip_suffix "/**" pattern with
       | Some prefix => bool_decide (target = prefix) || starts_with (prefix +:+ "/") target
       | None =>
           match strip_suffix "/*" pattern with
           | Some prefix =>
               match strip_prefix (prefix +:+ "/") target with
               | Some rest => negb (str_contains_char slash rest)
               | None => false
               end
           | None =>
               match strip_prefix "*/" pattern with
               | Some suffix =>
                   match strip_suffix ("/" +:+ suffix) target with
                   | Some rest => negb (str_contains_char slash rest)
                   | None => false
                   end
               | None => bool_decide (pattern = target)
               end
           end
       end.

(** [bypass] is the operator's opt-out; a configured peer is held to its list. *)
Definition namespace_allowed (bypass : bool) (peer_header : option string) (namespace : string)
    (config : PeerAttestationConfig) : bool :=
  match nonblank peer_header with
  | None => bypass
  | Some peer =>
      match scope_for config peer with
      | Some scope => existsb (λ p, glob_match p namespace) (allowed_namespaces scope)
      | None => bypass
      end
  end.

(* ------------------------------------------------------------------ *)
(** * Knobs *)

(** The value of an environment variable, absent when it is unset. *)
Definition env_flag_default_on (v : option string) : bool :=
  match v with Some v => negb (bool_decide (str_trim v ∈ ["0"; "false"; "no"; "off"])) | None => true end.

Definition resolve_fed_sig_flag (v : option string) (default_on : bool) : bool :=
  match v with
  | Some v =>
      if bool_decide (str_trim v ∈ ["0"; "false"; "no"; "off"]) then false
      else if bool_decide (str_trim v ∈ ["1"; "true"; "yes"; "on"]) then true
      else default_on
  | None => default_on
  end.

Definition FED_REQUIRE_WRITE_SIG_DEFAULT : bool := true.
Definition FED_REQUIRE_SIGNAL_SIG_DEFAULT : bool := true.
Definition require_write_sig_enabled (v : option string) : bool := resolve_fed_sig_flag v FED_REQUIRE_WRITE_SIG_DEFAULT.
Definition require_signal_sig_enabled (v : option string) : bool := resolve_fed_sig_flag v FED_REQUIRE_SIGNAL_SIG_DEFAULT.
Definition require_transition_sig_enabled : option string → bool := env_flag_default_on.
Definition require_checkpoint_sig_enabled : option string → bool := env_flag_default_on.
Definition require_policy_current_enabled : option string → bool := env_flag_default_on.

Definition quarantine_unattributed_enabled (v : option string) : bool :=
  match v with Some v => bool_decide (str_trim v ∈ ["1"; "true"; "yes"; "on"]) | None => false end.

Inductive PolicyFreshnessVerdict : Type := PolicyAccept | RefuseStale (sender_seq local_seq : Z).

Definition evaluate_inbound_policy_freshness (sender_policy_seq : option Z) (local_seq : Z)
    (require_policy_current : bool) : PolicyFreshnessVerdict :=
  match sender_policy_seq with
  | None => PolicyAccept
  | Some sender_seq =>
      if negb require_policy_current then PolicyAccept
      else if (sender_seq <? local_seq)%Z then RefuseStale sender_seq local_seq
      else PolicyAccept
  end.

(* ------------------------------------------------------------------ *)
(** * Authorization *)

Inductive TransitionAuthz : Type := TxAccept | TxRejectUnsigned | TxRejectNotEnrolled | TxRejectForged | TxRejectLeaseConflict.
Inductive CheckpointResolutionAuthz : Type := CpAccept | CpRejectUnsigned | CpRejectNotEnrolled | CpRejectForged.

Record ActionTransitionOp : Type := mkTransitionOp {
  op_action_id : string;
  op_from_state : ActionState;
  op_to_state : ActionState;
  op_claimed_by : option string;
  op_vector_clock : value;
  op_updated_at : Z;
  op_signature : bytes;
  op_signer_pubkey : bytes;
  op_nonce : bytes
}.

(** The key directory: the public halves by agent, for the agents whose files load. *)
Abbreviation KeyDir := (gmap string bytes).

Section with_libs.
Context {CC : CapCrypto} {KB : KeyBytes CC} {LC : LedgerCrypto} {JC : JsonCodec}.
Context (b64_standard_encode : bytes → string).

Definition keypair_load (dir : KeyDir) (agent_id : string) : option Capability.VerifyingKey :=
  if negb (is_ok (validate_agent_id_shape agent_id)) then None
  else
    pub_bytes ← dir !! agent_id;
    if negb (length pub_bytes =? PUBLIC_KEY_LEN) then None else key_from_bytes pub_bytes.

Definition lookup_peer_public_key (dir : KeyDir) (observed_by : string) : option Capability.VerifyingKey :=
  if str_is_empty observed_by then None else keypair_load dir observed_by.

Definition authorize_remote_transition (signable : SignableTransition) (signature : bytes)
    (enrolled_key : option Capability.VerifyingKey) (local_lease_holder : option string) (require_sig : bool) : TransitionAuthz :=
  let conflict := match local_lease_holder, st_claimed_by signable with
                  | Some holder, Some actor => negb (bool_decide (holder = actor))
                  | _, _ => false
                  end in
  if conflict then TxRejectLeaseConflict
  else if is_nil signature then (if require_sig then TxRejectUnsigned else TxAccept)
  else match enrolled_key with
       | None => if require_sig then TxRejectNotEnrolled else TxAccept
       | Some key => if verify_transition signable signature (key_to_bytes key) then TxAccept else TxRejectForged
       end.

Definition authorize_remote_checkpoint_resolution (signable : SignableCheckpointResolution) (signature : bytes)
    (enrolled_key : option Capability.VerifyingKey) (require_sig : bool) : CheckpointResolutionAuthz :=
  if is_nil signature then (if require_sig then CpRejectUnsigned else CpAccept)
  else match enrolled_key with
       | None => if require_sig then CpRejectNotEnrolled else CpAccept
       | Some key => if verify_checkpoint_resolution signable signature (key_to_bytes key) then CpAccept else CpRejectForged
       end.

(* ------------------------------------------------------------------ *)
(** * The lanes of a push *)

(** What one push runs under. *)
Record FedEnv : Type := mkFedEnv {
  fe_sender : string;
  fe_peer : option string;
  fe_config : PeerAttestationConfig;
  fe_keys : KeyDir;
  fe_dry_run : bool;
  fe_require_signal_sig : bool;
  fe_require_tx_sig : bool;
  fe_require_cp_sig : bool;
  fe_quota_defaults : QuotaDefaults;
  fe_quota_ensured_at : string;
  fe_quota_now : string;
  fe_disk : DiskIo
}.

(** The tables the lanes work on. *)
Record Node : Type := mkNode {
  nd_actions : coord_db;
  nd_signals : SignalDb;
  nd_checkpoints : CheckpointDb;
  nd_quotas : QuotaDb;
  nd_nonces : FederationNonceCache
}.

Definition with_actions_of (s : Node) (db : coord_db) : Node :=
  mkNode db (nd_signals s) (nd_checkpoints s) (nd_quotas s) (nd_nonces s).
Definition with_signals_of (s : Node) (db : SignalDb) : Node :=
  mkNode (nd_actions s) db (nd_checkpoints s) (nd_quotas s) (nd_nonces s).
Definition with_checkpoints_of (s : Node) (db : CheckpointDb) : Node :=
  mkNode (nd_actions s) (nd_signals s) db (nd_quotas s) (nd_nonces s).
Definition with_quotas_of (s : Node) (q : QuotaDb) : Node :=
  mkNode (nd_actions s) (nd_signals s) (nd_checkpoints s) q (nd_nonces s).
Definition with_nonces_of (s : Node) (c : FederationNonceCache) : Node :=
  mkNode (nd_actions s) (nd_signals s) (nd_checkpoints s) (nd_quotas s) c.

(** The counter an item adds one to. *)
Inductive Outcome : Type := OutApplied | OutNoop | OutSkipped | OutConflicted.

#[global] Instance Outcome_eq_dec : EqDecision Outcome.
Proof. solve_decision. Defined.

Definition signal_author_authorized (sig : Signal) (sender_agent_id : string) (attest_cfg : PeerAttestationConfig)
    (peer_id : option string) (keys : KeyDir) (require_signal_sig : bool) : bool :=
  let layer1 :=
    if has_allowlist attest_cfg && negb (bool_decide (sig_from_agent sig = sender_agent_id))
    then may_author (peer_id ≫= scope_for attest_cfg) (sig_from_agent sig) else true in
  if negb layer1 then false
  else if require_signal_sig then
    match lookup_peer_public_key keys (sig_from_agent sig) with
    | Some key => verify_with_key sig (key_to_bytes key)
    | None => false
    end
  else true.

Definition signal_body_bytes (sig : Signal) : Z :=
  let n := Z.of_nat (String.length (json_to_string (sig_body sig))) in if (n <=? i64_max)%Z then n else i64_max.

Definition receive_signal (env : FedEnv) (s : Node) (sig : Signal) : Node * Outcome :=
  if negb (is_ok (validate_id (sig_id sig))) then (s, OutSkipped)
  else if negb (is_nil (sig_signature sig)) && negb (Signals.verify sig) then (s, OutSkipped)
  else if negb (signal_author_authorized sig (fe_sender env) (fe_config env) (fe_peer env) (fe_keys env)
                  (fe_require_signal_sig env)) then (s, OutSkipped)
  else if is_some (Signals.get (nd_signals s) (sig_id sig)) then (s, OutNoop)
  else if fe_dry_run env then (s, OutNoop)
  else
    let '(q, charged) := check_and_record_storage_only (fe_quota_defaults env) (fe_quota_ensured_at env) (fe_quota_now env)
                           (nd_quotas s) (sig_from_agent sig) (sig_namespace sig) (signal_body_bytes sig) in
    let s := with_quotas_of s q in
    match charged with
    | Err _ => (s, OutSkipped)
    | Ok _ =>
        match Signals.insert (nd_signals s) sig with
        | Ok (db, _) => (with_signals_of s db, OutApplied)
        | Err _ => (s, OutSkipped)
        end
    end.

(** What the actor signed, with the namespace this node has for the action. *)
Definition transition_signable (local : Action) (op : ActionTransitionOp) : SignableTransition :=
  mkSignableTransition (op_action_id op) (act_namespace local) (ActionState.as_str (op_from_state op))
    (ActionState.as_str (op_to_state op)) (op_claimed_by op) (op_nonce op) (op_updated_at op).

Definition receive_transition (env : FedEnv) (s : Node) (op : ActionTransitionOp) : Node * Outcome :=
  if negb (is_ok (validate_id (op_action_id op))) then (s, OutSkipped)
  else match Actions.get (nd_actions s) (op_action_id op) with
  | None => (s, OutNoop)
  | Some local =>
      if fe_dry_run env then (s, OutNoop)
      else
        let enrolled := op_claimed_by op ≫= lookup_peer_public_key (fe_keys env) in
        let holder := lease_holder <$> lease_get (nd_actions s) (op_action_id op) in
        match authorize_remote_transition (transition_signable local op) (op_signature op) enrolled holder
                (fe_require_tx_sig env) with
        | TxAccept =>
            let '(nonces, decision) :=
              if is_nil (op_nonce op) then (nd_nonces s, Fresh)
              else record_nonce (fe_disk env) (nd_nonces s) (default "" (fe_peer env)) (b64_standard_encode (op_nonce op)) in
            let s := with_nonces_of s nonces in
            match decision with
            | Replay => (s, OutSkipped)
            | Fresh =>
                match transition_cas (nd_actions s) (op_action_id op) (op_from_state op) (op_to_state op)
                        (op_claimed_by op) (op_updated_at op) with
                | Ok (db, CasApplied _) => (with_actions_of s db, OutApplied)
                | Ok (db, _) => (with_actions_of s db, OutNoop)
                | Err _ => (s, OutSkipped)
                end
            end
        | _ => (s, OutSkipped)
        end
  end.

Definition receive_checkpoint (env : FedEnv) (s : Node) (cp : Checkpoint) : Node * Outcome :=
  if negb (is_ok (validate_id (cp_id cp))) || negb (is_ok (validate_namespace (cp_namespace cp))) then (s, OutSkipped)
  else if bool_decide (cp_state cp = CpPending) then (s, OutSkipped)
  else
    let enrolled := cp_resolved_by cp ≫= lookup_peer_public_key (fe_keys env) in
    match authorize_remote_checkpoint_resolution (resolution_signable cp) (cp_signature cp) enrolled
            (fe_require_cp_sig env) with
    | CpAccept =>
        if fe_dry_run env then (s, OutNoop)
        else match apply_inbound_resolution (nd_checkpoints s) cp with
             | Ok (db, InboundApplied) => (with_checkpoints_of s db, OutApplied)
             | Ok (db, InboundNoop) => (with_checkpoints_of s db, OutNoop)
             | Ok (db, InboundConflict) => (with_checkpoints_of s db, OutConflicted)
             | Err _ => (s, OutSkipped)
             end
    | _ => (s, OutSkipped)
    end.

(* ------------------------------------------------------------------ *)
(** * The row a peer sends *)

Definition WRITE_SIGNATURE : string := "write_signature".

Definition metadata_str (m : Memory) (key : string) : option string := json_get (mem_metadata m) key ≫= json_as_str.

(** Who the row is charged to and owned by. *)
Definition resolve_inbound_attribution (to_insert : Memory) (sender_agent_id : string)
    (attest_cfg : PeerAttestationConfig) (peer_id : option string) : Memory * string :=
  match metadata_str to_insert AGENT_ID with
  | None => (to_insert, sender_agent_id)
  | Some claimed =>
      if bool_decide (claimed = sender_agent_id) then (to_insert, claimed)
      else
        let authorized := if has_allowlist attest_cfg then may_author (peer_id ≫= scope_for attest_cfg) claimed else true in
        if authorized then (to_insert, claimed)
        else
          (Crdt.with_metadata to_insert
             (json_insert ATTEST_LEVEL (JString (AttestLevel_as_str Crdt.Claimed))
                (json_insert AGENT_ID (JString sender_agent_id) (mem_metadata to_insert))),
           sender_agent_id)
  end.

Definition memory_signable (m : Memory) (agent_id : string) : SignableWrite :=
  mkSignableWrite agent_id (mem_namespace m) (mem_title m) (MemoryKind_as_str (mem_memory_kind m)) (mem_created_at m)
    (sha256 (str_bytes (mem_content m))).

Definition WriteAttestLevel_as_str (l : WriteAttestLevel) : string :=
  match l with Attestation.Claimed => "claimed" | Attestation.AgentAttested => "agent_attested" end.

Definition stamp_attestation (m : Memory) (agent_id : string) (bound_pubkey_b64 : option string) (signature : option bytes)
    (require : bool) : result Memory Attestation.AttestError :=
  let? level := attest_write (memory_signable m agent_id) bound_pubkey_b64 signature require in
  Ok (Crdt.with_metadata m (json_insert ATTEST_LEVEL (JString (WriteAttestLevel_as_str level)) (mem_metadata m))).

(** The signature a pushed row carries, in its metadata. *)
Definition presented_signature (m : Memory) : option bytes :=
  sig ← metadata_str m WRITE_SIGNATURE; b64_standard_decode (str_trim sig).

Definition apply_inbound_write_attestation (to_insert : Memory) (attribute_agent sender_agent_id : string)
    (original_claim bound_pubkey_b64 : option string) (require_write_sig_env : bool) : result Memory Attestation.AttestError :=
  if match original_claim with Some c => negb (bool_decide (c = attribute_agent)) | None => false end then Ok to_insert
  else
    let require := require_write_sig_env && negb (bool_decide (attribute_agent = sender_agent_id)) in
    stamp_attestation to_insert attribute_agent bound_pubkey_b64 (presented_signature to_insert) require.

Definition row_is_agent_attested (m : Memory) : bool :=
  bool_decide (metadata_str m ATTEST_LEVEL = Some (AttestLevel_as_str Crdt.AgentAttested)).

Definition with_lifecycle (m : Memory) (st : LifecycleState) : Memory :=
  mkMemory (mem_id m) (mem_cid m) (mem_tier m) (mem_namespace m) (mem_title m) (mem_content m)
    (mem_tags m) (mem_priority m) (mem_confidence m) (mem_source m) (mem_access_count m)
    (mem_created_at m) (mem_updated_at m) (mem_last_accessed_at m) (mem_expires_at m) (mem_metadata m)
    (mem_reflection_depth m) (mem_memory_kind m) (mem_entity_id m) (mem_persona_version m)
    (mem_citations m) (mem_source_uri m) (mem_source_span m) (mem_confidence_source m)
    (mem_confidence_signals m) (mem_confidence_decayed_at m) (mem_version m) st.

Definition maybe_quarantine_unattributed (m : Memory) (quarantine_enabled : bool) : Memory :=
  if negb quarantine_enabled then m
  else if negb (row_is_agent_attested m) then with_lifecycle m LifeQuarantined else m.

Definition REFLECTION_ORIGIN_KEY : string := "reflection_origin".

(** A reflection from a peer is stamped once with where it came from, the depth
    it came with and the cap that held here. *)
Definition stamp_reflection_origin (m : Memory) (sender_agent_id : string) (local_cap : Z) : Memory :=
  if (mem_reflection_depth m <=? 0)%Z then m
  else
    let meta_map := default [] (json_as_object (mem_metadata m)) in
    let stamp := JObject [("local_depth_at_arrival", JNumber (NPosInt local_cap));
                          ("original_depth", JNumber (NPosInt (mem_reflection_depth m)));
                          ("peer_origin", JString sender_agent_id)] in
    Crdt.with_metadata m
      (JObject (if is_some (bget REFLECTION_ORIGIN_KEY meta_map) then meta_map
                else binsert REFLECTION_ORIGIN_KEY stamp meta_map)).

(** The row handed to the quota and the merge; [bound_key] reads the key bound
    to an agent, [local_cap] is the reflection cap of the row's namespace. *)
Definition prepare_inbound (env : FedEnv) (require_write_sig quarantine : bool) (bound_key : string → option string)
    (local_cap : Z) (m : Memory) : result (Memory * string) Attestation.AttestError :=
  let m := stamp_reflection_origin m (fe_sender env) local_cap in
  let original_claim := metadata_str m AGENT_ID in
  let '(row, agent) := resolve_inbound_attribution m (fe_sender env) (fe_config env) (fe_peer env) in
  let? row := apply_inbound_write_attestation row agent (fe_sender env) original_claim (bound_key agent) require_write_sig in
  Ok (maybe_quarantine_unattributed row quarantine, agent).

(** A loop over a subcollection: each item is counted, none stops the rest. *)
Fixpoint receive_all {A} (receive : Node → A → Node * Outcome) (s : Node) (items : list A) : Node * list Outcome :=
  match items with
  | [] => (s, [])
  | a :: items =>
      let '(s, out) := receive s a in
      let '(s, outs) := receive_all receive s items in (s, out :: outs)
  end.

Record SyncPush : Type := mkPush {
  push_signals : list Signal;
  push_transitions : list ActionTransitionOp;
  push_checkpoints : list Checkpoint
}.

(** The three lanes in the order of the handler. *)
Definition receive_push (env : FedEnv) (s : Node) (body : SyncPush) : Node * (list Outcome * list Outcome * list Outcome) :=
  let '(s, signals) := receive_all (receive_signal env) s (push_signals body) in
  let '(s, transitions) := receive_all (receive_transition env) s (push_transitions body) in
  let '(s, checkpoints) := receive_all (receive_checkpoint env) s (push_checkpoints body) in
  (s, (signals, transitions, checkpoints)).
End with_libs.

(* ------------------------------------------------------------------ *)
(** * What a lane leaves alone *)

Section lanes.
Context {CC : CapCrypto} {KB : KeyBytes CC} {LC : LedgerCrypto} {JC : JsonCodec}.
Context (b64_standard_encode : bytes → string).

Abbreviation receive_transition := (receive_transition b64_standard_encode).
Abbreviation receive_push := (receive_push b64_standard_encode).

Lemma receive_all_ind {A} (receive : Node → A → Node * Outcome) (P : Node → Prop) items s :
  (∀ s a, a ∈ items → P s → P (receive s a).1) → P s → P (receive_all receive s items).1.
Proof.
  revert s. induction items as [|a items IH]; intros s Hstep Hs; [done|]. simpl.
  pose proof (Hstep s a ltac:(left) Hs) as H. destruct (receive s a) as [s1 out]. simpl in H.
  pose proof (IH s1 (λ s a Ha, Hstep s a ltac:(by right)) H). by destruct (receive_all receive s1 items).
Qed.

Ltac lane := repeat case_match; simplify_eq/=; try done.

Lemma signal_lane env s sig : let s' := (receive_signal env s sig).1 in
  nd_actions s' = nd_actions s ∧ nd_checkpoints s' = nd_checkpoints s ∧ nd_nonces s' = nd_nonces s.
Proof. unfold receive_signal. lane. Qed.

Lemma transition_lane env s op : let s' := (receive_transition env s op).1 in
  nd_signals s' = nd_signals s ∧ nd_checkpoints s' = nd_checkpoints s ∧ nd_quotas s' = nd_quotas s.
Proof. unfold Receive.receive_transition. lane. Qed.

Lemma checkpoint_lane env s cp : let s' := (receive_checkpoint env s cp).1 in
  nd_actions s' = nd_actions s ∧ nd_signals s' = nd_signals s ∧ nd_quotas s' = nd_quotas s ∧ nd_nonces s' = nd_nonces s.
Proof. unfold receive_checkpoint. lane. Qed.

(* ------------------------------------------------------------------ *)
(** * Authority *)

(** The statement is signed by the key enrolled for the agent. *)
Definition attested_by (keys : KeyDir) (agent : string) (payload : option bytes) (signature : bytes) : Prop :=
  ∃ key p, lookup_peer_public_key keys agent = Some key ∧ payload = Some p ∧ Capability.verify_strict key p signature = true.

Lemma verify_enrolled {KL : KeyBytesLaws KB} key payload signature :
  verify_raw payload signature (key_to_bytes key) = true → ∃ p, payload = Some p ∧ Capability.verify_strict key p signature = true.
Proof.
  intros H%verify_raw_true. rewrite key_roundtrip in H. naive_solver.
Qed.

Lemma enrolled_signature {KL : KeyBytesLaws KB} keys actor payload signature :
  (if is_nil signature then TxRejectUnsigned
   else match lookup_peer_public_key keys actor with
        | Some key => if verify_raw payload signature (key_to_bytes key) then TxAccept else TxRejectForged
        | None => TxRejectNotEnrolled
        end) = TxAccept → attested_by keys actor payload signature.
Proof.
  destruct (is_nil signature); [done|]. destruct (lookup_peer_public_key keys actor) as [key|] eqn:Ek; [|done].
  destruct (verify_raw _ _ _) eqn:Ev; [|done]. intros _. apply verify_enrolled in Ev as (p & Hp & Hv). by exists key, p.
Qed.

(** What the receiver believes of a transition under the strict knob. *)
Definition transition_believed (keys : KeyDir) (db : coord_db) (op : ActionTransitionOp) (r : action_row) : Prop :=
  actions db !! op_action_id op = Some r
  ∧ ∃ actor, op_claimed_by op = Some actor
      ∧ attested_by keys actor (canonical_cbor_transition (transition_signable (row_to_action r) op)) (op_signature op)
      ∧ ∀ l, leases db !! op_action_id op = Some l → lease_holder l = actor.

Lemma authorized_believed {KL : KeyBytesLaws KB} keys db op r holder :
  actions db !! op_action_id op = Some r →
  holder = lease_holder <$> lease_get db (op_action_id op) →
  authorize_remote_transition (transition_signable (row_to_action r) op) (op_signature op)
    (op_claimed_by op ≫= lookup_peer_public_key keys) holder true = TxAccept →
  transition_believed keys db op r.
Proof.
  intros Hr -> H. split; [done|]. unfold authorize_remote_transition in H. cbn [st_claimed_by transition_signable] in H.
  destruct (op_claimed_by op) as [actor|]; simpl in H; [|by destruct (lease_holder <$> _), (is_nil _)].
  exists actor. split; [done|]. unfold lease_get in H.
  destruct (leases db !! op_action_id op) as [l|] eqn:El; simpl in H.
  1: destruct (negb (bool_decide (lease_holder l = actor))) eqn:Eh; [done|];
     apply negb_false_iff, bool_decide_eq_true in Eh.
  all: split; [by eapply enrolled_signature|]; intros l'; first [done|by intros [= <-]].
Qed.

(** A step of the action table that the receiver may take. *)
Inductive authentic_transition (env : FedEnv) (ops : list ActionTransitionOp) (db : coord_db) : coord_db → Prop :=
  | authentic op r : op ∈ ops → transition_believed (fe_keys env) db op r →
      ActionState.can_transition_to (op_from_state op) (op_to_state op) = true →
      row_state r = ActionState.as_str (op_from_state op) →
      authentic_transition env ops db
        (with_actions db (<[op_action_id op := set_state (op_to_state op) (op_claimed_by op) (op_updated_at op) r]> (actions db))).

Lemma receive_transition_authentic {KL : KeyBytesLaws KB} env s op (ops : list ActionTransitionOp) : fe_require_tx_sig env = true → op ∈ ops →
  nd_actions (receive_transition env s op).1 = nd_actions s
  ∨ authentic_transition env ops (nd_actions s) (nd_actions (receive_transition env s op).1).
Proof.
  intros Hreq Hop. unfold Receive.receive_transition. rewrite Hreq. destruct (negb (is_ok _)); [by left|].
  unfold Actions.get. destruct (actions (nd_actions s) !! op_action_id op) as [r|] eqn:Hr; simpl; [|by left].
  destruct (fe_dry_run env); [by left|]. destruct (authorize_remote_transition _ _ _ _ true) eqn:Ha; try by left.
  eapply authorized_believed in Ha; [|done|done].
  destruct (if is_nil (op_nonce op) then _ else _) as [nonces [|]]; [|by left].
  destruct (transition_cas_cases (nd_actions s) (op_action_id op) (op_from_state op) (op_to_state op) (op_claimed_by op) (op_updated_at op))
    as [[_ E]|[Hc [[_ E]|(r' & Hr' & [[_ E]|[Hst E]])]]]; cbn [with_nonces_of nd_actions]; rewrite E; try by left.
  right. simpl. rewrite Hr in Hr'. injection Hr' as <-. by eapply (authentic _ _ _ op r).
Qed.

Definition signal_believed (env : FedEnv) (sig : Signal) : Prop :=
  attested_by (fe_keys env) (sig_from_agent sig) (canonical_cbor_signal (signable sig (body_sha256 sig))) (sig_signature sig)
  ∧ (has_allowlist (fe_config env) = true →
     sig_from_agent sig = fe_sender env ∨ may_author (fe_peer env ≫= scope_for (fe_config env)) (sig_from_agent sig) = true).

Lemma author_authorized_believed {KL : KeyBytesLaws KB} env sig :
  signal_author_authorized sig (fe_sender env) (fe_config env) (fe_peer env) (fe_keys env) true = true → signal_believed env sig.
Proof.
  unfold signal_author_authorized. intros H. split.
  - destruct (negb _); [done|]. destruct (lookup_peer_public_key _ _) as [key|] eqn:Ek; [|done].
    unfold verify_with_key, verify_row_with_key in H. destruct (is_nil _); [done|].
    apply verify_enrolled in H as (p & Hp & Hv). by exists key, p.
  - intros Hal. rewrite Hal in H. simpl in H. destruct (bool_decide (sig_from_agent sig = fe_sender env)) eqn:E; simpl in H.
    + left. by apply bool_decide_eq_true in E.
    + right. by destruct (may_author _ _).
Qed.

(** What a table may gain: rows stay as they are or come from believed items. *)
Definition grows_by {R} (believed : string → R → Prop) (db db' : gmap string R) : Prop :=
  ∀ id r', db' !! id = Some r' → db !! id = Some r' ∨ believed id r'.

Lemma receive_signal_grows {KL : KeyBytesLaws KB} env s sig (sigs : list Signal) : fe_require_signal_sig env = true → sig ∈ sigs →
  let believed id r := ∃ x, x ∈ sigs ∧ sig_id x = id ∧ r = signal_to_row x ∧ signal_believed env x in
  grows_by believed (nd_signals s) (nd_signals (receive_signal env s sig).1)
  ∧ nd_signals s ⊆ nd_signals (receive_signal env s sig).1.
Proof.
  intros Hreq Hsig believed. assert (grows_by believed (nd_signals s) (nd_signals s)) as Hrefl by (intros ? ? ?; by left).
  unfold receive_signal. rewrite Hreq. destruct (negb (is_ok _)); [done|]. destruct (negb (is_nil _) && _); [done|].
  destruct (signal_author_authorized _ _ _ _ _ _) eqn:Ha; [|done]. simpl.
  destruct (is_some _); [done|]. destruct (fe_dry_run env); [done|]. destruct (check_and_record_storage_only _ _ _ _ _ _ _) as [q [u|e]]; [|done].
  unfold Signals.insert. cbn [with_quotas_of nd_signals]. destruct (nd_signals s !! sig_id sig) eqn:El; [done|].
  destruct (reply_exists _ _); [|done]. cbn [fst with_signals_of nd_signals]. split; [|by apply insert_subseteq].
  intros id r [[<- <-]|[_ H]]%lookup_insert_Some; [right|by left]. exists sig. split_and!; try done. by apply author_authorized_believed.
Qed.

Definition resolution_believed (env : FedEnv) (cp : Checkpoint) : Prop :=
  cp_state cp ≠ CpPending
  ∧ ∃ by_, cp_resolved_by cp = Some by_
      ∧ attested_by (fe_keys env) by_ (canonical_cbor_checkpoint_resolution (resolution_signable cp)) (cp_signature cp).

Lemma resolution_authorized_believed {KL : KeyBytesLaws KB} env cp :
  cp_state cp ≠ CpPending →
  authorize_remote_checkpoint_resolution (resolution_signable cp) (cp_signature cp)
    (cp_resolved_by cp ≫= lookup_peer_public_key (fe_keys env)) true = CpAccept →
  resolution_believed env cp.
Proof.
  intros Hst. unfold authorize_remote_checkpoint_resolution. destruct (is_nil _); [done|]. split; [done|].
  destruct (cp_resolved_by cp) as [by_|]; [|done]. simpl in *. exists by_. split; [done|].
  destruct (lookup_peer_public_key _ _) as [key|] eqn:Ek; [|done]. destruct (verify_checkpoint_resolution _ _ _) eqn:Ev; [|done].
  apply verify_enrolled in Ev as (p & Hp & Hv). by exists key, p.
Qed.

Lemma inbound_unapplied db cp db' o : apply_inbound_resolution db cp = Ok (db', o) → o ≠ InboundApplied → db' = db.
Proof.
  intros E Ho. pose proof (apply_inbound_cases db cp) as Hc. destruct (db !! cp_id cp);
    [destruct Hc as [[_ Hc]|[(_ & _ & Hc)|(_ & _ & Hc)]]|]; rewrite Hc in E; by injection E as <- <-.
Qed.

Lemma receive_checkpoint_grows {KL : KeyBytesLaws KB} env s cp (cps : list Checkpoint) : fe_require_cp_sig env = true → cp ∈ cps →
  let believed id (r : checkpoint_row) := ∃ x, x ∈ cps ∧ cp_id x = id ∧ resolution_believed env x
        ∧ cp_state (row_to_checkpoint r) = cp_state x ∧ cp_signature (row_to_checkpoint r) = cp_signature x in
  grows_by believed (nd_checkpoints s) (nd_checkpoints (receive_checkpoint env s cp).1).
Proof.
  intros Hreq Hcp believed. assert (grows_by believed (nd_checkpoints s) (nd_checkpoints s)) as Hrefl by (intros ? ? ?; by left).
  unfold receive_checkpoint. rewrite Hreq. destruct (_ || _); [done|]. case_bool_decide as Hst; [done|].
  destruct (authorize_remote_checkpoint_resolution _ _ _ _) eqn:Ha; try done. apply resolution_authorized_believed in Ha; [|done].
  destruct (fe_dry_run env); [done|].
  destruct (apply_inbound_resolution (nd_checkpoints s) cp) as [[db []]|e] eqn:E; try done; cbn [fst with_checkpoints_of nd_checkpoints].
  - intros id r Hr. destruct (decide (id = cp_id cp)) as [->|Hne].
    + right. destruct (applied_row _ _ _ E) as (r' & Hr' & Hs & _ & Hsig & _). rewrite Hr in Hr'. injection Hr' as <-. by exists cp.
    + left. pose proof (apply_inbound_cases (nd_checkpoints s) cp) as Hc. destruct (nd_checkpoints s !! cp_id cp).
      * destruct Hc as [[_ Hc]|[(_ & _ & Hc)|(_ & _ & Hc)]]; rewrite Hc in E; try done. injection E as <-. by rewrite lookup_insert_ne in Hr.
      * rewrite Hc in E. injection E as <-. by rewrite lookup_insert_ne in Hr.
  - by rewrite (inbound_unapplied _ _ _ _ E).
  - by rewrite (inbound_unapplied _ _ _ _ E).
Qed.

Lemma grows_by_trans {R} (believed : string → R → Prop) db1 db2 db3 :
  grows_by believed db1 db2 → grows_by believed db2 db3 → grows_by believed db1 db3.
Proof. intros H1 H2 id r Hr. destruct (H2 id r Hr) as [H|H]; [by apply H1|by right]. Qed.

Definition believed_signal (env : FedEnv) (sigs : list Signal) (id : string) (r : signal_row) : Prop :=
  ∃ x, x ∈ sigs ∧ sig_id x = id ∧ r = signal_to_row x ∧ signal_believed env x.

Definition believed_resolution (env : FedEnv) (cps : list Checkpoint) (id : string) (r : checkpoint_row) : Prop :=
  ∃ x, x ∈ cps ∧ cp_id x = id ∧ resolution_believed env x
    ∧ cp_state (row_to_checkpoint r) = cp_state x ∧ cp_signature (row_to_checkpoint r) = cp_signature x.

(** C6: under the strict knobs, which are the defaults, a push changes the
    action table only by compare-and-swap steps each signed, for exactly that
    action, edge, nonce and time, with the key enrolled here for the actor it
    names, against no other holder's lease; it adds only signals signed with the
    key enrolled for their author, whom the peer may speak for, and touches
    none that are there; and it decides only checkpoints whose resolution is
    signed with the resolver's enrolled key. Keys the wire carries are believed
    nowhere. *)
Theorem push_authentic {KL : KeyBytesLaws KB} env s body s' outs :
  fe_require_signal_sig env = true → fe_require_tx_sig env = true → fe_require_cp_sig env = true →
  receive_push env s body = (s', outs) →
  rtc (authentic_transition env (push_transitions body)) (nd_actions s) (nd_actions s')
  ∧ grows_by (believed_signal env (push_signals body)) (nd_signals s) (nd_signals s') ∧ nd_signals s ⊆ nd_signals s'
  ∧ grows_by (believed_resolution env (push_checkpoints body)) (nd_checkpoints s) (nd_checkpoints s').
Proof.
  intros Hsig Htx Hcp. unfold Receive.receive_push.
  pose proof (receive_all_ind (receive_signal env) (λ s', nd_actions s' = nd_actions s ∧ nd_checkpoints s' = nd_checkpoints s
    ∧ grows_by (believed_signal env (push_signals body)) (nd_signals s) (nd_signals s') ∧ nd_signals s ⊆ nd_signals s')
    (push_signals body) s) as H1.
  destruct (receive_all (receive_signal env) s (push_signals body)) as [s1 o1]. cbn [fst] in H1.
  destruct H1 as (A1 & C1 & S1 & S1').
  { intros s0 x Hx (E1 & E2 & E3 & E4). destruct (signal_lane env s0 x) as (-> & -> & _).
    destruct (receive_signal_grows env s0 x (push_signals body) Hsig Hx) as [Hg Hsub].
    split_and!; [done|done|by eapply grows_by_trans|by etrans]. }
  { split_and!; [done|done|intros ? ? ?; by left|done]. }
  pose proof (receive_all_ind (receive_transition env) (λ s', nd_signals s' = nd_signals s1 ∧ nd_checkpoints s' = nd_checkpoints s1
    ∧ rtc (authentic_transition env (push_transitions body)) (nd_actions s1) (nd_actions s')) (push_transitions body) s1) as H2.
  destruct (receive_all (receive_transition env) s1 (push_transitions body)) as [s2 o2]. cbn [fst] in H2.
  destruct H2 as (S2 & C2 & A2).
  { intros s0 x Hx (E1 & E2 & E3). destruct (transition_lane env s0 x) as (-> & -> & _). split_and!; [done|done|].
    destruct (receive_transition_authentic env s0 x _ Htx Hx) as [->|Hstep]; [done|by eapply rtc_r]. }
  { split_and!; done. }
  pose proof (receive_all_ind (receive_checkpoint env) (λ s', nd_actions s' = nd_actions s2 ∧ nd_signals s' = nd_signals s2
    ∧ grows_by (believed_resolution env (push_checkpoints body)) (nd_checkpoints s2) (nd_checkpoints s')) (push_checkpoints body) s2) as H3.
  destruct (receive_all (receive_checkpoint env) s2 (push_checkpoints body)) as [s3 o3]. cbn [fst] in H3.
  destruct H3 as (A3 & S3 & C3).
  { intros s0 x Hx (E1 & E2 & E3). destruct (checkpoint_lane env s0 x) as (-> & -> & _). split_and!; [done|done|].
    eapply grows_by_trans; [exact E3|]. by apply receive_checkpoint_grows. }
  { split_and!; [done|done|intros ? ? ?; by left]. }
  intros [= <- _]. rewrite A3, S3, S2, <-C1, <-C2, <-A1. done.
Qed.

(* ------------------------------------------------------------------ *)
(** * Provenance of a row *)

Lemma insert_str_eq m k x : json_as_object (mem_metadata m) ≠ None →
  metadata_str (Crdt.with_metadata m (json_insert k (JString x) (mem_metadata m))) k = Some x.
Proof. unfold metadata_str. simpl. destruct (mem_metadata m); try done. simpl. by rewrite bget_insert_eq. Qed.

Lemma insert_str_ne m k k' x : k ≠ k' →
  metadata_str (Crdt.with_metadata m (json_insert k' (JString x) (mem_metadata m))) k = metadata_str m k.
Proof. unfold metadata_str. simpl. intros Hne. destruct (mem_metadata m); try done. simpl. by rewrite bget_insert_ne. Qed.

Lemma metadata_str_object m k x : metadata_str m k = Some x → json_as_object (mem_metadata m) ≠ None.
Proof. unfold metadata_str. by destruct (mem_metadata m). Qed.

(** The signature the row itself carries is one over this very row, for the
    agent, and verifies with the key bound to that agent here. *)
Definition content_attested (bound_key : string → option string) (agent : string) (m : Memory) : Prop :=
  ∃ pk key sig p, bound_key agent = Some pk ∧ decode_public_base64 pk = Some key ∧ presented_signature m = Some sig
    ∧ canonical_cbor_write (memory_signable m agent) = Some p ∧ Capability.verify_strict key p sig = true.

Lemma attest_write_attested write bound signature require level :
  attest_write write bound signature require = Ok level →
  (level = Attestation.AgentAttested →
   ∃ pk key sig p, bound = Some pk ∧ decode_public_base64 pk = Some key ∧ signature = Some sig
     ∧ canonical_cbor_write write = Some p ∧ Capability.verify_strict key p sig = true)
  ∧ (require = true → level = Attestation.AgentAttested).
Proof.
  destruct (attest_write_cases write bound signature require) as [Ha Hc]. intros E. destruct level.
  - split; [done|]. apply Hc in E as [-> _]. done.
  - split; [|done]. intros _. apply Ha in E as (pk & k & sig & p & ? & ? & ? & ? & _ & ?). by exists pk, k, sig, p.
Qed.

Lemma apply_attestation_cases m agent sender claim bound strict row :
  apply_inbound_write_attestation m agent sender claim bound strict = Ok row →
  (∃ c, claim = Some c ∧ c ≠ agent ∧ row = m)
  ∨ claim ∈ [None; Some agent] ∧ ∃ level,
      attest_write (memory_signable m agent) bound (presented_signature m) (strict && negb (bool_decide (agent = sender))) = Ok level
      ∧ row = Crdt.with_metadata m (json_insert ATTEST_LEVEL (JString (WriteAttestLevel_as_str level)) (mem_metadata m)).
Proof.
  unfold apply_inbound_write_attestation, stamp_attestation. intros H.
  destruct claim as [c|]; [destruct (bool_decide (c = agent)) eqn:Ec|]; simpl in H.
  2: { injection H as <-. left. exists c. by apply bool_decide_eq_false in Ec. }
  all: right; split; [rewrite ?(bool_decide_eq_true_1 _ Ec); set_solver|];
    match type of H with result_bind (attest_write ?w ?b ?s ?r) _ = _ => destruct (attest_write w b s r) as [level|] eqn:E; [|done] end;
    injection H as <-; by eexists _.
Qed.

Lemma attribution_cases env m row agent :
  resolve_inbound_attribution m (fe_sender env) (fe_config env) (fe_peer env) = (row, agent) →
  (row = m ∧ (agent = fe_sender env ∧ metadata_str m AGENT_ID ∈ [None; Some agent]
     ∨ metadata_str m AGENT_ID = Some agent
       ∧ (has_allowlist (fe_config env) = true → may_author (fe_peer env ≫= scope_for (fe_config env)) agent = true)))
  ∨ (agent = fe_sender env ∧ (∃ c, metadata_str m AGENT_ID = Some c ∧ c ≠ agent)
     ∧ metadata_str row AGENT_ID = Some agent ∧ metadata_str row ATTEST_LEVEL = Some "claimed"
     ∧ (∀ a, memory_signable row a = memory_signable m a) ∧ mem_content row = mem_content m).
Proof.
  unfold resolve_inbound_attribution. destruct (metadata_str m AGENT_ID) as [claimed|] eqn:Ec.
  - case_bool_decide as Heq; [intros [= <- <-]; left; split; [done|left; split; [done|set_solver]]|].
    destruct (if has_allowlist _ then _ else _) eqn:Ea.
    + intros [= <- <-]. left. split; [done|]. right. split; [done|]. intros Hal. by rewrite Hal in Ea.
    + intros [= <- <-]. right. split_and!; [done|by exists claimed| | |done|done].
      * apply metadata_str_object in Ec. unfold metadata_str. simpl. destruct (mem_metadata m); try done. simpl.
        rewrite bget_insert_ne by done. by rewrite bget_insert_eq.
      * apply metadata_str_object in Ec. unfold metadata_str. simpl. destruct (mem_metadata m); try done. simpl.
        by rewrite bget_insert_eq.
  - intros [= <- <-]. left. split; [done|]. left. split; [done|set_solver].
Qed.

Lemma quarantine_keeps m b :
  metadata_str (maybe_quarantine_unattributed m b) = metadata_str m
  ∧ memory_signable (maybe_quarantine_unattributed m b) = memory_signable m
  ∧ (b = true → row_is_agent_attested m = false → mem_lifecycle_state (maybe_quarantine_unattributed m b) = LifeQuarantined).
Proof. unfold maybe_quarantine_unattributed. destruct b; simpl; [|done]. by destruct (row_is_agent_attested m). Qed.

(** The stamp of a reflection leaves the author, what is signed and the carried
    signature alone. *)
Lemma stamp_reflection_keeps m sender cap :
  metadata_str (stamp_reflection_origin m sender cap) AGENT_ID = metadata_str m AGENT_ID
  ∧ memory_signable (stamp_reflection_origin m sender cap) = memory_signable m
  ∧ mem_content (stamp_reflection_origin m sender cap) = mem_content m
  ∧ presented_signature (stamp_reflection_origin m sender cap) = presented_signature m.
Proof.
  assert (∀ k, k ≠ REFLECTION_ORIGIN_KEY → metadata_str (stamp_reflection_origin m sender cap) k = metadata_str m k) as Hkeep.
  { intros k Hk. unfold stamp_reflection_origin. destruct (_ <=? _)%Z; [done|].
    unfold metadata_str. simpl. destruct (is_some _) eqn:E; destruct (mem_metadata m); try done; simpl.
    all: by rewrite ?bget_insert_ne, ?decide_False. }
  unfold presented_signature. rewrite !Hkeep by done.
  by unfold stamp_reflection_origin; destruct (_ <=? _)%Z.
Qed.

(** The two ways a row comes out: with a level from the gate under the author it
    claims, or given to the sender as a claim. *)
Lemma prepare_inbound_cases env strict quarantine bound_key cap m0 row agent :
  prepare_inbound env strict quarantine bound_key cap m0 = Ok (row, agent) →
  let m := stamp_reflection_origin m0 (fe_sender env) cap in
  ∃ row1, row = maybe_quarantine_unattributed row1 quarantine ∧ mem_content row1 = mem_content m
  ∧ (∀ a, memory_signable row1 a = memory_signable m a)
  ∧ ((metadata_str m AGENT_ID ∈ [None; Some agent]
      ∧ (agent = fe_sender env
         ∨ metadata_str m AGENT_ID = Some agent
           ∧ (has_allowlist (fe_config env) = true → may_author (fe_peer env ≫= scope_for (fe_config env)) agent = true))
      ∧ ∃ level, attest_write (memory_signable m agent) (bound_key agent) (presented_signature m)
                       (strict && negb (bool_decide (agent = fe_sender env))) = Ok level
        ∧ row1 = Crdt.with_metadata m (json_insert ATTEST_LEVEL (JString (WriteAttestLevel_as_str level)) (mem_metadata m)))
     ∨ (agent = fe_sender env ∧ metadata_str row1 AGENT_ID = Some agent ∧ metadata_str row1 ATTEST_LEVEL = Some "claimed")).
Proof.
  unfold prepare_inbound. set (m := stamp_reflection_origin m0 _ _).
  destruct (resolve_inbound_attribution m _ _ _) as [row0 agent0] eqn:Ea.
  destruct (apply_inbound_write_attestation _ _ _ _ _ _) as [row1|] eqn:Ew; [|done]. simpl. intros [= <- <-].
  exists row1. split; [done|].
  destruct (attribution_cases env m row0 agent0 Ea) as [[-> Hwho]|(-> & (c & Hc & Hne) & Hid & Hlevel & Hsame & Hcontent)];
    destruct (apply_attestation_cases _ _ _ _ _ _ _ Ew) as [(c' & Hc' & Hne' & ->)|[Hclaim (level & Hatt & ->)]].
  - exfalso. rewrite Hc' in Hwho. destruct Hwho as [[_ Hin]|[[= ->] _]]; [set_solver|done].
  - split_and!; [done|done|]. left. split_and!; [done|destruct Hwho as [[? _]|?]; auto|by exists level].
  - split_and!; [done|done|]. by right.
  - exfalso. rewrite Hc in Hclaim. set_solver.
Qed.

(** A level the gate stamped says what the gate found. *)
Lemma stamped_attested bound_key agent m m' require level :
  attest_write (memory_signable m agent) (bound_key agent) (presented_signature m) require = Ok level →
  row_is_agent_attested
    (Crdt.with_metadata m' (json_insert ATTEST_LEVEL (JString (WriteAttestLevel_as_str level)) (mem_metadata m'))) = true →
  content_attested bound_key agent m.
Proof.
  intros [Hverified _]%attest_write_attested Hrow%bool_decide_eq_true. destruct level; [exfalso|].
  - unfold metadata_str in Hrow. simpl in Hrow. destruct (mem_metadata m'); try done. simpl in Hrow. by rewrite bget_insert_eq in Hrow.
  - destruct (Hverified eq_refl) as (pk & k & sg & p & ?). by exists pk, k, sg, p.
Qed.

(** C7: the row a peer's push becomes: it is charged to and owned by the sender,
    or by an author the peer is allowed to speak for; it is marked as attested
    only when the signature the row itself carries, over exactly this row,
    verifies with the key bound here to that author, whatever level the pushed
    metadata claims; under the
    strict knob no third party's row gets through without; and with the
    quarantine on, every other row is quarantined. *)
Theorem inbound_row_honest env strict quarantine bound_key cap m row agent :
  prepare_inbound env strict quarantine bound_key cap m = Ok (row, agent) →
  (agent = fe_sender env
   ∨ metadata_str m AGENT_ID = Some agent
     ∧ (has_allowlist (fe_config env) = true → may_author (fe_peer env ≫= scope_for (fe_config env)) agent = true))
  ∧ (metadata_str row AGENT_ID = Some agent ∨ metadata_str row AGENT_ID = None ∧ agent = fe_sender env)
  ∧ (∀ a, memory_signable row a = memory_signable m a)
  ∧ (row_is_agent_attested row = true → content_attested bound_key agent m)
  ∧ (strict = true → agent ≠ fe_sender env → row_is_agent_attested row = true)
  ∧ (quarantine = true → row_is_agent_attested row = false → mem_lifecycle_state row = LifeQuarantined).
Proof.
  intros (row1 & -> & _ & Hsame & Hcases)%prepare_inbound_cases.
  destruct (stamp_reflection_keeps m (fe_sender env) cap) as (Hclaimed & Hsigned & _ & Hcarried).
  rewrite Hclaimed, Hsigned, Hcarried in *. set (m' := stamp_reflection_origin _ _ _) in *.
  destruct (quarantine_keeps row1 quarantine) as (Hmeta & Hsign & Hq).
  assert (row_is_agent_attested (maybe_quarantine_unattributed row1 quarantine) = row_is_agent_attested row1) as ->
    by (unfold row_is_agent_attested; by rewrite Hmeta).
  rewrite Hmeta, Hsign. destruct Hcases as [(Hclaim & Hwho & level & Hatt & ->)|(-> & Hid & Hlevel)].
  - rewrite insert_str_ne by done. split_and!; [done| |done|intros Hrow; by eapply stamped_attested| |done].
    + rewrite !elem_of_cons, elem_of_nil in Hclaim. destruct Hclaim as [E|[E|[]]]; rewrite E in *; [right|by left].
      destruct Hwho as [?|[? _]]; [done|congruence].
    + intros -> Hne. destruct Hwho as [?|[E _]]; [done|]. destruct (attest_write_attested _ _ _ _ _ Hatt) as [_ Hstrict].
      rewrite Hstrict by by rewrite bool_decide_eq_false_2. apply bool_decide_eq_true.
      rewrite insert_str_eq; [done|]. rewrite <-Hclaimed in E. by eapply metadata_str_object.
  - split_and!; [by left|by left|done| |done|done]. intros Hrow%bool_decide_eq_true. rewrite Hlevel in Hrow. done.
Qed.

Lemma attested_rank m : row_is_agent_attested m = bool_decide (attest_rank m = 1)%Z.
Proof. unfold row_is_agent_attested, metadata_str, attest_rank, attest_level_of. case_decide as E; [by rewrite bool_decide_eq_true_2|by rewrite bool_decide_eq_false_2]. Qed.

(** C37: the two halves of the receiver undo each other on a row that is already
    here: the lane verifies the author's signature and stamps the row as
    attested, the merge then resets every pushed level to a claim; so a verified
    update replaces the content and the row still reads as a bare claim. *)
Theorem verified_update_stays_claimed `{CS : ClockSerde, !ClockSerdeLaws CS, T : Chrono}
    env strict quarantine bound_key cap m row agent existing now :
  prepare_inbound env strict quarantine bound_key cap m = Ok (row, agent) → row_is_agent_attested row = true →
  mem_id existing = mem_id row → metadata_ok existing → metadata_ok row → row_is_agent_attested existing = false →
  mem_updated_at (prepared row now) >?s mem_updated_at existing = true →
  let merged := merge_inbound_existing existing row now in
  content_attested bound_key agent m ∧ mem_content merged = mem_content m ∧ row_is_agent_attested merged = false.
Proof.
  intros Hp Hatt Hid He Hr Hun Hlate merged.
  apply prepare_inbound_cases in Hp as (row1 & -> & Hcontent & _ & Hcases).
  destruct (stamp_reflection_keeps m (fe_sender env) cap) as (_ & Hsigned & Hkept & Hcarried).
  rewrite Hsigned, Hkept, Hcarried in *. set (m' := stamp_reflection_origin _ _ _) in *.
  destruct (quarantine_keeps row1 quarantine) as (Hmeta & _ & _).
  assert (row_is_agent_attested (maybe_quarantine_unattributed row1 quarantine) = row_is_agent_attested row1) as Hsame
    by (unfold row_is_agent_attested; by rewrite Hmeta).
  assert (mem_content (maybe_quarantine_unattributed row1 quarantine) = mem_content row1) as Hc
    by (unfold maybe_quarantine_unattributed; by repeat case_match).
  set (row := maybe_quarantine_unattributed row1 quarantine) in *. rewrite Hsame in Hatt. split_and!.
  - destruct Hcases as [(_ & _ & level & Hgate & ->)|(_ & _ & Hlevel)]; [by eapply stamped_attested|].
    apply bool_decide_eq_true in Hatt. by rewrite Hlevel in Hatt.
  - change merged with (merge_memory existing (prepared row now)). simpl. unfold lww. rewrite inbound_wins, Hlate by done.
    destruct (prepared_keeps row now) as (_ & -> & _). by rewrite Hc.
  - rewrite attested_rank in *. apply bool_decide_eq_false in Hun. apply bool_decide_eq_false.
    destruct (prepared_keeps row now) as (_ & _ & _ & Hrank).
    assert (metadata_ok (prepared row now)) as Hok.
    { unfold metadata_ok, prepared. rewrite (proj1 (proj2 (clamp_keeps _ _ _))). by apply sanitized_level. }
    pose proof (attest_rank_merge existing (prepared row now) He Hok Hrank). pose proof (attest_rank_range existing).
    change merged with (merge_memory existing (prepared row now)). lia.
Qed.

(* ------------------------------------------------------------------ *)
(** * Nonces of transitions *)

(** What happens at a node: pushes, restarts, and local work on its actions. *)
Inductive NodeEvent : Type :=
  | NodePush (env : FedEnv) (body : SyncPush)
  | NodeRestart
  | NodeLocal (db : coord_db).

Definition node_step (s : Node) (e : NodeEvent) : Node :=
  match e with
  | NodePush env body => (receive_push env s body).1
  | NodeRestart => with_nonces_of s (restart (nd_nonces s))
  | NodeLocal db => with_actions_of s db
  end.

Definition node_run (events : list NodeEvent) (s : Node) : Node := fold_left node_step events s.

(** The statements of the write-behind succeed. *)
Definition event_disk_ok (e : NodeEvent) : Prop :=
  match e with NodePush env _ => fe_disk env = all_ok | _ => True end.

(** How many nonces an event may record, a restart counted as one. *)
Definition event_nonces (e : NodeEvent) : nat :=
  match e with NodePush _ body => length (push_transitions body) | NodeRestart => 1 | NodeLocal _ => 0 end.

Definition nonces_of (events : list NodeEvent) : nat := foldr (λ e n, event_nonces e + n) 0 events.

(** The nonces of the cache evolve as the cache's own runs. *)
Definition nonces_evolve (k : nat) (c c' : FederationNonceCache) : Prop :=
  ∃ evs, (nonce_run evs c).1 = c' ∧ length evs ≤ k.

Lemma nonces_evolve_refl c : nonces_evolve 0 c c.
Proof. by exists []. Qed.

Lemma nonces_evolve_trans k1 k2 c1 c2 c3 : nonces_evolve k1 c1 c2 → nonces_evolve k2 c2 c3 → nonces_evolve (k1 + k2) c1 c3.
Proof.
  intros (e1 & H1 & L1) (e2 & H2 & L2). exists (e1 ++ e2). rewrite nonce_run_app, H1, length_app. split; [done|lia].
Qed.

Lemma nonces_evolve_le k k' c c' : k ≤ k' → nonces_evolve k c c' → nonces_evolve k' c c'.
Proof. intros Hk (e & H & L). exists e. split; [done|lia]. Qed.

(** A transition records its nonce, or leaves the cache alone. *)
Lemma transition_nonces env s op : fe_disk env = all_ok →
  nd_nonces (receive_transition env s op).1 = nd_nonces s
  ∨ op_nonce op ≠ [] ∧ nd_nonces (receive_transition env s op).1
      = (record_nonce all_ok (nd_nonces s) (default "" (fe_peer env)) (b64_standard_encode (op_nonce op))).1.
Proof.
  intros Hio. unfold Receive.receive_transition. rewrite Hio. destruct (negb (is_ok _)); [by left|].
  destruct (Actions.get _ _) as [local|]; [|by left]. destruct (fe_dry_run env); [by left|].
  destruct (authorize_remote_transition _ _ _ _ _); try by left.
  destruct (op_nonce op) as [|b bs]; cbn [is_nil]; [left; by repeat case_match|right; split; [done|]].
  destruct (record_nonce all_ok _ _ _) as [c1 [|]]; [|done]. by repeat case_match.
Qed.

Lemma transition_evolves env s op : fe_disk env = all_ok →
  nonces_evolve 1 (nd_nonces s) (nd_nonces (receive_transition env s op).1).
Proof.
  intros Hio. destruct (transition_nonces env s op Hio) as [->|[_ ->]]; [by exists []; split; [|simpl; lia]|].
  exists [Heard (default "" (fe_peer env)) (b64_standard_encode (op_nonce op))]. simpl. by destruct (record_nonce _ _ _ _).
Qed.

Lemma receive_all_evolves {A} (receive : Node → A → Node * Outcome) (k : nat) items s :
  (∀ s a, nonces_evolve k (nd_nonces s) (nd_nonces (receive s a).1)) →
  nonces_evolve (length items * k) (nd_nonces s) (nd_nonces (receive_all receive s items).1).
Proof.
  intros Hr. revert s. induction items as [|a items IH]; intros s; [apply nonces_evolve_refl|]. simpl.
  pose proof (Hr s a) as H. destruct (receive s a) as [s1 out]. specialize (IH s1).
  destruct (receive_all receive s1 items). by eapply nonces_evolve_trans.
Qed.

Lemma node_step_evolves s e : event_disk_ok e → nonces_evolve (event_nonces e) (nd_nonces s) (nd_nonces (node_step s e)).
Proof.
  destruct e as [env body| |db]; intros Hio; simpl; [|by exists [Restarted]|apply nonces_evolve_refl].
  unfold Receive.receive_push.
  pose proof (receive_all_evolves (receive_signal env) 0 (push_signals body) s) as H1.
  destruct (receive_all (receive_signal env) s (push_signals body)) as [s1 o1].
  pose proof (receive_all_evolves (receive_transition env) 1 (push_transitions body) s1) as H2.
  destruct (receive_all (receive_transition env) s1 (push_transitions body)) as [s2 o2].
  pose proof (receive_all_evolves (receive_checkpoint env) 0 (push_checkpoints body) s2) as H3.
  destruct (receive_all (receive_checkpoint env) s2 (push_checkpoints body)) as [s3 o3]. cbn [fst] in *.
  apply (nonces_evolve_le (length (push_signals body) * 0 + (length (push_transitions body) * 1 + length (push_checkpoints body) * 0))); [lia|].
  eapply nonces_evolve_trans; [apply H1|eapply nonces_evolve_trans; [apply H2|apply H3]]; intros s0 x.
  - destruct (signal_lane env s0 x) as (_ & _ & ->). apply nonces_evolve_refl.
  - by apply transition_evolves.
  - destruct (checkpoint_lane env s0 x) as (_ & _ & _ & ->). apply nonces_evolve_refl.
Qed.

Lemma node_run_evolves events s : Forall event_disk_ok events →
  nonces_evolve (nonces_of events) (nd_nonces s) (nd_nonces (node_run events s)).
Proof.
  intros Hall. revert s. induction Hall as [|e events He _ IH]; intros s; [apply nonces_evolve_refl|]. simpl.
  eapply nonces_evolve_trans; [by apply node_step_evolves|apply IH].
Qed.

(** An operation that spent its nonce: it was let through, and the cache moved. *)
Definition spends (env : FedEnv) (s : Node) (op : ActionTransitionOp) : Prop :=
  (receive_transition env s op).2 ≠ OutSkipped ∧ nd_nonces (receive_transition env s op).1 ≠ nd_nonces s.

Lemma spends_fresh env s op : fe_disk env = all_ok → spends env s op →
  op_nonce op ≠ []
  ∧ (record_nonce all_ok (nd_nonces s) (default "" (fe_peer env)) (b64_standard_encode (op_nonce op))).2 = Fresh
  ∧ nd_nonces (receive_transition env s op).1
    = (record_nonce all_ok (nd_nonces s) (default "" (fe_peer env)) (b64_standard_encode (op_nonce op))).1.
Proof.
  intros Hio [Hout Hne]. destruct (transition_nonces env s op Hio) as [?|[Hn He]]; [done|]. split_and!; [done| |done].
  clear He. revert Hout Hne. unfold Receive.receive_transition. rewrite Hio. destruct (negb (is_ok _)); [done|].
  destruct (Actions.get _ _) as [local|]; [|done]. destruct (fe_dry_run env); [done|].
  destruct (authorize_remote_transition _ _ _ _ _); try done.
  destruct (op_nonce op) as [|b bs]; cbn [is_nil]; [done|]. by destruct (record_nonce all_ok _ _ _) as [c1 [|]].
Qed.

Lemma replayed_refused env s op : fe_disk env = all_ok → op_nonce op ≠ [] →
  (record_nonce all_ok (nd_nonces s) (default "" (fe_peer env)) (b64_standard_encode (op_nonce op))).2 = Replay →
  nd_actions (receive_transition env s op).1 = nd_actions s ∧ (receive_transition env s op).2 ≠ OutApplied.
Proof.
  intros Hio Hn Hr. unfold Receive.receive_transition. rewrite Hio. destruct (negb (is_ok _)); [done|].
  destruct (Actions.get _ _) as [local|]; [|done]. destruct (fe_dry_run env); [done|].
  destruct (authorize_remote_transition _ _ _ _ _); try done.
  destruct (op_nonce op) as [|b bs]; [done|]. cbn [is_nil]. destruct (record_nonce all_ok _ _ _) as [c1 dec]. simpl in Hr. by subst dec.
Qed.

(** C35: a peer does not repeat a transition within its window. The nonce of a
    transition is spent by the first delivery that gets past the authorization,
    whether the compare-and-swap then succeeds or not: as long as fewer than ten
    thousand nonces are recorded after it, the memory has room for the peers they
    come from and the writes of the nonce table succeed, no operation that carries
    it from the same relaying peer changes an action, whatever pushes of any
    peers, restarts and local work come between. So a transition that arrived
    before the one it builds on, which only misses its swap, is refused on that
    peer's retries. Another peer does replay it
    ([transition_replays_across_peers]). *)
Theorem transition_nonce_spent {LL : LedgerCryptoLaws LC} s before env op events env' op' :
  nd_nonces s = hydrate_from_disk ∅ → Forall event_disk_ok before → Forall event_disk_ok events →
  fe_disk env = all_ok → fe_disk env' = all_ok →
  spends env (node_run before s) op →
  op_nonce op' = op_nonce op → default "" (fe_peer env') = default "" (fe_peer env) →
  (Z.of_nat (nonces_of before + nonces_of events + 2) < 2 ^ 63)%Z →
  (Z.of_nat (nonces_of events) < FEDERATION_NONCE_CAPACITY_PER_PEER)%Z →
  let s1 := (receive_transition env (node_run before s) op).1 in
  (Z.of_nat (size (nc_peers (nd_nonces s1)) + nonces_of events) ≤ FEDERATION_NONCE_MAX_PEERS)%Z →
  let s2 := node_run events s1 in
  nd_actions (receive_transition env' s2 op').1 = nd_actions s2 ∧ (receive_transition env' s2 op').2 ≠ OutApplied.
Proof.
  intros Hstart Hb He Hio Hio' Hspend Hop Hpeer Hlen Hcap s1 Hroom s2.
  destruct (spends_fresh _ _ _ Hio Hspend) as (Hn & Hfresh & Hs1). fold s1 in Hs1. fold s1 in Hspend.
  destruct (node_run_evolves before s Hb) as (evs & Hevs & Levs). rewrite Hstart in Hevs.
  destruct (node_run_evolves events s1 He) as (evs' & Hevs' & Levs'). fold s2 in Hevs'.
  apply replayed_refused; [done|by rewrite Hop|]. rewrite Hop, Hpeer, <-Hevs', Hs1, <-Hevs.
  apply accepted_nonce_refused; [by rewrite Hevs|lia|lia|]. rewrite Hevs, <-Hs1. lia.
Qed.

(** The same push, relayed by another peer. *)
Definition relayed_by (q : string) (env : FedEnv) : FedEnv :=
  mkFedEnv (fe_sender env) (Some q) (fe_config env) (fe_keys env) (fe_dry_run env) (fe_require_signal_sig env)
    (fe_require_tx_sig env) (fe_require_cp_sig env) (fe_quota_defaults env) (fe_quota_ensured_at env) (fe_quota_now env)
    (fe_disk env).

Lemma make_room_other peers p q : q ≠ p → (make_room peers p).1 !! q = peers !! q ∨ (make_room peers p).1 !! q = None.
Proof.
  intros Hne. unfold make_room. destruct (_ && _); [|by left]. destruct (lru_peer peers) as [e|]; [|by left]. simpl.
  destruct (decide (e = q)) as [->|]; [right; apply lookup_delete_eq|left; by apply lookup_delete_ne].
Qed.

Lemma make_room_same peers p : (make_room peers p).1 !! p = peers !! p.
Proof.
  unfold make_room. destruct (peers !! p) as [sl|] eqn:E; [done|]. simpl. case_bool_decide; [|done].
  destruct (lru_peer peers) as [e|]; [|done]. simpl. destruct (decide (e = p)) as [->|]; [apply lookup_delete_eq|by rewrite lookup_delete_ne].
Qed.

(** What a peer's window remembers. *)
Definition remembers (c : FederationNonceCache) (p : string) (fp : bytes) : Prop :=
  fp ∈ seen (slot_window (default (mkSlot window_empty 0) (nc_peers c !! p))).

Lemma record_other io c p n q fp : q ≠ p → remembers (record_nonce io c p n).1 q fp → remembers c q fp.
Proof.
  intros Hne. unfold remembers, record_nonce. pose proof (make_room_other (nc_peers c) p q Hne) as Hr.
  destruct (make_room (nc_peers c) p) as [peers ep]. simpl in Hr.
  destruct (window_record _ _ _) as [[w efp] d]. cbn [fst nc_peers]. rewrite lookup_insert_ne by done.
  destruct Hr as [->| ->]; [done|]. simpl. set_solver.
Qed.

Lemma record_unremembered io c p n : ¬ remembers c p (nonce_fingerprint p n) → (record_nonce io c p n).2 = Fresh.
Proof.
  unfold remembers, record_nonce. pose proof (make_room_same (nc_peers c) p) as Hr.
  destruct (make_room (nc_peers c) p) as [peers ep]. simpl in Hr. rewrite <-Hr. intros Hfp.
  unfold window_record. rewrite bool_decide_eq_false_2 by done. by destruct (window_evict _ _).
Qed.

Lemma transition_nonces_other env s op q fp : fe_peer env ≠ Some q → q ≠ "" →
  remembers (nd_nonces (receive_transition env s op).1) q fp → remembers (nd_nonces s) q fp.
Proof.
  intros Hp Hq. assert (q ≠ default "" (fe_peer env)) as Hne by (destruct (fe_peer env); simpl; congruence).
  unfold Receive.receive_transition. destruct (negb (is_ok _)); [done|].
  destruct (Actions.get _ _) as [local|]; [|done]. destruct (fe_dry_run env); [done|].
  destruct (authorize_remote_transition _ _ _ _ _); try done.
  destruct (is_nil (op_nonce op)); [by repeat case_match|].
  pose proof (record_other (fe_disk env) (nd_nonces s) (default "" (fe_peer env)) (b64_standard_encode (op_nonce op)) q fp Hne) as Ho.
  destruct (record_nonce _ _ _ _) as [c1 [|]]; cbn [fst] in Ho; by repeat case_match.
Qed.

(** Past the checks that come before the nonce. *)
Record admitted (env : FedEnv) (s : Node) (op : ActionTransitionOp) (r : action_row) : Prop := {
  ad_id : is_ok (validate_id (op_action_id op)) = true;
  ad_dry : fe_dry_run env = false;
  ad_authorized : authorize_remote_transition (transition_signable (row_to_action r) op) (op_signature op)
      (op_claimed_by op ≫= lookup_peer_public_key (fe_keys env)) (lease_holder <$> lease_get (nd_actions s) (op_action_id op))
      (fe_require_tx_sig env) = TxAccept
}.

Lemma applied_admitted env s op r : actions (nd_actions s) !! op_action_id op = Some r →
  (receive_transition env s op).2 = OutApplied →
  admitted env s op r ∧ ActionState.can_transition_to (op_from_state op) (op_to_state op) = true.
Proof.
  intros Hr. unfold Receive.receive_transition, Actions.get. rewrite Hr. cbn [fmap option_fmap option_map].
  destruct (is_ok _) eqn:Hid; [|done]. simpl. destruct (fe_dry_run env) eqn:Hdry; [done|].
  destruct (authorize_remote_transition _ _ _ _ _) eqn:Ha; try done. intros H. split; [done|].
  destruct (if is_nil (op_nonce op) then _ else _) as [c1 [|]]; [|done]. cbn [with_nonces_of nd_actions] in H.
  destruct (transition_cas_cases (nd_actions s) (op_action_id op) (op_from_state op) (op_to_state op) (op_claimed_by op) (op_updated_at op))
    as [[_ E]|[Hc _]]; [by rewrite E in H|done].
Qed.

Lemma admitted_applies env s op r : actions (nd_actions s) !! op_action_id op = Some r → admitted env s op r →
  ActionState.can_transition_to (op_from_state op) (op_to_state op) = true →
  row_state r = ActionState.as_str (op_from_state op) →
  op_nonce op = [] ∨ (record_nonce (fe_disk env) (nd_nonces s) (default "" (fe_peer env)) (b64_standard_encode (op_nonce op))).2 = Fresh →
  (receive_transition env s op).2 = OutApplied
  ∧ actions (nd_actions (receive_transition env s op).1) !! op_action_id op
    = Some (set_state (op_to_state op) (op_claimed_by op) (op_updated_at op) r).
Proof.
  intros Hr [Hid Hdry Ha] Hc Hst Hfresh. unfold Receive.receive_transition, Actions.get. rewrite Hr, Hid, Hdry. simpl in Ha |- *. rewrite Ha.
  destruct (if is_nil (op_nonce op) then _ else _) as [c1 dec] eqn:Ed.
  assert (dec = Fresh) as ->.
  { destruct Hfresh as [E|E]; [rewrite E in Ed; by injection Ed as _ <-|].
    destruct (is_nil (op_nonce op)); [by injection Ed as _ <-|]. by rewrite Ed in E. }
  cbn [with_nonces_of nd_actions].
  destruct (transition_cas_cases (nd_actions s) (op_action_id op) (op_from_state op) (op_to_state op) (op_claimed_by op) (op_updated_at op))
    as [[? _]|[_ [[? _]|(r' & Hr' & [[? _]|[_ E]])]]]; [congruence..|]. rewrite E. simpl. split; [done|].
  rewrite Hr in Hr'. injection Hr' as <-. apply lookup_insert_eq.
Qed.

(** C36: the memory of a transition's nonce is the relaying peer's: a transition
    that was applied when one peer brought it is applied again when another
    peer brings the very same signed operation, whenever the action is back in
    the state it starts from. *)
Theorem transition_replays_across_peers env q s op r db r2 :
  fe_peer env ≠ Some q → q ≠ "" →
  ¬ remembers (nd_nonces s) q (nonce_fingerprint q (b64_standard_encode (op_nonce op))) →
  (receive_transition env s op).2 = OutApplied →
  actions (nd_actions s) !! op_action_id op = Some r →
  actions db !! op_action_id op = Some r2 → row_namespace r2 = row_namespace r →
  leases db !! op_action_id op = leases (nd_actions s) !! op_action_id op →
  row_state r2 = ActionState.as_str (op_from_state op) →
  let s2 := with_actions_of (receive_transition env s op).1 db in
  (receive_transition (relayed_by q env) s2 op).2 = OutApplied
  ∧ actions (nd_actions (receive_transition (relayed_by q env) s2 op).1) !! op_action_id op
    = Some (set_state (op_to_state op) (op_claimed_by op) (op_updated_at op) r2).
Proof.
  intros Hp Hq Hun Happ Hr Hr2 Hns Hl Hst s2.
  destruct (applied_admitted _ _ _ _ Hr Happ) as [[Hid Hdry Hauth] Hc].
  apply (admitted_applies _ s2 op r2); [done| |done|done|].
  - split; [done|done|]. cbn [relayed_by fe_keys fe_require_tx_sig]. change (nd_actions s2) with db. unfold lease_get. rewrite Hl.
    unfold transition_signable in *. simpl in *. by rewrite Hns.
  - right. apply record_unremembered. intros H. by apply Hun, (transition_nonces_other env s op q).
Qed.
End lanes.

(* ------------------------------------------------------------------ *)
(** * Witnesses *)

#[local] Existing Instance demo_attest_crypto.
#[local] Existing Instance demo_key_codec.
#[local] Existing Instance demo_ledger_crypto.
#[local] Existing Instance demo_ledger_laws.
#[local] Existing Instance demo_key_laws.
#[local] Existing Instance demo_codec.

Definition demo_env (peer : string) : FedEnv :=
  mkFedEnv "ai:hub" (Some peer) ∅ {[ "ai:bob" := demo_key_bytes true ]} false true true true demo_defaults
    demo_today demo_today all_ok.

Definition demo_node : Node := mkNode demo_db ∅ ∅ demo_quotas (hydrate_from_disk ∅).

(** Bob's signed transitions of action [a]. *)
Definition demo_op (from to : ActionState) (nonce : bytes) : ActionTransitionOp :=
  let op := mkTransitionOp "a" from to (Some "ai:bob") (JObject []) 7 [] [] nonce in
  let signed := sign_transition demo_bob (transition_signable (row_to_action (Actions.demo_row "a" "pending" 5)) op) in
  mkTransitionOp "a" from to (Some "ai:bob") (JObject []) 7 (match signed with Ok s => s | Err _ => [] end) [] nonce.

Definition demo_claim : ActionTransitionOp := demo_op Pending Actions.Claimed [Byte.x01].
Definition demo_start : ActionTransitionOp := demo_op Actions.Claimed InProgress [Byte.x02].

Abbreviation demo_receive := (receive_transition String.string_of_list_byte).

Lemma push_authentic_witness :
  ∃ s' outs, receive_push String.string_of_list_byte (demo_env "hub") demo_node (mkPush [] [demo_claim; demo_start] []) = (s', outs)
    ∧ outs = ([], [OutApplied; OutApplied], [])
    ∧ rtc (authentic_transition (demo_env "hub") [demo_claim; demo_start]) demo_db (nd_actions s').
Proof.
  destruct (receive_push String.string_of_list_byte (demo_env "hub") demo_node (mkPush [] [demo_claim; demo_start] [])) as [s' outs] eqn:E.
  exists s', outs. split; [done|]. split.
  - apply (f_equal snd) in E. vm_compute in E. by rewrite <-E.
  - by apply (push_authentic String.string_of_list_byte (demo_env "hub") demo_node (mkPush [] [demo_claim; demo_start] []) s' outs).
Defined.

(** The start of the work arrives before the claim: it misses its swap, and
    after the claim, and a restart, it is refused. *)
Definition demo_reordered : Node :=
  node_run String.string_of_list_byte [NodePush (demo_env "hub") (mkPush [] [demo_claim] []); NodeRestart]
    (demo_receive (demo_env "hub") demo_node demo_start).1.

Lemma transition_nonce_spent_witness :
  (demo_receive (demo_env "hub") demo_node demo_start).2 = OutNoop
  ∧ (row_state <$> actions (nd_actions demo_reordered) !! "a") = Some "claimed"
  ∧ nd_actions (demo_receive (demo_env "hub") demo_reordered demo_start).1 = nd_actions demo_reordered
  ∧ (demo_receive (demo_env "hub") demo_reordered demo_start).2 ≠ OutApplied.
Proof.
  split; [by vm_compute|]. split; [by vm_compute|].
  unfold demo_reordered.
  apply (transition_nonce_spent String.string_of_list_byte demo_node [] (demo_env "hub") demo_start
    [NodePush (demo_env "hub") (mkPush [] [demo_claim] []); NodeRestart] (demo_env "hub") demo_start).
  - reflexivity.
  - constructor.
  - by repeat constructor.
  - reflexivity.
  - reflexivity.
  - split; [by vm_compute|]. intros E. apply (f_equal nc_touch_counter) in E. vm_compute in E. discriminate E.
  - reflexivity.
  - reflexivity.
  - by vm_compute.
  - by vm_compute.
  - by vm_compute.
Defined.

(** Bob's claim is brought by one peer, given up, and brought by another. *)
Definition demo_given_up : coord_db := mkDb {[ "a" := Actions.demo_row "a" "pending" 5 ]} ∅ ∅.

Lemma transition_replays_across_peers_witness :
  (demo_receive (demo_env "hub") demo_node demo_claim).2 = OutApplied
  ∧ (demo_receive (relayed_by "spoke" (demo_env "hub"))
       (with_actions_of (demo_receive (demo_env "hub") demo_node demo_claim).1 demo_given_up) demo_claim).2 = OutApplied.
Proof.
  split; [by vm_compute|].
  apply (transition_replays_across_peers String.string_of_list_byte (demo_env "hub") "spoke" demo_node demo_claim
    (Actions.demo_row "a" "pending" 5) demo_given_up (Actions.demo_row "a" "pending" 5)); try done.
Defined.

(** Bob's row, unsigned, that says it is attested. *)
Definition demo_pushed : Memory :=
  mkMemory "m1" None Mid "team" "t" "fact" [] 5 F64.f64_one "api" 0 "" "" None None
    (JObject [("agent_id", JString "ai:bob"); ("attest_level", JString "agent_attested")])
    0 KindObservation None None [] None None CallerProvided None None 1 LifeOpen.

Lemma inbound_row_honest_witness :
  ∃ row, prepare_inbound (demo_env "hub") false true (λ _, None) 3 demo_pushed = Ok (row, "ai:bob")
    ∧ row_is_agent_attested demo_pushed = true ∧ mem_lifecycle_state row = LifeQuarantined.
Proof.
  destruct (prepare_inbound (demo_env "hub") false true (λ _, None) 3 demo_pushed) as [[row agent]|] eqn:E;
    [|vm_compute in E; discriminate E].
  destruct (inbound_row_honest (demo_env "hub") false true (λ _, None) 3 demo_pushed row agent E) as (_ & _ & _ & Hatt & _ & Hq).
  assert (agent = "ai:bob") as -> by (apply (f_equal (λ r, match r with Ok x => snd x | Err _ => "" end)) in E; vm_compute in E; done).
  exists row. split; [done|]. split; [by vm_compute|]. apply (Hq eq_refl).
  destruct (row_is_agent_attested row); [|done]. destruct (Hatt eq_refl) as (pk & _ & _ & _ & Hpk & _). discriminate Hpk.
Defined.

(** Bob signs an update of a row that is here; his signature rides in the
    metadata and verifies under the key bound to him. *)
#[local] Existing Instance demo_serde.
#[local] Existing Instance demo_serde_laws.
#[local] Existing Instance Crdt.demo_chrono.

#[local] Instance demo_standard_codec : KeyBytes demo_attest_crypto := {
  key_to_bytes (k : bool) := demo_key_bytes k;
  key_from_bytes b := if decide (b = demo_key_bytes false) then Some false else None;
  b64_standard_decode s := Some (String.list_byte_of_string s)
}.

Definition demo_update (metadata : btree value) : Memory :=
  Crdt.demo_row "1700000000000" "three" None [] LifeOpen metadata.

Definition demo_write_signature : string :=
  match sign_write (mkKeypair "ai:bob" false (Some false)) (memory_signable (demo_update []) "ai:bob") with
  | Ok sig => String.string_of_list_byte sig
  | Err _ => ""
  end.

Definition demo_signed_update : Memory :=
  demo_update [("agent_id", JString "ai:bob"); ("write_signature", JString demo_write_signature)].

Definition demo_existing : Memory := Crdt.demo_row "1600000000000" "one" None [] LifeOpen [("agent_id", JString "ai:bob")].

Definition demo_bound (agent : string) : option string := Some (String.string_of_list_byte (demo_key_bytes false)).

Definition demo_attested : Memory :=
  match prepare_inbound (demo_env "hub") false false demo_bound 3 demo_signed_update with
  | Ok (row, _) => row
  | Err _ => demo_existing
  end.

Lemma demo_attested_ok : metadata_ok demo_attested.
Proof.
  split; [|by vm_compute]. unfold demo_attested.
  assert (mem_metadata demo_attested = JObject
    [("agent_id", JString "ai:bob"); ("attest_level", JString "agent_attested"); ("write_signature", JString demo_write_signature)])
    as E by by vm_compute.
  unfold demo_attested in E. rewrite E. apply json_wf_object. split; [by apply bwf_decide; vm_compute|by repeat constructor].
Qed.

Lemma verified_update_stays_claimed_witness :
  row_is_agent_attested demo_attested = true
  ∧ content_attested demo_bound "ai:bob" demo_signed_update
  ∧ mem_content (merge_inbound_existing demo_existing demo_attested "1700000000001") = "three"
  ∧ row_is_agent_attested (merge_inbound_existing demo_existing demo_attested "1700000000001") = false.
Proof.
  split; [by vm_compute|].
  apply (verified_update_stays_claimed (demo_env "hub") false false demo_bound 3 demo_signed_update demo_attested "ai:bob"
    demo_existing "1700000000001").
  - by vm_compute.
  - by vm_compute.
  - by vm_compute.
  - unfold demo_existing. demo_metadata.
  - apply demo_attested_ok.
  - by vm_compute.
  - by vm_compute.
Defined.
