(* ===== verification/Routines.v ===== *)
(** Routines: parameterised templates of actions and edges that are frozen,
    attested and run, the statements of [routines] and [routine_runs], and
    the materialisation of a template ([src/src/models/routine.rs],
    [src/src/routines/mod.rs], [substitute_placeholders] and
    [materialize_template] of [src/src/mcp/tools/routine.rs]). *)
From S2P Require Import Prelude.
From S2P Require Import Sql.
From S2P Require Import BTree.
From S2P Require Import Bytes.
From S2P Require Import Text.
From S2P Require Import Json.
From S2P Require Import Actions.
From S2P Require Import Memory.
From S2P Require Import Capability.
From S2P Require Import Ledger.
From S2P Require Import Attestation.
From stdpp Require Import pretty.

(* ------------------------------------------------------------------ *)
(** * Data: [models/routine.rs] *)

Inductive RoutineState : Type := Draft | Frozen.
Inductive RoutineRunState : Type := RunPending | Running | Completed | RunFailed.

#[global] Instance RoutineState_eq_dec : EqDecision RoutineState.
Proof. solve_decision. Defined.
#[global] Instance RoutineRunState_eq_dec : EqDecision RoutineRunState.
Proof. solve_decision. Defined.

Definition RoutineState_as_str (s : RoutineState) : string :=
  match s with Draft => "draft" | Frozen => "frozen" end.

Definition RoutineState_from_str (s : string) : option RoutineState :=
  if decide (s = "draft") then Some Draft
  else if decide (s = "frozen") then Some Frozen
  else None.

Definition RoutineRunState_as_str (s : RoutineRunState) : string :=
  match s with
  | RunPending => "pending"
  | Running => "running"
  | Completed => "completed"
  | RunFailed => "failed"
  end.

Definition RoutineRunState_from_str (s : string) : option RoutineRunState :=
  if decide (s = "pending") then Some RunPending
  else if decide (s = "running") then Some Running
  else if decide (s = "completed") then Some Completed
  else if decide (s = "failed") then Some RunFailed
  else None.

#[global] Instance RoutineState_wire : WireEnum RoutineState RoutineState_as_str RoutineState_from_str.
Proof. solve_wire_enum RoutineState_from_str. Qed.
#[global] Instance RoutineRunState_wire :
  WireEnum RoutineRunState RoutineRunState_as_str RoutineRunState_from_str.
Proof. solve_wire_enum RoutineRunState_from_str. Qed.

Record Routine : Type := mkRoutine {
  rt_id : string;
  rt_namespace : string;
  rt_name : string;
  rt_template : value;
  rt_parameters : value;
  rt_state : RoutineState;
  rt_created_by : string;
  rt_created_at : Z;
  rt_frozen_at : option Z;
  rt_signature : bytes;
  rt_signer_pubkey : bytes;
  rt_metadata : value
}.

Record RoutineRun : Type := mkRun {
  run_id : string;
  run_routine_id : string;
  run_namespace : string;
  run_arguments : value;
  run_state : RoutineRunState;
  run_created_action_ids : value;
  run_started_at : Z;
  run_finished_at : option Z;
  run_error : option string;
  run_metadata : value
}.

(** A row of [routines]; the attestation columns may be NULL. *)
Record routine_row : Type := mkRoutineRow {
  rr_id : string;
  rr_namespace : string;
  rr_name : string;
  rr_template : string;
  rr_parameters : string;
  rr_state : string;
  rr_created_by : string;
  rr_created_at : Z;
  rr_frozen_at : option Z;
  rr_signature : option bytes;
  rr_signer_pubkey : option bytes;
  rr_metadata : string
}.

(** A row of [routine_runs]. *)
Record run_row : Type := mkRunRow {
  ru_id : string;
  ru_routine_id : string;
  ru_namespace : string;
  ru_arguments : string;
  ru_state : string;
  ru_created_action_ids : string;
  ru_started_at : Z;
  ru_finished_at : option Z;
  ru_error : option string;
  ru_metadata : string
}.

Record RoutineDb : Type := mkRoutineDb {
  routines : gmap string routine_row;
  routine_runs : gmap string run_row
}.

Definition with_routines (db : RoutineDb) (t : gmap string routine_row) : RoutineDb := mkRoutineDb t (routine_runs db).
Definition with_runs (db : RoutineDb) (t : gmap string run_row) : RoutineDb := mkRoutineDb (routines db) t.

Definition with_freeze (sig pubkey : bytes) (r : Routine) : Routine :=
  mkRoutine (rt_id r) (rt_namespace r) (rt_name r) (rt_template r) (rt_parameters r) (rt_state r)
    (rt_created_by r) (rt_created_at r) (rt_frozen_at r) sig pubkey (rt_metadata r).

(** [UPDATE routines SET state, frozen_at]. *)
Definition set_frozen (frozen_at : Z) (r : routine_row) : routine_row :=
  mkRoutineRow (rr_id r) (rr_namespace r) (rr_name r) (rr_template r) (rr_parameters r) (RoutineState_as_str Frozen)
    (rr_created_by r) (rr_created_at r) (Some frozen_at) (rr_signature r) (rr_signer_pubkey r) (rr_metadata r).

(** [UPDATE routines SET signature, signer_pubkey]. *)
Definition set_signer (sig pubkey : bytes) (r : routine_row) : routine_row :=
  mkRoutineRow (rr_id r) (rr_namespace r) (rr_name r) (rr_template r) (rr_parameters r) (rr_state r)
    (rr_created_by r) (rr_created_at r) (rr_frozen_at r) (Some sig) (Some pubkey) (rr_metadata r).

(* ------------------------------------------------------------------ *)
(** * Operations: [routines/mod.rs] *)

Inductive FreezeError : Type := FreezeSignFailed (e : SignError).

Section with_libs.
Context {CC : CapCrypto} {LC : LedgerCrypto} {JC : JsonCodec}.

Definition json_sha256 (v : value) : bytes := sha256 (str_bytes (json_to_string v)).

Definition freeze_signable (r : Routine) (template_hash parameters_hash : bytes) : SignableRoutineFreeze :=
  mkSignableFreeze (rt_id r) (rt_namespace r) (rt_name r) template_hash parameters_hash
    (default 0%Z (rt_frozen_at r)).

#[global] Instance Routine_attested : Attested Routine := {
  att_payload r :=
    canonical_cbor_routine_freeze (freeze_signable r (json_sha256 (rt_template r)) (json_sha256 (rt_parameters r)));
  att_signature := rt_signature;
  att_pubkey := rt_signer_pubkey;
  att_put := with_freeze
}.

#[global] Instance Routine_attested_laws : AttestedLaws Routine.
Proof. by split. Qed.

Definition sign_freeze_into {KB : KeyBytes CC} (r : Routine) (keypair : AgentKeypair) : result Routine SignError :=
  sign_row r keypair.
Definition verify {KB : KeyBytes CC} (r : Routine) : bool := verify_row r.

Definition row_to_routine (r : routine_row) : Routine :=
  mkRoutine (rr_id r) (rr_namespace r) (rr_name r) (default JNull (json_from_str (rr_template r)))
    (default JNull (json_from_str (rr_parameters r))) (default Draft (RoutineState_from_str (rr_state r)))
    (rr_created_by r) (rr_created_at r) (rr_frozen_at r) (default [] (rr_signature r))
    (default [] (rr_signer_pubkey r)) (default JNull (json_from_str (rr_metadata r))).

(** The bound parameters of the [INSERT]. *)
Definition routine_to_row (r : Routine) : routine_row :=
  mkRoutineRow (rt_id r) (rt_namespace r) (rt_name r) (json_to_string (rt_template r))
    (json_to_string (rt_parameters r)) (RoutineState_as_str (rt_state r)) (rt_created_by r) (rt_created_at r)
    (rt_frozen_at r) (Some (rt_signature r)) (Some (rt_signer_pubkey r)) (json_to_string (rt_metadata r)).

Definition routine_insert (db : RoutineDb) (r : Routine) : result (RoutineDb * string) sql_error :=
  match routines db !! rt_id r with
  | Some _ => Err ConstraintPrimaryKey
  | None => Ok (with_routines db (<[rt_id r := routine_to_row r]> (routines db)), rt_id r)
  end.

Definition routine_get (db : RoutineDb) (id : string) : option Routine := row_to_routine <$> routines db !! id.

Definition routine_where (namespace : string) (state : option RoutineState) (r : routine_row) : bool :=
  bool_decide (rr_namespace r = namespace)
  && match state with Some st => bool_decide (rr_state r = RoutineState_as_str st) | None => true end.

Definition routine_list (db : RoutineDb) (namespace : string) (state : option RoutineState) (limit : Z) : list Routine :=
  row_to_routine <$>
    select (map_to_list (routines db)).*2 (routine_where namespace state) (desc rr_created_at) (limit_i64 limit).

(** [UPDATE .. WHERE id = ?3 AND state = 'draft'], the read back and, with a
    signing key, the attestation: three statements, each committed. *)
Definition freeze_draft (db : RoutineDb) (id : string) (frozen_at : Z) : RoutineDb :=
  match routines db !! id with
  | Some r =>
      if decide (rr_state r = RoutineState_as_str Draft)
      then with_routines db (<[id := set_frozen frozen_at r]> (routines db)) else db
  | None => db
  end.

Definition routine_freeze {KB : KeyBytes CC} (db : RoutineDb) (id : string) (frozen_at : Z)
    (keypair : option AgentKeypair) : RoutineDb * result (option Routine) FreezeError :=
  let db := freeze_draft db id frozen_at in
  match routine_get db id with
  | None => (db, Ok None)
  | Some routine =>
      match keypair with
      | Some kp =>
          if can_sign kp then
            match sign_freeze_into routine kp with
            | Err e => (db, Err (FreezeSignFailed e))
            | Ok routine =>
                (with_routines db
                   (alter (set_signer (rt_signature routine) (rt_signer_pubkey routine)) id (routines db)),
                 Ok (Some routine))
            end
          else (db, Ok (Some routine))
      | None => (db, Ok (Some routine))
      end
  end.

Definition row_to_routine_run (r : run_row) : RoutineRun :=
  mkRun (ru_id r) (ru_routine_id r) (ru_namespace r) (default JNull (json_from_str (ru_arguments r)))
    (default RunPending (RoutineRunState_from_str (ru_state r)))
    (default JNull (json_from_str (ru_created_action_ids r))) (ru_started_at r) (ru_finished_at r) (ru_error r)
    (default JNull (json_from_str (ru_metadata r))).

Definition run_to_row (r : RoutineRun) : run_row :=
  mkRunRow (run_id r) (run_routine_id r) (run_namespace r) (json_to_string (run_arguments r))
    (RoutineRunState_as_str (run_state r)) (json_to_string (run_created_action_ids r)) (run_started_at r)
    (run_finished_at r) (run_error r) (json_to_string (run_metadata r)).

Definition run_insert (db : RoutineDb) (run : RoutineRun) : result (RoutineDb * string) sql_error :=
  match routine_runs db !! run_id run with
  | Some _ => Err ConstraintPrimaryKey
  | None =>
      if is_some (routines db !! run_routine_id run)
      then Ok (with_runs db (<[run_id run := run_to_row run]> (routine_runs db)), run_id run)
      else Err ConstraintForeignKey
  end.

Definition run_get (db : RoutineDb) (id : string) : option RoutineRun := row_to_routine_run <$> routine_runs db !! id.

Definition runs_for (db : RoutineDb) (routine_id : string) (limit : Z) : list RoutineRun :=
  row_to_routine_run <$>
    select (map_to_list (routine_runs db)).*2 (λ r, bool_decide (ru_routine_id r = routine_id))
      (desc ru_started_at) (limit_i64 limit).

(** [COALESCE(new, old)]. *)
Definition coalesce {A} (new old : option A) : option A := match new with Some a => Some a | None => old end.

Definition set_run_state (state : RoutineRunState) (finished_at : option Z) (action_ids_json error : option string)
    (r : run_row) : run_row :=
  mkRunRow (ru_id r) (ru_routine_id r) (ru_namespace r) (ru_arguments r) (RoutineRunState_as_str state)
    (default (ru_created_action_ids r) action_ids_json) (ru_started_at r)
    (coalesce finished_at (ru_finished_at r)) (coalesce error (ru_error r)) (ru_metadata r).

Definition run_set_state (db : RoutineDb) (id : string) (state : RoutineRunState) (finished_at : option Z)
    (created_action_ids : option value) (error : option string) : RoutineDb * option RoutineRun :=
  match routine_runs db !! id with
  | None => (db, None)
  | Some r =>
      let r := set_run_state state finished_at (json_to_string <$> created_action_ids) error r in
      (with_runs db (<[id := r]> (routine_runs db)), Some (row_to_routine_run r))
  end.
End with_libs.

(* ------------------------------------------------------------------ *)
(** * Templates: [mcp/tools/routine.rs] *)

(** [format!("{{{{{key}}}}}")] *)
Definition placeholder (key : string) : string := "{{" +:+ key +:+ "}}".

(** The text of an error of the store. *)
Class SqlDisplay : Type := sql_display : sql_error → string.

Section templates.
Context {JC : JsonCodec}.

Definition replacement (val : value) : string :=
  match val with JString sv => sv | other => json_to_string other end.

Definition substitute_one (out : string) (arg : string * value) : string :=
  let needle := placeholder (fst arg) in
  if str_contains needle out then str_replace needle (replacement (snd arg)) out else out.

(** One pass per argument, in the order of the sorted map, over the result of
    the passes before. *)
Definition substitute_str (s : string) (arguments : btree value) : string :=
  fold_left substitute_one arguments s.

(** The copy of an object has its keys, in its order. *)
Fixpoint substitute_placeholders (v : value) (arguments : btree value) : value :=
  match v with
  | JString s => JString (substitute_str s arguments)
  | JArray arr =>
      JArray ((fix go l := match l with [] => [] | e :: l => substitute_placeholders e arguments :: go l end) arr)
  | JObject m =>
      JObject ((fix go (m : btree value) := match m with
                | [] => []
                | (k, v) :: m => (k, substitute_placeholders v arguments) :: go m
                end) m)
  | other => other
  end.

Context {SD : SqlDisplay}.

Definition lift_sql {A} (r : result A sql_error) : result A string :=
  match r with Ok a => Ok a | Err e => Err (sql_display e) end.

Definition substituted (raw : string) (arguments : btree value) : string :=
  match substitute_placeholders (JString raw) arguments with JString s => s | _ => raw end.

(** The action an element of the template declares. *)
Definition template_action (uuid : string) (routine : Routine) (arguments : btree value) (now : Z) (i : nat)
    (spec : value) : result Action string :=
  let? spec_obj := ok_or (json_as_object spec) ("template action [" +:+ pretty i +:+ "] must be an object") in
  let? kind_raw := ok_or (bget "kind" spec_obj ≫= json_as_str)
                     ("template action [" +:+ pretty i +:+ "] is missing a string `kind`") in
  let? title_raw := ok_or (bget "title" spec_obj ≫= json_as_str)
                      ("template action [" +:+ pretty i +:+ "] is missing a string `title`") in
  let payload := match bget "payload" spec_obj with
                 | Some p => substitute_placeholders p arguments
                 | None => JObject []
                 end in
  let priority := default 0%Z (bget "priority" spec_obj ≫= json_as_i64) in
  Ok (mkAction uuid (rt_namespace routine) (substituted kind_raw arguments) Pending
        (substituted title_raw arguments) payload priority (Some (rt_created_by routine)) None (JObject []) (JObject [])
        now now).

(** The loop over the actions; what was created stays when a later one
    fails. [uuid] gives the identifiers drawn. *)
Fixpoint create_actions (uuid : nat → string) (routine : Routine) (arguments : btree value) (now : Z) (i : nat)
    (specs : list value) (db : coord_db) (created : list string) : coord_db * result (list string) string :=
  match specs with
  | [] => (db, Ok created)
  | spec :: specs =>
      match template_action (uuid i) routine arguments now i spec with
      | Err e => (db, Err e)
      | Ok action =>
          match lift_sql (create db action) with
          | Err e => (db, Err e)
          | Ok (db, _) =>
              create_actions uuid routine arguments now (S i) specs db (created ++ [act_id action])
          end
      end
  end.

(** [usize::try_from] cannot fail; an index beyond the list is out of range. *)
Definition created_at_index (created : list string) (idx : Z) : option string := created !! Z.to_nat idx.

Definition template_edge (created : list string) (i : nat) (spec : value) :
    result (string * string * EdgeType) string :=
  let label := "template edge [" +:+ pretty i +:+ "]" in
  let? spec_obj := ok_or (json_as_object spec) (label +:+ " must be an object") in
  let? from_idx := ok_or (bget "from" spec_obj ≫= json_as_u64) (label +:+ " needs a numeric `from` index") in
  let? to_idx := ok_or (bget "to" spec_obj ≫= json_as_u64) (label +:+ " needs a numeric `to` index") in
  let? from_id := ok_or (created_at_index created from_idx)
                    (label +:+ " `from` index " +:+ pretty from_idx +:+ " out of range") in
  let? to_id := ok_or (created_at_index created to_idx)
                  (label +:+ " `to` index " +:+ pretty to_idx +:+ " out of range") in
  let edge_type := default Sibling ((bget "type" spec_obj ≫= json_as_str) ≫= EdgeType.from_str) in
  Ok (from_id, to_id, edge_type).

Fixpoint add_edges (created : list string) (now : Z) (i : nat) (specs : list value) (db : coord_db) :
    coord_db * result (list string) string :=
  match specs with
  | [] => (db, Ok created)
  | spec :: specs =>
      match template_edge created i spec with
      | Err e => (db, Err e)
      | Ok (from_id, to_id, ty) =>
          match lift_sql (add_edge db from_id to_id ty now) with
          | Err e => (db, Err e)
          | Ok db => add_edges created now (S i) specs db
          end
      end
  end.

Definition materialize_template (uuid : nat → string) (db : coord_db) (routine : Routine) (arguments : btree value)
    (now : Z) : coord_db * result (list string) string :=
  match json_as_object (rt_template routine) with
  | None => (db, Err "routine template must be a JSON object")
  | Some template =>
      let '(db, created) :=
        match bget "actions" template with
        | None => (db, Ok [])
        | Some actions_val =>
            match json_as_array actions_val with
            | None => (db, Err "template `actions` must be an array")
            | Some actions => create_actions uuid routine arguments now 0 actions db []
            end
        end in
      match created with
      | Err e => (db, Err e)
      | Ok created_ids =>
          match bget "edges" template with
          | None => (db, Ok created_ids)
          | Some edges_val =>
              match json_as_array edges_val with
              | None => (db, Err "template `edges` must be an array")
              | Some edges => add_edges created_ids now 0 edges db
              end
          end
      end
  end.
End templates.

(* ------------------------------------------------------------------ *)
(** * Substitution *)

Definition lbrace : ascii := Ascii.ascii_of_N 123.
Definition rbrace : ascii := Ascii.ascii_of_N 125.

(** A template string as it is meant: text and named holes. *)
Inductive seg : Type := Lit (s : string) | Hole (k : string).

Definition brace_free (s : string) : Prop := str_contains_char lbrace s = false ∧ str_contains_char rbrace s = false.
Definition seg_ok (x : seg) : Prop := match x with Lit s => brace_free s | Hole k => brace_free k end.

Definition fill_seg (lookup : string → option string) (x : seg) : string :=
  match x with Lit s => s | Hole k => default (placeholder k) (lookup k) end.

(** The string with every hole the lookup knows filled, all at once. *)
Definition fill (lookup : string → option string) (l : list seg) : string :=
  foldr (λ x s, fill_seg lookup x +:+ s) "" l.

Definition fill1 (k v : string) (x : seg) : seg :=
  match x with Hole j => if decide (j = k) then Lit v else x | Lit s => x end.

Section substitution.
Context {JC : JsonCodec}.

Abbreviation render := (fill (λ _, None)).

(** Two names closed by a brace start alike only when they are the same. *)
Lemma starts_with_name k j s :
  brace_free k → brace_free j → starts_with (k +:+ "}}") (j +:+ "}}" +:+ s) = true → k = j.
Proof.
  revert j. induction k as [|c k IH]; intros [|d j] [Hk1 Hk2] [Hj1 Hj2]; [done|..].
  - change (starts_with (String rbrace (String rbrace "")) (String d (j +:+ "}}" +:+ s)) = true → "" = String d j).
    cbn [starts_with str_contains_char] in *. apply orb_false_iff in Hj2 as [Hd%bool_decide_eq_false _].
    rewrite andb_true_iff, bool_decide_eq_true. intros [E _]. by destruct Hd.
  - change (starts_with (String c (k +:+ "}}")) (String rbrace (String rbrace s)) = true → String c k = "").
    cbn [starts_with str_contains_char] in *. apply orb_false_iff in Hk2 as [Hd%bool_decide_eq_false _].
    rewrite andb_true_iff, bool_decide_eq_true. intros [E _]. by destruct Hd.
  - rewrite !str_app_cons. cbn [starts_with str_contains_char String.append] in *.
    rewrite andb_true_iff, bool_decide_eq_true. intros [-> Hs].
    apply orb_false_iff in Hk1 as [_ Hk1], Hk2 as [_ Hk2], Hj1 as [_ Hj1], Hj2 as [_ Hj2].
    f_equal. by apply IH.
Qed.

Lemma placeholder_cons k : placeholder k = String lbrace (String lbrace (k +:+ "}}")).
Proof. done. Qed.

Lemma replace_text k v a s :
  brace_free a → str_replace (placeholder k) v (a +:+ s) = (a +:+ str_replace (placeholder k) v s).
Proof. intros [Ha _]. by apply (str_replace_literal lbrace). Qed.

(** Another hole is copied. *)
Lemma replace_other_hole k j v s :
  brace_free k → brace_free j → k ≠ j →
  str_replace (placeholder k) v (placeholder j +:+ s) = (placeholder j +:+ str_replace (placeholder k) v s).
Proof.
  intros Hk Hj Hne. rewrite !placeholder_cons, !str_app_cons, <-!str_app_assoc.
  assert (∀ p t, starts_with (String lbrace p) (String lbrace t) = starts_with p t) as H1
    by (intros p t; cbn [starts_with]; by rewrite bool_decide_true).
  rewrite str_replace_no_match.
  2: { rewrite !H1. apply not_true_iff_false. intros E. by apply starts_with_name in E. }
  rewrite str_replace_no_match.
  2: { rewrite H1. destruct Hj as [Hj _], j as [|c j]; [done|]. rewrite str_app_cons.
       cbn [starts_with str_contains_char] in *. apply orb_false_iff in Hj as [Hc%bool_decide_eq_false _].
       by rewrite bool_decide_false. }
  rewrite str_replace_literal by apply Hj. do 3 f_equal.
Qed.

(** One argument fills its holes and touches nothing else. *)
Lemma substitute_one_spec segs k val :
  Forall seg_ok segs → brace_free k →
  substitute_one (render segs) (k, val) = render (fill1 k (replacement val) <$> segs).
Proof.
  intros Hsegs Hk. unfold substitute_one. simpl.
  transitivity (str_replace (placeholder k) (replacement val) (render segs)).
  { destruct (str_contains _ _) eqn:E; [done|]. by rewrite str_replace_absent. }
  induction Hsegs as [|x segs Hx _ IH]; [done|]. rewrite fmap_cons. cbn [fill foldr].
  change (foldr _ "" ?l) with (render l). destruct x as [s|j]; simpl.
  - rewrite replace_text by done. by rewrite IH.
  - case_decide as Hj; subst; simpl.
    + rewrite str_replace_match by done. by rewrite IH.
    + rewrite replace_other_hole by (try done; congruence). by rewrite IH.
Qed.

Lemma fill1_ok k v x : brace_free v → seg_ok x → seg_ok (fill1 k v x).
Proof. destruct x; simpl; [done|]. by case_decide. Qed.

(** Substitution fills a template's holes with their arguments, all at
    once: when neither the template's text, nor the argument names, nor the
    values carry a brace, the pass per argument in map order computes the
    simultaneous substitution, unknown holes left verbatim. *)
Lemma substitution_exact segs arguments :
  Forall seg_ok segs → Forall (λ kv : string * value, brace_free kv.1 ∧ brace_free (replacement kv.2)) arguments →
  substitute_str (render segs) arguments = fill (λ k, replacement <$> bget k arguments) segs.
Proof.
  intros Hsegs Hargs. unfold substitute_str. revert segs Hsegs.
  induction Hargs as [|[k val] args [Hk Hv] _ IH]; intros segs Hsegs; [done|]. simpl in Hk, Hv.
  cbn [fold_left]. rewrite substitute_one_spec by done. rewrite IH.
  - clear. induction segs as [|x segs IH]; [done|]. rewrite fmap_cons. cbn [fill foldr].
    change (foldr (λ x s, fill_seg ?f x +:+ s) "" ?l) with (fill f l). f_equal; [|exact IH].
    destruct x as [s|j]; simpl; [done|]. repeat case_decide; subst; simpl; try done.
  - apply Forall_fmap. eapply Forall_impl; [exact Hsegs|]. intros x Hx. by apply fill1_ok.
Qed.
End substitution.

(** A value that names a later argument is substituted again. *)
Example substitution_reinjects {JC : JsonCodec} :
  substitute_str "{{a}}" [("a", JString "{{b}}"); ("b", JString "X")] = "X"
  ∧ substitute_str "{{b}}" [("a", JString "X"); ("b", JString "{{a}}")] = "{{a}}".
Proof. split; reflexivity. Qed.

(* ------------------------------------------------------------------ *)
(** * Freezing *)

Section freezing.
Context {CC : CapCrypto} {LC : LedgerCrypto} {JC : JsonCodec} {KB : KeyBytes CC}.

(** One operation on the two tables. *)
Inductive routine_step (db : RoutineDb) : RoutineDb → Prop :=
| step_insert r db' id : routine_insert db r = Ok (db', id) → routine_step db db'
| step_freeze id at_ kp : routine_step db (routine_freeze db id at_ kp).1
| step_run_insert r db' id : run_insert db r = Ok (db', id) → routine_step db db'
| step_run_state id st fin ids err : routine_step db (run_set_state db id st fin ids err).1.

Definition is_frozen (r : routine_row) : Prop := rr_state r = RoutineState_as_str Frozen.

(** The same row, attestation aside. *)
Definition same_but_signer (r r' : routine_row) : Prop :=
  r' = mkRoutineRow (rr_id r) (rr_namespace r) (rr_name r) (rr_template r) (rr_parameters r) (rr_state r)
         (rr_created_by r) (rr_created_at r) (rr_frozen_at r) (rr_signature r') (rr_signer_pubkey r') (rr_metadata r).

Lemma same_refl r : same_but_signer r r.
Proof. by destruct r. Qed.
Lemma same_trans a b c : same_but_signer a b → same_but_signer b c → same_but_signer a c.
Proof. unfold same_but_signer. intros -> ->. done. Qed.
Lemma same_signer sig pk r : same_but_signer r (set_signer sig pk r).
Proof. done. Qed.
Lemma same_payload r r' : same_but_signer r r' → att_payload (row_to_routine r') = att_payload (row_to_routine r).
Proof. unfold same_but_signer. intros ->. done. Qed.

Lemma freeze_draft_lookup db id at_ j :
  routines (freeze_draft db id at_) !! j =
  (λ r, if decide (j = id ∧ rr_state r = RoutineState_as_str Draft) then set_frozen at_ r else r)
    <$> routines db !! j.
Proof.
  unfold freeze_draft. destruct (decide (j = id)) as [->|Hj].
  - destruct (routines db !! id) as [r|] eqn:Hr; [|by rewrite Hr]. case_decide as Hd; simpl.
    + rewrite lookup_insert_eq. by rewrite decide_True.
    + rewrite Hr. simpl. rewrite decide_False; [done|naive_solver].
  - transitivity (routines db !! j).
    + destruct (routines db !! id); [|done]. case_decide; [|done]. simpl. by rewrite lookup_insert_ne.
    + destruct (routines db !! j) as [r|]; [|done]. simpl. rewrite decide_False; [done|naive_solver].
Qed.

(** [routine_freeze] by cases: no such routine; unsigned; a failed signature;
    signed. *)
Lemma routine_freeze_cases db id at_ kp :
  match routines db !! id with
  | None => routine_freeze db id at_ kp = (freeze_draft db id at_, Ok None)
  | Some r =>
      let r1 := if decide (rr_state r = RoutineState_as_str Draft) then set_frozen at_ r else r in
      ((∀ k, kp = Some k → can_sign k = false)
       ∧ routine_freeze db id at_ kp = (freeze_draft db id at_, Ok (Some (row_to_routine r1))))
      ∨ ∃ k, kp = Some k ∧ can_sign k = true ∧
          match sign_freeze_into (row_to_routine r1) k with
          | Err e => routine_freeze db id at_ kp = (freeze_draft db id at_, Err (FreezeSignFailed e))
          | Ok t =>
              routine_freeze db id at_ kp =
                (with_routines (freeze_draft db id at_)
                   (<[id := set_signer (rt_signature t) (rt_signer_pubkey t) r1]> (routines (freeze_draft db id at_))),
                 Ok (Some t))
          end
  end.
Proof.
  pose proof (freeze_draft_lookup db id at_ id) as Hl.
  destruct (routines db !! id) as [r|] eqn:Hr; cbn [fmap option_fmap option_map] in Hl;
    unfold routine_freeze, routine_get; cbv zeta; rewrite Hl; [|done].
  cbn [fmap option_fmap option_map].
  replace (if decide (id = id ∧ rr_state r = RoutineState_as_str Draft) then set_frozen at_ r else r)
    with (if decide (rr_state r = RoutineState_as_str Draft) then set_frozen at_ r else r) in Hl |- *
    by (repeat case_decide; naive_solver).
  set (r1 := if decide _ then _ else r) in *. destruct kp as [k|]; [|left; split; [by intros ? [=]|done]].
  destruct (can_sign k) eqn:Hk; [|left; split; [by intros ? [= <-]|done]].
  right. exists k. split_and!; [done..|]. destruct (sign_freeze_into (row_to_routine r1) k); [|done].
  f_equal. f_equal. apply map_eq. intros j. destruct (decide (j = id)) as [->|Hj].
  - rewrite lookup_alter_eq, lookup_insert_eq, Hl. done.
  - by rewrite lookup_alter_ne, lookup_insert_ne.
Qed.

(** What a freeze does to a row: nothing, unless it is the one named. *)
Lemma routine_freeze_row db id at_ kp j r :
  routines db !! j = Some r →
  ∃ r', routines (routine_freeze db id at_ kp).1 !! j = Some r'
    ∧ (is_frozen r → same_but_signer r r') ∧ (j ≠ id → r' = r).
Proof.
  intros Hj. pose proof (routine_freeze_cases db id at_ kp) as Hc. pose proof (freeze_draft_lookup db id at_ j) as Hl.
  rewrite Hj in Hl. cbn [fmap option_fmap option_map] in Hl. set (r' := if decide _ then _ else r) in Hl.
  assert (is_frozen r → r' = r) as Hfr.
  { unfold r', is_frozen. intros E. rewrite decide_False; [done|]. rewrite E. by intros [_ ?]. }
  assert (j ≠ id → r' = r) as Hne by (unfold r'; intros ?; rewrite decide_False; [done|naive_solver]).
  assert (∃ r2, routines (freeze_draft db id at_) !! j = Some r2 ∧ (is_frozen r → same_but_signer r r2) ∧ (j ≠ id → r2 = r))
    as Hunsigned.
  { exists r'. split_and!; [done| |done]. intros Hf. rewrite Hfr by done. apply same_refl. }
  destruct (routines db !! id) as [q|] eqn:Hq; [|by rewrite Hc].
  destruct Hc as [[_ ->]|(k & -> & _ & Hc)]; [done|].
  destruct (sign_freeze_into _ k) as [t|e]; rewrite Hc; [|done]. simpl.
  destruct (decide (j = id)) as [->|Hji]; [|rewrite lookup_insert_ne by done; eauto].
  rewrite lookup_insert_eq. simplify_eq. eexists. split_and!; [done| |done]. intros Hf.
  rewrite decide_False by (rewrite Hf; done). apply same_signer.
Qed.

Lemma step_frozen db db' id r :
  routine_step db db' → routines db !! id = Some r → is_frozen r →
  ∃ r', routines db' !! id = Some r' ∧ same_but_signer r r'.
Proof.
  intros [q ? i H|i at_ kp|q ? i H|i st fin ids err] Hr Hf.
  - unfold routine_insert in H. destruct (routines db !! rt_id q) eqn:E; [done|]. injection H as <- <-. simpl.
    exists r. rewrite lookup_insert_ne by congruence. eauto using same_refl.
  - destruct (routine_freeze_row db i at_ kp id r Hr) as (r' & ? & H & _). eauto.
  - unfold run_insert in H. destruct (routine_runs db !! run_id q); [done|].
    destruct (is_some _); [|done]. injection H as <- <-. eauto using same_refl.
  - exists r. unfold run_set_state. destruct (routine_runs db !! i); eauto using same_refl.
Qed.

(** A frozen routine is immutable: whatever is created, frozen, run and
    recorded, its identity, its template, its parameters, its state and its
    freeze time stay, and so do the bytes its attestation commits to; only
    the attestation itself may be replaced. *)
Lemma frozen_is_immutable db db' id r :
  rtc routine_step db db' → routines db !! id = Some r → is_frozen r →
  ∃ r', routines db' !! id = Some r' ∧ is_frozen r' ∧ same_but_signer r r'
    ∧ att_payload (row_to_routine r') = att_payload (row_to_routine r).
Proof.
  intros Hs Hr Hf.
  assert (∃ r', routines db' !! id = Some r' ∧ same_but_signer r r') as (r' & Hr' & Hsame).
  { revert r Hr Hf. induction Hs as [|db1 db2 db3 Hs _ IH]; intros r Hr Hf; [eauto using same_refl|].
    destruct (step_frozen _ _ _ _ Hs Hr Hf) as (r2 & Hr2 & H2).
    destruct (IH r2 Hr2) as (r3 & ? & ?); [by rewrite H2|]. eauto using same_trans. }
  exists r'. split_and!; [done|by rewrite Hsame|done|by apply same_payload].
Qed.

(** A freeze by a keyholder attests the template: a draft becomes frozen
    at that time, a frozen routine keeps its time, the answer is the stored
    row and its attestation verifies under the freezer's key. *)
Lemma freeze_attests `{!CapCryptoLaws CC} {KL : KeyBytesLaws KB} db id r at_ kp k b :
  routines db !! id = Some r → (rr_state r = RoutineState_as_str Draft ∨ is_frozen r) →
  keypair_wf kp → kp_private kp = Some k →
  let at' := if decide (rr_state r = RoutineState_as_str Draft) then Some at_ else rr_frozen_at r in
  canonical_cbor_routine_freeze
    (mkSignableFreeze (rr_id r) (rr_namespace r) (rr_name r) (json_sha256 (rt_template (row_to_routine r)))
       (json_sha256 (rt_parameters (row_to_routine r))) (default 0%Z at')) = Some b →
  ∃ db' t, routine_freeze db id at_ (Some kp) = (db', Ok (Some t))
    ∧ routine_get db' id = Some t ∧ verify t = true ∧ rt_state t = Frozen ∧ rt_frozen_at t = at'
    ∧ rt_template t = rt_template (row_to_routine r) ∧ rt_signer_pubkey t = key_to_bytes (kp_public kp).
Proof.
  intros Hr Hst Hwf Hk at' Hb. pose proof (routine_freeze_cases db id at_ (Some kp)) as Hc. rewrite Hr in Hc.
  cbv zeta in Hc. set (r1 := if decide _ then _ else r) in Hc.
  assert (att_payload (row_to_routine r1) = Some b) as Hp.
  { rewrite <-Hb. unfold at', r1. by case_decide. }
  destruct Hc as [[Hno _]|(k' & [= <-] & _ & Hc)].
  { specialize (Hno kp eq_refl). unfold can_sign in Hno. by rewrite Hk in Hno. }
  destruct (sign_freeze_into (row_to_routine r1) kp) as [t|e] eqn:Hs;
    [|unfold sign_freeze_into, sign_row, sign_payload in Hs; by rewrite Hk, Hp in Hs].
  do 2 eexists. split; [exact Hc|]. pose proof (sign_row_verifies _ _ _ Hwf Hs) as Hv.
  apply sign_row_Ok in Hs as (k' & p & _ & _ & ->). unfold routine_get. simpl routines. rewrite lookup_insert_eq.
  split; [done|]. split; [done|]. clear -Hst. unfold at', r1, is_frozen in *.
  case_decide as Hd; split_and!; try done. destruct Hst as [?|E]; [done|]. simpl. by rewrite E.
Qed.
End freezing.

(* ------------------------------------------------------------------ *)
(** * Materialisation *)

Section materialisation.
Context {JC : JsonCodec} {SD : SqlDisplay}.

(** What the first [n] elements of a template leave in the table, starting at
    index [i]. *)
Definition created_rows (uuid : nat → string) (rt : Routine) (args : btree value) (now : Z) (i n : nat)
    (specs : list value) (db db' : coord_db) : Prop :=
  (∀ j spec, j < n → specs !! j = Some spec →
     ∃ a, template_action (uuid (i + j)) rt args now (i + j) spec = Ok a
       ∧ actions db !! uuid (i + j) = None ∧ actions db' !! uuid (i + j) = Some (action_to_row a))
  ∧ NoDup (uuid <$> seq i n)
  ∧ (∀ id, id ∉ uuid <$> seq i n → actions db' !! id = actions db !! id)
  ∧ leases db' = leases db.

Lemma template_action_id uuid rt args now i spec a : template_action uuid rt args now i spec = Ok a → act_id a = uuid.
Proof.
  unfold template_action. destruct (json_as_object spec) as [o|]; [|done]. simpl.
  destruct (bget "kind" o ≫= json_as_str); [|done]. simpl.
  destruct (bget "title" o ≫= json_as_str); [|done]. simpl. by intros [= <-].
Qed.

Lemma create_actions_spec uuid rt args now i specs db created db' res :
  create_actions uuid rt args now i specs db created = (db', res) →
  action_edges db' = action_edges db ∧
  ∃ n, n ≤ length specs ∧ created_rows uuid rt args now i n specs db db' ∧
    match res with
    | Ok created' => n = length specs ∧ created' = created ++ (uuid <$> seq i n)
    | Err _ => ∃ spec, specs !! n = Some spec ∧
        ((∃ e, template_action (uuid (i + n)) rt args now (i + n) spec = Err e) ∨ is_Some (actions db' !! uuid (i + n)))
    end.
Proof.
  revert i db created. induction specs as [|spec specs IH]; intros i db created E; cbn [create_actions] in E.
  { injection E as <- <-. split; [done|]. exists 0. split_and!; simpl; try done; [|by rewrite app_nil_r].
    split_and!; [lia|constructor|done|done]. }
  assert (∀ e, ((∃ e', template_action (uuid i) rt args now i spec = Err e') ∨ is_Some (actions db !! uuid i)) →
    (db, Err e) = (db', res) → action_edges db' = action_edges db ∧
    ∃ n, n ≤ length (spec :: specs) ∧ created_rows uuid rt args now i n (spec :: specs) db db' ∧
    match res with
    | Ok c => n = length (spec :: specs) ∧ c = created ++ (uuid <$> seq i n)
    | Err _ => ∃ spec', (spec :: specs) !! n = Some spec' ∧
        ((∃ e', template_action (uuid (i + n)) rt args now (i + n) spec' = Err e') ∨ is_Some (actions db' !! uuid (i + n)))
    end) as Hstop.
  { intros e Hbad [= <- <-]. split; [done|]. exists 0. rewrite Nat.add_0_r. simpl. split_and!; [lia| |eauto].
    split_and!; [lia|constructor|done|done]. }
  destruct (template_action (uuid i) rt args now i spec) as [a|e] eqn:Ha; [|eapply Hstop; eauto].
  pose proof (template_action_id _ _ _ _ _ _ _ Ha) as Hid.
  unfold create in E. rewrite Hid in E. destruct (actions db !! uuid i) eqn:Hfresh; simpl in E; [eapply Hstop; eauto|].
  apply IH in E as (Hedges & n & Hn & (Hrows & Hnd & Hrest & Hl) & Hres). clear IH Hstop. simpl in *.
  assert (∀ j spec0, j < n → specs !! j = Some spec0 → uuid (S (i + j)) ≠ uuid i) as Hne.
  { intros j spec0 Hj Hs Eq. destruct (Hrows j spec0 Hj Hs) as (b & _ & Hnone & _).
    rewrite Eq, lookup_insert_eq in Hnone. done. }
  assert (uuid i ∉ uuid <$> seq (S i) n) as Hnin.
  { intros (x & Ex & Hx)%list_elem_of_fmap. apply elem_of_seq in Hx.
    destruct (lookup_lt_is_Some_2 specs (x - S i)) as [s0 Hs0]; [lia|].
    apply (Hne (x - S i) s0); [lia|done|]. by replace (S (i + (x - S i))) with x by lia. }
  split; [done|]. exists (S n). split_and!; [lia| |].
  - split_and!.
    + intros [|j] spec0 Hj Hs; simpl in Hs.
      * injection Hs as <-. rewrite Nat.add_0_r. exists a. split_and!; [done..|].
        by rewrite Hrest, lookup_insert_eq.
      * destruct (Hrows j spec0 ltac:(lia) Hs) as (b & Hb & Hnone & Hb').
        rewrite Nat.add_succ_r. exists b. split_and!; [done| |done].
        by rewrite lookup_insert_ne in Hnone by (intros Eq; by apply (Hne j spec0); [lia|..]).
    + simpl. by constructor.
    + intros id Hnot. simpl in Hnot. apply not_elem_of_cons in Hnot as [Hid1 Hid2].
      rewrite Hrest by done. by rewrite lookup_insert_ne.
    + done.
  - destruct res as [created'|].
    + destruct Hres as [-> ->]. split; [done|]. by rewrite <-app_assoc.
    + rewrite Nat.add_succ_r. exact Hres.
Qed.

Lemma add_edges_spec created now i specs db db' res :
  add_edges created now i specs db = (db', res) →
  actions db' = actions db ∧ leases db' = leases db ∧
  match res with
  | Ok ids => ids = created ∧ ∀ key, is_Some (action_edges db' !! key) ↔
      is_Some (action_edges db !! key) ∨
      ∃ j spec f t ty, specs !! j = Some spec ∧ template_edge created (i + j) spec = Ok (f, t, ty)
        ∧ key = (f, t, EdgeType.as_str ty)
  | Err _ => True
  end.
Proof.
  revert i db. induction specs as [|spec specs IH]; intros i db E; cbn [add_edges] in E.
  { injection E as <- <-. split_and!; [done..|]. intros key. split; [auto|]. intros [?|(?&?&?&?&?&?&_)]; done. }
  destruct (template_edge created i spec) as [[[f t] ty]|e] eqn:He; [|by injection E as <- <-].
  unfold add_edge in E. set (key0 := (f, t, EdgeType.as_str ty)) in *.
  assert ((∃ db1, add_edges created now (S i) specs db1 = (db', res) ∧ actions db1 = actions db ∧ leases db1 = leases db
    ∧ (∀ key, is_Some (action_edges db1 !! key) ↔ is_Some (action_edges db !! key) ∨ key = key0))
    ∨ ∃ e, (db, Err e) = (db', res)) as Hcase.
  { destruct (action_edges db !! key0) eqn:Hk; simpl in E.
    - left. exists db. split_and!; try done. intros key. split; [auto|]. intros [?| ->]; [done|]. by rewrite Hk.
    - destruct (is_some _ && is_some _); simpl in E; [|right; eauto].
      left. eexists. split_and!; [exact E|done|done|]. intros key. simpl. rewrite lookup_insert_is_Some'. naive_solver. }
  destruct Hcase as [(db1 & E1 & Ha & Hl & Hedges)|[e [= <- <-]]]; [|done].
  apply IH in E1 as (Ha1 & Hl1 & Hres). split_and!; [congruence..|].
  destruct res as [ids|]; [|done]. destruct Hres as [-> Hres]. split; [done|]. intros key. rewrite Hres, Hedges.
  split.
  - intros [[?| ->]|(j & s0 & f0 & t0 & ty0 & Hj & Hs & ->)]; [by left|right|right].
    + exists 0, spec, f, t, ty. rewrite Nat.add_0_r. done.
    + exists (S j), s0, f0, t0, ty0. rewrite Nat.add_succ_r. done.
  - intros [?|([|j] & s0 & f0 & t0 & ty0 & Hj & Hs & ->)]; [auto|..]; simpl in Hj.
    + injection Hj as <-. rewrite Nat.add_0_r, He in Hs. injection Hs as <- <- <-. auto.
    + right. exists j, s0, f0, t0, ty0. rewrite Nat.add_succ_r in Hs. done.
Qed.

(** The lists a template declares. *)
Definition declared (key : string) (template : btree value) : list value :=
  default [] (bget key template ≫= json_as_array).

(** A run that succeeds has materialised its template exactly: one new
    pending action per element, under the identifier drawn for it, as the
    element and the arguments say, in template order; one edge per declared
    edge between them; and nothing else in the tables has changed. *)
Lemma materialised_exactly uuid db rt args now db' ids :
  materialize_template uuid db rt args now = (db', Ok ids) →
  ∃ template, rt_template rt = JObject template
    ∧ let specs := declared "actions" template in
      ids = uuid <$> seq 0 (length specs)
      ∧ created_rows uuid rt args now 0 (length specs) specs db db'
      ∧ ∀ key, is_Some (action_edges db' !! key) ↔
          is_Some (action_edges db !! key) ∨
          ∃ j spec f t ty, declared "edges" template !! j = Some spec ∧ template_edge ids j spec = Ok (f, t, ty)
            ∧ key = (f, t, EdgeType.as_str ty).
Proof.
  unfold materialize_template. destruct (rt_template rt) as [| | | | |template] eqn:Ht; try done.
  simpl json_as_object. cbv iota. intros E. exists template. split; [done|]. unfold declared.
  assert (∃ specs db1 created, default [] (bget "actions" template ≫= json_as_array) = specs
    ∧ create_actions uuid rt args now 0 specs db [] = (db1, Ok created)
    ∧ match bget "edges" template with
      | None => (db1, Ok created)
      | Some edges_val =>
          match json_as_array edges_val with
          | None => (db1, Err "template `edges` must be an array")
          | Some edges => add_edges created now 0 edges db1
          end
      end = (db', Ok ids)) as (specs & db1 & created & -> & Hc & E2).
  { destruct (bget "actions" template) as [av|]; simpl; [|by exists [], db, []].
    destruct (json_as_array av) as [specs|]; simpl; [|done].
    destruct (create_actions uuid rt args now 0 specs db []) as [db1 [created|e]] eqn:Hc; [|done].
    by exists specs, db1, created. }
  clear E. apply create_actions_spec in Hc as (He & n & _ & (Hrows & Hnd & Hrest & Hl) & -> & ->).
  change ([] ++ ?l) with l in *. set (created := uuid <$> seq 0 (length specs)) in *.
  assert (add_edges created now 0 (default [] (bget "edges" template ≫= json_as_array)) db1 = (db', Ok ids)) as E3.
  { destruct (bget "edges" template) as [ev|]; [|done]. simpl. by destruct (json_as_array ev). }
  apply add_edges_spec in E3 as (Ha & Hl' & -> & Hedges). split; [done|]. split.
  - split_and!; [|done| |congruence]; rewrite Ha; done.
  - intros key. rewrite Hedges, He. done.
Qed.

(** A run that fails keeps what it created before the failure: the table
    holds the actions of the template up to the first element at fault, or
    all of them when it is an edge that is at fault. *)
Lemma failed_run_leaves_actions uuid db rt args now db' e template :
  rt_template rt = JObject template → materialize_template uuid db rt args now = (db', Err e) →
  let specs := declared "actions" template in
  ∃ n, n ≤ length specs ∧ created_rows uuid rt args now 0 n specs db db'
    ∧ (n = length specs ∨ ∃ spec, specs !! n = Some spec ∧
        ((∃ e', template_action (uuid n) rt args now n spec = Err e') ∨ is_Some (actions db' !! uuid n))).
Proof.
  intros Ht. unfold materialize_template. rewrite Ht. simpl json_as_object. cbv iota zeta. unfold declared.
  assert (created_rows uuid rt args now 0 0 [] db db) as H0 by (split_and!; [lia|constructor|done..]).
  destruct (bget "actions" template) as [av|]; simpl.
  2: { intros E. exists 0. split; [done|]. split; [|by left]. 
       destruct (bget "edges" template) as [ev|]; [|done]. destruct (json_as_array ev) as [edges|].
       - apply add_edges_spec in E as (Ha & Hl & _). destruct H0 as (? & ? & ? & ?).
         split_and!; [done|done| |congruence]. by rewrite Ha.
       - by injection E as <- <-. }
  destruct (json_as_array av) as [specs|]; simpl; [|intros [= <- <-]; exists 0; split_and!; auto].
  destruct (create_actions uuid rt args now 0 specs db []) as [db1 [created|e1]] eqn:Hc; intros E;
    apply create_actions_spec in Hc as (_ & n & Hn & Hrows & Hres).
  - destruct Hres as [-> _]. exists (length specs). split; [done|]. split; [|by left].
    assert (actions db' = actions db1 ∧ leases db' = leases db1) as [Ha Hl].
    { destruct (bget "edges" template) as [ev|]; [|done]. destruct (json_as_array ev) as [edges|].
      - by apply add_edges_spec in E as (? & ? & _).
      - by injection E as <- <-. }
    destruct Hrows as (? & ? & ? & ?). split_and!; [|done| |congruence]; by rewrite Ha.
  - injection E as <- <-. exists n. split_and!; [done..|]. by right.
Qed.
End materialisation.

(* ------------------------------------------------------------------ *)
(** * Worked instances *)

#[local] Existing Instance demo_attest_crypto.
#[local] Existing Instance demo_key_codec.
#[local] Existing Instance demo_ledger_crypto.

(** Two actions, of which the second fills a hole, and an edge between them. *)
Definition demo_template (second : string) (to_ : Z) : btree value :=
  [("actions", JArray [JObject [("kind", JString "build"); ("title", JString "{{what}} it")];
                       JObject [(second, JString "ship"); ("title", JString "go")]]);
   ("edges", JArray [JObject [("from", JNumber (NPosInt 0)); ("to", JNumber (NPosInt to_)); ("type", JString "requires")]])].

#[local] Instance demo_routine_json : JsonCodec := {|
  json_to_string v := match v with JObject _ => "T" | _ => "null" end;
  json_from_str s := if decide (s = "T") then Some (JObject (demo_template "kind" 1)) else Some JNull
|}.
#[local] Instance demo_sql_display : SqlDisplay := λ _, "constraint failed".

Lemma substitution_exact_witness :
  substitute_str "{{what}} it, {{who}}" [("what", JString "ship")] = "ship it, {{who}}".
Proof.
  refine (substitution_exact [Hole "what"; Lit " it, "; Hole "who"] [("what", JString "ship")] _ _);
    repeat constructor.
Defined.

Definition demo_dora : AgentKeypair := mkKeypair "ai:dora" true (Some true).
Definition demo_eve : AgentKeypair := mkKeypair "ai:eve" false (Some false).
Definition demo_routine_row : routine_row :=
  mkRoutineRow "r1" "team" "release" "T" "null" "draft" "ai:dora" 3 None (Some []) (Some []) "null".
Definition demo_drafts : RoutineDb := mkRoutineDb {[ "r1" := demo_routine_row ]} ∅.
Definition demo_frozen : RoutineDb := (routine_freeze demo_drafts "r1" 8 (Some demo_dora)).1.
(** Another keyholder freezes it again. *)
Definition demo_refrozen : RoutineDb := (routine_freeze demo_frozen "r1" 20 (Some demo_eve)).1.

Lemma frozen_is_immutable_witness :
  ∃ r', routines demo_refrozen !! "r1" = Some r' ∧ rr_frozen_at r' = Some 8%Z ∧ rr_template r' = "T"
    ∧ rr_signer_pubkey r' = Some (key_to_bytes (kp_public demo_eve)).
Proof.
  destruct (routines demo_frozen !! "r1") as [r|] eqn:Hr; [|vm_compute in Hr; discriminate Hr].
  destruct (frozen_is_immutable demo_frozen demo_refrozen "r1" r) as (r' & Hr' & _ & Hs & _).
  - apply rtc_once, (step_freeze demo_frozen "r1" 20 (Some demo_eve)).
  - exact Hr.
  - vm_compute in Hr. injection Hr as <-. reflexivity.
  - exists r'. split; [exact Hr'|]. rewrite Hs. vm_compute in Hr. injection Hr as <-.
    split_and!; [reflexivity..|]. simpl. clear Hs. vm_compute in Hr'. by injection Hr' as <-.
Defined.

Lemma freeze_attests_witness :
  ∃ t, routine_get demo_frozen "r1" = Some t ∧ verify t = true ∧ rt_state t = Frozen ∧ rt_frozen_at t = Some 8%Z.
Proof.
  destruct (@freeze_attests _ _ _ _ demo_attest_laws demo_key_laws demo_drafts "r1" demo_routine_row 8 demo_dora true
    (default [] (att_payload (row_to_routine (set_frozen 8 demo_routine_row)))))
    as (db' & t & E & Hg & Hv & Hst & Hat & _).
  - reflexivity.
  - by left.
  - by intros k [= <-].
  - reflexivity.
  - vm_compute. reflexivity.
  - exists t. unfold demo_frozen. rewrite E. split_and!; [exact Hg|exact Hv|exact Hst|by rewrite Hat].
Defined.

Definition demo_routine (second : string) (to_ : Z) : Routine :=
  mkRoutine "r1" "team" "release" (JObject (demo_template second to_)) JNull Frozen "ai:dora" 3 (Some 8%Z) [] [] JNull.
Definition demo_uuid (n : nat) : string := "u" +:+ pretty n.
Definition demo_args : btree value := [("what", JString "make")].
Definition demo_empty : coord_db := mkDb ∅ ∅ ∅.

Lemma materialised_exactly_witness :
  ∃ db', materialize_template demo_uuid demo_empty (demo_routine "kind" 1) demo_args 30 = (db', Ok ["u0"; "u1"])
    ∧ (row_title <$> actions db' !! "u0") = Some "make it"
    ∧ is_Some (action_edges db' !! ("u0", "u1", "requires")).
Proof.
  destruct (materialize_template demo_uuid demo_empty (demo_routine "kind" 1) demo_args 30) as [db' [ids|e]] eqn:E;
    [|vm_compute in E; discriminate E].
  destruct (materialised_exactly demo_uuid demo_empty (demo_routine "kind" 1) demo_args 30 db' ids E)
    as (t & [= <-] & Hids & (Hrows & _) & Hedges).
  assert (ids = ["u0"; "u1"]) as -> by (rewrite Hids; vm_compute; reflexivity).
  exists db'. split; [reflexivity|]. split.
  - destruct (Hrows 0 (JObject [("kind", JString "build"); ("title", JString "{{what}} it")])) as (a & Ha & _ & Hl);
      [simpl; lia|reflexivity|].
    vm_compute in Ha. injection Ha as <-. change (demo_uuid (0 + 0)) with "u0" in Hl. by rewrite Hl.
  - apply Hedges. right. exists 0. do 4 eexists. split_and!; [reflexivity|vm_compute; reflexivity|reflexivity].
Defined.

(** The second element has no kind: the first action stays. *)
Lemma failed_run_leaves_actions_witness :
  ∃ db' e, materialize_template demo_uuid demo_empty (demo_routine "kynd" 1) demo_args 30 = (db', Err e)
    ∧ is_Some (actions db' !! "u0").
Proof.
  destruct (materialize_template demo_uuid demo_empty (demo_routine "kynd" 1) demo_args 30) as [db' [ids|e]] eqn:E;
    [vm_compute in E; discriminate E|].
  exists db', e. split; [reflexivity|].
  destruct (failed_run_leaves_actions demo_uuid demo_empty (demo_routine "kynd" 1) demo_args 30 db' e _ eq_refl E)
    as (n & _ & (Hrows & _ & Hrest & _) & Hn).
  assert (n ≠ 0) as Hn0.
  { intros ->. destruct Hn as [Hn|(s & Hs & [[e' He]|Hx])]; [discriminate Hn| |];
      [vm_compute in Hs; injection Hs as <-; vm_compute in He; discriminate He|].
    rewrite (Hrest (demo_uuid 0) (not_elem_of_nil _)) in Hx. destruct Hx as [x Hx]. discriminate Hx. }
  destruct (Hrows 0 (JObject [("kind", JString "build"); ("title", JString "{{what}} it")])) as (a & _ & _ & Hl);
    [lia|reflexivity|]. change (demo_uuid (0 + 0)) with "u0" in Hl. by eexists.
Defined.
