(* ===== verification/Links.v ===== *)
(** Memory links: the relation and attestation vocabularies, the signed form
    of a link, the write gate (lineage order, reflection cycles, permission),
    the local and the inbound writer, invalidation, deletion, and the archive
    that keeps and restores the links of a memory ([create_link_signed] to
    [get_link_for_verify], [invalidate_link], [delete], [archive_memory] and
    [restore_archived] of [src/src/storage/mod.rs]; [src/src/identity/sign.rs]
    and [verify] of [src/src/identity/verify.rs]; [src/src/models/link.rs]).

    The optional append-only spine and content encryption are off, their
    defaults. *)
From S2P Require Import Prelude.
From S2P Require Import Cycle.
From S2P Require Import BTree.
From S2P Require Import Bytes.
From S2P Require Import Text.
From S2P Require Import Json.
From S2P Require Import Memory.
From S2P Require Import Permissions.
From S2P Require Import Policy.
From S2P Require Import Capability.
From S2P Require Import Attestation.
From S2P Require Import Governance.
From S2P Require Import Ledger.
From S2P Require Import SecretScreen.
From S2P Require Import Cid.

(* ------------------------------------------------------------------ *)
(** * Vocabularies *)

Definition REL_CONTRADICTS : string := "contradicts".
Definition REL_REFLECTS_ON : string := "reflects_on".
Definition REL_DERIVES_FROM : string := "derives_from".
Definition REL_DECOMPOSES_INTO : string := "decomposes_into".
Definition REL_DEPENDS_ON : string := "depends_on".
Definition REL_ADVANCES : string := "advances".

Inductive MemoryLinkRelation : Type :=
| RelatedTo | Supersedes | Contradicts | DerivedFrom | ReflectsOn | DerivesFrom
| DecomposesInto | DependsOn | Advances.

#[global] Instance MemoryLinkRelation_eq_dec : EqDecision MemoryLinkRelation.
Proof. solve_decision. Defined.

Definition Relation_as_str (r : MemoryLinkRelation) : string :=
  match r with
  | RelatedTo => "related_to"
  | Supersedes => "supersedes"
  | Contradicts => REL_CONTRADICTS
  | DerivedFrom => "derived_from"
  | ReflectsOn => REL_REFLECTS_ON
  | DerivesFrom => REL_DERIVES_FROM
  | DecomposesInto => REL_DECOMPOSES_INTO
  | DependsOn => REL_DEPENDS_ON
  | Advances => REL_ADVANCES
  end.

Definition Relation_from_str (s : string) : option MemoryLinkRelation :=
  if decide (s = "related_to") then Some RelatedTo
  else if decide (s = "supersedes") then Some Supersedes
  else if decide (s = REL_CONTRADICTS) then Some Contradicts
  else if decide (s = "derived_from") then Some DerivedFrom
  else if decide (s = REL_REFLECTS_ON) then Some ReflectsOn
  else if decide (s = REL_DERIVES_FROM) then Some DerivesFrom
  else if decide (s = REL_DECOMPOSES_INTO) then Some DecomposesInto
  else if decide (s = REL_DEPENDS_ON) then Some DependsOn
  else if decide (s = REL_ADVANCES) then Some Advances
  else None.

Definition Relation_is_lineage (r : MemoryLinkRelation) : bool :=
  match r with DerivedFrom | ReflectsOn | DerivesFrom => true | _ => false end.

Inductive AttestLevel : Type :=
| Unsigned | SelfSigned | PeerAttested | SignedByPeer | DaemonSigned | RecorderSigned | LineageSigned.

#[global] Instance AttestLevel_eq_dec : EqDecision AttestLevel.
Proof. solve_decision. Defined.

Definition AttestLevel_as_str (a : AttestLevel) : string :=
  match a with
  | Unsigned => "unsigned"
  | SelfSigned => "self_signed"
  | PeerAttested => "peer_attested"
  | SignedByPeer => "signed_by_peer"
  | DaemonSigned => "daemon_signed"
  | RecorderSigned => "recorder_signed"
  | LineageSigned => "lineage_signed"
  end.

Definition AttestLevel_from_str (s : string) : option AttestLevel :=
  if decide (s = "unsigned") then Some Unsigned
  else if decide (s = "self_signed") then Some SelfSigned
  else if decide (s = "peer_attested") then Some PeerAttested
  else if decide (s = "signed_by_peer") then Some SignedByPeer
  else if decide (s = "daemon_signed") then Some DaemonSigned
  else if decide (s = "recorder_signed") then Some RecorderSigned
  else if decide (s = "lineage_signed") then Some LineageSigned
  else None.

#[global] Instance Relation_wire : WireEnum MemoryLinkRelation Relation_as_str Relation_from_str.
Proof. solve_wire_enum Relation_from_str. Qed.
#[global] Instance AttestLevel_wire : WireEnum AttestLevel AttestLevel_as_str AttestLevel_from_str.
Proof. solve_wire_enum AttestLevel_from_str. Qed.

(* ------------------------------------------------------------------ *)
(** * Tables *)

Abbreviation link_key := (string * string * string)%type.

(** The columns of [memory_links] beside its key (source, target, relation). *)
Record LinkRow : Type := mkLinkRow {
  lr_created_at : string;
  lr_valid_from : option string;
  lr_valid_until : option string;
  lr_signature : option bytes;
  lr_attest_level : option string;
  lr_observed_by : option string;
  lr_source_cid : option string;
  lr_target_cid : option string
}.

(** A row of [archived_memory_links]: no content ids, and a stamp. *)
Record ArchivedLink : Type := mkArchivedLink {
  al_row : LinkRow;
  al_archived_at : string
}.

(** A row of [archived_memories]. *)
Record ArchivedMemory : Type := mkArchivedMemory {
  am_memory : Memory;
  am_archived_at : string;
  am_archive_reason : string;
  am_original_tier : option Tier;
  am_original_expires_at : option string
}.

(** The tables, and whether the connection is inside a transaction. *)
Record LinkDb : Type := mkLinkDb {
  ld_gov : GovDb;
  ld_links : gmap link_key LinkRow;
  ld_archived : gmap string ArchivedMemory;
  ld_archived_links : gmap link_key ArchivedLink;
  ld_events : ledger;
  ld_in_tx : bool
}.

Definition with_gov (db : LinkDb) (g : GovDb) : LinkDb :=
  mkLinkDb g (ld_links db) (ld_archived db) (ld_archived_links db) (ld_events db) (ld_in_tx db).
Definition with_links (db : LinkDb) (l : gmap link_key LinkRow) : LinkDb :=
  mkLinkDb (ld_gov db) l (ld_archived db) (ld_archived_links db) (ld_events db) (ld_in_tx db).
Definition with_archived (db : LinkDb) (a : gmap string ArchivedMemory) : LinkDb :=
  mkLinkDb (ld_gov db) (ld_links db) a (ld_archived_links db) (ld_events db) (ld_in_tx db).
Definition with_archived_links (db : LinkDb) (a : gmap link_key ArchivedLink) : LinkDb :=
  mkLinkDb (ld_gov db) (ld_links db) (ld_archived db) a (ld_events db) (ld_in_tx db).
Definition with_events (db : LinkDb) (e : ledger) : LinkDb :=
  mkLinkDb (ld_gov db) (ld_links db) (ld_archived db) (ld_archived_links db) e (ld_in_tx db).
Definition with_in_tx (db : LinkDb) (b : bool) : LinkDb :=
  mkLinkDb (ld_gov db) (ld_links db) (ld_archived db) (ld_archived_links db) (ld_events db) b.

Definition mems (db : LinkDb) : gmap string Memory := memories (ld_gov db).
Definition with_mems (db : LinkDb) (m : gmap string Memory) : LinkDb :=
  with_gov db (mkGovDb m (namespace_meta (ld_gov db)) (pending_actions (ld_gov db))).

Inductive LinkEnd : Type := SourceEnd | TargetEnd.

(** The errors of these operations; [LSql] stands for a statement that fails,
    the last two for a call that panics and one that never returns. *)
Inductive LinkError : Type :=
| RecordStopped (issued_by scope : string)
| LinkReflectionCycle (source_id target_id : string)
| LinkPermissionDenied (reason : string)
| LinkMemoryNotFound (id : string) (role : LinkEnd)
| ArchiveRestoreCollision (id : string)
| PreWriteRefused (reason : string)
| LinkSignFailed
| LSql (reason : string)
| LPanics
| LRuns.

(** The outcome of a call that may not come back. *)
Definition come_back {A} (r : Run A) : result A LinkError :=
  match r with Returns a => Ok a | Panics => Err LPanics | Runs => Err LRuns end.

(** Process-wide state: the record-stop flag, the lineage switch, the
    permission registries and mode, the pre-write hook, the daemon key. *)
Record LinkEnv : Type := mkEnv {
  env_stopped : option (string * string);
  env_lineage_dag : bool;
  env_synthetic : list SyntheticPermissionRule;
  env_rules : list PermissionRule;
  env_mode : PermissionsMode;
  env_pre_write : option (Memory → result unit string);
  env_daemon_sign : bytes → option bytes
}.

(* ------------------------------------------------------------------ *)
(** * Signed links *)

(** Encodings, keys and the link writer. *)
Section with_libs.
Context {CC : CapCrypto} {LC : LedgerCrypto} {PS : PolicySerde} {CH : Chrono} {JC : JsonCodec}
  {L : Log2} {B3 : Blake3}.

(** [sign] of [identity/sign.rs]. *)
Definition sign_link (kp : AgentKeypair) (link : SignableLink) : result bytes LinkError :=
  let? signing := ok_or (kp_private kp) LinkSignFailed in
  let? payload := ok_or (canonical_cbor link) LinkSignFailed in
  Ok (sign signing payload).

(* ------------------------------------------------------------------ *)
(** * The write gate *)

(** [gate_storage_conn]: the record-stop fence. *)
Definition gate_storage_conn (env : LinkEnv) : result unit LinkError :=
  match env_stopped env with
  | Some (issued_by, scope) => Err (RecordStopped issued_by scope)
  | None => Ok tt
  end.

(** The targets of the node's [reflects_on] rows. *)
Definition forward_neighbors (db : LinkDb) (node : string) : list string :=
  omap (λ kv : link_key * LinkRow,
    let '(s, t, r) := kv.1 in
    if decide (s = node ∧ r = REL_REFLECTS_ON) then Some t else None) (map_to_list (ld_links db)).

Definition would_create_reflection_cycle (db : LinkDb) (source_id target_id : string) (max_depth : Z) :
    result CycleCheckResult LinkError :=
  would_create_reflection_cycle_with (λ node, Ok (forward_neighbors db node)) source_id target_id max_depth.

Definition read_created_at (db : LinkDb) (id : string) : option string := mem_created_at <$> mems db !! id.

Definition lineage_edge_is_forward (db : LinkDb) (source_id target_id : string) : bool :=
  match read_created_at db source_id, read_created_at db target_id with
  | Some source_at, Some target_at =>
      match parse_rfc3339 source_at, parse_rfc3339 target_at with
      | Some source_t, Some target_t => bool_decide (dt_instant source_t < dt_instant target_t)%Z
      | _, _ => false
      end
  | _, _ => false
  end.

Definition DEFAULT_NAMESPACE : string := "global".
Definition DEFAULT_REFLECTION_MAX_DEPTH_CAP : Z := 3.

Definition effective_max_reflection_depth (p : CorePolicy) : Z :=
  default DEFAULT_REFLECTION_MAX_DEPTH_CAP (max_reflection_depth p).

(** The namespace whose policy and rules govern the link. *)
Definition link_ns (db : LinkDb) (source_id : string) : string :=
  match mems db !! source_id with Some m => mem_namespace m | None => DEFAULT_NAMESPACE end.

Definition evaluate_link_permission (env : LinkEnv) (link_ns source_id target_id relation agent_id : string) :
    result unit LinkError :=
  let ctx := mkContext MemoryLink link_ns agent_id
    (JObject [("relation", JString relation); ("source_id", JString source_id);
              ("target_id", JString target_id)]) in
  match evaluate ctx [] (env_synthetic env) (env_rules env) (env_mode env) with
  | Allow | Modify _ => Ok tt
  | Deny reason => Err (LinkPermissionDenied reason)
  | Ask prompt => Err (LinkPermissionDenied ("ask deferred to storage layer (" +:+ prompt +:+ ")"))
  end.

(** The three passes, in order. *)
Definition validate_link_pre_create (env : LinkEnv) (db : LinkDb)
    (source_id target_id relation agent_id : string) (skip_governance is_federation_import : bool) :
    result unit LinkError :=
  if negb is_federation_import && env_lineage_dag env
     && match Relation_from_str relation with Some r => Relation_is_lineage r | None => false end
     && lineage_edge_is_forward db source_id target_id
  then Err (LinkReflectionCycle source_id target_id)
  else
    let? _ :=
      if decide (relation = Relation_as_str ReflectsOn) then
        let max_depth :=
          effective_max_reflection_depth
            (default CorePolicy_default (resolve_governance_policy (ld_gov db) (link_ns db source_id))) in
        let? check := would_create_reflection_cycle db source_id target_id max_depth in
        if would_cycle check then Err (LinkReflectionCycle source_id target_id) else Ok tt
      else Ok tt in
    if skip_governance then Ok tt
    else evaluate_link_permission env (link_ns db source_id) source_id target_id relation agent_id.

(* ------------------------------------------------------------------ *)
(** * Statements *)

Definition memory_exists (db : LinkDb) (id : string) : bool := is_some (mems db !! id).

(** The triggers on [memory_links]: the attestation is of the vocabulary
    (inserts, and updates that set it), and the signed levels carry a
    signature of the right length (inserts and every update). *)
Definition ck_attest_level (row : LinkRow) : bool :=
  match lr_attest_level row with
  | None => false
  | Some level => negb (bool_decide (level ∈ ["unsigned"; "self_signed"; "peer_attested"]))
  end.

Definition ck_attest_signature (row : LinkRow) : bool :=
  match lr_attest_level row with
  | None => false
  | Some level =>
      bool_decide (level ∈ ["self_signed"; "peer_attested"])
      && match lr_signature row with
         | Some s => negb (length s =? SIGNATURE_LEN)
         | None => true
         end
  end.

Definition trigger_refuses (row : LinkRow) : bool := ck_attest_level row || ck_attest_signature row.

(** [INSERT OR IGNORE INTO memory_links]: a trigger aborts; a repeated key or
    a relation outside the checked vocabulary inserts nothing. Whether a row
    was inserted. *)
Definition insert_link (db : LinkDb) (key : link_key) (row : LinkRow) : result (LinkDb * bool) LinkError :=
  if trigger_refuses row then Err (LSql "CHECK constraint failed")
  else if is_some (ld_links db !! key) || negb (is_some (Relation_from_str key.2)) then Ok (db, false)
  else Ok (with_links db (<[key := row]> (ld_links db)), true).

(** [append_signed_event] opens a transaction of its own. *)
Definition append_signed_event (env : LinkEnv) (db : LinkDb) (e : SignedEvent) : result LinkDb string :=
  if ld_in_tx db then Err "cannot start a transaction within a transaction"
  else
    let? events := append_signed_event_no_tx (env_daemon_sign env) (ld_events db) e in
    Ok (with_events db events).

Definition MEMORY_LINK_CREATED : string := "memory_link.created".
Definition MEMORY_LINK_INVALIDATED : string := "memory_link.invalidated".

Definition link_event (uuid timestamp agent_id event_type : string) (cbor : bytes)
    (signature : option bytes) (attest_level : string) : SignedEvent :=
  mkSigned uuid agent_id event_type (payload_hash cbor) signature attest_level timestamp [] 0 None.

(** The best-effort audit row of a created link. *)
Definition emit_link_created (env : LinkEnv) (uuid timestamp : string) (db : LinkDb) (link : SignableLink)
    (signature : option bytes) (attest_level : string) : LinkDb :=
  match canonical_cbor link with
  | None => db
  | Some cbor =>
      let agent_for_event := default "unknown" (sl_observed_by link) in
      let event := link_event uuid timestamp agent_for_event MEMORY_LINK_CREATED cbor signature attest_level in
      match append_signed_event env db event with Ok db => db | Err _ => db end
  end.

(* ------------------------------------------------------------------ *)
(** * Writing links *)

Definition truncate_to_microseconds (t : datetime) : datetime :=
  mkDateTime (dt_instant t - dt_instant t mod 1000) (dt_offset t).

Definition read_memory_cid (db : LinkDb) (id : string) : option string := m ← mems db !! id; mem_cid m.

(** What the keypair makes of the link: signature, level, observer. *)
Definition attest_with (kp : option AgentKeypair) (source_id target_id relation now : string) :
    result (option bytes * string * option string) LinkError :=
  match kp with
  | Some kp =>
      if can_sign kp then
        let link := mkSignable source_id target_id relation (Some (kp_agent_id kp)) (Some now) None in
        let? sig := sign_link kp link in
        Ok (Some sig, AttestLevel_as_str SelfSigned, Some (kp_agent_id kp))
      else Ok (None, AttestLevel_as_str Unsigned, None)
  | None => Ok (None, AttestLevel_as_str Unsigned, None)
  end.

(** Both ends must exist. *)
Definition check_ends (db : LinkDb) (source_id target_id : string) : result unit LinkError :=
  if negb (memory_exists db source_id) then Err (LinkMemoryNotFound source_id SourceEnd)
  else if negb (memory_exists db target_id) then Err (LinkMemoryNotFound target_id TargetEnd)
  else Ok tt.

(** [utc_now], [uuid] and [event_at] are the clock and the fresh id read. *)
Definition create_link_signed (env : LinkEnv) (utc_now : datetime) (uuid event_at : string) (db : LinkDb)
    (source_id target_id relation : string) (keypair : option AgentKeypair) :
    result (LinkDb * string) LinkError :=
  let? _ := gate_storage_conn env in
  let agent_id_for_eval := match keypair with Some kp => kp_agent_id kp | None => "system" end in
  let? _ := validate_link_pre_create env db source_id target_id relation agent_id_for_eval false false in
  let? _ := check_ends db source_id target_id in
  let now := to_rfc3339 (truncate_to_microseconds utc_now) in
  let? attested := attest_with keypair source_id target_id relation now in
  let '(signature, attest_level, observed_by) := attested in
  let cid id := if env_lineage_dag env then read_memory_cid db id else None in
  let row := mkLinkRow now (Some now) None signature (Some attest_level) observed_by
               (cid source_id) (cid target_id) in
  let? written := insert_link db (source_id, target_id, relation) row in
  let '(db, inserted) := written in
  let link := mkSignable source_id target_id relation observed_by (Some now) None in
  Ok (if inserted : bool then emit_link_created env uuid event_at db link signature attest_level else db,
      attest_level).

Definition create_link (env : LinkEnv) (utc_now : datetime) (uuid event_at : string) (db : LinkDb)
    (source_id target_id relation : string) : result LinkDb LinkError :=
  let? written := create_link_signed env utc_now uuid event_at db source_id target_id relation None in
  Ok (fst written).

(** A link on the wire. *)
Record WireLink : Type := mkLink {
  ml_source_id : string;
  ml_target_id : string;
  ml_relation : MemoryLinkRelation;
  ml_created_at : string;
  ml_signature : option bytes;
  ml_observed_by : option string;
  ml_valid_from : option string;
  ml_valid_until : option string;
  ml_attest_level : option string
}.

Definition create_link_inbound (env : LinkEnv) (now_s uuid event_at : string) (db : LinkDb) (link : WireLink)
    (attest_level : string) : result LinkDb LinkError :=
  let relation := Relation_as_str (ml_relation link) in
  let skip_governance := bool_decide (attest_level = AttestLevel_as_str PeerAttested) in
  let peer_agent_id := default "system" (ml_observed_by link) in
  let? _ := validate_link_pre_create env db (ml_source_id link) (ml_target_id link) relation peer_agent_id
              skip_governance true in
  let? _ := check_ends db (ml_source_id link) (ml_target_id link) in
  let valid_from := default now_s (ml_valid_from link) in
  let created_at := if str_is_empty (ml_created_at link) then now_s else ml_created_at link in
  let row := mkLinkRow created_at (Some valid_from) (ml_valid_until link) (ml_signature link)
               (Some attest_level) (ml_observed_by link) None None in
  let? written := insert_link db (ml_source_id link, ml_target_id link, relation) row in
  let '(db, inserted) := written in
  let signable := mkSignable (ml_source_id link) (ml_target_id link) relation (ml_observed_by link)
                    (Some valid_from) (ml_valid_until link) in
  Ok (if inserted : bool
      then emit_link_created env uuid event_at db signable (ml_signature link) attest_level else db).

(** How the receiver of a peer's push grades a link; [None] refuses it.
    [lookup] is the directory of enrolled keys. *)
Definition inbound_attest_level (lookup : string → option (@Capability.VerifyingKey CC)) (link : WireLink) :
    option string :=
  match ml_signature link, ml_observed_by link with
  | Some sig_bytes, Some observed_by =>
      match lookup observed_by with
      | Some pubkey =>
          let signable := mkSignable (ml_source_id link) (ml_target_id link)
            (Relation_as_str (ml_relation link)) (Some observed_by) (ml_valid_from link) (ml_valid_until link) in
          match verify_link pubkey signable sig_bytes with
          | Ok _ => Some (AttestLevel_as_str PeerAttested)
          | Err _ => None
          end
      | None => Some (AttestLevel_as_str Unsigned)
      end
  | _, _ => Some (AttestLevel_as_str Unsigned)
  end.

(** [DELETE ... WHERE source_id = ? AND target_id = ?]. *)
Definition delete_link (db : LinkDb) (source_id target_id : string) : LinkDb * bool :=
  let doomed := filter (λ kv : link_key * LinkRow, kv.1.1 = (source_id, target_id)) (ld_links db) in
  (with_links db (ld_links db ∖ doomed), bool_decide (doomed ≠ ∅)).

Record InvalidateResult : Type := mkInvalidate {
  ir_valid_until : string;
  ir_previous_valid_until : option string
}.

(** One transaction: a failure after the update rolls it back. *)
Definition invalidate_link (env : LinkEnv) (now uuid event_at : string) (db : LinkDb)
    (source_id target_id relation : string) (valid_until : option string) :
    result (LinkDb * option InvalidateResult) LinkError :=
  let stamp := default now valid_until in
  if ld_in_tx db then Err (LSql "cannot start a transaction within a transaction")
  else
    match ld_links db !! (source_id, target_id, relation) with
    | None => Ok (db, None)
    | Some prior =>
        let outcome := mkInvalidate stamp (lr_valid_until prior) in
        let update signature attest_level :=
          mkLinkRow (lr_created_at prior) (lr_valid_from prior) (Some stamp) signature attest_level
            (lr_observed_by prior) (lr_source_cid prior) (lr_target_cid prior) in
        let put row := with_links db (<[(source_id, target_id, relation) := row]> (ld_links db)) in
        match lr_signature prior with
        | Some prior_signature =>
            let db := put (update None (Some (AttestLevel_as_str Unsigned))) in
            let signable := mkSignable source_id target_id relation (lr_observed_by prior)
              (lr_valid_from prior) (Some stamp) in
            let? cbor := ok_or (canonical_cbor signable) (LSql "failed to encode canonical CBOR") in
            let event := link_event uuid event_at (default "unknown" (lr_observed_by prior))
              MEMORY_LINK_INVALIDATED cbor (Some prior_signature) (AttestLevel_as_str Unsigned) in
            match append_signed_event_no_tx (env_daemon_sign env) (ld_events db) event with
            | Ok events => Ok (with_events db events, Some outcome)
            | Err e => Err (LSql e)
            end
        | None =>
            let row := update None (lr_attest_level prior) in
            if ck_attest_signature row then Err (LSql "CHECK constraint failed") else Ok (put row, Some outcome)
        end
    end.

(* ------------------------------------------------------------------ *)
(** * Deleting and archiving memories *)

(** The row goes, its links with it, and the standards it was. *)
Definition cascade_delete (db : LinkDb) (id : string) : LinkDb :=
  let gov := mkGovDb (base.delete id (mems db)) (namespace_meta (ld_gov db)) (pending_actions (ld_gov db)) in
  with_links (with_gov db gov)
    (filter (λ kv : link_key * LinkRow, kv.1.1.1 ≠ id ∧ kv.1.1.2 ≠ id) (ld_links db)).

Definition delete_standard_of (db : LinkDb) (id : string) : LinkDb :=
  with_gov db (with_namespace_meta (ld_gov db)
    (filter (λ kv : string * NsMeta, nm_standard_id kv.2 ≠ id) (namespace_meta (ld_gov db)))).

(** [delete]. *)
Definition delete_memory (env : LinkEnv) (db : LinkDb) (id : string) : result (LinkDb * bool) LinkError :=
  let? _ := gate_storage_conn env in
  Ok (cascade_delete (delete_standard_of db id) id, memory_exists db id).

Definition without_cids (r : LinkRow) : LinkRow :=
  mkLinkRow (lr_created_at r) (lr_valid_from r) (lr_valid_until r) (lr_signature r)
    (lr_attest_level r) (lr_observed_by r) None None.

(** Copy the links that touch the memory, unless a copy is there already. *)
Definition archive_links_for_memory (now : string) (db : LinkDb) (id : string) : LinkDb :=
  let touching := filter (λ kv : link_key * LinkRow, kv.1.1.1 = id ∨ kv.1.1.2 = id) (ld_links db) in
  let copies := (λ r, mkArchivedLink (without_cids r) now) <$> touching in
  with_archived_links db (ld_archived_links db ∪ copies).

(** A copy of a row with the columns the archive treats apart. *)
Definition rebuilt (m : Memory) (tier : Tier) (updated_at : string) (expires_at : option string)
    (metadata : value) (cid : option string) (lifecycle : LifecycleState) : Memory :=
  mkMemory (mem_id m) cid tier (mem_namespace m) (mem_title m) (mem_content m) (mem_tags m)
    (mem_priority m) (mem_confidence m) (mem_source m) (mem_access_count m) (mem_created_at m)
    updated_at (mem_last_accessed_at m) expires_at metadata
    (mem_reflection_depth m) (mem_memory_kind m) (mem_entity_id m) (mem_persona_version m)
    (mem_citations m) (mem_source_uri m) (mem_source_span m) (mem_confidence_source m)
    (mem_confidence_signals m) (mem_confidence_decayed_at m) (mem_version m) lifecycle.

(** The archive has no content-id column. *)
Definition archived_copy (m : Memory) : Memory :=
  rebuilt m (mem_tier m) (mem_updated_at m) (mem_expires_at m) (mem_metadata m) None (mem_lifecycle_state m).

Definition archive_memory_no_tx (now : string) (db : LinkDb) (id : string) (reason : option string) :
    LinkDb * bool :=
  match mems db !! id with
  | None => (db, false)
  | Some m =>
      let copy := mkArchivedMemory (archived_copy m) now (default "archive" reason)
                    (Some (mem_tier m)) (mem_expires_at m) in
      let db := with_archived db (<[id := copy]> (ld_archived db)) in
      let db := archive_links_for_memory now db id in
      (cascade_delete (delete_standard_of db id) id, true)
  end.

Definition archive_memory (now : string) (db : LinkDb) (id : string) (reason : option string) :
    result (LinkDb * bool) LinkError :=
  if ld_in_tx db then Err (LSql "cannot start a transaction within a transaction")
  else Ok (archive_memory_no_tx now db id reason).

(** Put back the copies that touch the memory and whose ends are both live;
    the triggers see each of them. *)
Definition restore_links_for_memory (db : LinkDb) (id : string) : result LinkDb LinkError :=
  let live := filter (λ kv : link_key * ArchivedLink,
    (kv.1.1.1 = id ∨ kv.1.1.2 = id)
    ∧ memory_exists db kv.1.1.1 = true ∧ memory_exists db kv.1.1.2 = true) (ld_archived_links db) in
  let known := filter (λ kv : link_key * ArchivedLink, is_some (Relation_from_str kv.1.2) = true) live in
  if existsb (λ kv : link_key * ArchivedLink, trigger_refuses (al_row kv.2)) (map_to_list live)
  then Err (LSql "CHECK constraint failed")
  else Ok (with_links db (ld_links db ∪ (al_row <$> known))).

Definition MAX_METADATA_SIZE : Z := 65536.
Definition MAX_METADATA_DEPTH : Z := 32.

Fixpoint json_depth (v : value) : nat :=
  match v with
  | JObject m => S ((fix go m := match m with [] => 0 | (_, x) :: m => max (json_depth x) (go m) end) m)
  | JArray l => S ((fix go l := match l with [] => 0 | x :: l => max (json_depth x) (go l) end) l)
  | _ => 0
  end.

Definition validate_metadata (mode : SecretScreenMode) (metadata : value) : Run bool :=
  if is_some (json_as_object metadata)
     && (Z.of_nat (String.length (json_to_string metadata)) <=? MAX_METADATA_SIZE)%Z
     && (Z.of_nat (json_depth metadata) <=? MAX_METADATA_DEPTH)%Z
  then is_ok <$> screen_metadata_values_for_caller mode metadata
  else mret false.

Definition consult_governance_pre_write (env : LinkEnv) (m : Memory) : result unit LinkError :=
  match env_pre_write env with
  | None => Ok tt
  | Some hook => match hook m with Ok _ => Ok tt | Err reason => Err (PreWriteRefused reason) end
  end.

(** The row as the pre-write hook sees it: the lifecycle column is not read. *)
Definition load_archived_as_memory (a : ArchivedMemory) (metadata : value) : Memory :=
  let m := am_memory a in
  rebuilt m (default (mem_tier m) (am_original_tier a)) (mem_updated_at m)
    (match am_original_expires_at a with Some e => Some e | None => mem_expires_at m end) metadata
    None LifeOpen.

(** Some other live row has this title and namespace: the unique index. *)
Definition title_taken (db : LinkDb) (m : Memory) : bool :=
  existsb (λ kv : string * Memory,
    bool_decide (mem_title kv.2 = mem_title m) && bool_decide (mem_namespace kv.2 = mem_namespace m))
    (map_to_list (mems db)).

(** The content id is minted anew, from the row as it is. One transaction. *)
Definition restore_archived (env : LinkEnv) (mode : SecretScreenMode) (now : string) (db : LinkDb) (id : string) :
    result (LinkDb * bool) LinkError :=
  if ld_in_tx db then Err (LSql "cannot start a transaction within a transaction")
  else
    match ld_archived db !! id with
    | None => Ok (db, false)
    | Some a =>
        if memory_exists db id then Err (ArchiveRestoreCollision id)
        else
          let stored := mem_metadata (am_memory a) in
          let? valid := come_back (validate_metadata mode stored) in
          let metadata := if valid : bool then stored else JObject [] in
          let candidate := load_archived_as_memory a metadata in
          let? _ := consult_governance_pre_write env candidate in
          let? stamp := come_back (stamp_memory_cid candidate) in
          let row := rebuilt (am_memory a) (default Long (am_original_tier a)) now
            (am_original_expires_at a) metadata (Some (cs_cid stamp))
            (mem_lifecycle_state (am_memory a)) in
          if title_taken db row then Err (LSql "UNIQUE constraint failed: memories.title, memories.namespace")
          else
            let db := with_mems db (<[id := row]> (mems db)) in
            let? db := restore_links_for_memory db id in
            Ok (with_archived db (base.delete id (ld_archived db)), true)
    end.

(* ------------------------------------------------------------------ *)
(** * Reading links *)

(** [get_links]: the links that touch a memory; the signature stays inside. *)
Definition get_links (db : LinkDb) (id : string) : list WireLink :=
  omap (λ kv : link_key * LinkRow,
    let '(s, t, r) := kv.1 in
    if decide (s = id ∨ t = id) then
      let row := kv.2 in
      Some (mkLink s t (default RelatedTo (Relation_from_str r)) (lr_created_at row) None
              (lr_observed_by row) (lr_valid_from row) (lr_valid_until row) (lr_attest_level row))
    else None) (map_to_list (ld_links db)).

Record LinkVerifyRecord : Type := mkVerifyRecord {
  vr_source_id : string;
  vr_target_id : string;
  vr_relation : string;
  vr_signature : option bytes;
  vr_observed_by : option string;
  vr_valid_from : option string;
  vr_valid_until : option string;
  vr_attest_level : option string
}.

Definition get_link_for_verify (db : LinkDb) (source_id target_id relation : string) :
    option LinkVerifyRecord :=
  (λ row, mkVerifyRecord source_id target_id relation (lr_signature row) (lr_observed_by row)
            (lr_valid_from row) (lr_valid_until row) (lr_attest_level row))
    <$> ld_links db !! (source_id, target_id, relation).

(** The decision of [handle_verify] on the record: verified or not, and the
    level it reports. *)
Definition verify_record (lookup : string → option (@Capability.VerifyingKey CC)) (r : LinkVerifyRecord) :
    bool * AttestLevel :=
  let stored_attest := default Unsigned (vr_attest_level r ≫= AttestLevel_from_str) in
  match vr_signature r, vr_observed_by r with
  | Some sig_bytes, Some observed_by =>
      let signable := mkSignable (vr_source_id r) (vr_target_id r) (vr_relation r) (Some observed_by)
        (vr_valid_from r) (vr_valid_until r) in
      match lookup observed_by with
      | Some pubkey =>
          if is_ok (verify_link pubkey signable sig_bytes) then
            (true, match stored_attest with Unsigned => PeerAttested | other => other end)
          else (false, Unsigned)
      | None => (false, stored_attest)
      end
  | _, _ => (false, Unsigned)
  end.

(** The strongest level among a memory's outgoing links. The first
    [peer_attested] row ends the scan; a NULL level met before fails the read. *)
Fixpoint strongest_loop (levels : list (option string)) (strongest : string) : result string LinkError :=
  match levels with
  | [] => Ok strongest
  | None :: _ => Err (LSql "Invalid column type Null")
  | Some level :: levels =>
      if decide (level = AttestLevel_as_str PeerAttested) then Ok (AttestLevel_as_str PeerAttested)
      else if decide (level = AttestLevel_as_str SelfSigned ∧ strongest = AttestLevel_as_str Unsigned)
      then strongest_loop levels (AttestLevel_as_str SelfSigned)
      else strongest_loop levels strongest
  end.

Definition strongest_attest_level_for_source (db : LinkDb) (source_id : string) : result string LinkError :=
  let rows := filter (λ kv : link_key * LinkRow, kv.1.1.1 = source_id) (map_to_list (ld_links db)) in
  strongest_loop ((λ kv : link_key * LinkRow, lr_attest_level kv.2) <$> rows) (AttestLevel_as_str Unsigned).

(* ------------------------------------------------------------------ *)
(** * Conserving a contradiction *)

Definition canonical_contradiction_pair (a b : string) : string * string :=
  if a >?s b then (b, a) else (a, b).

Definition CONTRADICTION_CONSERVED : string := "contradiction_conserved".
Definition CONTRADICTION_SOFT_LOSER : string := "contradiction_soft_loser".
Definition CONTRADICTION_WINNER_ID : string := "contradiction_winner_id".

Definition with_metadata (m : Memory) (metadata : value) : Memory :=
  rebuilt m (mem_tier m) (mem_updated_at m) (mem_expires_at m) metadata (mem_cid m) (mem_lifecycle_state m).

(** The steps inside the transaction. *)
Definition conserve_in_tx (env : LinkEnv) (utc_now : datetime) (uuid event_at : string) (db : LinkDb)
    (loser : Memory) (winner_id : string) (curator : option AgentKeypair) : result LinkDb LinkError :=
  match mems db !! mem_id loser with
  | None => Ok db
  | Some current =>
      let '(src, tgt) := canonical_contradiction_pair (mem_id loser) winner_id in
      let already_linked := existsb (λ l, bool_decide (ml_source_id l = src) && bool_decide (ml_target_id l = tgt)
                              && bool_decide (ml_relation l = Contradicts)) (get_links db src) in
      let? db :=
        if already_linked then Ok db
        else
          let? written := create_link_signed env utc_now uuid event_at db src tgt
                            (Relation_as_str Contradicts) curator in
          Ok (fst written) in
      match json_as_object (mem_metadata current) with
      | None => Err (LSql "metadata is not a JSON object")
      | Some _ =>
          let metadata := json_insert CONTRADICTION_WINNER_ID (JString winner_id)
            (json_insert CONTRADICTION_SOFT_LOSER (JBool true)
              (json_insert CONTRADICTION_CONSERVED (JBool true) (mem_metadata current))) in
          Ok (with_mems db (<[mem_id loser := with_metadata current metadata]> (mems db)))
      end
  end.

(** [BEGIN IMMEDIATE], the steps, [COMMIT]; a failure rolls back. *)
Definition conserve_contradiction (env : LinkEnv) (utc_now : datetime) (uuid event_at : string) (db : LinkDb)
    (loser : Memory) (winner_id : string) (curator : option AgentKeypair) : result LinkDb LinkError :=
  if ld_in_tx db then Err (LSql "cannot start a transaction within a transaction")
  else
    let? db := conserve_in_tx env utc_now uuid event_at (with_in_tx db true) loser winner_id curator in
    Ok (with_in_tx db false).

Definition reverse_conserve_contradiction (db : LinkDb) (loser_id canonical_src canonical_tgt : string) :
    result LinkDb LinkError :=
  if ld_in_tx db then Err (LSql "cannot start a transaction within a transaction")
  else
    let db := with_links db
      (base.delete (canonical_src, canonical_tgt, Relation_as_str Contradicts) (ld_links db)) in
    match mems db !! loser_id with
    | None => Ok db
    | Some current =>
        let metadata := json_remove CONTRADICTION_WINNER_ID
          (json_remove CONTRADICTION_SOFT_LOSER (json_remove CONTRADICTION_CONSERVED (mem_metadata current))) in
        Ok (with_mems db (<[loser_id := with_metadata current metadata]> (mems db)))
    end.

End with_libs.

(* ------------------------------------------------------------------ *)
(** * The reflection graph *)

(** [x] reflects on [y]. *)
Definition reflects (db : LinkDb) (x y : string) : Prop := is_Some (ld_links db !! (x, y, REL_REFLECTS_ON)).

Lemma forward_neighbors_spec db x y : y ∈ forward_neighbors db x ↔ reflects db x y.
Proof.
  unfold forward_neighbors, reflects. rewrite list_elem_of_omap. split.
  - intros ([[[s t] r] row] & Hin & Hx). simpl in Hx. case_decide as Hd; [|done].
    destruct Hd as [-> ->]. simplify_eq. exists row. by apply elem_of_map_to_list.
  - intros [row Hrow]. exists ((x, y, REL_REFLECTS_ON), row).
    split; [by apply elem_of_map_to_list|]. simpl. by rewrite decide_True.
Qed.

Lemma lookup_edge db x y : edge (λ node, Ok (E := LinkError) (forward_neighbors db node)) x y ↔ reflects db x y.
Proof.
  rewrite <-forward_neighbors_spec. split; [by intros (? & [= <-] & ?)|by eexists].
Qed.

Lemma rtc_iff {A} (R R' : relation A) x y : (∀ x y, R x y ↔ R' x y) → rtc R x y ↔ rtc R' x y.
Proof. intros H. split; apply rtc_subrel; intros ??; by rewrite H. Qed.

(** The check the gate makes allows no edge that closes a cycle. *)
Lemma cycle_check_passes db s t max_depth check :
  would_create_reflection_cycle db s t max_depth = Ok check → would_cycle check = false →
  s ≠ t ∧ ¬ rtc (reflects db) t s.
Proof.
  unfold would_create_reflection_cycle, would_create_reflection_cycle_with. intros Hc Hw.
  case_decide as Hne; [by simplify_eq|]. split; [done|].
  pose proof (walk_loop_spec (λ node, Ok (E := LinkError) (forward_neighbors db node)) s t
    (Z.to_nat (walk_bound max_depth)) 0 _ _ _ (level_start _ s t [] Hne)) as Hans.
  rewrite Hc in Hans. destruct check as [[] path]; simpl in Hw; [done|].
  destruct Hans as [_ Hans]. by rewrite (rtc_iff _ _ _ _ (lookup_edge db)) in Hans.
Qed.

Section gate.
Context {PS : PolicySerde} {CH : Chrono}.

Lemma gate_no_cycle env db s t agent skip fed :
  validate_link_pre_create env db s t REL_REFLECTS_ON agent skip fed = Ok tt →
  s ≠ t ∧ ¬ rtc (reflects db) t s.
Proof.
  unfold validate_link_pre_create. case_match; [done|]. rewrite decide_True by done.
  destruct (would_create_reflection_cycle _ _ _ _) as [check|e] eqn:Hc; [|done].
  cbn [result_bind]. destruct (would_cycle check) eqn:Hw; [done|]. intros _.
  by eapply cycle_check_passes.
Qed.
End gate.

(* ------------------------------------------------------------------ *)
(** * What each statement touches *)

Lemma insert_link_ok db key row db' b : insert_link db key row = Ok (db', b) →
  trigger_refuses row = false
  ∧ (b = true ↔ ld_links db !! key = None ∧ is_Some (Relation_from_str key.2))
  ∧ db' = (if b then with_links db (<[key := row]> (ld_links db)) else db).
Proof.
  unfold insert_link. intros H. destruct (trigger_refuses row); [done|]. split; [done|].
  destruct (ld_links db !! key) as [old|] eqn:Hold; simpl in H.
  { simplify_eq. split; [|done]. split; [done|naive_solver]. }
  destruct (Relation_from_str key.2) as [r|] eqn:Hr; simpl in H; simplify_eq.
  - split; [|done]. split; [by eauto|done].
  - split; [|done]. split; [done|]. intros [_ [? ?]]. congruence.
Qed.

Lemma insert_link_lookup db key row db' b k : insert_link db key row = Ok (db', b) →
  ld_links db' !! k = if decide (b = true ∧ k = key) then Some row else ld_links db !! k.
Proof.
  intros (_ & _ & ->)%insert_link_ok. case_decide as Hd.
  - destruct Hd as [-> ->]. apply lookup_insert_eq.
  - destruct b; [|done]. apply lookup_insert_ne. intros ->. by apply Hd.
Qed.

Section emit.
Context {CC : CapCrypto} {LC : LedgerCrypto}.

(** The audit row touches the ledger only. *)
Lemma emit_link_created_frame env uuid at_ db link sig level :
  ∃ events, emit_link_created env uuid at_ db link sig level = with_events db events
    ∧ (events = ld_events db ∨
       ∃ cbor, canonical_cbor link = Some cbor ∧ ld_in_tx db = false
         ∧ append_signed_event_no_tx (env_daemon_sign env) (ld_events db)
             (link_event uuid at_ (default "unknown" (sl_observed_by link)) MEMORY_LINK_CREATED cbor sig level)
           = Ok events).
Proof.
  assert (db = with_events db (ld_events db)) as Hid by (by destruct db).
  unfold emit_link_created, append_signed_event.
  destruct (canonical_cbor link) as [cbor|]; [|by exists (ld_events db); auto].
  destruct (ld_in_tx db); [by exists (ld_events db); auto|].
  destruct (append_signed_event_no_tx _ _ _) as [events|e] eqn:Ha; simpl;
    [|by exists (ld_events db); auto].
  exists events. split; [done|]. right. by exists cbor.
Qed.
End emit.

Section writers.
Context {CC : CapCrypto} {LC : LedgerCrypto} {PS : PolicySerde} {CH : Chrono}.

(** What both writers do once their gates have passed: at most one row under
    the key, and at most its audit row. *)
Definition written_row (env : LinkEnv) (uuid at_ : string) (db : LinkDb) (key : link_key) (row : LinkRow)
    (db' : LinkDb) : Prop :=
  ∃ db1 b events, insert_link db key row = Ok (db1, b)
    ∧ db' = with_events db1 events
    ∧ (events = ld_events db ∨
       b = true ∧ ld_in_tx db = false ∧ ∃ cbor,
         canonical_cbor (mkSignable key.1.1 key.1.2 key.2 (lr_observed_by row) (lr_valid_from row)
           (lr_valid_until row)) = Some cbor
         ∧ append_signed_event_no_tx (env_daemon_sign env) (ld_events db)
             (link_event uuid at_ (default "unknown" (lr_observed_by row)) MEMORY_LINK_CREATED cbor
               (lr_signature row) (default "" (lr_attest_level row))) = Ok events).

Definition signed_row (env : LinkEnv) (db : LinkDb) (s t now : string) (sig : option bytes) (level : string)
    (obs : option string) : LinkRow :=
  mkLinkRow now (Some now) None sig (Some level) obs
    (if env_lineage_dag env then read_memory_cid db s else None)
    (if env_lineage_dag env then read_memory_cid db t else None).

Definition inbound_row (link : WireLink) (now_s level : string) : LinkRow :=
  mkLinkRow (if str_is_empty (ml_created_at link) then now_s else ml_created_at link)
    (Some (default now_s (ml_valid_from link))) (ml_valid_until link) (ml_signature link) (Some level)
    (ml_observed_by link) None None.

Lemma check_ends_ok db s t : check_ends db s t = Ok tt ↔ is_Some (mems db !! s) ∧ is_Some (mems db !! t).
Proof.
  unfold check_ends, memory_exists. destruct (mems db !! s), (mems db !! t); simpl; split; naive_solver eauto.
Qed.

Lemma written_row_intro env uuid at_ db key row db1 b link :
  insert_link db key row = Ok (db1, b) →
  link = mkSignable key.1.1 key.1.2 key.2 (lr_observed_by row) (lr_valid_from row) (lr_valid_until row) →
  written_row env uuid at_ db key row
    (if b then emit_link_created env uuid at_ db1 link (lr_signature row) (default "" (lr_attest_level row)) else db1).
Proof.
  intros Hins ->. pose proof Hins as (_ & _ & Hdb1)%insert_link_ok.
  assert (ld_events db1 = ld_events db ∧ ld_in_tx db1 = ld_in_tx db) as [He Ht] by (subst; by destruct b).
  destruct b.
  - destruct (emit_link_created_frame env uuid at_ db1 (mkSignable key.1.1 key.1.2 key.2 (lr_observed_by row)
      (lr_valid_from row) (lr_valid_until row)) (lr_signature row) (default "" (lr_attest_level row)))
      as (events & -> & Hev).
    exists db1, true, events. split; [done|]. split; [done|].
    rewrite He, Ht in Hev. destruct Hev as [->|(cbor & Hc & Htx & Ha)]; [by left|right; eauto 10].
  - exists db1, false, (ld_events db). split; [done|]. split; [|by left].
    rewrite <-He. by destruct db1.
Qed.

Lemma create_link_signed_ok env utc_now uuid at_ db s t r kp db' level :
  create_link_signed env utc_now uuid at_ db s t r kp = Ok (db', level) →
  env_stopped env = None
  ∧ validate_link_pre_create env db s t r (match kp with Some kp => kp_agent_id kp | None => "system" end)
      false false = Ok tt
  ∧ check_ends db s t = Ok tt
  ∧ ∃ sig obs, let now := to_rfc3339 (truncate_to_microseconds utc_now) in
      attest_with kp s t r now = Ok (sig, level, obs)
      ∧ written_row env uuid at_ db (s, t, r) (signed_row env db s t now sig level obs) db'.
Proof.
  unfold create_link_signed, gate_storage_conn. intros H.
  destruct (env_stopped env) as [[? ?]|]; [done|]. split; [done|]. cbn [result_bind] in H.
  destruct (validate_link_pre_create _ _ _ _ _ _ _ _) as [[]|] eqn:Hv; [|done].
  split; [done|]. cbn [result_bind] in H.
  destruct (check_ends db s t) as [[]|]; [|done]. split; [done|]. cbn [result_bind] in H.
  destruct (attest_with _ _ _ _ _) as [[[sig lvl] obs]|] eqn:Hat; [|done]. cbn [result_bind] in H.
  destruct (insert_link _ _ _) as [[db1 b]|] eqn:Hins; [|done]. cbn [result_bind] in H.
  injection H as <- <-. exists sig, obs. cbv zeta. split; [done|].
  by apply (written_row_intro env uuid at_ db _ _ db1 b _ Hins).
Qed.

Lemma create_link_inbound_ok env now_s uuid at_ db link level db' :
  create_link_inbound env now_s uuid at_ db link level = Ok db' →
  validate_link_pre_create env db (ml_source_id link) (ml_target_id link) (Relation_as_str (ml_relation link))
    (default "system" (ml_observed_by link)) (bool_decide (level = AttestLevel_as_str PeerAttested)) true = Ok tt
  ∧ check_ends db (ml_source_id link) (ml_target_id link) = Ok tt
  ∧ written_row env uuid at_ db (ml_source_id link, ml_target_id link, Relation_as_str (ml_relation link))
      (inbound_row link now_s level) db'.
Proof.
  unfold create_link_inbound. intros H.
  destruct (validate_link_pre_create _ _ _ _ _ _ _ _) as [[]|] eqn:Hv; [|done].
  split; [done|]. cbn [result_bind] in H.
  destruct (check_ends _ _ _) as [[]|]; [|done]. split; [done|]. cbn [result_bind] in H.
  destruct (insert_link _ _ _) as [[db1 b]|] eqn:Hins; [|done]. cbn [result_bind] in H.
  injection H as <-. by apply (written_row_intro env uuid at_ db _ _ db1 b _ Hins).
Qed.

Lemma written_row_frame env uuid at_ db key row db' : written_row env uuid at_ db key row db' →
  mems db' = mems db ∧ ld_gov db' = ld_gov db ∧ ld_archived db' = ld_archived db
  ∧ ld_archived_links db' = ld_archived_links db ∧ ld_in_tx db' = ld_in_tx db.
Proof.
  intros (db1 & b & events & (_ & _ & ->)%insert_link_ok & -> & _). by destruct b.
Qed.

(** The links after: the old ones, and the row under a fresh key. *)
Lemma written_row_lookup env uuid at_ db key row db' k : written_row env uuid at_ db key row db' →
  ld_links db' !! k = ld_links db !! k
  ∨ k = key ∧ ld_links db !! k = None ∧ ld_links db' !! k = Some row ∧ trigger_refuses row = false.
Proof.
  intros (db1 & b & events & Hins & -> & _). simpl.
  rewrite (insert_link_lookup _ _ _ _ _ k Hins). pose proof Hins as (Htr & Hb & _)%insert_link_ok.
  case_decide as Hd; [|by left]. destruct Hd as [-> ->]. right. split; [done|].
  split; [by apply Hb|done].
Qed.

Lemma written_row_keeps env uuid at_ db key row db' old : written_row env uuid at_ db key row db' →
  ld_links db !! key = Some old → ld_links db' = ld_links db.
Proof.
  intros (db1 & b & events & (_ & Hb & ->)%insert_link_ok & -> & _) Hold.
  destruct b; [|done]. destruct Hb as [Hb _]. destruct (Hb eq_refl) as [? _]. congruence.
Qed.

Lemma written_row_inserts env uuid at_ db key row db' : written_row env uuid at_ db key row db' →
  ld_links db !! key = None → is_Some (Relation_from_str key.2) → ld_links db' !! key = Some row.
Proof.
  intros (db1 & b & events & (_ & Hb & ->)%insert_link_ok & -> & _) Hnew Hrel.
  destruct b; [apply lookup_insert_eq|]. by assert (false = true) by by apply Hb.
Qed.
End writers.
