(* ===== verification/MemoryStore.v ===== *)
(** The memories table: storing with its upsert, the conflict policies, the
    optimistic update in its two phases, lifecycle moves, access bookkeeping
    and its fold, supersession, undo, promotion to an ancestor namespace and
    the registration of agents ([insert] to [update_with_archive_on_supersede],
    [undo_in_place_edit], [promote_to_namespace] and [register_agent] of
    [src/src/storage/mod.rs]).

    A row is a [Memory]; the columns that only serve queries are left out.
    Encryption at rest, the append-only spine and confidence decay are off,
    their defaults. *)
From S2P Require Import Prelude.
From S2P Require Import BTree.
From S2P Require Import Bytes.
From S2P Require Import Text.
From S2P Require Import F64.
From S2P Require Import Json.
From S2P Require Import Memory.
From S2P Require Import Clock.
From S2P Require Import Crdt.
From S2P Require Import Policy.
From S2P Require Import Governance.
From S2P Require Import Ledger.
From S2P Require Import Capability.
From S2P Require Import Attestation.
From S2P Require Import Lineage.
From S2P Require Import LineageStore.
From S2P Require Import SecretScreen.
From S2P Require Import Cid.
From S2P Require Import Links.
From stdpp Require Import pretty.

(* ------------------------------------------------------------------ *)
(** * JSON in SQL *)

(** [json_patch]: the merge of RFC 7396. *)
Fixpoint json_patch (target patch : value) {struct patch} : value :=
  match patch with
  | JObject p =>
      JObject
        ((fix go (m : btree value) (p : btree value) : btree value :=
            match p with
            | [] => m
            | (k, JNull) :: p => go (bremove k m) p
            | (k, v) :: p => go (binsert k (json_patch (default JNull (bget k m)) v) m) p
            end) (match target with JObject m => m | _ => [] end) p)
  | _ => patch
  end.

(** A value as a column of [json_each] gives it back: booleans are integers. *)
Definition each_value (v : value) : value :=
  match v with JBool b => JNumber (NPosInt (if b then 1 else 0)) | _ => v end.

Definition PROVENANCE_KEYS : list string := ["agent_id"; "derived_from"; "consolidated_from_agents"].

(** The provenance of a row, kept across an upsert. *)
Definition provenance_of (metadata : value) : value :=
  match metadata with
  | JObject m =>
      JObject (foldr (λ k acc, match bget k m with Some v => binsert k (each_value v) acc | None => acc end)
                 [] PROVENANCE_KEYS)
  | _ => JObject []
  end.

(* ------------------------------------------------------------------ *)
(** * Environment and errors *)

(** Process-wide state of the write path: the gates of the link writer, the
    mode of the credential screen and the name of this node. *)
Record StoreEnv : Type := mkStoreEnv {
  se_link : LinkEnv;
  se_mode : SecretScreenMode;
  se_node : string
}.

Inductive StoreError : Type :=
| SLink (e : LinkError)
| SConflict (existing_id title namespace : string)
| SVersionConflict (id : string) (expected current : Z)
| SInvalidTransition (id : string) (from to : LifecycleState)
| SUniqueConflict (title namespace : string)
| SNotFound (id : string)
| SInvalidArgument (reason : string)
| SArchiveSupersedeFailed (id : string)
| SDenied (id : string).

Definition lift {A} (r : result A LinkError) : result A StoreError :=
  match r with Ok x => Ok x | Err e => Err (SLink e) end.

(* ------------------------------------------------------------------ *)
(** * Rows *)

(** The row under this title and namespace: there is one at most. *)
Definition has_title (title namespace : string) (m : Memory) : bool :=
  bool_decide (mem_title m = title) && bool_decide (mem_namespace m = namespace).

Definition find_by_title_namespace (db : LinkDb) (title namespace : string) : option string :=
  head (omap (λ kv : string * Memory, if has_title title namespace kv.2 then Some kv.1 else None)
          (map_to_list (mems db))).

Definition put_row (id : string) (m : Memory) (db : LinkDb) : LinkDb := with_mems db (<[id := m]> (mems db)).

(** [COALESCE] of two columns. *)
Definition coalesce {A} (a b : option A) : option A := match a with Some x => Some x | None => b end.

(** The row an insert writes: the version starts at the column default. *)
Definition inserted_row (cid : string) (expires_at : option string) (metadata : value) (m : Memory) : Memory :=
  mkMemory (mem_id m) (Some cid) (mem_tier m) (mem_namespace m) (mem_title m) (mem_content m) (mem_tags m)
    (mem_priority m) (mem_confidence m) (mem_source m) (mem_access_count m) (mem_created_at m)
    (mem_updated_at m) (mem_last_accessed_at m) expires_at metadata (mem_reflection_depth m)
    (mem_memory_kind m) (mem_entity_id m) (mem_persona_version m) (mem_citations m) (mem_source_uri m)
    (mem_source_span m) (mem_confidence_source m) (mem_confidence_signals m) (mem_confidence_decayed_at m)
    default_memory_version (mem_lifecycle_state m).

Definition upsert_tier (stored excluded : Tier) : Tier :=
  match excluded, stored with
  | Long, _ => Long
  | _, Long => Long
  | Mid, _ => Mid
  | Short, t => t
  end.

Definition upsert_expires (stored excluded : Memory) : option string :=
  match mem_tier excluded, mem_tier stored with
  | Long, _ | _, Long => None
  | _, _ => coalesce (mem_expires_at excluded) (mem_expires_at stored)
  end.

Definition upsert_kind (stored excluded : MemoryKind) : MemoryKind :=
  match stored with KindReflection => KindReflection | KindPersona => KindPersona | _ => excluded end.

(** The [DO UPDATE] arm: the stored row merged with the row the insert would
    have written. *)
Definition upsert_merge (stored excluded : Memory) : Memory :=
  mkMemory (mem_id stored) (mem_cid stored) (upsert_tier (mem_tier stored) (mem_tier excluded))
    (mem_namespace stored) (mem_title stored) (mem_content excluded) (mem_tags excluded)
    (Z.max (mem_priority stored) (mem_priority excluded))
    (merge_counter f64_gtb (mem_confidence stored) (mem_confidence excluded))
    (mem_source excluded) (mem_access_count stored) (mem_created_at stored) (mem_updated_at excluded)
    (mem_last_accessed_at stored) (upsert_expires stored excluded)
    (json_patch (mem_metadata excluded) (provenance_of (mem_metadata stored)))
    (Z.max (mem_reflection_depth stored) (mem_reflection_depth excluded))
    (upsert_kind (mem_memory_kind stored) (mem_memory_kind excluded))
    (coalesce (mem_entity_id stored) (mem_entity_id excluded))
    (coalesce (mem_persona_version stored) (mem_persona_version excluded))
    (if is_nil (mem_citations excluded) then mem_citations stored else mem_citations excluded)
    (coalesce (mem_source_uri excluded) (mem_source_uri stored))
    (coalesce (mem_source_span excluded) (mem_source_span stored))
    (match mem_confidence_source excluded with CallerProvided => mem_confidence_source stored | s => s end)
    (coalesce (mem_confidence_signals excluded) (mem_confidence_signals stored))
    (coalesce (mem_confidence_decayed_at excluded) (mem_confidence_decayed_at stored))
    (mem_version stored + 1) (mem_lifecycle_state stored).

(* ------------------------------------------------------------------ *)
(** * Storing *)

Section with_libs.
Context {CC : CapCrypto} {LC : LedgerCrypto} {PS : PolicySerde} {CH : Chrono} {JC : JsonCodec} {CS : ClockSerde}
  {L : Log2} {B3 : Blake3}.

(** The statement of [insert]: the arm of the title is tried first, then the
    primary key. *)
Definition upsert (db : LinkDb) (row : Memory) : result (LinkDb * string) StoreError :=
  match find_by_title_namespace db (mem_title row) (mem_namespace row) with
  | Some id =>
      match mems db !! id with
      | Some stored => Ok (put_row id (upsert_merge stored row) db, id)
      | None => Err (SLink (LSql "UNIQUE constraint failed"))
      end
  | None =>
      if memory_exists db (mem_id row) then Err (SLink (LSql "UNIQUE constraint failed: memories.id"))
      else Ok (put_row (mem_id row) row db, mem_id row)
  end.

(** What [insert] writes for a memory: redacted, with this node's component of
    the vector clock set and the content id stamped. *)
Definition row_of (env : StoreEnv) (utc_now : datetime) (m : Memory) : Run Memory :=
  redacted ← redact_memory_for_storage (se_mode env) m;
  let m := default m redacted in
  stamp ← stamp_memory_cid m;
  mret (inserted_row (cs_cid stamp) (effective_expires_at utc_now m)
          (stamp_version_vector (mem_metadata m) (se_node env) (mem_updated_at m)) m).

Definition insert (env : StoreEnv) (utc_now : datetime) (db : LinkDb) (m : Memory) :
    result (LinkDb * string) StoreError :=
  let? _ := lift (gate_storage_conn (se_link env)) in
  let? _ := lift (consult_governance_pre_write (se_link env) m) in
  let? row := lift (come_back (row_of env utc_now m)) in
  upsert db row.

Inductive ConflictMode : Type := ConflictRefuse | ConflictMerge | ConflictVersion.

Definition MAX_VERSION_SUFFIX : nat := 1024.

(** The candidates after the title itself. *)
Definition versioned_title (base_title : string) (n : nat) : string := base_title +:+ " (" +:+ pretty n +:+ ")".

Fixpoint first_free (db : LinkDb) (base_title namespace : string) (ns : list nat) : option string :=
  match ns with
  | [] => None
  | n :: ns =>
      let candidate := versioned_title base_title n in
      if is_some (find_by_title_namespace db candidate namespace) then first_free db base_title namespace ns
      else Some candidate
  end.

Definition next_versioned_title (db : LinkDb) (base_title namespace : string) : result string StoreError :=
  if is_some (find_by_title_namespace db base_title namespace)
  then ok_or (first_free db base_title namespace (seq 2 (MAX_VERSION_SUFFIX - 1))) (SUniqueConflict base_title namespace)
  else Ok base_title.

Definition with_title (title : string) (m : Memory) : Memory :=
  mkMemory (mem_id m) (mem_cid m) (mem_tier m) (mem_namespace m) title (mem_content m) (mem_tags m)
    (mem_priority m) (mem_confidence m) (mem_source m) (mem_access_count m) (mem_created_at m)
    (mem_updated_at m) (mem_last_accessed_at m) (mem_expires_at m) (mem_metadata m) (mem_reflection_depth m)
    (mem_memory_kind m) (mem_entity_id m) (mem_persona_version m) (mem_citations m) (mem_source_uri m)
    (mem_source_span m) (mem_confidence_source m) (mem_confidence_signals m) (mem_confidence_decayed_at m)
    (mem_version m) (mem_lifecycle_state m).

(** The refusing arm writes the memory as it came: it neither redacts nor
    stamps the clock. *)
Definition insert_with_conflict (env : StoreEnv) (utc_now : datetime) (db : LinkDb) (m : Memory)
    (mode : ConflictMode) : result (LinkDb * string) StoreError :=
  let? _ := lift (gate_storage_conn (se_link env)) in
  match mode with
  | ConflictMerge => insert env utc_now db m
  | ConflictRefuse =>
      let? _ := lift (consult_governance_pre_write (se_link env) m) in
      match find_by_title_namespace db (mem_title m) (mem_namespace m) with
      | Some existing_id => Err (SConflict existing_id (mem_title m) (mem_namespace m))
      | None =>
          let? stamp := lift (come_back (stamp_memory_cid m)) in
          if memory_exists db (mem_id m) then Err (SConflict "" (mem_title m) (mem_namespace m))
          else
            let row := inserted_row (cs_cid stamp) (effective_expires_at utc_now m) (mem_metadata m) m in
            Ok (put_row (mem_id m) row db, mem_id m)
      end
  | ConflictVersion =>
      let? title := next_versioned_title db (mem_title m) (mem_namespace m) in
      insert env utc_now db (with_title title m)
  end.

(* ------------------------------------------------------------------ *)
(** * Updating *)

(** The fields a caller may change. *)
Record Patch : Type := mkPatch {
  pt_title : option string;
  pt_content : option string;
  pt_tier : option Tier;
  pt_namespace : option string;
  pt_tags : option (list string);
  pt_priority : option Z;
  pt_confidence : option f64;
  pt_expires_at : option string;
  pt_metadata : option value;
  pt_source_uri : option string
}.

(** Never a downgrade of the tier that was read. *)
Definition patched_tier (requested : option Tier) (existing : Tier) : Tier :=
  match requested, existing with
  | Some _, Long => Long
  | Some Short, Mid => Mid
  | Some t, _ => t
  | None, t => t
  end.

(** An empty text clears the expiry. *)
Definition patched_expires (patch existing : option string) : option string :=
  match patch with
  | Some e => if decide (e = "" ∨ e = "null") then None else Some e
  | None => existing
  end.

(** The row as the patch leaves it, every other column kept. *)
Definition patched (p : Patch) (m : Memory) : Memory :=
  mkMemory (mem_id m) (mem_cid m) (patched_tier (pt_tier p) (mem_tier m))
    (default (mem_namespace m) (pt_namespace p)) (default (mem_title m) (pt_title p))
    (default (mem_content m) (pt_content p)) (default (mem_tags m) (pt_tags p))
    (default (mem_priority m) (pt_priority p)) (default (mem_confidence m) (pt_confidence p)) (mem_source m)
    (mem_access_count m) (mem_created_at m) (mem_updated_at m) (mem_last_accessed_at m)
    (patched_expires (pt_expires_at p) (mem_expires_at m)) (default (mem_metadata m) (pt_metadata p))
    (mem_reflection_depth m) (mem_memory_kind m) (mem_entity_id m) (mem_persona_version m) (mem_citations m)
    (coalesce (pt_source_uri p) (mem_source_uri m)) (mem_source_span m) (mem_confidence_source m)
    (mem_confidence_signals m) (mem_confidence_decayed_at m) (mem_version m) (mem_lifecycle_state m).

(** What the first phase of an update hands to the second. *)
Record UpdateWrite : Type := mkUpdateWrite {
  uw_id : string;
  uw_row : Memory;
  uw_source_uri : option string;
  uw_content_changed : bool;
  uw_now : string;
  uw_expected : option Z
}.

(** The first phase: read the row, check the version, compose the patched row
    and consult the hook, outside any transaction. [None]: no such row. *)
Definition prepare_update (env : StoreEnv) (now : string) (db : LinkDb) (id : string) (p : Patch)
    (expected : option Z) : result (option UpdateWrite) StoreError :=
  let? _ := lift (gate_storage_conn (se_link env)) in
  match mems db !! id with
  | None => Ok None
  | Some existing =>
      let stale := match expected with Some v => bool_decide (mem_version existing ≠ v) | None => false end in
      if stale then Err (SVersionConflict (mem_id existing) (default 0 expected)%Z (mem_version existing))
      else
        let row := patched p existing in
        let changed := bool_decide (mem_title row ≠ mem_title existing)
                       || bool_decide (mem_content row ≠ mem_content existing) in
        let? _ := lift (consult_governance_pre_write (se_link env) row) in
        Ok (Some (mkUpdateWrite id row (pt_source_uri p) changed now expected))
  end.

(** The columns the [UPDATE] sets, over the row as it is now. *)
Definition updated_row (w : UpdateWrite) (m : Memory) : Memory :=
  let r := uw_row w in
  mkMemory (mem_id m) (mem_cid m) (mem_tier r) (mem_namespace r) (mem_title r) (mem_content r) (mem_tags r)
    (mem_priority r) (mem_confidence r) (mem_source m) (mem_access_count m) (mem_created_at m) (uw_now w)
    (mem_last_accessed_at m) (mem_expires_at r) (mem_metadata r) (mem_reflection_depth m) (mem_memory_kind m)
    (mem_entity_id m) (mem_persona_version m) (mem_citations m) (coalesce (uw_source_uri w) (mem_source_uri m))
    (mem_source_span m) (mem_confidence_source m) (mem_confidence_signals m) (mem_confidence_decayed_at m)
    (mem_version m + 1) (mem_lifecycle_state m).

Definition ARCHIVE_REASON_IN_PLACE_EDIT : string := "in_place_edit".

Definition archive_memory_insert_only (now : string) (db : LinkDb) (id reason : string) : LinkDb :=
  match mems db !! id with
  | None => db
  | Some m =>
      with_archived db (<[id := mkArchivedMemory (archived_copy m) now reason (Some (mem_tier m)) (mem_expires_at m)]>
                          (ld_archived db))
  end.

(** Another live row has the title and namespace of this one. *)
Definition title_taken_by_other (db : LinkDb) (id : string) (m : Memory) : bool :=
  match find_by_title_namespace (with_mems db (base.delete id (mems db))) (mem_title m) (mem_namespace m) with
  | Some _ => true
  | None => false
  end.

(** The second phase, one transaction: snapshot the row, then write where the
    version is still the expected one. *)
Definition commit_update (archived_at : string) (db : LinkDb) (w : UpdateWrite) :
    result (LinkDb * (bool * bool)) StoreError :=
  match mems db !! uw_id w with
  | None => Ok (db, (false, false))
  | Some m =>
      let stale := match uw_expected w with Some v => bool_decide (mem_version m ≠ v) | None => false end in
      if stale then Err (SVersionConflict (uw_id w) (default 0 (uw_expected w))%Z (mem_version m))
      else if title_taken_by_other db (uw_id w) (uw_row w)
      then Err (SUniqueConflict (mem_title (uw_row w)) (mem_namespace (uw_row w)))
      else
        let db := if uw_content_changed w
                  then archive_memory_insert_only archived_at db (uw_id w) ARCHIVE_REASON_IN_PLACE_EDIT else db in
        Ok (put_row (uw_id w) (updated_row w m) db, (true, uw_content_changed w))
  end.

Definition update_with_expected_version (env : StoreEnv) (now archived_at : string) (db : LinkDb) (id : string)
    (p : Patch) (expected : option Z) : result (LinkDb * (bool * bool)) StoreError :=
  let? prepared := prepare_update env now db id p expected in
  match prepared with
  | None => Ok (db, (false, false))
  | Some w => commit_update archived_at db w
  end.

Definition update (env : StoreEnv) (now archived_at : string) (db : LinkDb) (id : string) (p : Patch) :
    result (LinkDb * (bool * bool)) StoreError :=
  update_with_expected_version env now archived_at db id p None.

(* ------------------------------------------------------------------ *)
(** * Lifecycle *)

(** The row in another state. *)
Definition in_state (state : LifecycleState) (now : string) (m : Memory) : Memory :=
  rebuilt m (mem_tier m) now (mem_expires_at m) (mem_metadata m) (mem_cid m) state.
Definition bump_version (m : Memory) : Memory :=
  mkMemory (mem_id m) (mem_cid m) (mem_tier m) (mem_namespace m) (mem_title m) (mem_content m) (mem_tags m)
    (mem_priority m) (mem_confidence m) (mem_source m) (mem_access_count m) (mem_created_at m)
    (mem_updated_at m) (mem_last_accessed_at m) (mem_expires_at m) (mem_metadata m) (mem_reflection_depth m)
    (mem_memory_kind m) (mem_entity_id m) (mem_persona_version m) (mem_citations m) (mem_source_uri m)
    (mem_source_span m) (mem_confidence_source m) (mem_confidence_signals m) (mem_confidence_decayed_at m)
    (mem_version m + 1) (mem_lifecycle_state m).

(** The check of [set_lifecycle_state], on the row as it is read: [None] when a
    write is due, else the answer. *)
Definition check_transition (db : LinkDb) (id : string) (state : LifecycleState) : result (option bool) StoreError :=
  match mems db !! id with
  | None => Ok (Some false)
  | Some m =>
      let from := mem_lifecycle_state m in
      if decide (from = state) then Ok (Some true)
      else if Lifecycle_can_transition_to from state then Ok None
      else Err (SInvalidTransition id from state)
  end.

(** The write, on the row as it is by then. *)
Definition write_state (now : string) (db : LinkDb) (id : string) (state : LifecycleState) : LinkDb * bool :=
  match mems db !! id with
  | None => (db, false)
  | Some m => (put_row id (bump_version (in_state state now m)) db, true)
  end.

Definition set_lifecycle_state (now : string) (db : LinkDb) (id : string) (state : LifecycleState) :
    result (LinkDb * bool) StoreError :=
  let? answer := check_transition db id state in
  match answer with
  | Some found => Ok (db, found)
  | None => Ok (write_state now db id state)
  end.

Definition dequarantine (now : string) (db : LinkDb) (id : string) : LinkDb * bool :=
  match mems db !! id with
  | Some m =>
      if decide (mem_lifecycle_state m = LifeQuarantined) then write_state now db id LifeOpen else (db, false)
  | None => (db, false)
  end.

(* ------------------------------------------------------------------ *)
(** * Access bookkeeping *)

Definition PROMOTION_THRESHOLD : Z := 5.
Definition MAX_ACCESS_COUNT : Z := 1000000.
Definition FOLD_CHUNK_MEMORIES : nat := 1000.

(** The columns access bookkeeping writes. *)
Definition with_access (m : Memory) (tier : Tier) (priority access_count : Z) (updated_at : string)
    (last_accessed_at expires_at : option string) : Memory :=
  mkMemory (mem_id m) (mem_cid m) tier (mem_namespace m) (mem_title m) (mem_content m) (mem_tags m)
    priority (mem_confidence m) (mem_source m) access_count (mem_created_at m) updated_at last_accessed_at
    expires_at (mem_metadata m) (mem_reflection_depth m) (mem_memory_kind m) (mem_entity_id m)
    (mem_persona_version m) (mem_citations m) (mem_source_uri m) (mem_source_span m) (mem_confidence_source m)
    (mem_confidence_signals m) (mem_confidence_decayed_at m) (mem_version m) (mem_lifecycle_state m).

(** The window is a floor: it never shortens an expiry. *)
Definition extended_expiry (m : Memory) (short_expires mid_expires : string) : option string :=
  match mem_tier m, mem_expires_at m with
  | Short, Some e => Some (str_max e short_expires)
  | Mid, Some e => Some (str_max e mid_expires)
  | _, e => e
  end.

Definition promote_row (now : string) (m : Memory) : Memory :=
  if bool_decide (mem_tier m = Mid) && bool_decide (PROMOTION_THRESHOLD ≤ mem_access_count m)%Z
  then with_access m Long (mem_priority m) (mem_access_count m) now (mem_last_accessed_at m) None else m.

Definition bump_access (now short_expires mid_expires : string) (m : Memory) : Memory :=
  with_access m (mem_tier m) (mem_priority m) (Z.min (mem_access_count m + 1) MAX_ACCESS_COUNT)
    (mem_updated_at m) (Some now) (extended_expiry m short_expires mid_expires).

Definition raise_priority (m : Memory) : Memory :=
  if bool_decide (0 < mem_access_count m)%Z && bool_decide (mem_access_count m `mod` 10 = 0)%Z
     && bool_decide (mem_priority m < 10)%Z
  then with_access m (mem_tier m) (Z.min (mem_priority m + 1) 10) (mem_access_count m) (mem_updated_at m)
         (mem_last_accessed_at m) (mem_expires_at m)
  else m.

Definition touch_row (now short_expires mid_expires : string) (m : Memory) : Memory :=
  raise_priority (promote_row now (bump_access now short_expires mid_expires m)).

Definition alter_row (f : Memory → Memory) (id : string) (db : LinkDb) : LinkDb :=
  with_mems db (alter f id (mems db)).

Definition touch (now : datetime) (short_extend mid_extend : Z) (db : LinkDb) (id : string) : LinkDb :=
  alter_row (touch_row (to_rfc3339 now) (to_rfc3339 (plus_seconds now short_extend))
               (to_rfc3339 (plus_seconds now mid_extend))) id db.

(** A connection of the read pool touches nothing. *)
Definition touch_many (query_only : bool) (now : datetime) (short_extend mid_extend : Z) (db : LinkDb)
    (ids : list string) : LinkDb * nat :=
  if query_only then (db, 0)
  else (fold_left (touch now short_extend mid_extend) ids db, length ids).

(** A row of the recall ledger. *)
Record Observation : Type := mkObservation { ob_memory_id : string; ob_observed_at : string; ob_folded : bool }.

(** The aggregate of a memory's unfolded rows: how many, and the last. *)
Definition pending_of (ledger : list Observation) (id : string) : list string :=
  ob_observed_at <$> List.filter (λ o, negb (ob_folded o) && bool_decide (ob_memory_id o = id)) ledger.

Definition pending_ids (ledger : list Observation) : list string :=
  stable_sort String.le
    (elements (list_to_set (ob_memory_id <$> List.filter (λ o, negb (ob_folded o)) ledger) : gset string)).

Definition fold_row (now : string) (n : Z) (t_max short_exp mid_exp : string) (m : Memory) : Memory :=
  let count := Z.min (mem_access_count m + n) MAX_ACCESS_COUNT in
  promote_row now
    (with_access m (mem_tier m)
       (Z.min (mem_priority m + (count `quot` 10 - mem_access_count m `quot` 10)) 10) count (mem_updated_at m)
       (match mem_last_accessed_at m with Some t => Some (str_max t t_max) | None => Some t_max end)
       (extended_expiry m short_exp mid_exp)).

Definition latest (times : list string) : string := foldr str_max "" times.

(** One memory of a chunk: its row, and its ledger rows marked. *)
Definition fold_memory (utc_now : datetime) (now : string) (short_extend mid_extend : Z)
    (st : LinkDb * list Observation) (id : string) : LinkDb * list Observation :=
  let '(db, ledger) := st in
  let times := pending_of ledger id in
  let t_max := default utc_now (with_timezone_utc <$> parse_rfc3339 (latest times)) in
  (alter_row (fold_row now (Z.of_nat (length times)) (to_rfc3339 t_max)
                (to_rfc3339 (plus_seconds t_max short_extend)) (to_rfc3339 (plus_seconds t_max mid_extend))) id db,
   (λ o, if bool_decide (ob_memory_id o = id) then mkObservation (ob_memory_id o) (ob_observed_at o) true else o)
     <$> ledger).

(** The loop over chunks; [clock] is the reading each of them makes. *)
Fixpoint fold_loop (fuel : nat) (clock : nat → datetime) (short_extend mid_extend : Z)
    (st : LinkDb * list Observation) (total : nat) : option (LinkDb * list Observation * nat) :=
  match fuel with
  | O => None
  | S fuel =>
      let chunk := take FOLD_CHUNK_MEMORIES (pending_ids st.2) in
      match chunk with
      | [] => Some (st, total)
      | _ =>
          let st := fold_left (fold_memory (clock fuel) (to_rfc3339 (clock fuel)) short_extend mid_extend) chunk st in
          let total := total + length chunk in
          if bool_decide (length chunk < FOLD_CHUNK_MEMORIES) then Some (st, total)
          else fold_loop fuel clock short_extend mid_extend st total
      end
  end.

Definition fold_recall_accesses (clock : nat → datetime) (short_extend mid_extend : Z) (db : LinkDb)
    (ledger : list Observation) : option (LinkDb * list Observation * nat) :=
  fold_loop (S (length ledger)) clock short_extend mid_extend (db, ledger) 0.

(* ------------------------------------------------------------------ *)
(** * Supersession and undo *)

(** The successor of a row: the patch over it, fresh counters and dates, and a
    pointer to the row it replaces. *)
Definition successor_row (p : Patch) (new_id now : string) (source : EditSource) (m : Memory) : Memory :=
  let r := patched p m in
  let stamp v := json_insert "superseded_id" (JString (mem_id m))
                   (json_insert "edit_source" (JString (EditSource_as_str source)) v) in
  mkMemory new_id (mem_cid r) (mem_tier r) (mem_namespace r) (mem_title r) (mem_content r) (mem_tags r)
    (mem_priority r) (mem_confidence r) (mem_source r) 0 now now None (mem_expires_at r) (stamp (mem_metadata r))
    (mem_reflection_depth r) (mem_memory_kind r) (mem_entity_id r) (mem_persona_version r) (mem_citations r)
    (mem_source_uri r) (mem_source_span r) (mem_confidence_source r) (mem_confidence_signals r)
    (mem_confidence_decayed_at r) default_memory_version (mem_lifecycle_state r).

Record SupersedeResult : Type := mkSuperseded { sr_archived_id : string; sr_new_id : string }.

(** One transaction around the archive and the insert. *)
Definition update_with_archive_on_supersede (env : StoreEnv) (utc_now : datetime) (new_id now archived_at : string)
    (db : LinkDb) (id : string) (p : Patch) (expected : option Z) (source : EditSource) :
    result (LinkDb * SupersedeResult) StoreError :=
  match mems db !! id with
  | None => Err (SNotFound id)
  | Some existing =>
      let stale := match expected with Some v => bool_decide (mem_version existing ≠ v) | None => false end in
      if stale then Err (SVersionConflict (mem_id existing) (default 0 expected)%Z (mem_version existing))
      else
        let new_mem := successor_row p new_id now source existing in
        let? _ := lift (consult_governance_pre_write (se_link env) new_mem) in
        if ld_in_tx db then Err (SLink (LSql "cannot start a transaction within a transaction"))
        else
          let '(archived, moved) := archive_memory_no_tx archived_at db (mem_id existing) (Some "superseded") in
          if negb moved then Err (SArchiveSupersedeFailed (mem_id existing))
          else
            let? stored := insert env utc_now archived new_mem in
            Ok (stored.1, mkSuperseded (mem_id existing) new_id)
  end.

Record UndoOutcome : Type := mkUndo {
  un_applied : bool;
  un_id : string;
  un_before_version : Z;
  un_after_version : option Z;
  un_before_title : string;
  un_after_title : string;
  un_before_content : string;
  un_after_content : string
}.

(** The snapshot of the last in-place edit. *)
Definition undo_snapshot (db : LinkDb) (id : string) : option Memory :=
  a ← ld_archived db !! id;
  if decide (am_archive_reason a = ARCHIVE_REASON_IN_PLACE_EDIT) then Some (am_memory a) else None.

(** The patch that puts a snapshot back. *)
Definition undo_patch (snap : Memory) : Patch :=
  mkPatch (Some (mem_title snap)) (Some (mem_content snap)) (Some (mem_tier snap)) (Some (mem_namespace snap))
    (Some (mem_tags snap)) (Some (mem_priority snap)) (Some (mem_confidence snap)) (mem_expires_at snap)
    (Some (mem_metadata snap)) (mem_source_uri snap).

Definition undo_event (env : StoreEnv) (uuid timestamp id : string) (caller : option string) (before : Z) :
    SignedEvent :=
  let text := "memory.undo_in_place_edit|" +:+ id +:+ "|" +:+ pretty before +:+ "|" +:+ pretty (before + 1)%Z in
  with_daemon_signature (env_daemon_sign (se_link env)) uuid (payload_hash (str_bytes text))
    (default "ai:operator" caller) "memory.undo_in_place_edit" timestamp None.

(** A caller must own the row and the snapshot; no caller is the operator. *)
Definition undo_permitted (caller : option string) (live : Memory) (snap : option Memory) : bool :=
  match caller with
  | None => true
  | Some who =>
      bool_decide (owner_of live = who)
      && match snap with Some s => bool_decide (owner_of s = who) | None => true end
  end.

(** The update commits before the audit row is written: a failure of the latter
    is reported with the former in place. *)
Definition undo_in_place_edit (env : StoreEnv) (now archived_at uuid event_at : string) (db : LinkDb) (id : string)
    (caller : option string) (dry_run : bool) : LinkDb * result UndoOutcome StoreError :=
  match mems db !! id with
  | None => (db, Err (SNotFound id))
  | Some live =>
      let snapshot := undo_snapshot db id in
      let after f := default (f live) (f <$> snapshot) in
      let outcome applied version :=
        mkUndo applied id (mem_version live) version (mem_title live) (after mem_title) (mem_content live)
          (after mem_content) in
      if negb (undo_permitted caller live snapshot) then (db, Err (SDenied id))
      else
        match snapshot, dry_run with
        | None, _ | _, true => (db, Ok (outcome false None))
        | Some snap, false =>
            match update_with_expected_version env now archived_at db id (undo_patch snap) (Some (mem_version live)) with
            | Err e => (db, Err e)
            | Ok (db, (false, _)) => (db, Err (SNotFound id))
            | Ok (db, (true, _)) =>
                match append_signed_event (se_link env) db (undo_event env uuid event_at id caller (mem_version live)) with
                | Ok db => (db, Ok (outcome true (Some (mem_version live + 1)%Z)))
                | Err e => (db, Err (SLink (LSql e)))
                end
            end
        end
  end.

(* ------------------------------------------------------------------ *)
(** * Promotion and registration *)

(** A copy of a row for an ancestor namespace. *)
Definition clone_row (new_id now to_namespace : string) (m : Memory) : Memory :=
  mkMemory new_id None (mem_tier m) to_namespace (mem_title m) (mem_content m) (mem_tags m) (mem_priority m)
    (mem_confidence m) (mem_source m) 0 now now None (mem_expires_at m) (mem_metadata m) (mem_reflection_depth m)
    (mem_memory_kind m) None None [] None None CallerProvided None None default_memory_version LifeOpen.

(** The insert commits on its own: a link that is refused leaves the copy. *)
Definition promote_to_namespace (env : StoreEnv) (utc_now : datetime) (new_id now uuid event_at : string)
    (db : LinkDb) (source_id to_namespace : string) : LinkDb * result string StoreError :=
  if decide (to_namespace = "") then (db, Err (SInvalidArgument "to_namespace cannot be empty"))
  else
    match mems db !! source_id with
    | None => (db, Err (SNotFound source_id))
    | Some source =>
        if decide (to_namespace = mem_namespace source)
        then (db, Err (SInvalidArgument "to_namespace must be a proper ancestor"))
        else if negb (bool_decide (to_namespace ∈ namespace_ancestors (mem_namespace source)))
        then (db, Err (SInvalidArgument "to_namespace is not an ancestor"))
        else
          match insert env utc_now db (clone_row new_id now to_namespace source) with
          | Err e => (db, Err e)
          | Ok (db, actual_id) =>
              match create_link (se_link env) utc_now uuid event_at db actual_id source_id "derived_from" with
              | Err e => (db, Err (SLink e))
              | Ok db => (db, Ok actual_id)
              end
          end
    end.

(** The registration of an agent: a row of the reserved namespace, through the
    upsert. *)
Definition registration_metadata (agent_id agent_type registered_at now : string) (capabilities : list string) : value :=
  foldr (λ kv : string * value, json_insert kv.1 kv.2) (JObject [])
    [ ("agent_id", JString agent_id); ("agent_type", JString agent_type);
      ("capabilities", JArray (JString <$> capabilities)); ("registered_at", JString registered_at);
      ("last_seen_at", JString now); ("scope", JString "collective") ].

Definition registration_row (new_id agent_id agent_type registered_at now : string) (capabilities : list string) : Memory :=
  let metadata := registration_metadata agent_id agent_type registered_at now capabilities in
  mkMemory new_id None Long AGENTS_NAMESPACE (agent_registration_title agent_id) (json_to_string metadata)
    ["agent-registration"] 5 f64_one "system" 0 now now None None metadata 0 KindObservation None None [] None None
    CallerProvided None None default_memory_version LifeOpen.

Definition registered_at (db : LinkDb) (agent_id : string) : option string :=
  id ← find_by_title_namespace db (agent_registration_title agent_id) AGENTS_NAMESPACE;
  m ← mems db !! id;
  json_extract_text (mem_metadata m) "registered_at".

Definition register_agent (env : StoreEnv) (utc_now : datetime) (new_id now : string) (db : LinkDb)
    (agent_id agent_type : string) (capabilities : list string) : result (LinkDb * string) StoreError :=
  insert env utc_now db
    (registration_row new_id agent_id agent_type (default now (registered_at db agent_id)) now capabilities).
End with_libs.
