(* ===== verification/MemoryHistory.v ===== *)
(** What storing, updating and the other operations of [MemoryStore] keep over
    time: titles stay unique, rows evolve in one direction, a checked update
    loses nothing that was written in between, an undo puts back what an edit
    replaced, and the fold of the recall ledger is the touches it stands for. *)
From stdpp Require Import pretty.
From S2P Require Import Prelude.
From S2P Require Import BTree.
From S2P Require Import Bytes.
From S2P Require Import Text.
From S2P Require Import F64.
From S2P Require Import Json.
From S2P Require Import Memory.
From S2P Require Import Clock.
From S2P Require Import Crdt.
From S2P Require Import Policy.
From S2P Require Import Governance.
From S2P Require Import Ledger.
From S2P Require Import Capability.
From S2P Require Import Attestation.
From S2P Require Import Lineage.
From S2P Require Import LineageStore.
From S2P Require Import SecretScreen.
From S2P Require Import Cid.
From S2P Require Import Links.
From S2P Require Import MemoryStore.

(* ------------------------------------------------------------------ *)
(** * Specification *)

(** A well-formed table: rows under their own id, versions from one, one row
    for a title and namespace, and archived copies under their own id. *)
Record store_wf (db : LinkDb) : Prop := {
  wf_rows : ∀ id m, mems db !! id = Some m → mem_id m = id ∧ (1 ≤ mem_version m)%Z;
  wf_titles : ∀ i j a b, mems db !! i = Some a → mems db !! j = Some b →
    mem_title a = mem_title b → mem_namespace a = mem_namespace b → i = j;
  wf_archive : ∀ id a, ld_archived db !! id = Some a →
    mem_id (am_memory a) = id ∧ (1 ≤ mem_version (am_memory a))%Z
}.

(** What the version stands for: every column but the access count, the dates of
    access and update, the tier, the expiry and the priority, which reading a
    memory moves, and the id, the content id and the date of creation. *)
Definition guarded (m : Memory) :=
  ((mem_title m, mem_namespace m, mem_content m), (mem_tags m, mem_confidence m, mem_metadata m),
   (mem_memory_kind m, mem_source m, mem_source_uri m), (mem_citations m, mem_lifecycle_state m),
   (mem_reflection_depth m, mem_entity_id m, mem_persona_version m),
   (mem_source_span m, mem_confidence_source m, mem_confidence_signals m, mem_confidence_decayed_at m)).

(** One move of the lifecycle: a legal transition, or out of quarantine. *)
Definition life_move (a b : LifecycleState) : Prop :=
  Lifecycle_can_transition_to a b = true ∨ Lifecycle_dequarantine_target a = Some b.

(** What never changes in a row, and what changes only with the version, which
    never falls. *)
Record keeps (m m' : Memory) : Prop := {
  kp_id : mem_id m' = mem_id m;
  kp_cid : mem_cid m' = mem_cid m;
  kp_created : mem_created_at m' = mem_created_at m;
  kp_version : (mem_version m ≤ mem_version m')%Z;
  kp_guarded : mem_version m' = mem_version m → guarded m' = guarded m
}.

(** Moreover the tier never falls and the lifecycle moves by its machine. *)
Record evolves (m m' : Memory) : Prop := {
  ev_keeps : keeps m m';
  ev_tier : (tier_rank (mem_tier m) ≤ tier_rank (mem_tier m'))%Z;
  ev_life : rtc life_move (mem_lifecycle_state m) (mem_lifecycle_state m')
}.

#[global] Instance keeps_preorder : PreOrder keeps.
Proof.
  split; [by split|]. intros a b c [? ? ? ? Hg] [? ? ? ? Hg']. split; [congruence..|lia|].
  intros E. rewrite Hg', Hg by lia. done.
Qed.

#[global] Instance evolves_preorder : PreOrder evolves.
Proof.
  split; [intros m; split; [reflexivity|lia|apply rtc_refl]|].
  intros a b c [K1 T1 L1] [K2 T2 L2]. split; [by etransitivity|lia|by etransitivity].
Qed.

(** A write raises the version by one. *)
Lemma keeps_write m m' : mem_id m' = mem_id m → mem_cid m' = mem_cid m → mem_created_at m' = mem_created_at m →
  mem_version m' = (mem_version m + 1)%Z → keeps m m'.
Proof. intros ? ? ? E. split; [done..|lia|lia]. Qed.

(* ------------------------------------------------------------------ *)
(** * Tables *)

Lemma has_title_true t n m : has_title t n m = true ↔ mem_title m = t ∧ mem_namespace m = n.
Proof. unfold has_title. by rewrite andb_true_iff, !bool_decide_eq_true. Qed.

Lemma find_Some db t n id : find_by_title_namespace db t n = Some id →
  ∃ m, mems db !! id = Some m ∧ mem_title m = t ∧ mem_namespace m = n.
Proof.
  unfold find_by_title_namespace. intros H. apply head_Some_elem_of in H.
  apply list_elem_of_omap in H as ([i m] & Hin & E). simpl in E.
  destruct (has_title t n m) eqn:Ht; [|done]. injection E as <-. apply has_title_true in Ht.
  exists m. split; [by apply elem_of_map_to_list|done].
Qed.

Lemma find_None db t n : find_by_title_namespace db t n = None ↔
  ∀ id m, mems db !! id = Some m → ¬ (mem_title m = t ∧ mem_namespace m = n).
Proof.
  split.
  - unfold find_by_title_namespace. intros H id m Hm Ht%has_title_true. apply head_None in H.
    assert (id ∈ omap (λ kv : string * Memory, if has_title t n kv.2 then Some kv.1 else None)
      (map_to_list (mems db))) as Hin
      by (apply list_elem_of_omap; exists (id, m); simpl; by rewrite Ht, elem_of_map_to_list).
    rewrite H in Hin. by apply elem_of_nil in Hin.
  - intros H. destruct (find_by_title_namespace db t n) as [id|] eqn:E; [|done].
    apply find_Some in E as (m & Hm & Ht). by destruct (H id m Hm).
Qed.

(** Under a well-formed table the lookup finds the row there is. *)
Lemma find_row db id m : store_wf db → mems db !! id = Some m →
  find_by_title_namespace db (mem_title m) (mem_namespace m) = Some id.
Proof.
  intros Hwf Hm. destruct (find_by_title_namespace _ _ _) as [j|] eqn:E.
  - apply find_Some in E as (b & Hb & Ht & Hn). f_equal. by apply (wf_titles db Hwf j id b m).
  - exfalso. by apply (proj1 (find_None _ _ _) E id m).
Qed.

Lemma taken_by_other db id m : title_taken_by_other db id m = false ↔
  ∀ j b, j ≠ id → mems db !! j = Some b → ¬ (mem_title b = mem_title m ∧ mem_namespace b = mem_namespace m).
Proof.
  unfold title_taken_by_other. destruct (find_by_title_namespace _ _ _) as [j|] eqn:E; split; try done.
  - intros H. apply find_Some in E as (b & Hb & Ht). simpl in Hb. unfold mems in Hb. simpl in Hb.
    apply lookup_delete_Some in Hb as [Hne Hb]. by destruct (H j b).
  - intros _ j b Hne Hb. apply (proj1 (find_None _ _ _) E j b). simpl. unfold mems. simpl. by rewrite lookup_delete_ne.
Qed.

(* ------------------------------------------------------------------ *)
(** * The invariant *)

(** A row put under its own id, no other row having its title. *)
Lemma wf_put db id m : store_wf db → mem_id m = id → (1 ≤ mem_version m)%Z →
  (∀ j b, j ≠ id → mems db !! j = Some b → ¬ (mem_title b = mem_title m ∧ mem_namespace b = mem_namespace m)) →
  store_wf (put_row id m db).
Proof.
  intros [Hr Ht Ha] Hid Hv Hfree. split.
  - intros j b. simpl. unfold mems. simpl. destruct (decide (id = j)) as [<-|Hne];
      [rewrite lookup_insert_eq; by intros [= <-]|rewrite lookup_insert_ne by done; apply Hr].
  - intros i j a b. unfold mems. simpl. intros Hi Hj E1 E2.
    destruct (decide (id = i)) as [<-|Hi'], (decide (id = j)) as [<-|Hj']; [done|..].
    + rewrite lookup_insert_eq in Hi. injection Hi as <-. rewrite lookup_insert_ne in Hj by done.
      by destruct (Hfree j b).
    + rewrite lookup_insert_eq in Hj. injection Hj as <-. rewrite lookup_insert_ne in Hi by done.
      by destruct (Hfree i a).
    + rewrite lookup_insert_ne in Hi, Hj by done. by eapply Ht.
  - exact Ha.
Qed.

(** Rows gone, and the archive grown by copies of rows there were. *)
Lemma wf_shrink db db' : store_wf db → mems db' ⊆ mems db →
  (∀ id a, ld_archived db' !! id = Some a → ld_archived db !! id = Some a
    ∨ ∃ m, mems db !! id = Some m ∧ am_memory a = archived_copy m) → store_wf db'.
Proof.
  intros [Hr Ht Ha] Hsub Harch. split.
  - intros id m Hm. apply Hr. by eapply lookup_weaken.
  - intros i j a b Hi Hj. apply Ht; by eapply lookup_weaken.
  - intros id a [Hin|(m & Hm & ->)]%Harch; [by apply Ha|]. by apply Hr in Hm.
Qed.

(** A row altered in place keeps its title. *)
Lemma wf_alter db id f : store_wf db →
  (∀ m, mem_id (f m) = mem_id m ∧ mem_title (f m) = mem_title m ∧ mem_namespace (f m) = mem_namespace m
        ∧ (mem_version m ≤ mem_version (f m))%Z) → store_wf (alter_row f id db).
Proof.
  intros Hwf Hf. destruct (mems db !! id) as [m|] eqn:Hm.
  - assert (alter_row f id db = put_row id (f m) db) as ->.
    { unfold alter_row, put_row. f_equal. apply map_eq. intros j. destruct (decide (id = j)) as [<-|Hne];
        [by rewrite lookup_alter_eq, lookup_insert_eq, Hm|by rewrite lookup_alter_ne, lookup_insert_ne]. }
    destruct (Hf m) as (H1 & H2 & H3 & H4). destruct (wf_rows db Hwf _ _ Hm) as [Hi Hv].
    apply wf_put; [done|congruence|lia|]. rewrite H2, H3. intros j b Hne Hb [E1 E2].
    by apply Hne, (wf_titles db Hwf j id b m).
  - assert (alter_row f id db = db) as ->; [|done]. unfold alter_row.
    assert (alter f id (mems db) = mems db) as ->; [|by destruct db as [[] ? ? ? ? ?]].
    apply map_eq. intros j. destruct (decide (id = j)) as [<-|Hne]; [by rewrite lookup_alter_eq, Hm|].
    by rewrite lookup_alter_ne.
Qed.

(* ------------------------------------------------------------------ *)
(** * Operations *)

Lemma lift_Ok {A} (r : result A LinkError) x : lift r = Ok x ↔ r = Ok x.
Proof. destruct r; simpl; naive_solver. Qed.

(** The gates, when they let a write through. *)
Lemma gate_Ok env (k : result unit LinkError) :
  k = gate_storage_conn env → lift k = Ok tt ↔ env_stopped env = None.
Proof. intros ->. unfold gate_storage_conn. destruct (env_stopped env) as [[a b]|]; simpl; naive_solver. Qed.

Lemma upsert_tier_rank a b : tier_rank (upsert_tier a b) = Z.max (tier_rank a) (tier_rank b).
Proof. by destruct a, b. Qed.

Lemma patched_tier_rank r t : (tier_rank t ≤ tier_rank (patched_tier r t))%Z.
Proof. by destruct r as [[]|], t. Qed.

Section with_libs.
Context {CC : CapCrypto} {LC : LedgerCrypto} {PS : PolicySerde} {CH : Chrono} {JC : JsonCodec} {CS : ClockSerde}
  {L : Log2} {B3 : Blake3}.

Lemma upsert_Ok db row db' id : upsert db row = Ok (db', id) ↔
  (find_by_title_namespace db (mem_title row) (mem_namespace row) = None
    ∧ mems db !! mem_id row = None ∧ id = mem_id row ∧ db' = put_row id row db)
  ∨ ∃ stored, find_by_title_namespace db (mem_title row) (mem_namespace row) = Some id
    ∧ mems db !! id = Some stored ∧ db' = put_row id (upsert_merge stored row) db.
Proof.
  unfold upsert, memory_exists. destruct (find_by_title_namespace _ _ _) as [j|] eqn:Ef.
  - apply find_Some in Ef as (m & Hm & Ht). rewrite Hm. naive_solver.
  - destruct (mems db !! mem_id row) eqn:Hm; simpl; naive_solver.
Qed.

Lemma insert_Ok env now db m db' id : insert env now db m = Ok (db', id) ↔
  env_stopped (se_link env) = None ∧ consult_governance_pre_write (se_link env) m = Ok tt
  ∧ ∃ row, row_of env now m = Returns row ∧ upsert db row = Ok (db', id).
Proof.
  unfold insert. rewrite <-(gate_Ok (se_link env) _ eq_refl).
  destruct (lift (gate_storage_conn _)) as [[]|]; simpl; [|naive_solver].
  destruct (consult_governance_pre_write _ m) as [[]|]; simpl; [|naive_solver].
  destruct (row_of env now m); simpl; naive_solver.
Qed.

(** The row an insert writes starts at version one, under the memory's own id. *)
Lemma row_of_fixed env now m row : row_of env now m = Returns row → mem_id row = mem_id m ∧ mem_version row = 1%Z.
Proof.
  unfold row_of. destruct (redact_memory_for_storage (se_mode env) m) as [r| |] eqn:Hr; simpl; [|done..].
  destruct (stamp_memory_cid _) as [c| |]; simpl; [|done..]. intros [= <-]. split; [|done]. simpl.
  destruct r as [m'|]; [|done]. simpl. by eapply redacted_id.
Qed.

Lemma upsert_evolves stored row : evolves stored (upsert_merge stored row).
Proof.
  split; [by apply keeps_write| |apply rtc_refl]. cbn [mem_tier upsert_merge]. rewrite upsert_tier_rank. lia.
Qed.

(** Rows of other ids are left alone. *)
Lemma put_other db id m j : j ≠ id → mems (put_row id m db) !! j = mems db !! j.
Proof. intros Hne. unfold mems. simpl. by rewrite lookup_insert_ne. Qed.

Lemma put_same db id m : mems (put_row id m db) !! id = Some m.
Proof. unfold mems. simpl. by rewrite lookup_insert_eq. Qed.

Lemma wf_upsert db row db' id : store_wf db → (1 ≤ mem_version row)%Z → upsert db row = Ok (db', id) → store_wf db'.
Proof.
  intros Hwf Hv [(Hf & Hm & -> & ->)|(stored & Hf & Hm & ->)]%upsert_Ok.
  - apply wf_put; [done..|]. intros j b _ Hb. by apply (proj1 (find_None _ _ _) Hf j b).
  - destruct (wf_rows db Hwf _ _ Hm) as [Hid Hver]. apply wf_put; [done|done|simpl; lia|].
    apply find_Some in Hf as (m & Hm' & Ht & Hn). rewrite Hm in Hm'. injection Hm' as <-.
    simpl. intros j b Hne Hb [E1 E2]. by apply Hne, (wf_titles db Hwf j id b stored).
Qed.

Lemma wf_insert env now db m db' id : store_wf db → insert env now db m = Ok (db', id) → store_wf db'.
Proof.
  intros Hwf (_ & _ & row & Hr & H)%insert_Ok. apply row_of_fixed in Hr as [_ Hv]. eapply wf_upsert; [done| |exact H]. by rewrite Hv.
Qed.

(** What an insert does to a row that is there. *)
Lemma insert_row env now db m db' id j a b : insert env now db m = Ok (db', id) →
  mems db !! j = Some a → mems db' !! j = Some b → evolves a b.
Proof.
  intros (_ & _ & row & _ & H)%insert_Ok Ha Hb. apply upsert_Ok in H as [(Hf & Hm & -> & ->)|(stored & Hf & Hm & ->)].
  - destruct (decide (j = mem_id row)) as [->|Hne]; [by rewrite Hm in Ha|].
    rewrite put_other in Hb by done. rewrite Ha in Hb. injection Hb as <-. reflexivity.
  - destruct (decide (j = id)) as [->|Hne].
    + rewrite put_same in Hb. injection Hb as <-. rewrite Hm in Ha. injection Ha as ->. apply upsert_evolves.
    + rewrite put_other in Hb by done. rewrite Ha in Hb. injection Hb as <-. reflexivity.
Qed.

(** The refusing arm. *)
Lemma refuse_Ok env now db m db' id : insert_with_conflict env now db m ConflictRefuse = Ok (db', id) →
  env_stopped (se_link env) = None
  ∧ find_by_title_namespace db (mem_title m) (mem_namespace m) = None ∧ mems db !! mem_id m = None ∧ id = mem_id m
  ∧ ∃ stamp, stamp_memory_cid m = Returns stamp
    ∧ db' = put_row id (inserted_row (cs_cid stamp) (effective_expires_at now m) (mem_metadata m) m) db.
Proof.
  unfold insert_with_conflict, memory_exists. intros H.
  destruct (lift (gate_storage_conn _)) as [[]|] eqn:Hg; simpl in H; [|done].
  apply (gate_Ok (se_link env) _ eq_refl) in Hg. destruct (consult_governance_pre_write _ m) as [[]|]; simpl in H; [|done].
  destruct (find_by_title_namespace _ _ _); [done|]. destruct (stamp_memory_cid m) as [c| |]; simpl in H; [|done..].
  destruct (mems db !! mem_id m) eqn:Hm; simpl in H; [done|]. injection H as <- <-. split_and!; try done. by exists c.
Qed.

Lemma conflict_cases env now db m mode db' id : insert_with_conflict env now db m mode = Ok (db', id) →
  (∃ m', insert env now db m' = Ok (db', id))
  ∨ (∃ row, mem_version row = 1%Z ∧ mem_id row = id ∧ mems db !! id = None ∧ db' = put_row id row db
      ∧ find_by_title_namespace db (mem_title row) (mem_namespace row) = None).
Proof.
  destruct mode; intros H.
  - apply refuse_Ok in H as (_ & Hf & Hm & -> & c & _ & ->). right.
    exists (inserted_row (cs_cid c) (effective_expires_at now m) (mem_metadata m) m). by split_and!.
  - unfold insert_with_conflict in H. destruct (lift _) as [[]|]; simpl in H; [|done]. left. by eexists.
  - unfold insert_with_conflict in H. destruct (lift _) as [[]|]; simpl in H; [|done].
    destruct (next_versioned_title _ _ _); simpl in H; [|done]. left. by eexists.
Qed.

(* ------------------------------------------------------------------ *)
(** * Updates *)

(** The first phase, when it comes to a write. *)
Lemma prepare_Ok env now db id p expected w : prepare_update env now db id p expected = Ok (Some w) →
  env_stopped (se_link env) = None
  ∧ ∃ m, mems db !! id = Some m ∧ (∀ v, expected = Some v → mem_version m = v)
    ∧ uw_id w = id ∧ uw_row w = patched p m ∧ uw_source_uri w = pt_source_uri p ∧ uw_now w = now
    ∧ uw_expected w = expected
    ∧ (uw_content_changed w = false → mem_title (patched p m) = mem_title m ∧ mem_content (patched p m) = mem_content m).
Proof.
  unfold prepare_update. intros H. destruct (lift (gate_storage_conn _)) as [[]|] eqn:Hg; simpl in H; [|done].
  apply (gate_Ok (se_link env) _ eq_refl) in Hg. split; [done|]. destruct (mems db !! id) as [m|]; [|done]. exists m. split; [done|].
  set (changed := _ || _) in H.
  assert (changed = false → mem_title (patched p m) = mem_title m ∧ mem_content (patched p m) = mem_content m) as Hch
    by (intros [E1%bool_decide_eq_false E2%bool_decide_eq_false]%orb_false_elim; split; by apply dec_stable).
  destruct (match expected with Some v => _ | None => _ end) eqn:Hv; [done|].
  assert (∀ v, expected = Some v → mem_version m = v) as Hver
    by (intros v ->; apply bool_decide_eq_false in Hv; by apply dec_stable).
  destruct (consult_governance_pre_write _ _) as [[]|]; simpl in H; [|done]. by injection H as <-.
Qed.

(** The table and the archive after a commit. *)
Definition committed (at_ : string) (db : LinkDb) (w : UpdateWrite) (m : Memory) : LinkDb :=
  put_row (uw_id w) (updated_row w m)
    (if uw_content_changed w then archive_memory_insert_only at_ db (uw_id w) ARCHIVE_REASON_IN_PLACE_EDIT else db).

Lemma commit_update_Ok at_ db w db' found changed : commit_update at_ db w = Ok (db', (found, changed)) ↔
  (mems db !! uw_id w = None ∧ db' = db ∧ found = false ∧ changed = false)
  ∨ ∃ m, mems db !! uw_id w = Some m ∧ (∀ v, uw_expected w = Some v → mem_version m = v)
      ∧ title_taken_by_other db (uw_id w) (uw_row w) = false ∧ db' = committed at_ db w m
      ∧ found = true ∧ changed = uw_content_changed w.
Proof.
  unfold commit_update, committed. destruct (mems db !! uw_id w) as [m|]; [|naive_solver].
  destruct (uw_expected w) as [v|]; [case_bool_decide as Hv|];
    destruct (title_taken_by_other _ _ _); naive_solver.
Qed.

Lemma snapshot_mems at_ db id reason : mems (archive_memory_insert_only at_ db id reason) = mems db.
Proof. unfold archive_memory_insert_only. by destruct (mems db !! id). Qed.

Lemma committed_mems at_ db w m : mems (committed at_ db w m) = <[uw_id w := updated_row w m]> (mems db).
Proof. unfold committed. unfold mems at 1. simpl. f_equal. destruct (uw_content_changed w); [apply snapshot_mems|done]. Qed.

Lemma wf_snapshot at_ db id reason : store_wf db → store_wf (archive_memory_insert_only at_ db id reason).
Proof.
  intros Hwf. apply (wf_shrink db); [done|by rewrite snapshot_mems|]. unfold archive_memory_insert_only.
  intros j a. destruct (mems db !! id) as [m|] eqn:Hm; [|by left]. simpl.
  destruct (decide (id = j)) as [<-|Hne]; [rewrite lookup_insert_eq|rewrite lookup_insert_ne by done; by left].
  intros [= <-]. right. by exists m.
Qed.

Lemma wf_commit at_ db w db' r : store_wf db → commit_update at_ db w = Ok (db', r) → store_wf db'.
Proof.
  intros Hwf. destruct r as [found changed]. intros [(_ & -> & _)|(m & Hm & _ & Ht & -> & _)]%commit_update_Ok; [done|].
  destruct (wf_rows db Hwf _ _ Hm) as [Hid Hv]. unfold committed.
  apply wf_put; [destruct (uw_content_changed w); [by apply wf_snapshot|done]|done|simpl; lia|].
  intros j b Hne Hb. simpl. apply (proj1 (taken_by_other _ _ _) Ht j b Hne).
  destruct (uw_content_changed w); [by rewrite snapshot_mems in Hb|done].
Qed.

Lemma commit_row at_ db w db' r j a b : commit_update at_ db w = Ok (db', r) →
  mems db !! j = Some a → mems db' !! j = Some b → keeps a b.
Proof.
  destruct r as [found changed]. intros [(_ & -> & _)|(m & Hm & _ & _ & -> & _)]%commit_update_Ok Ha Hb;
    [rewrite Ha in Hb; by injection Hb as <-|]. rewrite committed_mems in Hb.
  destruct (decide (uw_id w = j)) as [<-|Hne];
    [rewrite lookup_insert_eq in Hb|rewrite lookup_insert_ne in Hb by done; rewrite Ha in Hb; by injection Hb as <-].
  injection Hb as <-. rewrite Hm in Ha. injection Ha as <-. by apply keeps_write.
Qed.

(** Both phases at once: the tier that was read is the tier that is raised. *)
Lemma update_row env now at_ db id p expected db' r j a b :
  update_with_expected_version env now at_ db id p expected = Ok (db', r) →
  mems db !! j = Some a → mems db' !! j = Some b → evolves a b.
Proof.
  unfold update_with_expected_version. intros H Ha Hb.
  destruct (prepare_update _ _ _ _ _ _) as [[w|]|] eqn:Hp; simpl in H; [|injection H as <- <-; rewrite Ha in Hb; by injection Hb as <-|done].
  pose proof (commit_row _ _ _ _ _ _ _ _ H Ha Hb) as Hk. destruct r as [found changed].
  apply prepare_Ok in Hp as (_ & m & Hm & _ & Hid & Hrow & _).
  apply commit_update_Ok in H as [(_ & -> & _)|(m' & Hm' & _ & _ & -> & _)]; [rewrite Ha in Hb; by injection Hb as <-|].
  rewrite committed_mems, Hid in Hb. rewrite Hid, Hm in Hm'. injection Hm' as <-.
  destruct (decide (id = j)) as [<-|Hne];
    [rewrite lookup_insert_eq in Hb|rewrite lookup_insert_ne in Hb by done; rewrite Ha in Hb; by injection Hb as <-].
  injection Hb as <-. rewrite Hm in Ha. injection Ha as <-.
  split; [done|simpl; rewrite Hrow; apply patched_tier_rank|apply rtc_refl].
Qed.

Lemma wf_update env now at_ db id p expected db' r : store_wf db →
  update_with_expected_version env now at_ db id p expected = Ok (db', r) → store_wf db'.
Proof.
  unfold update_with_expected_version. intros Hwf H.
  destruct (prepare_update _ _ _ _ _ _) as [[w|]|]; simpl in H; [by eapply wf_commit|by injection H as <- <-|done].
Qed.

(* ------------------------------------------------------------------ *)
(** * The other operations *)

(** A row written in another state. *)
Lemma write_state_mems now db id state :
  mems (write_state now db id state).1 = alter (λ m, bump_version (in_state state now m)) id (mems db).
Proof.
  unfold write_state. destruct (mems db !! id) as [m|] eqn:Hm; simpl; apply map_eq; intros j;
    (destruct (decide (id = j)) as [<-|Hne];
      [rewrite lookup_alter_eq, Hm; unfold mems; simpl; rewrite ?lookup_insert_eq; by try rewrite Hm
      |rewrite lookup_alter_ne by done; unfold mems; simpl; by rewrite ?lookup_insert_ne]).
Qed.

Lemma write_state_archive now db id state : ld_archived (write_state now db id state).1 = ld_archived db.
Proof. unfold write_state. by destruct (mems db !! id). Qed.

(** Any alteration of one row that keeps its id and title, at the level of the
    tables. *)
Lemma wf_mems_alter db db' id f : store_wf db → mems db' = alter f id (mems db) → ld_archived db' = ld_archived db →
  (∀ m, mem_id (f m) = mem_id m ∧ mem_title (f m) = mem_title m ∧ mem_namespace (f m) = mem_namespace m
        ∧ (mem_version m ≤ mem_version (f m))%Z) → store_wf db'.
Proof.
  intros Hwf Hm Ha Hf. destruct (wf_alter db id f Hwf Hf) as [H1 H2 H3].
  split; [by rewrite Hm|by rewrite Hm|by rewrite Ha].
Qed.

Lemma wf_write_state now db id state : store_wf db → store_wf (write_state now db id state).1.
Proof.
  intros Hwf. eapply wf_mems_alter; [done|apply write_state_mems|apply write_state_archive|]. intros m. simpl.
  split_and!; [done..|lia].
Qed.

Lemma alter_rows db db' id f j a b : mems db' = alter f id (mems db) → (∀ m, evolves m (f m)) →
  mems db !! j = Some a → mems db' !! j = Some b → evolves a b.
Proof.
  intros -> Hf Ha. destruct (decide (id = j)) as [<-|Hne];
    [rewrite lookup_alter_eq, Ha|rewrite lookup_alter_ne, Ha by done]; simpl; intros [= <-]; [apply Hf|reflexivity].
Qed.

Lemma keeps_state state now m : keeps m (bump_version (in_state state now m)).
Proof. by apply keeps_write. Qed.

Lemma promote_row_tier now m : evolves m (promote_row now m).
Proof.
  unfold promote_row. destruct (_ && _) eqn:E; [|reflexivity]. apply andb_true_iff in E as [E _].
  apply bool_decide_eq_true in E. split; [split; simpl; try done; lia|simpl; rewrite E; done|apply rtc_refl].
Qed.

Lemma access_evolves m tier priority count updated last expires :
  mem_tier m = tier → evolves m (with_access m tier priority count updated last expires).
Proof. intros <-. split; [split; simpl; try done; lia|simpl; lia|apply rtc_refl]. Qed.

Lemma touch_evolves now s mi m : evolves m (touch_row now s mi m).
Proof.
  unfold touch_row. etransitivity; [apply (access_evolves m (mem_tier m) (mem_priority m)); reflexivity|].
  etransitivity; [apply promote_row_tier|]. unfold raise_priority.
  destruct (_ && _); [by apply access_evolves|reflexivity].
Qed.

Lemma fold_row_evolves now n t s mi m : evolves m (fold_row now n t s mi m).
Proof. unfold fold_row. etransitivity; [|apply promote_row_tier]. by apply access_evolves. Qed.

(** Rows altered without touching what the titles index. *)
Lemma evolves_in_place m m' : evolves m m' → mem_version m' = mem_version m →
  mem_id m' = mem_id m ∧ mem_title m' = mem_title m ∧ mem_namespace m' = mem_namespace m
  ∧ (mem_version m ≤ mem_version m')%Z.
Proof. intros [[Hid _ _ _ Hg] _ _] Hv. specialize (Hg Hv). unfold guarded in Hg. split_and!; [done|congruence..|lia]. Qed.

Lemma promote_row_version now m : mem_version (promote_row now m) = mem_version m.
Proof. unfold promote_row. by destruct (_ && _). Qed.

Lemma touch_version now s mi m : mem_version (touch_row now s mi m) = mem_version m.
Proof.
  unfold touch_row, raise_priority. case_match; cbn [mem_version with_access]; by rewrite promote_row_version.
Qed.

Lemma fold_version now n t s mi m : mem_version (fold_row now n t s mi m) = mem_version m.
Proof. unfold fold_row. by rewrite promote_row_version. Qed.

(** The fold alters rows one after another. *)
Lemma fold_memory_db utc_now now s mi st id :
  ∃ f, (∀ m, evolves m (f m) ∧ mem_version (f m) = mem_version m)
    ∧ (fold_memory utc_now now s mi st id).1 = alter_row f id st.1.
Proof.
  destruct st as [db ledger]. eexists. split; [|reflexivity]. intros m. cbv beta.
  split; [apply fold_row_evolves|apply fold_version].
Qed.

Lemma fold_loop_ind (P : LinkDb → Prop) fuel clock s mi st total r :
  (∀ db id f, (∀ m, evolves m (f m) ∧ mem_version (f m) = mem_version m) → P db → P (alter_row f id db)) →
  P st.1 → fold_loop fuel clock s mi st total = Some r → P r.1.1.
Proof.
  intros Hstep. revert st total. induction fuel as [|fuel IH]; intros st total HP; [done|]. simpl.
  set (chunk := take _ _).
  assert (∀ l st, P st.1 → P (fold_left (fold_memory (clock fuel) (to_rfc3339 (clock fuel)) s mi) l st).1) as Hl.
  { clear -Hstep. induction l as [|id l IHl]; intros st Hst; [done|]. simpl. apply IHl.
    destruct (fold_memory_db (clock fuel) (to_rfc3339 (clock fuel)) s mi st id) as (f & Hf & ->). by apply Hstep. }
  destruct chunk as [|i chunk]; [by intros [= <-]|]. case_bool_decide; [intros [= <-]; by apply (Hl (i :: chunk))|].
  apply IH. by apply (Hl (i :: chunk)).
Qed.

Lemma archive_no_tx_mems now db id reason : mems (archive_memory_no_tx now db id reason).1 = base.delete id (mems db).
Proof.
  unfold archive_memory_no_tx. destruct (mems db !! id) eqn:Hm; simpl; [done|]. by rewrite delete_id.
Qed.

Lemma wf_archive_memory now db id reason : store_wf db → store_wf (archive_memory_no_tx now db id reason).1.
Proof.
  intros Hwf. apply (wf_shrink db); [done|rewrite archive_no_tx_mems; apply delete_subseteq|].
  unfold archive_memory_no_tx. intros j a. destruct (mems db !! id) as [m|] eqn:Hm; simpl; [|by left].
  destruct (decide (id = j)) as [<-|Hne]; [rewrite lookup_insert_eq|rewrite lookup_insert_ne by done; by left].
  intros [= <-]. right. by exists m.
Qed.

(** A create of a link keeps the memories. *)
Lemma create_link_mems env now uuid at_ db s t r db' : create_link env now uuid at_ db s t r = Ok db' →
  mems db' = mems db ∧ ld_archived db' = ld_archived db.
Proof.
  unfold create_link. destruct (create_link_signed _ _ _ _ _ _ _ _ _) as [[db1 level]|] eqn:E; simpl; [|done].
  intros [= <-]. apply create_link_signed_ok in E as (_ & _ & _ & sig & obs & _ & Hw).
  by apply written_row_frame in Hw as (? & _ & ? & _).
Qed.

Lemma promote_cases env now new_id t uuid at_ db src ns db' r :
  promote_to_namespace env now new_id t uuid at_ db src ns = (db', r) →
  db' = db ∨ ∃ source db1 id, mems db !! src = Some source ∧ insert env now db (clone_row new_id t ns source) = Ok (db1, id)
    ∧ mems db' = mems db1 ∧ ld_archived db' = ld_archived db1 ∧ ∀ x, r = Ok x → x = id.
Proof.
  unfold promote_to_namespace. destruct (decide _); [intros [= <- _]; by left|].
  destruct (mems db !! src) as [source|]; [|intros [= <- _]; by left].
  destruct (decide _); [intros [= <- _]; by left|]. destruct (negb _); [intros [= <- _]; by left|].
  destruct (insert _ _ _ _) as [[db1 id]|] eqn:Hi; [|intros [= <- _]; by left].
  intros H. right. exists source, db1, id. split; [done|]. split; [done|].
  destruct (create_link _ _ _ _ _ _ _ _) as [db2|] eqn:Hc.
  - injection H as <- <-. apply create_link_mems in Hc as [-> ->]. split_and!; [done..|]. by intros x [= ->].
  - injection H as <- <-. by split_and!.
Qed.

Lemma promote_Ok env now new_id t uuid at_ db src ns db' id :
  promote_to_namespace env now new_id t uuid at_ db src ns = (db', Ok id) →
  ∃ source db1, mems db !! src = Some source ∧ insert env now db (clone_row new_id t ns source) = Ok (db1, id)
    ∧ mems db' = mems db1.
Proof.
  unfold promote_to_namespace. destruct (decide _); [done|]. destruct (mems db !! src) as [source|]; [|done].
  destruct (decide _); [done|]. destruct (negb _); [done|]. destruct (insert _ _ _ _) as [[db1 i]|] eqn:Hi; [|done].
  destruct (create_link _ _ _ _ _ _ _ _) as [db2|] eqn:Hc; [|done]. intros [= <- <-].
  apply create_link_mems in Hc as [-> _]. by exists source, db1.
Qed.

Lemma supersede_Ok env now new_id t at_ db id p expected source db' r :
  update_with_archive_on_supersede env now new_id t at_ db id p expected source = Ok (db', r) →
  ∃ m stored, mems db !! id = Some m ∧ r = mkSuperseded (mem_id m) new_id
    ∧ insert env now (archive_memory_no_tx at_ db (mem_id m) (Some "superseded")).1 (successor_row p new_id t source m)
      = Ok (db', stored).
Proof.
  unfold update_with_archive_on_supersede. intros H. destruct (mems db !! id) as [m|] eqn:Hm; [|done].
  destruct (match expected with Some v => _ | None => _ end); [done|].
  destruct (lift _) as [[]|]; simpl in H; [|done]. destruct (ld_in_tx db); [done|].
  destruct (archive_memory_no_tx _ _ _ _) as [arch moved] eqn:Ha. destruct moved; simpl in H; [|done].
  destruct (insert _ _ _ _) as [[db1 stored]|] eqn:Hi; simpl in H; [|done]. injection H as <- <-.
  exists m, stored. by rewrite Ha.
Qed.

(** An undo writes by the update path, or nothing. *)
Lemma undo_cases env now at_ uuid event_at db id caller dry db' r :
  undo_in_place_edit env now at_ uuid event_at db id caller dry = (db', r) →
  db' = db ∨ ∃ p expected db1 flags, update_with_expected_version env now at_ db id p expected = Ok (db1, flags)
    ∧ mems db' = mems db1 ∧ ld_archived db' = ld_archived db1.
Proof.
  unfold undo_in_place_edit. destruct (mems db !! id) as [live|]; [|intros [= <- _]; by left].
  destruct (negb _); [intros [= <- _]; by left|].
  destruct (undo_snapshot db id) as [snap|]; [|intros [= <- _]; by left]. destruct dry; [intros [= <- _]; by left|].
  destruct (update_with_expected_version _ _ _ _ _ _ _) as [[db1 [found changed]]|] eqn:Hu;
    [|intros [= <- _]; by left]. intros H. right. exists (undo_patch snap), (Some (mem_version live)), db1, (found, changed).
  split; [done|]. destruct found; [|by injection H as <- _].
  unfold append_signed_event in H. destruct (ld_in_tx db1); [by injection H as <- _|].
  destruct (append_signed_event_no_tx _ _ _); simpl in H; by injection H as <- _.
Qed.

(** A restore puts a row where there is none. *)
Lemma restore_mems env mode now db id db' b : restore_archived env mode now db id = Ok (db', b) →
  db' = db ∨ ∃ a row, ld_archived db !! id = Some a ∧ mems db !! id = None ∧ mem_id row = mem_id (am_memory a)
    ∧ mem_version row = mem_version (am_memory a) ∧ title_taken db row = false
    ∧ mems db' = <[id := row]> (mems db) ∧ ld_archived db' = base.delete id (ld_archived db).
Proof.
  unfold restore_archived. intros H. destruct (ld_in_tx db); [done|].
  destruct (ld_archived db !! id) as [a|] eqn:Ha; [|injection H as <- _; by left].
  unfold memory_exists in H. destruct (mems db !! id) eqn:Hm; simpl in H; [done|].
  destruct (come_back (validate_metadata _ _)) as [valid|]; simpl in H; [|done].
  destruct (consult_governance_pre_write _ _); simpl in H; [|done].
  destruct (come_back (stamp_memory_cid _)) as [stamp|]; simpl in H; [|done]. right. set (row := rebuilt _ _ _ _ _ _ _) in H.
  destruct (title_taken db row) eqn:Ht; [done|]. exists a, row. unfold restore_links_for_memory in H.
  destruct (existsb _ _); simpl in H; [done|]. injection H as <- _. by split_and!.
Qed.

Lemma title_free db row : title_taken db row = false → ∀ j b, mems db !! j = Some b →
  ¬ (mem_title b = mem_title row ∧ mem_namespace b = mem_namespace row).
Proof.
  unfold title_taken. intros H j b Hb [E1 E2].
  assert (existsb (λ kv : string * Memory, bool_decide (mem_title kv.2 = mem_title row)
    && bool_decide (mem_namespace kv.2 = mem_namespace row)) (map_to_list (mems db)) = true) as Ht; [|congruence].
  apply existsb_exists. exists (j, b). split; [apply list_elem_of_In; by apply elem_of_map_to_list|].
  simpl. by rewrite !bool_decide_eq_true_2.
Qed.

(* ------------------------------------------------------------------ *)
(** * Steps *)

Context (env : StoreEnv).

(** The operations, each run to its end, and what other components do to the
    tables beside these rows. A fresh identifier names no row. *)
Inductive atomic_step (db : LinkDb) : LinkDb → Prop :=
| step_insert now m db' id : insert env now db m = Ok (db', id) → atomic_step db db'
| step_conflict now m mode db' id : insert_with_conflict env now db m mode = Ok (db', id) → atomic_step db db'
| step_update now at_ id p expected db' r :
    update_with_expected_version env now at_ db id p expected = Ok (db', r) → atomic_step db db'
| step_state now id state db' b : set_lifecycle_state now db id state = Ok (db', b) → atomic_step db db'
| step_dequarantine now id : atomic_step db (dequarantine now db id).1
| step_touch now s mi id : atomic_step db (touch now s mi db id)
| step_fold clock s mi ledger db' ledger' n :
    fold_recall_accesses clock s mi db ledger = Some (db', ledger', n) → atomic_step db db'
| step_supersede now new_id t at_ id p expected source db' r : mems db !! new_id = None →
    update_with_archive_on_supersede env now new_id t at_ db id p expected source = Ok (db', r) → atomic_step db db'
| step_undo now at_ uuid event_at id caller dry :
    atomic_step db (undo_in_place_edit env now at_ uuid event_at db id caller dry).1
| step_promote now new_id t uuid event_at id ns :
    atomic_step db (promote_to_namespace env now new_id t uuid event_at db id ns).1
| step_register now new_id t agent agent_type capabilities db' id :
    register_agent env now new_id t db agent agent_type capabilities = Ok (db', id) → atomic_step db db'
| step_delete id db' b : delete_memory (se_link env) db id = Ok (db', b) → atomic_step db db'
| step_archive now id reason db' b : archive_memory now db id reason = Ok (db', b) → atomic_step db db'
| step_restore mode now id db' b :
    restore_archived (se_link env) mode now db id = Ok (db', b) → atomic_step db db'
| step_other db' : mems db' = mems db → ld_archived db' = ld_archived db → atomic_step db db'.

(** Moreover the second phase of an update or of a lifecycle move, whatever
    happened since its first. *)
Inductive concurrent_step (db : LinkDb) : LinkDb → Prop :=
| step_atomic db' : atomic_step db db' → concurrent_step db db'
| step_commit db0 now at_ id p expected w db' r : prepare_update env now db0 id p expected = Ok (Some w) →
    commit_update at_ db w = Ok (db', r) → concurrent_step db db'
| step_write_state db0 now id state : check_transition db0 id state = Ok None →
    concurrent_step db (write_state now db id state).1.

Lemma fold_wf clock s mi db ledger db' ledger' n : store_wf db →
  fold_recall_accesses clock s mi db ledger = Some (db', ledger', n) → store_wf db'.
Proof.
  intros Hwf H. apply (fold_loop_ind store_wf (S (length ledger)) clock s mi (db, ledger) 0 (db', ledger', n));
    [|exact Hwf|exact H]. intros d id f Hf Hd.
  apply wf_alter; [done|]. intros m. destruct (Hf m). by apply evolves_in_place.
Qed.

Lemma wf_promote now new_id t uuid at_ db src ns : store_wf db →
  store_wf (promote_to_namespace env now new_id t uuid at_ db src ns).1.
Proof.
  intros Hwf. destruct (promote_to_namespace _ _ _ _ _ _ _ _ _) as [db' r] eqn:E.
  apply promote_cases in E as [->|(source & db1 & id & _ & Hi & Hm & Ha & _)]; [done|].
  destruct (wf_insert _ _ _ _ _ _ Hwf Hi) as [H1 H2 H3]. simpl. split; by rewrite ?Hm, ?Ha.
Qed.

Lemma wf_restore mode now db id db' b : store_wf db →
  restore_archived (se_link env) mode now db id = Ok (db', b) → store_wf db'.
Proof.
  intros Hwf [->|(a & row & Ha & Hm & Hid & Hv & Ht & Hms & Har)]%restore_mems; [done|].
  destruct (wf_archive db Hwf _ _ Ha) as [Hi Hver].
  destruct (wf_put db id row Hwf) as [H1 H2 H3]; [congruence|lia|intros j c _; by apply title_free|].
  split; rewrite ?Hms, ?Har; [exact H1|exact H2|]. intros j c [_ Hc]%lookup_delete_Some. by apply (wf_archive db Hwf).
Qed.

(** Every step keeps the table well formed. *)
Lemma store_step_wf db db' : store_wf db → concurrent_step db db' → store_wf db'.
Proof.
  intros Hwf [db1 H|db0 now at_ id p ex w db1 r _ H|db0 now id state _];
    [|by eapply wf_commit|by apply wf_write_state].
  destruct H.
  - by eapply wf_insert.
  - apply conflict_cases in H as [[m' H]|(row & Hv & <- & Hm & -> & Hf)]; [by eapply wf_insert|].
    apply wf_put; [done|done|lia|]. intros j b _. by apply find_None.
  - by eapply wf_update.
  - unfold set_lifecycle_state in H. destruct (check_transition _ _ _) as [[x|]|]; simpl in H; [by injection H as <- _| |done].
    injection H as H. pose proof (wf_write_state now db id state Hwf) as Hw. by rewrite H in Hw.
  - unfold dequarantine. destruct (mems db !! id); [|done]. destruct (decide _); [|done].
    by apply wf_write_state.
  - apply wf_alter; [done|]. intros m. apply evolves_in_place; [apply touch_evolves|apply touch_version].
  - by eapply fold_wf.
  - apply supersede_Ok in H0 as (m & stored & _ & _ & Hi). eapply wf_insert; [|exact Hi]. by apply wf_archive_memory.
  - destruct (undo_in_place_edit _ _ _ _ _ _ _ _ _) as [db1 r] eqn:E.
    apply undo_cases in E as [->|(p & ex & db2 & fl & Hu & Hm & Ha)]; [done|].
    destruct (wf_update _ _ _ _ _ _ _ _ _ Hwf Hu) as [H1 H2 H3]. simpl. split; by rewrite ?Hm, ?Ha.
  - by apply wf_promote.
  - by eapply wf_insert.
  - unfold delete_memory in H. destruct (gate_storage_conn _); simpl in H; [|done]. injection H as <- _.
    apply (wf_shrink db); [done|apply delete_subseteq|by left].
  - unfold archive_memory in H. destruct (ld_in_tx db); [done|]. injection H as H.
    pose proof (wf_archive_memory now db id reason Hwf) as Hw. by rewrite H in Hw.
  - by eapply wf_restore.
  - destruct Hwf as [H1 H2 H3]. split; by rewrite ?H, ?H0.
Qed.

Lemma insert_absent now db m db' id j : insert env now db m = Ok (db', id) → mems db !! j = None → j ≠ mem_id m →
  mems db' !! j = None.
Proof.
  intros (_ & _ & row & Hr & H)%insert_Ok Hj Hne. apply row_of_fixed in Hr as [Hid _].
  apply upsert_Ok in H as [(_ & _ & -> & ->)|(stored & _ & Hs & ->)].
  - by rewrite Hid, put_other.
  - rewrite put_other; [done|]. intros ->. by rewrite Hj in Hs.
Qed.

Lemma supersede_row now new_id t at_ db id p expected source db' r j a b : store_wf db → mems db !! new_id = None →
  update_with_archive_on_supersede env now new_id t at_ db id p expected source = Ok (db', r) →
  mems db !! j = Some a → mems db' !! j = Some b → evolves a b.
Proof.
  intros Hwf Hfresh (m & stored & Hm & _ & Hi)%supersede_Ok Ha Hb. destruct (wf_rows db Hwf _ _ Hm) as [Hid _].
  destruct (decide (j = id)) as [->|Hne].
  - rewrite insert_absent with (1 := Hi) in Hb; [done|rewrite archive_no_tx_mems, Hid; apply lookup_delete_eq|].
    simpl. intros ->. by rewrite Hfresh in Ha.
  - eapply insert_row; [exact Hi| |exact Hb]. by rewrite archive_no_tx_mems, Hid, lookup_delete_ne.
Qed.

Lemma dequarantine_row now db id j a b : mems db !! j = Some a → mems (dequarantine now db id).1 !! j = Some b → evolves a b.
Proof.
  intros Ha Hb. unfold dequarantine in Hb. destruct (mems db !! id) as [m|] eqn:Hm; [|cbn [fst] in Hb; rewrite Ha in Hb; by injection Hb as <-].
  destruct (decide _) as [Hq|]; [|cbn [fst] in Hb; rewrite Ha in Hb; by injection Hb as <-].
  rewrite write_state_mems in Hb. destruct (decide (id = j)) as [<-|Hne];
    [|rewrite lookup_alter_ne, Ha in Hb by done; by injection Hb as <-].
  rewrite lookup_alter_eq, Hm in Hb. rewrite Hm in Ha. injection Ha as <-. injection Hb as <-.
  split; [apply keeps_state|simpl; lia|]. apply rtc_once. right. by rewrite Hq.
Qed.

Lemma state_row now db id state db' c j a b : set_lifecycle_state now db id state = Ok (db', c) →
  mems db !! j = Some a → mems db' !! j = Some b → evolves a b.
Proof.
  unfold set_lifecycle_state, check_transition. intros H Ha Hb.
  destruct (mems db !! id) as [m|] eqn:Hm; [|injection H as <- _; rewrite Ha in Hb; by injection Hb as <-].
  destruct (decide _); [injection H as <- _; rewrite Ha in Hb; by injection Hb as <-|].
  destruct (Lifecycle_can_transition_to _ _) eqn:Hc; [|done]. simpl in H.
  pose proof (write_state_mems now db id state) as Hms. injection H as H. rewrite H in Hms. simpl in Hms.
  rewrite Hms in Hb. destruct (decide (id = j)) as [<-|Hne];
    [|rewrite lookup_alter_ne, Ha in Hb by done; by injection Hb as <-].
  rewrite lookup_alter_eq, Hm in Hb. rewrite Hm in Ha. injection Ha as <-. injection Hb as <-.
  split; [apply keeps_state|simpl; lia|]. apply rtc_once. by left.
Qed.

(** A row that an atomic step leaves has evolved. *)
Lemma atomic_row db db' j a b : store_wf db → atomic_step db db' → mems db !! j = Some a → mems db' !! j = Some b → evolves a b.
Proof.
  intros Hwf Hstep Ha. assert (∀ d, mems d = mems db → mems d !! j = Some b → evolves a b) as Hsame
    by (intros d ->; rewrite Ha; by intros [= <-]).
  destruct Hstep.
  - by eapply insert_row.
  - apply conflict_cases in H as [[m' H]|(row & _ & <- & Hm & -> & _)]; [by eapply insert_row|].
    rewrite put_other by (intros ->; by rewrite Hm in Ha). by apply (Hsame db).
  - by eapply update_row.
  - by eapply state_row.
  - by eapply dequarantine_row.
  - eapply alter_rows; [reflexivity|intros m; apply touch_evolves|done].
  - intros Hb. revert b Hb Hsame. assert (∃ a', mems db' !! j = Some a' ∧ evolves a a') as (a' & -> & He).
    { apply (fold_loop_ind (λ d, ∃ a', mems d !! j = Some a' ∧ evolves a a') (S (length ledger)) clock s mi (db, ledger) 0
        (db', ledger', n)); [|by exists a|exact H]. intros d id f Hf (a' & Ha' & He).
      unfold alter_row, mems. simpl. fold (mems d). destruct (decide (id = j)) as [<-|Hne];
        [rewrite lookup_alter_eq, Ha'; eexists; split; [done|]; etransitivity; [exact He|apply Hf]
        |rewrite lookup_alter_ne by done; by exists a']. }
    by intros b [= <-] _.
  - by eapply supersede_row.
  - destruct (undo_in_place_edit _ _ _ _ _ _ _ _ _) as [db1 r] eqn:E.
    apply undo_cases in E as [->|(p & ex & db2 & fl & Hu & Hm & _)]; [by apply Hsame|]. simpl. rewrite Hm.
    by eapply update_row.
  - destruct (promote_to_namespace _ _ _ _ _ _ _ _ _) as [db1 r] eqn:E.
    apply promote_cases in E as [->|(source & db2 & id' & _ & Hi & Hm & _)]; [by apply Hsame|]. simpl. rewrite Hm.
    by eapply insert_row.
  - by eapply insert_row.
  - unfold delete_memory in H. destruct (gate_storage_conn _); simpl in H; [|done]. injection H as <- _.
    change (mems (cascade_delete (delete_standard_of db id) id)) with (base.delete id (mems db)).
    intros [_ Hb]%lookup_delete_Some. by apply (Hsame db).
  - unfold archive_memory in H. destruct (ld_in_tx db); [done|]. injection H as H.
    pose proof (archive_no_tx_mems now db id reason) as Hms. rewrite H in Hms. simpl in Hms. rewrite Hms.
    intros [_ Hb]%lookup_delete_Some. by apply (Hsame db).
  - apply restore_mems in H as [->|(x & row & _ & Hm & _ & _ & _ & -> & _)]; [by apply Hsame|].
    rewrite lookup_insert_ne by (intros ->; by rewrite Hm in Ha). by apply (Hsame db).
  - by apply Hsame.
Qed.

Lemma concurrent_row db db' j a b : store_wf db → concurrent_step db db' →
  mems db !! j = Some a → mems db' !! j = Some b → keeps a b.
Proof.
  intros Hwf [db1 H|db0 now at_ id p ex w db1 r _ H|db0 now id state _] Ha Hb.
  - by eapply ev_keeps, atomic_row.
  - by eapply commit_row.
  - rewrite write_state_mems in Hb. destruct (decide (id = j)) as [<-|Hne];
      [|rewrite lookup_alter_ne, Ha in Hb by done; by injection Hb as <-].
    rewrite lookup_alter_eq, Ha in Hb. injection Hb as <-. apply keeps_state.
Qed.

(** Runs on which a row stays live. *)
Definition live_run (step : relation LinkDb) (id : string) : relation LinkDb :=
  rtc (λ db db', step db db' ∧ is_Some (mems db' !! id)).

Lemma live_keeps id db db' a : store_wf db → live_run concurrent_step id db db' → mems db !! id = Some a →
  store_wf db' ∧ ∃ b, mems db' !! id = Some b ∧ keeps a b.
Proof.
  intros Hwf Hrun. revert a Hwf. induction Hrun as [db|db db1 db' [Hstep [c Hc]] _ IH]; intros a Hwf Ha;
    [split; [done|]; exists a; by split|].
  destruct (IH c) as (Hwf' & b & Hb & Hk); [by eapply store_step_wf|done|]. split; [done|]. exists b. split; [done|].
  etransitivity; [|exact Hk]. exact (concurrent_row _ _ _ _ _ Hwf Hstep Ha Hc).
Qed.

Lemma live_evolves id db db' a : store_wf db → live_run atomic_step id db db' → mems db !! id = Some a →
  ∃ b, mems db' !! id = Some b ∧ evolves a b.
Proof.
  intros Hwf Hrun. revert a Hwf. induction Hrun as [db|db db1 db' [Hstep [c Hc]] _ IH]; intros a Hwf Ha;
    [exists a; by split|].
  destruct (IH c) as (b & Hb & Hk); [eapply store_step_wf; [done|by apply step_atomic]|done|]. exists b. split; [done|].
  etransitivity; [|exact Hk]. exact (atomic_row _ _ _ _ _ Hwf Hstep Ha Hc).
Qed.

Lemma terminal_stays a b : Lifecycle_is_terminal a = true → a ≠ LifeQuarantined → rtc life_move a b → b = a.
Proof. intros Ht Hq Hr. destruct Hr as [|a c b [H|H] _]; [done|by destruct a, c..]. Qed.

(** C12: the table stays well formed. Whatever is stored, updated, moved through
    its lifecycle, touched, folded, superseded, undone, promoted, registered,
    deleted, archived or restored, and however the two phases of updates and of
    lifecycle moves interleave, rows stay under their own id, versions start at
    one, no two live rows share a title and namespace, and archived copies stay
    under their own id. *)
Theorem store_stays_well_formed db db' : store_wf db → rtc concurrent_step db db' → store_wf db'.
Proof. intros Hwf Hrun. induction Hrun as [|x y z Hxy _ IH]; [done|]. by apply IH, (store_step_wf x). Qed.


(** A guarded patch over a row whose guarded part is the one that was read. *)
Lemma guarded_update w m0 m1 p : uw_row w = patched p m0 → uw_source_uri w = pt_source_uri p →
  guarded m1 = guarded m0 → guarded (updated_row w m1) = guarded (patched p m0).
Proof.
  unfold guarded. intros E Hu Hg. simplify_eq/=. rewrite E, Hu. simpl.
  by repeat match goal with H : _ m1 = _ m0 |- _ => rewrite H; clear H end.
Qed.


(** C26: the tier is read outside the transaction that writes it. A row of the
    middle tier that a touch promotes between the two phases of an update, with
    or without an expected version, is put back in the middle tier with its old
    expiry: a touch moves no version, so the check does not see it. *)
Theorem stale_update_demotes db now at_ id p expected w m t s mi :
  mems db !! id = Some m → mem_tier m = Mid → (PROMOTION_THRESHOLD - 1 ≤ mem_access_count m < MAX_ACCESS_COUNT)%Z →
  pt_tier p ≠ Some Long → prepare_update env now db id p expected = Ok (Some w) →
  title_taken_by_other db id (uw_row w) = false →
  ∃ db2 m1 m2, mems (touch t s mi db id) !! id = Some m1 ∧ mem_tier m1 = Long ∧ mem_expires_at m1 = None
    ∧ commit_update at_ (touch t s mi db id) w = Ok (db2, (true, uw_content_changed w))
    ∧ mems db2 !! id = Some m2 ∧ mem_tier m2 = Mid
    ∧ mem_expires_at m2 = patched_expires (pt_expires_at p) (mem_expires_at m).
Proof.
  intros Hm Ht Hn Hp Hprep Hfree. pose proof Hprep as (_ & m' & Hm' & Hv & Hid & Hrow & _ & _ & Hex & _)%prepare_Ok.
  rewrite Hm in Hm'. injection Hm' as <-.
  set (m1 := touch_row (to_rfc3339 t) (to_rfc3339 (plus_seconds t s)) (to_rfc3339 (plus_seconds t mi)) m).
  assert (mems (touch t s mi db id) = alter (touch_row (to_rfc3339 t) (to_rfc3339 (plus_seconds t s))
    (to_rfc3339 (plus_seconds t mi))) id (mems db)) as Hms by done.
  assert (mems (touch t s mi db id) !! id = Some m1) as H1 by (rewrite Hms, lookup_alter_eq, Hm; done).
  assert (mem_tier m1 = Long ∧ mem_expires_at m1 = None ∧ mem_version m1 = mem_version m) as (T1 & T2 & T3).
  { unfold m1. split_and!; [| |apply touch_version]; unfold touch_row, raise_priority, promote_row; simpl;
      rewrite Ht; (rewrite (bool_decide_eq_true_2 (PROMOTION_THRESHOLD ≤ _)%Z) by (unfold MAX_ACCESS_COUNT, PROMOTION_THRESHOLD in *; lia));
      simpl; by case_match. }
  exists (committed at_ (touch t s mi db id) w m1), m1, (updated_row w m1). split_and!; try done.
  - apply commit_update_Ok. right. exists m1. rewrite Hid. split_and!; try done.
    + intros v Hvx. rewrite T3. apply Hv. by rewrite <-Hvx, Hex.
    + apply taken_by_other. intros j b Hne. rewrite Hms, lookup_alter_ne by done.
      by apply (proj1 (taken_by_other _ _ _) Hfree).
  - by rewrite committed_mems, Hid, lookup_insert_eq.
  - simpl. rewrite Hrow. simpl. rewrite Ht. by destruct (pt_tier p) as [[]|].
  - simpl. by rewrite Hrow.
Qed.
End with_libs.

(* ------------------------------------------------------------------ *)
(** * The merge of metadata *)

(** One key of a patch. *)
Definition patch_field (m : btree value) (kv : string * value) : btree value :=
  match kv.2 with JNull => bremove kv.1 m | v => binsert kv.1 (json_patch (default JNull (bget kv.1 m)) v) m end.

Definition object_of (v : value) : btree value := match v with JObject m => m | _ => [] end.

Lemma json_patch_object t p : json_patch t (JObject p) = JObject (fold_left patch_field p (object_of t)).
Proof.
  simpl. fold (object_of t). f_equal. generalize (object_of t). induction p as [|[k v] p IH]; intros m; [done|].
  by destruct v; simpl; rewrite <-IH.
Qed.

Definition patched_key (l : option value) (x : value) : option value :=
  match x with JNull => None | v => Some (json_patch (default JNull l) v) end.

Lemma patch_field_lookup m k x y : bwf m →
  bget y (patch_field m (k, x)) = if decide (y = k) then patched_key (bget k m) x else bget y m.
Proof.
  intros Hm. unfold patch_field, patched_key. cbn [fst snd].
  destruct x; case_decide as Hy; subst; by rewrite ?bget_insert_eq, ?bget_insert_ne, ?bget_remove_eq, ?bget_remove_ne.
Qed.

Lemma patch_field_wf m kv : bwf m → bwf (patch_field m kv).
Proof. destruct kv as [k v]. intros Hm. unfold patch_field. simpl. destruct v; auto using bwf_insert, bwf_remove. Qed.

Lemma patch_lookup p m k : bwf m → bwf p →
  bget k (fold_left patch_field p m) = match bget k p with Some x => patched_key (bget k m) x | None => bget k m end.
Proof.
  revert m. induction p as [|[k' x] p IH]; intros m Hm Hp; [done|]. cbn [fold_left bget].
  apply bwf_cons in Hp as Hp'. destruct Hp' as [Hp' _].
  rewrite IH by (done || by apply patch_field_wf). rewrite patch_field_lookup by done.
  destruct (decide (k = k')) as [->|Hne]; [|done]. by rewrite (bwf_head_fresh _ _ _ Hp).
Qed.

Lemma provenance_get metadata k : json_get (provenance_of metadata) k =
  if decide (k ∈ PROVENANCE_KEYS) then each_value <$> json_get metadata k else None.
Proof.
  unfold provenance_of. destruct metadata as [| | | | |m]; simpl;
    try (by destruct (decide _)).
  rewrite !(decide_ext (k ∈ PROVENANCE_KEYS) (k = "agent_id" ∨ k = "derived_from" ∨ k = "consolidated_from_agents"))
    by (unfold PROVENANCE_KEYS; set_solver).
  assert (∀ key (o : option value) acc, bget k match o with Some v => binsert key (each_value v) acc | None => acc end
    = if decide (k = key) then match o with Some v => Some (each_value v) | None => bget k acc end else bget k acc) as Hget.
  { intros key o acc. destruct o; case_decide; subst; by rewrite ?bget_insert_eq, ?bget_insert_ne. }
  change (bget k (foldr (λ key acc, match bget key m with Some v => binsert key (each_value v) acc | None => acc end) []
    PROVENANCE_KEYS) = if decide (k = "agent_id" ∨ k = "derived_from" ∨ k = "consolidated_from_agents")
    then each_value <$> bget k m else None).
  unfold PROVENANCE_KEYS. cbn [foldr]. rewrite !Hget. cbn [bget].
  repeat case_decide; subst; try (destruct (bget _ m)); simpl; naive_solver.
Qed.

Lemma provenance_wf metadata : ∃ p, provenance_of metadata = JObject p ∧ bwf p.
Proof.
  unfold provenance_of. destruct metadata as [| | | | |m]; try (by exists []; split; [|apply bwf_nil]).
  eexists. split; [reflexivity|]. generalize PROVENANCE_KEYS. intros l.
  induction l as [|k l IH]; simpl; [apply bwf_nil|]. destruct (bget k m); [by apply bwf_insert|done].
Qed.

(** The metadata an upsert leaves, key by key. *)
Lemma upsert_metadata incoming stored k : bwf (object_of incoming) →
  json_get (json_patch incoming (provenance_of stored)) k =
  match (if decide (k ∈ PROVENANCE_KEYS) then each_value <$> json_get stored k else None) with
  | Some x => patched_key (bget k (object_of incoming)) x
  | None => bget k (object_of incoming)
  end.
Proof.
  intros Hi. destruct (provenance_wf stored) as (p & Hp & Hwf). rewrite <-provenance_get, Hp, json_patch_object.
  simpl. by apply patch_lookup.
Qed.

(* ------------------------------------------------------------------ *)
(** * Storing over a row *)

Section storing.
Context {CC : CapCrypto} {LC : LedgerCrypto} {PS : PolicySerde} {CH : Chrono} {JC : JsonCodec} {CS : ClockSerde}
  {L : Log2} {B3 : Blake3}.
Context (env : StoreEnv).
Lemma stamp_get md node t k : k ≠ VERSION_VECTOR → json_get (stamp_version_vector md node t) k = json_get md k.
Proof.
  intros Hk. unfold stamp_version_vector. case_decide; [done|]. destruct md; simpl; try done. by apply bget_insert_ne.
Qed.

Lemma stamp_wf md node t : bwf (object_of md) → bwf (object_of (stamp_version_vector md node t)).
Proof. intros Hwf. unfold stamp_version_vector. case_decide; [done|]. destruct md; simpl; try done. by apply bwf_insert. Qed.

Lemma object_get v k : bget k (object_of v) = json_get v k.
Proof. by destruct v. Qed.

(** The memory as this node stores it: masked, under its screen mode. *)
Definition stored_form (m src : Memory) : Prop :=
  ∃ r, redact_memory_for_storage (se_mode env) m = Returns r ∧ src = default m r.

Lemma row_of_stored now m row : row_of env now m = Returns row → ∃ src c, stored_form m src
  ∧ row = inserted_row c (effective_expires_at now src)
            (stamp_version_vector (mem_metadata src) (se_node env) (mem_updated_at src)) src.
Proof.
  unfold row_of. destruct (redact_memory_for_storage (se_mode env) m) as [r| |] eqn:Hr; simpl; [|done..].
  destruct (stamp_memory_cid _) as [c| |]; simpl; [|done..]. intros [= <-]. exists (default m r), (cs_cid c).
  split; [by exists r|done].
Qed.

(** Masking changes texts, and no key of the metadata. *)
Lemma stored_form_texts m src : stored_form m src →
  src = with_texts m (mem_content src) (mem_title src) (mem_tags src) (mem_metadata src)
  ∧ (bwf (object_of (mem_metadata m)) → bwf (object_of (mem_metadata src)))
  ∧ (se_mode env = ScreenOff → src = m).
Proof.
  intros (r & Hr & ->). destruct r as [m'|]; simpl; [|by destruct m]. pose proof (redacted_texts _ _ _ Hr) as [Ht (md & Hmd & E)].
  split; [done|]. split; [|intros Hoff; rewrite Hoff in Hr; discriminate Hr]. rewrite E. destruct md as [v|]; [|done]. simpl.
  unfold redact_metadata_values in Hmd. case_bool_decide; [done|]. destruct (mem_metadata m) as [| | | | |map] eqn:Em.
  6: { intros Hwf. apply redacted_keys in Hmd as (out & -> & Hk). unfold bwf in *. simpl in *. by rewrite Hk. }
  all: intros _; destruct v as [| | | | |map]; try apply bwf_nil.
  all: exfalso; revert Hmd; cbn [redact_value_leaves]; try done.
  - by destruct (redact_for_storage _ _) as [[]| |].
  - match goal with |- mbind _ ?x = _ → _ => destruct x as [[? []]| |] end; done.
Qed.

(** C14: what storing over a row does, column by column, in any screen mode. The
    row that has the title and namespace of the memory, as this node masks it,
    stays the row, with its id, content id, date of creation, access count, last
    access and lifecycle state, and the next version. Content, tags, source and
    date of update are the stored memory's; tier, priority and depth are the
    greater of the two, and so is the confidence; a reflection or persona stays
    one; entity and persona version are kept where there are any, the citations,
    source, span, signals and decay date are taken where there are any, and the
    source of the confidence unless it is the default; the expiry is none as soon
    as either row is long, else the stored memory's or the kept one. Of the
    metadata the author and the lineage of a consolidation are kept, an object
    being merged; every other key is the stored memory's with this node's clock
    stamped, and what the row had besides is gone, the clock's other components
    included. *)
Theorem upsert_exact now db m db' id old :
  store_wf db → bwf (object_of (mem_metadata m)) → insert env now db m = Ok (db', id) → mems db !! id = Some old →
  ∃ src new, stored_form m src
    ∧ src = with_texts m (mem_content src) (mem_title src) (mem_tags src) (mem_metadata src)
    ∧ (se_mode env = ScreenOff → src = m) ∧ mems db' !! id = Some new
    ∧ (mem_id new, mem_cid new, mem_created_at new, mem_access_count new, mem_last_accessed_at new, mem_lifecycle_state new)
      = (mem_id old, mem_cid old, mem_created_at old, mem_access_count old, mem_last_accessed_at old, mem_lifecycle_state old)
    ∧ mem_version new = (mem_version old + 1)%Z
    ∧ (mem_title new, mem_namespace new) = (mem_title src, mem_namespace src)
    ∧ (mem_title old, mem_namespace old) = (mem_title src, mem_namespace src)
    ∧ (mem_content new, mem_tags new, mem_source new, mem_updated_at new)
      = (mem_content src, mem_tags src, mem_source src, mem_updated_at src)
    ∧ tier_rank (mem_tier new) = Z.max (tier_rank (mem_tier old)) (tier_rank (mem_tier src))
    ∧ mem_priority new = Z.max (mem_priority old) (mem_priority src)
    ∧ mem_reflection_depth new = Z.max (mem_reflection_depth old) (mem_reflection_depth src)
    ∧ mem_confidence new
      = (if f64_gtb (mem_confidence src) (mem_confidence old) then mem_confidence src else mem_confidence old)
    ∧ mem_memory_kind new
      = (if decide (mem_memory_kind old = KindReflection ∨ mem_memory_kind old = KindPersona) then mem_memory_kind old
         else mem_memory_kind src)
    ∧ mem_entity_id new = coalesce (mem_entity_id old) (mem_entity_id src)
    ∧ mem_persona_version new = coalesce (mem_persona_version old) (mem_persona_version src)
    ∧ mem_citations new = (if is_nil (mem_citations src) then mem_citations old else mem_citations src)
    ∧ mem_source_uri new = coalesce (mem_source_uri src) (mem_source_uri old)
    ∧ mem_source_span new = coalesce (mem_source_span src) (mem_source_span old)
    ∧ mem_confidence_signals new = coalesce (mem_confidence_signals src) (mem_confidence_signals old)
    ∧ mem_confidence_decayed_at new = coalesce (mem_confidence_decayed_at src) (mem_confidence_decayed_at old)
    ∧ mem_confidence_source new
      = (if decide (mem_confidence_source src = CallerProvided) then mem_confidence_source old else mem_confidence_source src)
    ∧ mem_expires_at new
      = (if decide (mem_tier old = Long ∨ mem_tier src = Long) then None
         else coalesce (effective_expires_at now src) (mem_expires_at old))
    ∧ let stamped := stamp_version_vector (mem_metadata src) (se_node env) (mem_updated_at src) in
      (∀ k, k ∉ PROVENANCE_KEYS → json_get (mem_metadata new) k = json_get stamped k)
      ∧ ∀ k, k ∈ PROVENANCE_KEYS → json_get (mem_metadata new) k =
          match json_get (mem_metadata old) k with
          | None => json_get stamped k
          | Some JNull => None
          | Some v => Some (json_patch (default JNull (json_get stamped k)) (each_value v))
          end.
Proof.
  intros Hwf Hmd (_ & _ & r & (src & c & Hsrc & ->)%row_of_stored & H)%insert_Ok Hold.
  destruct (stored_form_texts _ _ Hsrc) as (Htext & Hmd' & Hoff). specialize (Hmd' Hmd).
  apply upsert_Ok in H as [(_ & Hn & -> & _)|(stored & Hf & Hs & ->)]; [by rewrite Hn in Hold|].
  rewrite Hold in Hs. injection Hs as <-. apply find_Some in Hf as (o & Ho & Et & En). simpl in Et, En.
  rewrite Hold in Ho. injection Ho as <-. exists src. eexists. split; [done|]. split; [exact Htext|]. split; [exact Hoff|].
  split; [apply put_same|]. cbv zeta. split_and!; try done; cbn -[json_patch provenance_of stamp_version_vector].
  - by rewrite Et, En.
  - by rewrite Et, En.
  - apply upsert_tier_rank.
  - unfold merge_counter, PnCounter.merge. simpl. by destruct (f64_gtb _ _).
  - by destruct (mem_memory_kind old).
  - by destruct (mem_confidence_source src).
  - unfold upsert_expires. simpl. destruct (mem_tier src), (mem_tier old); reflexivity.
  - intros k Hk. rewrite upsert_metadata by by apply stamp_wf. rewrite decide_False by done. apply object_get.
  - intros k Hk. rewrite upsert_metadata by by apply stamp_wf. rewrite decide_True, object_get by done.
    by destruct (json_get (mem_metadata old) k) as [[]|].
Qed.

(** The node stores credentials as they come. *)
Hypothesis unscreened : se_mode env = ScreenOff.

Lemma row_of_plain now m row : row_of env now m = Returns row → ∃ stamp, stamp_memory_cid m = Returns stamp
  ∧ row = inserted_row (cs_cid stamp) (effective_expires_at now m)
            (stamp_version_vector (mem_metadata m) (se_node env) (mem_updated_at m)) m.
Proof using unscreened.
  unfold row_of. rewrite unscreened. simpl. destruct (stamp_memory_cid m) as [c| |]; simpl; [|done..].
  intros [= <-]. by exists c.
Qed.

Lemma registration_wf agent agent_type r now caps :
  bwf (object_of (registration_metadata agent agent_type r now caps)).
Proof.
  unfold registration_metadata. match goal with |- bwf (object_of (foldr _ _ ?l)) => generalize l end.
  intros l. assert (∃ m, foldr (λ kv : string * value, json_insert kv.1 kv.2) (JObject []) l = JObject m ∧ bwf m)
    as (m & -> & Hm); [|done]. induction l as [|[k v] l (m & E & Hm)]; [exists []; split; [done|apply bwf_nil]|].
  cbn [foldr fst snd]. rewrite E. exists (binsert k v m). split; [done|by apply bwf_insert].
Qed.

(** Registering an agent again unbinds its key. Registration is documented
    to refresh the date and overwrite the type and the capabilities; it goes
    through the upsert, which drops the key bound to the agent. From then on the
    agent resolves to no bound key, and a lineage enrolled for it does not
    verify, whatever guardians are enrolled. *)
Lemma reregistration_unbinds {KB : KeyBytes CC} {CD : CborDecode} now new_id t db agent agent_type caps db' id old :
  store_wf db → register_agent env now new_id t db agent agent_type caps = Ok (db', id) → mems db !! id = Some old →
  ∃ row, mems db' !! id = Some row ∧ mem_title row = agent_registration_title agent
    ∧ mem_namespace row = AGENTS_NAMESPACE ∧ json_get (mem_metadata row) "agent_pubkey" = None
    ∧ ∀ policy ldb a v, ln_agents ldb !! agent = Some a → ag_metadata a = mem_metadata row →
        agent_pubkey ldb agent = None ∧ verify_agent_lineage policy ldb agent ≠ Ok (Ok v).
Proof using unscreened.
  unfold register_agent. intros Hwf (_ & _ & r & (c & _ & ->)%row_of_plain & H)%insert_Ok Hold.
  apply upsert_Ok in H as [(_ & Hn & -> & _)|(stored & Hf & Hs & ->)]; [by rewrite Hn in Hold|].
  apply find_Some in Hf as (o & Ho & Et & En). simpl in Et, En. rewrite Hs in Ho. injection Ho as <-.
  eexists. split; [apply put_same|]. simpl. split; [done|]. split; [done|].
  match goal with |- ?P ∧ _ => assert P as Hkey end.
  { rewrite upsert_metadata by (apply stamp_wf, registration_wf).
    rewrite decide_False by (unfold PROVENANCE_KEYS; set_solver). rewrite object_get, stamp_get by done. done. }
  split; [exact Hkey|]. intros policy ldb a v Ha Hmd.
  assert (agent_pubkey ldb agent = None) as Hpk
    by (unfold agent_pubkey; rewrite Ha; simpl; rewrite Hmd; unfold json_extract_text; by rewrite Hkey).
  split; [done|]. unfold verify_agent_lineage. destruct (read_lineage ldb agent) as [records|]; simpl; [|done].
  rewrite Hpk. unfold verify_lineage_with_recovery. destruct records as [|[g s] records]; [done|].
  destruct (negb _); [done|]. destruct (walk_records _ _ _) as [st|]; simpl; [|done].
  destruct (decide _); [done|]. by destruct (wk_prev st).
Qed.

(** A copy leaves quarantine. Promotion to an ancestor namespace copies the
    row as an open one, whatever its state: the copy of a quarantined memory is
    recalled, with the content that was held back, though no transition a caller
    may ask for leads out of quarantine. *)
Lemma clone_leaves_quarantine now new_id t uuid at_ db src ns source db' new :
  store_wf db → mems db !! src = Some source → mem_lifecycle_state source = LifeQuarantined →
  find_by_title_namespace db (mem_title source) ns = None →
  promote_to_namespace env now new_id t uuid at_ db src ns = (db', Ok new) →
  ∃ copy, mems db' !! new = Some copy ∧ mem_content copy = mem_content source ∧ mem_namespace copy = ns
    ∧ Lifecycle_is_recall_visible (mem_lifecycle_state copy) = true
    ∧ Lifecycle_is_recall_visible (mem_lifecycle_state source) = false
    ∧ ∀ state, Lifecycle_can_transition_to (mem_lifecycle_state source) state = false.
Proof using unscreened.
  intros Hwf Hsrc Hq Hfree H. destruct (promote_Ok _ _ _ _ _ _ _ _ _ _ _ H) as (s & db1 & Hs & Hi & Hm).
  rewrite Hsrc in Hs. injection Hs as <-. apply insert_Ok in Hi as (_ & _ & r & (c & _ & ->)%row_of_plain & Hi).
  apply upsert_Ok in Hi as [(_ & _ & -> & ->)|(stored & Hf & _)];
    [|simpl in Hf; by rewrite Hfree in Hf]. eexists. rewrite Hm, put_same. split; [done|]. simpl.
  rewrite Hq. by split_and!.
Qed.
End storing.
