(* ===== verification/MemoryEffects.v ===== *)
(** What single operations of [MemoryStore] do: the fold of the recall ledger
    against the touches it stands for and its end, the undo of an edit, the
    versioned insert and a supersession onto another row. *)
From stdpp Require Import pretty.
From S2P Require Import Prelude.
From S2P Require Import BTree.
From S2P Require Import Bytes.
From S2P Require Import Text.
From S2P Require Import F64.
From S2P Require Import Json.
From S2P Require Import Memory.
From S2P Require Import Clock.
From S2P Require Import Crdt.
From S2P Require Import Policy.
From S2P Require Import Governance.
From S2P Require Import Ledger.
From S2P Require Import Capability.
From S2P Require Import Attestation.
From S2P Require Import Lineage.
From S2P Require Import LineageStore.
From S2P Require Import SecretScreen.
From S2P Require Import Cid.
From S2P Require Import Links.
From S2P Require Import MemoryStore.
From S2P Require Import MemoryHistory.

(* ------------------------------------------------------------------ *)
(** * Touches of a row *)

(** A row but for the date of its last change, which a promotion writes. *)
Definition undated (m : Memory) : Memory :=
  with_access m (mem_tier m) (mem_priority m) (mem_access_count m) "" (mem_last_accessed_at m) (mem_expires_at m).

(** The texts of one touch: its time and the two expiries it may extend to. *)
Definition moment : Type := string * string * string.
Definition touch_at (m : Memory) (x : moment) : Memory := touch_row x.1.1 x.1.2 x.2 m.

Definition moment_le (x y : moment) : Prop :=
  (x.1.1 ≤ y.1.1)%string ∧ (x.1.2 ≤ y.1.2)%string ∧ (x.2 ≤ y.2)%string.

Lemma str_max_id a b : (a ≤ b)%string → str_max a b = b.
Proof. intros H. unfold str_max. split_strings; [done|]. by apply str_le_antisym. Qed.

Lemma str_max_twice e a b : (a ≤ b)%string → str_max (str_max e a) b = str_max e b.
Proof. intros H. rewrite <-(join_assoc (join := str_max)). by rewrite (str_max_id a b). Qed.

(** What a touch writes does not depend on the date of the last change. *)
Lemma touch_undated m x : undated (touch_at (undated m) x) = undated (touch_at m x).
Proof.
  unfold touch_at, touch_row. set (b := bump_access _ _ _ m). set (b' := bump_access _ _ _ (undated m)).
  assert (b' = with_access b (mem_tier b) (mem_priority b) (mem_access_count b) "" (mem_last_accessed_at b) (mem_expires_at b))
    as -> by done. unfold promote_row. cbn [mem_tier mem_access_count with_access].
  destruct (_ && _); unfold raise_priority; cbn [mem_access_count mem_priority with_access]; by destruct (_ && _).
Qed.

Lemma touch_undated_eq a b x : undated a = undated b → undated (touch_at a x) = undated (touch_at b x).
Proof. intros H. by rewrite <-(touch_undated a), H, touch_undated. Qed.

(** The counters of a row the ladders are exact for. *)
Definition in_range (m : Memory) (n : Z) : Prop :=
  (0 ≤ mem_access_count m ∧ mem_access_count m + n ≤ MAX_ACCESS_COUNT ∧ mem_priority m ≤ 10)%Z.

Definition seen_before (m : Memory) (x : moment) : Prop :=
  match mem_last_accessed_at m with Some t => (t ≤ x.1.1)%string | None => True end.

(** The row both leave, the date aside: [p] and [n] the priority and the count. *)
Definition reached (m : Memory) (p n : Z) (last : string) (short_exp mid_exp : string) : Memory :=
  let up := bool_decide (mem_tier m = Mid) && bool_decide (PROMOTION_THRESHOLD ≤ n)%Z in
  with_access m (if up then Long else mem_tier m) p n "" (Some last)
    (if up then None else extended_expiry m short_exp mid_exp).

Lemma fold_reached now n m x :
  undated (fold_row now n x.1.1 x.1.2 x.2 m) =
  reached m (Z.min (mem_priority m + (Z.min (mem_access_count m + n) MAX_ACCESS_COUNT `quot` 10
                                      - mem_access_count m `quot` 10)) 10)
    (Z.min (mem_access_count m + n) MAX_ACCESS_COUNT)
    (match mem_last_accessed_at m with Some t => str_max t x.1.1 | None => x.1.1 end) x.1.2 x.2.
Proof.
  unfold fold_row, promote_row, reached, undated. cbn [mem_tier mem_access_count with_access].
  by destruct (_ && _), (mem_last_accessed_at m).
Qed.

Definition raised (p n : Z) : Z := if bool_decide (n `mod` 10 = 0)%Z then Z.max p (Z.min (p + 1) 10) else p.

Lemma touch_reached m x : in_range m 1 →
  undated (touch_at m x) =
  reached m (raised (mem_priority m) (mem_access_count m + 1)) (mem_access_count m + 1) x.1.1 x.1.2 x.2.
Proof.
  intros (H1 & H2 & H3). unfold touch_at, touch_row, bump_access, promote_row, reached, undated, raised.
  rewrite Z.min_l by lia. cbn [mem_tier mem_access_count with_access]. set (up := _ && _).
  assert (∀ b tier exp, b = with_access m tier (mem_priority m) (mem_access_count m + 1) (mem_updated_at b)
    (Some x.1.1) exp → undated (raise_priority b) = with_access m tier
      (if bool_decide ((mem_access_count m + 1) `mod` 10 = 0)%Z then Z.max (mem_priority m) (Z.min (mem_priority m + 1) 10)
       else mem_priority m) (mem_access_count m + 1) "" (Some x.1.1) exp) as Hr.
  { intros b tier exp ->. unfold raise_priority, undated. cbn [mem_access_count mem_priority with_access].
    rewrite (bool_decide_eq_true_2 (0 < _)%Z) by lia. simpl. case_bool_decide as Hm; simpl; [|done].
    case_bool_decide; simpl; f_equal; lia. }
  unfold undated in Hr. destruct up; by apply Hr.
Qed.

Lemma quot_step a : (0 ≤ a)%Z →
  ((a + 1) `quot` 10 = a `quot` 10 + if bool_decide ((a + 1) `mod` 10 = 0) then 1 else 0)%Z.
Proof. intros H. rewrite !Z.quot_div_nonneg by lia. case_bool_decide; Z.to_euclidean_division_equations; lia. Qed.

(** One observation folded is one touch. *)
Lemma fold_once now m x : in_range m 1 → seen_before m x →
  undated (fold_row now 1 x.1.1 x.1.2 x.2 m) = undated (touch_at m x).
Proof.
  intros Hr Hs. rewrite fold_reached, touch_reached by done. destruct Hr as (H1 & H2 & H3).
  rewrite (Z.min_l _ MAX_ACCESS_COUNT) by lia. f_equal.
  - rewrite quot_step by done. unfold raised. case_bool_decide; lia.
  - unfold seen_before in Hs. destruct (mem_last_accessed_at m); [by apply str_max_id|done].
Qed.

(** Reaching on from what was reached. *)
Lemma reached_twice m p n t p' n' x y : (n ≤ n')%Z → moment_le x y →
  reached (reached m p n t x.1.2 x.2) p' n' y.1.1 y.1.2 y.2 = reached m p' n' y.1.1 y.1.2 y.2.
Proof.
  intros Hn (_ & Hs & Hm). unfold reached, extended_expiry. cbn [mem_tier mem_expires_at with_access].
  destruct (mem_tier m); simpl; try done.
  - destruct (mem_expires_at m); [by rewrite str_max_twice|done].
  - case_bool_decide as H1; simpl.
    + by rewrite bool_decide_eq_true_2 by lia.
    + case_bool_decide; [done|]. destruct (mem_expires_at m); [by rewrite str_max_twice|done].
Qed.

Lemma reached_counters m p n t s mi :
  mem_access_count (reached m p n t s mi) = n ∧ mem_priority (reached m p n t s mi) = p.
Proof. done. Qed.

(** Folded and then touched is folded with one more. *)
Lemma fold_snoc now n m x y : (1 ≤ n)%Z → in_range m (n + 1) → moment_le x y → seen_before m x →
  undated (touch_at (fold_row now n x.1.1 x.1.2 x.2 m) y) = undated (fold_row now (n + 1) y.1.1 y.1.2 y.2 m).
Proof.
  intros Hn (H1 & H2 & H3) Hxy Hseen. rewrite <-touch_undated, !fold_reached.
  rewrite !(Z.min_l _ MAX_ACCESS_COUNT) by lia.
  rewrite touch_reached by (unfold in_range, reached; cbn [mem_access_count mem_priority with_access]; lia).
  rewrite !(proj1 (reached_counters _ _ _ _ _ _)), !(proj2 (reached_counters _ _ _ _ _ _)). rewrite reached_twice by (done || lia). rewrite Z.add_assoc. f_equal.
  - rewrite quot_step by lia. pose proof (Z.quot_pos (mem_access_count m) 10 H1 ltac:(lia)).
    assert (mem_access_count m `quot` 10 ≤ (mem_access_count m + n) `quot` 10)%Z by (apply Z.quot_le_mono; lia).
    unfold raised. case_bool_decide; lia.
  - unfold seen_before in Hseen. destruct (mem_last_accessed_at m) as [t|]; [|done].
    symmetry. apply str_max_id. by destruct Hxy; etrans.
Qed.

(** A row folded once is the row touched at every moment. *)
Lemma fold_touches now m l x : Forall (seen_before m) (l ++ [x]) → StronglySorted moment_le (l ++ [x]) →
  in_range m (Z.of_nat (length (l ++ [x]))) →
  undated (fold_left touch_at (l ++ [x]) m) =
  undated (fold_row now (Z.of_nat (length (l ++ [x]))) x.1.1 x.1.2 x.2 m).
Proof.
  revert x. induction l as [|y l IH] using rev_ind; intros x Hf Hs Hr.
  - simpl. symmetry. apply fold_once; [done|]. by inversion Hf.
  - rewrite fold_left_app. cbn [fold_left].
    apply list.Forall_app in Hf as [Hf Hx]. rewrite length_app in Hr |- *. cbn [length] in Hr |- *.
    apply StronglySorted_app in Hs as (Hcross & Hs & _).
    rewrite (touch_undated_eq _ (fold_row now (Z.of_nat (length (l ++ [y]))) y.1.1 y.1.2 y.2 m)).
    + rewrite Nat2Z.inj_add. apply fold_snoc.
      * rewrite length_app. simpl. lia.
      * destruct Hr as (? & ? & ?). split_and!; lia.
      * apply Hcross; set_solver.
      * apply list.Forall_app in Hf as [_ Hf]. by inversion Hf.
    + apply IH; [done|done|]. destruct Hr as (? & ? & ?). split_and!; lia.
Qed.

(* ------------------------------------------------------------------ *)
(** * The fold of the recall ledger *)

Section fold.
Context {CC : CapCrypto} {LC : LedgerCrypto} {PS : PolicySerde} {CH : Chrono} {JC : JsonCodec} {CS : ClockSerde}
  {L : Log2} {B3 : Blake3}.

Definition moment_of (s mi : Z) (t : datetime) : moment :=
  (to_rfc3339 t, to_rfc3339 (plus_seconds t s), to_rfc3339 (plus_seconds t mi)).

Lemma alter_row_mems f id db : mems (alter_row f id db) = alter f id (mems db).
Proof. done. Qed.

Lemma alter_twice {A} (f g : A → A) (i : string) (m : gmap string A) : alter (f ∘ g) i m = alter f i (alter g i m).
Proof.
  apply map_eq. intros j. destruct (decide (i = j)) as [<-|Hne]; [|by rewrite !lookup_alter_ne].
  rewrite !lookup_alter_eq. by destruct (m !! i).
Qed.

Lemma touches_alter s mi id ts db :
  mems (fold_left (λ db t, touch t s mi db id) ts db) =
  alter (λ m, fold_left touch_at (moment_of s mi <$> ts) m) id (mems db).
Proof.
  revert db. induction ts as [|t ts IH]; intros db; simpl.
  - symmetry. apply map_eq. intros j. destruct (decide (id = j)) as [<-|Hne];
      [rewrite lookup_alter_eq; by destruct (_ !! _)|by rewrite lookup_alter_ne].
  - rewrite IH. unfold touch. rewrite alter_row_mems. by rewrite <-alter_twice.
Qed.

(** C23: the fold of a memory's pending observations is its touches. A row folded
    once with [n] unfolded observations ends as it would have after [n] touches
    at the times they record: the same access count, priority, last access,
    expiry and tier, everything but the date of a promotion; every other row is
    as it was. It holds below the ceiling of the counter, for priorities up to
    ten and times whose texts are in order. *)
Theorem fold_equals_touches now s mi db ledger id ts t :
  length (pending_of ledger id) = length (ts ++ [t]) →
  with_timezone_utc <$> parse_rfc3339 (latest (pending_of ledger id)) = Some t →
  StronglySorted moment_le (moment_of s mi <$> ts ++ [t]) →
  (∀ m, mems db !! id = Some m →
    in_range m (Z.of_nat (length (ts ++ [t]))) ∧ Forall (seen_before m) (moment_of s mi <$> ts ++ [t])) →
  undated <$> mems (fold_memory now (to_rfc3339 now) s mi (db, ledger) id).1 =
  undated <$> mems (fold_left (λ db t, touch t s mi db id) (ts ++ [t]) db).
Proof.
  intros Hn Ht Hs Hrow. unfold fold_memory. rewrite Ht, Hn. cbn [default fst]. rewrite alter_row_mems, touches_alter.
  apply map_eq. intros j. rewrite !lookup_fmap. destruct (decide (id = j)) as [<-|Hne]; [|by rewrite !lookup_alter_ne].
  rewrite !lookup_alter_eq. destruct (mems db !! id) as [m|]; [|done]. simpl. f_equal.
  destruct (Hrow m eq_refl) as [Hr Hf]. rewrite fmap_app in Hs, Hf |- *. cbn [fmap list_fmap] in Hs, Hf |- *.
  assert (length (ts ++ [t]) = length (moment_of s mi <$> ts ++ [t])) as Hlen by by rewrite length_fmap.
  rewrite fmap_app in Hlen. cbn [fmap list_fmap] in Hlen. rewrite Hlen in Hr |- *. symmetry.
  exact (fold_touches (to_rfc3339 now) m _ (moment_of s mi t) Hf Hs Hr).
Qed.

(** Observations still to be folded, and what marking leaves of them. *)
Definition unfolded (ledger : list Observation) : gset string :=
  list_to_set (ob_memory_id <$> List.filter (λ o, negb (ob_folded o)) ledger).

Definition marked (done_ : list string) (ledger : list Observation) : list Observation :=
  (λ o, if bool_decide (ob_memory_id o ∈ done_) then mkObservation (ob_memory_id o) (ob_observed_at o) true else o)
    <$> ledger.

Lemma pending_ids_perm ledger : pending_ids ledger ≡ₚ elements (unfolded ledger).
Proof. apply stable_sort_Permutation. Qed.

Lemma pending_ids_NoDup ledger : NoDup (pending_ids ledger).
Proof. rewrite pending_ids_perm. apply NoDup_elements. Qed.

Lemma elem_of_pending_ids ledger id : id ∈ pending_ids ledger ↔ id ∈ unfolded ledger.
Proof. rewrite pending_ids_perm. set_solver. Qed.

Lemma elem_of_unfolded ledger id : id ∈ unfolded ledger ↔ ∃ o, o ∈ ledger ∧ ob_memory_id o = id ∧ ob_folded o = false.
Proof.
  unfold unfolded. rewrite elem_of_list_to_set, list_elem_of_fmap. setoid_rewrite list_elem_of_In.
  setoid_rewrite filter_In. setoid_rewrite <-list_elem_of_In. setoid_rewrite negb_true_iff. naive_solver.
Qed.

Lemma marked_nil ledger : marked [] ledger = ledger.
Proof. apply list_fmap_id. Qed.

Lemma marked_cons id l ledger : marked (id :: l) ledger = marked l (marked [id] ledger).
Proof.
  unfold marked. rewrite <-list_fmap_compose. apply list_fmap_ext. intros i o _. simpl.
  repeat (case_bool_decide; simpl in *); try done; set_solver.
Qed.

Lemma unfolded_marked l ledger : unfolded (marked l ledger) = unfolded ledger ∖ list_to_set l.
Proof.
  apply set_eq. intros id. rewrite elem_of_difference, !elem_of_unfolded, elem_of_list_to_set. unfold marked.
  setoid_rewrite list_elem_of_fmap. split.
  - intros (o & (o0 & -> & Ho) & Hid & Hf). case_bool_decide; simpl in *; [done|]. subst. naive_solver.
  - intros [(o & Ho & <- & Hf) Hn]. exists o. split; [|done]. exists o. by rewrite bool_decide_eq_false_2.
Qed.

Lemma pending_marked l ledger id : id ∉ l → pending_of (marked l ledger) id = pending_of ledger id.
Proof.
  intros Hn. unfold pending_of, marked. induction ledger as [|o ledger IH]; [done|]. cbn [fmap list_fmap List.filter].
  destruct (decide (ob_memory_id o = id)) as [He|He].
  - rewrite (bool_decide_eq_false_2 (ob_memory_id o ∈ l)) by by rewrite He.
    rewrite (bool_decide_eq_true_2 (ob_memory_id o = id)) by done.
    rewrite andb_true_r. destruct (negb (ob_folded o)); [by rewrite !fmap_cons, IH|exact IH].
  - rewrite (bool_decide_eq_false_2 (ob_memory_id o = id)), andb_false_r by done.
    case_bool_decide; cbn [ob_memory_id ob_folded]; rewrite ?(bool_decide_eq_false_2 (ob_memory_id o = id)), ?andb_false_r by done; exact IH.
Qed.

Lemma fold_memory_ledger u n s mi st id : (fold_memory u n s mi st id).2 = marked [id] st.2.
Proof.
  destruct st as [db ledger]. simpl. apply list_fmap_ext. intros i o _.
  rewrite (bool_decide_ext (ob_memory_id o ∈ [id]) (ob_memory_id o = id)) by set_solver. done.
Qed.

(** What the fold does to one memory's row. *)
Definition folded_row (u : datetime) (s mi : Z) (ledger : list Observation) (id : string) (m : Memory) : Memory :=
  let times := pending_of ledger id in
  let t_max := default u (with_timezone_utc <$> parse_rfc3339 (latest times)) in
  fold_row (to_rfc3339 u) (Z.of_nat (length times)) (to_rfc3339 t_max) (to_rfc3339 (plus_seconds t_max s))
    (to_rfc3339 (plus_seconds t_max mi)) m.

Lemma fold_memory_mems u s mi st id :
  mems (fold_memory u (to_rfc3339 u) s mi st id).1 = alter (folded_row u s mi st.2 id) id (mems st.1).
Proof. by destruct st. Qed.

(** The memories of one chunk. *)
Lemma fold_chunk u s mi l st : NoDup l →
  (fold_left (fold_memory u (to_rfc3339 u) s mi) l st).2 = marked l st.2
  ∧ ∀ id, mems (fold_left (fold_memory u (to_rfc3339 u) s mi) l st).1 !! id =
      (if decide (id ∈ l) then folded_row u s mi st.2 id <$> mems st.1 !! id else mems st.1 !! id).
Proof.
  revert st. induction l as [|i l IH]; intros st Hnd; [split; [by rewrite marked_nil|done]|].
  apply NoDup_cons in Hnd as [Hi Hnd]. cbn [fold_left]. destruct (IH (fold_memory u (to_rfc3339 u) s mi st i) Hnd) as [Hl Hm].
  split; [by rewrite Hl, fold_memory_ledger, <-marked_cons|]. intros id.
  rewrite Hm, fold_memory_mems, fold_memory_ledger. destruct (decide (i = id)) as [<-|Hne].
  - rewrite decide_False by done. rewrite decide_True by set_solver. by rewrite lookup_alter_eq.
  - rewrite lookup_alter_ne by done. rewrite (decide_ext (id ∈ i :: l) (id ∈ l)) by set_solver.
    case_decide; [|done]. unfold folded_row. by rewrite pending_marked by set_solver.
Qed.

Lemma marked_app l1 l2 ledger : marked (l1 ++ l2) ledger = marked l2 (marked l1 ledger).
Proof. revert ledger. induction l1 as [|i l1 IH]; intros ledger; [by rewrite marked_nil|]. simpl. by rewrite marked_cons, IH, <-marked_cons. Qed.

Lemma marked_ext l1 l2 ledger : (∀ i, i ∈ l1 ↔ i ∈ l2) → marked l1 ledger = marked l2 ledger.
Proof. intros H. apply list_fmap_ext. intros _ o _. by rewrite (bool_decide_ext _ _ (H (ob_memory_id o))). Qed.

Lemma length_pending_ids ledger : length (pending_ids ledger) = size (unfolded ledger).
Proof. by rewrite pending_ids_perm. Qed.

Lemma chunk_positive : 0 < FOLD_CHUNK_MEMORIES.
Proof. unfold FOLD_CHUNK_MEMORIES. lia. Qed.

(** Each memory of a ledger is folded once, with all its observations. *)
Definition folded_into (s mi : Z) (st : LinkDb * list Observation) (db' : LinkDb) : Prop :=
  ∀ id, if decide (id ∈ unfolded st.2) then ∃ u, mems db' !! id = folded_row u s mi st.2 id <$> mems st.1 !! id
        else mems db' !! id = mems st.1 !! id.

Lemma fold_loop_drains fuel clock s mi st total : size (unfolded st.2) < fuel →
  ∃ db', fold_loop fuel clock s mi st total = Some (db', marked (pending_ids st.2) st.2, total + length (pending_ids st.2))
    ∧ folded_into s mi st db'.
Proof.
  revert st total. induction fuel as [|fuel IH]; intros st total Hfuel; [lia|]. cbn [fold_loop].
  set (p := pending_ids st.2) in *.
  pose proof chunk_positive as Hpos. set (chunk := FOLD_CHUNK_MEMORIES) in *. clearbody chunk.
  pose proof (pending_ids_NoDup st.2) as Hnd. fold p in Hnd.
  rewrite <-(take_drop chunk p) in Hnd. apply NoDup_app in Hnd as (Hnd & Hdisj & _).
  destruct (fold_chunk (clock fuel) s mi (take chunk p) st Hnd) as [Hl Hm].
  set (st1 := fold_left _ (take chunk p) st) in *. pose proof (length_pending_ids st.2) as Hsize. fold p in Hsize.
  assert (∀ id, id ∈ unfolded st.2 ↔ id ∈ p) as Hin by (intros; by rewrite <-elem_of_pending_ids).
  destruct (decide (length p < chunk)) as [Hlt|Hge].
  - rewrite take_ge in * by lia. exists st1.1. rewrite <-Hl. split.
    + destruct p; [rewrite Nat.add_0_r; unfold st1; rewrite take_nil; by destruct st|]. rewrite bool_decide_eq_true_2 by done. by rewrite <-(surjective_pairing st1).
    + intros id. rewrite Hm. rewrite (decide_ext (id ∈ unfolded st.2) (id ∈ p)) by apply Hin. case_decide; [by eexists|done].
  - assert (length (take chunk p) = chunk) as Hlen by (rewrite length_take; lia).
    assert (unfolded st1.2 = unfolded st.2 ∖ list_to_set (take chunk p)) as Hu
      by by rewrite Hl, unfolded_marked.
    assert (size (unfolded st1.2) + chunk = size (unfolded st.2)) as Hdown.
    { rewrite Hu, size_difference by (intros i Hi; apply elem_of_list_to_set, elem_of_take in Hi as (? & ? & _);
        by apply Hin, (list_elem_of_lookup_2 p x)). rewrite size_list_to_set by done. rewrite Hlen. lia. }
    destruct (IH st1 (total + chunk)) as (db' & Hrun & Hrows); [lia|]. exists db'. split.
    + rewrite Hlen. rewrite bool_decide_eq_false_2 by lia.
      assert (∀ A (a b : A), match take chunk p with [] => a | _ => b end = b) as Hmatch
        by (intros A a b; destruct (take _ _); [simpl in Hlen; lia|done]).
      rewrite Hmatch, Hrun, (length_pending_ids st1.2), <-Nat.add_assoc. rewrite (Nat.add_comm chunk), Hdown, <-Hsize.
      do 3 f_equal. rewrite Hl, <-marked_app. apply marked_ext. intros i.
      rewrite elem_of_app, <-Hl, elem_of_pending_ids, Hu, elem_of_difference, elem_of_list_to_set, Hin.
      assert (i ∈ p ↔ i ∈ take chunk p ∨ i ∈ drop chunk p) as -> by by rewrite <-elem_of_app, take_drop.
      destruct (decide (i ∈ take chunk p)); tauto.
    + intros id. specialize (Hrows id). rewrite Hm in Hrows. rewrite (decide_ext (id ∈ unfolded st1.2)
        (id ∈ unfolded st.2 ∧ id ∉ take chunk p)) in Hrows by (rewrite Hu; set_solver).
      destruct (decide (id ∈ take chunk p)) as [Hi|Hi].
      * rewrite decide_False in Hrows by naive_solver. rewrite decide_True; [by eexists|]. apply Hin.
        rewrite <-(take_drop chunk p). by apply elem_of_app; left.
      * rewrite (decide_ext (id ∈ unfolded st.2 ∧ id ∉ take chunk p) (id ∈ unfolded st.2)) in Hrows by naive_solver. case_decide; [|done].
        destruct Hrows as [u Hu']. exists u. rewrite Hu'. unfold folded_row. by rewrite Hl, pending_marked by done.
Qed.

Lemma unfolded_bound ledger : size (unfolded ledger) ≤ length ledger.
Proof.
  unfold unfolded. set (l := List.filter _ ledger). assert (length l ≤ length ledger).
  { unfold l. clear l. induction ledger as [|o ledger IH]; [done|]. cbn [List.filter length]. destruct (negb _); cbn [length]; lia. }
  assert (∀ k : list string, size (list_to_set k : gset string) ≤ length k) as Hk.
  { induction k as [|x k IH]; [done|]. cbn [list_to_set length].
    pose proof (size_union_alt ({[x]} : gset string) (list_to_set k)) as E. change (list_to_set (x :: k)) with ({[x]} ∪ list_to_set k : gset string).
    rewrite E, size_singleton. pose proof (subseteq_size (list_to_set k ∖ {[x]}) (list_to_set k : gset string) ltac:(set_solver)). lia. }
  specialize (Hk (ob_memory_id <$> l)). rewrite length_fmap in Hk. lia.
Qed.

(** C25: the fold drains the ledger. However many chunks it takes it ends, with
    every observation marked; each memory that had unfolded ones is counted once
    and its row is folded once, with all of them, every other row is as it was;
    and folding again changes nothing and counts nothing. *)
Theorem fold_drains clock s mi db ledger :
  ∃ db' ledger',
    fold_recall_accesses clock s mi db ledger = Some (db', ledger', length (pending_ids ledger))
    ∧ (∀ o, o ∈ ledger' → ob_folded o = true)
    ∧ (ob_memory_id <$> ledger') = (ob_memory_id <$> ledger)
    ∧ folded_into s mi (db, ledger) db'
    ∧ ∀ clock', fold_recall_accesses clock' s mi db' ledger' = Some (db', ledger', 0).
Proof.
  pose proof (unfolded_bound ledger) as Hb.
  destruct (fold_loop_drains (S (length ledger)) clock s mi (db, ledger) 0) as (db' & Hrun & Hrows); [simpl; lia|].
  exists db', (marked (pending_ids ledger) ledger). split; [exact Hrun|].
  assert (unfolded (marked (pending_ids ledger) ledger) = ∅) as He.
  { rewrite unfolded_marked. apply set_eq. intros i.
    rewrite elem_of_difference, elem_of_list_to_set, elem_of_pending_ids. set_solver. }
  split; [|split; [|split; [exact Hrows|]]].
  - intros o Ho. destruct (ob_folded o) eqn:E; [done|]. assert (ob_memory_id o ∈ (∅ : gset string)) as Hx; [|set_solver].
    rewrite <-He. apply elem_of_unfolded. by exists o.
  - unfold marked. rewrite <-list_fmap_compose. apply list_fmap_ext. intros _ o _. simpl. by case_bool_decide.
  - intros clock'. unfold fold_recall_accesses. cbn [fold_loop snd].
    assert (pending_ids (marked (pending_ids ledger) ledger) = []) as ->; [|by rewrite take_nil].
    apply Permutation_nil_r. rewrite pending_ids_perm, He. by rewrite elements_empty.
Qed.
End fold.

(* ------------------------------------------------------------------ *)
(** * Undo *)

Section effects.
Context {CC : CapCrypto} {LC : LedgerCrypto} {PS : PolicySerde} {CH : Chrono} {JC : JsonCodec} {CS : ClockSerde}
  {L : Log2} {B3 : Blake3}.
Context (env : StoreEnv).

(** The fields an undo puts back. *)
Definition edited_fields (m : Memory) :=
  ((mem_title m, mem_content m, mem_namespace m), (mem_tags m, mem_priority m, mem_confidence m, mem_metadata m)).

Lemma patched_tier_up t t' : (tier_rank t ≤ tier_rank t')%Z → patched_tier (Some t) t' = t'.
Proof. by destruct t, t'. Qed.

Lemma undo_patch_row snap live : edited_fields (patched (undo_patch snap) live) = edited_fields snap.
Proof. done. Qed.

(** An update that goes through, when it changes the text. *)
Lemma update_changed now at_ db id p expected db' : store_wf db →
  update_with_expected_version env now at_ db id p expected = Ok (db', (true, true)) →
  ∃ m m', mems db !! id = Some m ∧ mems db' = <[id := m']> (mems db)
    ∧ undo_snapshot db' id = Some (archived_copy m)
    ∧ edited_fields m' = edited_fields (patched p m) ∧ mem_version m' = (mem_version m + 1)%Z
    ∧ (tier_rank (mem_tier m) ≤ tier_rank (mem_tier m'))%Z
    ∧ mem_expires_at m' = patched_expires (pt_expires_at p) (mem_expires_at m)
    ∧ mem_source_uri m' = coalesce (pt_source_uri p) (mem_source_uri m)
    ∧ env_stopped (se_link env) = None ∧ ld_events db' = ld_events db ∧ ld_in_tx db' = ld_in_tx db.
Proof.
  intros Hwf. unfold update_with_expected_version. destruct (prepare_update _ _ _ _ _ _) as [[w|]|] eqn:Hp; simpl; [|done..].
  apply prepare_Ok in Hp as (Hstop & m & Hm & _ & Hid & Hrow & Huri & _).
  intros [(_ & _ & ? & _)|(m1 & Hm1 & _ & _ & -> & _ & Hch)]%commit_update_Ok; [done|].
  rewrite Hid, Hm in Hm1. injection Hm1 as <-. exists m, (updated_row w m). split; [done|].
  rewrite committed_mems, Hid. split; [done|].
  assert (archive_memory_insert_only at_ db id ARCHIVE_REASON_IN_PLACE_EDIT =
    with_archived db (<[id := mkArchivedMemory (archived_copy m) at_ ARCHIVE_REASON_IN_PLACE_EDIT (Some (mem_tier m)) (mem_expires_at m)]>
      (ld_archived db))) as Ha by (unfold archive_memory_insert_only; by rewrite Hm).
  unfold committed, undo_snapshot. rewrite <-Hch, Hid, Ha. simpl. rewrite lookup_insert_eq. simpl.
  rewrite Hrow, Huri. split_and!; try done; [unfold edited_fields; simpl; by rewrite Hrow|apply patched_tier_rank].
Qed.

(** An update that nothing refuses. *)
Lemma update_goes now at_ db id p m : env_stopped (se_link env) = None → mems db !! id = Some m →
  consult_governance_pre_write (se_link env) (patched p m) = Ok tt → title_taken_by_other db id (patched p m) = false →
  ∃ db' changed, update_with_expected_version env now at_ db id p (Some (mem_version m)) = Ok (db', (true, changed))
    ∧ (changed = false → mem_title (patched p m) = mem_title m ∧ mem_content (patched p m) = mem_content m)
    ∧ ∃ m', mems db' = <[id := m']> (mems db)
      ∧ edited_fields m' = edited_fields (patched p m) ∧ mem_version m' = (mem_version m + 1)%Z
      ∧ mem_tier m' = mem_tier (patched p m) ∧ mem_expires_at m' = mem_expires_at (patched p m)
      ∧ mem_source_uri m' = coalesce (pt_source_uri p) (mem_source_uri m).
Proof.
  intros Hstop Hm Hgov Hfree. unfold update_with_expected_version.
  destruct (prepare_update env now db id p (Some (mem_version m))) as [[w|]|] eqn:Hp.
  - pose proof Hp as (_ & m1 & Hm1 & Hv & Hid & Hrow & Huri & _ & Hex & Hch)%prepare_Ok.
    rewrite Hm in Hm1. injection Hm1 as <-. cbn beta iota. exists (committed at_ db w m), (uw_content_changed w).
    split; [|split; [done|]].
    + apply commit_update_Ok. right. exists m. rewrite Hid, Hrow, Hex. by split_and!.
    + exists (updated_row w m). rewrite committed_mems, Hid. unfold edited_fields. simpl. rewrite Hrow, Huri. by split_and!.
  - exfalso. unfold prepare_update in Hp. rewrite (proj2 (gate_Ok (se_link env) _ eq_refl) Hstop), Hm in Hp. simpl in Hp.
    rewrite bool_decide_eq_false_2, Hgov in Hp by (intros Hn; by apply Hn). done.
  - exfalso. unfold prepare_update in Hp. rewrite (proj2 (gate_Ok (se_link env) _ eq_refl) Hstop), Hm in Hp. simpl in Hp.
    rewrite bool_decide_eq_false_2, Hgov in Hp by (intros Hn; by apply Hn). done.
Qed.

(** C24: an undo puts back what an edit replaced. After an update that changed
    the text, an undo by an owner that no hook refuses restores the title, the
    content, the namespace, the tags, the priority, the confidence and the
    metadata the row had, as a new version; the tier stays where the edit left
    it, an expiry is restored when there was one, and where the row had none it
    keeps the one the edit gave it. The edited row takes the slot of the
    snapshot, so undoing again redoes the edit. The row is restored even when
    the audit row is refused. *)
Theorem undo_restores now at_ db id p expected db1 live now' at' uuid event_at caller :
  store_wf db → update_with_expected_version env now at_ db id p expected = Ok (db1, (true, true)) →
  mems db1 !! id = Some live → undo_permitted caller live (undo_snapshot db1 id) = true →
  (∀ m, consult_governance_pre_write (se_link env) m = Ok tt) →
  ∃ old db2 r row, mems db !! id = Some old
    ∧ undo_in_place_edit env now' at' uuid event_at db1 id caller false = (db2, r)
    ∧ mems db2 !! id = Some row
    ∧ edited_fields row = edited_fields old ∧ mem_version row = (mem_version old + 2)%Z
    ∧ mem_tier row = mem_tier live
    ∧ (∀ e, mem_expires_at old = Some e → e ≠ "" → e ≠ "null" → mem_expires_at row = Some e)
    ∧ (mem_expires_at old = None → mem_expires_at row = mem_expires_at live)
    ∧ (mem_title live ≠ mem_title old ∨ mem_content live ≠ mem_content old →
        undo_snapshot db2 id = Some (archived_copy live))
    ∧ ((∃ out, r = Ok out ∧ un_applied out = true ∧ un_after_version out = Some (mem_version live + 1)%Z)
       ∨ ∃ e, r = Err (SLink (LSql e))).
Proof.
  intros Hwf Hup Hlive Hperm Hgov.
  destruct (update_changed _ _ _ _ _ _ _ Hwf Hup) as (old & m' & Hold & Hms & Hsnap & _ & Hv & Ht & _ & _ & Hstop & _).
  rewrite Hms, lookup_insert_eq in Hlive. injection Hlive as ->.
  assert (store_wf db1) as Hwf1 by by eapply wf_update.
  assert (mems db1 !! id = Some live) as Hlive by by rewrite Hms, lookup_insert_eq.
  set (q := undo_patch (archived_copy old)).
  destruct (update_goes now' at' db1 id q live Hstop Hlive (Hgov _)) as (db2 & changed & Hu & Hch & row & Hms2 & Hf & Hv2 & Ht2 & He2 & _).
  { apply taken_by_other. intros j b Hne. rewrite Hms, lookup_insert_ne by done. intros Hb [E1 E2].
    by apply Hne, (wf_titles db Hwf j id b old). }
  assert (mems db2 !! id = Some row) as Hrow by by rewrite Hms2, lookup_insert_eq.
  assert (∃ db3 r, undo_in_place_edit env now' at' uuid event_at db1 id caller false = (db3, r) ∧ mems db3 = mems db2
    ∧ ld_archived db3 = ld_archived db2 ∧ ((∃ out, r = Ok out ∧ un_applied out = true
        ∧ un_after_version out = Some (mem_version live + 1)%Z) ∨ ∃ e, r = Err (SLink (LSql e))))
    as (db3 & r & Hundo & Hms3 & Har3 & Hr).
  { unfold undo_in_place_edit. rewrite Hlive, Hperm, Hsnap. cbn [negb]. fold q. rewrite Hu.
    unfold append_signed_event. destruct (ld_in_tx db2); [eexists _, _; split_and!; try done; right; by eexists|].
    destruct (append_signed_event_no_tx _ _ _); simpl; eexists _, _; (split_and!; [done..|]); [left|right]; by eexists. }
  exists old, db3, r, row. rewrite Hms3. split_and!; try done.
  - rewrite Hv2, Hv. lia.
  - rewrite Ht2. by apply patched_tier_up.
  - intros e E1 E2 E3. rewrite He2. simpl. rewrite E1. simpl. by rewrite decide_False by naive_solver.
  - intros E1. rewrite He2. simpl. by rewrite E1.
  - intros Hdiff. assert (changed = true) as ->.
    { destruct changed; [done|]. destruct (Hch eq_refl) as [E1 E2]. simpl in E1, E2. naive_solver. }
    destruct (update_changed _ _ _ _ _ _ _ Hwf1 Hu) as (m1 & _ & Hm1 & _ & Hsn & _).
    rewrite Hlive in Hm1. injection Hm1 as <-. unfold undo_snapshot in Hsn |- *. by rewrite Har3.
Qed.

(* ------------------------------------------------------------------ *)
(** * Titles *)

Lemma first_free_Some db base ns l t : first_free db base ns l = Some t →
  ∃ n, n ∈ l ∧ t = versioned_title base n ∧ find_by_title_namespace db t ns = None.
Proof.
  induction l as [|n l IH]; [done|]. simpl.
  destruct (find_by_title_namespace db (versioned_title base n) ns) eqn:E; simpl.
  - intros (k & Hk & ?)%IH. exists k. split; [by right|done].
  - intros [= <-]. exists n. split; [by left|done].
Qed.

Lemma first_free_None db base ns l : first_free db base ns l = None →
  ∀ n, n ∈ l → is_Some (find_by_title_namespace db (versioned_title base n) ns).
Proof.
  induction l as [|n l IH]; [intros _ k; by rewrite elem_of_nil|]. simpl.
  destruct (find_by_title_namespace db (versioned_title base n) ns) eqn:E; simpl; [|done].
  intros H k [->|Hk]%elem_of_cons; [by eexists|by apply IH].
Qed.

Lemma suffixes n : n ∈ seq 2 (MAX_VERSION_SUFFIX - 1) ↔ 2 ≤ n ≤ MAX_VERSION_SUFFIX.
Proof. rewrite elem_of_seq. unfold MAX_VERSION_SUFFIX. lia. Qed.

Lemma next_title_Ok db base ns t : next_versioned_title db base ns = Ok t →
  find_by_title_namespace db t ns = None
  ∧ (t = base ∨ ∃ n, 2 ≤ n ≤ MAX_VERSION_SUFFIX ∧ t = versioned_title base n).
Proof.
  unfold next_versioned_title. destruct (find_by_title_namespace db base ns) eqn:E; cbn [is_some].
  - destruct (first_free _ _ _ _) eqn:Ef; cbn [ok_or]; [|done]. intros [= <-].
    apply first_free_Some in Ef as (n & Hn%suffixes & -> & Hf). split; [done|]. right. by exists n.
  - intros [= <-]. split; [done|by left].
Qed.

Lemma next_title_Err db base ns e : next_versioned_title db base ns = Err e →
  is_Some (find_by_title_namespace db base ns)
  ∧ ∀ n, 2 ≤ n ≤ MAX_VERSION_SUFFIX → is_Some (find_by_title_namespace db (versioned_title base n) ns).
Proof.
  unfold next_versioned_title. destruct (find_by_title_namespace db base ns) eqn:E; cbn [is_some]; [|done].
  destruct (first_free _ _ _ _) eqn:Ef; cbn [ok_or]; [done|]. intros _. split; [by eexists|].
  intros n Hn%suffixes. by eapply first_free_None.
Qed.

Lemma insert_Err now db m e : insert env now db m = Err e → ∃ l, e = SLink l.
Proof.
  unfold insert, upsert. destruct (gate_storage_conn _); simpl; [|intros [= <-]; by eexists].
  destruct (consult_governance_pre_write _ _); simpl; [|intros [= <-]; by eexists].
  destruct (row_of _ _ _); simpl; [|intros [= <-]; by eexists..].
  destruct (find_by_title_namespace _ _ _); [destruct (_ !! _); [done|]|destruct (memory_exists _ _); [|done]];
    intros [= <-]; by eexists.
Qed.

Lemma archived_others now db id reason j : j ≠ id →
  ld_archived (archive_memory_no_tx now db id reason).1 !! j = ld_archived db !! j.
Proof. intros Hne. unfold archive_memory_no_tx. destruct (mems db !! id); [|done]. simpl. by rewrite lookup_insert_ne. Qed.

(** The node stores credentials as they come. *)
Hypothesis unscreened : se_mode env = ScreenOff.

(** Storing under the versioning policy never touches a row. It writes a
    new row under the memory's own id, with its title or the title and a suffix
    from 2 to 1024, and leaves every other row as it is; it reports a conflict
    only when the title and all its suffixes are taken. *)
Lemma versioned_insert_fresh now db m :
  (∀ db' id, insert_with_conflict env now db m ConflictVersion = Ok (db', id) →
     id = mem_id m ∧ mems db !! id = None
     ∧ ∃ row, mems db' = <[id := row]> (mems db) ∧ mem_content row = mem_content m
         ∧ mem_namespace row = mem_namespace m ∧ mem_version row = 1%Z
         ∧ find_by_title_namespace db (mem_title row) (mem_namespace m) = None
         ∧ (mem_title row = mem_title m ∨ ∃ n, 2 ≤ n ≤ MAX_VERSION_SUFFIX ∧ mem_title row = versioned_title (mem_title m) n))
  ∧ (∀ t ns, insert_with_conflict env now db m ConflictVersion = Err (SUniqueConflict t ns) →
     is_Some (find_by_title_namespace db (mem_title m) (mem_namespace m))
     ∧ ∀ n, 2 ≤ n ≤ MAX_VERSION_SUFFIX →
         is_Some (find_by_title_namespace db (versioned_title (mem_title m) n) (mem_namespace m))).
Proof using unscreened.
  unfold insert_with_conflict. destruct (gate_storage_conn _) as [[]|e]; simpl; [|by split].
  destruct (next_versioned_title _ _ _) as [t|e] eqn:Hn; simpl; [|split; [done|]; intros; by eapply next_title_Err].
  apply next_title_Ok in Hn as [Hf Ht]. split; [|by intros t' ns [l ?]%insert_Err].
  intros db' id (_ & _ & r & (c & _ & ->)%row_of_plain & H)%insert_Ok; [|done]. simpl in H.
  apply upsert_Ok in H as [(_ & Hm & -> & ->)|(stored & Hs & _)]; [|simpl in Hs; by rewrite Hf in Hs].
  split; [done|]. split; [done|]. eexists. split; [reflexivity|]. by split_and!.
Qed.

(** A supersession can overwrite a stranger. When the replacement's title
    and namespace are another row's, the old row is archived, and the
    replacement is merged into the other row: the identifier that is returned
    names no row, no row carries the patched content but the stranger, and the
    stranger's own content is neither live nor archived. *)
Lemma supersede_overwrites_neighbour now new_id t at_ db id p expected source db' r m n neighbour :
  store_wf db → mems db !! id = Some m → mems db !! n = Some neighbour → n ≠ id → mems db !! new_id = None →
  mem_title neighbour = mem_title (patched p m) → mem_namespace neighbour = mem_namespace (patched p m) →
  update_with_archive_on_supersede env now new_id t at_ db id p expected source = Ok (db', r) →
  sr_new_id r = new_id ∧ mems db' !! new_id = None ∧ mems db' !! id = None
  ∧ ld_archived db' !! n = ld_archived db !! n
  ∧ ∃ row, mems db' !! n = Some row ∧ mem_content row = mem_content (patched p m) ∧ mem_id row = n.
Proof using unscreened.
  intros Hwf Hm Hn Hne Hfresh Et En (m1 & stored & Hm1 & -> & Hi)%supersede_Ok. rewrite Hm in Hm1. injection Hm1 as <-.
  destruct (wf_rows db Hwf _ _ Hm) as [Hid _]. rewrite Hid in Hi.
  pose proof (wf_archive_memory at_ db id (Some "superseded") Hwf) as Hwf1.
  pose proof (archive_no_tx_mems at_ db id (Some "superseded")) as Hms.
  pose proof (archived_others at_ db id (Some "superseded") n Hne) as Har.
  set (db1 := (archive_memory_no_tx at_ db id (Some "superseded")).1) in *.
  assert (mems db1 !! n = Some neighbour) as Hn1 by by rewrite Hms, lookup_delete_ne.
  pose proof (find_row db1 n neighbour Hwf1 Hn1) as Hfind. rewrite Et, En in Hfind.
  apply insert_Ok in Hi as (_ & _ & r & (c & _ & ->)%row_of_plain & Hi); [|done].
  apply upsert_Ok in Hi as [(Hf & _)|(st & Hf & Hst & ->)]; unfold successor_row, inserted_row in Hf; cbn [mem_title mem_namespace] in Hf; rewrite Hfind in Hf; [done|].
  injection Hf as <-. rewrite Hn1 in Hst. injection Hst as <-. destruct (wf_rows db1 Hwf1 _ _ Hn1) as [Hnid _].
  split; [done|]. split; [rewrite put_other; [by rewrite Hms, lookup_delete_None; right|]; intros ->; by rewrite Hn in Hfresh|].
  split; [rewrite put_other by done; by rewrite Hms, lookup_delete_eq|]. split; [exact Har|].
  eexists. split; [apply put_same|]. by simpl.
Qed.
End effects.

(* ------------------------------------------------------------------ *)
(** * Restoring *)

Section restoring.
Context {CC : CapCrypto} {LC : LedgerCrypto} {PS : PolicySerde} {CH : Chrono} {JC : JsonCodec} {L : Log2} {B3 : Blake3}.

(** The row a restore puts back carries the id of what it now holds. *)
Lemma restored_row env mode now db id db' a : ld_archived db !! id = Some a →
  restore_archived env mode now db id = Ok (db', true) →
  ∃ row stamp, mems db' !! id = Some row ∧ stamp_memory_cid row = Returns stamp ∧ mem_cid row = Some (cs_cid stamp)
    ∧ (separable (am_memory a) → separable row).
Proof.
  intros Ha. unfold restore_archived. rewrite Ha. destruct (ld_in_tx db); [done|]. destruct (memory_exists db id); [done|].
  destruct (come_back (validate_metadata _ _)) as [valid|]; simpl; [|done].
  destruct (consult_governance_pre_write _ _); simpl; [|done].
  match goal with |- context [stamp_memory_cid ?c] => destruct (stamp_memory_cid c) as [stamp| |] eqn:Hs end; simpl; [|done..].
  destruct (title_taken _ _); [done|]. unfold restore_links_for_memory. destruct (existsb _ _); simpl; [done|]. intros [= <-].
  eexists _, stamp. unfold mems. simpl. rewrite lookup_insert_eq. split; [reflexivity|]. split; [exact Hs|]. split; [done|].
  intros (Ho & Hn & Hc). destruct valid; [done|]. split; [|done]. apply (bool_decide_unpack _). by vm_compute.
Qed.

(** C28: a restore gives a memory another id. The id is minted at the memory's
    first write and no edit changes it, but a restore mints it again, from what
    the archived copy holds by then: the row comes back under the id it was
    first given exactly when its author, namespace, kind, date and screened
    texts are still the first ones, unless the row and the first memory are
    themselves a collision of a hash. It is stated of memories whose author,
    namespace and date hold no separator byte. *)
Theorem restore_remints_id {LCL : LedgerCryptoLaws LC} env mode now db id db' a first stamp :
  ld_archived db !! id = Some a → separable (am_memory a) → separable first → stamp_memory_cid first = Returns stamp →
  restore_archived env mode now db id = Ok (db', true) →
  ∃ row new, mems db' !! id = Some row ∧ stamp_memory_cid row = Returns new ∧ mem_cid row = Some (cs_cid new)
    ∧ (genesis_of row = genesis_of first → mem_cid row = Some (cs_cid stamp))
    ∧ (mem_cid row = Some (cs_cid stamp) → genesis_of row = genesis_of first ∨ collide row first new stamp).
Proof.
  intros Ha Hsep Hfirst Hstamp (row & c & Hrow & Hc & Hid & Hs)%(restored_row _ _ _ _ _ _ _ Ha).
  exists row, c. split; [done|]. split; [done|]. split; [done|]. rewrite Hid. split.
  - intros Hg. f_equal. f_equal. by eapply same_genesis_same_id.
  - intros [= E]. eapply same_id_same_genesis; [by apply Hs|exact Hfirst|exact Hc|exact Hstamp|exact E].
Qed.
End restoring.
