(* ===== verification/StoreWitness.v ===== *)
(** A small store on which the theorems of [MemoryHistory] and [MemoryEffects]
    apply: four rows, instants printed as decimal digits. *)
From stdpp Require Import pretty.
From S2P Require Import Prelude.
From S2P Require Import BTree.
From S2P Require Import Bytes.
From S2P Require Import Text.
From S2P Require Import F64.
From S2P Require Import Json.
From S2P Require Import Memory.
From S2P Require Import Clock.
From S2P Require Import Crdt.
From S2P Require Import Policy.
From S2P Require Import Governance.
From S2P Require Import Ledger.
From S2P Require Import Capability.
From S2P Require Import Attestation.
From S2P Require Import Permissions.
From S2P Require Import Lineage.
From S2P Require Import LineageStore.
From S2P Require Import SecretScreen.
From S2P Require Import Cid.
From S2P Require Import Links.
From S2P Require Import MemoryStore.
From S2P Require Import MemoryHistory.
From S2P Require Import MemoryEffects.

#[local] Existing Instance demo_attest_crypto.
#[local] Existing Instance demo_key_codec.
#[local] Existing Instance demo_ledger_crypto.
#[local] Existing Instance Crdt.demo_serde.
#[local] Existing Instance Crdt.demo_chrono.
#[local] Existing Instance demo_lineage_json.
#[local] Instance demo_no_policy : PolicySerde := λ _, None.
#[local] Existing Instance log2_powers.
#[local] Existing Instance Cid.demo_blake3.

Definition store_row (id title ns content : string) (tier : Tier) (count : Z) (expires : option string)
    (life : LifecycleState) (md : btree value) : Memory :=
  mkMemory id (Some "b3:0") tier ns title content [] 5 f64_one "api" count "10" "10" None expires
    (JObject md) 0 KindObservation None None [] None None CallerProvided None None 1 life.

Definition row_a : Memory :=
  store_row "a" "plan" "team/x" "first" Mid 4 (Some "50") LifeOpen [("agent_id", JString "ai:alice")].
Definition row_q : Memory := store_row "q" "spam" "team/x" "buy" Mid 0 None LifeQuarantined [].
Definition row_k : Memory :=
  store_row "k" "agent:ai:k" "_agents" "{}" Long 0 None LifeOpen
    [("agent_id", JString "ai:k"); ("agent_pubkey", JString "key")].

Definition demo_store : LinkDb :=
  mkLinkDb (mkGovDb {[ "a" := row_a; "q" := row_q; "k" := row_k ]} ∅ ∅) ∅ ∅ ∅ [] false.
Definition demo_store_env : StoreEnv := mkStoreEnv (mkEnv None false [] [] ModeOff None (λ _, None)) ScreenOff "node".

Lemma demo_store_rows id m : mems demo_store !! id = Some m →
  (id, m) = ("a", row_a) ∨ (id, m) = ("q", row_q) ∨ (id, m) = ("k", row_k).
Proof.
  change (mems demo_store) with ({[ "a" := row_a; "q" := row_q; "k" := row_k ]} : gmap string Memory).
  intros [[<- <-]|(_ & [[<- <-]|(_ & [<- <-]%lookup_singleton_Some)]%lookup_insert_Some)]%lookup_insert_Some; auto.
Qed.

Lemma demo_store_wf : store_wf demo_store.
Proof.
  split.
  - intros id m [[= -> ->]|[[= -> ->]|[= -> ->]]]%demo_store_rows; split; (done || by vm_compute).
  - intros i j a b Hi%demo_store_rows Hj%demo_store_rows.
    destruct Hi as [[= -> ->]|[[= -> ->]|[= -> ->]]], Hj as [[= -> ->]|[[= -> ->]|[= -> ->]]]; simpl; congruence.
  - intros id a Ha. unfold demo_store in Ha. simpl in Ha. by rewrite lookup_empty in Ha.
Qed.

(** What a computation that succeeds gives. *)
Definition given {A E} (d : A) (r : result A E) : A := match r with Ok x => x | Err _ => d end.

Lemma given_Ok {A E} (d : A) (r : result A E) : is_ok r = true → r = Ok (given d r).
Proof. by destruct r. Qed.

Definition demo_t (n : Z) : datetime := mkDateTime n 0.

(* ------------------------------------------------------------------ *)
(** * Histories *)

Definition new_row : Memory := store_row "n" "notes" "team" "new" Short 0 None LifeOpen [].
Definition stored : LinkDb * string :=
  given (demo_store, "") (MemoryStore.insert demo_store_env (demo_t 20) demo_store new_row).

Lemma store_stays_well_formed_witness : store_wf stored.1.
Proof.
  apply (store_stays_well_formed demo_store_env demo_store stored.1 demo_store_wf). apply rtc_once, step_atomic.
  apply (step_insert demo_store_env demo_store (demo_t 20) new_row stored.1 stored.2).
  assert (is_ok (MemoryStore.insert demo_store_env (demo_t 20) demo_store new_row) = true) as H by by vm_compute.
  rewrite <-surjective_pairing. by apply given_Ok.
Defined.

Definition touched : LinkDb := touch (demo_t 20) 10 10 demo_store "a".

Lemma touched_live : live_run (concurrent_step demo_store_env) "a" demo_store touched.
Proof. apply rtc_once. split; [apply step_atomic, step_touch|]. eexists. vm_compute. reflexivity. Qed.


Definition edit (content : string) : Patch :=
  mkPatch None (Some content) None None None None None None None None.
Definition write_of (db : LinkDb) (content : string) (expected : option Z) : UpdateWrite :=
  default (mkUpdateWrite "" row_a None false "" None)
    (given None (prepare_update demo_store_env "30" db "a" (edit content) expected)).
Definition written : LinkDb :=
  (given (demo_store, (false, false)) (commit_update "30" touched (write_of demo_store "second" (Some 1%Z)))).1.


Lemma stale_update_demotes_witness :
  title_taken_by_other demo_store "a" (uw_row (write_of demo_store "second" None)) = false
  ∧ ∃ db2 m2, commit_update "30" touched (write_of demo_store "second" None) = Ok (db2, (true, true))
    ∧ mems db2 !! "a" = Some m2 ∧ mem_tier m2 = Mid.
Proof.
  assert (title_taken_by_other demo_store "a" (uw_row (write_of demo_store "second" None)) = false) as Hfree
    by by vm_compute. split; [exact Hfree|].
  destruct (stale_update_demotes demo_store_env demo_store "30" "30" "a" (edit "second") None
    (write_of demo_store "second" None) row_a (demo_t 20) 10 10) as (db2 & m1 & m2 & _ & _ & _ & Hc & Hm & Ht & _);
    [done|done|by vm_compute|done|done|exact Hfree|]. by exists db2, m2.
Defined.

(* ------------------------------------------------------------------ *)
(** * Single operations *)

Definition again : Memory := store_row "z" "plan" "team/x" "over" Short 0 None LifeOpen [("agent_id", JString "ai:mallory")].
Definition over : LinkDb * string :=
  given (demo_store, "") (MemoryStore.insert demo_store_env (demo_t 20) demo_store again).

Lemma over_Ok : MemoryStore.insert demo_store_env (demo_t 20) demo_store again = Ok (over.1, "a").
Proof. by vm_compute. Qed.

Lemma upsert_exact_witness :
  ∃ new, mems over.1 !! "a" = Some new ∧ mem_content new = "over" ∧ mem_version new = 2%Z
    ∧ json_get (mem_metadata new) "agent_id" = Some (JString "ai:alice").
Proof.
  destruct (upsert_exact demo_store_env (demo_t 20) demo_store again over.1 "a" row_a demo_store_wf
    ltac:(by apply (bool_decide_unpack _); vm_compute) over_Ok ltac:(done))
    as (src & new & _ & _ & Hoff & Hm & _ & Hv & _ & _ & Hc & H).
  specialize (Hoff eq_refl). subst src. exists new. split; [exact Hm|]. split; [exact (f_equal (λ x, x.1.1.1) Hc)|].
  split; [exact Hv|]. repeat (destruct H as [_ H]). rewrite (H "agent_id") by by apply (bool_decide_unpack _). by vm_compute.
Defined.

Definition registered : LinkDb * string :=
  given (demo_store, "") (register_agent demo_store_env (demo_t 20) "r" "20" demo_store "ai:k" "human" []).

Lemma reregistration_unbinds_witness :
  json_get (mem_metadata row_k) "agent_pubkey" = Some (JString "key")
  ∧ ∃ row, mems registered.1 !! "k" = Some row ∧ json_get (mem_metadata row) "agent_pubkey" = None.
Proof.
  split; [done|].
  assert (register_agent demo_store_env (demo_t 20) "r" "20" demo_store "ai:k" "human" [] = Ok (registered.1, "k")) as H
    by by vm_compute.
  destruct (reregistration_unbinds (CD := λ _, None) demo_store_env ltac:(done) (demo_t 20) "r" "20" demo_store "ai:k"
    "human" [] registered.1 "k" row_k demo_store_wf H ltac:(done)) as (row & Hr & _ & _ & Hk & _).
  by exists row.
Defined.

Definition copied : LinkDb * result string StoreError :=
  promote_to_namespace demo_store_env (demo_t 20) "c" "20" "e1" "20" demo_store "q" "team".

Lemma clone_leaves_quarantine_witness :
  ∃ copy, mems copied.1 !! "c" = Some copy ∧ Lifecycle_is_recall_visible (mem_lifecycle_state copy) = true.
Proof.
  assert (copied.2 = Ok "c") as H by by vm_compute.
  assert (copied = (copied.1, Ok "c")) as Hc by (rewrite <-H; apply surjective_pairing).
  destruct (clone_leaves_quarantine demo_store_env ltac:(done) (demo_t 20) "c" "20" "e1" "20" demo_store "q" "team"
    row_q copied.1 "c" demo_store_wf ltac:(done) eq_refl ltac:(by vm_compute) Hc) as (copy & Hm & _ & _ & Hv & _).
  by exists copy.
Defined.

Definition seen (t : string) : Observation := mkObservation "a" t false.

Lemma fold_equals_touches_witness :
  undated <$> mems (fold_memory (demo_t 90) (to_rfc3339 (demo_t 90)) 10 10 (demo_store, [seen "20"; seen "30"]) "a").1
  = undated <$> mems (fold_left (λ db t, touch t 10 10 db "a") ([demo_t 20] ++ [demo_t 30]) demo_store).
Proof.
  apply (fold_equals_touches (demo_t 90) 10 10 demo_store [seen "20"; seen "30"] "a" [demo_t 20] (demo_t 30)).
  - done.
  - by vm_compute.
  - repeat constructor; by apply (bool_decide_unpack _); vm_compute.
  - intros m [= <-]. split; [by split_and!|]. by repeat constructor.
Defined.

Definition edited : LinkDb :=
  (given (demo_store, (false, false)) (update_with_expected_version demo_store_env "30" "30" demo_store "a" (edit "second") None)).1.
Definition row_a' : Memory := default row_a (mems edited !! "a").

Lemma undo_restores_witness :
  mem_content row_a' = "second"
  ∧ ∃ db2 r row, undo_in_place_edit demo_store_env "40" "40" "e1" "40" edited "a" (Some "ai:alice") false = (db2, r)
      ∧ mems db2 !! "a" = Some row ∧ mem_content row = "first" ∧ mem_version row = 3%Z.
Proof.
  split; [by vm_compute|].
  assert (update_with_expected_version demo_store_env "30" "30" demo_store "a" (edit "second") None = Ok (edited, (true, true)))
    as Hu by by vm_compute.
  assert (mems edited !! "a" = Some row_a') as Ha by by vm_compute.
  destruct (undo_restores demo_store_env "30" "30" demo_store "a" (edit "second") None edited row_a' "40" "40" "e1" "40"
    (Some "ai:alice") demo_store_wf Hu Ha ltac:(by vm_compute) ltac:(done))
    as (old & db2 & r & row & Hold & Hrun & Hrow & Hf & Hv & _).
  injection Hold as <-. exists db2, r, row. split; [exact Hrun|]. split; [exact Hrow|]. split; [|exact Hv].
  exact (f_equal (λ x, x.1.1.2) Hf).
Defined.

Lemma versioned_insert_fresh_witness : ∃ db' row,
  insert_with_conflict demo_store_env (demo_t 20) demo_store again ConflictVersion = Ok (db', "z")
  ∧ mems db' = <["z" := row]> (mems demo_store) ∧ mem_content row = "over".
Proof.
  destruct (versioned_insert_fresh demo_store_env ltac:(done) (demo_t 20) demo_store again) as [H _].
  assert (is_ok (insert_with_conflict demo_store_env (demo_t 20) demo_store again ConflictVersion) = true) as Hok by by vm_compute.
  destruct (insert_with_conflict _ _ _ _ _) as [[db' id]|]; [|discriminate Hok].
  destruct (H db' id eq_refl) as (-> & _ & row & Hm & Hc & _). by exists db', row.
Defined.

Definition moved : Patch := mkPatch (Some "spam") (Some "mine") None None None None None None None None.

Lemma supersede_overwrites_neighbour_witness : ∃ db' row,
  update_with_archive_on_supersede demo_store_env (demo_t 20) "s" "20" "20" demo_store "a" moved None EditLlm
    = Ok (db', mkSuperseded "a" "s")
  ∧ mems db' !! "s" = None ∧ mems db' !! "q" = Some row ∧ mem_content row = "mine".
Proof.
  assert (∃ db' r, update_with_archive_on_supersede demo_store_env (demo_t 20) "s" "20" "20" demo_store "a" moved None EditLlm
    = Ok (db', r) ∧ r = mkSuperseded "a" "s") as (db' & r & H & ->).
  { assert (is_ok (update_with_archive_on_supersede demo_store_env (demo_t 20) "s" "20" "20" demo_store "a" moved None EditLlm)
      = true) as Hok by by vm_compute.
    destruct (update_with_archive_on_supersede _ _ _ _ _ _ _ _ _ _) as [[db' r]|] eqn:E; [|discriminate Hok].
    exists db', r. split; [done|]. apply supersede_Ok in E as (m & stored & [= <-] & -> & _). done. }
  destruct (supersede_overwrites_neighbour demo_store_env ltac:(done) (demo_t 20) "s" "20" "20" demo_store "a" moved None
    EditLlm db' _ row_a "q" row_q demo_store_wf ltac:(done) ltac:(done) ltac:(done) ltac:(by vm_compute) ltac:(done)
    ltac:(done) H) as (_ & Hs & _ & _ & row & Hr & Hc & _).
  exists db', row. done.
Defined.

(* ------------------------------------------------------------------ *)
(** * Restoring *)

#[local] Existing Instance demo_ledger_laws.

Definition kept_edited : LinkDb := (archive_memory_no_tx "40" edited "a" None).1.

Definition restored : LinkDb * bool :=
  given (demo_store, false) (restore_archived (se_link demo_store_env) ScreenOff "50" kept_edited "a").
Definition stored_copy : ArchivedMemory :=
  default (mkArchivedMemory row_a "" "" None None) (ld_archived kept_edited !! "a").
Definition restored_row : Memory := default row_a (mems restored.1 !! "a").

Lemma restore_remints_id_witness : ∃ row, mems restored.1 !! "a" = Some row ∧ mem_content row = "second"
  ∧ mem_cid row ≠ Some (cs_cid (stamp_given row_a)).
Proof.
  assert (restore_archived (se_link demo_store_env) ScreenOff "50" kept_edited "a" = Ok (restored.1, true)) as H by by vm_compute.
  assert (ld_archived kept_edited !! "a" = Some stored_copy) as Ha by by vm_compute.
  assert (mems restored.1 !! "a" = Some restored_row) as Hc by by vm_compute.
  destruct (restore_remints_id (se_link demo_store_env) ScreenOff "50" kept_edited "a" restored.1 stored_copy row_a
    (stamp_given row_a) Ha) as (row & new & Hrow & Hnew & _ & _ & Hid);
    [by apply (bool_decide_unpack _); vm_compute|by apply (bool_decide_unpack _); vm_compute|by vm_compute|exact H|].
  rewrite Hrow in Hc. injection Hc as Hc. vm_compute in Hc. exists row. split; [exact Hrow|]. split; [by rewrite Hc|].
  intros E. destruct (Hid E) as [Hg|[[_ Hh]|(x & x' & Hx & Hx' & _ & Hh)]].
  - rewrite Hc in Hg. discriminate Hg.
  - rewrite Hc in Hnew. vm_compute in Hnew. injection Hnew as <-. by vm_compute in Hh.
  - rewrite Hc in Hx. vm_compute in Hx, Hx'. injection Hx as <-. injection Hx' as <-. by vm_compute in Hh.
Defined.
