(* ===== verification/LinkHistory.v ===== *)
(** What histories of the link tables keep: an acyclic reflection graph,
    attested rows that verify, lineage in time, and exactly when a link is
    written; with the histories that break the first two and the operations
    the audit ledger and the record-stop fence miss ([Links]). *)
From S2P Require Import Prelude.
From S2P Require Import Cycle.
From S2P Require Import BTree.
From S2P Require Import Bytes.
From S2P Require Import Text.
From S2P Require Import Json.
From S2P Require Import Memory.
From S2P Require Import Permissions.
From S2P Require Import Policy.
From S2P Require Import Capability.
From S2P Require Import Attestation.
From S2P Require Import Governance.
From S2P Require Import Ledger.

From S2P Require Import SecretScreen.
From S2P Require Import Cid.
From S2P Require Import Links.

(* ------------------------------------------------------------------ *)
(** * Histories *)

Section history.
Context {CC : CapCrypto} {LC : LedgerCrypto} {PS : PolicySerde} {CH : Chrono} {JC : JsonCodec}
  {L : Log2} {B3 : Blake3}.
Context (lookup_key : string → option (@Capability.VerifyingKey CC)) (admissible : WireLink → Prop).

(** A keypair of this node: its halves match and its public half is enrolled. *)
Definition enrolled (kp : AgentKeypair) : Prop :=
  lookup_key (kp_agent_id kp) = Some (kp_public kp)
  ∧ ∀ k, kp_private kp = Some k → kp_public kp = public_key k.

(** One operation on the tables. Other subsystems write memories and policies
    as they like; a peer's link is graded by its receiver, and [admissible]
    restricts which links peers send. *)
Inductive link_step : LinkDb → LinkDb → Prop :=
| LS_other db g : link_step db (with_gov db g)
| LS_events db e : link_step db (with_events db e)
| LS_create env now uuid at_ db s t r kp db' level :
    (∀ k, kp = Some k → enrolled k) →
    create_link_signed env now uuid at_ db s t r kp = Ok (db', level) → link_step db db'
| LS_inbound env now_s uuid at_ db link level db' :
    admissible link → inbound_attest_level lookup_key link = Some level →
    create_link_inbound env now_s uuid at_ db link level = Ok db' → link_step db db'
| LS_delete_link db s t : link_step db (fst (delete_link db s t))
| LS_invalidate env now uuid at_ db s t r until db' o :
    invalidate_link env now uuid at_ db s t r until = Ok (db', o) → link_step db db'
| LS_delete env db id db' b : delete_memory env db id = Ok (db', b) → link_step db db'
| LS_archive now db id reason db' b : archive_memory now db id reason = Ok (db', b) → link_step db db'
| LS_conserve env now uuid at_ db loser winner kp db' :
    (∀ k, kp = Some k → enrolled k) →
    conserve_contradiction env now uuid at_ db loser winner kp = Ok db' → link_step db db'
| LS_reverse db loser s t db' :
    reverse_conserve_contradiction db loser s t = Ok db' → link_step db db'.

(** Restoring from the archive. *)
Inductive restore_step : LinkDb → LinkDb → Prop :=
| RS_restore env mode now db id db' b :
    restore_archived env mode now db id = Ok (db', b) → restore_step db db'.

(** How a row that was not there before came about. *)
Inductive fresh_row (db : LinkDb) : link_key → LinkRow → Prop :=
| FR_created env now kp s t r agent sig level obs :
    (∀ k, kp = Some k → enrolled k) →
    validate_link_pre_create env db s t r agent false false = Ok tt →
    attest_with kp s t r now = Ok (sig, level, obs) →
    fresh_row db (s, t, r) (signed_row env db s t now sig level obs)
| FR_inbound env link now_s level agent skip :
    admissible link → inbound_attest_level lookup_key link = Some level →
    validate_link_pre_create env db (ml_source_id link) (ml_target_id link) (Relation_as_str (ml_relation link))
      agent skip true = Ok tt →
    fresh_row db (ml_source_id link, ml_target_id link, Relation_as_str (ml_relation link))
      (inbound_row link now_s level)
| FR_invalidated k prior row :
    ld_links db !! k = Some prior → lr_signature row = None → ck_attest_signature row = false →
    fresh_row db k row.

(** A step makes at most one row. *)
Definition rows_from (db db' : LinkDb) : Prop :=
  ∃ key, ∀ k row, ld_links db' !! k = Some row →
    ld_links db !! k = Some row ∨ k = key ∧ fresh_row db key row.

(** The archive only gains copies of live rows. *)
Definition copies_from (db db' : LinkDb) : Prop :=
  ∀ k a, ld_archived_links db' !! k = Some a →
    ld_archived_links db !! k = Some a
    ∨ ∃ row, ld_links db !! k = Some row ∧ al_row a = without_cids row.

Lemma rows_from_sub db db' : (∀ k row, ld_links db' !! k = Some row → ld_links db !! k = Some row) →
  rows_from db db'.
Proof. intros H. exists ("", "", ""). intros k row Hk. left. by apply H. Qed.

Lemma copies_from_eq db db' : ld_archived_links db' = ld_archived_links db → copies_from db db'.
Proof. intros H k a Hk. left. congruence. Qed.

Lemma written_rows_from env uuid at_ db key row db' :
  written_row env uuid at_ db key row db' → fresh_row db key row → rows_from db db' ∧ copies_from db db'.
Proof.
  intros Hw Hf. split.
  - exists key. intros k row' Hk.
    destruct (written_row_lookup _ _ _ _ _ _ _ k Hw) as [Heq|(-> & _ & Hnew & _)]; [left; congruence|].
    right. split; [done|]. rewrite Hnew in Hk. injection Hk as <-. exact Hf.
  - apply copies_from_eq. eapply written_row_frame, Hw.
Qed.

Lemma delete_link_lookup db s t k :
  ld_links (fst (delete_link db s t)) !! k = if decide (k.1 = (s, t)) then None else ld_links db !! k.
Proof.
  simpl. case_decide as Hk.
  - destruct (ld_links db !! k) as [row|] eqn:Hl; [|by apply lookup_difference_None; left].
    apply lookup_difference_None. right. exists row. by apply map_lookup_filter_Some.
  - destruct (ld_links db !! k) as [row|] eqn:Hl.
    + apply lookup_difference_Some. split; [done|].
      apply map_lookup_filter_None. right. intros ? ? Hk'. done.
    + apply lookup_difference_None. by left.
Qed.

Lemma cascade_lookup db id k :
  ld_links (cascade_delete db id) !! k = if decide (k.1.1 ≠ id ∧ k.1.2 ≠ id) then ld_links db !! k else None.
Proof.
  simpl. case_decide as Hk.
  - destruct (ld_links db !! k) as [row|] eqn:Hl.
    + by apply map_lookup_filter_Some.
    + apply map_lookup_filter_None. by left.
  - apply map_lookup_filter_None. right. intros row _ Hk'. done.
Qed.

Lemma created_rows env now uuid at_ db s t r kp db' level :
  (∀ k, kp = Some k → enrolled k) →
  create_link_signed env now uuid at_ db s t r kp = Ok (db', level) → rows_from db db' ∧ copies_from db db'.
Proof.
  intros Hk (_ & Hv & _ & sig & obs & Hat & Hw)%create_link_signed_ok.
  eapply written_rows_from; [exact Hw|]. by eapply FR_created.
Qed.

(** Being inside a transaction changes nothing about rows. *)
Lemma fresh_row_tx db b key row : fresh_row (with_in_tx db b) key row → fresh_row db key row.
Proof.
  intros Hf. inversion Hf as [env now kp s t r agent sig level obs Hk Hv Hat|
    env link now_s level agent skip Hadm Hlv Hv|k prior row' Hp Hsig Htr]; subst.
  - eapply (FR_created db env now kp s t r agent); [exact Hk|exact Hv|exact Hat].
  - eapply (FR_inbound db env); [exact Hadm|exact Hlv|exact Hv].
  - eapply FR_invalidated; [exact Hp|done|done].
Qed.

Lemma conserve_rows env now uuid at_ db loser winner kp db' :
  (∀ k, kp = Some k → enrolled k) →
  conserve_contradiction env now uuid at_ db loser winner kp = Ok db' → rows_from db db' ∧ copies_from db db'.
Proof.
  intros Hk. unfold conserve_contradiction, conserve_in_tx. case_match; [done|].
  destruct (mems _ !! mem_id loser) as [current|]; cbn [result_bind].
  2: { intros [= <-]. split; [by apply rows_from_sub|by apply copies_from_eq]. }
  destruct (canonical_contradiction_pair (mem_id loser) winner) as [src tgt].
  destruct (existsb _ _); cbn [result_bind].
  - case_match; [|done]. intros [= <-]. split; [by apply rows_from_sub|by apply copies_from_eq].
  - destruct (create_link_signed _ _ _ _ _ _ _ _ _) as [[db1 level]|] eqn:Hc; [|done]. cbn [result_bind fst].
    case_match; [|done]. intros [= <-]. apply created_rows in Hc as [[key Hr] Ha]; [|exact Hk].
    split; [|exact Ha]. exists key. intros k row Hrow.
    destruct (Hr k row Hrow) as [Hold|[-> Hf]]; [by left|right; split; [done|]]. by eapply fresh_row_tx.
Qed.

Lemma invalidate_rows env now uuid at_ db s t r until db' o :
  invalidate_link env now uuid at_ db s t r until = Ok (db', o) → rows_from db db' ∧ copies_from db db'.
Proof.
  unfold invalidate_link. case_match; [done|].
  destruct (ld_links db !! (s, t, r)) as [prior|] eqn:Hp.
  2: { intros [= <- _]. split; [by apply rows_from_sub|by apply copies_from_eq]. }
  assert (∀ row db1, ld_links db1 = <[(s, t, r) := row]> (ld_links db) →
    ld_archived_links db1 = ld_archived_links db → lr_signature row = None → ck_attest_signature row = false →
    rows_from db db1 ∧ copies_from db db1) as Hput.
  { intros row db1 Hl Ha Hsig Htr. split; [|by apply copies_from_eq].
    exists (s, t, r). intros k row' Hk. rewrite Hl in Hk.
    destruct (decide (k = (s, t, r))) as [->|Hne]; [|left; by rewrite lookup_insert_ne in Hk].
    rewrite lookup_insert_eq in Hk. simplify_eq. right. split; [done|]. by eapply FR_invalidated. }
  destruct (lr_signature prior) as [sig|] eqn:Hsig; cbn zeta.
  - destruct (canonical_cbor _) as [cbor|]; [|done]. cbn [ok_or result_bind].
    destruct (append_signed_event_no_tx _ _ _) as [events|]; [|done]. intros [= <- _].
    by eapply Hput; [reflexivity|..].
  - destruct (ck_attest_signature _) eqn:Htr; [done|]. intros [= <- _].
    by eapply Hput; [reflexivity|..].
Qed.

Lemma archive_copies now db id k a :
  ld_archived_links (archive_links_for_memory now db id) !! k = Some a →
  ld_archived_links db !! k = Some a ∨ ∃ row, ld_links db !! k = Some row ∧ al_row a = without_cids row.
Proof.
  simpl. rewrite lookup_union_Some_raw. intros [Hk|[_ Hk]]; [by left|]. right.
  rewrite lookup_fmap in Hk. apply fmap_Some in Hk as (row & Hrow & ->).
  apply map_lookup_filter_Some in Hrow as [Hrow _]. by exists row.
Qed.

Lemma step_rows db db' : link_step db db' → rows_from db db' ∧ copies_from db db'.
Proof.
  intros Hstep. destruct Hstep as [db g|db e| |env now_s uuid at_ db link level db' Hadm Hlv Hc|db s t| |
    env db id db' b Hd|now db id reason db' b Hd| |db loser s t db' Hd].
  - split; [by apply rows_from_sub|by apply copies_from_eq].
  - split; [by apply rows_from_sub|by apply copies_from_eq].
  - by eapply created_rows.
  - apply create_link_inbound_ok in Hc as (Hv & _ & Hw).
    eapply written_rows_from; [exact Hw|]. by eapply FR_inbound.
  - split; [|by apply copies_from_eq]. apply rows_from_sub. intros k row.
    rewrite delete_link_lookup. by case_decide.
  - by eapply invalidate_rows.
  - unfold delete_memory, gate_storage_conn in Hd.
    destruct (env_stopped env) as [[? ?]|]; [done|]. injection Hd as <- _.
    split; [|by apply copies_from_eq]. apply rows_from_sub. intros k row.
    rewrite cascade_lookup. by case_decide.
  - unfold archive_memory, archive_memory_no_tx in Hd. case_match; [done|].
    destruct (mems db !! id) as [m|]; injection Hd as <- _.
    + split; [|intros k a Hk; by apply archive_copies in Hk].
      apply rows_from_sub. intros k row. rewrite cascade_lookup. by case_decide.
    + split; [by apply rows_from_sub|by apply copies_from_eq].
  - by eapply conserve_rows.
  - unfold reverse_conserve_contradiction in Hd. case_match; [done|].
    assert (ld_links db' = base.delete (s, t, Relation_as_str Contradicts) (ld_links db)
      ∧ ld_archived_links db' = ld_archived_links db) as [Hl Ha] by (case_match; simplify_eq; done).
    split; [|by apply copies_from_eq]. apply rows_from_sub. intros k row.
    rewrite Hl, lookup_delete_Some. tauto.
Qed.

Lemma step_acyclic db db' : link_step db db' → acyclic (reflects db) → acyclic (reflects db').
Proof.
  intros [[[[s t] r] Hrows] _]%step_rows Hac.
  destruct (decide (r = REL_REFLECTS_ON ∧ ld_links db !! (s, t, r) = None)) as [[-> Hnew]|Hold].
  - destruct (ld_links db' !! (s, t, REL_REFLECTS_ON)) as [row|] eqn:Hrow.
    + destruct (Hrows _ _ Hrow) as [?|[_ Hf]]; [congruence|].
      assert (¬ rtc (reflects db) t s) as Hts.
      { inversion Hf as [? ? ? ? ? ? ? ? ? ? _ Hv _|? ? ? ? ? ? _ _ Hv|]; subst; [| |congruence].
        - by apply gate_no_cycle in Hv as [_ Hv].
        - match goal with Heq : Relation_as_str _ = _ |- _ => rewrite Heq in Hv end.
          by apply gate_no_cycle in Hv as [_ Hv]. }
      apply (acyclic_sub _ (λ x y, reflects db x y ∨ x = s ∧ y = t)); [|by apply acyclic_add_edge].
      intros x y [row' Hxy]. destruct (Hrows _ _ Hxy) as [?|[? _]]; [left; by eexists|right; by simplify_eq].
    + eapply acyclic_sub; [|exact Hac]. intros x y [row' Hxy].
      destruct (Hrows _ _ Hxy) as [?|[? _]]; [by eexists|congruence].
  - eapply acyclic_sub; [|exact Hac]. intros x y [row' Hxy].
    destruct (Hrows _ _ Hxy) as [?|[? _]]; [by eexists|]. simplify_eq.
    apply not_eq_None_Some. intros Hn. by apply Hold.
Qed.

(** C29: no history of link writes, local or from peers, and of deletions,
    invalidations and archivals can give the reflection graph a cycle: if it
    has none, it never gets one. *)
Theorem reflections_stay_acyclic db db' :
  rtc link_step db db' → acyclic (reflects db) → acyclic (reflects db').
Proof. induction 1 as [|db1 db2 db3 Hs _ IH]; [done|]. intros Hac. by eapply IH, step_acyclic. Qed.

(** What a restore puts back. *)
Lemma restore_rows db db' : restore_step db db' →
  ld_archived_links db' = ld_archived_links db
  ∧ ∀ k row, ld_links db' !! k = Some row →
      ld_links db !! k = Some row
      ∨ ∃ a, ld_archived_links db !! k = Some a ∧ row = al_row a ∧ trigger_refuses row = false.
Proof.
  intros [env mode now db0 id db1 b Hr]. unfold restore_archived in Hr.
  case_match; [done|]. destruct (ld_archived db0 !! id) as [am|]; [|by simplify_eq; eauto].
  case_match; [done|]. destruct (come_back (validate_metadata _ _)) as [valid|]; [|done]. cbn [result_bind] in Hr.
  destruct (consult_governance_pre_write _ _) as [[]|]; [|done]. cbn [result_bind] in Hr.
  destruct (come_back (stamp_memory_cid _)) as [stamp|]; [|done]. cbn [result_bind] in Hr. case_match; [done|]. unfold restore_links_for_memory in Hr.
  case_match eqn:Htr; [done|]. cbn [result_bind] in Hr. injection Hr as <- _.
  split; [done|]. simpl. intros k row [Hk|[_ Hk]]%lookup_union_Some_raw; [by left|]. right.
  rewrite lookup_fmap in Hk. apply fmap_Some in Hk as (a & Ha & ->).
  apply map_lookup_filter_Some in Ha as [Ha _]. exists a.
  split; [by apply map_lookup_filter_Some in Ha as [Ha _]|]. split; [done|].
  rewrite existsb_false_iff in Htr. apply (Htr (k, a)). by apply elem_of_map_to_list.
Qed.

(* ------------------------------------------------------------------ *)
(** * Attested rows *)

Definition verify_record_of (k : link_key) (row : LinkRow) : LinkVerifyRecord :=
  mkVerifyRecord k.1.1 k.1.2 k.2 (lr_signature row) (lr_observed_by row) (lr_valid_from row)
    (lr_valid_until row) (lr_attest_level row).

(** A row that says it is signed verifies, as what it says. *)
Definition vouched (k : link_key) (row : LinkRow) : Prop :=
  ∀ a, a = SelfSigned ∨ a = PeerAttested → lr_attest_level row = Some (AttestLevel_as_str a) →
    verify_record lookup_key (verify_record_of k row) = (true, a).

Definition attested (db : LinkDb) : Prop :=
  (∀ k row, ld_links db !! k = Some row → vouched k row)
  ∧ (∀ k a, ld_archived_links db !! k = Some a → vouched k (al_row a)).

Lemma verify_record_signed k row agent pk sig a :
  lr_signature row = Some sig → lr_observed_by row = Some agent → lookup_key agent = Some pk →
  verify_link pk (mkSignable k.1.1 k.1.2 k.2 (Some agent) (lr_valid_from row) (lr_valid_until row)) sig = Ok tt →
  lr_attest_level row = Some (AttestLevel_as_str a) → a ≠ Unsigned →
  verify_record lookup_key (verify_record_of k row) = (true, a).
Proof.
  intros Hs Ho Hl Hv Ha Hne. unfold verify_record. simpl. rewrite Hs, Ho, Hl, Hv, Ha. simpl.
  rewrite spelling_roundtrip. by destruct a.
Qed.

Lemma attest_with_cases kp s t r now sig level obs :
  attest_with kp s t r now = Ok (sig, level, obs) →
  level = "unsigned" ∧ sig = None ∧ obs = None
  ∨ ∃ kp' k payload, kp = Some kp' ∧ kp_private kp' = Some k
      ∧ canonical_cbor (mkSignable s t r (Some (kp_agent_id kp')) (Some now) None) = Some payload
      ∧ level = "self_signed" ∧ sig = Some (sign k payload) ∧ obs = Some (kp_agent_id kp').
Proof.
  unfold attest_with. destruct kp as [kp|]; [|intros; left; by simplify_eq].
  unfold can_sign, sign_link. destruct (kp_private kp) as [k|] eqn:Hk; simpl; [|intros; left; by simplify_eq].
  destruct (canonical_cbor _) as [payload|] eqn:Hc; [|done]. simpl. intros [= <- <- <-].
  right. exists kp, k, payload. by split_and!.
Qed.

Lemma vouched_created `{!CapCryptoLaws CC} env db kp s t r now sig level obs :
  (∀ k, kp = Some k → enrolled k) → attest_with kp s t r now = Ok (sig, level, obs) →
  vouched (s, t, r) (signed_row env db s t now sig level obs).
Proof.
  intros Hk Hat a Ha Hl.
  apply attest_with_cases in Hat as [(-> & _)|(kp' & k & payload & -> & Hpriv & Hc & -> & -> & ->)].
  { destruct Ha as [-> | ->]; done. }
  assert (a = SelfSigned) as -> by (destruct Ha as [-> | ->]; done).
  destruct (Hk kp' eq_refl) as [Hlook Hpub].
  eapply verify_record_signed; [done..| |done|done].
  unfold verify_link, verify_payload. simpl. rewrite sign_length. simpl. rewrite Hc. simpl.
  by rewrite (Hpub k Hpriv), sign_verifies.
Qed.

Lemma vouched_inbound link now_s level :
  is_Some (ml_valid_from link) → inbound_attest_level lookup_key link = Some level →
  vouched (ml_source_id link, ml_target_id link, Relation_as_str (ml_relation link)) (inbound_row link now_s level).
Proof.
  intros [from Hfrom] Hlv a Ha Hl. simpl in Hl. injection Hl as ->. unfold inbound_attest_level in Hlv.
  destruct (ml_signature link) as [sig|] eqn:Hs, (ml_observed_by link) as [agent|] eqn:Ho;
    try (destruct Ha as [-> | ->]; done).
  destruct (lookup_key agent) as [pk|] eqn:Hk; [|destruct Ha as [-> | ->]; done].
  destruct (verify_link _ _ _) as [[]|] eqn:Hv; [|done].
  assert (a = PeerAttested) as -> by (destruct Ha as [-> | ->]; done).
  eapply verify_record_signed; [done..| |done|done]. rewrite Hfrom in Hv. simpl. by rewrite Hfrom.
Qed.

Lemma vouched_unsigned k row : lr_signature row = None → ck_attest_signature row = false → vouched k row.
Proof.
  intros Hs Htr a Ha Hl. unfold ck_attest_signature in Htr. rewrite Hl, Hs in Htr.
  by destruct Ha as [-> | ->].
Qed.

Lemma fresh_vouched `{!CapCryptoLaws CC} db k row :
  (∀ link, admissible link → is_Some (ml_valid_from link)) → fresh_row db k row → vouched k row.
Proof.
  intros Hdated [env now kp s t r agent sig level obs Hk _ Hat|env link now_s level agent skip Hadm Hlv _|
    k' prior row' _ Hsig Htr].
  - by eapply vouched_created.
  - by apply vouched_inbound; [apply Hdated|].
  - by apply vouched_unsigned.
Qed.

Lemma step_attested `{!CapCryptoLaws CC} db db' :
  (∀ link, admissible link → is_Some (ml_valid_from link)) →
  link_step db db' ∨ restore_step db db' → attested db → attested db'.
Proof.
  intros Hdated [Hs|Hs] [Hl Ha].
  - apply step_rows in Hs as [[key Hrows] Hcopies]. split.
    + intros k row Hk. destruct (Hrows k row Hk) as [?|[-> Hf]]; [by apply Hl|]. by eapply fresh_vouched.
    + intros k a Hk. destruct (Hcopies k a Hk) as [?|(row & Hrow & ->)]; [by apply Ha|]. exact (Hl k row Hrow).
  - apply restore_rows in Hs as [Heq Hrows]. split.
    + intros k row Hk. destruct (Hrows k row Hk) as [?|(a & Hal & -> & _)]; [by apply Hl|by apply Ha].
    + intros k a Hk. apply Ha. congruence.
Qed.

(** C18: a link row that says it is signed verifies, while keys stay where they are.
    The keys are those of one directory throughout, which holds the key of every
    local signer, and the links peers push carry the instant they are valid from;
    one that does not is graded by what its signature covers and stored with
    another date, so its row fails ([undated_link_loses_attestation]). Then from
    tables where every row (and archived copy) graded [self_signed] or
    [peer_attested] passes [memory_verify] with that grade, every history leads
    to such tables: local writes, graded links from peers, invalidation (which
    drops the signature it would break), deletion, archival and restore. *)
Theorem attested_links_verify `{!CapCryptoLaws CC} db db' :
  (∀ link, admissible link → is_Some (ml_valid_from link)) →
  rtc (λ a b, link_step a b ∨ restore_step a b) db db' → attested db → attested db'.
Proof. intros Hdated. induction 1 as [|db1 db2 db3 Hs _ IH]; [done|]. intros Ha. by eapply IH, step_attested. Qed.
End history.

(* ------------------------------------------------------------------ *)
(** * When a link is written *)

Section exact.
Context {CC : CapCrypto} {LC : LedgerCrypto} {PS : PolicySerde} {CH : Chrono}.

(** The reflection-depth policy that governs links from the memory. *)
Definition depth_policy (db : LinkDb) (s : string) : Z :=
  effective_max_reflection_depth
    (default CorePolicy_default (resolve_governance_policy (ld_gov db) (link_ns db s))).

(** The reflection graph is no deeper than the walk looks. *)
Definition shallow (db : LinkDb) (s t : string) : Prop :=
  ∀ n x, nsteps (reflects db) n t x → n < Z.to_nat (walk_bound (depth_policy db s)).

(** A lineage edge from an older to a strictly newer memory, with the guard on. *)
Definition against_time (env : LinkEnv) (db : LinkDb) (s t r : string) : Prop :=
  env_lineage_dag env = true
  ∧ (∃ rel, Relation_from_str r = Some rel ∧ Relation_is_lineage rel = true)
  ∧ lineage_edge_is_forward db s t = true.

Definition permitted (env : LinkEnv) (db : LinkDb) (s t r agent : string) : Prop :=
  match evaluate (mkContext MemoryLink (link_ns db s) agent
          (JObject [("relation", JString r); ("source_id", JString s); ("target_id", JString t)]))
        [] (env_synthetic env) (env_rules env) (env_mode env) with
  | Allow | Modify _ => True
  | Deny _ | Ask _ => False
  end.

Lemma nsteps_iff {A} (R R' : relation A) n x y :
  (∀ x y, R x y ↔ R' x y) → nsteps R n x y ↔ nsteps R' n x y.
Proof.
  intros H. split; (induction 1 as [|n x y z Hxy _ IH]; [constructor|]; econstructor; [by apply H|done]).
Qed.

Lemma check_decides db s t : shallow db s t →
  ∃ check, would_create_reflection_cycle db s t (depth_policy db s) = Ok check
    ∧ (would_cycle check = true ↔ rtc (reflects db) t s).
Proof.
  intros Hsh. unfold would_create_reflection_cycle, would_create_reflection_cycle_with.
  case_decide as Hne; [subst; eexists; split; [done|]; by split|].
  pose proof (walk_loop_spec (λ node, Ok (E := LinkError) (forward_neighbors db node)) s t
    (Z.to_nat (walk_bound (depth_policy db s))) 0 _ _ _ (level_start _ s t [] Hne)) as Hans.
  destruct (walk_loop _ _ _ _ _ _ _) as [[[] path]|e]; simpl in Hans.
  - eexists. split; [done|]. split; [|done]. intros _. apply (rtc_iff _ _ _ _ (lookup_edge db)).
    destruct Hans as [(seg & last & _ & Hseg & Hl)|(_ & x & Hx & _)].
    + eapply rtc_r; [by eapply trail_rtc|done].
    + apply (nsteps_iff _ _ _ _ _ (lookup_edge db)), Hsh in Hx. lia.
  - eexists. split; [done|]. destruct Hans as [_ Hans].
    by rewrite (rtc_iff _ _ _ _ (lookup_edge db)) in Hans.
  - by destruct Hans as (c & _ & Hc).
Qed.

Lemma permission_exact env db s t r agent :
  evaluate_link_permission env (link_ns db s) s t r agent = Ok tt ↔ permitted env db s t r agent.
Proof. unfold evaluate_link_permission, permitted. by destruct (evaluate _ _ _ _ _). Qed.

Lemma against_time_spec env db s t r :
  negb false && env_lineage_dag env
    && match Relation_from_str r with Some r => Relation_is_lineage r | None => false end
    && lineage_edge_is_forward db s t = true ↔ against_time env db s t r.
Proof.
  unfold against_time. rewrite !andb_true_iff. destruct (Relation_from_str r) as [rel|]; naive_solver.
Qed.

Lemma gate_exact env db s t r agent : (r = REL_REFLECTS_ON → shallow db s t) →
  validate_link_pre_create env db s t r agent false false = Ok tt ↔
  ¬ against_time env db s t r ∧ (r = REL_REFLECTS_ON → ¬ rtc (reflects db) t s)
  ∧ permitted env db s t r agent.
Proof.
  intros Hsh. unfold validate_link_pre_create. rewrite <-against_time_spec, <-permission_exact.
  destruct (_ && lineage_edge_is_forward db s t); [naive_solver|].
  case_decide as Hr; cbn [result_bind]; [|naive_solver].
  destruct (check_decides db s t (Hsh Hr)) as (check & Hc & Hw). unfold depth_policy in Hc.
  rewrite Hc. cbn [result_bind].
  destruct (would_cycle check) eqn:Hwc; cbn [result_bind]; naive_solver.
Qed.

(** The keypair's signature can be made: the encoder does not fail. *)
Definition signable (kp : option AgentKeypair) (s t r now : string) : Prop :=
  ∀ k, kp = Some k → can_sign k = true →
    is_Some (canonical_cbor (mkSignable s t r (Some (kp_agent_id k)) (Some now) None)).

Lemma attest_total `{!CapCryptoLaws CC} env db kp s t r now : signable kp s t r now →
  ∃ sig level obs, attest_with kp s t r now = Ok (sig, level, obs)
    ∧ trigger_refuses (signed_row env db s t now sig level obs) = false.
Proof.
  intros Hs. unfold attest_with. destruct kp as [kp|]; [|by do 3 eexists].
  destruct (can_sign kp) eqn:Hcan; [|by do 3 eexists].
  destruct (Hs kp eq_refl Hcan) as [payload Hp]. unfold can_sign in Hcan. unfold sign_link.
  destruct (kp_private kp) as [k|]; [|done]. simpl. rewrite Hp. simpl.
  do 3 eexists. split; [done|]. unfold trigger_refuses, ck_attest_level, ck_attest_signature. simpl. by rewrite sign_length.
Qed.

Definition signs (kp : option AgentKeypair) : bool :=
  match kp with Some k => can_sign k | None => false end.

Lemma attest_level_of kp s t r now sig level obs : attest_with kp s t r now = Ok (sig, level, obs) →
  level = (if signs kp then "self_signed" else "unsigned").
Proof.
  unfold attest_with. destruct kp as [kp|]; simpl; [|by intros [= _ <- _]].
  destruct (can_sign kp); [|by intros [= _ <- _]]. by destruct (sign_link _ _); [intros [= _ <- _]|].
Qed.

(** When a local link is written. On a reflection graph no deeper than
    the walk's bound, and with an encoder that does not fail, the write is
    accepted exactly when the record plane is running, the edge does not run
    against time where that is guarded, a reflection edge closes no cycle
    (nor is a self-link), the permission rules allow it and both memories
    exist. A row that is already there is left as it is. *)
Lemma create_link_exact `{!CapCryptoLaws CC} env utc_now uuid at_ db s t r kp :
  (r = REL_REFLECTS_ON → shallow db s t) →
  signable kp s t r (to_rfc3339 (truncate_to_microseconds utc_now)) →
  let agent := match kp with Some k => kp_agent_id k | None => "system" end in
  ((∃ db' level, create_link_signed env utc_now uuid at_ db s t r kp = Ok (db', level)) ↔
    env_stopped env = None ∧ ¬ against_time env db s t r
    ∧ (r = REL_REFLECTS_ON → ¬ rtc (reflects db) t s)
    ∧ permitted env db s t r agent ∧ is_Some (mems db !! s) ∧ is_Some (mems db !! t))
  ∧ ∀ db' level, create_link_signed env utc_now uuid at_ db s t r kp = Ok (db', level) →
      level = (if signs kp then "self_signed" else "unsigned")
      ∧ mems db' = mems db
      ∧ (∀ k, k ≠ (s, t, r) → ld_links db' !! k = ld_links db !! k)
      ∧ (∀ row, ld_links db !! (s, t, r) = Some row → ld_links db' = ld_links db)
      ∧ (ld_links db !! (s, t, r) = None → is_Some (Relation_from_str r) →
          ∃ row, ld_links db' !! (s, t, r) = Some row ∧ lr_attest_level row = Some level).
Proof.
  intros Hsh Hsig agent. split.
  - rewrite <-(check_ends_ok db s t). split.
    + intros (db' & level & (Hst & Hv & Hends & _)%create_link_signed_ok).
      apply gate_exact in Hv as (? & ? & ?); [|done]. by split_and!.
    + intros (Hst & Hag & Hcy & Hp & Hends).
      assert (validate_link_pre_create env db s t r agent false false = Ok tt) as Hv by by apply gate_exact.
      destruct (attest_total env db kp s t r _ Hsig) as (sig & level & obs & Hat & Htr).
      unfold create_link_signed, gate_storage_conn. rewrite Hst. cbn [result_bind]. fold agent.
      rewrite Hv. cbn [result_bind]. rewrite Hends. cbn [result_bind]. rewrite Hat. cbn [result_bind].
      unfold insert_link. unfold signed_row in Htr. rewrite Htr.
      destruct (_ || _); by eexists _, _.
  - intros db' level (_ & _ & _ & sig & obs & Hat & Hw)%create_link_signed_ok. split_and!.
    + by eapply attest_level_of.
    + by apply written_row_frame in Hw as [? _].
    + intros k Hk. destruct (written_row_lookup _ _ _ _ _ _ _ k Hw) as [?|[? _]]; done.
    + intros old Hold. by eapply written_row_keeps.
    + intros Hnew Hrel. eexists. split; [by eapply written_row_inserts|done].
Qed.
End exact.

(* ------------------------------------------------------------------ *)
(** * Lineage and time *)

Section lineage.
Context {CC : CapCrypto} {LC : LedgerCrypto} {PS : PolicySerde} {CH : Chrono}.

(** The instant a memory was created at, where its stamp parses. *)
Definition instant (db : LinkDb) (x : string) : option Z :=
  at_ ← read_created_at db x; dt_instant <$> parse_rfc3339 at_.

(** [x] derives from [y] by a lineage edge. *)
Definition lineage (db : LinkDb) (x y : string) : Prop :=
  ∃ r rel, is_Some (ld_links db !! (x, y, r)) ∧ Relation_from_str r = Some rel ∧ Relation_is_lineage rel = true.

Definition ends_live (db : LinkDb) : Prop :=
  ∀ x y r, is_Some (ld_links db !! (x, y, r)) → is_Some (mems db !! x) ∧ is_Some (mems db !! y).

(** No lineage edge runs from an older to a newer memory. *)
Definition in_time (db : LinkDb) : Prop :=
  ∀ x y, lineage db x y → ∀ ix iy, instant db x = Some ix → instant db y = Some iy → (iy ≤ ix)%Z.

(** Local operations with the guard on. A stored memory is new or keeps its
    creation stamp. *)
Inductive local_step : LinkDb → LinkDb → Prop :=
| LOC_create env now uuid at_ db s t r kp db' level :
    env_lineage_dag env = true →
    create_link_signed env now uuid at_ db s t r kp = Ok (db', level) → local_step db db'
| LOC_store db m :
    (∀ old, mems db !! mem_id m = Some old → mem_created_at old = mem_created_at m) →
    local_step db (with_mems db (<[mem_id m := m]> (mems db)))
| LOC_delete env db id db' b : delete_memory env db id = Ok (db', b) → local_step db db'
| LOC_delete_link db s t : local_step db (fst (delete_link db s t)).

Lemma forward_instants db s t ix iy : lineage_edge_is_forward db s t = false →
  instant db s = Some ix → instant db t = Some iy → (iy ≤ ix)%Z.
Proof.
  unfold lineage_edge_is_forward, instant.
  destruct (read_created_at db s) as [sa|], (read_created_at db t) as [ta|]; simpl; try done.
  destruct (parse_rfc3339 sa), (parse_rfc3339 ta); simpl; try done.
  rewrite bool_decide_eq_false. intros ?? ?. simplify_eq. lia.
Qed.

Lemma gate_in_time env db s t r rel agent skip ix iy :
  env_lineage_dag env = true → validate_link_pre_create env db s t r agent skip false = Ok tt →
  Relation_from_str r = Some rel → Relation_is_lineage rel = true →
  instant db s = Some ix → instant db t = Some iy → (iy ≤ ix)%Z.
Proof.
  intros He Hv Hr Hl. unfold validate_link_pre_create in Hv. rewrite He, Hr, Hl in Hv. simpl in Hv.
  destruct (lineage_edge_is_forward db s t) eqn:Hf; [done|]. by apply forward_instants.
Qed.

(** Links that stay, between memories that stay with their stamps. *)
Lemma in_time_shrink db db' :
  (∀ k, is_Some (ld_links db' !! k) → is_Some (ld_links db !! k)) →
  (∀ x y r, is_Some (ld_links db' !! (x, y, r)) → instant db' x = instant db x ∧ instant db' y = instant db y) →
  in_time db → in_time db'.
Proof.
  intros Hsub Hkeep Ht x y (r & rel & Hrow & Hr & Hl) ix iy Hx Hy.
  destruct (Hkeep _ _ _ Hrow) as [Ex Ey]. rewrite Ex in Hx. rewrite Ey in Hy.
  apply (Ht x y); [|done|done]. exists r, rel. split; [by apply Hsub|done].
Qed.

Lemma in_time_create env now uuid at_ db s t r kp db' level : env_lineage_dag env = true →
  create_link_signed env now uuid at_ db s t r kp = Ok (db', level) →
  ends_live db ∧ in_time db → ends_live db' ∧ in_time db'.
Proof.
  intros He (_ & Hv & Hends & sig & obs & _ & Hw)%create_link_signed_ok [Hlive Ht].
  apply check_ends_ok in Hends. pose proof Hw as (Hm & _)%written_row_frame.
  assert (∀ x, instant db' x = instant db x) as Hi by (intros; unfold instant, read_created_at; by rewrite Hm).
  split.
  - intros x y r' [row Hrow]. rewrite Hm.
    destruct (written_row_lookup _ _ _ _ _ _ _ (x, y, r') Hw) as [Heq|(Hk & _)]; [|by simplify_eq].
    apply (Hlive x y r'). rewrite <-Heq. by eexists.
  - intros x y (r' & rel & [row Hrow] & Hr & Hl) ix iy. rewrite !Hi.
    destruct (written_row_lookup _ _ _ _ _ _ _ (x, y, r') Hw) as [Heq|(Hk & _)].
    + apply Ht. exists r', rel. rewrite <-Heq. by eauto.
    + simplify_eq. by eapply gate_in_time.
Qed.

Lemma in_time_cascade db id : ends_live db ∧ in_time db →
  ends_live (cascade_delete db id) ∧ in_time (cascade_delete db id).
Proof.
  intros [Hlive Ht].
  assert (∀ x y r, is_Some (ld_links (cascade_delete db id) !! (x, y, r)) →
    x ≠ id ∧ y ≠ id ∧ is_Some (ld_links db !! (x, y, r))) as Hk.
  { intros x y r. rewrite cascade_lookup. case_decide as Hd; [by destruct Hd|by intros [? ?]]. }
  split.
  - intros x y r (Hx & Hy & Hrow)%Hk. apply Hlive in Hrow. unfold mems. simpl.
    by rewrite !lookup_delete_ne.
  - eapply in_time_shrink; [|..|exact Ht]; [by intros [[x y] r] (_ & _ & ?)%Hk|].
    intros x y r (Hx & Hy & _)%Hk. unfold instant, read_created_at, mems. simpl.
    by rewrite !lookup_delete_ne.
Qed.

Lemma in_time_step db db' : local_step db db' → ends_live db ∧ in_time db → ends_live db' ∧ in_time db'.
Proof.
  intros [env now uuid at_ db0 s t r kp db1 level He Hc|db0 m Hm|env db0 id db1 b Hd|db0 s t] Hinv.
  - by eapply in_time_create.
  - destruct Hinv as [Hlive Ht]. split.
    + intros x y r Hrow. apply Hlive in Hrow as [Hx Hy]. unfold mems. simpl.
      rewrite !lookup_insert_is_Some'. by auto.
    + eapply in_time_shrink; [|..|exact Ht]; [done|]. intros x y r Hrow.
      apply Hlive in Hrow as [[mx Hx] [my Hy]]. unfold instant, read_created_at, mems in *. simpl.
      split; (match goal with |- context [<[_:=_]> _ !! ?z] => destruct (decide (z = mem_id m)) as [->|] end;
        [rewrite lookup_insert_eq; by simplify_option_eq; rewrite <-(Hm _ ltac:(eassumption))
        |by rewrite lookup_insert_ne]).
  - unfold delete_memory in Hd. destruct (gate_storage_conn env); [|done]. injection Hd as <- _.
    by apply in_time_cascade.
  - destruct Hinv as [Hlive Ht].
    assert (∀ k, is_Some (ld_links (fst (delete_link db0 s t)) !! k) → is_Some (ld_links db0 !! k)) as Hsub.
    { intros k. rewrite delete_link_lookup. case_decide; [by intros [? ?]|done]. }
    split; [intros x y r Hrow; by eapply Hlive, Hsub|].
    eapply in_time_shrink; [exact Hsub|..|exact Ht]. done.
Qed.

Lemma lineage_path_instants db x y ix iy :
  (∀ z, is_Some (mems db !! z) → is_Some (instant db z)) → ends_live db → in_time db →
  tc (lineage db) x y → instant db x = Some ix → instant db y = Some iy → (iy ≤ ix)%Z.
Proof.
  intros Hdated Hlive Ht Htc. revert ix iy. induction Htc as [x y Hxy|x y z Hxy _ IH]; intros ix iz Hx Hz.
  - by eapply Ht.
  - destruct Hxy as (r & rel & Hrow & Hr) eqn:E. destruct (Hlive _ _ _ Hrow) as [_ [my Hy]].
    destruct (Hdated y (ex_intro _ my Hy)) as [iy Hiy]. specialize (IH iy iz Hiy Hz).
    assert (iy ≤ ix)%Z; [|lia]. eapply Ht; [exact Hxy|done|done].
Qed.

(** With the lineage guard on, local writes leave no lineage cycle except
    between memories created at the same instant: two memories that derive
    from each other, through however many edges, have equal creation
    instants. *)
Lemma lineage_cycles_are_ties db db' x y :
  ends_live db → in_time db → rtc local_step db db' →
  (∀ z, is_Some (mems db' !! z) → is_Some (instant db' z)) →
  tc (lineage db') x y → tc (lineage db') y x → instant db' x = instant db' y.
Proof.
  intros Hlive Ht Hsteps Hdated Hxy Hyx.
  assert (ends_live db' ∧ in_time db') as [Hlive' Ht'].
  { assert (ends_live db ∧ in_time db) as Hinv by done. clear -Hsteps Hinv.
    induction Hsteps; [done|]. eauto using in_time_step. }
  assert (∀ a b, tc (lineage db') a b → is_Some (instant db' a)) as Hsome.
  { intros a b Hab. apply Hdated. destruct Hab as [a b Hab|a b c Hab _];
      destruct Hab as (r & rel & Hrow & _); by apply Hlive' in Hrow as [? _]. }
  destruct (Hsome _ _ Hxy) as [ix Hx], (Hsome _ _ Hyx) as [iy Hy]. rewrite Hx, Hy. f_equal.
  pose proof (lineage_path_instants db' x y ix iy Hdated Hlive' Ht' Hxy Hx Hy).
  pose proof (lineage_path_instants db' y x iy ix Hdated Hlive' Ht' Hyx Hy Hx). lia.
Qed.
End lineage.

(* ------------------------------------------------------------------ *)
(** * Audit rows, the fence, repeated links *)

Section audit.
Context {CC : CapCrypto} {LC : LedgerCrypto} {PS : PolicySerde} {CH : Chrono} {JC : JsonCodec}
  {L : Log2} {B3 : Blake3}.

(** Nothing but the audit append reads the ledger, and it opens a transaction. *)
Lemma created_in_tx env now uuid at_ db s t r kp db' level : ld_in_tx db = true →
  create_link_signed env now uuid at_ db s t r kp = Ok (db', level) → ld_events db' = ld_events db.
Proof.
  intros Htx (_ & _ & _ & sig & obs & _ & db1 & b & events & _ & -> & [->|(_ & Hno & _)])%create_link_signed_ok;
    [done|congruence].
Qed.

(** A link written inside a transaction leaves no audit row. Conserving a
    contradiction always writes its link that way, so it never adds to the
    ledger, whatever the keys and settings. *)
Lemma conserved_link_unaudited env now uuid at_ db loser winner kp db' :
  conserve_contradiction env now uuid at_ db loser winner kp = Ok db' → ld_events db' = ld_events db.
Proof.
  unfold conserve_contradiction, conserve_in_tx. case_match; [done|].
  destruct (mems _ !! mem_id loser) as [current|]; cbn [result_bind]; [|by intros [= <-]].
  destruct (canonical_contradiction_pair (mem_id loser) winner) as [src tgt].
  destruct (existsb _ _); cbn [result_bind].
  - case_match; [|done]. by intros [= <-].
  - destruct (create_link_signed _ _ _ _ _ _ _ _ _) as [[db1 level]|] eqn:Hc; [|done]. cbn [result_bind fst].
    case_match; [|done]. intros [= <-]. by apply created_in_tx in Hc.
Qed.

Definition running (env : LinkEnv) : LinkEnv :=
  mkEnv None (env_lineage_dag env) (env_synthetic env) (env_rules env) (env_mode env)
    (env_pre_write env) (env_daemon_sign env).

(** What the record-stop fence covers. While it is engaged, local link
    writes and deletions of memories are refused; links from peers, restores and
    link invalidation answer as when it is not. *)
Lemma record_stop_coverage env issued_by scope :
  env_stopped env = Some (issued_by, scope) →
  (∀ now uuid at_ db s t r kp,
     create_link_signed env now uuid at_ db s t r kp = Err (RecordStopped issued_by scope))
  ∧ (∀ db id, delete_memory env db id = Err (RecordStopped issued_by scope))
  ∧ (∀ now_s uuid at_ db link level,
     create_link_inbound env now_s uuid at_ db link level
     = create_link_inbound (running env) now_s uuid at_ db link level)
  ∧ (∀ mode now db id, restore_archived env mode now db id = restore_archived (running env) mode now db id)
  ∧ (∀ now uuid at_ db s t r until,
     invalidate_link env now uuid at_ db s t r until = invalidate_link (running env) now uuid at_ db s t r until).
Proof.
  intros Hst. split_and!; try done.
  - intros. unfold create_link_signed, gate_storage_conn. by rewrite Hst.
  - intros. unfold delete_memory, gate_storage_conn. by rewrite Hst.
Qed.

(** The first link under a key stays. A peer's link whose source, target
    and relation are already linked changes no table, whatever its signature
    and grade: a row that landed unsigned is never upgraded by sending it
    again. *)
Lemma inbound_first_wins env now_s uuid at_ db link level old db' :
  ld_links db !! (ml_source_id link, ml_target_id link, Relation_as_str (ml_relation link)) = Some old →
  create_link_inbound env now_s uuid at_ db link level = Ok db' → db' = db.
Proof.
  intros Hold. unfold create_link_inbound.
  destruct (validate_link_pre_create _ _ _ _ _ _ _ _) as [[]|]; [|done]. cbn [result_bind].
  destruct (check_ends _ _ _) as [[]|]; [|done]. cbn [result_bind].
  destruct (insert_link _ _ _) as [[db1 b]|] eqn:Hins; [|done]. cbn [result_bind].
  apply insert_link_ok in Hins as (_ & Hb & ->).
  destruct b; [|by intros [= <-]]. destruct Hb as [Hb _]. destruct (Hb eq_refl) as [? _]. congruence.
Qed.
End audit.

(* ------------------------------------------------------------------ *)
(** * Demonstration *)

Definition demo_link : SignableLink := mkSignable "a" "b" "related_to" (Some "ai:alice") (Some "now") None.
Definition demo_undated : SignableLink := mkSignable "a" "b" "related_to" (Some "ai:alice") None None.

(** The sorted map of a link, were every key encoded alike. *)
Definition demo_value (l : SignableLink) : cbor :=
  CMap (snd <$> stable_sort by_encoded_key
    ((λ kv : string * cbor, ([], (CText kv.1, kv.2))) <$> link_fields l)).

(** Two encodings, signatures that carry the key and the message, dates that
    are one of two instants. *)
#[local] Instance demo_link_crypto : CapCrypto := {
  Capability.VerifyingKey := bytes;
  SigningKey := bytes;
  public_key k := k;
  sign := demo_sign;
  Capability.verify_strict k m s := bool_decide (s = demo_sign k m);
  hmac_sha256 k m := k ++ m;
  cbor_encode := table_encode
    (demo_value <$> [demo_link; demo_undated]);
  token_to_cbor _ := None;
  token_from_cbor _ := None;
  b64_encode := String.string_of_list_byte;
  b64_decode s := Some (String.list_byte_of_string s)
}.

#[local] Instance demo_link_laws : CapCryptoLaws demo_link_crypto.
Proof.
  split; simpl.
  - intros k m. by rewrite bool_decide_true.
  - apply demo_sign_length.
  - apply table_encode_inj.
  - done.
  - intros b. by rewrite String.list_byte_of_string_of_list_byte.
Qed.

#[local] Existing Instance demo_ledger_crypto.
#[local] Existing Instance log2_powers.
#[local] Existing Instance Cid.demo_blake3.
#[local] Instance demo_policies : PolicySerde := λ _, None.
#[local] Instance demo_chrono : Chrono := {|
  parse_rfc3339 s := if decide (s = "noon") then Some (mkDateTime 12 0) else Some (mkDateTime 0 0);
  to_rfc3339 _ := "now"
|}.
#[local] Instance demo_json : JsonCodec := {| json_to_string _ := "{}"; json_from_str _ := None |}.

Definition demo_memory (id : string) : Memory :=
  mkMemory id None Mid "team" id "" [] 5 F64.f64_one "api" 0 "noon" "noon" None None (JObject [])
    0 KindObservation None None [] None None CallerProvided None None 1 LifeOpen.

(** Two memories, no links. *)
Definition demo_tables : LinkDb :=
  mkLinkDb (mkGovDb {[ "a" := demo_memory "a"; "b" := demo_memory "b" ]} ∅ ∅) ∅ ∅ ∅ [] false.

Definition demo_env (lineage_dag : bool) : LinkEnv := mkEnv None lineage_dag [] [] ModeOff None (λ _, None).
Definition demo_now : datetime := mkDateTime 0 0.
Definition demo_alice : AgentKeypair := mkKeypair "ai:alice" ([Byte.x05] : @Capability.VerifyingKey demo_link_crypto)
  (Some ([Byte.x05] : @SigningKey demo_link_crypto)).
Definition demo_keys (agent : string) : option (@Capability.VerifyingKey demo_link_crypto) :=
  if decide (agent = "ai:alice") then Some [Byte.x05] else None.

Definition demo_link_up (flag : bool) (uuid : string) (db : LinkDb) (s t r : string) (kp : option AgentKeypair) :=
  create_link_signed (demo_env flag) demo_now uuid "now" db s t r kp.
Definition demo_archive (db : LinkDb) (id : string) := archive_memory "now" db id None.
Definition demo_restore (db : LinkDb) (id : string) :=
  restore_archived (demo_env false) ScreenOff "now" db id.

(** The tables an operation leaves. *)
Definition after {A} (db : LinkDb) (r : result (LinkDb * A) LinkError) : LinkDb :=
  match r with Ok (db', _) => db' | Err _ => db end.

Definition cycle1 := after demo_tables (demo_link_up false "e1" demo_tables "a" "b" REL_REFLECTS_ON None).
Definition cycle2 := after cycle1 (demo_archive cycle1 "a").
Definition cycle3 := after cycle2 (demo_restore cycle2 "a").
Definition cycle4 := fst (delete_link cycle3 "a" "b").
Definition cycle5 := after cycle4 (demo_link_up false "e2" cycle4 "b" "a" REL_REFLECTS_ON None).
Definition cycle6 := after cycle5 (demo_archive cycle5 "a").
Definition cycle7 := after cycle6 (demo_restore cycle6 "a").

Definition any_step (a b : LinkDb) : Prop := link_step demo_keys (λ _, True) a b ∨ restore_step a b.

Lemma demo_acyclic : acyclic (reflects demo_tables).
Proof.
  assert (∀ x y, ¬ reflects demo_tables x y) as Hno by (intros x y [row Hxy]; unfold demo_tables in Hxy; simpl in Hxy; by rewrite lookup_empty in Hxy).
  intros x Hx. destruct Hx as [x y Hxy|x y z Hxy _]; by apply Hno in Hxy.
Qed.

(** A restore can close a cycle. The archive keeps its copies of links
    after they are restored, and a restore does not run the cycle check: link
    [a] to [b], archive and restore [a], delete the link, link [b] to [a],
    archive and restore [a] again, and [a] and [b] reflect on each other,
    the deleted link being back. *)
Lemma restore_closes_cycle :
  acyclic (reflects demo_tables)
  ∧ rtc any_step demo_tables cycle7
  ∧ ¬ reflects cycle5 "a" "b"
  ∧ reflects cycle7 "a" "b" ∧ reflects cycle7 "b" "a".
Proof.
  split_and!.
  - apply demo_acyclic.
  - assert (∀ a s t u, create_link_signed (demo_env false) demo_now u "now" a s t REL_REFLECTS_ON None
        = Ok (after a (demo_link_up false u a s t REL_REFLECTS_ON None), "unsigned") →
      any_step a (after a (demo_link_up false u a s t REL_REFLECTS_ON None))) as Hc.
    { intros a s t u Ha. left. by eapply LS_create; [|exact Ha]. }
    assert (∀ a id, demo_archive a id = Ok (after a (demo_archive a id), true) →
      any_step a (after a (demo_archive a id))) as Har.
    { intros a id Ha. left. by eapply LS_archive. }
    assert (∀ a id, demo_restore a id = Ok (after a (demo_restore a id), true) →
      any_step a (after a (demo_restore a id))) as Hre.
    { intros a id Ha. right. by eapply RS_restore. }
    apply rtc_l with cycle1; [apply Hc; vm_compute; reflexivity|].
    apply rtc_l with cycle2; [apply Har; vm_compute; reflexivity|].
    apply rtc_l with cycle3; [apply Hre; vm_compute; reflexivity|].
    apply rtc_l with cycle4; [left; apply LS_delete_link|].
    apply rtc_l with cycle5; [apply Hc; vm_compute; reflexivity|].
    apply rtc_l with cycle6; [apply Har; vm_compute; reflexivity|].
    apply rtc_once. apply Hre; vm_compute; reflexivity.
  - intros [row Hrow]. vm_compute in Hrow. discriminate.
  - eexists. vm_compute. reflexivity.
  - eexists. vm_compute. reflexivity.
Qed.

Definition demo_wire (from : option string) (sig : bytes) : WireLink :=
  mkLink "a" "b" RelatedTo "then" (Some sig) (Some "ai:alice") from None None.
Definition demo_signature : bytes := demo_sign [Byte.x05] (default [] (canonical_cbor demo_undated)).

(** A peer's link can be accepted as attested and never verify again. A
    link signed without an instant it is valid from passes the receiver's
    check and lands as [peer_attested] with the receiver's clock in that
    column, so that [memory_verify] recomputes other bytes than were signed. *)
Lemma undated_link_loses_attestation :
  ∃ link db' record,
    inbound_attest_level demo_keys link = Some "peer_attested"
    ∧ create_link_inbound (demo_env false) "now" "e1" "now" demo_tables link "peer_attested" = Ok db'
    ∧ get_link_for_verify db' "a" "b" "related_to" = Some record
    ∧ vr_attest_level record = Some "peer_attested"
    ∧ verify_record demo_keys record = (false, Unsigned).
Proof.
  exists (demo_wire None demo_signature).
  eexists _, _. split_and!; [vm_compute; reflexivity..|vm_compute; reflexivity].
Qed.

Definition tie1 := after demo_tables (demo_link_up true "e1" demo_tables "a" "b" "derived_from" None).
Definition tie2 := after tie1 (demo_link_up true "e2" tie1 "b" "a" "derived_from" None).

(** With the lineage guard on, two memories created at the same instant
    can be made to derive from each other. *)
Lemma lineage_tie_cycle : rtc local_step demo_tables tie2 ∧ tc (lineage tie2) "a" "a".
Proof.
  split.
  - apply rtc_l with tie1.
    { apply (LOC_create (demo_env true) demo_now "e1" "now" demo_tables "a" "b" "derived_from" None _ "unsigned");
        [done|vm_compute; reflexivity]. }
    apply rtc_once.
    apply (LOC_create (demo_env true) demo_now "e2" "now" tie1 "b" "a" "derived_from" None _ "unsigned");
      [done|vm_compute; reflexivity].
  - apply tc_l with "b"; [|apply tc_once].
    all: exists "derived_from", DerivedFrom; (split; [eexists; vm_compute; reflexivity|done]).
Qed.

(* ------------------------------------------------------------------ *)
(** * Witnesses *)

Lemma reflections_stay_acyclic_witness : acyclic (reflects cycle1).
Proof.
  apply (reflections_stay_acyclic demo_keys (λ _, True) demo_tables cycle1); [|exact demo_acyclic].
  apply rtc_once.
  apply (LS_create _ _ (demo_env false) demo_now "e1" "now" demo_tables "a" "b" REL_REFLECTS_ON None _ "unsigned");
    [done|vm_compute; reflexivity].
Defined.

Definition signed1 := after demo_tables (demo_link_up false "e1" demo_tables "a" "b" "related_to" (Some demo_alice)).

Lemma demo_no_links : attested demo_keys demo_tables.
Proof. split; intros k r Hk; unfold demo_tables in Hk; simpl in Hk; by rewrite lookup_empty in Hk. Qed.

Lemma attested_links_verify_witness : attested demo_keys signed1.
Proof.
  apply (attested_links_verify demo_keys (λ link, is_Some (ml_valid_from link)) demo_tables signed1);
    [done| |exact demo_no_links].
  apply rtc_once. left.
  apply (LS_create _ _ (demo_env false) demo_now "e1" "now" demo_tables "a" "b" "related_to" (Some demo_alice) _
    "self_signed"); [|vm_compute; reflexivity].
  intros k [= <-]. split; [reflexivity|]. by intros k [= <-].
Defined.

Lemma create_link_exact_witness :
  ∃ row, ld_links signed1 !! ("a", "b", "related_to") = Some row ∧ lr_attest_level row = Some "self_signed".
Proof.
  assert (signable (Some demo_alice) "a" "b" "related_to" (to_rfc3339 (truncate_to_microseconds demo_now))) as Hsig.
  { intros k [= <-] _. eexists. vm_compute. reflexivity. }
  destruct (create_link_exact (demo_env false) demo_now "e1" "now" demo_tables "a" "b" "related_to"
    (Some demo_alice) ltac:(discriminate) Hsig) as [_ H].
  destruct (H signed1 "self_signed" ltac:(vm_compute; reflexivity)) as (_ & _ & _ & _ & Hnew).
  apply Hnew; [vm_compute; reflexivity|]. eexists. vm_compute. reflexivity.
Defined.

Lemma demo_instants db z : is_Some (mems db !! z) → is_Some (instant db z).
Proof.
  intros [m Hm]. unfold instant, read_created_at. rewrite Hm. simpl. case_decide; by eexists.
Qed.

Lemma demo_no_lineage : ends_live demo_tables ∧ in_time demo_tables.
Proof.
  split.
  - intros x y r [row Hr]. unfold demo_tables in Hr. simpl in Hr. by rewrite lookup_empty in Hr.
  - intros x y (r & rel & [row Hr] & _). unfold demo_tables in Hr. simpl in Hr. by rewrite lookup_empty in Hr.
Qed.

Lemma tie2_edges : lineage tie2 "a" "b" ∧ lineage tie2 "b" "a".
Proof. split; exists "derived_from", DerivedFrom; (split; [eexists; vm_compute; reflexivity|done]). Qed.

Lemma lineage_cycles_are_ties_witness : instant tie2 "a" = instant tie2 "b".
Proof.
  destruct demo_no_lineage as [Hl Ht], tie2_edges as [Hab Hba].
  apply (lineage_cycles_are_ties demo_tables tie2 "a" "b" Hl Ht);
    [|intros; by apply demo_instants|by apply tc_once|by apply tc_once].
  apply rtc_l with tie1.
  { apply (LOC_create (demo_env true) demo_now "e1" "now" demo_tables "a" "b" "derived_from" None _ "unsigned");
      [done|vm_compute; reflexivity]. }
  apply rtc_once.
  apply (LOC_create (demo_env true) demo_now "e2" "now" tie1 "b" "a" "derived_from" None _ "unsigned");
    [done|vm_compute; reflexivity].
Defined.

Definition conserved : LinkDb :=
  match conserve_contradiction (demo_env false) demo_now "e1" "now" demo_tables (demo_memory "a") "b" None with
  | Ok db => db | Err _ => demo_tables
  end.

Lemma conserved_link_unaudited_witness :
  is_Some (ld_links conserved !! ("a", "b", "contradicts")) ∧ ld_events conserved = [].
Proof.
  split; [eexists; vm_compute; reflexivity|].
  apply (conserved_link_unaudited (demo_env false) demo_now "e1" "now" demo_tables (demo_memory "a") "b" None).
  vm_compute. reflexivity.
Defined.

Definition demo_stopped : LinkEnv := mkEnv (Some ("ops", "record-plane")) false [] [] ModeOff None (λ _, None).

Lemma record_stop_coverage_witness :
  create_link_signed demo_stopped demo_now "e1" "now" demo_tables "a" "b" "related_to" None
    = Err (RecordStopped "ops" "record-plane")
  ∧ ∃ db', create_link_inbound demo_stopped "now" "e1" "now" demo_tables (demo_wire None []) "unsigned" = Ok db'
      ∧ is_Some (ld_links db' !! ("a", "b", "related_to")).
Proof.
  destruct (record_stop_coverage demo_stopped "ops" "record-plane" eq_refl) as (Hc & _ & Hi & _).
  split; [apply Hc|]. rewrite Hi. eexists. split; [vm_compute; reflexivity|]. eexists. vm_compute. reflexivity.
Defined.

Lemma inbound_first_wins_witness : ∃ db',
  create_link_inbound (demo_env false) "now" "e2" "now" signed1 (demo_wire (Some "now") []) "unsigned" = Ok db'
  ∧ db' = signed1.
Proof.
  eexists. split; [vm_compute; reflexivity|].
  eapply (inbound_first_wins (demo_env false) "now" "e2" "now" signed1 (demo_wire (Some "now") []) "unsigned");
    vm_compute; reflexivity.
Defined.
