(* ===== verification/Coordination.v ===== *)
(** The coordination tools: the request handlers that compose the tables of
    actions, signals, checkpoints and routines with the storage quota and the
    audit ledger ([src/src/mcp/tools/action.rs], [signal.rs], [checkpoint.rs],
    [routine.rs], [src/src/coordination_audit.rs]). *)
From S2P Require Import Prelude.
From S2P Require Import Handler.
From S2P Require Import Sql.
From S2P Require Import BTree.
From S2P Require Import Bytes.
From S2P Require Import Text.
From S2P Require Import Json.
From S2P Require Import Actions.
From S2P Require Import Memory.
From S2P Require Import Quotas.
From S2P Require Import Capability.
From S2P Require Import Attestation.
From S2P Require Import Ledger.
From S2P Require Import Signals.
From S2P Require Import Checkpoints.
From S2P Require Import Routines.
From S2P Require Import SecretScreen.
From S2P Require Import Links.
From stdpp Require Import pretty.

(* ------------------------------------------------------------------ *)
(** * State *)

(** The tables behind one connection. *)
Record Substrate : Type := mkSubstrate {
  sb_actions : coord_db;
  sb_signals : SignalDb;
  sb_checkpoints : CheckpointDb;
  sb_routines : RoutineDb;
  sb_quotas : QuotaDb;
  sb_events : ledger
}.

Definition set_actions (t : coord_db) (s : Substrate) : Substrate :=
  mkSubstrate t (sb_signals s) (sb_checkpoints s) (sb_routines s) (sb_quotas s) (sb_events s).
Definition set_signals (t : SignalDb) (s : Substrate) : Substrate :=
  mkSubstrate (sb_actions s) t (sb_checkpoints s) (sb_routines s) (sb_quotas s) (sb_events s).
Definition set_checkpoints (t : CheckpointDb) (s : Substrate) : Substrate :=
  mkSubstrate (sb_actions s) (sb_signals s) t (sb_routines s) (sb_quotas s) (sb_events s).
Definition set_routines (t : RoutineDb) (s : Substrate) : Substrate :=
  mkSubstrate (sb_actions s) (sb_signals s) (sb_checkpoints s) t (sb_quotas s) (sb_events s).
Definition set_quotas (t : QuotaDb) (s : Substrate) : Substrate :=
  mkSubstrate (sb_actions s) (sb_signals s) (sb_checkpoints s) (sb_routines s) t (sb_events s).
Definition set_events (t : ledger) (s : Substrate) : Substrate :=
  mkSubstrate (sb_actions s) (sb_signals s) (sb_checkpoints s) (sb_routines s) (sb_quotas s) t.

(** What a handler answers when it does not answer [Ok]; the last two stand for
    a call that panics and one that never returns. *)
Inductive CoordError : Type :=
| Refused (reason : string)
| MetadataInvalid
| TtlInvalid
| QuotaRefused (e : QuotaCheckError)
| SqlFailed (e : sql_error)
| SignatureFailed (e : SignError)
| CallPanics
| CallRuns.

(** Process-wide settings: the defaults of a new quota row, the audit key,
    the mode of the credential screen. *)
Record CoordEnv : Type := mkCoordEnv {
  ce_defaults : QuotaDefaults;
  ce_audit_sign : bytes → option bytes;
  ce_mode : SecretScreenMode
}.

(** What one request reads from its surroundings: the clock, at each place it
    is read, and the fresh identifiers. *)
Record Readings : Type := mkReadings {
  rd_now : Z;
  rd_uuid : string;
  rd_ensured_at : string;
  rd_quota_now : string;
  rd_event_id : string;
  rd_event_at : string;
  rd_run_uuids : nat → string
}.

Abbreviation coord := (handler Substrate CoordError).

(* ------------------------------------------------------------------ *)
(** * The audit writer: [coordination_audit.rs] *)

Definition SIGNAL_SEND : string := "coordination.signal_send".
Definition SIGNAL_ACK : string := "coordination.signal_ack".
Definition ACTION_CREATE : string := "coordination.action_create".
Definition ACTION_TRANSITION : string := "coordination.action_transition".
Definition ACTION_ADD_EDGE : string := "coordination.action_add_edge".
Definition LEASE_ACQUIRE : string := "coordination.lease_acquire".
Definition LEASE_RENEW : string := "coordination.lease_renew".
Definition LEASE_RELEASE : string := "coordination.lease_release".
Definition CHECKPOINT_CREATE : string := "coordination.checkpoint_create".
Definition CHECKPOINT_RESOLVE : string := "coordination.checkpoint_resolve".
Definition ROUTINE_CREATE : string := "coordination.routine_create".
Definition ROUTINE_FREEZE : string := "coordination.routine_freeze".
Definition ROUTINE_RUN : string := "coordination.routine_run".

(** The bytes hashed: the parts, a unit separator between two. *)
Fixpoint identity_bytes (parts : list string) : bytes :=
  match parts with
  | [] => []
  | [p] => str_bytes p
  | p :: parts => str_bytes p ++ FIELD_SEP :: identity_bytes parts
  end.

Section handlers.
Context {CC : CapCrypto} {LC : LedgerCrypto} {JC : JsonCodec} {KB : KeyBytes CC} {SD : SqlDisplay}
  {L : Log2}.
Context (env : CoordEnv) (rd : Readings).

(** Best effort: a failed append changes nothing and is not reported. The
    append opens a transaction of its own. *)
Definition emit (event_type actor : string) (identity_parts : list string) : coord unit :=
  update (λ st,
    let event := with_daemon_signature (ce_audit_sign env) (rd_event_id rd)
                   (sha256 (identity_bytes identity_parts)) actor event_type (rd_event_at rd) None in
    if q_in_tx (sb_quotas st) then (st, tt)
    else
      match append_signed_event_no_tx (ce_audit_sign env) (sb_events st) event with
      | Ok events => (set_events events st, tt)
      | Err _ => (st, tt)
      end).

(* ------------------------------------------------------------------ *)
(** * Parameters *)

Definition param_text (params : value) (key : string) : option string := json_get params key ≫= json_as_str.
Definition param_str (params : value) (key : string) : string := default "" (param_text params key).
Definition param_i64 (params : value) (key : string) : option Z := json_get params key ≫= json_as_i64.
Definition param_json (params : value) (key : string) (dflt : value) : value := default dflt (json_get params key).

(** [str::trim] and the refusal of an empty rest. *)
Definition trimmed (s : string) : option string :=
  let s := str_trim s in if str_is_empty s then None else Some s.
Definition param_trimmed (params : value) (key : string) : option string := param_text params key ≫= trimmed.

(** [usize::try_from(limit).unwrap_or(default)] *)
Definition param_limit (params : value) (dflt : Z) : Z :=
  let limit := default dflt (param_i64 params "limit") in if decide (0 ≤ limit)%Z then limit else dflt.

(* ------------------------------------------------------------------ *)
(** * Steps the handlers share *)

Definition on_actions {A} (f : coord_db → result (coord_db * A) sql_error) : coord A :=
  zoom sb_actions set_actions (statement SqlFailed f).
Definition on_signals {A} (f : SignalDb → result (SignalDb * A) sql_error) : coord A :=
  zoom sb_signals set_signals (statement SqlFailed f).
Definition on_checkpoints {A} (f : CheckpointDb → result (CheckpointDb * A) sql_error) : coord A :=
  zoom sb_checkpoints set_checkpoints (statement SqlFailed f).
Definition on_routines {A} (f : RoutineDb → result (RoutineDb * A) sql_error) : coord A :=
  zoom sb_routines set_routines (statement SqlFailed f).

Definition check_metadata (metadata : value) : coord unit :=
  if json_is_null metadata then mret tt
  else
    match validate_metadata (ce_mode env) metadata with
    | Returns valid => check valid MetadataInvalid
    | Panics => throw CallPanics
    | Runs => throw CallRuns
    end.

(** The storage charge, of a named agent. *)
Definition charge (agent_id namespace : string) (strs : list string) (jsons : list value) : coord unit :=
  if str_is_empty agent_id then mret tt
  else
    let bytes := coordination_payload_bytes strs (json_to_string <$> jsons) in
    zoom sb_quotas set_quotas (λ db,
      let '(db, r) := check_and_record_storage_only (ce_defaults env) (rd_ensured_at rd) (rd_quota_now rd) db
                        agent_id namespace bytes in
      (db, match r with Ok u => Ok u | Err e => Err (QuotaRefused e) end)).

(** [validate_ttl_secs] and the checked addition. *)
Definition lease_expiry (ttl_secs : Z) : coord Z :=
  _ ← check (bool_decide (0 < ttl_secs ≤ 365 * 86400)%Z) TtlInvalid;
  let expires_at := (rd_now rd + ttl_secs)%Z in
  _ ← check (bool_decide (expires_at ≤ i64_max)%Z) (Refused "ttl_secs overflow");
  mret expires_at.

Definition attest_level (signature : bytes) : string :=
  AttestLevel_as_str (if is_nil signature then Unsigned else SelfSigned).

(* ------------------------------------------------------------------ *)
(** * Actions and leases: [mcp/tools/action.rs] *)

Definition handle_action_create (params : value) : coord Action :=
  let action := mkAction (rd_uuid rd) (param_str params "namespace") (param_str params "kind") Pending
    (param_str params "title") (param_json params "payload" JNull) (default 0%Z (param_i64 params "priority"))
    (param_text params "agent_id") None (JObject []) (param_json params "metadata" JNull) (rd_now rd) (rd_now rd) in
  _ ← check_metadata (act_metadata action);
  let actor := default "" (act_agent_id action) in
  _ ← charge actor (act_namespace action) [act_title action; act_kind action]
        [act_payload action; act_metadata action];
  id ← on_actions (λ db, create db action);
  _ ← emit ACTION_CREATE actor [id; act_kind action; "create"];
  mret action.

Definition handle_action_get (params : value) : coord (option Action) :=
  gets (λ st, Actions.get (sb_actions st) (default "" (param_trimmed params "id"))).

Definition illegal_transition_detail (from to : ActionState) : string :=
  "illegal action transition: " +:+ ActionState.as_str from +:+ " -> " +:+ ActionState.as_str to.

Definition handle_action_transition (params : value) : coord Action :=
  let id := default "" (param_trimmed params "id") in
  let to_name := param_str params "to" in
  to ← some_or (ActionState.from_str to_name) (Refused "invalid state");
  let claimed_by := param_text params "claimed_by" in
  outcome ← on_actions (λ db, transition db id to claimed_by (rd_now rd));
  match outcome with
  | NotFound => throw (Refused ("action not found: " +:+ id))
  | Illegal from to => throw (Refused (illegal_transition_detail from to))
  | Updated a =>
      let actor := default "" claimed_by in
      _ ← emit ACTION_TRANSITION actor [id; to_name; actor];
      mret a
  end.

Definition handle_action_list (params : value) : coord (list Action) :=
  state ← match param_text params "state" with
          | Some s => st ← some_or (ActionState.from_str s) (Refused "invalid state"); mret (Some st)
          | None => mret None
          end;
  gets (λ st, list_actions (sb_actions st) (param_text params "namespace") state (param_limit params 50)).

Definition handle_action_add_edge (params : value) : coord unit :=
  let from_action := param_str params "from_action" in
  let to_action := param_str params "to_action" in
  let edge_type_name := param_str params "edge_type" in
  edge_type ← some_or (EdgeType.from_str edge_type_name) (Refused "invalid edge_type");
  _ ← on_actions (λ db, let? db := add_edge db from_action to_action edge_type (rd_now rd) in Ok (db, tt));
  emit ACTION_ADD_EDGE "" [from_action; to_action; edge_type_name].

Definition handle_action_edges (params : value) : coord (list ActionEdge) :=
  gets (λ st, edges_for (sb_actions st) (default "" (param_trimmed params "id"))).

Definition handle_action_frontier (params : value) : coord (list Action) :=
  gets (λ st, frontier (sb_actions st) (param_str params "namespace") (param_limit params 20)).

Definition handle_action_next (params : value) : coord (option Action) :=
  gets (λ st, next_action (sb_actions st) (param_str params "namespace") (param_trimmed params "agent_id")).

Definition handle_lease_acquire (params : value) : coord Lease :=
  let action_id := param_str params "action_id" in
  let holder := param_str params "holder" in
  expires_at ← lease_expiry (default 60%Z (param_i64 params "ttl_secs"));
  outcome ← on_actions (λ db, lease_acquire db action_id holder (rd_now rd) expires_at);
  match outcome with
  | Conflict => throw (Refused ("lease conflict: " +:+ action_id +:+ " held by another holder"))
  | Acquired l => _ ← emit LEASE_ACQUIRE holder [action_id; holder]; mret l
  end.

Definition handle_lease_renew (params : value) : coord Lease :=
  let action_id := param_str params "action_id" in
  let holder := param_str params "holder" in
  expires_at ← lease_expiry (default 60%Z (param_i64 params "ttl_secs"));
  found ← on_actions (λ db, Ok (lease_renew db action_id holder (rd_now rd) expires_at));
  match found with
  | None => throw (Refused ("no lease held by " +:+ holder +:+ " on " +:+ action_id))
  | Some l => _ ← emit LEASE_RENEW holder [action_id; holder]; mret l
  end.

Definition handle_lease_release (params : value) : coord bool :=
  let action_id := param_str params "action_id" in
  let holder := param_str params "holder" in
  released ← on_actions (λ db, Ok (lease_release db action_id holder));
  _ ← (if released : bool then emit LEASE_RELEASE holder [action_id; holder] else mret tt);
  mret released.

Definition handle_lease_get (params : value) : coord (option Lease) :=
  gets (λ st, lease_get (sb_actions st) (default "" (param_trimmed params "action_id"))).

(* ------------------------------------------------------------------ *)
(** * Signals: [mcp/tools/signal.rs] *)

Record SignalDelta : Type := mkDelta {
  dl_namespace : string;
  dl_to_agent : option string;
  dl_subject : string;
  dl_body : value;
  dl_signal_type : SignalType;
  dl_in_reply_to : option string;
  dl_correlation_id : option string;
  dl_reference_ids : value
}.

Inductive SignalHookDecision : Type :=
| SigAllow
| SigModify (d : SignalDelta)
| SigDeny (reason : string) (code : Z)
| SigAskUser (prompt : string) (options : list string) (dflt : option string).

Record SignalAck : Type := mkAck {
  ack_id : string;
  ack_namespace : string;
  ack_from_agent : string;
  ack_to_agent : option string;
  ack_subject : string;
  ack_signal_type : SignalType;
  ack_acknowledged_at : Z
}.

Definition delta_of (s : Signal) : SignalDelta :=
  mkDelta (sig_namespace s) (sig_to_agent s) (sig_subject s) (sig_body s) (sig_signal_type s) (sig_in_reply_to s)
    (sig_correlation_id s) (sig_reference_ids s).

Definition apply_delta (d : SignalDelta) (s : Signal) : Signal :=
  mkSignal (sig_id s) (dl_namespace d) (sig_from_agent s) (dl_to_agent d) (dl_subject d) (dl_body d)
    (dl_signal_type d) (dl_in_reply_to d) (dl_correlation_id d) (dl_reference_ids d) (sig_created_at s)
    (sig_expires_at s) (sig_delivered_at s) (sig_read_at s) (sig_acknowledged_at s) (sig_signature s)
    (sig_sender_pubkey s).

Definition run_pre_signal_send (hook : option (SignalDelta → SignalHookDecision)) (signal : Signal) : coord Signal :=
  match hook with
  | None => mret signal
  | Some pre =>
      match pre (delta_of signal) with
      | SigAllow => mret signal
      | SigModify d => mret (apply_delta d signal)
      | SigDeny reason code =>
          throw (Refused ("signal refused by pre_signal_send hook (code " +:+ pretty code +:+ "): " +:+ reason))
      | SigAskUser prompt _ _ =>
          throw (Refused ("signal pending operator decision (pre_signal_send AskUser): " +:+ prompt))
      end
  end.

Definition signal_of_params (params : value) : Signal :=
  mkSignal (rd_uuid rd) (param_str params "namespace") (param_str params "from_agent") (param_text params "to_agent")
    (param_str params "subject") (param_json params "body" JNull)
    (default Notify (param_text params "signal_type" ≫= SignalType_from_str)) (param_text params "in_reply_to")
    (param_text params "correlation_id") (param_json params "reference_ids" (JArray [])) (rd_now rd) None None None
    None [] [].

(** Signed when there is a key that can; the level it then has. *)
Definition attest_signal (keypair : option AgentKeypair) (signal : Signal) : coord (Signal * string) :=
  match keypair with
  | Some kp =>
      if can_sign kp then
        match sign_into signal kp with
        | Ok signed => mret (signed, AttestLevel_as_str SelfSigned)
        | Err e => throw (SignatureFailed e)
        end
      else mret (signal, AttestLevel_as_str Unsigned)
  | None => mret (signal, AttestLevel_as_str Unsigned)
  end.

Definition handle_signal_send_with_hooks (hook : option (SignalDelta → SignalHookDecision))
    (keypair : option AgentKeypair) (params : value) : coord (Signal * string) :=
  signal ← run_pre_signal_send hook (signal_of_params params);
  attested ← attest_signal keypair signal;
  let signal := fst attested in
  _ ← charge (sig_from_agent signal) (sig_namespace signal) [sig_subject signal]
        [sig_body signal; sig_reference_ids signal];
  _ ← on_signals (λ db, Signals.insert db signal);
  _ ← emit SIGNAL_SEND (sig_from_agent signal)
        [sig_id signal; sig_from_agent signal; default "" (sig_to_agent signal); sig_subject signal;
         SignalType_as_str (sig_signal_type signal)];
  mret attested.

(** The signal as it was before the stamp, and whether it verifies. *)
Definition handle_signal_read (params : value) : coord (option (Signal * bool)) :=
  let id := default "" (param_trimmed params "id") in
  found ← gets (λ st, Signals.get (sb_signals st) id);
  match found with
  | None => mret None
  | Some signal =>
      _ ← on_signals (λ db, Ok (mark_read db id (rd_now rd)));
      mret (Some (signal, Signals.verify signal))
  end.

Definition handle_signal_inbox (params : value) : coord (list Signal) :=
  gets (λ st, list_inbox (sb_signals st) (param_str params "namespace") (param_text params "to_agent")
                (param_limit params 50)).

Definition handle_signal_thread (params : value) : coord (list Signal) :=
  gets (λ st, thread (sb_signals st) (param_str params "correlation_id")).

(** Whether the signal is now acknowledged by this call, and the snapshot an
    installed hook is given. *)
Definition handle_signal_ack_with_hooks (params : value) : coord (bool * option SignalAck) :=
  let id := default "" (param_trimmed params "id") in
  acknowledged ← on_signals (λ db, Ok (mark_acked db id (rd_now rd)));
  if acknowledged : bool then
    signal ← gets (λ st, Signals.get (sb_signals st) id);
    let actor := default "" (signal ≫= sig_to_agent) in
    _ ← emit SIGNAL_ACK actor [id; actor; "ack"];
    mret (true,
      (λ s, mkAck (sig_id s) (sig_namespace s) (sig_from_agent s) (sig_to_agent s) (sig_subject s)
              (sig_signal_type s) (default (rd_now rd) (sig_acknowledged_at s))) <$> signal)
  else mret (false, None).

(* ------------------------------------------------------------------ *)
(** * Checkpoints: [mcp/tools/checkpoint.rs] *)

Definition handle_checkpoint_create (params : value) : coord Checkpoint :=
  let cp := mkCheckpoint (rd_uuid rd) (param_str params "namespace") (param_str params "title")
    (default Approval (param_text params "condition_type" ≫= ConditionType_from_str))
    (param_json params "condition" (JObject [])) CpPending (param_str params "created_by") None None None [] []
    (rd_now rd) (param_i64 params "deadline_at") None (param_json params "metadata" (JObject [])) in
  _ ← check_metadata (cp_metadata cp);
  _ ← charge (cp_created_by cp) (cp_namespace cp) [cp_title cp] [cp_condition cp; cp_metadata cp];
  _ ← on_checkpoints (λ db, Checkpoints.insert db cp);
  _ ← emit CHECKPOINT_CREATE (cp_created_by cp) [cp_id cp; cp_created_by cp; "create"];
  mret cp.

(** The verdicts a request may name. *)
Definition verdict_of (s : string) : option CheckpointState :=
  match CheckpointState_from_str s with
  | Some CpResolved => Some CpResolved
  | Some CpRejected => Some CpRejected
  | _ => None
  end.

Definition handle_checkpoint_resolve (keypair : option AgentKeypair) (params : value) : coord (Checkpoint * string) :=
  let id := default "" (param_trimmed params "id") in
  state ← some_or (param_text params "state" ≫= verdict_of) (Refused "state must be one of: resolved, rejected");
  let resolved_by := param_str params "resolved_by" in
  resolved ← zoom sb_checkpoints set_checkpoints (λ db,
    let '(db, r) := resolve db id state resolved_by (param_text params "resolution")
                      (param_text params "resolution_note") (rd_now rd) keypair in
    (db, match r with Ok o => Ok o | Err (ResolutionSignFailed e) => Err (SignatureFailed e) end));
  match resolved with
  | None => throw (Refused ("checkpoint not found: " +:+ id))
  | Some cp =>
      _ ← emit CHECKPOINT_RESOLVE resolved_by [id; resolved_by; CheckpointState_as_str state];
      mret (cp, attest_level (cp_signature cp))
  end.

Definition handle_checkpoint_query (params : value) : coord (list Checkpoint) :=
  gets (λ st, query (sb_checkpoints st) (param_str params "namespace")
    (param_text params "condition_type" ≫= ConditionType_from_str)
    (param_text params "state" ≫= CheckpointState_from_str) (param_limit params 50)).

Definition handle_checkpoint_verify (params : value) : coord (option Checkpoint * bool) :=
  found ← gets (λ st, Checkpoints.get (sb_checkpoints st) (default "" (param_trimmed params "id")));
  mret (found, match found with Some cp => Checkpoints.verify cp | None => false end).

(* ------------------------------------------------------------------ *)
(** * Routines: [mcp/tools/routine.rs] *)

Definition handle_routine_create (params : value) : coord Routine :=
  namespace ← some_or (param_trimmed params "namespace") (Refused "namespace is required");
  name ← some_or (param_trimmed params "name") (Refused "name is required");
  let r := mkRoutine (rd_uuid rd) namespace name (param_json params "template" (JObject []))
    (param_json params "parameters" (JArray [])) Draft (param_str params "created_by") (rd_now rd) None [] []
    (param_json params "metadata" (JObject [])) in
  _ ← on_routines (λ db, routine_insert db r);
  _ ← emit ROUTINE_CREATE (rt_created_by r) [rt_id r; rt_name r; "create"];
  mret r.

Definition handle_routine_freeze (keypair : option AgentKeypair) (params : value) : coord (Routine * string) :=
  id ← some_or (param_trimmed params "id") (Refused "id is required");
  frozen ← zoom sb_routines set_routines (λ db,
    let '(db, r) := routine_freeze db id (rd_now rd) keypair in
    (db, match r with Ok o => Ok o | Err (FreezeSignFailed e) => Err (SignatureFailed e) end));
  match frozen with
  | None => throw (Refused ("routine not found: " +:+ id))
  | Some r =>
      _ ← emit ROUTINE_FREEZE (rt_created_by r) [rt_id r; rt_created_by r; "freeze"];
      mret (r, attest_level (rt_signature r))
  end.

(** The first of the two keys that is present, whatever it holds. *)
Definition param_either (params : value) (key1 key2 : string) : option string :=
  v ← match json_get params key1 with Some v => Some v | None => json_get params key2 end;
  json_as_str v ≫= trimmed.

(** The run as it is recorded, and the error or the actions created. *)
Definition handle_routine_run (params : value) : coord (option RoutineRun * result (list string) string) :=
  routine_id ← some_or (param_either params "routine_id" "id") (Refused "routine_id is required");
  arguments ← some_or (json_get params "arguments" ≫= json_as_object)
                (Refused "arguments is required (a JSON object of {{param}} -> value)");
  found ← gets (λ st, routine_get (sb_routines st) routine_id);
  routine ← some_or found (Refused ("routine not found: " +:+ routine_id));
  _ ← check (bool_decide (rt_state routine = Frozen)) (Refused "routine must be frozen before it can be run");
  let run := mkRun (rd_uuid rd) routine_id (rt_namespace routine) (JObject arguments) Running (JArray []) (rd_now rd)
               None None (JObject []) in
  run_id ← on_routines (λ db, run_insert db run);
  _ ← emit ROUTINE_RUN (rt_created_by routine) [routine_id; run_id; "run"];
  made ← zoom sb_actions set_actions (λ db,
    let '(db, r) := materialize_template (rd_run_uuids rd) db routine arguments (rd_now rd) in (db, Ok r));
  match made with
  | Err err =>
      failed ← on_routines (λ db, Ok (run_set_state db run_id RunFailed (Some (rd_now rd)) None (Some err)));
      mret (failed, Err err)
  | Ok created =>
      completed ← on_routines (λ db,
        Ok (run_set_state db run_id Completed (Some (rd_now rd)) (Some (JArray (JString <$> created))) None));
      mret (completed, Ok created)
  end.

Definition handle_routine_status (params : value) : coord (option RoutineRun) :=
  run_id ← some_or (param_either params "run_id" "id") (Refused "run_id is required");
  gets (λ st, run_get (sb_routines st) run_id).

Definition handle_routine_list (params : value) : coord (list Routine) :=
  namespace ← some_or (param_trimmed params "namespace") (Refused "namespace is required");
  gets (λ st, routine_list (sb_routines st) namespace (param_text params "state" ≫= RoutineState_from_str)
                (param_limit params 50)).
End handlers.

(* ------------------------------------------------------------------ *)
(** * Requests *)

(** The requests that write. *)
Inductive Request : Type :=
| ActionCreate | ActionTransition | ActionAddEdge | LeaseAcquire_ | LeaseRenew | LeaseRelease
| SignalSend (hook : option (SignalDelta → SignalHookDecision)) | SignalRead | SignalAck_
| CheckpointCreate | CheckpointResolve | RoutineCreate | RoutineFreeze | RoutineRun_.

Inductive Answer : Type :=
| AnAction (a : Action)
| ADone
| ALease (l : Lease)
| AReleased (b : bool)
| ASignal (s : Signal) (level : string)
| ASignalRead (o : option (Signal * bool))
| AnAck (b : bool) (ack : option SignalAck)
| ACheckpoint (c : Checkpoint) (level : option string)
| ARoutine (r : Routine) (level : option string)
| ARun (run : option RoutineRun) (created : result (list string) string).

Section requests.
Context {CC : CapCrypto} {LC : LedgerCrypto} {JC : JsonCodec} {KB : KeyBytes CC} {SD : SqlDisplay}
  {L : Log2}.
Context (env : CoordEnv).

Definition serve (rd : Readings) (keypair : option AgentKeypair) (req : Request) (params : value) : coord Answer :=
  match req with
  | ActionCreate => a ← handle_action_create env rd params; mret (AnAction a)
  | ActionTransition => a ← handle_action_transition env rd params; mret (AnAction a)
  | ActionAddEdge => _ ← handle_action_add_edge env rd params; mret ADone
  | LeaseAcquire_ => l ← handle_lease_acquire env rd params; mret (ALease l)
  | LeaseRenew => l ← handle_lease_renew env rd params; mret (ALease l)
  | LeaseRelease => b ← handle_lease_release env rd params; mret (AReleased b)
  | SignalSend hook => s ← handle_signal_send_with_hooks env rd hook keypair params; mret (ASignal (fst s) (snd s))
  | SignalRead => o ← handle_signal_read rd params; mret (ASignalRead o)
  | SignalAck_ => a ← handle_signal_ack_with_hooks env rd params; mret (AnAck (fst a) (snd a))
  | CheckpointCreate => c ← handle_checkpoint_create env rd params; mret (ACheckpoint c None)
  | CheckpointResolve =>
      c ← handle_checkpoint_resolve env rd keypair params; mret (ACheckpoint (fst c) (Some (snd c)))
  | RoutineCreate => r ← handle_routine_create env rd params; mret (ARoutine r None)
  | RoutineFreeze => r ← handle_routine_freeze env rd keypair params; mret (ARoutine (fst r) (Some (snd r)))
  | RoutineRun_ => r ← handle_routine_run env rd params; mret (ARun (fst r) (snd r))
  end.

(** One request served. *)
Definition request_step (st st' : Substrate) : Prop :=
  ∃ rd keypair req params, st' = (serve rd keypair req params st).1.

(* ------------------------------------------------------------------ *)
(** * The steps of each table *)

Inductive checkpoint_step (db : CheckpointDb) : CheckpointDb → Prop :=
| step_cp_insert c db' id : Checkpoints.insert db c = Ok (db', id) → checkpoint_step db db'
| step_cp_resolve id state by_ resolution note at_ kp :
    checkpoint_step db (resolve db id state by_ resolution note at_ kp).1.

Inductive quota_step (db : QuotaDb) : QuotaDb → Prop :=
| step_charge t now agent namespace b : byte_count b →
    quota_step db (check_and_record_storage_only (ce_defaults env) t now db agent namespace b).1.

Inductive event_step (db : ledger) : ledger → Prop :=
| step_append e db' : append_signed_event_no_tx (ce_audit_sign env) db e = Ok db' → event_step db db'.

(** Each table has only moved by the operations of its component. *)
Record evolves (st st' : Substrate) : Prop := mkEvolves {
  ev_actions : rtc coord_step (sb_actions st) (sb_actions st');
  ev_signals : rtc signal_step (sb_signals st) (sb_signals st');
  ev_checkpoints : rtc checkpoint_step (sb_checkpoints st) (sb_checkpoints st');
  ev_routines : rtc routine_step (sb_routines st) (sb_routines st');
  ev_quotas : rtc quota_step (sb_quotas st) (sb_quotas st');
  ev_events : rtc event_step (sb_events st) (sb_events st')
}.

#[global] Instance evolves_preorder : PreOrder evolves.
Proof.
  split; [by split|]. intros a b c [] []. split; by etrans.
Qed.

(* ------------------------------------------------------------------ *)
(** * Handlers only take steps *)

Lemma payload_bytes_count strs jsons : byte_count (coordination_payload_bytes strs jsons).
Proof.
  unfold byte_count, coordination_payload_bytes. cbv zeta.
  assert (0 ≤ foldr (λ s n, Z.of_nat (String.length s) + n) 0 (strs ++ jsons))%Z
    by (induction (strs ++ jsons); simpl; lia).
  case_decide; unfold i64_max in *; lia.
Qed.

Lemma create_actions_steps uuid rt args now i specs db created :
  rtc coord_step db (create_actions uuid rt args now i specs db created).1.
Proof.
  revert i db created. induction specs as [|spec specs IH]; intros i db created; cbn [create_actions]; [done|].
  destruct (template_action _ _ _ _ _ _) as [a|]; [|done]. destruct (create db a) as [[db1 id]|] eqn:E; [|done].
  simpl. eapply rtc_l; [by eapply Actions.step_create|apply IH].
Qed.

Lemma add_edges_steps created now i specs db : rtc coord_step db (add_edges created now i specs db).1.
Proof.
  revert i db. induction specs as [|spec specs IH]; intros i db; cbn [add_edges]; [done|].
  destruct (template_edge _ _ _) as [[[f t] ty]|]; [|done]. destruct (add_edge db f t ty now) as [db1|] eqn:E; [|done].
  simpl. eapply rtc_l; [by eapply Actions.step_edge|apply IH].
Qed.

Lemma materialize_steps uuid db rt args now : rtc coord_step db (materialize_template uuid db rt args now).1.
Proof.
  unfold materialize_template. destruct (json_as_object _) as [template|]; [|done].
  set (r := match bget "actions" template with Some _ => _ | None => _ end).
  assert (rtc coord_step db r.1) as Hr.
  { unfold r. destruct (bget "actions" template) as [av|]; [|done]. destruct (json_as_array av); [|done].
    apply create_actions_steps. }
  clearbody r. destruct r as [db1 [created|e]]; [|done]. simpl in Hr.
  destruct (bget "edges" template) as [ev|]; [|done]. destruct (json_as_array ev); [|done].
  etrans; [exact Hr|apply add_edges_steps].
Qed.


Lemma statement_steps {T E E' A} (R : relation T) (lift : E' → E) (f : T → result (T * A) E') db :
  (∀ db' a, f db = Ok (db', a) → R db db') → rtc R db (statement lift f db).1.
Proof. intros Hf. unfold statement. destruct (f db) as [[db' a]|e]; simpl; [|done]. by eapply rtc_once, Hf. Qed.

Lemma pair_step {T A E} (R : relation T) (p : T * A) (db db' : T) (a : A) :
  R db p.1 → Ok p = Ok (E := E) (db', a) → R db db'.
Proof. destruct p. by intros ? [= -> ->]. Qed.

Ltac on_table := let st := fresh in let E := fresh in
  intros Hf st; unfold zoom; match goal with
  | |- context [?h (?get st)] => specialize (Hf (get st)); destruct (h (get st)) as [? ?] eqn:E
  end; simpl in *; split; simpl; try reflexivity; exact Hf.

Lemma zoom_actions_steps {A} (h : handler coord_db CoordError A) :
  (∀ db, rtc coord_step db (h db).1) → stepping evolves (zoom sb_actions set_actions h).
Proof. on_table. Qed.
Lemma zoom_signals_steps {A} (h : handler SignalDb CoordError A) :
  (∀ db, rtc signal_step db (h db).1) → stepping evolves (zoom sb_signals set_signals h).
Proof. on_table. Qed.
Lemma zoom_checkpoints_steps {A} (h : handler CheckpointDb CoordError A) :
  (∀ db, rtc checkpoint_step db (h db).1) → stepping evolves (zoom sb_checkpoints set_checkpoints h).
Proof. on_table. Qed.
Lemma zoom_routines_steps {A} (h : handler RoutineDb CoordError A) :
  (∀ db, rtc routine_step db (h db).1) → stepping evolves (zoom sb_routines set_routines h).
Proof. on_table. Qed.
Lemma zoom_quotas_steps {A} (h : handler QuotaDb CoordError A) :
  (∀ db, rtc quota_step db (h db).1) → stepping evolves (zoom sb_quotas set_quotas h).
Proof. on_table. Qed.

Lemma emit_steps rd event_type actor parts : stepping evolves (emit env rd event_type actor parts).
Proof.
  intros st. unfold emit, update. destruct (q_in_tx (sb_quotas st)); [reflexivity|]. cbv zeta.
  destruct (append_signed_event_no_tx _ _ _) as [ev|e] eqn:E; simpl; [|reflexivity].
  split; simpl; try reflexivity. eapply rtc_once. by econstructor.
Qed.

Lemma charge_steps rd agent ns strs jsons : stepping evolves (charge env rd agent ns strs jsons).
Proof.
  unfold charge. destruct (str_is_empty agent); [apply stepping_ret; apply _|].
  apply zoom_quotas_steps. intros db. set (b := coordination_payload_bytes _ _).
  pose proof (step_charge db (rd_ensured_at rd) (rd_quota_now rd) agent ns b (payload_bytes_count _ _)) as H.
  destruct (check_and_record_storage_only _ _ _ _ _ _ _) as [q r]. by apply rtc_once.
Qed.

Lemma check_metadata_steps metadata : stepping evolves (check_metadata env metadata).
Proof. unfold check_metadata. destruct (json_is_null metadata), (validate_metadata (ce_mode env) metadata); eauto with steps typeclass_instances. Qed.

Lemma resolve_steps id state by_ resolution note at_ kp :
  stepping evolves (zoom sb_checkpoints set_checkpoints (λ db,
    let '(db, r) := resolve db id state by_ resolution note at_ kp in
    (db, match r with Ok o => Ok o | Err (ResolutionSignFailed e) => Err (SignatureFailed e) end))).
Proof.
  apply zoom_checkpoints_steps. intros db. pose proof (step_cp_resolve db id state by_ resolution note at_ kp) as H.
  destruct (resolve _ _ _ _ _ _ _ _). by apply rtc_once.
Qed.

Lemma freeze_steps id at_ kp :
  stepping evolves (zoom sb_routines set_routines (λ db,
    let '(db, r) := routine_freeze db id at_ kp in
    (db, match r with Ok o => Ok o | Err (FreezeSignFailed e) => Err (SignatureFailed e) end))).
Proof.
  apply zoom_routines_steps. intros db. pose proof (Routines.step_freeze db id at_ kp) as H.
  destruct (routine_freeze _ _ _ _). by apply rtc_once.
Qed.

Lemma materialise_steps uuid rt args now :
  stepping evolves (E := CoordError) (zoom sb_actions set_actions (λ db,
    let '(db, r) := materialize_template uuid db rt args now in (db, Ok r))).
Proof.
  apply zoom_actions_steps. intros db. pose proof (materialize_steps uuid db rt args now) as H.
  destruct (materialize_template _ _ _ _ _). exact H.
Qed.

(** One statement on one table. *)
Ltac table_step := first
  [ unfold on_actions; apply zoom_actions_steps
  | unfold on_signals; apply zoom_signals_steps
  | unfold on_checkpoints; apply zoom_checkpoints_steps
  | unfold on_routines; apply zoom_routines_steps ];
  intros ?; apply statement_steps; intros ? ? ?;
  first
    [ eapply pair_step; [|eassumption]; solve [econstructor; eassumption]
    | econstructor; eassumption ].

Ltac request_steps :=
  repeat first [ progress handler_steps | table_step ].

Hint Resolve charge_steps emit_steps check_metadata_steps resolve_steps freeze_steps materialise_steps : steps.

(** Every handler, whatever it answers, only takes steps of the components. *)
Lemma serve_steps rd keypair req params : stepping evolves (serve rd keypair req params).
Proof.
  destruct req; simpl.
  - unfold handle_action_create. request_steps.
  - unfold handle_action_transition. request_steps.
  - unfold handle_action_add_edge. request_steps.
    unfold on_actions. apply zoom_actions_steps. intros db. apply statement_steps. intros db' [].
    destruct (add_edge _ _ _ _ _) as [db1|] eqn:E; [|done]. intros [= <-]. by eapply Actions.step_edge.
  - unfold handle_lease_acquire, lease_expiry. request_steps.
  - unfold handle_lease_renew, lease_expiry. request_steps.
  - unfold handle_lease_release. request_steps.
  - unfold handle_signal_send_with_hooks, run_pre_signal_send, attest_signal. request_steps.
  - unfold handle_signal_read. request_steps.
  - unfold handle_signal_ack_with_hooks. request_steps.
  - unfold handle_checkpoint_create. request_steps.
  - unfold handle_checkpoint_resolve. request_steps.
  - unfold handle_routine_create. request_steps.
  - unfold handle_routine_freeze. request_steps.
  - unfold handle_routine_run. request_steps.
Qed.

(* ------------------------------------------------------------------ *)
(** * Invariants of the whole substrate *)

(** Every table is well formed, no transaction is open, and the ledger is
    what the writer made. *)
Record sound (st : Substrate) : Prop := mkSound {
  so_actions : db_wf (sb_actions st);
  so_signals : signals_wf (sb_signals st);
  so_quotas : all_within (sb_quotas st);
  so_tx : q_in_tx (sb_quotas st) = false;
  so_events : written (ce_audit_sign env) (sb_events st)
}.

Lemma quota_step_within db db' : defaults_ok (ce_defaults env) →
  quota_step db db' → all_within db ∧ q_in_tx db = false → all_within db' ∧ q_in_tx db' = false.
Proof.
  intros Hd [t now a n b Hb] [Hw Htx].
  pose proof (storage_only_eq (ce_defaults env) t now db a n b Hd Hw Htx Hb) as H. cbv zeta in H.
  pose proof (ensured_within (ce_defaults env) t db (a, n) Hd Hw) as Hw1.
  pose proof (ensured_in_tx (ce_defaults env) t db (a, n)) as Htx1.
  destruct (usage _ _) as [[m s] l]. destruct (check_and_record_storage_only _ _ _ _ _ _ _) as [db2 answer].
  simpl. case_decide.
  - destruct H as [-> _]. by rewrite Htx1.
  - destruct H as [_ (r' & Hr & _ & Hr' & _ & _ & _ & _ & Htx')]. rewrite Htx', Htx1. split; [|done].
    intros k r. rewrite Hr. intros [[<- <-]|[_ Hk]]%lookup_insert_Some; [done|]. by apply (Hw1 k).
Qed.

Lemma event_steps_written db db' :
  rtc event_step db db' → written (ce_audit_sign env) db → written (ce_audit_sign env) db'.
Proof. induction 1 as [|? ? ? []]; [done|]. eauto using written. Qed.

Lemma evolves_sound st st' : defaults_ok (ce_defaults env) → evolves st st' → sound st → sound st'.
Proof.
  intros Hd [Ha Hs _ _ Hq He] [Wa Ws Wq Wt We].
  assert (all_within (sb_quotas st') ∧ q_in_tx (sb_quotas st') = false) as [? ?].
  { clear -Hd Hq Wq Wt. induction Hq as [|? ? ? H1 _ IH]; [done|].
    destruct (quota_step_within _ _ Hd H1 (conj Wq Wt)). auto. }
  split; [| |done|done|by eapply event_steps_written].
  - clear -Ha Wa. induction Ha as [|? ? ? H1 _ IH]; [done|]. by eapply IH, coord_step_preserves_wf.
  - clear -Hs Ws KB SD. induction Hs as [|? ? ? H1 _ IH]; [done|]. by eapply IH, step_wf.
Qed.

Lemma requests_evolve st st' : rtc request_step st st' → evolves st st'.
Proof.
  induction 1 as [|st st1 st' (rd & kp & req & params & ->) _ IH]; [done|].
  etrans; [apply (serve_steps rd kp req params st)|exact IH].
Qed.

(** C3: the tools refine the components. Whatever requests are served, with
    whatever parameters, keys, hooks, clocks and identifiers, and whether they
    succeed or fail, every table has moved only by the operations of its
    component; so the tables stay well formed, no agent is over its storage
    quota, and the audit ledger verifies without a break. *)
Theorem coordination_refines `{!LedgerCryptoLaws LC} st st' vk rk :
  defaults_ok (ce_defaults env) → sound st → rtc request_step st st' →
  evolves st st' ∧ sound st' ∧ chain_break (verify_chain vk rk (sb_events st') None) = None.
Proof.
  intros Hd Hs Hr%requests_evolve. pose proof (evolves_sound _ _ Hd Hr Hs) as Hs'. split_and!; [done..|].
  rewrite verify_intact; [done|]. eapply written_intact, (so_events _ Hs').
Qed.

(* ------------------------------------------------------------------ *)
(** * What the ledger records *)

(** An event: its type, its actor, the parts its hash commits to. *)
Abbreviation event := (string * string * list string)%type.

(** The event a request that was answered [r] should leave. *)
Definition audit_of (rd : Readings) (st : Substrate) (params : value) (req : Request) (r : result Answer CoordError) :
    option event :=
  match req, r with
  | ActionCreate, Ok (AnAction a) =>
      Some (ACTION_CREATE, default "" (act_agent_id a), [act_id a; act_kind a; "create"])
  | ActionTransition, Ok _ =>
      let actor := param_str params "claimed_by" in
      Some (ACTION_TRANSITION, actor, [default "" (param_trimmed params "id"); param_str params "to"; actor])
  | ActionAddEdge, Ok _ =>
      Some (ACTION_ADD_EDGE, "", [param_str params "from_action"; param_str params "to_action";
                                  param_str params "edge_type"])
  | LeaseAcquire_, Ok _ =>
      Some (LEASE_ACQUIRE, param_str params "holder", [param_str params "action_id"; param_str params "holder"])
  | LeaseRenew, Ok _ =>
      Some (LEASE_RENEW, param_str params "holder", [param_str params "action_id"; param_str params "holder"])
  | LeaseRelease, Ok (AReleased true) =>
      Some (LEASE_RELEASE, param_str params "holder", [param_str params "action_id"; param_str params "holder"])
  | SignalSend _, Ok (ASignal s _) =>
      Some (SIGNAL_SEND, sig_from_agent s,
            [sig_id s; sig_from_agent s; default "" (sig_to_agent s); sig_subject s;
             SignalType_as_str (sig_signal_type s)])
  | SignalAck_, Ok (AnAck true ack) =>
      let actor := default "" (ack ≫= ack_to_agent) in
      Some (SIGNAL_ACK, actor, [default "" (param_trimmed params "id"); actor; "ack"])
  | CheckpointCreate, Ok (ACheckpoint c _) =>
      Some (CHECKPOINT_CREATE, cp_created_by c, [cp_id c; cp_created_by c; "create"])
  | CheckpointResolve, Ok _ =>
      let by_ := param_str params "resolved_by" in
      Some (CHECKPOINT_RESOLVE, by_, [default "" (param_trimmed params "id"); by_; param_str params "state"])
  | RoutineCreate, Ok (ARoutine r _) => Some (ROUTINE_CREATE, rt_created_by r, [rt_id r; rt_name r; "create"])
  | RoutineFreeze, Ok (ARoutine r _) => Some (ROUTINE_FREEZE, rt_created_by r, [rt_id r; rt_created_by r; "freeze"])
  | RoutineRun_, Ok _ =>
      let id := default "" (param_either params "routine_id" "id") in
      Some (ROUTINE_RUN, default "" (rt_created_by <$> routine_get (sb_routines st) id), [id; rd_uuid rd; "run"])
  | _, _ => None
  end.

(** The ledger after: one more row, of that event, or the same rows. *)
Definition logged (rd : Readings) (before after : ledger) (o : option event) : Prop :=
  match o with
  | None => after = before
  | Some (ty, actor, parts) =>
      ∃ row, after = before ++ [row] ∧ er_id row = rd_event_id rd ∧ er_event_type row = ty
        ∧ er_agent_id row = actor ∧ er_payload_hash row = sha256 (identity_bytes parts)
  end.

(** The ledger can take the row: no transaction is open, it is intact and the
    identifier is new. *)
Definition can_log (rd : Readings) (st : Substrate) : Prop :=
  q_in_tx (sb_quotas st) = false ∧ intact (sb_events st) ∧ rd_event_id rd ∉ er_id <$> sb_events st.

(** Leaves the ledger alone, and the connection out of a transaction. *)
Definition silent (a b : Substrate) : Prop :=
  sb_events b = sb_events a ∧ (q_in_tx (sb_quotas a) = false → q_in_tx (sb_quotas b) = false).

#[global] Instance silent_preorder : PreOrder silent.
Proof. split; [by split|]. intros a b c [] []. split; [congruence|auto]. Qed.

Definition audited {A} (rd : Readings) (st : Substrate) (h : coord A) (spec : result A CoordError → option event) : Prop :=
  can_log rd st → logged rd (sb_events st) (sb_events (h st).1) (spec (h st).2).

Lemma silent_can_log rd a b : silent a b → can_log rd a → can_log rd b.
Proof. intros [E Htx] (?&?&?). unfold can_log. rewrite E. auto. Qed.

Lemma audited_bind {A B} rd st (m : coord A) (k : A → coord B) spec :
  stepping silent m → (∀ e, spec (Err e) = None) →
  (∀ a st', m st = (st', Ok a) → silent st st' → audited rd st' (k a) spec) → audited rd st (m ≫= k) spec.
Proof.
  intros Hm He Hk Hst. specialize (Hm st). unfold mbind, handler_bind. destruct (m st) as [st' [a|e]] eqn:E; simpl in *.
  - rewrite <-(proj1 Hm). apply (Hk a st' eq_refl Hm). by eapply silent_can_log.
  - rewrite He. apply Hm.
Qed.

Lemma audited_ret {A} rd st (a : A) spec : spec (Ok a) = None → audited rd st (mret a) spec.
Proof. intros Hs _. simpl. by rewrite Hs. Qed.

Lemma audited_throw {A} rd st e spec : spec (Err e) = None → audited (A := A) rd st (throw e) spec.
Proof. intros Hs _. simpl. by rewrite Hs. Qed.

Lemma audited_map {A B} rd st (h : coord A) (f : A → B) spec :
  audited rd st h (λ r, spec (match r with Ok a => Ok (f a) | Err e => Err e end)) →
  audited rd st (a ← h; mret (f a)) spec.
Proof. intros H Hst. specialize (H Hst). unfold mbind, handler_bind. by destruct (h st) as [st' [a|e]]. Qed.

Lemma emit_logged `{!LedgerCryptoLaws LC} rd st ty actor parts : can_log rd st →
  ∃ ev, emit env rd ty actor parts st = (set_events ev st, Ok tt)
    ∧ logged rd (sb_events st) ev (Some (ty, actor, parts)).
Proof.
  intros (Htx & Hi & Hfresh). unfold emit, update. rewrite Htx. cbv zeta.
  set (e := with_daemon_signature _ _ _ _ _ _ _).
  pose proof (append_cases (ce_audit_sign env) (sb_events st) e Hi) as H.
  destruct (append_signed_event_no_tx _ _ e) as [ev|]; [|by destruct Hfresh].
  destruct H as (_ & r & -> & _ & [= Hid Hagent Htype Hhash _ _ _ _ _]). eexists. split; [done|].
  exists r. by rewrite Hid, Hagent, Htype, Hhash.
Qed.

(** Emitting, then steps that cannot fail and do not log. *)
Lemma audited_emit `{!LedgerCryptoLaws LC} {A} rd st ty actor parts (k : unit → coord A) spec :
  stepping silent (k tt) → (∀ st', ∃ a, (k tt st').2 = Ok a ∧ spec (Ok a) = Some (ty, actor, parts)) →
  audited rd st (emit env rd ty actor parts ≫= k) spec.
Proof.
  intros Hk Hspec Hst. destruct (emit_logged rd st ty actor parts Hst) as (ev & E & Hl).
  unfold mbind, handler_bind. rewrite E. specialize (Hk (set_events ev st)).
  destruct (Hspec (set_events ev st)) as (a & -> & ->). by rewrite (proj1 Hk).
Qed.

Lemma zoom_silent {T A} get put (h : handler T CoordError A) :
  (∀ t st, sb_events (put t st) = sb_events st ∧ sb_quotas (put t st) = sb_quotas st) →
  stepping silent (zoom get put h).
Proof.
  intros Hput st. unfold zoom. destruct (h (get st)) as [t r]. simpl. destruct (Hput t st) as [E1 E2].
  split; [done|]. by rewrite E2.
Qed.

Lemma charge_silent rd agent ns strs jsons : stepping silent (charge env rd agent ns strs jsons).
Proof.
  unfold charge. destruct (str_is_empty agent); [apply stepping_ret; apply _|]. cbv zeta. intros st. unfold zoom.
  set (b := coordination_payload_bytes _ _).
  pose proof (storage_only_in_tx (ce_defaults env) (rd_ensured_at rd) (rd_quota_now rd) (sb_quotas st) agent ns b) as H.
  destruct (check_and_record_storage_only _ _ _ _ _ _ _) as [q r]. simpl in *. split; simpl; [done|by rewrite H].
Qed.

Lemma check_metadata_silent metadata : stepping silent (check_metadata env metadata).
Proof. unfold check_metadata. destruct (json_is_null metadata), (validate_metadata (ce_mode env) metadata); eauto with steps typeclass_instances. Qed.

Hint Resolve charge_silent check_metadata_silent : steps.
Hint Extern 3 (stepping silent (on_actions _)) => by apply zoom_silent : steps.
Hint Extern 3 (stepping silent (on_signals _)) => by apply zoom_silent : steps.
Hint Extern 3 (stepping silent (on_checkpoints _)) => by apply zoom_silent : steps.
Hint Extern 3 (stepping silent (on_routines _)) => by apply zoom_silent : steps.
Hint Extern 3 (stepping silent (zoom _ _ _)) => by apply zoom_silent : steps.

(** Down to the event, or to an answer that has none. *)
Ltac audit_steps :=
  repeat first
    [ progress cbv zeta
    | lazymatch goal with
      | |- audited _ _ (emit _ _ _ _ _ ≫= _) _ =>
          apply audited_emit; [handler_steps|intros ?; eexists; split; [reflexivity|]]
      | |- audited _ _ (mret _) _ => apply audited_ret; reflexivity
      | |- audited _ _ (throw _) _ => apply audited_throw; reflexivity
      | |- audited _ _ (_ ≫= _) _ => apply audited_bind; [solve [handler_steps]|reflexivity|intros ? ? ? ?]
      | |- audited _ _ (match ?x with _ => _ end) _ => destruct x eqn:?
      end ].

Lemma zoom_statement_Ok {T A} (get : Substrate → T) put (f : T → result (T * A) sql_error) st st' a :
  zoom get put (statement SqlFailed f) st = (st', Ok a) → ∃ t, f (get st) = Ok (t, a) ∧ st' = put t st.
Proof.
  unfold zoom, statement. destruct (f (get st)) as [[t b]|e]; simpl; [|done]. intros [= <- <-]. eauto.
Qed.

Lemma some_or_Ok {A} (o : option A) (e : CoordError) (st st' : Substrate) a :
  some_or o e st = (st', Ok a) → o = Some a ∧ st' = st.
Proof. destruct o; by intros [= <- <-]. Qed.

Lemma check_Ok b (e : CoordError) (st st' : Substrate) u : check b e st = (st', Ok u) → b = true ∧ st' = st.
Proof. destruct b; by intros [= <- <-]. Qed.

Lemma verdict_of_spelling s c : verdict_of s = Some c → CheckpointState_as_str c = s.
Proof.
  unfold verdict_of. destruct (CheckpointState_from_str s) as [c'|] eqn:E; [|done].
  apply wire_exact in E as ->. by destruct c'; intros [= <-].
Qed.

Lemma run_insert_id db r db' id : run_insert db r = Ok (db', id) → id = run_id r.
Proof.
  unfold run_insert. destruct (routine_runs db !! run_id r); [done|]. destruct (is_some _); [|done].
  by intros [= _ <-].
Qed.

Lemma create_id db a db' id : create db a = Ok (db', id) → id = act_id a.
Proof. unfold create. destruct (actions db !! act_id a); [done|]. by intros [= _ <-]. Qed.

(** Reads the answers of the steps before. *)
Ltac answered :=
  repeat match goal with
  | H : some_or _ _ _ = _ |- _ => apply some_or_Ok in H as [? ->]
  | H : check _ _ _ = _ |- _ => apply check_Ok in H as [_ ->]
  | H : gets _ _ = _ |- _ => injection H as <- <-
  end.

Lemma emit_last `{!LedgerCryptoLaws LC} rd st ty actor parts spec :
  spec (Ok tt) = Some (ty, actor, parts) → audited rd st (emit env rd ty actor parts) spec.
Proof.
  intros Hs Hst. destruct (emit_logged rd st ty actor parts Hst) as (ev & -> & Hl). simpl. by rewrite Hs.
Qed.

(** C4: which requests are recorded, and how. When the ledger can take a row (no
    transaction is open, its chain is intact and the event's identifier is
    fresh), a request that succeeds leaves exactly one new row if it creates an
    action, a checkpoint or a routine, moves an action, adds an edge, acquires or
    renews a lease, sends a signal, resolves a checkpoint, freezes or runs a
    routine, releases a lease that was held or acknowledges a signal that was
    not. The row has the type of the request, the agent it names and the hash of
    what identifies it, and it is left even if the request repeats what is there,
    an edge or a freeze. Every other request leaves none: one that fails, a
    release or an acknowledgement that finds nothing to do, a query, and the
    reading of a signal, which does stamp it as read. *)
Theorem requests_audited `{!LedgerCryptoLaws LC} rd keypair req params st :
  can_log rd st →
  let '(st', r) := serve rd keypair req params st in
  logged rd (sb_events st) (sb_events st') (audit_of rd st params req r).
Proof.
  intros Hst. cut (audited rd st (serve rd keypair req params) (audit_of rd st params req)).
  { intros H. specialize (H Hst). by destruct (serve _ _ _ _ _). }
  clear Hst. destruct req; simpl; apply audited_map.
  - unfold handle_action_create. audit_steps.
    match goal with H : on_actions _ _ = _ |- _ => apply zoom_statement_Ok in H as (t & E & _) end.
    by apply create_id in E as ->.
  - unfold handle_action_transition. audit_steps. done.
  - unfold handle_action_add_edge. audit_steps. by apply emit_last.
  - unfold handle_lease_acquire, lease_expiry. audit_steps. done.
  - unfold handle_lease_renew, lease_expiry. audit_steps. done.
  - unfold handle_lease_release. audit_steps. destruct a; audit_steps. done.
  - unfold handle_signal_send_with_hooks, run_pre_signal_send, attest_signal. audit_steps. done.
  - unfold handle_signal_read. audit_steps.
  - unfold handle_signal_ack_with_hooks. audit_steps. by destruct a0.
  - unfold handle_checkpoint_create. audit_steps. done.
  - unfold handle_checkpoint_resolve. audit_steps.
    match goal with H : some_or _ _ _ = _ |- _ => apply some_or_Ok in H as [E _] end.
    unfold audit_of, param_str. destruct (param_text params "state") as [w|]; [|done].
    by apply verdict_of_spelling in E as ->.
  - unfold handle_routine_create. audit_steps. done.
  - unfold handle_routine_freeze. audit_steps. done.
  - unfold handle_routine_run. audit_steps.
    apply audited_emit; [handler_steps|]. intros st1. answered.
    match goal with H : on_routines _ _ = _ |- _ => apply zoom_statement_Ok in H as (t & E & _) end.
    apply run_insert_id in E as ->. unfold audit_of.
    match goal with H : param_either _ _ _ = _, H' : routine_get _ _ = _ |- _ => rewrite H; simpl default; rewrite H' end.
    unfold on_routines, zoom, statement, mbind, handler_bind.
    destruct (materialize_template _ _ _ _ _) as [db1 [ids|e]]; destruct (run_set_state _ _ _ _ _ _);
      eexists; (split; [reflexivity|]); done.
Qed.

(* ------------------------------------------------------------------ *)
(** * What a failed request leaves *)

(** Every table but the quotas is as it was. *)
Definition kept (a b : Substrate) : Prop :=
  sb_actions b = sb_actions a ∧ sb_signals b = sb_signals a ∧ sb_checkpoints b = sb_checkpoints a
  ∧ sb_routines b = sb_routines a ∧ sb_events b = sb_events a.

#[global] Instance kept_preorder : PreOrder kept.
Proof. split; [done|]. intros a b c (?&?&?&?&?) (?&?&?&?&?). split_and!; congruence. Qed.

Definition inert {A} (st : Substrate) (h : coord A) : Prop :=
  ∀ e, (h st).2 = Err e → (∀ se, e ≠ SignatureFailed se) → kept st (h st).1.

Definition never_fails {A} (h : coord A) : Prop := ∀ st, ∃ a, (h st).2 = Ok a.

Lemma inert_ret {A} st (a : A) : inert st (mret a).
Proof. done. Qed.
Lemma inert_throw {A} st e : inert (A := A) st (throw e).
Proof. by intros e' _ _. Qed.

Lemma inert_bind {A B} st (m : coord A) (k : A → coord B) :
  stepping kept m → (∀ a st', m st = (st', Ok a) → inert st' (k a)) → inert st (m ≫= k).
Proof.
  intros Hm Hk e. specialize (Hm st). unfold mbind, handler_bind. destruct (m st) as [st' [a|e']] eqn:E; simpl in *.
  - intros He Hs. etrans; [exact Hm|by apply (Hk a st' eq_refl e)].
  - done.
Qed.

(** The last statement that can fail, and steps that cannot. *)
Lemma inert_commit {A B} st (m : coord A) (k : A → coord B) :
  inert st m → (∀ a, never_fails (k a)) → inert st (m ≫= k).
Proof.
  intros Hm Hk e. specialize (Hm e). unfold mbind, handler_bind. destruct (m st) as [st' [a|e']]; simpl in *.
  - by destruct (Hk a st') as [b ->].
  - intros [= ->]. by apply Hm.
Qed.

(** A statement whose outcome may still be refused. *)
Lemma inert_outcome {A B} st (m : coord A) (k : A → coord B) :
  inert st m → (∀ a st', m st = (st', Ok a) → never_fails (k a) ∨ kept st st' ∧ inert st' (k a)) → inert st (m ≫= k).
Proof.
  intros Hm Hk e. specialize (Hm e). unfold mbind, handler_bind.
  destruct (m st) as [st' [a|e']] eqn:E; simpl in *; [|intros [= ->]; by apply Hm].
  destruct (Hk a st' eq_refl) as [H|[H1 H2]]; [by destruct (H st') as [b ->]|].
  intros He Hs. etrans; [exact H1|by apply (H2 e)].
Qed.

Lemma inert_statement {T A} get put (f : T → result (T * A) sql_error) st :
  put (get st) st = st → inert st (zoom get put (statement SqlFailed f)).
Proof.
  intros Hput e. unfold zoom, statement. destruct (f (get st)) as [[t a]|]; [done|]. simpl. by rewrite Hput.
Qed.

Lemma inert_map {A B} st (h : coord A) (f : A → B) : inert st h → inert st (a ← h; mret (f a)).
Proof. intros H. apply inert_commit; [done|]. intros a st'. by eexists. Qed.

Lemma never_ret {A} (a : A) : never_fails (mret a).
Proof. intros st. by eexists. Qed.
Lemma never_gets {A} (f : Substrate → A) : never_fails (gets f).
Proof. intros st. by eexists. Qed.
Lemma never_emit rd ty actor parts : never_fails (emit env rd ty actor parts).
Proof. intros st. unfold emit, update. case_match. by eexists. Qed.
Lemma never_bind {A B} (m : coord A) (k : A → coord B) :
  never_fails m → (∀ a, never_fails (k a)) → never_fails (m ≫= k).
Proof.
  intros Hm Hk st. unfold mbind, handler_bind. destruct (Hm st) as [a Ha]. destruct (m st) as [st' r]. simpl in Ha.
  subst r. apply Hk.
Qed.
Lemma never_pair {T A} get put (f : T → T * A) : never_fails (zoom get put (statement SqlFailed (λ t, Ok (f t)))).
Proof. intros st. unfold zoom, statement. destruct (f (get st)). by eexists. Qed.
Lemma never_lift {T A} get put (f : T → T * A) :
  never_fails (zoom get put (λ t, let '(t, a) := f t in (t, Ok a))).
Proof. intros st. unfold zoom. destruct (f (get st)). by eexists. Qed.

Hint Resolve never_ret never_gets never_emit : steps.

Lemma charge_kept rd agent ns strs jsons : stepping kept (charge env rd agent ns strs jsons).
Proof.
  unfold charge. destruct (str_is_empty agent); [apply stepping_ret; apply _|]. intros st. unfold zoom.
  by destruct (check_and_record_storage_only _ _ _ _ _ _ _).
Qed.
Lemma check_metadata_kept metadata : stepping kept (check_metadata env metadata).
Proof. unfold check_metadata. destruct (json_is_null metadata), (validate_metadata (ce_mode env) metadata); eauto with steps typeclass_instances. Qed.
Hint Resolve charge_kept check_metadata_kept : steps.

Ltac never_steps :=
  repeat first
    [ progress intros
    | solve [eauto with steps]
    | lazymatch goal with
      | |- never_fails (_ ≫= _) => apply never_bind
      | |- never_fails (match ?x with _ => _ end) => destruct x
      | |- never_fails (on_routines _) => apply never_pair
      | |- never_fails (zoom _ _ _) => apply never_lift
      end ].

Ltac inert_steps :=
  repeat first
    [ progress cbv zeta
    | lazymatch goal with
      | |- inert _ (mret _) => apply inert_ret
      | |- inert _ (throw _) => apply inert_throw
      | |- inert _ (match ?x with _ => _ end) => destruct x eqn:?
      | |- inert _ (_ ≫= _) =>
          first [ apply inert_bind; [solve [handler_steps]|intros ? ? ?]
                | apply inert_commit; [apply inert_statement; by match goal with |- _ = ?s => destruct s end
                                      |solve [never_steps]] ]
      end ].

Lemma transition_unmoved db id to who now db' o :
  transition db id to who now = Ok (db', o) → (∀ a, o ≠ Updated a) → db' = db.
Proof.
  unfold transition. destruct (row_state <$> _); [|by intros [= <- <-]].
  destruct (negb _); [by intros [= <- <-]|]. destruct (refetch _ _); [|done]. simpl.
  intros [= <- <-] H. by destruct (H a).
Qed.

Lemma acquire_unmoved db a h now e db' : lease_acquire db a h now e = Ok (db', Conflict) → db' = db.
Proof.
  unfold lease_acquire, lease_write. destruct (lease_blocked _ _ _ _); [by intros [= <-]|].
  by destruct (actions db !! a).
Qed.

Lemma renew_unmoved db a h now e db' : lease_renew db a h now e = (db', None) → db' = db.
Proof. unfold lease_renew. destruct (leases db !! a); [|by intros [= <-]]. case_decide; by intros [= <-]. Qed.

Lemma resolve_unmoved db id state by_ resolution note at_ kp db' :
  resolve db id state by_ resolution note at_ kp = (db', Ok None) → db' = db.
Proof.
  unfold resolve. destruct (db !! id); [|by intros [= <-]]. destruct kp as [kp|]; [|done].
  destruct (can_sign kp); [|done]. by destruct (sign_resolution_into _ _).
Qed.

Lemma freeze_unmoved db id at_ kp db' : routine_freeze db id at_ kp = (db', Ok None) → db' = db.
Proof.
  pose proof (routine_freeze_cases db id at_ kp) as Hc. destruct (routines db !! id) eqn:Hr.
  - cbv zeta in Hc. destruct Hc as [[_ ->]|(k & _ & _ & Hc)]; [done|]. destruct (sign_freeze_into _ _); by rewrite Hc.
  - rewrite Hc. unfold freeze_draft. rewrite Hr. by intros [= <-].
Qed.

(** C5: a request that fails, other than for want of a signature, leaves
    every table as it was, the storage quotas aside. *)
Theorem failed_requests_inert rd keypair req params st :
  let '(st', r) := serve rd keypair req params st in
  ∀ e, r = Err e → (∀ se, e ≠ SignatureFailed se) → kept st st'.
Proof.
  cut (inert st (serve rd keypair req params)).
  { intros H. by destruct (serve rd keypair req params st) eqn:E; intros e He; specialize (H e); rewrite E in H; auto. }
  destruct req; simpl; apply inert_map.
  - unfold handle_action_create. inert_steps.
  - unfold handle_action_transition. inert_steps.
    apply inert_outcome; [apply inert_statement; by destruct st'|]. intros o st2 (t & E & ->)%zoom_statement_Ok.
    destruct o; [right|right|left; never_steps]; apply transition_unmoved in E as ->; done.
  - unfold handle_action_add_edge. inert_steps.
  - unfold handle_lease_acquire, lease_expiry. inert_steps.
    apply inert_outcome; [apply inert_statement; by destruct st'|]. intros o st2 (t & E & ->)%zoom_statement_Ok.
    destruct o; [right|left; never_steps]; apply acquire_unmoved in E as ->; done.
  - unfold handle_lease_renew, lease_expiry. inert_steps.
    apply inert_outcome; [apply inert_statement; by destruct st'|]. intros o st2 (t & [= E] & ->)%zoom_statement_Ok.
    destruct o; [left; never_steps|right]; apply renew_unmoved in E as ->; done.
  - unfold handle_lease_release. inert_steps.
  - unfold handle_signal_send_with_hooks, run_pre_signal_send, attest_signal. inert_steps.
  - unfold handle_signal_read. inert_steps.
  - unfold handle_signal_ack_with_hooks. inert_steps.
  - unfold handle_checkpoint_create. inert_steps.
  - unfold handle_checkpoint_resolve. inert_steps. apply inert_outcome.
    + intros e. unfold zoom. destruct (resolve _ _ _ _ _ _ _ _) as [t [o|[se]]]; [done|]. simpl.
      intros [= <-] Hs. by destruct (Hs se).
    + intros o st2. unfold zoom. destruct (resolve _ _ _ _ _ _ _ _) as [t [o'|[se]]] eqn:E; [|done].
      intros [= <- <-]. destruct o' as [c|]; [left; never_steps|right]. by apply resolve_unmoved in E as ->.
  - unfold handle_routine_create. inert_steps.
  - unfold handle_routine_freeze. inert_steps. apply inert_outcome.
    + intros e. unfold zoom. destruct (routine_freeze _ _ _ _) as [t [o|[se]]]; [done|]. simpl.
      intros [= <-] Hs. by destruct (Hs se).
    + intros o st2. unfold zoom. destruct (routine_freeze _ _ _ _) as [t [o'|[se]]] eqn:E; [|done].
      intros [= <- <-]. destruct o' as [c|]; [left; never_steps|right]. by apply freeze_unmoved in E as ->.
  - unfold handle_routine_run. inert_steps.
Qed.

(* ------------------------------------------------------------------ *)
(** * Charges, runs, leases *)

(** A send that fails keeps its charge. Answering a signal that does not
    exist is refused by the table, after the payload was charged: nothing is
    stored or logged, and the sender's storage counter has grown by the whole
    payload, every time the request is sent. *)
Lemma failed_send_keeps_charge rd params st p m used l :
  let s := signal_of_params rd params in
  let agent := sig_from_agent s in
  let b := coordination_payload_bytes [sig_subject s] (json_to_string <$> [sig_body s; sig_reference_ids s]) in
  let k := (agent, sig_namespace s) in
  let r := ensured_row (ce_defaults env) (rd_ensured_at rd) (sb_quotas st) k in
  defaults_ok (ce_defaults env) → all_within (sb_quotas st) → q_in_tx (sb_quotas st) = false →
  agent ≠ "" → usage (day_bucket (rd_quota_now rd)) r = (m, used, l) → (used + b ≤ q_max_storage_bytes r)%Z →
  sb_signals st !! sig_id s = None → sig_in_reply_to s = Some p → p ≠ sig_id s → sb_signals st !! p = None →
  ∃ q, serve rd None (SignalSend None) params st = (set_quotas q st, Err (SqlFailed ConstraintForeignKey))
    ∧ charged (rd_quota_now rd) (ensured (ce_defaults env) (rd_ensured_at rd) (sb_quotas st) k) q k r
        (m, (used + b)%Z, l).
Proof.
  intros s agent b k r Hd Hw Htx Ha Hu Hb Hid Hp Hne Hpar.
  pose proof (storage_only_eq (ce_defaults env) (rd_ensured_at rd) (rd_quota_now rd) (sb_quotas st) agent
    (sig_namespace s) b Hd Hw Htx (payload_bytes_count _ _)) as H. cbv zeta in H. fold k in H. fold r in H. rewrite Hu in H.
  destruct (check_and_record_storage_only _ _ _ _ _ _ _) as [q answer] eqn:E. rewrite decide_False in H by lia.
  destruct H as [-> Hc]. exists q. split; [|exact Hc]. clear Hc Hu Hb.
  unfold serve, handle_signal_send_with_hooks, run_pre_signal_send, attest_signal, charge. fold s.
  unfold mbind, handler_bind, mret, handler_ret. cbn [fst snd]. fold agent.
  unfold str_is_empty. rewrite bool_decide_eq_false_2 by done. cbv zeta. unfold zoom at 1. fold b. rewrite E. cbv beta iota.
  unfold on_signals, zoom, statement, Signals.insert, reply_exists. simpl sb_signals. rewrite Hid, Hp, Hpar.
  rewrite bool_decide_eq_false_2 by done. by destruct st.
Qed.

Lemma emit_only_events rd ty actor parts st : ∃ ev, emit env rd ty actor parts st = (set_events ev st, Ok tt).
Proof.
  unfold emit, update. destruct (q_in_tx (sb_quotas st)); [by exists (sb_events st); destruct st|]. cbv zeta.
  destruct (append_signed_event_no_tx _ _ _); [by eexists|by exists (sb_events st); destruct st].
Qed.

(** What a run does. Of a frozen routine, under a fresh identifier, it
    leaves the actions and edges the materialisation leaves, finished or
    failed, charges nobody for them, and records itself: completed with the
    actions created, or failed with the reason and no action at all. *)
Lemma routine_run_exact rd kp params st id rt args :
  param_either params "routine_id" "id" = Some id → json_get params "arguments" ≫= json_as_object = Some args →
  routine_get (sb_routines st) id = Some rt → rt_state rt = Frozen →
  routine_runs (sb_routines st) !! rd_uuid rd = None →
  let '(acts, made) := materialize_template (rd_run_uuids rd) (sb_actions st) rt args (rd_now rd) in
  ∃ st' run row, serve rd kp RoutineRun_ params st = (st', Ok (ARun (Some run) made))
    ∧ sb_actions st' = acts ∧ sb_quotas st' = sb_quotas st ∧ routines (sb_routines st') = routines (sb_routines st)
    ∧ routine_runs (sb_routines st') = <[rd_uuid rd := row]> (routine_runs (sb_routines st))
    ∧ run = row_to_routine_run row ∧ ru_routine_id row = id ∧ ru_finished_at row = Some (rd_now rd)
    ∧ match made with
      | Ok ids => run_state run = Completed ∧ ru_error row = None
                  ∧ ru_created_action_ids row = json_to_string (JArray (JString <$> ids))
      | Err e => run_state run = RunFailed ∧ ru_error row = Some e
                  ∧ ru_created_action_ids row = json_to_string (JArray [])
      end.
Proof.
  intros Hid Hargs Hrt Hfr Hrun. destruct (materialize_template _ _ _ _ _) as [acts made] eqn:Em.
  assert (is_Some (routines (sb_routines st) !! id)) as [rrow Hrow].
  { unfold routine_get in Hrt. destruct (routines (sb_routines st) !! id); [by eexists|done]. }
  set (run0 := mkRun (rd_uuid rd) id (rt_namespace rt) (JObject args) Running (JArray []) (rd_now rd) None None (JObject [])).
  set (st1 := set_routines (with_runs (sb_routines st) (<[rd_uuid rd := run_to_row run0]> (routine_runs (sb_routines st)))) st).
  destruct (emit_only_events rd ROUTINE_RUN (rt_created_by rt) [id; rd_uuid rd; "run"] st1) as [ev Hev].
  assert (∀ o st2, handle_routine_run env rd params st = (st2, Ok o) →
    serve rd kp RoutineRun_ params st = (st2, Ok (ARun o.1 o.2))) as Hserve
    by (intros o st2 E; unfold serve; by rewrite (bind_Ok _ _ _ _ _ E)).
  set (fin := match made with
              | Ok ids => set_run_state Completed (Some (rd_now rd)) (Some (json_to_string (JArray (JString <$> ids)))) None
              | Err e => set_run_state RunFailed (Some (rd_now rd)) None (Some e)
              end (run_to_row run0)).
  exists (set_routines (with_runs (sb_routines st) (<[rd_uuid rd := fin]> (routine_runs (sb_routines st))))
            (set_actions acts (set_events ev st1))), (row_to_routine_run fin), fin.
  split; [|by destruct made].
  apply (Hserve (Some (row_to_routine_run fin), made)). unfold handle_routine_run. rewrite Hid, Hargs.
  do 2 (erewrite bind_Ok by reflexivity). erewrite bind_Ok by (unfold gets; by rewrite Hrt).
  erewrite bind_Ok by reflexivity. rewrite bool_decide_eq_true_2 by done. erewrite bind_Ok by reflexivity.
  erewrite bind_Ok.
  2: { unfold on_routines, zoom, statement, run_insert. simpl run_id. simpl run_routine_id. by rewrite Hrun, Hrow. }
  erewrite bind_Ok by exact Hev.
  erewrite bind_Ok by (unfold zoom; simpl sb_actions; rewrite Em; reflexivity).
  assert (∀ f : RoutineDb → RoutineDb * option RoutineRun, on_routines (λ db, Ok (f db)) (set_actions acts (set_events ev st1))
    = (set_routines (f (sb_routines st1)).1 (set_actions acts (set_events ev st1)), Ok (f (sb_routines st1)).2)) as Hlast
    by (intros f; unfold on_routines, zoom, statement; simpl; by destruct (f _)).
  destruct made as [ids|e]; erewrite bind_Ok by apply Hlast; unfold run_set_state; simpl;
    rewrite lookup_insert_eq; simpl; unfold with_runs; simpl; by rewrite insert_insert_eq.
Qed.

Lemma lease_expiry_Ok rd ttl (st st' : Substrate) e : lease_expiry rd ttl st = (st', Ok e) →
  st' = st ∧ (rd_now rd < e ≤ rd_now rd + 31536000)%Z ∧ (e ≤ i64_max)%Z.
Proof.
  unfold lease_expiry. intros (st1 & [] & [Hb%bool_decide_eq_true ->]%check_Ok & H)%bind_inv.
  apply bind_inv in H as (st2 & [] & [Hm%bool_decide_eq_true ->]%check_Ok & [= <- <-]). split_and!; (done || lia).
Qed.

(** A lease that is granted or renewed is for the caller, starts to count
    now and ends within a year: however large the time to live asked for, the
    expiry neither overflows nor lies in the past. *)
Lemma lease_bounded rd kp req params st l st' :
  req = LeaseAcquire_ ∨ req = LeaseRenew → serve rd kp req params st = (st', Ok (ALease l)) →
  lease_holder l = param_str params "holder"
  ∧ (rd_now rd < lease_expires_at l ≤ rd_now rd + 31536000)%Z ∧ (lease_expires_at l ≤ i64_max)%Z
  ∧ leases (sb_actions st') !! param_str params "action_id" = Some l.
Proof.
  intros [-> | ->] H; simpl in H; apply bind_inv in H as (st0 & l0 & H & [= <- <-]).
  - apply bind_inv in H as (? & e & (-> & He)%lease_expiry_Ok & H).
    apply bind_inv in H as (st1 & [|l] & (t & E & ->)%zoom_statement_Ok & H); [done|].
    apply bind_inv in H as (st2 & [] & Hem & [= <- <-]).
    destruct (emit_only_events rd LEASE_ACQUIRE (param_str params "holder")
      [param_str params "action_id"; param_str params "holder"] (set_actions t st)) as [ev Hev].
    rewrite Hev in Hem. injection Hem as <-. unfold lease_acquire, lease_write in E.
    destruct (lease_blocked _ _ _ _); [done|]. destruct (actions _ !! _); [|done]. injection E as <- <-. simpl.
    rewrite lookup_insert_eq. split_and!; (done || lia).
  - apply bind_inv in H as (? & e & (-> & He)%lease_expiry_Ok & H).
    apply bind_inv in H as (st1 & [l|] & (t & [= E] & ->)%zoom_statement_Ok & H); [|done].
    apply bind_inv in H as (st2 & [] & Hem & [= <- <-]).
    destruct (emit_only_events rd LEASE_RENEW (param_str params "holder")
      [param_str params "action_id"; param_str params "holder"] (set_actions t st)) as [ev Hev].
    rewrite Hev in Hem. injection Hem as <-. unfold lease_renew in E.
    destruct (leases _ !! _) as [l0|]; [|done]. case_decide; [|done]. injection E as <- <-. simpl.
    rewrite lookup_insert_eq. split_and!; (done || lia).
Qed.
End requests.


(* ------------------------------------------------------------------ *)
(** * What a recorded hash identifies *)

Definition unit_separator : string := String (Ascii.ascii_of_N 31) "".

Lemma identity_bytes_cons p q l : identity_bytes (p :: q :: l) = str_bytes p ++ FIELD_SEP :: identity_bytes (q :: l).
Proof. done. Qed.

(** What the recorded hash commits to. Lists of parts without the
    separator have the same bytes only when they are the same list; but the
    parts are free text, and moving the border of two parts past a separator
    changes the parts and not the bytes: the recipient and the subject of a
    recorded signal are not determined. *)
Lemma identity_binding :
  (∀ p q, p ≠ [] → q ≠ [] → Forall separator_free p → Forall separator_free q →
     identity_bytes p = identity_bytes q → p = q)
  ∧ (∀ id from a b c ty,
       identity_bytes [id; from; a; b +:+ unit_separator +:+ c; ty]
       = identity_bytes [id; from; a +:+ unit_separator +:+ b; c; ty]).
Proof.
  split.
  - induction p as [|x p IH]; intros q Hp Hq Fp Fq E; [done|]. destruct q as [|y q]; [done|].
    apply Forall_cons in Fp as [Hx Fp], Fq as [Hy Fq]. destruct p as [|x' p], q as [|y' q].
    + by apply str_bytes_inj in E as ->.
    + rewrite identity_bytes_cons in E. simpl in E. destruct Hx. rewrite E. apply elem_of_app. right. left.
    + rewrite identity_bytes_cons in E. simpl in E. destruct Hy. rewrite <-E. apply elem_of_app. right. left.
    + rewrite !identity_bytes_cons in E. apply split_at_separator in E as [->%str_bytes_inj E]; [|done..].
      f_equal. by apply IH.
  - intros id from a b c ty. rewrite !identity_bytes_cons, !str_bytes_app. change (str_bytes unit_separator) with [FIELD_SEP].
    rewrite <-!app_assoc. reflexivity.
Qed.

(* ------------------------------------------------------------------ *)
(** * Worked instances *)

#[local] Existing Instance demo_attest_crypto.
#[local] Existing Instance demo_key_codec.
#[local] Existing Instance demo_ledger_crypto.
#[local] Existing Instance demo_ledger_laws.
#[local] Existing Instance demo_sql_display.
#[local] Existing Instance log2_powers.
#[local] Instance demo_tools_json : JsonCodec := {|
  json_to_string v := match v with JObject _ => "T" | _ => "null" end;
  json_from_str s := if decide (s = "T") then Some (JObject (demo_template "kind" 1)) else Some JNull
|}.

Definition demo_env : CoordEnv := mkCoordEnv demo_defaults (λ _, None) ScreenOff.
Definition demo_rd (now : Z) (uuid event : string) : Readings :=
  mkReadings now uuid demo_today demo_today event demo_today demo_uuid.
Definition demo_frozen_row : routine_row :=
  mkRoutineRow "r1" "team" "release" "T" "null" "frozen" "ai:dora" 3 (Some 8%Z) (Some []) (Some []) "null".
Definition demo_sub : Substrate :=
  mkSubstrate (mkDb ∅ ∅ ∅) ∅ ∅ (mkRoutineDb {[ "r1" := demo_frozen_row ]} ∅) demo_quotas [].

Definition demo_new_action : value :=
  JObject [("kind", JString "build"); ("namespace", JString "team"); ("title", JString "ship")].
Definition demo_sub1 : Substrate := (serve demo_env (demo_rd 10 "a1" "e1") None ActionCreate demo_new_action demo_sub).1.
Definition demo_take : value :=
  JObject [("action_id", JString "a1"); ("holder", JString "ai:a"); ("ttl_secs", JNumber (NPosInt 600))].
Definition demo_sub2 : Substrate := (serve demo_env (demo_rd 20 "x" "e2") None LeaseAcquire_ demo_take demo_sub1).1.

Lemma demo_sound : sound demo_env demo_sub.
Proof.
  split; [split; intros; simplify_map_eq|intros id r H; by simplify_map_eq|exact demo_quotas_within|done|constructor].
Qed.

Lemma demo_requests : rtc (request_step demo_env) demo_sub demo_sub2.
Proof.
  apply (rtc_l _ _ demo_sub1); [by do 4 eexists|]. apply rtc_once. by do 4 eexists.
Qed.

Lemma coordination_refines_witness :
  rtc coord_step (sb_actions demo_sub) (sb_actions demo_sub2)
  ∧ chain_break (verify_chain None None (sb_events demo_sub2) None) = None ∧ length (sb_events demo_sub2) = 2.
Proof.
  destruct (coordination_refines demo_env demo_sub demo_sub2 None None demo_defaults_ok demo_sound demo_requests)
    as (He & _ & Hc).
  split_and!; [apply (ev_actions _ _ _ He)|exact Hc|vm_compute; reflexivity].
Defined.

Lemma requests_audited_witness :
  ∃ row, sb_events demo_sub1 = [row] ∧ er_event_type row = "coordination.action_create" ∧ er_id row = "e1".
Proof.
  pose proof (requests_audited demo_env (demo_rd 10 "a1" "e1") None ActionCreate demo_new_action demo_sub) as H.
  destruct (serve demo_env (demo_rd 10 "a1" "e1") None ActionCreate demo_new_action demo_sub) as [st' r] eqn:E.
  assert (st' = demo_sub1) as -> by (unfold demo_sub1; by rewrite E).
  assert (r = Ok (AnAction (mkAction "a1" "team" "build" Pending "ship" JNull 0 None None (JObject []) JNull 10 10))) as ->
    by (apply (f_equal snd) in E; vm_compute in E; by symmetry).
  assert (can_log (demo_rd 10 "a1" "e1") demo_sub) as Hcan
    by (split_and!; [reflexivity|by split|apply not_elem_of_nil]).
  specialize (H Hcan). cbn [audit_of logged] in H. destruct H as (row & Hr & Hid & Hty & _). by exists row.
Defined.

(** A second lease on the same action is refused. *)
Definition demo_rival : value := JObject [("action_id", JString "a1"); ("holder", JString "ai:b")].

Lemma failed_requests_inert_witness :
  ∃ st' e, serve demo_env (demo_rd 30 "x" "e3") None LeaseAcquire_ demo_rival demo_sub2 = (st', Err e)
    ∧ kept demo_sub2 st'.
Proof.
  pose proof (failed_requests_inert demo_env (demo_rd 30 "x" "e3") None LeaseAcquire_ demo_rival demo_sub2) as H.
  destruct (serve demo_env (demo_rd 30 "x" "e3") None LeaseAcquire_ demo_rival demo_sub2) as [st' [a|e]] eqn:E;
    [vm_compute in E; discriminate E|].
  exists st', e. split; [reflexivity|]. apply (H e eq_refl). vm_compute in E. by injection E as _ <-.
Defined.

Definition demo_dangling : value :=
  JObject [("from_agent", JString "ai:a"); ("in_reply_to", JString "gone"); ("namespace", JString "ns");
           ("subject", JString "hello")].

Lemma failed_send_keeps_charge_witness :
  ∃ q r, serve demo_env (demo_rd 10 "s1" "e1") None (SignalSend None) demo_dangling demo_sub
           = (set_quotas q demo_sub, Err (SqlFailed ConstraintForeignKey))
    ∧ quota_rows q !! ("ai:a", "ns") = Some r ∧ usage (day_bucket demo_today) r = (0%Z, 13%Z, 0%Z).
Proof.
  destruct (failed_send_keeps_charge demo_env (demo_rd 10 "s1" "e1") demo_dangling demo_sub "gone" 0 0 0)
    as (q & E & r & Hq & Hu & _).
  - exact demo_defaults_ok.
  - exact demo_quotas_within.
  - reflexivity.
  - discriminate.
  - vm_compute. reflexivity.
  - vm_compute. discriminate.
  - reflexivity.
  - reflexivity.
  - discriminate.
  - reflexivity.
  - exists q, r. split; [exact E|]. split; [by rewrite Hq, lookup_insert_eq|]. etrans; [exact Hu|vm_compute; reflexivity].
Defined.

Definition demo_run_it : value := JObject [("arguments", JObject demo_args); ("routine_id", JString "r1")].

Lemma routine_run_exact_witness :
  ∃ st' run, serve demo_env (demo_rd 30 "run1" "e1") None RoutineRun_ demo_run_it demo_sub
               = (st', Ok (ARun (Some run) (Ok ["u0"; "u1"])))
    ∧ sb_quotas st' = sb_quotas demo_sub ∧ run_state run = Completed.
Proof.
  pose proof (routine_run_exact demo_env (demo_rd 30 "run1" "e1") None demo_run_it demo_sub "r1"
    (row_to_routine demo_frozen_row) demo_args eq_refl eq_refl eq_refl eq_refl eq_refl) as H.
  destruct (materialize_template _ _ _ _ _) as [acts made] eqn:E.
  assert (made = Ok ["u0"; "u1"]) as -> by (vm_compute in E; by injection E as _ <-).
  destruct H as (st' & run & row & Hs & _ & Hq & _ & _ & _ & _ & _ & Hr & _). by exists st', run.
Defined.

Lemma lease_bounded_witness : ∃ l, leases (sb_actions demo_sub2) !! "a1" = Some l ∧ lease_holder l = "ai:a".
Proof.
  destruct (serve demo_env (demo_rd 20 "x" "e2") None LeaseAcquire_ demo_take demo_sub1) as [st' [a|e]] eqn:E;
    [|vm_compute in E; discriminate E].
  assert (st' = demo_sub2) as -> by (unfold demo_sub2; by rewrite E).
  destruct a as [| |l| | | | | | |]; try (vm_compute in E; discriminate E).
  destruct (lease_bounded demo_env (demo_rd 20 "x" "e2") None LeaseAcquire_ demo_take demo_sub1 l demo_sub2
    (or_introl eq_refl) E) as (Hh & _ & _ & Hl). by exists l.
Defined.

Lemma identity_binding_witness :
  identity_bytes ["s1"; "ai:a"; "bob"; "x" +:+ unit_separator +:+ "y"; "notify"]
  = identity_bytes ["s1"; "ai:a"; "bob" +:+ unit_separator +:+ "x"; "y"; "notify"]
  ∧ identity_bytes ["s1"; "ai:a"] ≠ identity_bytes ["s1"; "ai:b"].
Proof.
  split; [apply (proj2 identity_binding)|]. intros E.
  apply (proj1 identity_binding) in E; [discriminate E|done|done|..];
    repeat constructor; unfold separator_free; vm_compute; intros H;
    repeat (apply elem_of_cons in H as [H|H]; [discriminate H|]); by apply not_elem_of_nil in H.
Defined.
